(* ===== verification/_CoqProject ===== *)
-Q . S2P
Prelude.v
Interleave.v
Std.v
Crypto.v
Wire.v
Identity.v
UserId.v
Instances.v
X3DH.v
Records.v
Group.v
GroupSpec.v
GroupSession.v
Message.v
Delivery.v
Storage.v
FileStore.v
FileStoreProps.v
Recovery.v
Sealing.v
LocalState.v
LocalProps.v
Antirollback.v
History.v
HistoryProps.v
Groups.v
Codecs.v
WireOps.v
Peerbook.v
PeerbookProps.v
Flow.v
FlowProps.v
EndToEnd.v
FlowWitness.v
Outbox.v
OutboxProps.v
Registry.v
RegistrySpec.v
RegistryProps.v
RegistryRuns.v
RegistryAuth.v
RegistryWitness.v
RegistryPointers.v
RegistryApi.v
RegistryApiProps.v
RegistryAnswers.v
RegistryRecover.v
RegistryApiWitness.v
RegistryClient.v
RegistryEmail.v
RegistryServer.v
Client.v
Runtime.v
Shell.v
Once.v
Frame.v
Acceptance.v
Peers.v
Delivered.v
ClientWitness.v
Backup.v
BackupProps.v
Publish.v
BackupWitness.v
CliUtil.v
Dht.v
DhtProps.v
Cli.v
CliProps.v
CliWitness.v
Transport.v
TransportProps.v
Send.v
Mobile.v
MobileProps.v
MobileWitness.v
Linux.v
LinuxProps.v
LinuxWitness.v
