(* ===== verification/Prelude.v ===== *)
(** * Mycellium: a verification development for the Rust workspace

    Mycellium is a peer-to-peer messenger: users are wallets, every user has one
    active device, and devices talk directly, with end-to-end encryption and
    durable retry queues instead of a message server.  This library models the
    parts of [src/crates] that carry its logic - the protocol core
    ([mycellium-core]), the client engine ([mycellium-engine]), the encrypted
    file store and the identity at rest ([mycellium-storage]), the registry
    server ([mycellium-registry]), the framed transports ([mycellium-transport]),
    the client library ([mycellium-client]) and what the mobile client ([mycellium-mobile]), the desktop client
    ([mycellium-linux]) and the command line client ([mycellium-cli]) add to it - and proves what makes them correct.

    ** How the parts interact

    An [Identity] (wallet, device and messaging keys) publishes a self-certifying
    [SignedRecord].  Records that are looked up pass the trust checks ([verify],
    the trust level, the version pins) before anything is sealed for them.  A
    one-to-one payload is sealed with X3DH for the active device ([wireops.rs]);
    a group payload is encrypted once under the sender's ratchet ([group.rs]),
    whose key was distributed in sealed invites.  [flow/mod.rs] composes these
    with the local stores into sending and receiving; the outbox keeps what
    could not be delivered, the inbox what was accepted.  All state lives in an
    injected key-value [Storage], which the file store implements so that it
    survives a crash at any write.  The registry lets an account, known by an
    e-mail login, keep its recovery secret, a backup and its signed record; its
    requests run concurrently over one database and one directory of blobs.

    A client's threads share the store, the random source and the network: they
    send a parked delivery, flush the outbox, accept inbound frames
    ([client/runtime.rs]).  A sender marks an entry delivered on a signed
    acknowledgement, a receiver acknowledges what it has committed.  The user
    interfaces call the client library ([client/lib.rs]); the mobile client keeps
    one session, with its login at the registry; the desktop client keeps the same
    core behind a window whose threads report by a queue of events; the command line client finds
    records in a hash table and moves accounts by backups.

    ** Files

    (component file: source, content)
    - [Prelude]: bytes and text, machine integers ([uint w], with wrapping and
      saturating operations), fixed arrays ([arr n]), results, generic lemmas.
    - [Crypto]: [core/cipher.rs], [core/error.rs] and the class [Crypto] of the
      external primitives with the class [CryptoLaws] of what is relied on.
    - [Wire]: [core/wire.rs], the state decoders of [engine/lib.rs]; the class
      [Postcard] of external codecs.
    - [Identity], [UserId]: [core/platform.rs], [identity.rs], [userid.rs],
      [safety.rs].
    - [X3DH]: [core/x3dh.rs], [one_shot.rs].  [Records]: [core/record.rs].
    - [Group], [GroupSpec], [GroupSession]: [core/group.rs]; the window that a
      receiver promises, the refinement, whole conversations.
    - [Message]: [core/message.rs], [offline.rs], the frame header of
      [transport/link.rs].  [Delivery]: [core/delivery.rs].
    - [Storage]: [core/storage.rs]; the class of backends, the state-and-error
      monad [M] of the engine's operations, the abstract map [Mem], the
      simulation [sim] that carries a property from the map to every lawful
      backend, and the footprint logic [modifies].
    - [LocalState], [LocalProps]: [engine/draft.rs], [expiry.rs], [names.rs],
      [blocklist.rs], [attachments.rs], [inbox.rs], [contacts.rs],
      [verified.rs], [reachability.rs], one Module each.
    - [Antirollback]: [engine/antirollback.rs].
    - [History], [HistoryProps]: [engine/history.rs], segmented transcripts and
      their refinement to a list of messages.
    - [Groups]: [engine/groups.rs].  [WireOps]: [engine/wireops.rs].
    - [Peerbook], [PeerbookProps]: [engine/peerbook.rs].
    - [Outbox], [OutboxProps]: [engine/outbox.rs].
    - [FileStore], [FileStoreProps], [Recovery]: [storage/filestore.rs] and
      [storage/lib.rs] over an operating system whose calls may fail and which
      may stop between any two; the invariants of its steps; crashes, restarts,
      transactions and the refinement to a map.
    - [Std]: what the sources use of the standard library on text and signed
      integers.  [Interleave]: programs of atomic steps, their interleaving, and
      the rely-guarantee rule [steps_safe].
    - [Registry]: [registry/lib.rs], [redb_store.rs] (over the class [Redb] of
      databases).  [RegistrySpec]: the registry as maps, with the answers and
      effects it may have.  [RegistryProps], [RegistryRuns]: each operation and
      any sequence of them refine it.  [RegistryAuth]: tokens, sessions, limits.
    - [RegistryPointers]: what the requests need to know of a store, as a class
      that the database implements.  [RegistryApi]: the blob files of
      [registry/lib.rs], [recovery.rs], the handlers of [http.rs].
      [RegistryApiProps], [RegistryAnswers], [RegistryRecover]: their theorems.
      [RegistryWitness], [RegistryApiWitness]: instances, as [FlowWitness].
    - [Flow], [FlowProps], [EndToEnd]: [engine/flow/mod.rs], what it guarantees
      on one device, and a message's way between two.
    - [Sealing]: [storage/seal.rs], [store.rs], the identity file.
    - [RegistryEmail]: [registry/email.rs].  [RegistryServer]: the cleanup task of
      [bin/mycellium-registry.rs].
    - [RegistryClient]: [client/registry.rs].  [Client]: [client/lib.rs].
      [Runtime]: [client/runtime.rs].  [Shell]: inbound frames of the three user
      interfaces and the retry loop of [cli/app/mod.rs].
    - [Once], [Frame], [Acceptance]: which keys an operation may touch, over every
      lawful store; accepting a delivery.  [Peers], [Delivered]: a network of
      other clients, its interleaving with the threads of this one, and what a
      delivered entry means.  [ClientWitness]: their instances.
    - [Backup], [BackupProps], [Publish], [BackupWitness]: [cli/app/backup.rs]
      over a tree of directories with failing calls and crashes.
    - [CliUtil]: [cli/app/util.rs].  [Dht], [DhtProps]: what the commands of
      [cli/app/mod.rs] do over the network.  [Cli], [CliProps], [CliWitness]: all
      commands and [cli/main.rs], as a process with a disk, a terminal and its
      output.
    - [Transport], [TransportProps]: [transport/net.rs], [libp2p_net.rs],
      [reticulum_net.rs] over the class of byte streams and the events of the
      external transports.
    - [Send]: what the two native clients do alike to send a text.  [Mobile],
      [MobileProps], [MobileWitness]: [mobile/lib.rs].  [Linux], [LinuxProps],
      [LinuxWitness]: [linux/main.rs], with the text field and its drafts, the
      account, the events and the turns of the threads.
    - [Instances], [Codecs], [FlowWitness]: concrete codecs, deliberately weak
      primitives and sample data at which the theorems are instantiated; they
      model no code.

    A definition has the name of the Rust function or type it translates (a
    suffix or prefix where names clash: [save_group] is [groups::save],
    [sg_id] the field [id] of [StoredGroup]); loops and closures inside a
    function are definitions of their own, named in the doc comment.  Fallible
    functions return [result]; a method on [&mut self] returns the new value
    beside its result; functions on the store are in [M S], handlers of the flow
    in [F S P X], over the store, the platform (randomness and clock), the
    emitted events and the host; requests of the registry in [Prog], whose steps
    are single calls of the database, the file system or the random source, so
    that every interleaving of several requests is a run of the model.  An early return keeps every change made
    before it, as in the source.

    ** What the theorems show

    - End to end ([EndToEnd], [WireOps], [X3DH]): a message sent to a device is
      opened, stored and shown there exactly once under its authenticated
      sender; nothing opens without a self-certifying sender; both sides of the
      handshake agree.
    - Group ratchets ([GroupSpec], [GroupSession]): the ratchet implements its
      window exactly, so that messages arriving in any order decrypt, replays
      are refused and failures change nothing; sessions persist.
    - Flow ([FlowProps]): ratchet steps are stored with the effect of their
      message or not at all; deliveries go to authorised devices only and never
      before the advanced ratchet is stored; invites and departures change what
      their authenticated sender may change; direct items reach one
      conversation; unwanted items leave no trace.
    - Records and pins ([Records], [Antirollback], [PeerbookProps]): verification
      is exactly self-certification, the signing domains are disjoint, accepted
      records never roll back, neither in the pins nor in the peer book.
    - Stores ([LocalProps], [HistoryProps], [Groups], [OutboxProps]): every store
      refines its abstract content, corrupt state fails closed, final outbox
      entries hold no content, retry delays stay within bounds.

    - File store ([Recovery]): through failures, crashes and restarts the store
      is one sequence of maps, a batch or transaction happens whole or not at
      all, and after a crash the next start completes what was committed.
    - Registry store ([RegistryRuns], [RegistryAuth]): the database implements
      the abstract registry, databases of an older version included; a login
      token works once, an account has one session, limits hold.
    - Registry requests ([RegistryApiProps], [RegistryAnswers],
      [RegistryRecover]): under any interleaving an account publishes only
      verified records of its own recovery identity, never older ones, and its
      recovery secret is written once; a request that is not interrupted
      answers; a stored secret comes back exactly.
    - Registry as a service ([RegistryEmail], [RegistryServer]): the client reads
      out of a mailed login link the token of its challenge; a cleanup ends and
      leaves exactly what has not expired.

    - Client runtime ([Acceptance], [Delivered]): a delivery is accepted whole or
      not at all, and once, over any life of the receiver with failures, crashes
      and restarts; whatever the threads of a client do at the same time, an
      entry is delivered only when the recipient's device has recorded it.
    - Accounts ([Sealing], [Publish], [BackupProps], [MobileProps]): the identity
      file is saved whole or left alone; an import publishes a whole account or
      nothing, and refuses what the export writes; the stored secret of a phone
      stands for exactly one identity, and no login replaces the identity of a
      session or changes its account.
    - Desktop client ([LinuxProps]): setting up a device never loses the wallet
      key the registry holds; what is written to one person stays there; the
      button sends exactly what it takes; draining the events ends and keeps the
      identity.
    - Discovery ([DhtProps]): what a hash table may change and what is chosen from
      its answers; only a wallet the user chose is written to.
    - Commands ([CliProps]): no command but a confirmed wipe takes an identity away,
      none works without the passphrase, and a wallet moves by its printed secret.
    - Attachments ([CliUtil]): saving one changes no other file.
    - Transports ([TransportProps]): what is written to a framed connection is
      read from it as the same messages, however the stream cuts its bytes; a
      query of the hash table and a delivery are answered by their own events
      only.

    The hypotheses on external code are laws of correct primitives (decryption
    inverts encryption, signatures verify, Diffie-Hellman commutes), round trips
    of codecs, byte streams that neither lose nor reorder, and, for
    [group_send_safe], that the delivery policy does not rewrite stored groups.
    No unforgeability is assumed: safety theorems state what was checked.

    ** Bounds and fuel

    The loops of the source are structural on lists except these.  The ratchet
    of a receiver moves at most [MAX_SKIP] + 1 steps, which its guard
    establishes before it starts ([message_key_refines]); the printing of a
    [u64] is given the twenty digits it can have ([itoa_loop_fuel]); trimming a
    text is bounded by its length; the loops over the segments of a transcript
    run over the segment count; the rejection loop of [Identity.generate] stops
    with the first draw that is a wallet key, and fuel up to that draw is enough
    ([draw_wallet_enough]).  The retry loops of the registry's requests repeat
    only after another request moved a pointer: alone, one pass is enough
    ([requests_answer_alone]); when their fuel ends the program is [Spin], which
    never answers, so that no theorem takes the end of the fuel for an answer,
    and the safety theorem holds for every fuel.  The loop over the names of a
    saved attachment has the bound of the source, ten thousand; decimal printing
    and the lossy reading of a file name are bounded by their length, and so is
    splitting a text at its separators; dialling has the hundred attempts of the
    source; a cleanup of the registry needs at most one pass more than it has ten
    thousands of entries
    ([maintenance_turn_ends]); the endless loops of servers and threads are given
    by the turns they take.  Machine integers keep their width: [wrapping_succ], the
    saturating and the checked operations are the ones of the source, with [+=]
    read as the wrapping operation of a release build.

    ** Not modelled

    - Zeroization of secrets and the process-wide queue of corruption warnings
      of [engine/lib.rs] ([warn_corrupt]): no other behaviour depends on them.
    - [postcard], [serde_json] and the cryptographic crates: parameters.
    - The file system below the file store and the blobs: calls take effect in
      the order they are made and a failed one has no effect or all of it;
      permissions and locks are calls without effect on the content.
    - Of the registry: the SMTP and HTTP exchange with a mail provider, routing,
      body limits and JSON framing of the HTTP framework, the start of the server
      ([bin/mycellium-registry.rs] beside its cleanup task); a commit of the
      database happens or fails as a whole.
    - Asynchronous code and I/O: the task that drives a libp2p swarm and its server,
      the runtime of Reticulum and the conversion of keys for either (their
      events are lists, a node of [Client] and the hash table of [Dht] are
      classes, and so is an HTTP agent), the start of threads, which are given
      by their turns, poisoned locks.
    - The presentation of the user interfaces: the drawing of the desktop client,
      the parsing of command lines, the lines an export or import prints, the
      foreign-function scaffolding of the mobile client.  [str::to_lowercase] over
      Unicode's table is a parameter, and so are, in the clients, what the random
      loop of [create_identity] ends with and how the system reads a path. *)

From Stdlib Require Export Ascii String.
From stdpp Require Export base tactics option numbers strings list sorting gmap proof_irrel.
From Stdlib Require Export Lia.

Declare Scope myc_scope.
Delimit Scope myc_scope with myc.
Open Scope myc_scope.

(** Rewrite databases: round trips of the wire format, correctness of the
    cryptographic primitives. *)
Create HintDb crypto.
Create Rewrite HintDb wire.
Create Rewrite HintDb crypto.

(** ** Bytes and text

    A Rust [Vec<u8>], [&[u8]], [String] or [&str] is its sequence of 8-bit
    bytes; a Rust string is the bytes of its UTF-8 encoding, so [len()] is the
    length of the list. *)

Abbreviation bytes := (list ascii).
Abbreviation str := (list ascii).

(** A byte-string literal, [b"..."] or ["..."] in the source. *)
Definition bs (s : string) : bytes := list_ascii_of_string s.
Notation "'b#' s" := (bs s%string) (at level 1, s at level 0, format "'b#' s") : myc_scope.

Definition byte_val (a : ascii) : N := N_of_ascii a.
Definition byte_of (n : N) : ascii := ascii_of_N (n mod 256).

(** The zero byte and a buffer of [n] of them ([[0u8; n]]). *)
Definition zero_byte : ascii := Ascii.zero.
Definition zeros (n : nat) : bytes := replicate n zero_byte.

(** Lexicographic order on byte strings ([Ord] for [[u8]] and [Vec<u8>]). *)
Fixpoint bytes_leb (a b : bytes) : bool :=
  match a, b with
  | [], _ => true
  | _ :: _, [] => false
  | x :: a', y :: b' =>
      if (byte_val x <? byte_val y)%N then true
      else if (byte_val y <? byte_val x)%N then false
      else bytes_leb a' b'
  end.

(** ** Results

    [result E A] is Rust's [Result<A, E>]. *)
Inductive result (E A : Type) : Type :=
  | Ok (a : A)
  | Err (e : E).
Arguments Ok {E A} a.
Arguments Err {E A} e.

Definition is_ok {E A} (r : result E A) : bool :=
  match r with Ok _ => true | Err _ => false end.
Definition is_err {E A} (r : result E A) : bool := negb (is_ok r).

(** [r?] followed by the rest of the function body. *)
Definition bind_result {E A B} (r : result E A) (k : A → result E B) : result E B :=
  match r with Ok a => k a | Err e => Err e end.
Notation "'let?' x ':=' r 'in' k" := (bind_result r (λ x, k))
  (at level 10, x pattern, r at level 100, k at level 200) : myc_scope.

(** [r.map_err(f)], [o.ok_or(e)] and [r.ok()]. *)
Definition map_err {E F A} (f : E → F) (r : result E A) : result F A :=
  match r with Ok a => Ok a | Err e => Err (f e) end.
Definition ok_or {E A} (e : E) (o : option A) : result E A :=
  match o with Some a => Ok a | None => Err e end.
Definition ok_opt {E A} (r : result E A) : option A :=
  match r with Ok a => Some a | Err _ => None end.

(** The errors the local-state code raises: an [anyhow!] message, or the
    error of the storage backend passed on by [?]. *)
Inductive error : Type :=
  | Anyhow (msg : str)
  | StorageError (msg : str).

(** ** State passing with errors

    [M S A] is a Rust function with a [&mut S] argument and result
    [Result<A>]: the state reached is kept when the function fails. *)
Definition M (S A : Type) : Type := S → result error A * S.

Definition retM {S A} (a : A) : M S A := λ s, (Ok a, s).
Definition errM {S A} (e : error) : M S A := λ s, (Err e, s).
Definition bindM {S A B} (m : M S A) (k : A → M S B) : M S B :=
  λ s, match m s with
       | (Ok a, s') => k a s'
       | (Err e, s') => (Err e, s')
       end.
Notation "'let!' x ':=' m 'in' k" := (bindM m (λ x, k))
  (at level 10, x pattern, m at level 100, k at level 200) : myc_scope.

(** A function of a shared [&S] reference, and a fallible value. *)
Definition readM {S A} (f : S → result error A) : M S A := λ s, (f s, s).
Definition liftM {S A} (r : result error A) : M S A := λ s, (r, s).
(** The result of a call as a value, for code that inspects it
    ([if f().is_err()], [match f()], [let _ = f()]). *)
Definition tryM {S A} (m : M S A) : M S (result error A) :=
  λ s, let '(r, s') := m s in (Ok r, s').

(** Running a sequence one call at a time. *)
Lemma bindM_run {S A B} (m : M S A) (k : A → M S B) s a s' :
  m s = (Ok a, s') → bindM m k s = k a s'.
Proof. unfold bindM. by intros ->. Qed.
Lemma bindM_err {S A B} (m : M S A) (k : A → M S B) s e s' :
  m s = (Err e, s') → bindM m k s = (Err e, s').
Proof. unfold bindM. by intros ->. Qed.
Lemma readM_run {S A} (f : S → result error A) s a : f s = Ok a → readM f s = (Ok a, s).
Proof. unfold readM. by intros ->. Qed.
Lemma readM_err {S A} (f : S → result error A) s e : f s = Err e → readM f s = (Err e, s).
Proof. unfold readM. by intros ->. Qed.

(** [m] moves the state along the preorder [R], whatever its result. *)
Create HintDb keeps.
Section Keeps.
Context {S : Type} (R : S → S → Prop) `{!PreOrder R}.
Definition keeps {A} (m : M S A) : Prop := ∀ s, R s (m s).2.

Lemma keeps_same {A} (r : S → result error A) : keeps (λ s, (r s, s)).
Proof. intros s. cbn. reflexivity. Qed.
Lemma keeps_bind {A B} (m : M S A) (k : A → M S B) : keeps m → (∀ a, keeps (k a)) → keeps (bindM m k).
Proof.
  intros Hm Hk s. unfold bindM. pose proof (Hm s) as Hs. destruct (m s) as [[a|e] s1]; [|done].
  transitivity s1; [done|]. apply Hk.
Qed.
Lemma keeps_try {A} (m : M S A) : keeps m → keeps (tryM m).
Proof. intros Hm s. unfold tryM. pose proof (Hm s). by destruct (m s). Qed.
Lemma keeps_dep {A X} (f : S → X) (g : X → M S A) : (∀ x, keeps (g x)) → keeps (λ s, g (f s) s).
Proof. intros Hg s. apply Hg. Qed.
End Keeps.
#[export] Hint Resolve keeps_bind keeps_try keeps_same keeps_dep : keeps.
#[export] Hint Extern 1 (keeps _ (retM _)) => apply keeps_same : keeps.
#[export] Hint Extern 1 (keeps _ (errM _)) => apply keeps_same : keeps.
#[export] Hint Extern 1 (keeps _ (liftM _)) => apply keeps_same : keeps.
#[export] Hint Extern 1 (keeps _ (readM _)) => apply keeps_same : keeps.
#[export] Hint Extern 1 (PreOrder _) => apply _ : keeps.
Ltac go_keeps := repeat first
  [ progress (eauto with keeps nocore) | apply keeps_bind; [apply _| |intros ?]
  | match goal with |- keeps _ (match ?x with _ => _ end) => destruct x end
  | match goal with |- keeps _ (if ?x then _ else _) => destruct x end ].

Lemma if_bool_decide {A} (P : Prop) `{!Decision P} (x y : A) :
  (if bool_decide P then x else y) = (if decide P then x else y).
Proof. case_bool_decide; case_decide; tauto. Qed.

(** ** Machine integers

    A [u32], [u64] or [usize] is a natural number below [2 ^ w]. *)
Record uint (w : N) : Type := MkUint {
  u_val : N;
  u_ok : Is_true (u_val <? 2 ^ w)%N
}.
Arguments MkUint {w} _ _.
Arguments u_val {w} _ : simpl never.
Arguments u_ok {w} _.
Abbreviation u32 := (uint 32).
Abbreviation u64 := (uint 64).

Lemma uint_eq {w} (a b : uint w) : u_val a = u_val b → a = b.
Proof.
  destruct a as [x Hx], b as [y Hy]; unfold u_val; intros ->.
  f_equal. apply proof_irrel.
Qed.

#[global] Instance uint_eq_dec w : EqDecision (uint w).
Proof.
  intros a b. destruct (decide (u_val a = u_val b)) as [H|H].
  - left. by apply uint_eq.
  - right. by intros ->.
Defined.

Lemma u_val_lt {w} (a : uint w) : (u_val a < 2 ^ w)%N.
Proof. exact (proj1 (N.ltb_lt _ _) (Is_true_eq_true _ (u_ok a))). Qed.

Lemma uwrap_ok w n : Is_true (n mod 2 ^ w <? 2 ^ w)%N.
Proof. apply Is_true_true, N.ltb_lt, N.mod_lt, N.pow_nonzero. lia. Qed.

Lemma usat_ok w n : Is_true (N.min n (2 ^ w - 1) <? 2 ^ w)%N.
Proof.
  apply Is_true_true, N.ltb_lt.
  assert (2 ^ w ≠ 0)%N by (apply N.pow_nonzero; lia). lia.
Qed.

(** Wrap-around ([as] casts and release-mode arithmetic) and saturation. *)
Definition uwrap (w n : N) : uint w := MkUint (n mod 2 ^ w)%N (uwrap_ok w n).
Definition usat (w n : N) : uint w := MkUint (N.min n (2 ^ w - 1)) (usat_ok w n).

Lemma u_val_uwrap w n : u_val (uwrap w n) = (n mod 2 ^ w)%N.
Proof. reflexivity. Qed.
Lemma u_val_usat w n : u_val (usat w n) = N.min n (2 ^ w - 1).
Proof. reflexivity. Qed.
Lemma u_val_uwrap_small w n : (n < 2 ^ w)%N → u_val (uwrap w n) = n.
Proof. intros. rewrite u_val_uwrap. by apply N.mod_small. Qed.
Lemma uwrap_u_val {w} (a : uint w) : uwrap w (u_val a) = a.
Proof. apply uint_eq, u_val_uwrap_small, u_val_lt. Qed.

Abbreviation U32 n := (uwrap 32 n%N).
Abbreviation U64 n := (uwrap 64 n%N).

(** [saturating_add], wrapping [+ 1], [max] and the comparisons. *)
Definition saturating_add {w} (a b : uint w) : uint w := usat w (u_val a + u_val b).
Definition wrapping_succ {w} (a : uint w) : uint w := uwrap w (u_val a + 1).
Definition umax {w} (a b : uint w) : uint w := if (u_val a <? u_val b)%N then b else a.
Definition ultb {w} (a b : uint w) : bool := (u_val a <? u_val b)%N.
Definition uleb {w} (a b : uint w) : bool := (u_val a <=? u_val b)%N.
Definition ueqb {w} (a b : uint w) : bool := (u_val a =? u_val b)%N.

Lemma u_val_umax {w} (a b : uint w) : u_val (umax a b) = N.max (u_val a) (u_val b).
Proof. unfold umax. destruct (N.ltb_spec (u_val a) (u_val b)); lia. Qed.

(** ** Fixed-size byte arrays: [[u8; n]] *)
Record arr (n : nat) : Type := MkArr {
  arr_bytes :> bytes;
  arr_ok : Is_true (length arr_bytes =? n)%nat
}.
Arguments MkArr {n} _ _.
Arguments arr_bytes {n} _.
Arguments arr_ok {n} _.

Lemma arr_eq {n} (a b : arr n) : arr_bytes a = arr_bytes b → a = b.
Proof. destruct a, b; simpl; intros ->. f_equal. apply proof_irrel. Qed.

#[global] Instance arr_eq_dec n : EqDecision (arr n).
Proof.
  intros a b. destruct (decide (arr_bytes a = arr_bytes b)) as [H|H].
  - left. by apply arr_eq.
  - right. by intros ->.
Defined.

Lemma arr_length {n} (a : arr n) : length a = n.
Proof. exact (proj1 (Nat.eqb_eq _ _) (Is_true_eq_true _ (arr_ok a))). Qed.

Lemma arr_fit_ok n (b : bytes) : Is_true (length (take n (b ++ zeros n)) =? n)%nat.
Proof.
  apply Is_true_true, Nat.eqb_eq. unfold zeros.
  rewrite length_take, length_app, length_replicate. lia.
Qed.

(** [copy_from_slice] into a fresh [[u8; n]]; the source slices always have
    length [n], which [arr_fit_exact] shows to be the identity case. *)
Definition arr_fit (n : nat) (b : bytes) : arr n := MkArr (take n (b ++ zeros n)) (arr_fit_ok n b).

Lemma arr_fit_exact n (b : bytes) : length b = n → arr_bytes (arr_fit n b) = b.
Proof. intros <-. simpl. by rewrite take_app_length. Qed.
Lemma arr_fit_arr {n} (a : arr n) : arr_fit n a = a.
Proof. apply arr_eq, arr_fit_exact, arr_length. Qed.

(** [slice.try_into()] into [[u8; n]]. *)
Definition arr_try {n} (b : bytes) : option (arr n) :=
  match decide (Is_true (length b =? n)%nat) with
  | left H => Some (MkArr b H)
  | right _ => None
  end.

Lemma arr_try_bytes {n} (a : arr n) : arr_try (n := n) (arr_bytes a) = Some a.
Proof.
  unfold arr_try. destruct (decide _) as [H|H].
  - f_equal. by apply arr_eq.
  - destruct H. apply arr_ok.
Qed.

Lemma arr_try_Some {n} (b : bytes) (a : arr n) : arr_try b = Some a ↔ b = a.
Proof.
  split.
  - unfold arr_try. destruct (decide _); naive_solver.
  - intros ->. apply arr_try_bytes.
Qed.

Lemma arr_try_None {n} (b : bytes) : arr_try (n := n) b = None ↔ length b ≠ n.
Proof.
  rewrite eq_None_not_Some. split.
  - intros H Hl. apply H. exists (arr_fit n b). apply arr_try_Some.
    symmetry. by apply arr_fit_exact.
  - intros H [a Ha%arr_try_Some]. subst b. apply H, arr_length.
Qed.

(** ** Iterators *)

(** [iter_mut().find(p)] followed by a mutation of the element found. *)
Fixpoint update_first {A} (p : A → bool) (f : A → A) (l : list A) : list A :=
  match l with
  | [] => []
  | x :: l' => if p x then f x :: l' else x :: update_first p f l'
  end.

Lemma existsb_elem {A} (p : A → bool) (l : list A) :
  existsb p l = true ↔ ∃ x, x ∈ l ∧ p x = true.
Proof. rewrite existsb_exists. by setoid_rewrite list_elem_of_In. Qed.

Lemma existsb_false {A} (p : A → bool) (l : list A) :
  existsb p l = false ↔ ∀ x, x ∈ l → p x = false.
Proof.
  rewrite <-not_true_iff_false, existsb_elem. split.
  - intros H x Hx. apply not_true_iff_false. intros Hp. apply H. eauto.
  - intros H (x & Hx & Hp). rewrite H in Hp; done.
Qed.

Lemma find_Some_elem {A} (p : A → bool) (l : list A) x :
  List.find p l = Some x → x ∈ l ∧ p x = true.
Proof. intros H%List.find_some. by rewrite list_elem_of_In. Qed.

Lemma find_None_elem {A} (p : A → bool) (l : list A) :
  List.find p l = None ↔ ∀ x, x ∈ l → p x = false.
Proof.
  split.
  - intros H x Hx%list_elem_of_In. by apply (List.find_none p l H).
  - induction l as [|y l IH]; intros H; simpl; [done|].
    rewrite (H y) by left. apply IH. intros x Hx. apply H. by right.
Qed.

Lemma find_app {A} (p : A → bool) (l k : list A) :
  List.find p (l ++ k) = match List.find p l with Some x => Some x | None => List.find p k end.
Proof. induction l as [|x l IH]; simpl; [done|]. by destruct (p x). Qed.

Lemma find_ext {A} (p q : A → bool) (l : list A) :
  (∀ x, p x = q x) → List.find p l = List.find q l.
Proof. intros H. induction l as [|x l IH]; simpl; [done|]. by rewrite H, IH. Qed.

Lemma elem_of_filterb {A} (p : A → bool) (l : list A) x :
  x ∈ List.filter p l ↔ x ∈ l ∧ p x = true.
Proof. by rewrite !list_elem_of_In, filter_In. Qed.

Lemma filterb_id {A} (p : A → bool) (l : list A) :
  (∀ x, x ∈ l → p x = true) → List.filter p l = l.
Proof.
  induction l as [|x l IH]; intros H; simpl; [done|].
  rewrite (H x) by left. f_equal. apply IH. intros y Hy. apply H. by right.
Qed.

Lemma length_filterb_eq {A} (p : A → bool) (l : list A) :
  length (List.filter p l) = length l → List.filter p l = l.
Proof.
  induction l as [|x l IH]; simpl; [done|].
  destruct (p x); simpl; intros H.
  - f_equal. apply IH. lia.
  - pose proof (List.filter_length_le p l). lia.
Qed.

Lemma filterb_idemp {A} (p : A → bool) (l : list A) :
  List.filter p (List.filter p l) = List.filter p l.
Proof. apply filterb_id. intros x Hx%elem_of_filterb. tauto. Qed.

Lemma filterb_concat {A} (p : A → bool) (ls : list (list A)) :
  List.filter p (concat ls) = concat (map (List.filter p) ls).
Proof.
  induction ls as [|l ls IH]; simpl; [done|]. by rewrite List.filter_app, IH.
Qed.

Lemma update_first_fst {A K} (key : A → K) (p : A → bool) (f : A → A) (l : list A) :
  (∀ x, p x = true → key (f x) = key x) → map key (update_first p f l) = map key l.
Proof.
  intros H. induction l as [|x l IH]; simpl; [done|].
  destruct (p x) eqn:Hp; simpl; [by rewrite H|by rewrite IH].
Qed.

Lemma find_update_first_self {A} (p : A → bool) (f : A → A) (l : list A) :
  (∀ x, p x = true → p (f x) = true) →
  List.find p (update_first p f l) = f <$> List.find p l.
Proof.
  intros H. induction l as [|x l IH]; simpl; [done|].
  destruct (p x) eqn:Hp; simpl; [by rewrite H|by rewrite Hp].
Qed.

Lemma find_update_first_other {A} (p q : A → bool) (f : A → A) (l : list A) :
  (∀ x, p x = true → q x = false ∧ q (f x) = false) →
  List.find q (update_first p f l) = List.find q l.
Proof.
  intros H. induction l as [|x l IH]; simpl; [done|].
  destruct (p x) eqn:Hp; simpl.
  - by destruct (H x Hp) as [-> ->].
  - by rewrite IH.
Qed.

Lemma Forall2_impl_elem {A B} (P Q : A → B → Prop) l k :
  Forall2 P l k → (∀ x y, x ∈ l → P x y → Q x y) → Forall2 Q l k.
Proof.
  induction 1 as [|x y l k Hxy _ IH]; intros H; constructor.
  - apply H; [by left|done].
  - apply IH. intros x' y' Hx. apply H. by right.
Qed.

(** ** Text formatting *)

(** One character of [b"0123456789abcdef"]. *)
Definition hex_digit (n : N) : ascii :=
  if (n <? 10)%N then ascii_of_N (48 + n) else ascii_of_N (87 + n).

(** Lowercase hex, high nibble first. *)
Fixpoint hex (l : bytes) : str :=
  match l with
  | [] => []
  | byte :: l' =>
      hex_digit (N.shiftr (byte_val byte) 4)
      :: hex_digit (N.land (byte_val byte) 15) :: hex l'
  end.

(** [b'0' + digit]. *)
Definition dec_digit (n : N) : ascii := ascii_of_N (48 + n mod 10).

(** [format!("{n:0w}")] for [n < 10 ^ w]: exactly [w] decimal digits. *)
Fixpoint dec_fixed (w : nat) (n : N) : str :=
  match w with
  | O => []
  | S w' => dec_fixed w' (n / 10) ++ [dec_digit n]
  end.

(** ASCII classes of the source's [is_ascii_*] tests. *)
Definition in_range (lo hi : N) (a : ascii) : bool :=
  (lo <=? byte_val a)%N && (byte_val a <=? hi)%N.
Definition is_ascii_digit : ascii → bool := in_range 48 57.
Definition is_ascii_lowercase : ascii → bool := in_range 97 122.
Definition is_ascii_uppercase : ascii → bool := in_range 65 90.
Definition to_ascii_lowercase (a : ascii) : ascii :=
  if is_ascii_uppercase a then ascii_of_N (byte_val a + 32) else a.

Lemma byte_val_lt a : (byte_val a < 256)%N.
Proof. apply N_ascii_bounded. Qed.

Lemma byte_val_of n : (n < 256)%N → byte_val (ascii_of_N n) = n.
Proof. apply N_ascii_embedding. Qed.

Lemma length_hex l : length (hex l) = (2 * length l)%nat.
Proof. induction l; simpl; lia. Qed.

Lemma hex_nibbles (a : ascii) :
  (N.shiftr (byte_val a) 4 < 16)%N ∧ (N.land (byte_val a) 15 < 16)%N ∧
  byte_val a = (16 * N.shiftr (byte_val a) 4 + N.land (byte_val a) 15)%N.
Proof.
  pose proof (byte_val_lt a) as Ha.
  change 15%N with (N.ones 4). rewrite N.land_ones, N.shiftr_div_pow2.
  change (2 ^ 4)%N with 16%N.
  pose proof (N.div_mod (byte_val a) 16 ltac:(done)).
  pose proof (N.mod_lt (byte_val a) 16 ltac:(done)).
  assert (byte_val a / 16 < 16)%N by (apply N.Div0.div_lt_upper_bound; lia). lia.
Qed.

Lemma hex_digit_inj m n :
  (m < 16)%N → (n < 16)%N → hex_digit m = hex_digit n → m = n.
Proof.
  intros Hm Hn H%(f_equal byte_val). unfold hex_digit in H.
  destruct (N.ltb_spec m 10), (N.ltb_spec n 10);
    rewrite !byte_val_of in H by lia; lia.
Qed.

Lemma hex_inj l k : hex l = hex k → l = k.
Proof.
  revert k. induction l as [|a l IH]; intros [|c k]; simpl; try done.
  intros [= H1 H2 H3].
  destruct (hex_nibbles a) as (A1 & A2 & A3), (hex_nibbles c) as (C1 & C2 & C3).
  apply hex_digit_inj in H1; [|done..]. apply hex_digit_inj in H2; [|done..].
  f_equal; [|by apply IH].
  rewrite <-(ascii_N_embedding a), <-(ascii_N_embedding c).
  unfold byte_val in *. f_equal. lia.
Qed.

Lemma length_dec_fixed w n : length (dec_fixed w n) = w.
Proof.
  revert n. induction w as [|w IH]; intros n; simpl; [done|].
  rewrite length_app, IH. simpl. lia.
Qed.

Lemma mod10_lt n : (n mod 10 < 10)%N.
Proof. by apply N.mod_lt. Qed.

Lemma byte_val_dec_digit n : byte_val (dec_digit n) = (48 + n mod 10)%N.
Proof.
  apply byte_val_of. generalize (mod10_lt n). generalize (n mod 10)%N. intros. lia.
Qed.

Lemma is_ascii_digit_dec_digit n : is_ascii_digit (dec_digit n) = true.
Proof.
  unfold is_ascii_digit, in_range. rewrite byte_val_dec_digit.
  generalize (mod10_lt n). generalize (n mod 10)%N. intros m Hm.
  apply andb_true_iff; split; apply N.leb_le; lia.
Qed.

Lemma dec_fixed_digits w n : forallb is_ascii_digit (dec_fixed w n) = true.
Proof.
  revert n. induction w as [|w IH]; intros n; simpl; [done|].
  by rewrite forallb_app, IH; simpl; rewrite is_ascii_digit_dec_digit.
Qed.

Lemma dec_digit_inj m n : dec_digit m = dec_digit n → (m mod 10 = n mod 10)%N.
Proof.
  intros H%(f_equal byte_val). rewrite !byte_val_dec_digit in H.
  by apply N.add_cancel_l in H.
Qed.

Lemma dec_fixed_inj w m n :
  (m < 10 ^ N.of_nat w)%N → (n < 10 ^ N.of_nat w)%N →
  dec_fixed w m = dec_fixed w n → m = n.
Proof.
  revert m n. induction w as [|w IH]; intros m n Hm Hn; simpl.
  { change (10 ^ N.of_nat 0)%N with 1%N in *. lia. }
  rewrite Nat2N.inj_succ, N.pow_succ_r' in Hm, Hn.
  intros [H1 H2]%app_inj_tail. apply dec_digit_inj in H2.
  apply IH in H1; [|by apply N.Div0.div_lt_upper_bound..].
  rewrite (N.div_mod m 10), (N.div_mod n 10) by lia. congruence.
Qed.

(** ** Prefix-freedom of byte strings *)

Lemma app_inv_length {A} (l1 l2 k1 k2 : list A) :
  length k1 = length k2 → l1 ++ k1 = l2 ++ k2 → l1 = l2 ∧ k1 = k2.
Proof. intros. by apply app_inj_2. Qed.

(** ** Big-endian integers: [u32::to_be_bytes] *)
Definition be32 (n : u32) : bytes :=
  map byte_of [u_val n / 16777216; u_val n / 65536; u_val n / 256; u_val n]%N.

Lemma byte_val_byte_of n : byte_val (byte_of n) = (n mod 256)%N.
Proof. unfold byte_of. apply byte_val_of. by apply N.mod_lt. Qed.

Lemma length_be32 n : length (be32 n) = 4%nat.
Proof. done. Qed.

Lemma N_digits_256 n :
  (n < 4294967296)%N →
  n = ((n / 16777216) mod 256 * 16777216 + (n / 65536) mod 256 * 65536
       + (n / 256) mod 256 * 256 + n mod 256)%N.
Proof.
  intros Hn.
  pose proof (N.div_mod n 256 ltac:(done)) as E0.
  pose proof (N.div_mod (n / 256) 256 ltac:(done)) as E1.
  pose proof (N.div_mod (n / 256 / 256) 256 ltac:(done)) as E2.
  rewrite !N.Div0.div_div in E1, E2. rewrite !N.Div0.div_div in E2.
  change (256 * 256)%N with 65536%N in *. change (65536 * 256)%N with 16777216%N in *.
  assert (n / 16777216 < 256)%N by (by apply N.Div0.div_lt_upper_bound).
  rewrite (N.mod_small (n / 16777216)) by done. lia.
Qed.

Lemma be32_inj m n : be32 m = be32 n → m = n.
Proof.
  intros [= H3 H2 H1 H0]%(f_equal (map byte_val)). apply uint_eq.
  rewrite !byte_val_byte_of in *.
  rewrite (N_digits_256 (u_val m)), (N_digits_256 (u_val n))
    by exact (u_val_lt (w := 32) _).
  by rewrite H0, H1, H2, H3.
Qed.

(** ** The last [k] elements of a list *)
Definition keep {A} (k : nat) (l : list A) : list A := drop (length l - k) l.

Lemma length_keep {A} k (l : list A) : length (keep k l) = Nat.min k (length l).
Proof. unfold keep. rewrite length_drop. lia. Qed.

Lemma keep_all {A} k (l : list A) : (length l ≤ k)%nat → keep k l = l.
Proof. intros. unfold keep. by replace (length l - k)%nat with 0%nat by lia. Qed.

Lemma skipn_app_drop_le {A} n (l m : list A) :
  (n ≤ length l)%nat → drop n (l ++ m) = drop n l ++ m.
Proof. intros. rewrite drop_app. by replace (n - length l)%nat with 0%nat by lia. Qed.

Lemma keep_app_keep {A} k (l m : list A) : keep k (keep k l ++ m) = keep k (l ++ m).
Proof.
  destruct (decide (length l ≤ k)%nat) as [|Hlt]; [by rewrite (keep_all k l)|].
  unfold keep. rewrite !length_app, length_drop.
  rewrite <-(skipn_app_drop_le (length l - k) l m), drop_drop by lia. f_equal. lia.
Qed.

Lemma keep_map {A B} (f : A → B) k (l : list A) : keep k (map f l) = map f (keep k l).
Proof. unfold keep. by rewrite length_map, skipn_map. Qed.

Lemma elem_of_keep {A} k (l : list A) x : x ∈ keep k l → x ∈ l.
Proof. unfold keep. rewrite !list_elem_of_In. intros H. rewrite <-(take_drop (length l - k) l).
  apply in_or_app. by right. Qed.
