(* ===== verification/Interleave.v ===== *)
(** * Interleave: programs whose steps on a shared state interleave

    A request handler is a sequence of atomic actions on the state it shares
    with the other handlers.  [run] runs it alone; [steps] runs any number of
    handlers, started at any time, in any interleaving.  A loop of the code is
    given fuel, and is [Spin] when the fuel ends: no result is claimed then. *)

From S2P Require Import Prelude.

Section Prog.
Context {Σ : Type}.

Inductive Prog (E A : Type) : Type :=
  | Ret (r : result E A)
  | Spin
  | Atom (X : Type) (f : Σ → X * Σ) (k : X → Prog E A).
Arguments Ret {E A} _.
Arguments Spin {E A}.
Arguments Atom {E A X} _ _.

Fixpoint bindP {E A B} (m : Prog E A) (k : A → Prog E B) : Prog E B :=
  match m with
  | Ret (Ok a) => k a
  | Ret (Err e) => Ret (Err e)
  | Spin => Spin
  | Atom f next => Atom f (λ x, bindP (next x) k)
  end.

(** [match] on the result of a call whose error is not propagated. *)
Fixpoint catchP {E F A B} (m : Prog E A) (k : result E A → Prog F B) : Prog F B :=
  match m with
  | Ret r => k r
  | Spin => Spin
  | Atom f next => Atom f (λ x, catchP (next x) k)
  end.

Definition okP {E A} (a : A) : Prog E A := Ret (Ok a).
Definition errP {E A} (e : E) : Prog E A := Ret (Err e).
Definition map_errP {E F A} (f : E → F) (m : Prog E A) : Prog F A :=
  catchP m (λ r, Ret (map_err f r)).

(** One atomic action that may fail. *)
Definition atomic {E A} (f : Σ → result E A * Σ) : Prog E A := Atom f Ret.

(** ** Running alone *)
Fixpoint run {E A} (m : Prog E A) (s : Σ) : option (result E A) * Σ :=
  match m with
  | Ret r => (Some r, s)
  | Spin => (None, s)
  | Atom f k => let '(x, s) := f s in run (k x) s
  end.

Lemma run_catch {E F A B} (m : Prog E A) (k : result E A → Prog F B) s :
  run (catchP m k) s =
  match run m s with (Some r, s) => run (k r) s | (None, s) => (None, s) end.
Proof.
  revert s. induction m as [r| |X f next IH]; intros s; cbn; [done..|].
  destruct (f s) as [x s']. apply IH.
Qed.

Lemma run_bind {E A B} (m : Prog E A) (k : A → Prog E B) s :
  run (bindP m k) s =
  match run m s with
  | (Some (Ok a), s) => run (k a) s
  | (Some (Err e), s) => (Some (Err e), s)
  | (None, s) => (None, s)
  end.
Proof.
  revert s. induction m as [[a|e]| |X f next IH]; intros s; cbn; [done..|].
  destruct (f s) as [x s']. apply IH.
Qed.

(** ** Running together *)
Section Pool.
Context {E A : Type}.
Abbreviation Pool := (list (Prog E A)).

(** The handlers that may be started. *)
Context (handler : Prog E A → Prop).

Inductive step : Pool * Σ → Pool * Σ → Prop :=
  | step_start pool m s : handler m → step (pool, s) (pool ++ [m], s)
  | step_atom pool i X (f : Σ → X * Σ) k s :
      pool !! i = Some (Atom f k) →
      step (pool, s) (<[i := k (fst (f s))]> pool, snd (f s)).

(** The reachable configurations, and the states passed, the last one first. *)
Inductive steps (c : Pool * Σ) : list Σ → Pool * Σ → Prop :=
  | steps_refl : steps c [] c
  | steps_step h c1 c2 : steps c h c1 → step c1 c2 → steps c (snd c1 :: h) c2.
End Pool.

(** ** A rule for what every interleaving keeps

    [G] is what each step guarantees to the others, and [Inv] holds throughout.
    What a handler has learnt, [K], must survive the steps of the others; [Q]
    holds of its result. *)
Section Safe.
Context (Inv : Σ → Prop) (G : Σ → Σ → Prop).

Definition stable (K : Σ → Prop) : Prop := ∀ s s', Inv s → Inv s' → K s → G s s' → K s'.

Fixpoint safe {E A} (m : Prog E A) (K : Σ → Prop) (Q : result E A → (Σ → Prop) → Prop) : Prop :=
  match m with
  | Ret r => Q r K
  | Spin => True
  | Atom f k =>
      ∀ s, Inv s → K s →
        G s (snd (f s)) ∧ Inv (snd (f s)) ∧
        ∃ K', stable K' ∧ K' (snd (f s)) ∧ safe (k (fst (f s))) K' Q
  end.

Lemma safe_catch {E F A B} (m : Prog E A) (k : result E A → Prog F B) K Q Q' :
  safe m K Q → (∀ r K, Q r K → safe (k r) K Q') → safe (catchP m k) K Q'.
Proof.
  intros Hm Hk. revert K Hm. induction m as [r| |X f next IH]; intros K Hm; cbn in *; [by apply Hk|done|].
  intros s Hs HK. destruct (Hm s Hs HK) as (HG & HI & K' & HK' & HKs & Hnext).
  split_and!; [done..|]. exists K'. split_and!; [done..|]. by apply IH.
Qed.

Lemma safe_bind {E A B} (m : Prog E A) (k : A → Prog E B) K Q Q' :
  safe m K Q → (∀ a K, Q (Ok a) K → safe (k a) K Q') → (∀ e K, Q (Err e) K → Q' (Err e) K) →
  safe (bindP m k) K Q'.
Proof.
  intros Hm Hk He. revert K Hm.
  induction m as [[a|e]| |X f next IH]; intros K Hm; cbn in *; [by apply Hk|by apply He|done|].
  intros s Hs HK. destruct (Hm s Hs HK) as (HG & HI & K' & HK' & HKs & Hnext).
  split_and!; [done..|]. exists K'. split_and!; [done..|]. by apply IH.
Qed.

Lemma safe_weaken {E A} (m : Prog E A) K (Q Q' : result E A → (Σ → Prop) → Prop) :
  safe m K Q → (∀ r K, Q r K → Q' r K) → safe m K Q'.
Proof.
  intros Hm HQ. revert K Hm. induction m as [r| |X f next IH]; intros K Hm; cbn in *; [auto|done|].
  intros s Hs HK. destruct (Hm s Hs HK) as (HG & HI & K' & HK' & HKs & Hnext).
  split_and!; [done..|]. exists K'. split_and!; [done..|]. by apply IH.
Qed.

(** In a run of safe handlers consecutive states are related by [G]. *)
Inductive guaranteed : list Σ → Prop :=
  | guaranteed_one s : guaranteed [s]
  | guaranteed_cons s' s h : G s s' → guaranteed (s :: h) → guaranteed (s' :: s :: h).

Context {E A : Type} (handler : Prog E A → Prop).
Hypothesis G_refl : ∀ s, G s s.
Hypothesis handlers_safe : ∀ m, handler m → safe m (λ _, True) (λ _ _, True).

Definition running (s : Σ) (m : Prog E A) : Prop :=
  ∃ K, stable K ∧ K s ∧ safe m K (λ _ _, True).

Lemma running_step s s' m : Inv s → Inv s' → G s s' → running s m → running s' m.
Proof. intros Hs Hs' HG (K & HK & HKs & Hm). exists K. split_and!; [done| |done]. by apply (HK s). Qed.

Lemma steps_safe s0 h c :
  Inv s0 → steps handler ([], s0) h c →
  Inv (snd c) ∧ Forall (running (snd c)) (fst c) ∧ guaranteed (snd c :: h).
Proof.
  intros H0 Hsteps. induction Hsteps as [|h c1 c2 Hsteps (Hinv & Hpool & Hh) Hstep].
  { split_and!; [done|by constructor|constructor]. }
  destruct Hstep as [pool m s Hm|pool i X f k s Hi]; cbn [fst snd] in *.
  - split_and!; [done| |by constructor].
    apply Forall_app. split; [done|]. apply list.Forall_singleton.
    exists (λ _, True). split_and!; [done|done|by apply handlers_safe].
  - pose proof Hpool as Hall. rewrite list.Forall_lookup in Hall.
    destruct (Hall _ _ Hi) as (K & HK & HKs & Hsafe). cbn [safe] in Hsafe.
    destruct (Hsafe s Hinv HKs) as (HG & Hinv' & K' & HK' & HKs' & Hnext).
    split_and!; [done| |by constructor].
    apply list.Forall_insert; [|by exists K'].
    eapply list.Forall_impl; [exact Hpool|]. intros m' Hm'. by apply (running_step s).
Qed.
End Safe.
End Prog.

Arguments Prog : clear implicits.
Arguments Ret {Σ E A} _.
Arguments Spin {Σ E A}.
Arguments Atom {Σ E A X} _ _.

Notation "'let#' x ':=' m 'in' k" := (bindP m (λ x, k))
  (at level 10, x pattern, m at level 100, k at level 200) : myc_scope.

(** Running on a part of a larger state. *)
Fixpoint zoom {Σ Σ' E A} (get : Σ' → Σ) (put : Σ → Σ' → Σ') (m : Prog Σ E A) : Prog Σ' E A :=
  match m with
  | Ret r => Ret r
  | Spin => Spin
  | Atom f k => Atom (λ s, let '(x, p) := f (get s) in (x, put p s)) (λ x, zoom get put (k x))
  end.

Lemma run_zoom {Σ Σ' E A} (get : Σ' → Σ) (put : Σ → Σ' → Σ') (m : Prog Σ E A) s :
  (∀ p s, get (put p s) = p) → (∀ p q s, put p (put q s) = put p s) → (∀ s, put (get s) s = s) →
  run (zoom get put m) s = (fst (run m (get s)), put (snd (run m (get s))) s).
Proof.
  intros Hgp Hpp Hpg. revert s. induction m as [r| |X f k IH]; intros s; cbn; [by rewrite Hpg..|].
  destruct (f (get s)) as [x p]. rewrite IH, Hgp, Hpp. done.
Qed.

(** ** Weakest preconditions of running alone *)
Section Wp.
Context {Σ : Type}.

Definition wp {E A} (m : Prog Σ E A) (s : Σ) (Q : result E A → Σ → Prop) : Prop :=
  match run m s with (Some r, s') => Q r s' | (None, _) => False end.

Lemma wp_bind {E A B} (m : Prog Σ E A) (k : A → Prog Σ E B) s Q :
  wp m s (λ r s', match r with Ok a => wp (k a) s' Q | Err e => Q (Err e) s' end) →
  wp (bindP m k) s Q.
Proof. unfold wp. rewrite run_bind. by destruct (run m s) as [[[a|e]|] s']. Qed.

Lemma wp_catch {E F A B} (m : Prog Σ E A) (k : result E A → Prog Σ F B) s Q :
  wp m s (λ r s', wp (k r) s' Q) → wp (catchP m k) s Q.
Proof. unfold wp. rewrite run_catch. by destruct (run m s) as [[r|] s']. Qed.

Lemma wp_weaken {E A} (m : Prog Σ E A) s (Q Q' : result E A → Σ → Prop) :
  wp m s Q → (∀ r s', Q r s' → Q' r s') → wp m s Q'.
Proof. unfold wp. destruct (run m s) as [[r|] s']; auto. Qed.

(** A program without a loop. *)
Fixpoint loop_free {E A} (m : Prog Σ E A) : Prop :=
  match m with Ret _ => True | Spin => False | Atom f k => ∀ x, loop_free (k x) end.

Lemma loop_free_bind {E A B} (m : Prog Σ E A) (k : A → Prog Σ E B) :
  loop_free m → (∀ a, loop_free (k a)) → loop_free (bindP m k).
Proof. intros Hm Hk. induction m as [[a|e]| |X f next IH]; cbn in *; eauto. Qed.

Lemma loop_free_catch {E F A B} (m : Prog Σ E A) (k : result E A → Prog Σ F B) :
  loop_free m → (∀ r, loop_free (k r)) → loop_free (catchP m k).
Proof. intros Hm Hk. induction m as [r| |X f next IH]; cbn in *; eauto. Qed.
End Wp.

Lemma loop_free_zoom {Σ Σ' E A} (get : Σ' → Σ) (put : Σ → Σ' → Σ') (m : Prog Σ E A) :
  loop_free m → loop_free (zoom get put m).
Proof. intros Hm. induction m as [r| |X f k IH]; cbn in *; eauto. Qed.

Lemma atomic_loop_free {Σ E A} (f : Σ → result E A * Σ) : loop_free (atomic f).
Proof. done. Qed.

Lemma loop_free_runs {Σ E A} (m : Prog Σ E A) s : loop_free m → ∃ r s', run m s = (Some r, s').
Proof. revert s. induction m as [r| |X f k IH]; intros s Hm; cbn in *; [eauto|done|]. destruct (f s). eauto. Qed.

(** ** A scheduler *)
Section Scheduler.
Context {Σ : Type} {E A : Type}.

(** Each choice names the handler that takes the next step. *)
Fixpoint schedule (choices : list nat) (pool : list (Prog Σ E A)) (s : Σ) (h : list Σ)
    : list (Prog Σ E A) * Σ * list Σ :=
  match choices with
  | [] => (pool, s, h)
  | i :: choices =>
      match pool !! i with
      | Some (Atom f k) =>
          schedule choices (<[i := k (fst (f s))]> pool) (snd (f s)) (s :: h)
      | _ => schedule choices pool s h
      end
  end.

Lemma schedule_steps (handler : Prog Σ E A → Prop) choices c pool s h :
  steps handler c h (pool, s) →
  let '(pool', s', h') := schedule choices pool s h in steps handler c h' (pool', s').
Proof.
  revert pool s h. induction choices as [|i choices IH]; intros pool s h Hs; cbn; [done|].
  destruct (pool !! i) as [[r| |X f k]|] eqn:Hi; try by apply IH.
  apply IH. apply (steps_step _ _ _ (pool, s)); [done|]. by apply step_atom.
Qed.

(** The history does not influence the run. *)
Lemma schedule_state choices pool s h :
  fst (schedule choices pool s h) = fst (schedule choices pool s []).
Proof.
  assert (∀ h h', fst (schedule choices pool s h) = fst (schedule choices pool s h')) as H; [|apply H].
  revert pool s. induction choices as [|i choices IH]; intros pool s h1 h2; cbn; [done|].
  destruct (pool !! i) as [[r| |X f k]|]; apply IH.
Qed.

Lemma start_steps (handler : Prog Σ E A → Prop) pool s :
  Forall handler pool → ∃ h, steps handler ([], s) h (pool, s).
Proof.
  induction pool as [|m pool IH] using rev_ind; intros Hall; [exists []; constructor|].
  apply Forall_app in Hall as [Hall Hm]. rewrite list.Forall_singleton in Hm.
  destruct (IH Hall) as [h Hs]. exists (s :: h).
  apply (steps_step _ _ _ (pool, s)); [done|]. by apply step_start.
Qed.
End Scheduler.
