(* ===== verification/Std.v ===== *)
(** * Std: functions of the Rust standard library on text and signed integers

    [str::trim], [str::from_utf8], decimal formatting and parsing, and [i64],
    as the components above use them. *)

From S2P Require Import Prelude.

(** ** [str::trim] *)

(** The UTF-8 forms of the characters with the White_Space property. *)
Definition white_space : list str :=
  map (map byte_of)
    [[9]; [10]; [11]; [12]; [13]; [32]; [194; 133]; [194; 160]; [225; 154; 128];
     [226; 128; 128]; [226; 128; 129]; [226; 128; 130]; [226; 128; 131]; [226; 128; 132];
     [226; 128; 133]; [226; 128; 134]; [226; 128; 135]; [226; 128; 136]; [226; 128; 137];
     [226; 128; 138]; [226; 128; 168]; [226; 128; 169]; [226; 128; 175]; [226; 129; 159];
     [227; 128; 128]]%N.

(** [strip_prefix] *)
Definition strip (prefix s : str) : option str :=
  if bool_decide (take (length prefix) s = prefix) then Some (drop (length prefix) s) else None.

Definition strip_any (forms : list str) (s : str) : option str :=
  foldr (λ form found, match strip form s with Some r => Some r | None => found end) None forms.

(** Every form is at least one byte, so the length is enough fuel. *)
Fixpoint trim_start_fuel (fuel : nat) (forms : list str) (s : str) : str :=
  match fuel with
  | O => s
  | S fuel =>
      match strip_any forms s with Some r => trim_start_fuel fuel forms r | None => s end
  end.

Definition trim_start (forms : list str) (s : str) : str := trim_start_fuel (length s) forms s.
Definition trim (s : str) : str :=
  rev (trim_start (map (@rev ascii) white_space) (rev (trim_start white_space s))).

Lemma strip_Some prefix s r : strip prefix s = Some r ↔ s = prefix ++ r.
Proof.
  unfold strip. case_bool_decide as H; split; [|intros ->|done|intros ->].
  - intros [= <-]. rewrite <-(take_drop (length prefix) s) at 1. by rewrite H.
  - by rewrite drop_app_length.
  - by rewrite take_app_length in H.
Qed.

(** [split_once] at the first occurrence of a byte. *)
Fixpoint split_once (sep : ascii) (s : str) : option (str * str) :=
  match s with
  | [] => None
  | c :: rest =>
      if bool_decide (c = sep) then Some ([], rest)
      else '(l, r) ← split_once sep rest; Some (c :: l, r)
  end.

Lemma split_once_app sep l r : sep ∉ l → split_once sep (l ++ sep :: r) = Some (l, r).
Proof.
  induction l as [|c l IH]; simpl; intros Hl; [by rewrite bool_decide_true|].
  rewrite bool_decide_false by (intros ->; apply Hl; by left).
  rewrite IH; [done|]. intros H. apply Hl. by right.
Qed.

(** ** [str::from_utf8] *)
Definition continuation : ascii → bool := in_range 128 191.

Fixpoint utf8_valid (s : bytes) : bool :=
  match s with
  | [] => true
  | a :: s1 =>
      if (byte_val a <? 128)%N then utf8_valid s1
      else if in_range 194 223 a then
        match s1 with b :: s2 => continuation b && utf8_valid s2 | _ => false end
      else if in_range 224 239 a then
        match s1 with
        | b :: c :: s3 =>
            (if (byte_val a =? 224)%N then in_range 160 191 b
             else if (byte_val a =? 237)%N then in_range 128 159 b else continuation b)
            && continuation c && utf8_valid s3
        | _ => false
        end
      else if in_range 240 244 a then
        match s1 with
        | b :: c :: d :: s4 =>
            (if (byte_val a =? 240)%N then in_range 144 191 b
             else if (byte_val a =? 244)%N then in_range 128 143 b else continuation b)
            && continuation c && continuation d && utf8_valid s4
        | _ => false
        end
      else false
  end.

Definition from_utf8 (b : bytes) : option str := if utf8_valid b then Some b else None.

Lemma from_utf8_ascii s : forallb (λ c, byte_val c <? 128)%N s = true → from_utf8 s = Some s.
Proof.
  intros H. unfold from_utf8. assert (utf8_valid s = true) as ->; [|done].
  induction s as [|c s IH]; [done|]. simpl in H |- *. apply andb_true_iff in H as [-> H]. auto.
Qed.

(** ** [i64] *)
Definition i64_min : Z := (- 2 ^ 63)%Z.
Definition i64_max : Z := (2 ^ 63 - 1)%Z.

Record i64 : Type := MkI64 {
  i_val : Z;
  i_ok : Is_true ((i64_min <=? i_val)%Z && (i_val <=? i64_max)%Z)
}.
Arguments i_val _ : simpl never.

Lemma i64_eq (a b : i64) : i_val a = i_val b → a = b.
Proof. destruct a as [x Hx], b as [y Hy]; unfold i_val; intros ->. f_equal. apply proof_irrel. Qed.

#[global] Instance i64_eq_dec : EqDecision i64.
Proof.
  intros a b. destruct (decide (i_val a = i_val b)) as [H|H].
  - left. by apply i64_eq.
  - right. by intros ->.
Defined.

Lemma i_val_range (a : i64) : (i64_min ≤ i_val a ≤ i64_max)%Z.
Proof.
  pose proof (Is_true_eq_true _ (i_ok a)) as H. apply andb_true_iff in H as [H1%Z.leb_le H2%Z.leb_le].
  done.
Qed.

Lemma i_sat_ok z :
  Is_true ((i64_min <=? Z.max i64_min (Z.min z i64_max))%Z
           && (Z.max i64_min (Z.min z i64_max) <=? i64_max)%Z).
Proof. apply Is_true_true, andb_true_iff. unfold i64_min, i64_max. split; apply Z.leb_le; lia. Qed.

(** Saturation, and the literal of a value in range. *)
Definition i_sat (z : Z) : i64 := MkI64 (Z.max i64_min (Z.min z i64_max)) (i_sat_ok z).
Abbreviation I64 n := (i_sat n%Z).
Definition i_saturating_add (a b : i64) : i64 := i_sat (i_val a + i_val b)%Z.
Definition i_leb (a b : i64) : bool := (i_val a <=? i_val b)%Z.
Definition i_ltb (a b : i64) : bool := (i_val a <? i_val b)%Z.

Lemma i_val_sat z : (i64_min ≤ z ≤ i64_max)%Z → i_val (i_sat z) = z.
Proof. intros H. change (i_val (i_sat z)) with (Z.max i64_min (Z.min z i64_max)). lia. Qed.

(** [i.max(0) as u64] *)
Definition i_nonneg (a : i64) : N := Z.to_N (Z.max (i_val a) 0).

Lemma i_nonneg_lt a : (i_nonneg a < 10 ^ 20)%N.
Proof.
  unfold i_nonneg. pose proof (i_val_range a) as H. unfold i64_min, i64_max in H.
  change (2 ^ 63)%Z with 9223372036854775808%Z in H.
  change (10 ^ 20)%N with 100000000000000000000%N.
  assert (Z.max (i_val a) 0 < 100000000000000000000)%Z by lia. lia.
Qed.

(** ** Paths *)

(** [Path::join] of a relative path. *)
Definition path_join (dir name : str) : str :=
  match List.last dir "/"%char with
  | "/"%char => if bool_decide (dir = []) then name else dir ++ name
  | _ => dir ++ b#"/" ++ name
  end.

(** ** Decimal numbers *)

(** [n.to_string()]: no leading zero. *)
Fixpoint decimal_fuel (fuel : nat) (n : N) (acc : str) : str :=
  match fuel with
  | O => acc
  | Datatypes.S fuel =>
      let acc := dec_digit n :: acc in
      if (n <? 10)%N then acc else decimal_fuel fuel (n / 10) acc
  end.
Definition decimal (n : N) : str := decimal_fuel (N.to_nat (N.size n) + 1) n [].

(** Reading decimal digits back. *)
Definition from_dec (s : str) : N := fold_left (λ n c, n * 10 + (byte_val c - 48))%N s 0%N.

Lemma from_dec_cons_acc s acc :
  fold_left (λ n c, n * 10 + (byte_val c - 48))%N s acc =
  (acc * 10 ^ N.of_nat (length s) + from_dec s)%N.
Proof.
  unfold from_dec. revert acc. induction s as [|c s IH]; intros acc; cbn [length fold_left].
  { rewrite N.pow_0_r. lia. }
  rewrite IH, (IH (0 * 10 + (byte_val c - 48))%N), Nat2N.inj_succ, N.pow_succ_r'. lia.
Qed.

Lemma from_dec_cons c s :
  from_dec (c :: s) = ((byte_val c - 48) * 10 ^ N.of_nat (length s) + from_dec s)%N.
Proof. unfold from_dec at 1. cbn [fold_left]. by rewrite from_dec_cons_acc. Qed.

Lemma from_dec_snoc s c : from_dec (s ++ [c]) = (from_dec s * 10 + (byte_val c - 48))%N.
Proof. unfold from_dec. by rewrite fold_left_app. Qed.

Lemma from_dec_lt s : forallb is_ascii_digit s = true → (from_dec s < 10 ^ N.of_nat (length s))%N.
Proof.
  induction s as [|c s IH]; intros H; [unfold from_dec; simpl; lia|].
  apply andb_true_iff in H as [Hc Hs]. specialize (IH Hs). rewrite from_dec_cons.
  cbn [length]. rewrite Nat2N.inj_succ, N.pow_succ_r'.
  unfold is_ascii_digit, in_range in Hc. apply andb_true_iff in Hc as [H1%N.leb_le H2%N.leb_le].
  nia.
Qed.

Lemma from_dec_fixed w n : (n < 10 ^ N.of_nat w)%N → from_dec (dec_fixed w n) = n.
Proof.
  revert n. induction w as [|w IH]; intros n Hn; cbn [dec_fixed].
  { rewrite N.pow_0_r in Hn. replace n with 0%N by lia. done. }
  rewrite Nat2N.inj_succ, N.pow_succ_r' in Hn.
  rewrite from_dec_snoc, IH by (by apply N.Div0.div_lt_upper_bound).
  rewrite byte_val_dec_digit.
  pose proof (N.div_mod n 10 ltac:(done)) as Hdiv. revert Hdiv. generalize (n / 10)%N, (n mod 10)%N.
  intros. lia.
Qed.

(** Digit strings of one length are ordered as their numbers. *)
Lemma digits_order x y r r' :
  length x = length y → forallb is_ascii_digit x = true → forallb is_ascii_digit y = true →
  bytes_leb (x ++ r) (y ++ r') = true → (from_dec x ≤ from_dec y)%N.
Proof.
  revert y. induction x as [|c x IH]; intros [|d y]; try done; intros Hlen Hx Hy H.
  injection Hlen as Hlen. pose proof Hx as Hx0. pose proof Hy as Hy0.
  apply andb_true_iff in Hx as [Hc Hx], Hy as [Hd Hy].
  pose proof (from_dec_lt _ Hx) as Hxl. rewrite !from_dec_cons, <-Hlen.
  unfold is_ascii_digit, in_range in Hc, Hd. apply andb_true_iff in Hc as [Hc%N.leb_le _].
  apply andb_true_iff in Hd as [Hd%N.leb_le _]. simpl in H.
  destruct (N.ltb_spec (byte_val c) (byte_val d)) as [Hlt|Hge].
  - assert (byte_val c - 48 + 1 ≤ byte_val d - 48)%N by lia. nia.
  - destruct (N.ltb_spec (byte_val d) (byte_val c)); [done|].
    replace (byte_val c) with (byte_val d) by lia.
    specialize (IH y Hlen Hx Hy H). lia.
Qed.

(** [str::parse::<i64>] *)
Definition parse_i64 (s : str) : option i64 :=
  let '(negative, digits) :=
    match s with
    | c :: rest =>
        if bool_decide (c = "-"%char) then (true, rest)
        else if bool_decide (c = "+"%char) then (false, rest) else (false, s)
    | [] => (false, [])
    end in
  if bool_decide (digits = []) || negb (forallb is_ascii_digit digits) then None
  else
    let v := Z.of_N (from_dec digits) in
    let v := if negative then (- v)%Z else v in
    if ((i64_min <=? v) && (v <=? i64_max))%Z then Some (i_sat v) else None.

Lemma parse_dec_fixed w (a : i64) :
  (0 ≤ i_val a)%Z → (i_nonneg a < 10 ^ N.of_nat (S w))%N →
  parse_i64 (dec_fixed (S w) (i_nonneg a)) = Some a.
Proof.
  intros Ha Hw. pose proof (dec_fixed_digits (S w) (i_nonneg a)) as Hd.
  pose proof (length_dec_fixed (S w) (i_nonneg a)) as Hl.
  pose proof (from_dec_fixed (S w) _ Hw) as Hv.
  destruct (dec_fixed (S w) (i_nonneg a)) as [|c s] eqn:E; [done|].
  assert (is_ascii_digit c = true) as Hc by (by apply andb_true_iff in Hd as [? _]).
  unfold parse_i64. rewrite !bool_decide_false by (intros ->; discriminate Hc).
  rewrite bool_decide_false by done. rewrite Hd. cbn [orb negb]. rewrite Hv.
  assert (Z.of_N (i_nonneg a) = i_val a) as -> by (unfold i_nonneg; lia).
  pose proof (i_val_range a) as Hr. rewrite (proj2 (Z.leb_le _ _)), (proj2 (Z.leb_le _ _)) by lia.
  f_equal. by apply i64_eq, i_val_sat.
Qed.
