(* ===== verification/Crypto.v ===== *)
(** * Crypto: the primitives the core calls, and [mycellium-core/src/cipher.rs]

    The hash, signature, Diffie-Hellman and AEAD functions come from external
    crates ([sha2], [hmac], [hkdf], [ed25519-dalek], [k256], [x25519-dalek],
    [chacha20poly1305]); they are the fields of the class [Crypto].  What the
    code relies on of them - decryption inverts encryption, a signature verifies
    under the signer's public key, Diffie-Hellman commutes - is the class
    [CryptoLaws].  No law says that something cannot be forged.

    On top of them: the error type of the core and the chain KDF and message
    AEAD of [cipher.rs]. *)

From S2P Require Import Prelude.

(** ** External primitives *)
Class Crypto : Type := {
  (* sha2 *)
  sha256 : bytes → arr 32;
  sha512 : bytes → arr 64;
  (* hmac, hkdf: salt, input key material, info, output length *)
  hmac_sha256 : bytes → bytes → arr 32;
  hkdf_sha256 : option bytes → bytes → bytes → ∀ n, arr n;
  hkdf_sha512 : option bytes → bytes → bytes → ∀ n, arr n;
  (* chacha20poly1305: key, nonce, message, associated data *)
  chacha_encrypt : arr 32 → arr 12 → bytes → bytes → bytes;
  chacha_decrypt : arr 32 → arr 12 → bytes → bytes → option bytes;
  (* ed25519-dalek: keys are derived from a 32-byte seed *)
  ed_public : arr 32 → arr 32;
  ed_point_valid : arr 32 → bool;
  ed_sign : arr 32 → bytes → arr 64;
  ed_verify : arr 32 → bytes → arr 64 → bool;
  ed_verify_strict : arr 32 → bytes → arr 64 → bool;
  (* k256: secret scalar, compressed public point, fixed-width signature *)
  k256_secret_valid : arr 32 → bool;
  k256_public : arr 32 → arr 33;
  k256_point_valid : arr 33 → bool;
  k256_signature_valid : bytes → bool;
  k256_sign : arr 32 → bytes → bytes;
  k256_verify : arr 33 → bytes → bytes → bool;
  (* x25519-dalek *)
  x25519_public : arr 32 → arr 32;
  x25519_dh : arr 32 → arr 32 → arr 32
}.

Class CryptoLaws `{!Crypto} : Prop := {
  chacha_correct key nonce msg aad :
    chacha_decrypt key nonce (chacha_encrypt key nonce msg aad) aad = Some msg;
  ed_public_valid seed : ed_point_valid (ed_public seed) = true;
  ed_correct seed msg : ed_verify (ed_public seed) msg (ed_sign seed msg) = true;
  ed_strict_correct seed msg : ed_verify_strict (ed_public seed) msg (ed_sign seed msg) = true;
  k256_public_valid sk : k256_secret_valid sk = true → k256_point_valid (k256_public sk) = true;
  k256_sign_valid sk msg :
    k256_secret_valid sk = true → k256_signature_valid (k256_sign sk msg) = true;
  k256_correct sk msg :
    k256_secret_valid sk = true → k256_verify (k256_public sk) msg (k256_sign sk msg) = true;
  x25519_comm a c : x25519_dh a (x25519_public c) = x25519_dh c (x25519_public a)
}.

(** ** [core/src/error.rs] *)
Inductive core_error : Type :=
  | InvalidHandle
  | BadSignature
  | Malformed
  | DecryptFailed
  | TooManySkipped
  | WeakKey.

#[global] Instance core_error_eq_dec : EqDecision core_error.
Proof. solve_decision. Defined.

(** [impl Display for Error]. *)
Definition core_error_msg (e : core_error) : str :=
  match e with
  | InvalidHandle => b#"invalid handle"
  | BadSignature => b#"signature verification failed"
  | Malformed => b#"malformed encoding"
  | DecryptFailed => b#"decryption failed"
  | TooManySkipped => b#"too many skipped messages"
  | WeakKey => b#"low-order key rejected"
  end.

(** [anyhow!("{e}")]. *)
Definition anyhow_of (e : core_error) : error := Anyhow (core_error_msg e).

(** ** [core/src/cipher.rs] *)
Section Cipher.
Context `{!Crypto}.

(** [message_key = HMAC(ck, 0x01)], [ck' = HMAC(ck, 0x02)]; the pair is
    [(ck', message_key)], as the source returns it. *)
Definition kdf_ck (ck : arr 32) : arr 32 * arr 32 :=
  let mk := hmac_sha256 ck [byte_of 1] in
  let ck_next := hmac_sha256 ck [byte_of 2] in
  (ck_next, mk).

(** The AEAD key and nonce are the two slices of a 44-byte HKDF output. *)
Definition message_keys (mk : arr 32) : arr 32 * arr 12 :=
  let okm := hkdf_sha256 (Some (zeros 32)) mk b#"Mycellium-Msg" 44 in
  (arr_fit 32 (take 32 okm), arr_fit 12 (drop 32 okm)).

Definition aead_encrypt (mk : arr 32) (plaintext aad : bytes) : bytes :=
  let '(key, nonce) := message_keys mk in
  chacha_encrypt key nonce plaintext aad.

Definition aead_decrypt (mk : arr 32) (ciphertext aad : bytes) : result core_error bytes :=
  let '(key, nonce) := message_keys mk in
  ok_or DecryptFailed (chacha_decrypt key nonce ciphertext aad).

Lemma aead_decrypt_encrypt `{!CryptoLaws} mk plaintext aad :
  aead_decrypt mk (aead_encrypt mk plaintext aad) aad = Ok plaintext.
Proof. unfold aead_decrypt, aead_encrypt; simpl. by rewrite chacha_correct. Qed.

Lemma message_keys_split mk :
  arr_bytes (message_keys mk).1 ++ arr_bytes (message_keys mk).2 =
  hkdf_sha256 (Some (zeros 32)) mk b#"Mycellium-Msg" 44.
Proof.
  unfold message_keys. set (okm := hkdf_sha256 _ _ _ 44). cbn [fst snd].
  rewrite !arr_fit_exact; [apply take_drop|..];
    rewrite ?length_drop, ?length_take, arr_length; done.
Qed.
End Cipher.

#[export] Hint Rewrite @aead_decrypt_encrypt using typeclasses eauto : crypto.
