(* ===== verification/Wire.v ===== *)
(** * Wire: [mycellium-core/src/wire.rs] and the state decoders of the engine

    [postcard] is an external crate: for each serialised type it is a pair of
    functions with their round trip ([Postcard]).  The versioned envelope of
    [wire.rs] and the two decoders of [mycellium-engine/src/lib.rs] are modelled
    on top of it. *)

From S2P Require Import Prelude Crypto.

(** [postcard::to_allocvec] and [postcard::from_bytes] at one type. *)
Class Postcard (T : Type) : Type := {
  to_allocvec : T → bytes;
  from_bytes : bytes → option T;
  postcard_roundtrip x : from_bytes (to_allocvec x) = Some x
}.
#[global] Hint Mode Postcard ! : typeclass_instances.

(** [serde_json::to_vec] and [from_slice] at one type. *)
Class Json (T : Type) : Type := {
  to_vec : T → option bytes;
  from_slice : bytes → option T;
  json_roundtrip x b : to_vec x = Some b → from_slice b = Some x
}.
#[global] Hint Mode Json ! : typeclass_instances.

Module wire.
Definition VERSION : ascii := byte_of 1.

Section Wire.
Context {T : Type} `{!Postcard T}.

Definition canonical (value : T) : bytes := to_allocvec value.

Definition encode (value : T) : bytes :=
  let body := canonical value in
  VERSION :: body.

Definition decode (input : bytes) : result core_error T :=
  match input with
  | version :: body =>
      if bool_decide (version = VERSION) then ok_or Malformed (from_bytes body)
      else Err Malformed
  | [] => Err Malformed
  end.

Lemma decode_encode (x : T) : decode (encode x) = Ok x.
Proof. unfold decode, encode, canonical; simpl. by rewrite postcard_roundtrip. Qed.

Lemma encode_inj (x y : T) : encode x = encode y → x = y.
Proof. intros H. cut (Ok (E := core_error) x = Ok y); [congruence|].
  by rewrite <-!decode_encode, H. Qed.

Lemma canonical_inj (x y : T) : canonical x = canonical y → x = y.
Proof. intros H. apply encode_inj. unfold encode. by rewrite H. Qed.

(** Anything not starting with the version byte is refused. *)
Lemma decode_version (input : bytes) (x : T) :
  decode input = Ok x → head input = Some VERSION.
Proof. destruct input as [|v body]; simpl; [done|]. by case_bool_decide; subst. Qed.
End Wire.
End wire.

#[export] Hint Rewrite @wire.decode_encode : wire.

(** ** [engine/src/lib.rs]: decoding local state *)
Section DecodeState.
Context {T : Type} `{!Postcard T}.

Definition corrupt_error (what : str) : error :=
  Anyhow (b#"local " ++ what ++ b#" is corrupt").

(** [decode_state]: an absent key is the default value. *)
Definition decode_state (default : T) (input : option bytes) (what : str) : result error T :=
  match input with
  | None => Ok default
  | Some b => map_err (λ _, corrupt_error what) (wire.decode b)
  end.

(** [load_state]: an absent key is [None]. *)
Definition load_state (input : option bytes) (what : str) : result error (option T) :=
  match input with
  | None => Ok None
  | Some b =>
      match wire.decode b with
      | Ok v => Ok (Some v)
      | Err _ => Err (corrupt_error what)
      end
  end.

Lemma decode_state_encode d (x : T) what : decode_state d (Some (wire.encode x)) what = Ok x.
Proof. unfold decode_state. by rewrite wire.decode_encode. Qed.
Lemma load_state_encode (x : T) what : load_state (Some (wire.encode x)) what = Ok (Some x).
Proof. unfold load_state. by rewrite wire.decode_encode. Qed.
End DecodeState.

#[export] Hint Rewrite @decode_state_encode @load_state_encode : wire.
