(* ===== verification/Identity.v ===== *)
(** * Identity: [mycellium-core/src/platform.rs] and [identity.rs]

    The validated label type [Handle] (a value carries the proof that the
    constructor's check passed, as the private field of the source does),
    public and secret keys and the local [Identity]. *)

From S2P Require Import Prelude Crypto.

(** ** [platform.rs] *)
Class Platform (P : Type) : Type := {
  fill_random : P → ∀ n, arr n * P;
  now_unix_secs : P → u64
}.
#[global] Hint Mode Platform ! : typeclass_instances.

(** ** [identity.rs]: handles *)
Module Handle.
Definition MAX_LEN : nat := 32.

Definition handle_byte (c : ascii) : bool :=
  is_ascii_lowercase c || is_ascii_digit c || bool_decide (c = byte_of 95).

(** The checks of [Handle::new]. *)
Definition valid (s : str) : bool :=
  negb (bool_decide (s = []) || (MAX_LEN <? length s)%nat) && forallb handle_byte s.

Record t : Type := Mk { as_str : str; as_str_valid : Is_true (valid as_str) }.

Definition new (s : str) : result core_error t :=
  match decide (Is_true (valid s)) with
  | left H => Ok (Mk s H)
  | right _ => Err InvalidHandle
  end.

Lemma handle_eq (a c : t) : as_str a = as_str c → a = c.
Proof. destruct a, c; simpl; intros ->. f_equal. apply proof_irrel. Qed.

#[global] Instance eq_dec : EqDecision t.
Proof.
  intros a c. destruct (decide (as_str a = as_str c)) as [H|H].
  - left. by apply handle_eq.
  - right. by intros ->.
Defined.

Lemma handle_new_as_str (h : t) : new (as_str h) = Ok h.
Proof.
  unfold new. destruct (decide _) as [H|H].
  - f_equal. by apply handle_eq.
  - destruct H. apply as_str_valid.
Qed.

Lemma handle_new_Ok s h : new s = Ok h → as_str h = s.
Proof. unfold new. destruct (decide _); naive_solver. Qed.

Lemma handle_new_is_err s : is_err (new s) = negb (valid s).
Proof.
  unfold new. destruct (decide _) as [H|H]; unfold is_err; simpl.
  - by rewrite (Is_true_eq_true _ H).
  - by apply negb_True, Is_true_eq_true in H; rewrite H.
Qed.
End Handle.
Abbreviation Handle := Handle.t.

(** ** [identity.rs]: public key material

    The newtypes over byte arrays are the arrays themselves. *)
Abbreviation WalletPublicKey := (arr 33).
Abbreviation DevicePublicKey := (arr 32).
Abbreviation MessagingPublicKey := (arr 32).
Abbreviation ReticulumAddress := (arr 16).
Abbreviation Signature := bytes.
Abbreviation PeerId := bytes.

Record ReticulumPublicIdentity : Type := mkReticulum {
  encryption_key : arr 32;
  signing_key : arr 32;
  address : ReticulumAddress
}.

#[global] Instance ReticulumPublicIdentity_eq_dec : EqDecision ReticulumPublicIdentity.
Proof. solve_decision. Defined.

Section Keys.
Context `{!Crypto}.

(** [WalletPublicKey::verify] *)
Definition wallet_verify (self : WalletPublicKey) (msg : bytes) (sig : Signature)
    : result core_error unit :=
  if negb (k256_point_valid self) then Err Malformed
  else if negb (k256_signature_valid sig) then Err BadSignature
  else if k256_verify self msg sig then Ok tt else Err BadSignature.

(** [DevicePublicKey::verify] *)
Definition device_verify (self : DevicePublicKey) (msg : bytes) (sig : Signature)
    : result core_error unit :=
  if negb (ed_point_valid self) then Err Malformed
  else match arr_try (n := 64) sig with
       | None => Err BadSignature
       | Some sig => if ed_verify self msg sig then Ok tt else Err BadSignature
       end.

(** [DevicePublicKey::peer_id] *)
Definition device_peer_id (self : DevicePublicKey) : PeerId :=
  map byte_of [0; 36; 8; 1; 18; 32]%N ++ self.

(** [reticulum_address] *)
Definition reticulum_address (encryption_key signing_key : arr 32) : ReticulumAddress :=
  let identity_hash := sha256 (encryption_key ++ signing_key) in
  let identity_address := arr_fit 16 (take 16 identity_hash) in
  let name_hash := sha256 (b#"mycellium" ++ b#"." ++ b#"delivery") in
  let address := sha256 (take 10 name_hash ++ identity_address) in
  arr_fit 16 (take 16 address).

Definition derived_address (self : ReticulumPublicIdentity) : ReticulumAddress :=
  reticulum_address (encryption_key self) (signing_key self).

(** [ReticulumPublicIdentity::verify] *)
Definition reticulum_verify (self : ReticulumPublicIdentity) : bool :=
  bool_decide (address self = derived_address self).

(** [derive_key]: HKDF-SHA512 without salt. *)
Definition derive_key (ikm info : bytes) : arr 32 := hkdf_sha512 None ikm info 32.
End Keys.

(** ** [identity.rs]: the local secret identity *)
Module Identity.
(** The key pairs are kept as their secrets: the wallet scalar, the device
    seed, the two X25519 secrets. *)
Record t : Type := Mk {
  wallet_secret : arr 32;
  device_seed : arr 32;
  wallet : arr 32;
  device : arr 32;
  messaging : arr 32;
  signed_pre_key : arr 32
}.

Section Identity.
Context `{!Crypto}.

Definition build (wallet_secret device_seed : arr 32) : result core_error t :=
  if negb (k256_secret_valid wallet_secret) then Err Malformed
  else
    let device := derive_key device_seed b#"mycellium:device:ed25519:v1" in
    let messaging := derive_key device_seed b#"mycellium:messaging:x25519:v1" in
    let signed_pre_key := derive_key device_seed b#"mycellium:spk:x25519:v1:0" in
    Ok (Mk wallet_secret device_seed wallet_secret device messaging signed_pre_key).

Definition from_wallet_secret (wallet_secret device_seed : arr 32) : result core_error t :=
  build wallet_secret device_seed.

(** The rejection loop of [generate]; [None] when [fuel] draws were all
    refused, which the source would answer with another draw. *)
Fixpoint draw_wallet {P} `{!Platform P} (fuel : nat) (platform : P) : option (arr 32 * P) :=
  match fuel with
  | O => None
  | S fuel' =>
      let '(wallet_secret, platform) := fill_random platform 32 in
      if k256_secret_valid wallet_secret then Some (wallet_secret, platform)
      else draw_wallet fuel' platform
  end.

Definition generate {P} `{!Platform P} (fuel : nat) (platform : P)
    : option (result core_error t * P) :=
  match draw_wallet fuel platform with
  | None => None
  | Some (wallet_secret, platform) =>
      let '(device_seed, platform) := fill_random platform 32 in
      Some (build wallet_secret device_seed, platform)
  end.

Definition adopt {P} `{!Platform P} (platform : P) (wallet_secret : arr 32)
    : result core_error t * P :=
  let '(device_seed, platform) := fill_random platform 32 in
  (build wallet_secret device_seed, platform).

Definition wallet_public (self : t) : WalletPublicKey := k256_public (wallet self).
Definition device_public (self : t) : DevicePublicKey := ed_public (device self).

Definition storage_key (self : t) : arr 32 :=
  hkdf_sha512 None (device self) b#"mycellium:local-storage:v1" 32.

Definition device_secret (self : t) : arr 32 := device self.

Definition reticulum_private_bytes (self : t) : arr 64 :=
  arr_fit 64 (derive_key (device_seed self) b#"mycellium:reticulum:x25519:v1"
              ++ derive_key (device_seed self) b#"mycellium:reticulum:ed25519:v1").

Definition reticulum_public (self : t) : ReticulumPublicIdentity :=
  let private := reticulum_private_bytes self in
  let encryption_seed := arr_fit 32 (take 32 private) in
  let encryption_key := x25519_public encryption_seed in
  let signing_seed := arr_fit 32 (drop 32 private) in
  let signing_key := ed_public signing_seed in
  mkReticulum encryption_key signing_key (reticulum_address encryption_key signing_key).

Definition messaging_public (self : t) : MessagingPublicKey := x25519_public (messaging self).
Definition signed_pre_key_public (self : t) : MessagingPublicKey :=
  x25519_public (signed_pre_key self).

Definition dh_identity (self : t) (peer : MessagingPublicKey) : arr 32 :=
  x25519_dh (messaging self) peer.
Definition dh_signed_pre_key (self : t) (peer : MessagingPublicKey) : arr 32 :=
  x25519_dh (signed_pre_key self) peer.

Definition peer_id (self : t) : PeerId := device_peer_id (device_public self).

Definition sign (self : t) (msg : bytes) : Signature := k256_sign (wallet self) msg.
Definition sign_device (self : t) (msg : bytes) : Signature := ed_sign (device self) msg.

(** What every constructor establishes: the wallet scalar is valid and the
    device-local keys come from the device seed alone. *)
Definition wf (self : t) : Prop :=
  build (wallet_secret self) (device_seed self) = Ok self.

Lemma build_inv ws ds i : build ws ds = Ok i → wallet_secret i = ws ∧ device_seed i = ds.
Proof. unfold build. destruct (k256_secret_valid ws); [|done]. by intros [= <-]. Qed.
Lemma build_wf ws ds self : build ws ds = Ok self → wf self.
Proof.
  unfold wf. unfold build at 1. destruct (k256_secret_valid ws) eqn:Hv; [|done].
  simpl. intros [= <-]. unfold build; simpl. by rewrite Hv.
Qed.

Lemma wf_inv self : wf self →
  k256_secret_valid (wallet self) = true ∧ wallet self = wallet_secret self.
Proof.
  unfold wf, build. destruct (k256_secret_valid _) eqn:Hv; [|done].
  destruct self; simpl in *. by intros [= <- _ _ _].
Qed.

(** The rejection loop stops at the first draw that is a wallet key: with fuel up
    to that draw there is a result, and more fuel gives the same one. *)
Fixpoint draws {P} `{!Platform P} (n : nat) (platform : P) : arr 32 * P :=
  match n with
  | O => fill_random platform 32
  | S n => draws n (fill_random platform 32).2
  end.

Lemma draw_wallet_enough {P} `{!Platform P} n fuel (platform : P) :
  k256_secret_valid (draws n platform).1 = true → (n < fuel)%nat →
  ∃ r, draw_wallet fuel platform = Some r ∧ k256_secret_valid r.1 = true ∧
       ∀ more, draw_wallet (fuel + more) platform = Some r.
Proof.
  revert n platform. induction fuel as [|fuel IH]; intros n platform Hv Hn; [lia|].
  cbn [draw_wallet Nat.add].
  destruct (fill_random platform 32) as [ws platform'] eqn:Hd.
  destruct (k256_secret_valid ws) eqn:Hws.
  - eexists. split; [done|]. by split.
  - destruct n as [|n]; simpl in Hv; rewrite Hd in Hv; simpl in Hv; [by rewrite Hws in Hv|].
    apply (IH n); [done|lia].
Qed.

Context `{!CryptoLaws}.

Lemma wallet_sign_verify self msg :
  wf self → wallet_verify (wallet_public self) msg (sign self msg) = Ok tt.
Proof.
  intros [Hv _]%wf_inv. unfold wallet_verify, wallet_public, sign.
  by rewrite k256_public_valid, k256_sign_valid, k256_correct.
Qed.

Lemma device_sign_verify self msg :
  device_verify (device_public self) msg (sign_device self msg) = Ok tt.
Proof.
  unfold device_verify, device_public, sign_device.
  by rewrite ed_public_valid, arr_try_bytes, ed_correct.
Qed.
End Identity.
End Identity.
Abbreviation Identity := Identity.t.

#[export] Hint Rewrite @Identity.device_sign_verify using typeclasses eauto : crypto.
#[export] Hint Resolve Identity.wallet_sign_verify Identity.device_sign_verify : crypto.
