(* ===== verification/UserId.v ===== *)
(** * UserId: [mycellium-core/src/userid.rs] and [safety.rs]

    The stable user id - the lowercase hex of a digest of the wallet key - and
    the safety number two users compare out of band. *)

From S2P Require Import Prelude Crypto Identity.

(** ** [userid.rs] *)
Module UserId.
Definition LEN : nat := 64.

Definition is_lower_hex (byte : ascii) : bool := is_ascii_digit byte || in_range 97 102 byte.

(** The check of [UserId::new]. *)
Definition valid (value : str) : bool :=
  negb (negb (length value =? LEN)%nat || negb (forallb is_lower_hex value)).

Record t : Type := Mk { as_str : str; as_str_valid : Is_true (valid as_str) }.

Definition new (value : str) : result core_error t :=
  match decide (Is_true (valid value)) with
  | left H => Ok (Mk value H)
  | right _ => Err Malformed
  end.

Lemma uid_eq (a c : t) : as_str a = as_str c → a = c.
Proof. destruct a, c; simpl; intros ->. f_equal. apply proof_irrel. Qed.

#[global] Instance eq_dec : EqDecision t.
Proof.
  intros a c. destruct (decide (as_str a = as_str c)) as [H|H].
  - left. by apply uid_eq.
  - right. by intros ->.
Defined.

Lemma valid_spec s : valid s = true ↔ length s = LEN ∧ forallb is_lower_hex s = true.
Proof.
  unfold valid. rewrite negb_true_iff, orb_false_iff, !negb_false_iff, Nat.eqb_eq. done.
Qed.

Lemma uid_new_as_str (u : t) : new (as_str u) = Ok u.
Proof.
  unfold new. destruct (decide _) as [H|H].
  - f_equal. by apply uid_eq.
  - destruct H. apply as_str_valid.
Qed.

Lemma uid_new_Ok s u : new s = Ok u ↔ as_str u = s.
Proof.
  split; [|intros <-; apply uid_new_as_str].
  unfold new. destruct (decide _); naive_solver.
Qed.

Lemma uid_new_is_err s : is_err (new s) = negb (valid s).
Proof.
  unfold new. destruct (decide _) as [H|H]; unfold is_err; simpl.
  - by rewrite (Is_true_eq_true _ H).
  - by apply negb_True, Is_true_eq_true in H; rewrite H.
Qed.

Lemma hex_digit_lower n : (n < 16)%N → is_lower_hex (hex_digit n) = true.
Proof.
  intros Hn. unfold is_lower_hex, is_ascii_digit, in_range, hex_digit.
  destruct (N.ltb_spec n 10); rewrite byte_val_of by lia;
    apply orb_true_iff; [left|right]; apply andb_true_iff; split; apply N.leb_le; lia.
Qed.

Lemma hex_lower l : forallb is_lower_hex (hex l) = true.
Proof.
  induction l as [|a l IH]; simpl; [done|].
  destruct (hex_nibbles a) as (H1 & H2 & _). by rewrite !hex_digit_lower, IH.
Qed.

(** The hex of a 32-byte digest always passes the check. *)
Lemma hex_digest_valid (d : arr 32) : Is_true (valid (hex d)).
Proof.
  apply Is_true_eq_left, valid_spec. split; [|apply hex_lower].
  by rewrite length_hex, arr_length.
Qed.

Section UserId.
Context `{!Crypto}.

Definition from_wallet (wallet : WalletPublicKey) : t :=
  let hasher := sha256 (b#"mycellium-user-id-v1:" ++ wallet) in
  Mk (hex hasher) (hex_digest_valid hasher).
End UserId.
End UserId.
Abbreviation UserId := UserId.t.

(** [user_id] *)
Definition user_id `{!Crypto} (wallet : WalletPublicKey) : UserId := UserId.from_wallet wallet.

(** ** [safety.rs] *)
Section Safety.
Context `{!Crypto}.

Definition GROUPS : nat := 6.

(** The five digits [push_5] appends, least significant first, reversed. *)
Definition push_5 (out : str) (value : N) : str := out ++ dec_fixed 5 value.

(** [value = (value << 8) | byte] over one 5-byte chunk. *)
Definition chunk_value (chunk : bytes) : N :=
  fold_left (λ value byte, N.lor (N.shiftl value 8) (byte_val byte)) chunk 0%N.

(** The body of the [for i in 0..GROUPS] loop. *)
Definition push_group (digest : bytes) (out : str) (i : nat) : str :=
  let chunk := take 5 (drop (i * 5) digest) in
  let value := chunk_value chunk in
  let out := if (0 <? i)%nat then out ++ b#" " else out in
  push_5 out (value mod 100000).

Definition safety_number (a c : WalletPublicKey) : str :=
  let '(lo, hi) := if bytes_leb a c then (a, c) else (c, a) in
  let digest := sha512 (b#"mycellium-safety-number-v1" ++ lo ++ hi) in
  fold_left (push_group digest) (seq 0 GROUPS) [].
End Safety.

Lemma bytes_leb_total a c : bytes_leb a c = true ∨ bytes_leb c a = true.
Proof.
  revert c. induction a as [|x a IH]; intros [|y c]; simpl; auto.
  destruct (N.ltb_spec (byte_val x) (byte_val y)), (N.ltb_spec (byte_val y) (byte_val x)); auto.
Qed.

Lemma bytes_leb_antisym a c : bytes_leb a c = true → bytes_leb c a = true → a = c.
Proof.
  revert c. induction a as [|x a IH]; intros [|y c]; simpl; try done.
  destruct (N.ltb_spec (byte_val x) (byte_val y)), (N.ltb_spec (byte_val y) (byte_val x));
    try done; try lia.
  intros H1 H2. f_equal; [|by apply IH].
  rewrite <-(ascii_N_embedding x), <-(ascii_N_embedding y).
  unfold byte_val in *. f_equal. lia.
Qed.

Lemma bytes_leb_trans a c d : bytes_leb a c = true → bytes_leb c d = true → bytes_leb a d = true.
Proof.
  revert c d. induction a as [|x a IH]; intros [|y c] [|z d]; simpl; try done.
  repeat match goal with |- context [(?m <? ?n)%N] => destruct (N.ltb_spec m n) end;
    try done; try lia. apply IH.
Qed.

(** ** Properties *)

(** One spoken group: a separator before every group but the first, then five digits. *)
Definition group_text (digest : bytes) (i : nat) : str :=
  (if (0 <? i)%nat then b#" " else [])
  ++ dec_fixed 5 (chunk_value (take 5 (drop (i * 5) digest)) mod 100000).

Lemma push_group_text digest out i : push_group digest out i = out ++ group_text digest i.
Proof.
  unfold push_group, push_5, group_text.
  destruct (0 <? i)%nat; [by rewrite (assoc_L (++))|done].
Qed.

Lemma length_group_text digest i :
  length (group_text digest i) = if (0 <? i)%nat then 6%nat else 5%nat.
Proof.
  unfold group_text. rewrite length_app, length_dec_fixed. by destruct (0 <? i)%nat.
Qed.

(** the safety number does not depend on which of the two peers computes
    it, and it is exactly the text a user reads aloud: six groups of five
    decimal digits of the digest, separated by single spaces, 35 characters. *)
Theorem safety_number_spec `{!Crypto} (a c : WalletPublicKey) :
  safety_number a c = safety_number c a ∧
  length (safety_number a c) = 35%nat ∧
  ∃ digest : arr 64, safety_number a c = concat (map (group_text digest) (seq 0 GROUPS)) ∧
    ∀ i, forallb is_ascii_digit (drop (if (0 <? i)%nat then 1 else 0) (group_text digest i)) = true.
Proof.
  assert (∀ x y : WalletPublicKey, ∃ digest : arr 64,
    safety_number x y = concat (map (group_text digest) (seq 0 GROUPS))) as Hshape.
  { intros x y. unfold safety_number. destruct (if bytes_leb x y then _ else _) as [lo hi].
    eexists. simpl. rewrite !push_group_text. by rewrite <-!(assoc_L (++)). }
  split_and!.
  - unfold safety_number.
    destruct (bytes_leb a c) eqn:H1, (bytes_leb c a) eqn:H2; try done.
    + by rewrite (arr_eq a c (bytes_leb_antisym _ _ H1 H2)).
    + destruct (bytes_leb_total a c); congruence.
  - destruct (Hshape a c) as [digest ->]. unfold GROUPS. cbn [seq map concat].
    by rewrite !length_app, !length_group_text.
  - destruct (Hshape a c) as [digest Hd]. exists digest. split; [done|]. intros i.
    unfold group_text. destruct (0 <? i)%nat; apply dec_fixed_digits.
Qed.
