(* ===== verification/Instances.v ===== *)
(** * Instances: concrete primitives for the witnesses

    The properties are proved for every implementation of the external
    functions that satisfies the laws of [Crypto] and [Wire].  This file
    gives one such implementation - a self-delimiting serialiser and
    deliberately weak primitives - so that a property with a law among its
    hypotheses can be evaluated at a concrete input.  Nothing here models code
    of the repository, and no property is stated about it. *)

From S2P Require Import Prelude Crypto Wire Identity UserId.

(** ** A self-delimiting serialiser *)
Class Codec (T : Type) : Type := {
  cenc : T → bytes;
  cdec : bytes → option (T * bytes);
  cdec_cenc x r : cdec (cenc x ++ r) = Some (x, r)
}.
#[global] Hint Mode Codec ! : typeclass_instances.

Definition codec_from_bytes `{!Codec T} (input : bytes) : option T :=
  match cdec input with Some (x, []) => Some x | _ => None end.
Lemma codec_roundtrip `{!Codec T} (x : T) : codec_from_bytes (cenc x) = Some x.
Proof.
  unfold codec_from_bytes. pose proof (cdec_cenc x []) as H.
  rewrite app_nil_r in H. by rewrite H.
Qed.
#[export] Instance codec_postcard `{!Codec T} : Postcard T := {|
  to_allocvec := cenc; from_bytes := codec_from_bytes; postcard_roundtrip := codec_roundtrip |}.

#[export] Instance codec_json `{!Codec T} : Json T.
Proof.
  refine {| to_vec x := Some (to_allocvec x); from_slice := from_bytes |}.
  intros x b H. injection H as <-. exact (postcard_roundtrip x).
Defined.

Fixpoint penc (p : positive) : bytes :=
  match p with
  | xH => [byte_of 2]
  | xO p => byte_of 0 :: penc p
  | xI p => byte_of 1 :: penc p
  end.
Fixpoint pdec (l : bytes) : option (positive * bytes) :=
  match l with
  | [] => None
  | c :: l =>
      if bool_decide (c = byte_of 2) then Some (xH, l)
      else '(p, l) ← pdec l;
           if bool_decide (c = byte_of 0) then Some (xO p, l) else Some (xI p, l)
  end.
Lemma pdec_penc p r : pdec (penc p ++ r) = Some (p, r).
Proof. induction p; simpl; rewrite ?IHp; done. Qed.

#[export] Instance N_codec : Codec N.
Proof.
  refine {|
  cenc n := match n with N0 => [byte_of 3] | Npos p => byte_of 4 :: penc p end;
  cdec l := match l with
            | [] => None
            | c :: l => if bool_decide (c = byte_of 3) then Some (N0, l)
                        else '(p, l) ← pdec l; Some (Npos p, l)
            end;
  cdec_cenc := _ |}.
  intros [|p] r; simpl; [done|]. by rewrite pdec_penc.
Defined.

(** A codec from a partial retraction. *)
Definition codec_iso `{!Codec B} {A} (f : A → B) (g : B → option A)
    (gf : ∀ x, g (f x) = Some x) : Codec A.
Proof.
  refine {|
    cenc x := cenc (f x);
    cdec l := '(y, l) ← cdec l; x ← g y; Some (x, l);
    cdec_cenc := _ |}.
  intros x r. rewrite cdec_cenc. simpl. by rewrite gf.
Defined.

#[export] Instance nat_codec : Codec nat.
Proof. refine (codec_iso N.of_nat (λ n, Some (N.to_nat n)) _). intros. by rewrite Nat2N.id. Defined.

#[export] Instance bytes_codec : Codec bytes.
Proof.
  refine {|
  cenc l := cenc (length l) ++ l;
  cdec l := '(n, l) ← cdec (T := nat) l; Some (take n l, drop n l);
  cdec_cenc := _ |}.
  intros l r. rewrite <-(assoc_L (++)), cdec_cenc; simpl.
  by rewrite take_app_length, drop_app_length.
Defined.

#[export] Instance arr_codec n : Codec (arr n).
Proof. exact (codec_iso arr_bytes arr_try arr_try_bytes). Defined.

Definition uint_of {w} (n : N) : option (uint w) :=
  if (n <? 2 ^ w)%N then Some (uwrap w n) else None.
Lemma uint_of_val {w} (a : uint w) : uint_of (u_val a) = Some a.
Proof.
  unfold uint_of. pose proof (u_val_lt a) as H. rewrite (proj2 (N.ltb_lt _ _) H).
  by rewrite uwrap_u_val.
Qed.
#[export] Instance uint_codec w : Codec (uint w).
Proof. exact (codec_iso u_val uint_of uint_of_val). Defined.

#[export] Instance bool_codec : Codec bool.
Proof.
  refine (codec_iso (λ c : bool, if c then 1%N else 0%N) (λ n, Some (N.eqb n 1)) _).
  by intros [].
Defined.

#[export] Instance unit_codec : Codec unit.
Proof.
  refine {|
  cenc _ := []; cdec l := Some (tt, l);
  cdec_cenc := _ |}.
  by intros [] r.
Defined.

#[export] Instance prod_codec `{!Codec A, !Codec B} : Codec (A * B).
Proof.
  refine {|
  cenc p := cenc p.1 ++ cenc p.2;
  cdec l := '(x, l) ← cdec l; '(y, l) ← cdec l; Some ((x, y), l);
  cdec_cenc := _ |}.
  intros [x y] r. rewrite <-(assoc_L (++)), cdec_cenc; simpl.
  by rewrite cdec_cenc.
Defined.

#[export] Instance sum_codec `{!Codec A, !Codec B} : Codec (A + B).
Proof.
  refine {|
  cenc s := match s with inl x => byte_of 0 :: cenc x | inr y => byte_of 1 :: cenc y end;
  cdec l := match l with
            | [] => None
            | c :: l => if bool_decide (c = byte_of 0) then '(x, l) ← cdec l; Some (inl x, l)
                        else '(y, l) ← cdec l; Some (inr y, l)
            end;
  cdec_cenc := _ |}.
  intros [x|y] r; simpl; by rewrite cdec_cenc.
Defined.

#[export] Instance option_codec `{!Codec A} : Codec (option A).
Proof.
  refine (codec_iso (B := unit + A)
    (λ o, match o with None => inl tt | Some x => inr x end)
    (λ s, Some (match s with inl _ => None | inr x => Some x end)) _).
  by intros [].
Defined.

Fixpoint list_cdec `{!Codec A} (n : nat) (l : bytes) : option (list A * bytes) :=
  match n with
  | O => Some ([], l)
  | S n => '(x, l) ← cdec l; '(xs, l) ← list_cdec n l; Some (x :: xs, l)
  end.
Definition list_cenc `{!Codec A} (xs : list A) : bytes := concat (map cenc xs).
#[export] Instance list_codec `{!Codec A} : Codec (list A) | 20.
Proof.
  refine {|
  cenc xs := cenc (length xs) ++ list_cenc xs;
  cdec l := '(n, l) ← cdec (T := nat) l; list_cdec n l;
  cdec_cenc := _ |}.
  intros xs r. rewrite <-(assoc_L (++)), cdec_cenc; simpl.
  unfold list_cenc. induction xs as [|x xs IH]; simpl; [done|].
  rewrite <-(assoc_L (++)), cdec_cenc; simpl. by rewrite IH.
Defined.

#[export] Instance Handle_codec : Codec Handle.
Proof.
  refine (codec_iso Handle.as_str (λ s, ok_opt (Handle.new s)) _).
  intros h. by rewrite Handle.handle_new_as_str.
Defined.

#[export] Instance UserId_codec : Codec UserId.
Proof.
  refine (codec_iso UserId.as_str (λ s, ok_opt (UserId.new s)) _).
  intros u. by rewrite UserId.uid_new_as_str.
Defined.

(** ** Weak primitives that satisfy the laws *)
Definition toy_hash (n : nat) (b : bytes) : arr n := arr_fit n (rev b).
Definition toy_tag (key : arr 32) (nonce : arr 12) (msg aad : bytes) : bytes :=
  toy_hash 16 (key ++ nonce ++ msg ++ aad).
Lemma length_toy_tag key nonce msg aad : length (toy_tag key nonce msg aad) = 16%nat.
Proof. apply arr_length. Qed.
Definition toy_ed_sign (seed : arr 32) (msg : bytes) : arr 64 :=
  arr_fit 64 (seed ++ toy_hash 32 msg).
Definition toy_k256_sign (sk : arr 32) (msg : bytes) : bytes := sk ++ toy_hash 32 msg.
Definition toy_dh (a c : arr 32) : arr 32 :=
  arr_fit 32 (zip_with (λ x y, byte_of (byte_val x + byte_val y + 1)) a c).

#[export] Instance ToyCrypto : Crypto := {|
  sha256 := toy_hash 32;
  sha512 := toy_hash 64;
  hmac_sha256 key msg := toy_hash 32 (key ++ msg);
  hkdf_sha256 salt ikm info n := toy_hash n (ikm ++ info);
  hkdf_sha512 salt ikm info n := toy_hash n (ikm ++ info);
  chacha_encrypt key nonce msg aad := msg ++ toy_tag key nonce msg aad;
  chacha_decrypt key nonce ct aad :=
    let msg := take (length ct - 16) ct in
    if bool_decide (drop (length ct - 16) ct = toy_tag key nonce msg aad) then Some msg else None;
  ed_public := id;
  ed_point_valid _ := true;
  ed_sign := toy_ed_sign;
  ed_verify pk msg sig := bool_decide (sig = toy_ed_sign pk msg);
  ed_verify_strict pk msg sig := bool_decide (sig = toy_ed_sign pk msg);
  k256_secret_valid sk := negb (bool_decide (arr_bytes sk = zeros 32));
  k256_public sk := arr_fit 33 (byte_of 2 :: sk);
  k256_point_valid pk := bool_decide (head pk = Some (byte_of 2));
  k256_signature_valid sig := (length sig =? 64)%nat;
  k256_sign := toy_k256_sign;
  k256_verify pk msg sig := bool_decide (sig = drop 1 pk ++ toy_hash 32 msg);
  x25519_public := id;
  x25519_dh := toy_dh
|}.

#[export] Instance ToyCryptoLaws : CryptoLaws.
Proof.
  split.
  - intros key nonce msg aad. simpl.
    rewrite length_app, length_toy_tag.
    replace (length msg + 16 - 16)%nat with (length msg) by lia.
    rewrite take_app_length, drop_app_length. by rewrite bool_decide_true.
  - done.
  - intros. by apply bool_decide_true.
  - intros. by apply bool_decide_true.
  - intros sk _. by apply bool_decide_true.
  - intros sk msg _. cbn [k256_signature_valid k256_sign ToyCrypto]. unfold toy_k256_sign.
    by rewrite length_app, !arr_length.
  - intros sk msg _. cbn [k256_verify k256_public k256_sign ToyCrypto]. apply bool_decide_true.
    rewrite arr_fit_exact; [done|]. simpl. by rewrite arr_length.
  - intros a c. cbn [x25519_dh x25519_public ToyCrypto id]. unfold toy_dh. f_equal.
    generalize (arr_bytes a) (arr_bytes c). intros l. induction l as [|x l IH]; intros [|y k];
      simpl; f_equal; auto. f_equal. lia.
Qed.

(** A platform that counts: the random bytes are the counter. *)
#[export] Instance ToyPlatform : Platform N := {|
  fill_random (n : N) k := (arr_fit k (replicate k (byte_of n)), (n + 1)%N);
  now_unix_secs n := usat 64 n
|}.

(** A local identity and its keys under these primitives. *)
Definition toy_identity (n : N) : Identity :=
  match Identity.build (arr_fit 32 (replicate 32 (byte_of n)))
                       (arr_fit 32 (replicate 32 (byte_of (n + 1)))) with
  | Ok i => i
  | Err _ => Identity.Mk (arr_fit 32 []) (arr_fit 32 []) (arr_fit 32 []) (arr_fit 32 [])
                         (arr_fit 32 []) (arr_fit 32 [])
  end.

Lemma toy_identity_wf : Identity.wf (toy_identity 7).
Proof. reflexivity. Defined.

Definition toy_handle (s : string) : Handle :=
  match Handle.new (bs s) with
  | Ok h => h
  | Err _ => Handle.Mk b#"x" I
  end.
