(* ===== verification/X3DH.v ===== *)
(** * X3DH: [mycellium-core/src/x3dh.rs] and [one_shot.rs]

    The key agreement that gives every direct envelope its own key, and the
    encryption of the envelope under it. *)

From S2P Require Import Prelude Crypto Wire Identity Instances.

Module x3dh.
Abbreviation SharedSecret := (arr 32).

Record HandshakeInit : Type := mkHandshakeInit {
  initiator_ik : MessagingPublicKey;
  initiator_ek : MessagingPublicKey
}.

Record Initiated : Type := mkInitiated {
  shared_secret : SharedSecret;
  init : HandshakeInit
}.

Definition KDF_INFO : bytes := b#"Mycellium-X3DH-v1".

(** An all-zero output is a degenerate agreement. *)
Definition contributory (dh : arr 32) : result core_error unit :=
  if forallb (λ c, bool_decide (c = zero_byte)) dh then Err WeakKey else Ok tt.

Section X3DH.
Context `{!Crypto}.

Definition kdf (dh1 dh2 dh3 : arr 32) : SharedSecret :=
  let ikm := arr_bytes dh1 ++ dh2 ++ dh3 in
  hkdf_sha256 (Some (zeros 32)) ikm KDF_INFO 32.

Definition initiate {P} `{!Platform P} (platform : P) (initiator : Identity)
    (responder_ik responder_spk : MessagingPublicKey) : result core_error Initiated * P :=
  let '(ephemeral, platform) := fill_random platform 32 in
  let ephemeral_public := x25519_public ephemeral in
  let dh1 := Identity.dh_identity initiator responder_spk in
  let dh2 := x25519_dh ephemeral responder_ik in
  let dh3 := x25519_dh ephemeral responder_spk in
  (let? _ := contributory dh1 in
   let? _ := contributory dh2 in
   let? _ := contributory dh3 in
   let shared_secret := kdf dh1 dh2 dh3 in
   Ok (mkInitiated shared_secret
         (mkHandshakeInit (Identity.messaging_public initiator) ephemeral_public)),
   platform).

Definition respond (responder : Identity) (init : HandshakeInit)
    : result core_error SharedSecret :=
  let dh1 := Identity.dh_signed_pre_key responder (initiator_ik init) in
  let dh2 := Identity.dh_identity responder (initiator_ek init) in
  let dh3 := Identity.dh_signed_pre_key responder (initiator_ek init) in
  let? _ := contributory dh1 in
  let? _ := contributory dh2 in
  let? _ := contributory dh3 in
  Ok (kdf dh1 dh2 dh3).
End X3DH.
End x3dh.

(** ** [one_shot.rs] *)
Module one_shot.
Inductive OneShotMessage : Type :=
  | X3dhChaCha20Poly1305V1 (ciphertext : bytes).

Section OneShot.
Context `{!Crypto}.

Definition seal (shared : x3dh.SharedSecret) (plaintext associated_data : bytes) : OneShotMessage :=
  X3dhChaCha20Poly1305V1 (aead_encrypt shared plaintext associated_data).

Definition open (shared : x3dh.SharedSecret) (message : OneShotMessage)
    (associated_data : bytes) : result core_error bytes :=
  match message with
  | X3dhChaCha20Poly1305V1 ciphertext => aead_decrypt shared ciphertext associated_data
  end.

Lemma open_seal `{!CryptoLaws} shared plaintext ad :
  open shared (seal shared plaintext ad) ad = Ok plaintext.
Proof. apply aead_decrypt_encrypt. Qed.
End OneShot.
End one_shot.

#[export] Hint Rewrite @one_shot.open_seal using typeclasses eauto : crypto.

(** The responder of an accepted handshake reaches the initiator's secret. *)
Lemma respond_to_initiated `{!Crypto, !CryptoLaws} {P} `{!Platform P} (platform platform' : P)
    (a c : Identity) i :
  x3dh.initiate platform a (Identity.messaging_public c) (Identity.signed_pre_key_public c)
    = (Ok i, platform') →
  x3dh.initiator_ik (x3dh.init i) = Identity.messaging_public a ∧
  x3dh.respond c (x3dh.init i) = Ok (x3dh.shared_secret i).
Proof.
  unfold x3dh.initiate. destruct (fill_random platform 32) as [ek p'].
  set (dh1 := Identity.dh_identity a _). set (dh2 := x25519_dh ek (Identity.messaging_public c)).
  set (dh3 := x25519_dh ek (Identity.signed_pre_key_public c)).
  intros Hi. destruct (x3dh.contributory dh1) as [[]|] eqn:H1; [|done].
  destruct (x3dh.contributory dh2) as [[]|] eqn:H2; [|done].
  destruct (x3dh.contributory dh3) as [[]|] eqn:H3; [|done].
  injection Hi as <- _. split; [done|]. unfold x3dh.respond.
  cbn [x3dh.init x3dh.initiator_ik x3dh.initiator_ek]. cbv zeta.
  assert (Identity.dh_signed_pre_key c (Identity.messaging_public a) = dh1) as -> by apply x25519_comm.
  assert (Identity.dh_identity c (x25519_public ek) = dh2) as -> by apply x25519_comm.
  assert (Identity.dh_signed_pre_key c (x25519_public ek) = dh3) as -> by apply x25519_comm.
  by rewrite H1, H2, H3.
Qed.

(** ** Properties *)

Lemma contributory_Ok dh :
  x3dh.contributory dh = Ok tt ↔ arr_bytes dh ≠ zeros 32.
Proof.
  unfold x3dh.contributory. destruct (forallb _ dh) eqn:Hz; split; try done.
  - intros Hn. exfalso. apply Hn. pose proof (arr_length dh) as Hl.
    symmetry. apply replicate_as_elem_of. split; [done|]. intros c Hc.
    rewrite forallb_forall in Hz.
    by apply (bool_decide_eq_true (c = zero_byte)), Hz, list_elem_of_In.
  - intros _ H. rewrite H in Hz. vm_compute in Hz. done.
Qed.

Lemma contributory_cases dh :
  (x3dh.contributory dh = Ok tt ∧ arr_bytes dh ≠ zeros 32) ∨
  (x3dh.contributory dh = Err WeakKey ∧ arr_bytes dh = zeros 32).
Proof.
  destruct (decide (arr_bytes dh = zeros 32)) as [H|H].
  - right. split; [|done]. unfold x3dh.contributory. by rewrite H.
  - left. split; [|done]. by apply contributory_Ok.
Qed.

Section Agreement.
Context `{!Crypto} {P : Type} `{!Platform P}.

(** The three Diffie-Hellman outputs the initiator computes. *)
Definition initiator_dhs (platform : P) (a : Identity) (ik spk : MessagingPublicKey)
    : list (arr 32) :=
  let ek := (fill_random platform 32).1 in
  [Identity.dh_identity a spk; x25519_dh ek ik; x25519_dh ek spk].

Definition degenerate (dh : arr 32) : Prop := arr_bytes dh = zeros 32.

(** C27: whatever the random ephemeral key, the responder that runs [respond]
    on the initiator's handshake message reaches exactly the initiator's
    outcome: the same shared secret when the initiator accepted, the same
    [WeakKey] refusal of the handshake otherwise. *)
Theorem x3dh_agreement (laws : CryptoLaws) (platform : P) (a c : Identity) :
  let ek := (fill_random platform 32).1 in
  let r := (x3dh.initiate platform a (Identity.messaging_public c)
              (Identity.signed_pre_key_public c)).1 in
  x3dh.respond c (x3dh.mkHandshakeInit (Identity.messaging_public a) (x25519_public ek))
  = match r with Ok i => Ok (x3dh.shared_secret i) | Err e => Err e end ∧
  ∀ i, r = Ok i →
    x3dh.init i = x3dh.mkHandshakeInit (Identity.messaging_public a) (x25519_public ek).
Proof.
  unfold x3dh.initiate. destruct (fill_random platform 32) as [ek p']; cbn [fst].
  unfold x3dh.respond, Identity.dh_identity, Identity.dh_signed_pre_key,
    Identity.messaging_public, Identity.signed_pre_key_public; simpl.
  rewrite (x25519_comm (Identity.signed_pre_key c)), !(x25519_comm _ ek),
    (x25519_comm (Identity.messaging a)).
  repeat match goal with
  | |- context [x3dh.contributory ?d] =>
      destruct (contributory_cases d) as [[-> _]|[-> _]]; simpl
  end; split; by try intros ? [= <-].
Qed.

(** the initiator fails closed: it answers with a secret exactly when
    none of the three Diffie-Hellman outputs is all zero, the secret is the
    KDF of the three outputs in order, and otherwise it answers [WeakKey]
    without deriving anything. *)
Theorem initiate_fails_closed (platform : P) (a : Identity) (ik spk : MessagingPublicKey) :
  let dhs := initiator_dhs platform a ik spk in
  let r := (x3dh.initiate platform a ik spk).1 in
  match r with
  | Ok i => Forall (λ d, ¬ degenerate d) dhs ∧
            x3dh.shared_secret i = hkdf_sha256 (Some (zeros 32))
              (concat (map arr_bytes dhs)) x3dh.KDF_INFO 32
  | Err e => e = WeakKey ∧ Exists degenerate dhs
  end.
Proof.
  unfold x3dh.initiate, initiator_dhs, degenerate.
  destruct (fill_random platform 32) as [ek p']; cbn [fst].
  repeat match goal with
  | |- context [x3dh.contributory ?d] =>
      destruct (contributory_cases d) as [[-> ?]|[-> ?]]; cbn [bind_result]
  end; split; rewrite ?Forall_cons, ?Exists_cons; auto.
  cbn [x3dh.shared_secret map concat]. unfold x3dh.kdf. by rewrite app_nil_r.
Qed.
End Agreement.

Lemma x3dh_agreement_witness :
  ∃ i, (x3dh.initiate 5%N (toy_identity 7) (Identity.messaging_public (toy_identity 9))
          (Identity.signed_pre_key_public (toy_identity 9))).1 = Ok i ∧
       x3dh.respond (toy_identity 9) (x3dh.init i) = Ok (x3dh.shared_secret i).
Proof.
  destruct (x3dh_agreement ToyCryptoLaws 5%N (toy_identity 7) (toy_identity 9)) as [H1 H2].
  destruct (x3dh.initiate 5%N (toy_identity 7) _ _) as [[i|e] p] eqn:E; cbn [fst] in *.
  - exists i. split; [done|]. by rewrite (H2 i eq_refl).
  - vm_compute in E. discriminate E.
Defined.
