(* ===== verification/Records.v ===== *)
(** * Records: [mycellium-core/src/record.rs]

    Self-certifying identity records: a wallet signs who it is, which device
    may receive its messages and that device's keys; the device alone signs its
    Reticulum destination, so it can be refreshed without the wallet. *)

From S2P Require Import Prelude Crypto Wire Identity UserId Instances.

Definition MAX_NAME_LEN : nat := 128.

Record SignedPreKey : Type := mkSignedPreKey {
  spk_public : MessagingPublicKey;
  spk_signature : Signature
}.

Record DeviceRecord : Type := mkDeviceRecord {
  device_key : DevicePublicKey;
  id_key : MessagingPublicKey;
  signed_pre_key : SignedPreKey;
  dr_seq : u64
}.

Record SignedDeviceRecord : Type := mkSignedDeviceRecord {
  sd_record : DeviceRecord;
  sd_signature : Signature
}.

Record ReachabilityRecord : Type := mkReachabilityRecord {
  rr_device_key : DevicePublicKey;
  rr_reticulum : ReticulumPublicIdentity;
  rr_seq : u64
}.

Record SignedReachabilityRecord : Type := mkSignedReachabilityRecord {
  sr_record : ReachabilityRecord;
  sr_signature : Signature
}.

Record Device : Type := mkDevice {
  signed : SignedDeviceRecord;
  reachability : SignedReachabilityRecord
}.

Record Record_ : Type := mkRecord {
  r_user_id : UserId;
  r_handle : Handle;
  r_name : str;
  r_wallet : WalletPublicKey;
  r_device : Device;
  r_seq : u64
}.

(** [IdentityClaim], the view of a record that the wallet signs. *)
Definition IdentityClaim : Type := UserId * Handle * str * WalletPublicKey * DevicePublicKey * u64.

Record SignedRecord : Type := mkSignedRecord {
  sg_record : Record_;
  sg_signature : Signature
}.

(** The derived [PartialEq]s. *)
#[global] Instance SignedPreKey_eq_dec : EqDecision SignedPreKey. Proof. solve_decision. Defined.
#[global] Instance DeviceRecord_eq_dec : EqDecision DeviceRecord. Proof. solve_decision. Defined.
#[global] Instance SignedDeviceRecord_eq_dec : EqDecision SignedDeviceRecord. Proof. solve_decision. Defined.
#[global] Instance ReachabilityRecord_eq_dec : EqDecision ReachabilityRecord. Proof. solve_decision. Defined.
#[global] Instance SignedReachabilityRecord_eq_dec : EqDecision SignedReachabilityRecord. Proof. solve_decision. Defined.
#[global] Instance Device_eq_dec : EqDecision Device. Proof. solve_decision. Defined.
#[global] Instance Record_eq_dec : EqDecision Record_. Proof. solve_decision. Defined.
#[global] Instance SignedRecord_eq_dec : EqDecision SignedRecord. Proof. solve_decision. Defined.

(** ** Domains and signed bytes *)
Definition RECORD_DOMAIN : bytes := b#"mycellium-identity-record-v5" ++ [zero_byte].
Definition DEVICE_DOMAIN : bytes := b#"mycellium-device-record-v1" ++ [zero_byte].
Definition REACHABILITY_DOMAIN : bytes := b#"mycellium-reachability-record-v2" ++ [zero_byte].
Definition PREKEY_DOMAIN : bytes := b#"mycellium-prekey-v1" ++ [zero_byte].

Definition prekey_signing_bytes (public : MessagingPublicKey) : bytes := PREKEY_DOMAIN ++ public.

Section Signing.
Context `{!Postcard IdentityClaim, !Postcard (WalletPublicKey * DeviceRecord),
          !Postcard ReachabilityRecord}.

Definition device_signing_bytes (wallet : WalletPublicKey) (record : DeviceRecord) : bytes :=
  let canon := wire.canonical (wallet, record) in
  DEVICE_DOMAIN ++ canon.

Definition reachability_signing_bytes (record : ReachabilityRecord) : bytes :=
  let canon := wire.canonical record in
  REACHABILITY_DOMAIN ++ canon.

Definition identity_claim (self : Record_) : IdentityClaim :=
  (r_user_id self, r_handle self, r_name self, r_wallet self,
   device_key (sd_record (signed (r_device self))), r_seq self).

Definition signing_bytes (self : Record_) : bytes :=
  let canon := wire.canonical (identity_claim self) in
  RECORD_DOMAIN ++ canon.
End Signing.

(** [Record::primary], [Record::device] *)
Definition primary (self : Record_) : Device := r_device self.
Definition record_device (self : Record_) (key : DevicePublicKey) : option Device :=
  if bool_decide (device_key (sd_record (signed (r_device self))) = key)
  then Some (r_device self) else None.

(** [Device::reticulum], [Device::freshness], [SignedRecord::freshness] *)
Definition reticulum (self : Device) : ReticulumPublicIdentity :=
  rr_reticulum (sr_record (reachability self)).
Definition device_freshness (self : Device) : u64 :=
  umax (dr_seq (sd_record (signed self))) (rr_seq (sr_record (reachability self))).
Definition freshness (self : SignedRecord) : u64 * u64 * u64 :=
  let stable := dr_seq (sd_record (signed (r_device (sg_record self)))) in
  let reach := rr_seq (sr_record (reachability (r_device (sg_record self)))) in
  (r_seq (sg_record self), stable, reach).

(** The derived lexicographic order on freshness triples. *)
Definition freshness_ltb (a c : u64 * u64 * u64) : bool :=
  let '(a1, a2, a3) := a in
  let '(c1, c2, c3) := c in
  if ultb a1 c1 then true else if ultb c1 a1 then false
  else if ultb a2 c2 then true else if ultb c2 a2 then false
  else ultb a3 c3.

Section Records.
Context `{!Crypto, !Postcard IdentityClaim, !Postcard (WalletPublicKey * DeviceRecord),
          !Postcard ReachabilityRecord}.

(** [SignedPreKey::create] *)
Definition SignedPreKey_create (public : MessagingPublicKey) (owner : Identity) : SignedPreKey :=
  mkSignedPreKey public (Identity.sign owner (prekey_signing_bytes public)).

(** [Device::create] *)
Definition Device_create (owner : Identity) (seq : u64) : Device :=
  let record := mkDeviceRecord (Identity.device_public owner) (Identity.messaging_public owner)
    (SignedPreKey_create (Identity.signed_pre_key_public owner) owner) seq in
  let signed := mkSignedDeviceRecord record
    (Identity.sign owner (device_signing_bytes (Identity.wallet_public owner) record)) in
  let reachability_record := mkReachabilityRecord (Identity.device_public owner)
    (Identity.reticulum_public owner) seq in
  let reachability := mkSignedReachabilityRecord reachability_record
    (Identity.sign_device owner (reachability_signing_bytes reachability_record)) in
  mkDevice signed reachability.

(** [Device::refresh_reticulum] *)
Definition refresh_reticulum (self : Device) (owner : Identity) (seq : u64)
    : result core_error Device :=
  if negb (bool_decide (Identity.device_public owner = device_key (sd_record (signed self))))
     || uleb seq (rr_seq (sr_record (reachability self)))
  then Err Malformed
  else
    let record := mkReachabilityRecord (device_key (sd_record (signed self)))
      (Identity.reticulum_public owner) seq in
    Ok (mkDevice (signed self)
          (mkSignedReachabilityRecord record
             (Identity.sign_device owner (reachability_signing_bytes record)))).

(** [SignedRecord::sign] *)
Definition SignedRecord_sign (record : Record_) (owner : Identity) : SignedRecord :=
  mkSignedRecord record (Identity.sign owner (signing_bytes record)).

(** [SignedRecord::verify] *)
Definition verify (self : SignedRecord) : result core_error unit :=
  let wallet := r_wallet (sg_record self) in
  let? _ := wallet_verify wallet (signing_bytes (sg_record self)) (sg_signature self) in
  let r := sg_record self in
  if negb (bool_decide (r_user_id r = user_id wallet)) then Err Malformed
  else if (MAX_NAME_LEN <? length (r_name r))%nat then Err Malformed
  else
    let device := r_device r in
    let dr := sd_record (signed device) in
    if negb (bool_decide (rr_device_key (sr_record (reachability device)) = device_key dr))
       || negb (reticulum_verify (reticulum device))
    then Err Malformed
    else
      let? _ := wallet_verify wallet (device_signing_bytes wallet dr)
                  (sd_signature (signed device)) in
      let? _ := wallet_verify wallet (prekey_signing_bytes (spk_public (signed_pre_key dr)))
                  (spk_signature (signed_pre_key dr)) in
      let? _ := device_verify (device_key dr)
                  (reachability_signing_bytes (sr_record (reachability device)))
                  (sr_signature (reachability device)) in
      Ok tt.
End Records.

(** ** Lemmas *)

Lemma bind_unit_Ok {E} (r : result E unit) (k : result E unit) :
  bind_result r (λ _, k) = Ok tt ↔ r = Ok tt ∧ k = Ok tt.
Proof. destruct r as [[]|e]; simpl; intuition congruence. Qed.

Lemma guard_Ok {E} (c : bool) (e : E) (k : result E unit) :
  (if c then Err e else k) = Ok tt ↔ c = false ∧ k = Ok tt.
Proof. destruct c; intuition congruence. Qed.

Section Verify.
Context `{!Crypto, !Postcard IdentityClaim, !Postcard (WalletPublicKey * DeviceRecord),
          !Postcard ReachabilityRecord}.

(** The specification of a self-certifying record: every binding and every
    signature the protocol relies on. *)
Record certified (s : SignedRecord) : Prop := {
  cert_record : wallet_verify (r_wallet (sg_record s)) (signing_bytes (sg_record s))
                  (sg_signature s) = Ok tt;
  cert_user_id : r_user_id (sg_record s) = user_id (r_wallet (sg_record s));
  cert_name : (length (r_name (sg_record s)) ≤ 128)%nat;
  cert_device_key :
    rr_device_key (sr_record (reachability (r_device (sg_record s)))) =
    device_key (sd_record (signed (r_device (sg_record s))));
  cert_address : address (reticulum (r_device (sg_record s))) =
    derived_address (reticulum (r_device (sg_record s)));
  cert_device : wallet_verify (r_wallet (sg_record s))
    (device_signing_bytes (r_wallet (sg_record s)) (sd_record (signed (r_device (sg_record s)))))
    (sd_signature (signed (r_device (sg_record s)))) = Ok tt;
  cert_pre_key : wallet_verify (r_wallet (sg_record s))
    (prekey_signing_bytes
       (spk_public (signed_pre_key (sd_record (signed (r_device (sg_record s)))))))
    (spk_signature (signed_pre_key (sd_record (signed (r_device (sg_record s)))))) = Ok tt;
  cert_reachability :
    device_verify (device_key (sd_record (signed (r_device (sg_record s)))))
      (reachability_signing_bytes (sr_record (reachability (r_device (sg_record s)))))
      (sr_signature (reachability (r_device (sg_record s)))) = Ok tt
}.

Lemma verify_spec (s : SignedRecord) : verify s = Ok tt ↔ certified s.
Proof.
  unfold verify, MAX_NAME_LEN. cbv zeta. rewrite !bind_unit_Ok, !guard_Ok, !bind_unit_Ok.
  unfold reticulum_verify.
  rewrite orb_false_iff, !negb_false_iff, !bool_decide_eq_true, Nat.ltb_ge.
  split.
  - intros (? & ? & ? & [? ?] & ? & ? & ? & _). by split.
  - by intros [].
Qed.

(** [verify] accepts exactly the self-certifying records: the user id is
    the digest of the wallet, the name fits, the reachability claim names the
    certified device and a consistent Reticulum address, and all four
    signatures verify, three by the wallet and one by the device. *)
Theorem verify_certified (s : SignedRecord) : verify s = Ok tt ↔ certified s.
Proof. apply verify_spec. Qed.

Lemma reticulum_public_verify (owner : Identity) :
  reticulum_verify (Identity.reticulum_public owner) = true.
Proof. by apply bool_decide_eq_true. Qed.

Lemma freshness_ltb_reach s1 s2 :
  r_seq (sg_record s1) = r_seq (sg_record s2) →
  signed (r_device (sg_record s1)) = signed (r_device (sg_record s2)) →
  freshness_ltb (freshness s1) (freshness s2) =
  ultb (rr_seq (sr_record (reachability (r_device (sg_record s1)))))
       (rr_seq (sr_record (reachability (r_device (sg_record s2))))).
Proof.
  intros H1 H2. unfold freshness_ltb, freshness. rewrite H1, H2. unfold ultb.
  by rewrite !N.ltb_irrefl.
Qed.

Definition with_device (s : SignedRecord) (d : Device) : SignedRecord :=
  let r := sg_record s in
  mkSignedRecord (mkRecord (r_user_id r) (r_handle r) (r_name r) (r_wallet r) d (r_seq r))
                 (sg_signature s).

Context (laws : CryptoLaws).

(** what a wallet owner signs verifies: the record made of [Device::create]
    under the owner's own user id and wallet, with a name that fits, passes
    [verify] for every handle and sequence numbers. *)
Theorem sign_verify (owner : Identity) (h : Handle) (name : str) (dseq seq : u64)
    (Hwf : Identity.wf owner) (Hname : (length name ≤ 128)%nat) :
  let wallet := Identity.wallet_public owner in
  verify (SignedRecord_sign
    (mkRecord (user_id wallet) h name wallet (Device_create owner dseq) seq) owner) = Ok tt.
Proof.
  apply verify_spec. unfold SignedRecord_sign, Device_create, SignedPreKey_create.
  split; cbn -[wallet_verify device_verify]; auto with crypto.
Qed.

(** a device refreshes its own transport destination without the wallet:
    the wallet-signed part is untouched, the record still verifies under the
    old wallet signature, and it is strictly fresher. *)
Theorem refresh_keeps_authority (s : SignedRecord) (owner : Identity) (seq : u64) (d : Device)
    (Hv : verify s = Ok tt)
    (Hr : refresh_reticulum (r_device (sg_record s)) owner seq = Ok d) :
  verify (with_device s d) = Ok tt ∧
  signed d = signed (r_device (sg_record s)) ∧
  reticulum d = Identity.reticulum_public owner ∧
  freshness_ltb (freshness s) (freshness (with_device s d)) = true.
Proof.
  unfold refresh_reticulum in Hr. destruct (_ || _) eqn:Hg; [done|].
  apply orb_false_iff in Hg as [Hk%negb_false_iff Hs].
  apply bool_decide_eq_true in Hk. injection Hr as <-.
  split_and!; [|done..|].
  - apply verify_spec in Hv as []. apply verify_spec.
    split; try done; cbn -[device_verify]; rewrite <-Hk; auto with crypto.
  - rewrite freshness_ltb_reach by done. unfold uleb in Hs. simpl.
    by apply N.ltb_lt, N.leb_gt.
Qed.
End Verify.

(** the four kinds of signed statements never collide: a signature on one
    kind is never a signature on another, and within one kind equal signed
    bytes mean equal claims, so a signature binds the whole claim. *)
Theorem signing_domains_separate
    `{!Postcard IdentityClaim, !Postcard (WalletPublicKey * DeviceRecord),
      !Postcard ReachabilityRecord}
    (r r' : Record_) (w w' : WalletPublicKey) (d d' : DeviceRecord)
    (a a' : ReachabilityRecord) (k k' : MessagingPublicKey) :
  NoDup [take 16 (signing_bytes r); take 16 (device_signing_bytes w d);
         take 16 (reachability_signing_bytes a); take 16 (prekey_signing_bytes k)] ∧
  (signing_bytes r = signing_bytes r' ↔ identity_claim r = identity_claim r') ∧
  (device_signing_bytes w d = device_signing_bytes w' d' ↔ (w, d) = (w', d')) ∧
  (reachability_signing_bytes a = reachability_signing_bytes a' ↔ a = a') ∧
  (prekey_signing_bytes k = prekey_signing_bytes k' ↔ k = k').
Proof.
  split_and!; [|split..].
  - refine (bool_decide_unpack _ _). vm_compute. exact I.
  - by intros H%app_inv_head%wire.canonical_inj.
  - intros H. unfold signing_bytes. by rewrite H.
  - by intros H%app_inv_head%wire.canonical_inj.
  - by intros [= -> ->].
  - by intros H%app_inv_head%wire.canonical_inj.
  - by intros ->.
  - by intros H%app_inv_head%arr_eq.
  - by intros ->.
Qed.

(** ** Witnesses *)

#[export] Instance ReticulumPublicIdentity_codec : Codec ReticulumPublicIdentity.
Proof.
  refine (codec_iso (λ r, (encryption_key r, signing_key r, address r))
    (λ '(e, s, a), Some (mkReticulum e s a)) _). by intros [].
Defined.
#[export] Instance SignedPreKey_codec : Codec SignedPreKey.
Proof.
  refine (codec_iso (λ k, (spk_public k, spk_signature k)) (λ '(p, s), Some (mkSignedPreKey p s)) _).
  by intros [].
Defined.
#[export] Instance DeviceRecord_codec : Codec DeviceRecord.
Proof.
  refine (codec_iso (λ d, (device_key d, id_key d, signed_pre_key d, dr_seq d))
    (λ '(k, i, s, q), Some (mkDeviceRecord k i s q)) _). by intros [].
Defined.
#[export] Instance ReachabilityRecord_codec : Codec ReachabilityRecord.
Proof.
  refine (codec_iso (λ r, (rr_device_key r, rr_reticulum r, rr_seq r))
    (λ '(k, a, q), Some (mkReachabilityRecord k a q)) _). by intros [].
Defined.

Definition sample_record : SignedRecord :=
  let owner := toy_identity 7 in
  SignedRecord_sign
    (mkRecord (user_id (Identity.wallet_public owner)) (toy_handle "alice") b#"Alice"
       (Identity.wallet_public owner) (Device_create owner (U64 4)) (U64 9)) owner.

Lemma sign_verify_witness : verify sample_record = Ok tt.
Proof.
  apply (sign_verify ToyCryptoLaws (toy_identity 7) (toy_handle "alice") b#"Alice" (U64 4) (U64 9)).
  - exact toy_identity_wf.
  - simpl. lia.
Defined.

Lemma refresh_keeps_authority_witness :
  ∃ d, refresh_reticulum (r_device (sg_record sample_record)) (toy_identity 7) (U64 5) = Ok d ∧
       verify (with_device sample_record d) = Ok tt.
Proof.
  destruct (refresh_reticulum (r_device (sg_record sample_record)) (toy_identity 7) (U64 5))
    as [d|e] eqn:E; [|vm_compute in E; discriminate E].
  exists d. split; [done|].
  apply (refresh_keeps_authority ToyCryptoLaws sample_record (toy_identity 7) (U64 5) d);
    [vm_compute; reflexivity|exact E].
Defined.
