(* ===== verification/Group.v ===== *)
(** * Group: sender keys, [mycellium-core/src/group.rs]

    Each member ratchets a symmetric chain once per message and signs with its
    own key; a receiver follows the chain of each sender, banks the keys of the
    messages it skipped, and consumes every key once.  The specification is a
    window over chain positions, without any key material: [message_key]
    refines it, and delivery in any order follows from it. *)

From S2P Require Import Prelude Crypto Wire Identity Instances.

Definition MAX_SKIP : nat := 1024.

Record GroupMessage : Type := mkGroupMessage {
  gm_sender : bytes;
  gm_iteration : u32;
  gm_ciphertext : bytes;
  gm_signature : bytes
}.

Record SenderKeyDistribution : Type := mkDistribution {
  skd_iteration : u32;
  skd_chain_key : arr 32;
  skd_signing_public : arr 32
}.

(** [SenderKey]: [signing] is the seed of the Ed25519 signing key. *)
Record SenderKey : Type := mkSenderKey {
  sk_chain_key : arr 32;
  sk_iteration : u32;
  sk_signing : arr 32
}.

Record ReceiverKey : Type := mkReceiverKey {
  rk_chain_key : arr 32;
  rk_iteration : u32;
  rk_signing_public : arr 32;
  rk_skipped : list (u32 * arr 32)
}.

(** [members] is a [BTreeMap]; the order of its iteration is that of [bytes_leb]. *)
Record Group : Type := mkGroup {
  own_id : bytes;
  own : SenderKey;
  members : gmap bytes ReceiverKey
}.

Record MemberState : Type := mkMemberState {
  ms_id : bytes;
  ms_chain : arr 32;
  ms_iteration : u32;
  ms_signing_public : arr 32;
  ms_skipped : list (u32 * arr 32)
}.

Record GroupState : Type := mkGroupState {
  gs_own_id : bytes;
  gs_own_chain : arr 32;
  gs_own_iteration : u32;
  gs_own_signing : arr 32;
  gs_members : list MemberState
}.

(** The bytes a group message's signature covers. *)
Definition signed_bytes (iteration : u32) (ciphertext : bytes) : bytes :=
  be32 iteration ++ ciphertext.

(** [while self.skipped.len() >= MAX_SKIP { self.skipped.remove(0) }] *)
Fixpoint evict (skipped : list (u32 * arr 32)) : list (u32 * arr 32) :=
  match skipped with
  | [] => []
  | _ :: rest => if (MAX_SKIP <=? length skipped)%nat then evict rest else skipped
  end.

(** [skipped.iter().position(..)] and [skipped.remove(pos).1] *)
Fixpoint take_skipped (target : u32) (skipped : list (u32 * arr 32))
    : option (arr 32 * list (u32 * arr 32)) :=
  match skipped with
  | [] => None
  | (i, mk) :: rest =>
      if ueqb i target then Some (mk, rest)
      else match take_skipped target rest with
           | Some (mk', rest') => Some (mk', (i, mk) :: rest')
           | None => None
           end
  end.

Module ReceiverKey.
Section ReceiverKey.
Context `{!Crypto}.

Definition from_distribution (dist : SenderKeyDistribution) : result core_error ReceiverKey :=
  if ed_point_valid (skd_signing_public dist)
  then Ok (mkReceiverKey (skd_chain_key dist) (skd_iteration dist) (skd_signing_public dist) [])
  else Err Malformed.

Definition bank_skipped (self : ReceiverKey) (iteration : u32) (mk : arr 32) : ReceiverKey :=
  mkReceiverKey (rk_chain_key self) (rk_iteration self) (rk_signing_public self)
    (evict (rk_skipped self) ++ [(iteration, mk)]).

(** The body of [while self.iteration < target]; [+= 1] wraps at [2 ^ 32]. *)
Definition skip_one (self : ReceiverKey) : ReceiverKey :=
  let '(next, mk) := kdf_ck (rk_chain_key self) in
  let self := bank_skipped self (rk_iteration self) mk in
  mkReceiverKey next (wrapping_succ (rk_iteration self)) (rk_signing_public self)
    (rk_skipped self).

Fixpoint ratchet (fuel : nat) (target : u32) (self : ReceiverKey) : ReceiverKey :=
  match fuel with
  | O => self
  | S fuel' =>
      if ultb (rk_iteration self) target then ratchet fuel' target (skip_one self) else self
  end.

(** The gap check bounds the loop, so [MAX_SKIP + 1] rounds of fuel are
    enough ([ratchet_done]). *)
Definition message_key (self : ReceiverKey) (target : u32)
    : result core_error (arr 32) * ReceiverKey :=
  match take_skipped target (rk_skipped self) with
  | Some (mk, skipped) =>
      (Ok mk, mkReceiverKey (rk_chain_key self) (rk_iteration self)
                (rk_signing_public self) skipped)
  | None =>
      if ultb target (rk_iteration self) then (Err DecryptFailed, self)
      else if (N.of_nat MAX_SKIP <? u_val target - u_val (rk_iteration self))%N
      then (Err TooManySkipped, self)
      else
        let self := ratchet (S MAX_SKIP) target self in
        let '(next, mk) := kdf_ck (rk_chain_key self) in
        (Ok mk, mkReceiverKey next (wrapping_succ (rk_iteration self))
                  (rk_signing_public self) (rk_skipped self))
  end.

(** The key state is advanced on a copy and committed after the AEAD check. *)
Definition decrypt (self : ReceiverKey) (msg : GroupMessage) (ad : bytes)
    : result core_error bytes * ReceiverKey :=
  match arr_try (n := 64) (gm_signature msg) with
  | None => (Err BadSignature, self)
  | Some signature =>
      if negb (ed_verify_strict (rk_signing_public self)
                 (signed_bytes (gm_iteration msg) (gm_ciphertext msg)) signature)
      then (Err BadSignature, self)
      else
        match message_key self (gm_iteration msg) with
        | (Err e, _) => (Err e, self)
        | (Ok mk, next) =>
            match aead_decrypt mk (gm_ciphertext msg) ad with
            | Err e => (Err e, self)
            | Ok plaintext => (Ok plaintext, next)
            end
        end
  end.
End ReceiverKey.
End ReceiverKey.

Module SenderKey.
Section SenderKey.
Context `{!Crypto}.

Definition generate {P} `{!Platform P} (platform : P) : SenderKey * P :=
  let '(chain_key, platform) := fill_random platform 32 in
  let '(signing_seed, platform) := fill_random platform 32 in
  (mkSenderKey chain_key (U32 0) signing_seed, platform).

Definition distribution (self : SenderKey) : SenderKeyDistribution :=
  mkDistribution (sk_iteration self) (sk_chain_key self) (ed_public (sk_signing self)).

Definition encrypt (self : SenderKey) (sender plaintext ad : bytes) : GroupMessage * SenderKey :=
  let '(next, mk) := kdf_ck (sk_chain_key self) in
  let iteration := sk_iteration self in
  let self := mkSenderKey next (wrapping_succ (sk_iteration self)) (sk_signing self) in
  let ciphertext := aead_encrypt mk plaintext ad in
  let signature := ed_sign (sk_signing self) (signed_bytes iteration ciphertext) in
  (mkGroupMessage sender iteration ciphertext signature, self).
End SenderKey.
End SenderKey.

(** The order in which the [BTreeMap] is iterated. *)
Definition key_le (a c : bytes * ReceiverKey) : Prop := Is_true (bytes_leb a.1 c.1).
#[global] Instance key_le_dec : RelDecision key_le.
Proof. intros a c. unfold key_le. apply _. Defined.

Module Group.
Section Group.
Context `{!Crypto}.

Definition new {P} `{!Platform P} (platform : P) (own_id : bytes) : Group * P :=
  let '(own, platform) := SenderKey.generate platform in
  (mkGroup own_id own ∅, platform).

Definition distribution (self : Group) : SenderKeyDistribution :=
  SenderKey.distribution (own self).

Definition add_member (self : Group) (id : bytes) (dist : SenderKeyDistribution)
    : result core_error unit * Group :=
  match ReceiverKey.from_distribution dist with
  | Err e => (Err e, self)
  | Ok rk => (Ok tt, mkGroup (own_id self) (own self) (<[id := rk]> (members self)))
  end.

Definition rotate {P} `{!Platform P} (self : Group) (platform : P) : Group * P :=
  let '(own, platform) := SenderKey.generate platform in
  (mkGroup (own_id self) own (members self), platform).

Definition remove_member (self : Group) (id : bytes) : Group :=
  mkGroup (own_id self) (own self) (delete id (members self)).

Definition encrypt (self : Group) (plaintext ad : bytes) : GroupMessage * Group :=
  let '(msg, own) := SenderKey.encrypt (own self) (own_id self) plaintext ad in
  (msg, mkGroup (own_id self) own (members self)).

Definition decrypt (self : Group) (msg : GroupMessage) (ad : bytes)
    : result core_error bytes * Group :=
  match members self !! gm_sender msg with
  | None => (Err Malformed, self)
  | Some member =>
      let '(r, member) := ReceiverKey.decrypt member msg ad in
      (r, mkGroup (own_id self) (own self) (<[gm_sender msg := member]> (members self)))
  end.

Definition export_member (entry : bytes * ReceiverKey) : MemberState :=
  let '(id, rk) := entry in
  mkMemberState id (rk_chain_key rk) (rk_iteration rk) (rk_signing_public rk) (rk_skipped rk).

Definition export (self : Group) : GroupState :=
  mkGroupState (own_id self) (sk_chain_key (own self)) (sk_iteration (own self))
    (sk_signing (own self))
    (map export_member (merge_sort key_le (map_to_list (members self)))).

(** The [for m in state.members] loop of [import]. *)
Fixpoint import_members (ms : list MemberState) (acc : gmap bytes ReceiverKey)
    : result core_error (gmap bytes ReceiverKey) :=
  match ms with
  | [] => Ok acc
  | m :: ms' =>
      if ed_point_valid (ms_signing_public m)
      then import_members ms'
             (<[ms_id m := mkReceiverKey (ms_chain m) (ms_iteration m)
                             (ms_signing_public m) (ms_skipped m)]> acc)
      else Err Malformed
  end.

Definition import (state : GroupState) : result core_error Group :=
  let own := mkSenderKey (gs_own_chain state) (gs_own_iteration state) (gs_own_signing state) in
  let? members := import_members (gs_members state) ∅ in
  Ok (mkGroup (gs_own_id state) own members).
End Group.
End Group.
