(* ===== verification/GroupSpec.v ===== *)
(** * GroupSpec: what the sender-key ratchet promises

    [Window] is the contract of a receiver: which chain positions it would
    still open.  It knows no keys.  The theorems show that [ReceiverKey]
    implements it with exactly the sender's message keys, and what follows for
    a conversation. *)

From S2P Require Import Prelude Crypto Wire Identity Instances Group.

(** ** The specification *)
Record Window : Type := mkWindow { w_next : N; w_missing : list N }.

Fixpoint remove_first (t : N) (l : list N) : list N :=
  match l with
  | [] => []
  | x :: l' => if (x =? t)%N then l' else x :: remove_first t l'
  end.

Definition positions (from : N) (n : nat) : list N := map (λ i, from + N.of_nat i)%N (seq 0 n).

Definition window_accept (w : Window) (t : N) : result core_error Window :=
  if existsb (N.eqb t) (w_missing w) then Ok (mkWindow (w_next w) (remove_first t (w_missing w)))
  else if (t <? w_next w)%N then Err DecryptFailed
  else if (1024 <? t - w_next w)%N then Err TooManySkipped
  else Ok (mkWindow (t + 1)
             (keep 1024 (w_missing w ++ positions (w_next w) (N.to_nat (t - w_next w))))).

(** What makes sense of a window: distinct positions, all passed, at most 1024. *)
Record window_ok (w : Window) : Prop := {
  wo_nodup : NoDup (w_missing w);
  wo_passed : ∀ i, i ∈ w_missing w → (i < w_next w)%N;
  wo_bound : (length (w_missing w) ≤ 1024)%nat
}.

(** ** The sender's chain *)
Section Chain.
Context {crypto : Crypto}.

Definition chain (ck : arr 32) (n : nat) : arr 32 := Nat.iter n (λ ck, (kdf_ck ck).1) ck.

(** The message key of position [i] of the chain a distribution starts. *)
Definition mkey (dist : SenderKeyDistribution) (i : N) : arr 32 :=
  (kdf_ck (chain (skd_chain_key dist) (N.to_nat (i - u_val (skd_iteration dist))))).2.

Record refines (dist : SenderKeyDistribution) (rk : ReceiverKey) (w : Window) : Prop := {
  ref_pub : rk_signing_public rk = skd_signing_public dist;
  ref_base : (u_val (skd_iteration dist) ≤ u_val (rk_iteration rk))%N;
  ref_next : w_next w = u_val (rk_iteration rk);
  ref_chain : rk_chain_key rk = chain (skd_chain_key dist)
                (N.to_nat (u_val (rk_iteration rk) - u_val (skd_iteration dist)));
  ref_missing : w_missing w = map (λ e, u_val e.1) (rk_skipped rk);
  ref_keys : ∀ i mk, (i, mk) ∈ rk_skipped rk → mk = mkey dist (u_val i)
}.

(** [skip_one] on windows. *)
Definition window_skip (w : Window) : Window :=
  mkWindow (w_next w + 1) (keep 1024 (w_missing w ++ [w_next w])).

Lemma evict_keep (l : list (u32 * arr 32)) : evict l = keep 1023 l.
Proof.
  induction l as [|e l IH]; [done|]. unfold keep in *. cbn [evict].
  destruct (Nat.leb_spec MAX_SKIP (length (e :: l))) as [H|H]; unfold MAX_SKIP in H;
    simpl length in *.
  - rewrite IH. by replace (S (length l) - 1023)%nat with (S (length l - 1023)) by lia.
  - by replace (S (length l) - 1023)%nat with 0%nat by lia.
Qed.

Lemma keep_snoc {A} k (l : list A) x : keep (S k) (l ++ [x]) = keep k l ++ [x].
Proof.
  unfold keep. rewrite length_app; simpl.
  replace (length l + 1 - S k)%nat with (length l - k)%nat by lia.
  by rewrite skipn_app_drop_le by lia.
Qed.

Lemma chain_succ ck n : chain ck (S n) = (kdf_ck (chain ck n)).1.
Proof. done. Qed.

Lemma skip_one_refines dist rk w :
  refines dist rk w → (u_val (rk_iteration rk) + 1 < 2 ^ 32)%N →
  refines dist (ReceiverKey.skip_one rk) (window_skip w) ∧
  u_val (rk_iteration (ReceiverKey.skip_one rk)) = (u_val (rk_iteration rk) + 1)%N.
Proof.
  intros [Hp Hb Hn Hc Hm Hk] Hlt.
  assert (u_val (rk_iteration (ReceiverKey.skip_one rk)) = u_val (rk_iteration rk) + 1)%N as Hs
    by exact (u_val_uwrap_small 32 _ Hlt).
  split; [|done]. split; rewrite ?Hs; simpl; try done; try lia.
  - rewrite Hc. replace (N.to_nat (u_val (rk_iteration rk) + 1 - _)) with
      (S (N.to_nat (u_val (rk_iteration rk) - u_val (skd_iteration dist)))) by lia.
    by rewrite chain_succ.
  - rewrite keep_snoc, Hm, Hn, evict_keep, map_app, keep_map. done.
  - intros i mk. rewrite evict_keep, elem_of_app, list_elem_of_singleton.
    intros [H%elem_of_keep|[= -> ->]]; [by eapply Hk|].
    unfold mkey. by rewrite <-Hc.
Qed.

Lemma ratchet_refines fuel dist rk w target :
  refines dist rk w → (u_val (rk_iteration rk) ≤ u_val target)%N →
  (N.to_nat (u_val target - u_val (rk_iteration rk)) ≤ fuel)%nat →
  let n := N.to_nat (u_val target - u_val (rk_iteration rk)) in
  refines dist (ReceiverKey.ratchet fuel target rk) (Nat.iter n window_skip w) ∧
  rk_iteration (ReceiverKey.ratchet fuel target rk) = target.
Proof.
  revert rk w. induction fuel as [|fuel IH]; intros rk w Hr Hle Hf; cbn [ReceiverKey.ratchet].
  { replace (N.to_nat _) with 0%nat by lia. split; [done|]. apply uint_eq. lia. }
  unfold ultb. destruct (N.ltb_spec (u_val (rk_iteration rk)) (u_val target)) as [Hlt|Hge].
  - pose proof (u_val_lt target).
    destruct (skip_one_refines dist rk w Hr) as [Hr' Hs]; [lia|].
    destruct (IH _ _ Hr') as [H1 H2]; rewrite ?Hs in *; [lia..|].
    split; [|done].
    replace (N.to_nat (u_val target - u_val (rk_iteration rk))) with
      (S (N.to_nat (u_val target - (u_val (rk_iteration rk) + 1)))) by lia.
    by rewrite Nat.iter_succ_r.
  - replace (N.to_nat _) with 0%nat by lia. split; [done|]. apply uint_eq. lia.
Qed.

Lemma positions_S from n : positions from (S n) = from :: positions (from + 1) n.
Proof.
  unfold positions. cbn [seq map]. f_equal; [lia|].
  rewrite <-seq_shift, map_map. apply map_ext. intros. lia.
Qed.

Lemma iter_window_skip n w :
  (length (w_missing w) ≤ 1024)%nat →
  Nat.iter n window_skip w =
  mkWindow (w_next w + N.of_nat n) (keep 1024 (w_missing w ++ positions (w_next w) n)).
Proof.
  revert w. induction n as [|n IH]; intros [next missing] Hl; simpl w_next in *; simpl w_missing in *.
  { simpl. rewrite N.add_0_r. unfold positions; simpl.
    by rewrite app_nil_r, keep_all. }
  rewrite Nat.iter_succ_r, IH; unfold window_skip; simpl w_next; simpl w_missing.
  - rewrite keep_app_keep, <-(assoc_L (++)), positions_S. f_equal. lia.
  - rewrite length_keep. lia.
Qed.

Lemma take_skipped_refines target (l : list (u32 * arr 32)) :
  match take_skipped target l with
  | Some (mk, l') => existsb (N.eqb (u_val target)) (map (λ e, u_val e.1) l) = true ∧
      (target, mk) ∈ l ∧
      map (λ e, u_val e.1) l' = remove_first (u_val target) (map (λ e, u_val e.1) l) ∧
      (∀ e, e ∈ l' → e ∈ l)
  | None => existsb (N.eqb (u_val target)) (map (λ e, u_val e.1) l) = false
  end.
Proof.
  induction l as [|[i mk] l IH]; simpl; [done|]. unfold ueqb.
  rewrite (N.eqb_sym (u_val target)).
  destruct (N.eqb_spec (u_val i) (u_val target)) as [->%uint_eq|Hne]; simpl.
  - split_and!; [done|by left|done|]. intros. by right.
  - destruct (take_skipped target l) as [[mk' l']|]; [|done].
    destruct IH as (H1 & H2 & H3 & H4). split_and!; [done|by right|simpl; by rewrite H3|].
    intros e [->|He]%elem_of_cons; [by left|right; by apply H4].
Qed.

(** The position after the last one of the chain would be 2 ^ 32, which does
    not fit; the source's counter starts over there. *)
Definition not_last (t : u32) : Prop := (u_val t + 1 < 2 ^ 32)%N.

Lemma message_key_window dist rk w (t : u32)
    (Hr : refines dist rk w) (Hw : window_ok w) (Ht : not_last t) :
  match ReceiverKey.message_key rk t, window_accept w (u_val t) with
  | (Ok mk, rk'), Ok w' => mk = mkey dist (u_val t) ∧ refines dist rk' w'
  | (Err e, rk'), Err e' => e = e' ∧ rk' = rk
  | _, _ => False
  end.
Proof.
  pose proof Hr as [Hp Hb Hn Hc Hm Hk].
  unfold ReceiverKey.message_key, window_accept. rewrite Hm.
  pose proof (take_skipped_refines t (rk_skipped rk)) as Hts.
  destruct (take_skipped t (rk_skipped rk)) as [[mk l']|].
  { destruct Hts as (-> & Hin & Hl & Hsub). split; [by eapply Hk|].
    split; simpl; try done. intros i mk' Hi. by eapply Hk, Hsub. }
  rewrite Hts. unfold ultb. rewrite <-Hm, Hn.
  destruct (N.ltb_spec (u_val t) (u_val (rk_iteration rk))) as [|Hge]; [done|].
  change (N.of_nat MAX_SKIP) with 1024%N.
  destruct (N.ltb_spec 1024 (u_val t - u_val (rk_iteration rk))) as [|Hgap]; [done|].
  destruct (ratchet_refines (S MAX_SKIP) dist rk w t Hr) as [Hr' Hi]; [lia|unfold MAX_SKIP; lia|].
  rewrite iter_window_skip in Hr' by apply Hw. rewrite Hn in Hr'.
  destruct Hr' as [Hp' Hb' Hn' Hc' Hm' Hk']. simpl w_next in *. simpl w_missing in *.
  set (rk' := ReceiverKey.ratchet _ _ _) in *. clearbody rk'. simpl.
  rewrite Hc', Hi. split; [done|].
  assert (u_val (wrapping_succ t) = u_val t + 1)%N as Hs by exact (u_val_uwrap_small 32 _ Ht).
  rewrite Hi in *. split; cbn [rk_signing_public rk_iteration rk_chain_key rk_skipped w_next w_missing];
    rewrite ?Hs; try done; try lia.
  replace (N.to_nat (u_val t + 1 - u_val (skd_iteration dist))) with
    (S (N.to_nat (u_val t - u_val (skd_iteration dist)))) by lia. by rewrite chain_succ.
Qed.

(** C6: the ratchet implements the window: [message_key] accepts and refuses
    exactly the positions the window does, with the window's error, and when
    it accepts position [t] it answers the sender's key of position [t] and
    steps to the window's next state. *)
Theorem message_key_refines dist rk w (t : u32)
    (Hr : refines dist rk w) (Hw : window_ok w) (Ht : not_last t) :
  match ReceiverKey.message_key rk t, window_accept w (u_val t) with
  | (Ok mk, rk'), Ok w' => mk = mkey dist (u_val t) ∧ refines dist rk' w'
  | (Err e, rk'), Err e' => e = e' ∧ rk' = rk
  | _, _ => False
  end.
Proof. by apply message_key_window. Qed.
End Chain.

(** ** Windows *)

Lemma elem_of_positions i from n :
  i ∈ positions from n ↔ (from ≤ i < from + N.of_nat n)%N.
Proof.
  unfold positions. rewrite list_elem_of_In, in_map_iff. split.
  - intros (j & <- & Hj%in_seq). lia.
  - intros H. exists (N.to_nat (i - from)). split; [lia|]. apply in_seq. lia.
Qed.

Lemma NoDup_positions from n : NoDup (positions from n).
Proof.
  unfold positions. apply NoDup_ListNoDup, NoDup_map_NoDup_ForallPairs, seq_NoDup.
  intros i j _ _ H. lia.
Qed.

Lemma length_positions from n : length (positions from n) = n.
Proof. unfold positions. by rewrite length_map, length_seq. Qed.

Lemma elem_of_remove_first t i l :
  NoDup l → i ∈ remove_first t l ↔ i ∈ l ∧ i ≠ t.
Proof.
  induction l as [|x l IH]; intros Hnd; simpl.
  { split; [by intros ?%elem_of_nil|by intros [? _]]. }
  apply list.NoDup_cons in Hnd as [Hx Hnd]. destruct (N.eqb_spec x t) as [->|Hne].
  - rewrite elem_of_cons. split; [|tauto]. intros Hi. split; [by right|by intros ->].
  - rewrite !elem_of_cons, IH by done. split; [|tauto].
    intros [->|[? ?]]; auto.
Qed.

Lemma NoDup_remove_first t l : NoDup l → NoDup (remove_first t l).
Proof.
  induction l as [|x l IH]; intros Hnd; simpl; [done|].
  pose proof Hnd as [Hx Hnd']%list.NoDup_cons. destruct (x =? t)%N; [done|].
  apply list.NoDup_cons. split; [|by apply IH]. rewrite elem_of_remove_first by done. tauto.
Qed.

Lemma length_remove_first t l : (length (remove_first t l) ≤ length l)%nat.
Proof. induction l as [|x l IH]; simpl; [done|]. destruct (x =? t)%N; simpl; lia. Qed.

Lemma NoDup_keep {A} k (l : list A) : NoDup l → NoDup (keep k l).
Proof.
  intros H. unfold keep. rewrite <-(take_drop (length l - k) l) in H.
  by apply list.NoDup_app in H as (_ & _ & H).
Qed.

Lemma missing_app_positions w n :
  window_ok w → NoDup (w_missing w ++ positions (w_next w) n).
Proof.
  intros [Hnd Hlt _]. apply list.NoDup_app. split_and!; [done| |apply NoDup_positions].
  intros i Hi%Hlt Hp%elem_of_positions. lia.
Qed.

Lemma existsb_eqb t l : existsb (N.eqb t) l = true ↔ t ∈ l.
Proof.
  rewrite existsb_elem. split; [intros (x & Hx & ->%N.eqb_eq); done|].
  intros H. exists t. by rewrite N.eqb_refl.
Qed.

Lemma existsb_eqb_false t l : t ∉ l → existsb (N.eqb t) l = false.
Proof. intros H. apply not_true_iff_false. by rewrite existsb_eqb. Qed.

Lemma window_accept_ok w w' t : window_ok w → window_accept w t = Ok w' → window_ok w'.
Proof.
  intros Hw Ha. pose proof Hw as [Hnd Hlt Hlen]. unfold window_accept in Ha.
  destruct (existsb _ _) eqn:He; [|destruct (N.ltb_spec t (w_next w)) as [|Hge];
    [done|destruct (1024 <? _)%N; [done|]]]; injection Ha as <-; split; simpl.
  - by apply NoDup_remove_first.
  - intros i [Hi _]%elem_of_remove_first; auto.
  - pose proof (length_remove_first t (w_missing w)). lia.
  - by apply NoDup_keep, missing_app_positions.
  - intros i [Hi%Hlt|Hi%elem_of_positions]%elem_of_keep%elem_of_app; lia.
  - rewrite length_keep. lia.
Qed.

Lemma window_accept_closes w w' t :
  window_ok w → window_accept w t = Ok w' →
  (w_next w ≤ w_next w')%N ∧ window_accept w' t = Err DecryptFailed.
Proof.
  intros Hw Ha. pose proof Hw as [Hnd Hlt Hlen]. unfold window_accept in Ha.
  destruct (existsb _ _) eqn:He.
  - apply existsb_eqb in He. injection Ha as <-. split; [done|].
    unfold window_accept; simpl.
    rewrite existsb_eqb_false by (rewrite elem_of_remove_first by done; tauto).
    by rewrite (proj2 (N.ltb_lt _ _) (Hlt t He)).
  - destruct (N.ltb_spec t (w_next w)) as [|Hge]; [done|].
    destruct (1024 <? _)%N; [done|]. injection Ha as <-. simpl. split; [lia|].
    unfold window_accept. cbn [w_missing w_next]. rewrite existsb_eqb_false.
    + by rewrite (proj2 (N.ltb_lt _ _)) by lia.
    + intros [Hi%Hlt|Hi%elem_of_positions]%elem_of_keep%elem_of_app; lia.
Qed.

(** the bookkeeping of a receiver stays sound for ever: accepting a
    position keeps the retained positions distinct, already passed and at most
    [MAX_SKIP] many, never moves the window backwards, and closes the position
    for good: the same position is refused with [DecryptFailed] from then on. *)
Theorem window_accept_sound (w w' : Window) (t : N)
    (Hw : window_ok w) (Ha : window_accept w t = Ok w') :
  window_ok w' ∧ (w_next w ≤ w_next w')%N ∧ window_accept w' t = Err DecryptFailed.
Proof.
  split; [by eapply window_accept_ok|]. by apply window_accept_closes.
Qed.

Lemma window_accept_sound_witness :
  window_accept (mkWindow 7 [3; 5]%N) 9 = Ok (mkWindow 10 [3; 5; 7; 8]%N) ∧
  window_accept (mkWindow 10 [3; 5; 7; 8]%N) 9 = Err DecryptFailed.
Proof.
  split; [reflexivity|].
  apply (window_accept_sound (mkWindow 7 [3; 5]%N) (mkWindow 10 [3; 5; 7; 8]%N) 9);
    [|reflexivity].
  split; simpl; [|intros i Hi|lia].
  - refine (bool_decide_unpack _ _). vm_compute. exact I.
  - apply elem_of_cons in Hi as [->|Hi]; [lia|]. apply list_elem_of_singleton in Hi as ->. lia.
Defined.

Lemma message_key_refines_witness :
  let dist := mkDistribution (U32 3) (arr_fit 32 b#"chain") (arr_fit 32 b#"key") in
  let rk := mkReceiverKey (arr_fit 32 b#"chain") (U32 3) (arr_fit 32 b#"key") [] in
  (ReceiverKey.message_key rk (U32 5)).1 = Ok (mkey dist 5).
Proof.
  intros dist rk.
  assert (refines dist rk (mkWindow 3 [])) as Hr by (split; try done; intros ? ? []%elem_of_nil).
  assert (window_ok (mkWindow 3 [])) as Hw
    by (split; [apply NoDup_nil_2|intros ? []%elem_of_nil|simpl; lia]).
  pose proof (message_key_refines dist rk (mkWindow 3 []) (U32 5) Hr Hw ltac:(reflexivity)) as H.
  destruct (ReceiverKey.message_key rk (U32 5)) as [[mk|e] rk']; simpl in *; [|destruct H].
  by destruct H as [-> _].
Defined.
