(* ===== verification/GroupSession.v ===== *)
(** * GroupSession: conversations over sender keys

    End-to-end consequences of the window refinement for [group.rs]: delivery in
    any order, atomicity of a failed decryption, and persistence. *)

From S2P Require Import Prelude Crypto Wire Identity Instances Group GroupSpec.

Section Session.
Context {crypto : Crypto}.

(** Encrypting several messages, and receiving several in the given order. *)
Fixpoint encrypt_all (g : Group) (plaintexts : list bytes) (ad : bytes) : list GroupMessage * Group :=
  match plaintexts with
  | [] => ([], g)
  | p :: ps =>
      let '(m, g) := Group.encrypt g p ad in
      let '(ms, g) := encrypt_all g ps ad in
      (m :: ms, g)
  end.

Fixpoint decrypt_all (g : Group) (msgs : list GroupMessage) (ad : bytes)
    : list (result core_error bytes) * Group :=
  match msgs with
  | [] => ([], g)
  | m :: ms =>
      let '(r, g) := Group.decrypt g m ad in
      let '(rs, g) := decrypt_all g ms ad in
      (r :: rs, g)
  end.

(** The messages with the given numbers, and what they say. *)
Definition pick {A} (l : list A) (order : list nat) : list A := omap (λ i, l !! i) order.

(** a decryption that fails - unknown sender, bad signature, position
    already used or too far ahead, wrong associated data or ciphertext -
    leaves the whole group state exactly as it was. *)
Theorem failed_decrypt_no_effect (g : Group) (m : GroupMessage) (ad : bytes) :
  match Group.decrypt g m ad with
  | (Err _, g') => g' = g
  | (Ok _, g') => own_id g' = own_id g ∧ own g' = own g ∧
      ∀ id, id ≠ gm_sender m → members g' !! id = members g !! id
  end.
Proof.
  unfold Group.decrypt. destruct (members g !! gm_sender m) as [rk|] eqn:Hg; [|done].
  assert ((ReceiverKey.decrypt rk m ad).2 = rk ∨ is_ok (ReceiverKey.decrypt rk m ad).1 = true)
    as Hcase.
  { unfold ReceiverKey.decrypt. destruct (arr_try _); [|by left].
    destruct (negb _); [by left|].
    destruct (ReceiverKey.message_key _ _) as [[mk|e] next]; [|by left].
    destruct (aead_decrypt _ _ _); [by right|by left]. }
  destruct (ReceiverKey.decrypt rk m ad) as [[p|e] rk'].
  - split_and!; [done..|]. intros id Hid. simpl. by rewrite lookup_insert_ne.
  - simpl in Hcase. destruct Hcase as [->|?]; [|done]. destruct g; simpl in *. by rewrite insert_id.
Qed.

(** ** One receiver *)

(** A message of the sender's chain at position [t]. *)
Record sent (dist : SenderKeyDistribution) (seed : arr 32) (ad : bytes) (t : u32) (p : bytes)
    (m : GroupMessage) : Prop := {
  sent_key : skd_signing_public dist = ed_public seed;
  sent_position : gm_iteration m = t;
  sent_ciphertext : gm_ciphertext m = aead_encrypt (mkey dist (u_val t)) p ad;
  sent_signature : gm_signature m = ed_sign seed (signed_bytes t (gm_ciphertext m))
}.

Context (laws : CryptoLaws).

Lemma decrypt_sent dist seed ad t p m rk w w' :
  sent dist seed ad t p m → refines dist rk w → window_ok w → not_last t →
  window_accept w (u_val t) = Ok w' →
  ∃ rk', ReceiverKey.decrypt rk m ad = (Ok p, rk') ∧ refines dist rk' w'.
Proof.
  intros [Hk Hpos Hct Hsig] Hr Hw Ht Ha. unfold ReceiverKey.decrypt.
  rewrite Hsig, arr_try_bytes, (ref_pub _ _ _ Hr), Hk, Hpos, ed_strict_correct. simpl.
  pose proof (message_key_window dist rk w t Hr Hw Ht) as H. rewrite Ha in H.
  destruct (ReceiverKey.message_key rk t) as [[mk|e] rk']; [|destruct H].
  destruct H as [-> Hr']. rewrite Hct, aead_decrypt_encrypt. eauto.
Qed.

Lemma mkey_distribution (g : Group) n :
  mkey (Group.distribution g) (u_val (sk_iteration (own g)) + N.of_nat n) =
  (kdf_ck (chain (sk_chain_key (own g)) n)).2.
Proof.
  unfold mkey. simpl skd_iteration. simpl skd_chain_key.
  by replace (N.to_nat _) with n by lia.
Qed.

Lemma encrypt_all_sent (g : Group) (ps : list bytes) ad i p :
  (u_val (sk_iteration (own g)) + N.of_nat (length ps) < 2 ^ 32)%N →
  ps !! i = Some p →
  ∃ m, (encrypt_all g ps ad).1 !! i = Some m ∧ gm_sender m = own_id g ∧
    sent (Group.distribution g) (sk_signing (own g)) ad
      (uwrap 32 (u_val (sk_iteration (own g)) + N.of_nat i)) p m.
Proof.
  intros Hlt Hi.
  assert (∀ ps g0 n i, own_id g0 = own_id g → sk_signing (own g0) = sk_signing (own g) →
    sk_chain_key (own g0) = chain (sk_chain_key (own g)) n →
    u_val (sk_iteration (own g0)) = (u_val (sk_iteration (own g)) + N.of_nat n)%N →
    (u_val (sk_iteration (own g)) + N.of_nat (n + length ps) < 2 ^ 32)%N →
    ps !! i = Some p →
    ∃ m, (encrypt_all g0 ps ad).1 !! i = Some m ∧ gm_sender m = own_id g ∧
      sent (Group.distribution g) (sk_signing (own g)) ad
        (uwrap 32 (u_val (sk_iteration (own g)) + N.of_nat (n + i))) p m) as Hgen.
  2: { by apply (Hgen ps g 0%nat i); rewrite ?N.add_0_r. }
  clear ps i Hlt Hi. induction ps as [|q ps IH]; intros g0 n i Hid Hsg Hck Hit Hlt Hi; [done|].
  cbn [encrypt_all]. destruct (Group.encrypt g0 q ad) as [m g1] eqn:Henc.
  destruct (encrypt_all g1 ps ad) as [ms g2] eqn:Hall.
  unfold Group.encrypt, SenderKey.encrypt in Henc; simpl in Henc. injection Henc as Hm Hg1.
  destruct i as [|i]; simpl in Hi.
  - injection Hi as ->. exists m. split; [done|]. subst m. split; [done|].
    assert (uwrap 32 (u_val (sk_iteration (own g)) + N.of_nat (n + 0)) = sk_iteration (own g0)) as ->.
    { rewrite Nat.add_0_r, <-Hit. apply uwrap_u_val. }
    split; cbn -[kdf_ck aead_encrypt]; try done; [|by rewrite Hsg].
    by rewrite Hit, Hck, mkey_distribution.
  - destruct (IH g1 (S n) i) as (m' & Hm' & Hs' & Hsent); subst g1;
      cbn [own own_id sk_signing sk_chain_key sk_iteration]; try done.
    + by rewrite Hck.
    + unfold wrapping_succ. rewrite u_val_uwrap_small, Hit; [lia|]. simpl length in Hlt. rewrite Hit. lia.
    + simpl length in Hlt. replace (S n + length ps)%nat with (n + S (length ps))%nat by lia. done.
    + exists m'. rewrite Hall in Hm'. split_and!; [done..|].
      by replace (n + S i)%nat with (S n + i)%nat by lia.
Qed.

(** ** A conversation: which positions are still open *)

(** From base [b], with the positions [done] (offsets) consumed. *)
Record progress (b : N) (consumed : list nat) (w : Window) : Prop := {
  pr_ok : window_ok w;
  pr_base : (b ≤ w_next w)%N;
  pr_open : ∀ i, i ∉ consumed → (b + N.of_nat i < w_next w)%N →
              (b + N.of_nat i)%N ∈ w_missing w;
  pr_above : ∀ t, t ∈ w_missing w → (b ≤ t)%N
}.

Lemma progress_new b : progress b [] (mkWindow b []).
Proof.
  split; [split; simpl|simpl..].
  - apply NoDup_nil_2.
  - by intros i []%elem_of_nil.
  - lia.
  - lia.
  - intros; lia.
  - by intros i []%elem_of_nil.
Qed.

Lemma progress_span b consumed w t :
  progress b consumed w → (w_next w ≤ t)%N → (t ≤ b + 1024)%N →
  (length (w_missing w ++ positions (w_next w) (N.to_nat (t - w_next w))) ≤ 1024)%nat.
Proof.
  intros [Hok Hb _ Habove] Hge Hle.
  transitivity (length (positions b (N.to_nat (t - b)))).
  - apply NoDup_incl_length.
    + by apply NoDup_ListNoDup, missing_app_positions.
    + intros i. rewrite <-!list_elem_of_In, elem_of_app, !elem_of_positions.
      intros [Hi|Hi]; [|lia]. pose proof (Habove i Hi).
      pose proof (wo_passed _ Hok i Hi). lia.
  - rewrite length_positions. lia.
Qed.

Lemma progress_accept b consumed w i :
  progress b consumed w → i ∉ consumed → (i ≤ 1024)%nat →
  ∃ w', window_accept w (b + N.of_nat i) = Ok w' ∧ progress b (i :: consumed) w'.
Proof.
  intros Hp Hi Hle. pose proof Hp as [Hok Hb Hopen Habove].
  assert (∃ w', window_accept w (b + N.of_nat i) = Ok w' ∧
    (b ≤ w_next w')%N ∧ (∀ j, j ∉ i :: consumed → (b + N.of_nat j < w_next w')%N →
       (b + N.of_nat j)%N ∈ w_missing w') ∧ (∀ t, t ∈ w_missing w' → (b ≤ t)%N))
    as (w' & Ha & H1 & H2 & H3).
  2: { exists w'. split; [done|]. split; try done.
       by apply (window_accept_ok w w' (b + N.of_nat i)). }
  unfold window_accept. destruct (existsb _ _) eqn:He.
  - eexists. split; [done|]. simpl. split_and!; [done|..].
    + intros j [Hji Hj]%not_elem_of_cons Hlt. apply elem_of_remove_first; [apply Hok|].
      split; [by apply Hopen|lia].
    + intros t [Ht _]%elem_of_remove_first; [by apply Habove|apply Hok].
  - assert (w_next w ≤ b + N.of_nat i)%N as Hge.
    { apply N.nlt_ge. intros Hlt. pose proof (Hopen i Hi Hlt) as Hin.
      apply existsb_eqb in Hin. congruence. }
    rewrite (proj2 (N.ltb_ge _ _) Hge), (proj2 (N.ltb_ge _ _)) by lia.
    eexists. split; [done|]. cbn [w_next w_missing].
    rewrite keep_all by (eapply progress_span; [done|lia..]).
    split_and!; [lia|..].
    + intros j [Hji Hj]%not_elem_of_cons Hlt. rewrite elem_of_app, elem_of_positions.
      destruct (N.ltb_spec (b + N.of_nat j) (w_next w)); [left; by apply Hopen|right; lia].
    + intros t [Ht|Ht%elem_of_positions]%elem_of_app; [by apply Habove|lia].
Qed.

Lemma refines_new (dist : SenderKeyDistribution) (rk : ReceiverKey) :
  ReceiverKey.from_distribution dist = Ok rk →
  refines dist rk (mkWindow (u_val (skd_iteration dist)) []).
Proof.
  unfold ReceiverKey.from_distribution. destruct (ed_point_valid _); [|done].
  intros [= <-]. split; simpl; try done.
  - by rewrite N.sub_diag.
  - by intros i mk []%elem_of_nil.
Qed.

(** The induction over the deliveries, for a receiver in the middle of the
    conversation. *)
Lemma deliver_rest (s : Group) (plaintexts : list bytes) (ad : bytes) order consumed g rk w :
  (length plaintexts ≤ S MAX_SKIP)%nat →
  (u_val (sk_iteration (own s)) + N.of_nat (length plaintexts) < 2 ^ 32)%N →
  NoDup order → (∀ i, i ∈ order → i ∉ consumed) →
  Forall (λ i, i < length plaintexts)%nat order →
  members g !! own_id s = Some rk → refines (Group.distribution s) rk w →
  progress (u_val (sk_iteration (own s))) consumed w →
  (decrypt_all g (pick (encrypt_all s plaintexts ad).1 order) ad).1 =
  map Ok (pick plaintexts order).
Proof.
  intros Hmany Hfit. revert consumed g rk w.
  induction order as [|i order IH]; intros consumed g rk w Hnd Hnew Hall Hg Hr Hp; [done|].
  apply list.NoDup_cons in Hnd as [Hi Hnd]. apply Forall_cons_1 in Hall as [Hlt Hall]; cbn beta in Hlt.
  destruct (lookup_lt_is_Some_2 _ _ Hlt) as [p Hpi].
  destruct (encrypt_all_sent s plaintexts ad i p Hfit Hpi) as (m & Hm & Hid & Hs).
  destruct (progress_accept _ _ _ i Hp (Hnew i ltac:(left))) as (w' & Ha & Hp');
    [unfold MAX_SKIP in *; lia|].
  assert (u_val (uwrap 32 (u_val (sk_iteration (own s)) + N.of_nat i)) =
    u_val (sk_iteration (own s)) + N.of_nat i)%N as Hval .
  { apply u_val_uwrap_small. lia. }
  destruct (decrypt_sent _ _ _ _ _ _ rk w w' Hs Hr (pr_ok _ _ _ Hp)) as (rk' & Hdec & Hr').
  { unfold not_last. rewrite Hval. lia. }
  { by rewrite Hval. }
  unfold pick in *. cbn [omap list_omap]. rewrite Hm, Hpi. cbn [decrypt_all map].
  unfold Group.decrypt at 1. rewrite Hid, Hg, Hdec.
  match goal with |- context [decrypt_all ?g1 _ ad] =>
    specialize (IH (i :: consumed) g1 rk' w' Hnd) end.
  destruct (decrypt_all _ _ ad) as [rs g'] eqn:Hrest. cbn [fst] in *. f_equal.
  apply IH; try done.
  - intros j Hj. apply not_elem_of_cons. split; [by intros ->|]. apply Hnew. by right.
  - apply lookup_insert_eq.
Qed.

(** C2: a receiver that holds a sender's distribution reads a conversation of
    up to [MAX_SKIP + 1] messages delivered in any order and with any losses:
    whatever numbers are delivered, each once, the receiver obtains exactly
    the plaintexts with these numbers, in that order. *)
Theorem any_order_delivery (s r : Group) (plaintexts : list bytes) (ad : bytes)
    (order : list nat)
    (Hmany : (length plaintexts ≤ S MAX_SKIP)%nat)
    (Hfit : (u_val (sk_iteration (own s)) + N.of_nat (length plaintexts) < 2 ^ 32)%N)
    (Honce : NoDup order)
    (Hsent : Forall (λ i, i < length plaintexts)%nat order) :
  let msgs := (encrypt_all s plaintexts ad).1 in
  let r' := (Group.add_member r (own_id s) (Group.distribution s)).2 in
  (decrypt_all r' (pick msgs order) ad).1 = map Ok (pick plaintexts order).
Proof.
  cbv zeta. unfold Group.add_member.
  destruct (ReceiverKey.from_distribution (Group.distribution s)) as [rk0|e] eqn:Hrk.
  - eapply (deliver_rest s plaintexts ad order [] _ rk0); try done.
    + by intros i _ []%elem_of_nil.
    + apply lookup_insert_eq.
    + by apply refines_new.
    + apply progress_new.
  - unfold ReceiverKey.from_distribution in Hrk. simpl in Hrk.
    by rewrite ed_public_valid in Hrk.
Qed.
End Session.

(** no replay: once a message was accepted, the same message is refused
    with [DecryptFailed] by the group it left behind, whatever associated data
    is presented, so an accepted message is never accepted twice. *)
Theorem replay_rejected {crypto : Crypto} (g g' : Group) (m : GroupMessage) (ad ad' p : bytes)
    dist rk w
    (Hg : members g !! gm_sender m = Some rk) (Hr : refines dist rk w) (Hw : window_ok w)
    (Hlast : not_last (gm_iteration m))
    (Hdec : Group.decrypt g m ad = (Ok p, g')) :
  Group.decrypt g' m ad' = (Err DecryptFailed, g').
Proof.
  unfold Group.decrypt in Hdec. rewrite Hg in Hdec. unfold ReceiverKey.decrypt in Hdec.
  destruct (arr_try (gm_signature m)) as [sig|] eqn:Hsig; [|done].
  destruct (negb _) eqn:Hver; [done|].
  pose proof (message_key_window dist rk w _ Hr Hw Hlast) as H.
  destruct (ReceiverKey.message_key rk (gm_iteration m)) as [[mk|e] rk'] eqn:Hmk; [|done].
  destruct (window_accept w _) as [w'|e'] eqn:Ha; [|done]. destruct H as [_ Hr'].
  destruct (aead_decrypt _ _ _); [|done]. injection Hdec as -> <-.
  pose proof (message_key_window dist rk' w' _ Hr' (window_accept_ok _ _ _ Hw Ha) Hlast) as H.
  destruct (window_accept_closes _ _ _ Hw Ha) as [_ Hclosed]. rewrite Hclosed in H.
  unfold Group.decrypt. simpl members. rewrite lookup_insert_eq. unfold ReceiverKey.decrypt.
  rewrite Hsig. rewrite (ref_pub _ _ _ Hr'), <-(ref_pub _ _ _ Hr), Hver.
  destruct (ReceiverKey.message_key rk' (gm_iteration m)) as [[mk'|e] rk'']; [done|].
  destruct H as [-> ->]. cbn [members own own_id]. by rewrite insert_insert_eq.
Qed.

(** ** Persistence *)
Section Persist.
Context {crypto : Crypto}.

(** Every operation on a group, and a restart that stores and reloads it. *)
Inductive group_step {P} `{!Platform P} : Group → Group → Prop :=
  | step_add g id dist : group_step g (Group.add_member g id dist).2
  | step_rotate g (platform : P) : group_step g (Group.rotate g platform).1
  | step_remove g id : group_step g (Group.remove_member g id)
  | step_encrypt g p ad : group_step g (Group.encrypt g p ad).2
  | step_decrypt g m ad : group_step g (Group.decrypt g m ad).2
  | step_reload g g' : Group.import (Group.export g) = Ok g' → group_step g g'.

Inductive reachable {P} `{!Platform P} : Group → Prop :=
  | reach_new (platform : P) id : reachable (Group.new platform id).1
  | reach_import state g : Group.import state = Ok g → reachable g
  | reach_step g g' : reachable g → group_step (P := P) g g' → reachable g'.

(** The signing key of every member is a curve point. *)
Definition keys_valid (ms : gmap bytes ReceiverKey) : Prop :=
  map_Forall (λ _ rk, ed_point_valid (rk_signing_public rk) = true) ms.

Lemma import_members_valid ms acc out :
  Group.import_members ms acc = Ok out → keys_valid acc → keys_valid out.
Proof.
  revert acc. induction ms as [|m ms IH]; intros acc; cbn [Group.import_members].
  { by intros [= ->]. }
  destruct (ed_point_valid (ms_signing_public m)) eqn:Hv; [|done].
  intros Ho Ha. eapply IH; [done|]. by apply map_Forall_insert_2.
Qed.

Lemma import_valid state g : Group.import state = Ok g → keys_valid (members g).
Proof.
  unfold Group.import. destruct (Group.import_members _ _) as [ms|] eqn:Hi; [|done].
  simpl. intros [= <-]. eapply import_members_valid; [done|]. apply map_Forall_empty.
Qed.

Lemma decrypt_signing_public rk m ad :
  rk_signing_public (ReceiverKey.decrypt rk m ad).2 = rk_signing_public rk.
Proof.
  assert (∀ fuel t k, rk_signing_public (ReceiverKey.ratchet fuel t k) = rk_signing_public k)
    as Hrat.
  { induction fuel as [|fuel IH]; intros t k; simpl; [done|].
    destruct (ultb _ _); [by rewrite IH|done]. }
  unfold ReceiverKey.decrypt. destruct (arr_try _); [|done]. destruct (negb _); [done|].
  destruct (ReceiverKey.message_key rk (gm_iteration m)) as [[mk|e] next] eqn:Hmk; [|done].
  destruct (aead_decrypt _ _ _); [|done]. unfold ReceiverKey.message_key in Hmk.
  destruct (take_skipped _ _) as [[? ?]|]; [by injection Hmk as _ <-|].
  destruct (ultb _ _); [done|]. destruct (_ <? _)%N; [done|].
  pose proof (Hrat (S MAX_SKIP) (gm_iteration m) rk) as Hr.
  set (rk' := ReceiverKey.ratchet _ _ _) in *. clearbody rk'. cbv zeta in Hmk.
  destruct (kdf_ck _) as [? ?]. by injection Hmk as _ <-.
Qed.

Lemma step_valid {P} `{!Platform P} g g' :
  group_step (P := P) g g' → keys_valid (members g) → keys_valid (members g').
Proof.
  destruct 1 as [g id dist|g platform|g id|g p ad|g m ad|g g' Hi]; intros Hg; simpl.
  - unfold Group.add_member, ReceiverKey.from_distribution.
    destruct (ed_point_valid _) eqn:Hv; [|done]. by apply map_Forall_insert_2.
  - unfold Group.rotate. by destruct (SenderKey.generate platform).
  - by apply map_Forall_delete.
  - done.
  - unfold Group.decrypt. destruct (members g !! gm_sender m) as [rk|] eqn:Hm; [|done].
    pose proof (decrypt_signing_public rk m ad) as Hs.
    destruct (ReceiverKey.decrypt rk m ad) as [r rk']. apply map_Forall_insert_2; [|done].
    simpl in *. rewrite Hs. by apply (Hg (gm_sender m)).
  - by eapply import_valid.
Qed.

Lemma reachable_valid {P} `{!Platform P} g : reachable (P := P) g → keys_valid (members g).
Proof.
  induction 1 as [platform id|state g Hi|g g' _ IH Hs].
  - unfold Group.new. destruct (SenderKey.generate platform). apply map_Forall_empty.
  - by eapply import_valid.
  - by eapply step_valid.
Qed.

Lemma import_exported (l : list (bytes * ReceiverKey)) acc :
  Forall (λ e, ed_point_valid (rk_signing_public e.2) = true) l →
  Group.import_members (map Group.export_member l) acc = Ok (list_to_map (rev l) ∪ acc).
Proof.
  revert acc. induction l as [|[id rk] l IH]; intros acc Hl; simpl; [by rewrite (left_id_L ∅ (∪))|].
  apply Forall_cons_1 in Hl as [Hv Hl]. simpl in Hv. rewrite Hv, IH by done. f_equal.
  rewrite list_to_map_app; simpl. destruct rk; simpl.
  rewrite <-(assoc_L (∪)), <-insert_union_l. by rewrite (left_id_L ∅ (∪)).
Qed.

(** persistence loses nothing: storing any group the program can be in
    and loading it again gives back the very same group - own chain, every
    member's chain, position, signing key and banked keys - and never fails. *)
Theorem group_persists {P} `{!Platform P} (g : Group) (Hg : reachable (P := P) g) :
  Group.import (Group.export g) = Ok g.
Proof.
  apply reachable_valid in Hg. unfold Group.import, Group.export. simpl gs_members.
  set (entries := merge_sort key_le (map_to_list (members g))).
  assert (entries ≡ₚ map_to_list (members g)) as Hperm by apply merge_sort_Permutation.
  rewrite import_exported.
  2: { rewrite Hperm. apply map_Forall_to_list in Hg.
       eapply list.Forall_impl; [exact Hg|]. by intros []. }
  assert (map_to_list (members g) ≡ₚ rev entries) as Hrev
    by (rewrite <-Hperm; apply Permutation_rev).
  simpl. rewrite (right_id_L ∅ (∪)). destruct g as [id own ms]; simpl in *. f_equal.
  destruct own; simpl. f_equal. rewrite <-(list_to_map_to_list ms).
  symmetry. apply list_to_map_proper; [|done]. apply NoDup_fst_map_to_list.
Qed.
End Persist.

(** ** Witnesses *)

Definition toy_group (n : N) (id : string) : Group := (Group.new n (bs id)).1.

Lemma any_order_delivery_witness :
  let s := toy_group 3 "alice" in
  let msgs := (encrypt_all s [b#"one"; b#"two"; b#"three"] b#"ad").1 in
  let r := (Group.add_member (toy_group 8 "bob") (own_id s) (Group.distribution s)).2 in
  (decrypt_all r (pick msgs [2; 0]%nat) b#"ad").1 = [Ok b#"three"; Ok b#"one"].
Proof.
  apply (any_order_delivery ToyCryptoLaws (toy_group 3 "alice") (toy_group 8 "bob")
    [b#"one"; b#"two"; b#"three"] b#"ad" [2; 0]%nat).
  - simpl. unfold MAX_SKIP. lia.
  - reflexivity.
  - refine (bool_decide_unpack _ _). vm_compute. exact I.
  - repeat constructor.
Defined.

Lemma replay_rejected_witness :
  let s := toy_group 3 "alice" in
  let m := (Group.encrypt s b#"hi" b#"ad").1 in
  let g := (Group.add_member (toy_group 8 "bob") (own_id s) (Group.distribution s)).2 in
  ∃ g', Group.decrypt g m b#"ad" = (Ok b#"hi", g') ∧
        Group.decrypt g' m b#"other" = (Err DecryptFailed, g').
Proof.
  intros s m g. destruct (Group.decrypt g m b#"ad") as [r g'] eqn:E. exists g'.
  assert (r = Ok b#"hi") as ->
    by (transitivity (Group.decrypt g m b#"ad").1; [by rewrite E|vm_compute; reflexivity]).
  split; [done|].
  eapply (replay_rejected g g' m b#"ad" b#"other" b#"hi" (Group.distribution s) _
    (mkWindow 0 [])); [reflexivity| | |reflexivity|exact E].
  - apply refines_new. reflexivity.
  - split; [apply NoDup_nil_2|intros ? []%elem_of_nil|simpl; lia].
Defined.

Lemma group_persists_witness :
  let s := toy_group 3 "alice" in
  let g := (Group.add_member (toy_group 8 "bob") (own_id s) (Group.distribution s)).2 in
  Group.import (Group.export g) = Ok g.
Proof.
  apply (group_persists (P := N)). eapply (reach_step (P := N)); [apply reach_new|apply step_add].
Defined.
