(* ===== verification/Message.v ===== *)
(** * Message: [mycellium-core/src/message.rs], [offline.rs] and the frames of
    [mycellium-transport/src/link.rs]

    The application payload and its one-line rendering, the deferred-delivery
    envelope, and the length prefix of a transport frame. *)

From S2P Require Import Prelude Std Crypto Wire Identity Records X3DH Instances.

(** ** [message.rs] *)
Inductive Body : Type :=
  | Text (text : str)
  | Reply (to text : str)
  | Reaction (to emoji : str)
  | Receipt (message_id : str) (read : bool)
  | File (name mime : str) (data : bytes)
  | Edit (to text : str)
  | Delete (to : str).

Record AppMessage : Type := mkAppMessage {
  id : str;
  timestamp : u64;
  expires_at : option u64;
  body : Body
}.

#[global] Instance Body_eq_dec : EqDecision Body.
Proof. solve_decision. Defined.
#[global] Instance AppMessage_eq_dec : EqDecision AppMessage.
Proof. solve_decision. Defined.

Definition is_expired (self : AppMessage) (now : u64) : bool :=
  match expires_at self with Some at_ => uleb at_ now | None => false end.

Definition AppMessage_encode `{!Postcard AppMessage} (self : AppMessage) : bytes := wire.encode self.
Definition AppMessage_decode `{!Postcard AppMessage} (input : bytes) : result core_error AppMessage :=
  wire.decode input.

(** The loop of [itoa], which fills a 20-byte buffer from its end; [digits] is
    the filled part.  20 digits are enough for a [usize] ([itoa_loop_fuel]). *)
Fixpoint itoa_loop (fuel : nat) (n : N) (digits : str) : str :=
  match fuel with
  | O => digits
  | S fuel' => if (0 <? n)%N then itoa_loop fuel' (n / 10) (dec_digit (n mod 10) :: digits)
               else digits
  end.

Definition itoa (n : u64) : str :=
  if (u_val n =? 0)%N then b#"0" else itoa_loop 20 (u_val n) [].

Definition summary (self : AppMessage) : str :=
  match body self with
  | Text text => text
  | Reply to text => b#"↪ (re " ++ to ++ b#") " ++ text
  | Reaction to emoji => b#"reacted " ++ emoji ++ b#" to " ++ to
  | Receipt message_id read =>
      (if read then b#"✓✓ read " else b#"✓ delivered ") ++ message_id
  | File name _ data =>
      b#"📎 " ++ name ++ b#" (" ++ itoa (usat 64 (N.of_nat (length data))) ++ b#" bytes)"
  | Edit to text => b#"✎ (edit " ++ to ++ b#") " ++ text
  | Delete to => b#"🗑 deleted " ++ to
  end.

(** ** [offline.rs] *)
Record Envelope : Type := mkEnvelope {
  from : Handle;
  sender_record : SignedRecord;
  env_init : x3dh.HandshakeInit;
  env_message : one_shot.OneShotMessage;
  env_timestamp : u64
}.

(** ** [link.rs]: frames *)
(** [io::ErrorKind], as far as the frames and the streams under them name it. *)
Inductive io_error : Type :=
  | InvalidInput | InvalidData | UnexpectedEof | WriteZero | Interrupted | TimedOut | OtherKind.

Definition MAX_FRAME : N := 16 * 1024 * 1024.

Definition from_be32 (header : arr 4) : N :=
  fold_left (λ n c, n * 256 + byte_val c)%N header 0%N.

(** [len] is a [usize]; the cast to [u32] keeps the low 32 bits. *)
Definition frame_header (len : u64) : result io_error (arr 4) :=
  if (MAX_FRAME <? u_val len)%N then Err InvalidInput
  else Ok (arr_fit 4 (be32 (uwrap 32 (u_val len)))).

Definition frame_len (header : arr 4) : result io_error u64 :=
  let n := from_be32 header in
  if (MAX_FRAME <? n)%N then Err InvalidData else Ok (uwrap 64 n).

(** ** Properties *)

Lemma itoa_loop_fuel fuel more n digits :
  (n < 10 ^ N.of_nat fuel)%N → itoa_loop (fuel + more) n digits = itoa_loop fuel n digits.
Proof.
  revert n digits. induction fuel as [|fuel IH]; intros n digits Hn.
  - simpl in Hn. assert (n = 0)%N as -> by lia. by destruct more.
  - cbn [itoa_loop Nat.add]. destruct (0 <? n)%N; [|done]. apply IH.
    apply N.Div0.div_lt_upper_bound. rewrite Nat2N.inj_succ, N.pow_succ_r' in Hn. lia.
Qed.

Lemma itoa_loop_spec fuel n digits :
  (n < 10 ^ N.of_nat fuel)%N → forallb is_ascii_digit digits = true →
  let out := itoa_loop fuel n digits in
  from_dec out = (n * 10 ^ N.of_nat (length digits) + from_dec digits)%N ∧
  forallb is_ascii_digit out = true ∧
  ((0 < n)%N → head out ≠ Some (dec_digit 0)) ∧ (n = 0%N → out = digits) ∧
  (length out ≤ fuel + length digits)%nat.
Proof.
  revert n digits. induction fuel as [|fuel IH]; intros n digits Hn Hd; simpl itoa_loop.
  { rewrite N.pow_0_r in Hn. replace n with 0%N by lia. split_and!; try done; lia. }
  destruct (N.ltb_spec 0 n) as [Hpos|Hz].
  2: { replace n with 0%N by lia. split_and!; try done; lia. }
  rewrite Nat2N.inj_succ, N.pow_succ_r' in Hn.
  pose proof (N.div_mod n 10 ltac:(done)) as Hdiv. pose proof (mod10_lt n) as Hmod.
  assert (n / 10 < 10 ^ N.of_nat fuel)%N as Hlt by (by apply N.Div0.div_lt_upper_bound).
  assert (byte_val (dec_digit (n mod 10)) = 48 + n mod 10)%N as Hc
    by (by rewrite byte_val_dec_digit, N.Div0.mod_mod).
  destruct (IH (n / 10)%N (dec_digit (n mod 10) :: digits) Hlt) as (H1 & H2 & H3 & H4 & H5).
  { simpl. by rewrite is_ascii_digit_dec_digit, Hd. }
  split_and!; [|done| |lia|simpl length in H5; lia].
  - rewrite H1. simpl length. rewrite Nat2N.inj_succ, N.pow_succ_r'.
    unfold from_dec at 1. simpl fold_left. rewrite from_dec_cons_acc, Hc.
    revert Hdiv. generalize (n / 10)%N, (n mod 10)%N. intros q r ->. nia.
  - intros _. destruct (decide (n / 10 = 0)%N) as [Hz|Hnz]; [|apply H3; lia].
    rewrite (H4 Hz). simpl. intros [= H]. apply (f_equal byte_val) in H.
    rewrite Hc in H. change (byte_val (dec_digit 0)) with 48%N in H.
    rewrite Hz in Hdiv. revert Hdiv H. generalize (n mod 10)%N. intros; lia.
Qed.

(** [itoa] prints every machine-size integer: the text is made of at most
    20 decimal digits, has no leading zero, and reads back as the number. *)
Theorem itoa_correct (n : u64) :
  from_dec (itoa n) = u_val n ∧ forallb is_ascii_digit (itoa n) = true ∧
  (1 ≤ length (itoa n) ≤ 20)%nat ∧
  (head (itoa n) = Some (dec_digit 0) → u_val n = 0%N).
Proof.
  pose proof (u_val_lt n) as Hn. unfold itoa. destruct (N.eqb_spec (u_val n) 0) as [->|Hnz].
  { split_and!; try done; simpl; lia. }
  assert (u_val n < 10 ^ N.of_nat 20)%N as Hlt by (eapply N.lt_trans; [exact Hn|reflexivity]).
  destruct (itoa_loop_spec 20 (u_val n) [] Hlt eq_refl) as (H1 & H2 & H3 & _ & H5).
  change (from_dec []) with 0%N in H1. change (10 ^ N.of_nat (length []))%N with 1%N in H1.
  set (out := itoa_loop _ _ _) in *.
  split_and!; [lia|done| |simpl in H5; lia|].
  - destruct out; [|simpl; lia]. change (from_dec []) with 0%N in H1. lia.
  - intros Hh. destruct H3; [lia|done].
Qed.

(** the frame codec is exact at the size limit: a body of at most
    [MAX_FRAME] bytes gets a header that the reader parses back to its length,
    a longer one is refused by the writer, and a reader refuses every header
    that announces more, before any allocation. *)
Theorem frame_roundtrip (len : u64) (header : arr 4) :
  match frame_header len with
  | Ok h => (u_val len ≤ MAX_FRAME)%N ∧ frame_len h = Ok len
  | Err e => e = InvalidInput ∧ (MAX_FRAME < u_val len)%N
  end ∧
  match frame_len header with
  | Ok n => (u_val n ≤ MAX_FRAME)%N ∧ u_val n = from_be32 header
  | Err e => e = InvalidData ∧ (MAX_FRAME < from_be32 header)%N
  end.
Proof.
  split.
  - unfold frame_header. destruct (N.ltb_spec MAX_FRAME (u_val len)) as [|Hle]; [done|].
    split; [done|]. unfold frame_len.
    assert (u_val len < 4294967296)%N as Hlt by (unfold MAX_FRAME in Hle; lia).
    assert (from_be32 (arr_fit 4 (be32 (uwrap 32 (u_val len)))) = u_val len) as ->.
    { unfold from_be32. rewrite arr_fit_exact by done. unfold be32. simpl fold_left.
      rewrite !byte_val_byte_of, u_val_uwrap_small by exact Hlt.
      rewrite (N_digits_256 (u_val len) Hlt) at 5. lia. }
    rewrite (proj2 (N.ltb_ge _ _) Hle). f_equal. apply uwrap_u_val.
  - unfold frame_len. destruct (N.ltb_spec MAX_FRAME (from_be32 header)) as [|Hle]; [done|].
    rewrite u_val_uwrap_small; [done|]. eapply N.le_lt_trans; [exact Hle|reflexivity].
Qed.
