(* ===== verification/Delivery.v ===== *)
(** * Delivery: [mycellium-core/src/delivery.rs]

    A delivery counts as done only when the recipient device has signed an
    acknowledgement bound to the delivery id, the exact payload and itself. *)

From S2P Require Import Prelude Crypto Wire Identity Records Instances.

Definition ACK_DOMAIN : bytes := b#"mycellium-delivery-ack-v1" ++ [zero_byte].
Definition MAX_DELIVERY_ID_LEN : nat := 64.

Abbreviation PayloadDigest := (arr 32).

(** [AckBody]: delivery id, payload digest, recipient device. *)
Definition AckBody : Type := str * PayloadDigest * DevicePublicKey.

Record DeliveryAck : Type := mkDeliveryAck {
  delivery_id : str;
  ack_digest : PayloadDigest;
  recipient_device : DevicePublicKey;
  ack_signature : Signature
}.

Section Delivery.
Context {crypto : Crypto} `{!Postcard AckBody}.

Definition payload_digest (payload : bytes) : PayloadDigest := sha256 payload.

Definition ack_signing_bytes (delivery_id : str) (digest : PayloadDigest)
    (recipient_device : DevicePublicKey) : bytes :=
  let body := wire.canonical (delivery_id, digest, recipient_device) in
  ACK_DOMAIN ++ body.

Definition accepted (identity : Identity) (delivery_id : str) (payload : bytes) : DeliveryAck :=
  let payload_digest := payload_digest payload in
  let recipient_device := Identity.device_public identity in
  let signature := Identity.sign_device identity
    (ack_signing_bytes delivery_id payload_digest recipient_device) in
  mkDeliveryAck delivery_id payload_digest recipient_device signature.

Definition ack_verify (self : DeliveryAck) (expected_delivery_id : str)
    (expected_payload : bytes) (expected_device : DevicePublicKey) : result core_error unit :=
  if bool_decide (delivery_id self = [])
     || (MAX_DELIVERY_ID_LEN <? length (delivery_id self))%nat
     || negb (bool_decide (delivery_id self = expected_delivery_id))
     || negb (bool_decide (recipient_device self = expected_device))
     || negb (bool_decide (ack_digest self = payload_digest expected_payload))
  then Err Malformed
  else device_verify (recipient_device self)
         (ack_signing_bytes (delivery_id self) (ack_digest self) (recipient_device self))
         (ack_signature self).

(** ** Properties *)

Lemma ack_verify_Ok self eid payload dev :
  ack_verify self eid payload dev = Ok tt ↔
  delivery_id self = eid ∧ (1 ≤ length eid ≤ 64)%nat ∧ recipient_device self = dev ∧
  ack_digest self = payload_digest payload ∧
  device_verify dev (ack_signing_bytes eid (payload_digest payload) dev) (ack_signature self)
    = Ok tt.
Proof.
  unfold ack_verify, MAX_DELIVERY_ID_LEN. rewrite guard_Ok, !orb_false_iff.
  rewrite !negb_false_iff, !bool_decide_eq_true, bool_decide_eq_false, Nat.ltb_ge. split.
  - intros (((((He & Hl) & <-) & <-) & Hd) & Hv). rewrite <-Hd. split_and!; try done.
    destruct (delivery_id self); [done|simpl; lia].
  - intros (<- & Hl & <- & Hd & Hv). rewrite Hd. split_and!; try done; try lia.
    intros E. rewrite E in Hl. simpl in Hl. lia.
Qed.

(** an acknowledgement proves one delivery only: it verifies for an
    expected id, payload and device exactly when it names that id (1 to 64
    bytes), that device and the digest of that payload and carries that
    device's signature over the three, so an acknowledgement accepted for two
    deliveries is an acknowledgement of the same id, device and digest. *)
Theorem ack_binds (a : DeliveryAck) (eid eid' : str) (payload payload' : bytes)
    (dev dev' : DevicePublicKey) (H : ack_verify a eid payload dev = Ok tt) :
  delivery_id a = eid ∧ (1 ≤ length eid ≤ 64)%nat ∧ recipient_device a = dev ∧
  ack_digest a = payload_digest payload ∧
  device_verify dev (ack_signing_bytes eid (payload_digest payload) dev) (ack_signature a)
    = Ok tt ∧
  (ack_verify a eid' payload' dev' = Ok tt ↔
   eid' = eid ∧ dev' = dev ∧ payload_digest payload' = payload_digest payload).
Proof.
  pose proof H as (H1 & H2 & H3 & H4 & H5)%ack_verify_Ok.
  split_and!; try done; try lia. rewrite ack_verify_Ok, H1, H3, H4. split.
  - by intros (-> & _ & -> & -> & _).
  - by intros (-> & -> & ->).
Qed.

(** a recipient's acknowledgement convinces the sender: whatever device
    accepts a delivery with a usable id, the acknowledgement it signs verifies
    against that id, payload and device. *)
Theorem accepted_verifies (laws : CryptoLaws) (recipient : Identity) (did : str)
    (payload : bytes) (Hid : (1 ≤ length did ≤ 64)%nat) :
  ack_verify (accepted recipient did payload) did payload (Identity.device_public recipient)
  = Ok tt.
Proof.
  apply ack_verify_Ok. unfold accepted; simpl. split_and!; try done; try lia.
  apply Identity.device_sign_verify.
Qed.
End Delivery.

Lemma accepted_verifies_witness :
  ack_verify (accepted (toy_identity 7) b#"d-1" b#"payload") b#"d-1" b#"payload"
    (Identity.device_public (toy_identity 7)) = Ok tt.
Proof. apply (accepted_verifies ToyCryptoLaws). simpl. lia. Defined.

Lemma ack_binds_witness :
  ack_verify (accepted (toy_identity 7) b#"d-1" b#"payload") b#"d-1" b#"payload"
    (Identity.device_public (toy_identity 7)) = Ok tt ∧
  ack_verify (accepted (toy_identity 7) b#"d-1" b#"payload") b#"d-2" b#"payload"
    (Identity.device_public (toy_identity 7)) ≠ Ok tt.
Proof.
  assert (ack_verify (accepted (toy_identity 7) b#"d-1" b#"payload") b#"d-1" b#"payload"
    (Identity.device_public (toy_identity 7)) = Ok tt) as H by (vm_compute; reflexivity).
  split; [exact H|].
  destruct (ack_binds _ _ b#"d-2" _ b#"payload" _ (Identity.device_public (toy_identity 7)) H)
    as (_ & _ & _ & _ & _ & Hiff).
  intros (Heq & _)%Hiff. vm_compute in Heq. discriminate Heq.
Defined.
