(* ===== verification/Storage.v ===== *)
(** * Storage: [mycellium-core/src/storage.rs]

    The key-value interface every host provides, the map that is its abstract
    meaning, and the refinement by which a property proved on that map holds on
    any lawful store: [sim]. *)

From S2P Require Import Prelude Crypto Wire.

Inductive StorageMutation : Type :=
  | Put (key value : bytes)
  | Delete (key : bytes).

(** [trait Storage]; the host's error is carried by [StorageError]. *)
Class Storage (S : Type) : Type := {
  st_get : bytes → S → result error (option bytes);
  st_put : bytes → bytes → M S unit;
  st_delete : bytes → M S unit;
  st_apply_batch : list StorageMutation → M S unit
}.
#[global] Hint Mode Storage ! : typeclass_instances.

(** The default body of [apply_batch]. *)
Fixpoint apply_batch_default {S} (put : bytes → bytes → M S unit) (delete : bytes → M S unit)
    (mutations : list StorageMutation) : M S unit :=
  match mutations with
  | [] => retM tt
  | Put key value :: rest => let! _ := put key value in apply_batch_default put delete rest
  | Delete key :: rest => let! _ := delete key in apply_batch_default put delete rest
  end.

(** ** The abstract store *)
Abbreviation Mem :=
  (@gmap (list ascii) (@list.list_eq_dec ascii Ascii.eq_dec)
     (@list_countable ascii Ascii.eq_dec Ascii.countable) (list ascii)).

Definition apply_mutation (m : Mem) (mutation : StorageMutation) : Mem :=
  match mutation with
  | Put key value => <[key := value]> m
  | Delete key => delete key m
  end.

#[export] Instance mem_storage : Storage Mem := {|
  st_get key m := Ok (m !! key);
  st_put key value m := (Ok tt, <[key := value]> m);
  st_delete key m := (Ok tt, delete key m);
  st_apply_batch (mutations : list StorageMutation) (m : Mem) := (Ok tt, fold_left apply_mutation mutations m)
|}.

(** The sequential default and the atomic batch agree where nothing fails. *)
Lemma mem_apply_batch_default (mutations : list StorageMutation) (m : Mem) :
  apply_batch_default st_put st_delete mutations m = st_apply_batch mutations m.
Proof.
  simpl. revert m. induction mutations as [|[k v|k] l IH]; intros m; [done|apply IH..].
Qed.

(** ** Batches

    A batch whose every mutation writes what [want] says, and that touches every
    key on which the store differs from [want], makes the store [want]. *)
Definition mutation_key (mutation : StorageMutation) : bytes :=
  match mutation with Put key _ => key | Delete key => key end.

Definition writes (want : bytes → option bytes) (mutation : StorageMutation) : Prop :=
  match mutation with Put key value => want key = Some value | Delete key => want key = None end.

Lemma apply_mutation_want want mutation (m : Mem) key :
  writes want mutation →
  (key = mutation_key mutation ∨ m !! key = want key) →
  apply_mutation m mutation !! key = want key.
Proof.
  destruct mutation as [k v|k]; simpl; intros Hw Hk; destruct (decide (key = k)) as [->|Hne].
  - by rewrite lookup_insert_eq.
  - rewrite lookup_insert_ne by congruence. by destruct Hk.
  - by rewrite lookup_delete_eq.
  - rewrite lookup_delete_ne by congruence. by destruct Hk.
Qed.

Lemma batch_reaches want (mutations : list StorageMutation) (m : Mem) key :
  (∀ mutation, mutation ∈ mutations → writes want mutation) →
  (m !! key = want key ∨ ∃ mutation, mutation ∈ mutations ∧ key = mutation_key mutation) →
  fold_left apply_mutation mutations m !! key = want key.
Proof.
  revert m. induction mutations as [|u l IH]; intros m Hw Hk; simpl.
  - destruct Hk as [|(? & []%elem_of_nil & _)]; done.
  - apply IH; [intros v Hv; apply Hw; by right|].
    destruct (decide (key = mutation_key u)) as [Hu|Hu].
    { left. apply apply_mutation_want; [apply Hw; by left|by left]. }
    destruct Hk as [Hk|(v & [->|Hv]%elem_of_cons & Heq)]; [|done|by right; eauto].
    left. apply apply_mutation_want; [apply Hw; by left|by right].
Qed.

(** ** Lawful stores

    A call takes its effect completely or fails with the host's error; a failed
    call has taken its effect completely or not at all, and [apply_batch] does
    so for the whole batch. *)
Class LawfulStorage (S : Type) `{!Storage S} : Type := {
  st_wf : S → Prop;
  st_view : S → Mem;
  st_get_law s key : st_wf s →
    st_get key s = Ok (st_view s !! key) ∨ ∃ msg, st_get key s = Err (StorageError msg);
  st_put_law s key value : st_wf s →
    ∃ r s', st_put key value s = (r, s') ∧ st_wf s' ∧
      ((r = Ok tt ∧ st_view s' = <[key := value]> (st_view s)) ∨
       (∃ msg, r = Err (StorageError msg) ∧
          (st_view s' = st_view s ∨ st_view s' = <[key := value]> (st_view s))));
  st_delete_law s key : st_wf s →
    ∃ r s', st_delete key s = (r, s') ∧ st_wf s' ∧
      ((r = Ok tt ∧ st_view s' = delete key (st_view s)) ∨
       (∃ msg, r = Err (StorageError msg) ∧
          (st_view s' = st_view s ∨ st_view s' = delete key (st_view s))));
  st_apply_batch_law s mutations : st_wf s →
    ∃ r s', st_apply_batch mutations s = (r, s') ∧ st_wf s' ∧
      ((r = Ok tt ∧ st_view s' = fold_left apply_mutation mutations (st_view s)) ∨
       (∃ msg, r = Err (StorageError msg) ∧
          (st_view s' = st_view s ∨ st_view s' = fold_left apply_mutation mutations (st_view s))))
}.

#[export] Instance mem_lawful : LawfulStorage Mem.
Proof. refine {| st_wf _ := True; st_view m := m |}; eauto 10. Defined.

(** ** Refinement: a program on a lawful store does what it does on the map,
    unless the store itself fails *)
Section Sim.
Context {S : Type} `{!Storage S, !LawfulStorage S}.

Definition sim {A} (m : M S A) (m' : M Mem A) : Prop :=
  ∀ s, st_wf s →
    st_wf (m s).2 ∧
    (((m s).1 = (m' (st_view s)).1 ∧ st_view (m s).2 = (m' (st_view s)).2) ∨
     ∃ msg, (m s).1 = Err (StorageError msg)).

(** The same for a function of a shared reference. *)
Definition simr {A} (f : S → result error A) (f' : Mem → result error A) : Prop :=
  ∀ s, st_wf s → f s = f' (st_view s) ∨ ∃ msg, f s = Err (StorageError msg).

Lemma sim_ret {A} (a : A) : sim (retM a) (retM a).
Proof. intros s Hs. simpl. auto. Qed.
Lemma sim_err {A} e : sim (A := A) (errM e) (errM e).
Proof. intros s Hs. simpl. auto. Qed.
Lemma sim_lift {A} (r : result error A) : sim (liftM r) (liftM r).
Proof. intros s Hs. simpl. auto. Qed.
Lemma sim_read {A} f f' : simr (A := A) f f' → sim (readM f) (readM f').
Proof. intros H s Hs. simpl. split; [done|]. destruct (H s Hs); auto. Qed.

Lemma sim_bind {A B} (m : M S A) m' (k : A → M S B) k' :
  sim m m' → (∀ a, sim (k a) (k' a)) → sim (bindM m k) (bindM m' k').
Proof.
  intros Hm Hk s Hs. destruct (Hm s Hs) as [Hwf [[H1 H2]|[msg H1]]]; unfold bindM;
    destruct (m s) as [[a|e] s1]; simpl in *.
  - destruct (m' (st_view s)) as [[a'|e'] s1']; simpl in *; [|done].
    injection H1 as <-. subst s1'. by apply Hk.
  - destruct (m' (st_view s)) as [[a'|e'] s1']; simpl in *; [done|].
    injection H1 as <-. auto.
  - done.
  - injection H1 as ->. eauto.
Qed.

Lemma simr_bind {A B} (f : S → result error A) f' (k : A → S → result error B) k' :
  simr f f' → (∀ a, simr (k a) (k' a)) →
  simr (λ s, bind_result (f s) (λ a, k a s)) (λ m, bind_result (f' m) (λ a, k' a m)).
Proof.
  intros Hf Hk s Hs. destruct (Hf s Hs) as [->|[msg ->]]; [|simpl; eauto].
  destruct (f' (st_view s)) as [a|e]; simpl; [by apply Hk|auto].
Qed.
Lemma simr_const {A} (r : result error A) : simr (λ _, r) (λ _, r).
Proof. intros s Hs. auto. Qed.

Lemma sim_get key : simr (st_get key) (st_get key).
Proof. intros s Hs. destruct (st_get_law s key Hs) as [->|[msg ->]]; eauto. Qed.
Lemma sim_put key value : sim (st_put key value) (st_put key value).
Proof.
  intros s Hs. destruct (st_put_law s key value Hs) as (r & s' & -> & Hwf & H). simpl.
  split; [done|]. destruct H as [[-> ->]|(msg & -> & _)]; eauto.
Qed.
Lemma sim_delete key : sim (st_delete key) (st_delete key).
Proof.
  intros s Hs. destruct (st_delete_law s key Hs) as (r & s' & -> & Hwf & H). simpl.
  split; [done|]. destruct H as [[-> ->]|(msg & -> & _)]; eauto.
Qed.
Lemma sim_apply_batch l : sim (st_apply_batch l) (st_apply_batch l).
Proof.
  intros s Hs. destruct (st_apply_batch_law s l Hs) as (r & s' & -> & Hwf & H). simpl.
  split; [done|]. destruct H as [[-> ->]|(msg & -> & _)]; eauto.
Qed.
End Sim.

Create HintDb sim.
#[export] Hint Resolve sim_ret sim_err sim_lift sim_read simr_const sim_get sim_put sim_delete
  sim_apply_batch : sim.

(** Case analysis along the structure of a program. *)
Ltac sim_step :=
  match goal with
  | |- ∀ _, _ => intro
  | |- sim (bindM _ _) _ => apply sim_bind
  | |- simr (λ s, bind_result _ _) _ => apply simr_bind
  | |- simr (λ s, map_err _ _) _ => idtac
  | |- sim (match ?x with _ => _ end) _ => destruct x
  | |- simr (match ?x with _ => _ end) _ => destruct x
  | |- simr (λ s, match ?x with _ => _ end) _ => destruct x
  | _ => progress eauto with sim
  end.
Ltac solve_sim := repeat sim_step.

(** The same for functions of a shared reference, continuation by continuation. *)
Ltac simr_step :=
  match goal with
  | |- simr (λ s, bind_result (@?f s) (@?k s)) (λ m, bind_result (@?f' m) (@?k' m)) =>
      apply (simr_bind f f' (λ a s, k s a) (λ a m, k' m a)); [|intros ?; cbv beta]
  | |- simr (λ s, match ?x with _ => _ end) _ => destruct x
  | |- simr (λ _, ?r) _ => apply (simr_const r)
  | |- simr (λ s, ?f s) (λ m, ?g m) => change (simr f g)
  | _ => solve [eauto with sim]
  end.
Ltac solve_simr := repeat simr_step.

(** ** Footprints

    [modifies K m]: whatever its result, [m] leaves every key outside [K] alone. *)
Definition modifies (K : bytes → Prop) {A} (m : M Mem A) : Prop :=
  ∀ (s : Mem) k, ¬ K k → (m s).2 !! k = s !! k.

Section Modifies.
Context (K : bytes → Prop).

Lemma modifies_ret {A} (a : A) : modifies K (retM a).
Proof. by intros s k _. Qed.
Lemma modifies_err {A} e : modifies K (errM (A := A) e).
Proof. by intros s k _. Qed.
Lemma modifies_lift {A} (r : result error A) : modifies K (liftM r).
Proof. by intros s k _. Qed.
Lemma modifies_read {A} (f : Mem → result error A) : modifies K (readM f).
Proof. by intros s k _. Qed.

Lemma modifies_bind {A B} (m : M Mem A) (k : A → M Mem B) :
  modifies K m → (∀ a, modifies K (k a)) → modifies K (bindM m k).
Proof.
  intros Hm Hk s key HK. unfold bindM. specialize (Hm s key HK).
  destruct (m s) as [[a|e] s1]; simpl in *; [|done]. by rewrite (Hk a s1 key HK).
Qed.

(** A read whose answer the rest depends on. *)
Lemma modifies_bind_read {A B} (f : Mem → result error A) (k : A → M Mem B) :
  (∀ s a, f s = Ok a → ∀ key, ¬ K key → (k a s).2 !! key = s !! key) →
  modifies K (bindM (readM f) k).
Proof.
  intros Hk s key HK. unfold bindM, readM. destruct (f s) as [a|e] eqn:Hf; [|done]. by apply Hk.
Qed.

Lemma modifies_put key value : K key → modifies K (st_put key value).
Proof. intros H s k HK. simpl. apply lookup_insert_ne. by intros ->. Qed.
Lemma modifies_delete key : K key → modifies K (st_delete key).
Proof. intros H s k HK. simpl. apply lookup_delete_ne. by intros ->. Qed.
Lemma modifies_batch l :
  (∀ u, u ∈ l → K (mutation_key u)) → modifies K (st_apply_batch l).
Proof.
  intros Hl s k HK. simpl. revert s. induction l as [|u l IH]; intros s; simpl; [done|].
  rewrite IH by (intros v Hv; apply Hl; by right).
  assert (k ≠ mutation_key u) as Hne by (intros ->; apply HK, Hl; by left).
  destruct u as [key v|key]; simpl in *; [by rewrite lookup_insert_ne|by rewrite lookup_delete_ne].
Qed.
End Modifies.

Lemma modifies_weaken {A} (K K' : bytes → Prop) (m : M Mem A) :
  (∀ k, K k → K' k) → modifies K m → modifies K' m.
Proof. intros H Hm s k HK. apply Hm. auto. Qed.

Create HintDb modifies.
#[export] Hint Resolve modifies_ret modifies_err modifies_lift modifies_read modifies_put
  modifies_delete : modifies.

(** ** Keys

    Each component keeps its state under keys of its own form: a fixed name, or
    a prefix followed by an identifier. *)
Definition key_prefix (prefix : bytes) (id : bytes) : bytes := prefix ++ id.

Lemma key_prefix_inj prefix id id' : key_prefix prefix id = key_prefix prefix id' ↔ id = id'.
Proof. unfold key_prefix. split; [apply app_inv_head|congruence]. Qed.
