(* ===== verification/FileStore.v ===== *)
(** * FileStore: [mycellium-storage/src/filestore.rs] and [atomic_write] of its [lib.rs]

    A directory of encrypted files behind the [Storage] interface: one file per
    key, and an encrypted journal that makes a batch of mutations recoverable.

    The operating system is explicit: the files of the directory, the lock, and
    a script that says of every system call to come whether it succeeds, fails
    without or after its effect, or is the last thing the process does.  Calls
    take effect in the order they are made; a process that has crashed makes no
    further call take effect. *)

From S2P Require Import Prelude Crypto Wire Storage.

(** ** The operating system *)
Inductive Fault : Type := Fine | FailBefore | FailAfter | CrashBefore | CrashAfter.

(** The outcome of one call, the bytes [getrandom] would return, and the number
    of bytes a failing [write_all] has written. *)
Record Step : Type := mkStep { fault : Fault; entropy : bytes; torn : nat }.

Inductive Lock : Type := Unlocked | Locked | NoLocks.
#[global] Instance Lock_eq_dec : EqDecision Lock.
Proof. solve_decision. Defined.

Record Host : Type := mkHost {
  files : Mem;
  lock : Lock;
  unreadable : bytes → bool;
  alive : bool;
  script : list Step
}.

Definition quiet_step : Step := mkStep Fine [] 0.
Definition next_step (h : Host) : Step := default quiet_step (head (script h)).
Definition io_error : error := StorageError b#"I/O error".

(** A call with an effect on the directory. *)
Definition syscall (effect : Step → Mem → Mem) : M Host unit := λ h,
  if negb (alive h) then (Err io_error, h)
  else
    let st := next_step h in
    let before := mkHost (files h) (lock h) (unreadable h) true (tail (script h)) in
    let after := mkHost (effect st (files h)) (lock h) (unreadable h) true (tail (script h)) in
    let dead h := mkHost (files h) (lock h) (unreadable h) false (script h) in
    match fault st with
    | Fine => (Ok tt, after)
    | FailBefore => (Err io_error, before)
    | FailAfter => (Err io_error, after)
    | CrashBefore => (Err io_error, dead before)
    | CrashAfter => (Err io_error, dead after)
    end.

Definition no_effect : Step → Mem → Mem := λ _ files, files.

(** [getrandom::getrandom] *)
Definition getrandom (n : nat) : M Host (arr n) := λ h,
  (let! _ := syscall no_effect in retM (arr_fit n (entropy (next_step h)))) h.

(** [fs::read]: [None] is [ErrorKind::NotFound]. *)
Definition fs_read (name : bytes) (h : Host) : result error (option bytes) :=
  if alive h && negb (unreadable h name) then Ok (files h !! name) else Err io_error.

(** [Path::exists] *)
Definition exists_ (name : bytes) (h : Host) : bool := bool_decide (is_Some (files h !! name)).

(** [fs::remove_file]: [false] is [ErrorKind::NotFound]. *)
Definition remove_file (name : bytes) : M Host bool := λ h,
  (let! _ := syscall (λ _ files, delete name files) in retM (exists_ name h)) h.

(** [OpenOptions::new().write(true).create_new(true).open] *)
Definition create_new (name : bytes) : M Host unit := λ h,
  if exists_ name h then (Err (StorageError b#"file exists"), h)
  else syscall (λ _ files, <[name := []]> files) h.

(** [write_all]; a call that does not succeed may have written a part. *)
Definition write_all (name content : bytes) : M Host unit :=
  syscall (λ st files,
    <[name := match fault st with Fine => content | _ => take (torn st) content end]> files).

(** [fs::rename], which replaces the target atomically. *)
Definition rename (from to : bytes) : M Host unit := λ h,
  match files h !! from with
  | None => (Err io_error, h)
  | Some content => syscall (λ _ files, <[to := content]> (delete from files)) h
  end.

(** [File::sync_all], on a file or on the directory. *)
Definition sync_all : M Host unit := syscall no_effect.

(** ** [mycellium-storage/src/lib.rs] *)
Definition create_private_dir : M Host unit := syscall no_effect.

(** [.{name}.{suffix:016x}.tmp] with the suffix read as little-endian. *)
Definition temp_name (name nonce : bytes) : bytes :=
  b#"." ++ name ++ b#"." ++ hex (rev nonce) ++ b#".tmp".

(** The closure of [atomic_write]. *)
Definition replace_file (temp name content : bytes) : M Host unit :=
  let! _ := create_new temp in
  let! _ := write_all temp content in
  let! _ := sync_all in
  let! _ := rename temp name in
  sync_all.

Definition atomic_write (name content : bytes) : M Host unit :=
  let! _ := create_private_dir in
  let! nonce := getrandom 8 in
  let temp := temp_name name nonce in
  let! result := tryM (replace_file temp name content) in
  match result with
  | Ok _ => retM tt
  | Err e => let! _ := tryM (remove_file temp) in errM e
  end.

(** ** [filestore.rs] *)
Definition JOURNAL_FILE : bytes := b#".transaction-v1".
Definition JOURNAL_AAD : bytes := b#"mycellium-storage-transaction-v1".
Definition LOCK_FILE : bytes := b#".process-lock-v1".

(** The file of a key. *)
Definition path (key : bytes) : bytes := hex key.

(** [BTreeMap<Vec<u8>, Option<Vec<u8>>>] *)
Abbreviation Changes :=
  (@gmap (list ascii) (@list.list_eq_dec ascii Ascii.eq_dec)
     (@list_countable ascii Ascii.eq_dec Ascii.countable) (option (list ascii))).

Section FileStore.
Context `{!Crypto, !Postcard (list StorageMutation)}.

(** The methods, over the store's encryption key. *)
Section Methods.
Context (self : arr 32).

Definition ensure_ready (h : Host) : result error unit :=
  if exists_ JOURNAL_FILE h
  then Err (StorageError b#"transaction recovery required; reopen the store") else Ok tt.

Definition encrypt (aad value : bytes) : M Host bytes :=
  let! nonce := getrandom 12 in
  let ciphertext := chacha_encrypt self nonce value aad in
  retM (arr_bytes nonce ++ ciphertext).

Definition decrypt (aad blob : bytes) : result error bytes :=
  if (length blob <? 12)%nat then Err (StorageError b#"corrupt store entry")
  else
    let nonce := arr_fit 12 (take 12 blob) in
    let ciphertext := drop 12 blob in
    ok_or (StorageError b#"decryption failed") (chacha_decrypt self nonce ciphertext aad).

Definition put_raw (key value : bytes) : M Host unit :=
  let! blob := encrypt key value in
  atomic_write (path key) blob.

Definition delete_raw (key : bytes) : M Host unit :=
  let! _ := remove_file (path key) in retM tt.

Fixpoint apply (mutations : list StorageMutation) : M Host unit :=
  match mutations with
  | [] => retM tt
  | mutation :: rest =>
      let! _ := match mutation with
                | Put key value => put_raw key value
                | Delete key => delete_raw key
                end in
      apply rest
  end.

Definition finish_transaction : M Host unit :=
  let! removed := remove_file JOURNAL_FILE in
  if removed then sync_all else retM tt.

Definition decode_journal (blob : bytes) : result error (list StorageMutation) :=
  let? plaintext := decrypt JOURNAL_AAD blob in
  map_err (λ _, StorageError b#"corrupt transaction") (wire.decode plaintext).

Definition recover_transaction : M Host unit :=
  let! journal := readM (fs_read JOURNAL_FILE) in
  match journal with
  | None => retM tt
  | Some blob =>
      let! mutations := liftM (decode_journal blob) in
      let! _ := apply mutations in
      finish_transaction
  end.

(** [process_lock.try_lock()]: a lock held by another handle refuses the store,
    a file system without locks does not. *)
Definition try_lock : M Host unit := λ h,
  match lock h with
  | Locked => (Err (StorageError b#"this local store is already open in another app instance"), h)
  | Unlocked =>
      (let! _ := syscall no_effect in
       λ h, (Ok tt, mkHost (files h) Locked (unreadable h) (alive h) (script h))) h
  | NoLocks => syscall no_effect h
  end.

(** Dropping the handle releases the lock. *)
Definition unlocked (held : Lock) : Lock := match held with NoLocks => NoLocks | _ => Unlocked end.

Definition open : M Host unit :=
  let! _ := create_private_dir in
  let! _ := syscall (λ _ files, if decide (is_Some (files !! LOCK_FILE)) then files
                                else <[LOCK_FILE := []]> files) in
  let! _ := try_lock in
  λ h, match recover_transaction h with
       | (Ok _, h) => (Ok tt, h)
       | (Err e, h) =>
           (Err e, mkHost (files h) (unlocked (lock h)) (unreadable h) (alive h) (script h))
       end.

(** The journalled application of a batch, the common end of [apply_batch] and
    of [FileTransaction::commit]. *)
Definition commit_batch (mutations : list StorageMutation) : M Host unit :=
  let plaintext := wire.encode mutations in
  let! journal := encrypt JOURNAL_AAD plaintext in
  let! _ := atomic_write JOURNAL_FILE journal in
  let! _ := apply mutations in
  finish_transaction.

Definition get (key : bytes) (h : Host) : result error (option bytes) :=
  let? _ := ensure_ready h in
  let? found := fs_read (path key) h in
  match found with
  | None => Ok None
  | Some blob => let? plaintext := decrypt key blob in Ok (Some plaintext)
  end.

Definition put (key value : bytes) : M Host unit :=
  let! _ := readM ensure_ready in put_raw key value.

Definition delete_ (key : bytes) : M Host unit :=
  let! _ := readM ensure_ready in delete_raw key.

Definition apply_batch (mutations : list StorageMutation) : M Host unit :=
  let! _ := readM ensure_ready in
  match mutations with
  | [] => retM tt
  | _ => commit_batch mutations
  end.
End Methods.

(** [struct FileStore]: the key, and the host its directory is on. *)
Record FileStore : Type := mkFileStore { fs_key : arr 32; fs_host : Host }.

Definition on_key {A} (m : arr 32 → M Host A) : M FileStore A :=
  λ s, let '(r, h) := m (fs_key s) (fs_host s) in (r, mkFileStore (fs_key s) h).

#[export] Instance filestore_storage : Storage FileStore := {|
  st_get key s := get (fs_key s) key (fs_host s);
  st_put key value := on_key (λ self, put self key value);
  st_delete key := on_key (λ _, delete_ key);
  st_apply_batch mutations := on_key (λ self, apply_batch self mutations)
|}.

(** ** [FileTransaction]: an overlay of staged changes *)
Record FileTransaction : Type := mkTransaction { ft_store : FileStore; ft_changes : Changes }.

Definition transaction (self : FileStore) : FileTransaction := mkTransaction self ∅.

Definition stage (changes : Changes) (mutation : StorageMutation) : Changes :=
  match mutation with
  | Put key value => <[key := Some value]> changes
  | Delete key => <[key := None]> changes
  end.

(** The order in which the [BTreeMap] is iterated. *)
Definition change_le (a c : bytes * option bytes) : Prop := Is_true (bytes_leb a.1 c.1).
#[global] Instance change_le_dec : RelDecision change_le.
Proof. intros a c. unfold change_le. apply _. Defined.

Definition staged (changes : Changes) : list StorageMutation :=
  map (λ '(key, value), match value with Some value => Put key value | None => Delete key end)
    (merge_sort change_le (map_to_list changes)).

(** [commit] consumes the transaction; the store it borrowed is left. *)
Definition commit (self : FileTransaction) : result error unit * FileStore :=
  on_key (λ key,
    let! _ := readM ensure_ready in
    match staged (ft_changes self) with
    | [] => retM tt
    | mutations => commit_batch key mutations
    end) (ft_store self).

Definition tx_get (key : bytes) (t : FileTransaction) : result error (option bytes) :=
  match ft_changes t !! key with
  | Some value => Ok value
  | None => st_get key (ft_store t)
  end.
Definition tx_put (key value : bytes) : M FileTransaction unit :=
  λ t, (Ok tt, mkTransaction (ft_store t) (stage (ft_changes t) (Put key value))).
Definition tx_delete (key : bytes) : M FileTransaction unit :=
  λ t, (Ok tt, mkTransaction (ft_store t) (stage (ft_changes t) (Delete key))).
Definition tx_apply_batch (mutations : list StorageMutation) : M FileTransaction unit :=
  λ t, (Ok tt, mkTransaction (ft_store t) (fold_left stage mutations (ft_changes t))).

#[export] Instance transaction_storage : Storage FileTransaction := {|
  st_get := tx_get; st_put := tx_put; st_delete := tx_delete; st_apply_batch := tx_apply_batch
|}.
End FileStore.
