(* ===== verification/FileStoreProps.v ===== *)
(** * FileStoreProps: the file store is a map, through any crash

    A small logic for programs that may fail or crash at any system call; with
    it, that the directory always represents one map of keys to values, that
    every operation and every recovery moves it from one whole map to another,
    and so that the store is a lawful [Storage]. *)

From S2P Require Import Prelude Crypto Wire UserId Storage FileStore Instances.

(** ** Programs that may crash

    [triple I m Q C]: from files satisfying [I], a run of [m] that succeeds
    leaves files satisfying [Q]; one that fails, or in which the process dies,
    reports an error of the store and leaves files satisfying [C]. *)
Definition is_io (e : error) : Prop := match e with StorageError _ => True | Anyhow _ => False end.

Definition triple {A} (I : Mem → Prop) (m : M Host A) (Q : A → Mem → Prop) (C : Mem → Prop) : Prop :=
  ∀ h, I (files h) →
    match m h with (Ok a, h') => Q a (files h') | (Err e, h') => is_io e ∧ C (files h') end.

Section Logic.
Implicit Types I C : Mem → Prop.

Lemma triple_ret {A} I (a : A) Q C : (∀ f, I f → Q a f) → triple I (retM a) Q C.
Proof. intros HQ h HI. by apply HQ. Qed.

Lemma triple_err {A} I e (Q : A → Mem → Prop) : is_io e → triple I (errM e) Q I.
Proof. by intros He h HI. Qed.

Lemma triple_bind {A B} I (m : M Host A) (k : A → M Host B) R Q C :
  triple I m R C → (∀ a, triple (R a) (k a) Q C) → triple I (bindM m k) Q C.
Proof.
  intros Hm Hk h HI. unfold bindM. specialize (Hm h HI). destruct (m h) as [[a|e] h1]; [|done].
  by apply Hk.
Qed.

Lemma triple_consequence {A} I I' (m : M Host A) Q Q' C C' :
  triple I' m Q' C' → (∀ f, I f → I' f) → (∀ a f, Q' a f → Q a f) → (∀ f, C' f → C f) →
  triple I m Q C.
Proof.
  intros Hm HI HQ HC h H. specialize (Hm h (HI _ H)). destruct (m h) as [[a|e] h1]; [auto|].
  destruct Hm. auto.
Qed.

Lemma triple_pure {A} (P : Prop) I (m : M Host A) Q C :
  (P → triple I m Q C) → triple (λ f, P ∧ I f) m Q C.
Proof. intros H h [HP HI]. by apply H. Qed.

Lemma triple_syscall I effect (Q : Mem → Prop) C :
  (∀ f, I f → C f) → (∀ st f, I f → fault st = Fine → Q (effect st f)) →
  (∀ st f, I f → C (effect st f)) → triple I (syscall effect) (λ _, Q) C.
Proof.
  intros HC HQ HE h HI. unfold syscall. destruct (negb (alive h)); [split; [done|by apply HC]|].
  destruct (fault (next_step h)) eqn:Hf; cbn [files]; auto; split; simpl; auto.
Qed.

Lemma triple_no_effect I C : (∀ f, I f → C f) → triple I (syscall no_effect) (λ _, I) C.
Proof. intros HC. by apply triple_syscall. Qed.

(** [let _ = m]: whatever happened, the files satisfy [C]. *)
Lemma triple_try {A} I (m : M Host A) Q C :
  triple I m Q C →
  triple I (tryM m) (λ r f, match r with Ok a => Q a f | Err e => is_io e ∧ C f end) (λ _, False).
Proof.
  intros Hm h HI. unfold tryM. specialize (Hm h HI). by destruct (m h) as [[a|e] h1].
Qed.

Lemma triple_getrandom I n : triple I (getrandom n) (λ _, I) I.
Proof.
  intros h HI. unfold getrandom.
  apply (triple_bind I _ _ (λ _, I) (λ _, I) I); [by apply triple_no_effect| |done].
  intros _. by apply triple_ret.
Qed.

Lemma triple_remove I name (Q C : Mem → Prop) :
  (∀ f, I f → C f) → (∀ f, I f → Q (delete name f)) → (∀ f, I f → C (delete name f)) →
  triple I (remove_file name) (λ _, Q) C.
Proof.
  intros HC HQ HE h HI. unfold remove_file.
  apply (triple_bind I _ _ (λ _, Q) (λ _, Q) C); [apply triple_syscall; auto| |done].
  intros _. by apply triple_ret.
Qed.
End Logic.

(** ** File names: the journal and the entries are told apart from the rest *)
Definition visible (name : bytes) : Prop := name = JOURNAL_FILE ∨ head name ≠ Some "."%char.
Definition same (f f' : Mem) : Prop := ∀ name, visible name → f' !! name = f !! name.

#[export] Instance same_equiv : Equivalence same.
Proof.
  split; [done| |].
  - intros f f' H name Hn. by rewrite H.
  - intros f f' f'' H H' name Hn. by rewrite H', H.
Qed.

Lemma path_inj key key' : path key = path key' → key = key'.
Proof. apply hex_inj. Qed.

Lemma path_lower key : forallb UserId.is_lower_hex (path key) = true.
Proof. apply UserId.hex_lower. Qed.

Lemma path_not_dotted key rest : path key ≠ "."%char :: rest.
Proof. intros H. pose proof (path_lower key) as Hl. rewrite H in Hl. discriminate Hl. Qed.

Lemma path_not_journal key : path key ≠ JOURNAL_FILE.
Proof. apply path_not_dotted. Qed.

Lemma visible_path key : visible (path key).
Proof.
  right. intros H. destruct (path key) as [|c rest] eqn:E; [done|]. injection H as ->.
  by apply path_not_dotted in E.
Qed.

Lemma hidden_temp name nonce : ¬ visible (temp_name name nonce).
Proof.
  intros [H|H]; [|by apply H].
  apply (f_equal (λ l, head (rev l))) in H. unfold temp_name in H.
  rewrite !rev_app_distr in H. discriminate H.
Qed.

Lemma hidden_lock : ¬ visible LOCK_FILE.
Proof. intros [H|H]; [discriminate H|by apply H]. Qed.

Lemma same_hidden f f' name v : ¬ visible name → same f f' → same f (<[name := v]> f').
Proof.
  intros Hn H n Hv. rewrite lookup_insert_ne; [by apply H|]. by intros ->.
Qed.
Lemma same_hidden_delete f f' name : ¬ visible name → same f f' → same f (delete name f').
Proof. intros Hn H n Hv. rewrite lookup_delete_ne; [by apply H|]. by intros ->. Qed.
Lemma same_insert f f' name v : same f f' → same (<[name := v]> f) (<[name := v]> f').
Proof.
  intros H n Hv. destruct (decide (n = name)) as [->|Hne]; [by rewrite !lookup_insert_eq|].
  rewrite !lookup_insert_ne by done. by apply H.
Qed.
Lemma same_delete f f' name : same f f' → same (delete name f) (delete name f').
Proof.
  intros H n Hv. destruct (decide (n = name)) as [->|Hne]; [by rewrite !lookup_delete_eq|].
  rewrite !lookup_delete_ne by done. by apply H.
Qed.

(** ** [atomic_write] replaces the file or leaves it *)
Section Write.
Context (f0 : Mem) (name content : bytes).
Let Before f := same f0 f.
Let After f := same (<[name := content]> f0) f.

Lemma triple_replace temp :
  ¬ visible temp →
  triple Before (replace_file temp name content) (λ _, After) (λ f, Before f ∨ After f).
Proof.
  intros Ht. set (C := λ f, Before f ∨ After f). unfold replace_file.
  set (Full := λ f : Mem, Before f ∧ f !! temp = Some content).
  assert (∀ f, Before f → C f) as HB by (by left).
  apply (triple_bind _ _ _ (λ _, Before)).
  { intros h HI. unfold create_new. destruct (exists_ temp h); [split; [done|by apply HB]|].
    revert h HI. apply triple_syscall; [done|..]; intros; [|apply HB]; by apply same_hidden. }
  intros _. apply (triple_bind _ _ _ (λ _, Full)).
  { apply triple_syscall; [done|..]; intros st f Hf.
    - intros Hfine. rewrite Hfine. split; [by apply same_hidden|by rewrite lookup_insert_eq].
    - apply HB. by apply same_hidden. }
  intros _. apply (triple_bind _ _ _ (λ _, Full)).
  { apply triple_no_effect. intros f [Hf _]. by apply HB. }
  intros _. apply (triple_bind _ _ _ (λ _, After)).
  { intros h [Hf Hc]. unfold rename. rewrite Hc. revert h Hf Hc.
    assert (triple Full (syscall (λ _ files, <[name := content]> (delete temp files))) (λ _, After) C)
      as Hs.
    { apply triple_syscall.
      - intros f [Hf _]. by left.
      - intros st f [Hf _] _. by apply same_insert, same_hidden_delete.
      - intros st f [Hf _]. right. by apply same_insert, same_hidden_delete. }
    intros h Hf Hc. by apply Hs. }
  intros _. apply triple_no_effect. by right.
Qed.

Lemma triple_atomic_write :
  triple Before (atomic_write name content) (λ _, After) (λ f, Before f ∨ After f).
Proof.
  set (C := λ f, Before f ∨ After f). unfold atomic_write.
  apply (triple_bind _ _ _ (λ _, Before)); [apply triple_no_effect; by left|]. intros _.
  apply (triple_bind _ _ _ (λ _, Before)).
  { eapply triple_consequence; [apply triple_getrandom|done|done|by left]. }
  intros nonce. cbv zeta. set (temp := temp_name name nonce).
  assert (¬ visible temp) as Ht by apply hidden_temp.
  eapply triple_bind.
  { eapply triple_consequence; [apply triple_try, (triple_replace temp Ht)|done|done|done]. }
  intros [[]|e]; cbv beta iota; fold C.
  { by apply triple_ret. }
  apply triple_pure. intros He.
  assert (∀ f, C f → C (delete temp f)) as Hdel
    by (intros f [H|H]; [left|right]; by apply same_hidden_delete).
  apply (triple_bind _ _ _ (λ _, C)).
  { eapply triple_consequence; [apply triple_try, (triple_remove C temp C C); auto|done| |done].
    by intros [|] f; [|intros []]. }
  intros r. by apply triple_err.
Qed.
End Write.

(** ** What a directory represents *)
Section Represents.
Context {crypto : Crypto} {laws : CryptoLaws} `{!Postcard (list StorageMutation)}.
Context (self : arr 32).

(** The entries: one readable file per key, none for the keys without a value. *)
Definition holds (f : Mem) (m : Mem) : Prop :=
  ∀ key, match f !! path key with
         | None => m !! key = None
         | Some blob => ∃ value, decrypt self key blob = Ok value ∧ m !! key = Some value
         end.

Definition replay (mutations : list StorageMutation) (m : Mem) : Mem :=
  fold_left apply_mutation mutations m.

(** The whole directory: a journal that is present counts as applied. *)
Definition represents (f : Mem) (m : Mem) : Prop :=
  match f !! JOURNAL_FILE with
  | None => holds f m
  | Some blob => ∃ mutations base, decode_journal self blob = Ok mutations ∧ holds f base ∧
                                   m = replay mutations base
  end.

Lemma holds_functional f m m' : holds f m → holds f m' → m = m'.
Proof.
  intros H H'. apply map_eq. intros key. specialize (H key). specialize (H' key).
  destruct (f !! path key); [|by rewrite H, H'].
  destruct H as (v & Hd & ->), H' as (v' & Hd' & ->). congruence.
Qed.

Lemma represents_functional f m m' : represents f m → represents f m' → m = m'.
Proof.
  unfold represents. destruct (f !! JOURNAL_FILE) as [blob|]; [|apply holds_functional].
  intros (l & b & Hl & Hb & ->) (l' & b' & Hl' & Hb' & ->).
  rewrite Hl in Hl'. injection Hl' as <-. by rewrite (holds_functional _ _ _ Hb Hb').
Qed.

Lemma holds_same f f' m : same f f' → holds f m → holds f' m.
Proof. intros H Hm key. rewrite (H (path key)) by apply visible_path. apply Hm. Qed.

Lemma represents_same f f' m : same f f' → represents f m → represents f' m.
Proof.
  intros H. unfold represents. rewrite (H JOURNAL_FILE) by by left.
  destruct (f !! JOURNAL_FILE) as [blob|]; [|by apply holds_same].
  intros (l & b & Hl & Hb & ->). exists l, b. split_and!; [done| |done]. by eapply holds_same.
Qed.

Lemma decrypt_encrypt aad (nonce : arr 12) value :
  decrypt self aad (arr_bytes nonce ++ chacha_encrypt self nonce value aad) = Ok value.
Proof.
  unfold decrypt. rewrite length_app, arr_length. cbn [Nat.ltb Nat.leb Nat.add].
  rewrite take_app_length', drop_app_length' by (symmetry; apply arr_length).
  by rewrite arr_fit_arr, chacha_correct.
Qed.

(** ** One mutation *)
Definition apply_one (mutation : StorageMutation) : M Host unit :=
  match mutation with Put key value => put_raw self key value | Delete key => delete_raw key end.

Lemma holds_put f f' m key value blob :
  decrypt self key blob = Ok value → same (<[path key := blob]> f) f' → holds f m →
  holds f' (<[key := value]> m).
Proof.
  intros Hb Hs Hm. apply (holds_same _ _ _ Hs). intros k.
  destruct (decide (k = key)) as [->|Hne]; [rewrite !lookup_insert_eq; by exists value|].
  rewrite !lookup_insert_ne; [apply Hm|done|]. by intros ?%path_inj.
Qed.

Lemma holds_delete f f' m key :
  same (delete (path key) f) f' → holds f m → holds f' (delete key m).
Proof.
  intros Hs Hm. apply (holds_same _ _ _ Hs). intros k.
  destruct (decide (k = key)) as [->|Hne]; [by rewrite !lookup_delete_eq|].
  rewrite !lookup_delete_ne; [apply Hm|done|]. by intros ?%path_inj.
Qed.

Lemma triple_encrypt I aad value :
  triple I (encrypt self aad value) (λ blob f, I f ∧ decrypt self aad blob = Ok value) I.
Proof.
  unfold encrypt. apply (triple_bind _ _ _ (λ _, I)); [apply triple_getrandom|]. intros nonce.
  apply triple_ret. intros f Hf. split; [done|]. apply decrypt_encrypt.
Qed.

(** The entries are [m], the journal is [j]. *)
Definition entries (j : option bytes) (m f : Mem) : Prop := holds f m ∧ f !! JOURNAL_FILE = j.

Lemma entries_put j f0 f m key value blob :
  entries j m f0 → decrypt self key blob = Ok value → same (<[path key := blob]> f0) f →
  entries j (<[key := value]> m) f.
Proof.
  intros [Hm Hj] Hb Hs. split; [by eapply holds_put|].
  rewrite (Hs JOURNAL_FILE) by by left. rewrite lookup_insert_ne; [done|]. apply path_not_journal.
Qed.

Lemma entries_same j f0 f m : entries j m f0 → same f0 f → entries j m f.
Proof.
  intros [Hm Hj] Hs. split; [by eapply holds_same|]. by rewrite (Hs JOURNAL_FILE) by by left.
Qed.

Lemma triple_put j m key value :
  triple (entries j m) (put_raw self key value) (λ _, entries j (<[key := value]> m))
    (λ f, entries j m f ∨ entries j (<[key := value]> m) f).
Proof.
  unfold put_raw. eapply triple_bind.
  { eapply triple_consequence; [apply triple_encrypt|done|done|by left]. }
  intros blob h [Hf Hb]. cbv beta in Hf, Hb.
  pose proof (triple_atomic_write (files h) (path key) blob h (reflexivity _)) as H.
  destruct (atomic_write (path key) blob h) as [[[]|e] h'].
  - by eapply entries_put.
  - destruct H as [He [H|H]]; (split; [done|]);
      [left; by eapply entries_same|right; by eapply entries_put].
Qed.

Lemma triple_delete j m key :
  triple (entries j m) (delete_raw key) (λ _, entries j (delete key m))
    (λ f, entries j m f ∨ entries j (delete key m) f).
Proof.
  assert (∀ f, entries j m f → entries j (delete key m) (delete (path key) f)) as Hd.
  { intros f [Hm Hj]. split; [by eapply holds_delete|].
    rewrite lookup_delete_ne; [done|]. apply path_not_journal. }
  unfold delete_raw. apply (triple_bind _ _ _ (λ _, entries j (delete key m))).
  { apply (triple_remove (entries j m) (path key) (entries j (delete key m))); auto. }
  intros r. by apply triple_ret.
Qed.

Lemma triple_apply_one j m mutation :
  triple (entries j m) (apply_one mutation) (λ _, entries j (apply_mutation m mutation))
    (λ f, entries j m f ∨ entries j (apply_mutation m mutation) f).
Proof. destruct mutation; [apply triple_put|apply triple_delete]. Qed.

(** ** A list of mutations, and its replay *)
Lemma triple_apply j m mutations :
  triple (entries j m) (apply self mutations) (λ _, entries j (replay mutations m))
    (λ f, ∃ l l', mutations = l ++ l' ∧ entries j (replay l m) f).
Proof.
  revert m. induction mutations as [|u rest IH]; intros m; cbn [apply].
  { by apply triple_ret. }
  eapply triple_bind.
  { change (match u with Put key value => put_raw self key value | Delete key => delete_raw key end)
      with (apply_one u).
    eapply triple_consequence; [apply triple_apply_one|done|done|].
    intros f [H|H]; [by exists [], (u :: rest)|by exists [u], rest]. }
  intros []. eapply triple_consequence; [apply IH|done|done|].
  intros f (l & l' & -> & H). by exists (u :: l), l'.
Qed.

Lemma lookup_replay mutations (m : Mem) key :
  replay mutations m !! key =
  fold_left (λ v u, match u with
                    | Put k value => if decide (k = key) then Some value else v
                    | Delete k => if decide (k = key) then None else v
                    end) mutations (m !! key).
Proof.
  unfold replay. revert m. induction mutations as [|u rest IH]; intros m; [done|]. cbn [fold_left].
  rewrite IH. f_equal. destruct u as [k v|k]; cbn [apply_mutation]; destruct (decide (k = key)) as [->|H].
  - by rewrite lookup_insert_eq.
  - by rewrite lookup_insert_ne.
  - by rewrite lookup_delete_eq.
  - by rewrite lookup_delete_ne.
Qed.

(** Replaying a list from the start, after a part of it was applied, ends where
    the whole list ends. *)
Lemma replay_resumes l l' (m : Mem) : replay (l ++ l') (replay l m) = replay (l ++ l') m.
Proof.
  apply map_eq. intros key. rewrite !lookup_replay, !fold_left_app. f_equal.
  generalize (m !! key). intros v.
  set (step := λ (v : option bytes) u, match u with
               | Put k value => if decide (k = key) then Some value else v
               | Delete k => if decide (k = key) then None else v end).
  assert (∀ l v, (fold_left step l v = v ∧ ∀ w, fold_left step l w = w) ∨
                 ∃ c, ∀ w, fold_left step l w = c) as H.
  { clear. induction l as [|u l IH]; intros v; [by left|]. cbn [fold_left].
    destruct (IH (step v u)) as [[_ H]|[c H]]; [|right; by exists c].
    destruct u as [k x|k]; cbn [step]; destruct (decide (k = key)).
    - right. exists (Some x). intros w. by rewrite H.
    - left. split; [by rewrite H|]. intros w. by rewrite H.
    - right. exists None. intros w. by rewrite H.
    - left. split; [by rewrite H|]. intros w. by rewrite H. }
  destruct (H l v) as [[_ Hid]|[c Hc]]; [by rewrite !Hid|by rewrite !Hc].
Qed.

(** Applying a journal that is present never changes what is represented. *)
Lemma journal_represents blob mutations m f l l' :
  decode_journal self blob = Ok mutations → mutations = l ++ l' →
  entries (Some blob) (replay l m) f → represents f (replay mutations m).
Proof.
  intros Hd -> [Hf Hj]. unfold represents. rewrite Hj. exists (l ++ l'), (replay l m).
  split_and!; [done|done|]. by rewrite replay_resumes.
Qed.

Lemma entries_represents m f : entries None m f → represents f m.
Proof. intros [Hf Hj]. unfold represents. by rewrite Hj. Qed.

Lemma represents_entries m f : represents f m → f !! JOURNAL_FILE = None → entries None m f.
Proof. unfold represents. intros H Hj. rewrite Hj in H. by split. Qed.

Lemma delete_journal j m f : entries j m f → entries None m (delete JOURNAL_FILE f).
Proof.
  intros [Hf _]. split; [|by rewrite lookup_delete_eq]. intros key.
  rewrite lookup_delete_ne; [apply Hf|]. intros H. by apply (path_not_journal key).
Qed.

(** ** Whole operations *)
Lemma decode_journal_encode blob mutations :
  decrypt self JOURNAL_AAD blob = Ok (wire.encode mutations) →
  decode_journal self blob = Ok mutations.
Proof. intros H. unfold decode_journal. rewrite H. cbn [bind_result]. by rewrite wire.decode_encode. Qed.

Lemma triple_finish j m :
  triple (entries j m) finish_transaction (λ _, entries None m)
    (λ f, entries j m f ∨ entries None m f).
Proof.
  unfold finish_transaction. apply (triple_bind _ _ _ (λ _, entries None m)).
  { apply triple_remove; [by left|apply delete_journal|].
    intros f H. right. by eapply delete_journal. }
  intros [|]; [|by apply triple_ret]. apply triple_no_effect. by right.
Qed.

(** From a journal on disk to its end. *)
Lemma triple_roll_forward blob mutations m :
  decode_journal self blob = Ok mutations →
  triple (entries (Some blob) m) (let! _ := apply self mutations in finish_transaction)
    (λ _, entries None (replay mutations m)) (λ f, represents f (replay mutations m)).
Proof.
  intros Hd. apply (triple_bind _ _ _ (λ _, entries (Some blob) (replay mutations m))).
  - eapply triple_consequence; [apply triple_apply|done|done|].
    intros f (l & l' & Hl & Hf). by eapply journal_represents.
  - intros []. eapply triple_consequence; [apply triple_finish|done|done|].
    intros f [H|H]; [|by apply entries_represents].
    eapply (journal_represents _ _ _ _ mutations []); [done|by rewrite app_nil_r|done].
Qed.

Lemma triple_commit_batch m mutations :
  triple (entries None m) (commit_batch self mutations) (λ _, entries None (replay mutations m))
    (λ f, represents f m ∨ represents f (replay mutations m)).
Proof.
  unfold commit_batch. cbv zeta. eapply triple_bind.
  { eapply triple_consequence; [apply triple_encrypt|done|done|].
    intros f H. left. by apply entries_represents. }
  intros blob h [Hf Hb]. cbv beta in Hf, Hb. apply decode_journal_encode in Hb.
  assert (∀ f, same (<[JOURNAL_FILE := blob]> (files h)) f → entries (Some blob) m f) as Hafter.
  { intros f Hs. split; [|by rewrite (Hs JOURNAL_FILE), lookup_insert_eq by by left].
    apply (holds_same _ _ _ Hs). intros key. destruct Hf as [Hm _].
    rewrite lookup_insert_ne; [apply Hm|]. intros H. by apply (path_not_journal key). }
  revert h Hf Hafter. intros h Hf Hafter.
  pose proof (triple_atomic_write (files h) JOURNAL_FILE blob h (reflexivity _)) as H.
  unfold bindM at 1. destruct (atomic_write JOURNAL_FILE blob h) as [[[]|e] h'].
  - apply Hafter in H.
    pose proof (triple_roll_forward blob mutations m Hb h' H) as Hr.
    destruct ((let! _ := apply self mutations in finish_transaction) h') as [[u|e] h'']; [done|].
    destruct Hr as [He Hr]. split; [done|]. by right.
  - destruct H as [He [H|H]]; (split; [done|]).
    + left. by apply entries_represents, (entries_same _ _ _ _ Hf H).
    + right. eapply (journal_represents _ _ _ _ [] mutations); [done|done|]. by apply Hafter.
Qed.

Lemma fs_read_Ok name h v : fs_read name h = Ok v → v = files h !! name.
Proof. unfold fs_read. destruct (alive h && _); [by intros [= ->]|done]. Qed.

Lemma decode_journal_io blob e : decode_journal self blob = Err e → is_io e.
Proof.
  unfold decode_journal, decrypt. destruct (length blob <? 12)%nat; [by intros [= <-]|].
  destruct (chacha_decrypt _ _ _ _); simpl; [|by intros [= <-]].
  destruct (wire.decode _); simpl; [done|by intros [= <-]].
Qed.

(** Recovery never changes what the directory represents. *)
Lemma triple_recover m :
  triple (λ f, represents f m) (recover_transaction self) (λ _, entries None m)
    (λ f, represents f m).
Proof.
  intros h Hm. unfold recover_transaction, bindM at 1, readM.
  destruct (fs_read JOURNAL_FILE h) as [found|e] eqn:Hr.
  2: { unfold fs_read in Hr. destruct (alive h && _); [done|]. by injection Hr as <-. }
  apply fs_read_Ok in Hr. unfold represents in Hm. rewrite <-Hr in Hm.
  destruct found as [blob|]; [|by split].
  destruct Hm as (mutations & base & Hd & Hb & ->).
  unfold bindM at 1, liftM. rewrite Hd.
  apply (triple_roll_forward blob mutations base Hd). by split.
Qed.

Lemma triple_open m :
  triple (λ f, represents f m) (open self) (λ _, entries None m) (λ f, represents f m).
Proof.
  unfold open. apply (triple_bind _ _ _ (λ _ f, represents f m)); [by apply triple_no_effect|].
  assert (∀ f, represents f m →
    represents (if decide (is_Some (f !! LOCK_FILE)) then f else <[LOCK_FILE := []]> f) m) as Hlock.
  { intros f H. destruct (decide _); [done|].
    eapply represents_same; [|exact H]. by apply (same_hidden _ _ _ _ hidden_lock). }
  intros []. apply (triple_bind _ _ _ (λ _ f, represents f m)).
  { apply triple_syscall; auto. }
  intros []. apply (triple_bind _ _ _ (λ _ f, represents f m)).
  { intros h Hm. unfold try_lock. destruct (lock h); [|done|
      exact (triple_no_effect (λ f, represents f m) _ (λ f H, H) h Hm)].
    apply (triple_bind (λ f, represents f m) _ _ (λ _ f, represents f m) (λ _ f, represents f m)
             (λ f, represents f m)); [by apply triple_no_effect|by intros [] h1 H1|done]. }
  intros [] h Hm. pose proof (triple_recover m h Hm) as H.
  by destruct (recover_transaction self h) as [[u|e] h'].
Qed.
End Represents.

(** ** The map a directory represents, as a function *)
Definition unhex_digit (c : ascii) : N :=
  if (byte_val c <? 58)%N then byte_val c - 48 else byte_val c - 87.
Fixpoint unhex (name : bytes) : bytes :=
  match name with
  | hi :: lo :: rest => ascii_of_N (16 * unhex_digit hi + unhex_digit lo) :: unhex rest
  | _ => []
  end.

Lemma unhex_digit_hex n : (n < 16)%N → unhex_digit (hex_digit n) = n.
Proof.
  intros Hn. unfold unhex_digit, hex_digit.
  destruct (N.ltb_spec n 10); rewrite byte_val_of by lia.
  - destruct (N.ltb_spec (48 + n) 58); lia.
  - destruct (N.ltb_spec (87 + n) 58); lia.
Qed.

Lemma unhex_hex key : unhex (hex key) = key.
Proof.
  induction key as [|c key IH]; [done|]. cbn [hex unhex].
  destruct (hex_nibbles c) as (H1 & H2 & H3). rewrite !unhex_digit_hex by done.
  rewrite <-H3, IH. f_equal. apply ascii_N_embedding.
Qed.

Lemma unhex_path key : unhex (path key) = key.
Proof. apply unhex_hex. Qed.

Section View.
Context {crypto : Crypto} `{!Postcard (list StorageMutation)}.
Context (self : arr 32).

Definition entry (file : bytes * bytes) : option (bytes * bytes) :=
  let key := unhex file.1 in
  if decide (path key = file.1)
  then match decrypt self key file.2 with Ok value => Some (key, value) | Err _ => None end
  else None.

Lemma entry_Some file key value :
  entry file = Some (key, value) ↔ file.1 = path key ∧ decrypt self key file.2 = Ok value.
Proof.
  unfold entry. destruct (decide _) as [H|H]; split.
  - destruct (decrypt _ _ _) eqn:Hd; [|done]. intros [= <- <-]. by split.
  - intros [Hp Hd]. by rewrite Hp, unhex_path, Hd.
  - done.
  - intros [Hp _]. destruct H. by rewrite Hp, unhex_path.
Qed.

Definition committed (f : Mem) : Mem := list_to_map (omap entry (map_to_list f)).

Lemma entries_nodup (l : list (bytes * bytes)) : NoDup l.*1 → NoDup (omap entry l).*1.
Proof.
  induction l as [|file l IH]; intros Hl; simpl; [constructor|].
  apply list.NoDup_cons in Hl as [Hfile Hl]. destruct (entry file) as [[key value]|] eqn:He; [|auto].
  constructor; [|auto].
  intros ([key' value'] & Heq & ([n b] & Hin & H)%list_elem_of_omap)%list_elem_of_fmap.
  simpl in Heq. subst key'.
  apply entry_Some in He as [He _]. apply entry_Some in H as [H _]. simpl in H. apply Hfile.
  rewrite He. apply list_elem_of_fmap. exists (n, b). by split.
Qed.

Lemma lookup_committed f key value :
  committed f !! key = Some value ↔
  ∃ blob, f !! path key = Some blob ∧ decrypt self key blob = Ok value.
Proof.
  unfold committed. rewrite <-elem_of_list_to_map by apply entries_nodup, NoDup_fst_map_to_list.
  rewrite list_elem_of_omap. split.
  - intros ([n b] & Hin%elem_of_map_to_list & [Hn Hd]%entry_Some). simpl in *. subst n. by exists b.
  - intros (b & Hb & Hd). exists (path key, b). by rewrite elem_of_map_to_list, entry_Some.
Qed.

Lemma committed_holds f m : holds self f m → committed f = m.
Proof.
  intros H. apply map_eq. intros key. specialize (H key).
  destruct (committed f !! key) as [v|] eqn:Hv.
  - apply lookup_committed in Hv as (b & Hb & Hd). rewrite Hb in H.
    destruct H as (v' & Hd' & ->). congruence.
  - destruct (f !! path key) as [b|] eqn:Hb; [|done]. destruct H as (v' & Hd' & Hm).
    assert (committed f !! key = Some v') by (apply lookup_committed; eauto). congruence.
Qed.

Definition view (f : Mem) : Mem :=
  match f !! JOURNAL_FILE with
  | None => committed f
  | Some blob => replay (match decode_journal self blob with Ok l => l | Err _ => [] end) (committed f)
  end.

Lemma view_represents f m : represents self f m → view f = m.
Proof.
  unfold represents, view. destruct (f !! JOURNAL_FILE) as [blob|]; [|apply committed_holds].
  intros (l & base & -> & Hb & ->). by rewrite (committed_holds _ _ Hb).
Qed.
End View.

(** ** A lawful store *)
Section Lawful.
Context {crypto : Crypto} {laws : CryptoLaws} `{!Postcard (list StorageMutation)}.

Lemma triple_ready self {A} m (k : M Host A) Q C :
  triple (entries self None m) k Q C → (∀ f, represents self f m → C f) →
  triple (λ f, represents self f m) (let! _ := readM ensure_ready in k) Q C.
Proof.
  intros Hk HC h Hm. unfold bindM, readM, ensure_ready, exists_.
  destruct (bool_decide_reflect (is_Some (files h !! JOURNAL_FILE))) as [|Hn]; [by split; [|apply HC]|].
  apply Hk, represents_entries; [done|by apply eq_None_not_Some].
Qed.

(** A mutating call: whole effect on success, whole effect or none on failure. *)
Definition atomic {A} self (m m' : Mem) (c : M Host A) : Prop :=
  triple (λ f, represents self f m) c (λ _ f, represents self f m')
    (λ f, represents self f m ∨ represents self f m').

Lemma put_atomic self m key value : atomic self m (<[key := value]> m) (put self key value).
Proof.
  apply triple_ready; [|by left].
  eapply triple_consequence; [apply triple_put|done| |].
  - intros ? f. apply entries_represents.
  - intros f [H|H]; [left|right]; by apply entries_represents.
Qed.

Lemma delete_atomic self m key : atomic self m (delete key m) (delete_ key).
Proof.
  apply triple_ready; [|by left].
  eapply triple_consequence; [apply triple_delete|done| |].
  - intros ? f. apply entries_represents.
  - intros f [H|H]; [left|right]; by apply entries_represents.
Qed.

Lemma apply_batch_atomic self m mutations :
  atomic self m (replay mutations m) (apply_batch self mutations).
Proof.
  apply triple_ready; [|by left]. destruct mutations as [|u l].
  - apply triple_ret. intros f. apply entries_represents.
  - eapply triple_consequence; [apply triple_commit_batch|done| |done].
    intros ? f. apply entries_represents.
Qed.

Lemma get_exact self key m h :
  represents self (files h) m →
  get self key h = Ok (m !! key) ∨ ∃ e, get self key h = Err e ∧ is_io e.
Proof.
  intros Hm. unfold get, ensure_ready, exists_.
  destruct (bool_decide_reflect (is_Some (files h !! JOURNAL_FILE))) as [|Hn]; simpl; [right; by eexists|].
  apply represents_entries in Hm as [Hm _]; [|by apply eq_None_not_Some]. specialize (Hm key).
  unfold fs_read. destruct (alive h && _); simpl; [|right; by eexists].
  destruct (files h !! path key) as [blob|]; [|left; by rewrite Hm].
  destruct Hm as (v & -> & ->). by left.
Qed.

Definition wf (s : FileStore) : Prop := ∃ m, represents (fs_key s) (files (fs_host s)) m.

Lemma atomic_lawful {A} (c : arr 32 → M Host A) (s : FileStore) m' :
  wf s → atomic (fs_key s) (view (fs_key s) (files (fs_host s))) m' (c (fs_key s)) →
  let '(r, s') := on_key c s in
  wf s' ∧ fs_key s' = fs_key s ∧
  ((∃ a, r = Ok a ∧ view (fs_key s') (files (fs_host s')) = m') ∨
   (∃ msg, r = Err (StorageError msg) ∧
      (view (fs_key s') (files (fs_host s')) = view (fs_key s) (files (fs_host s)) ∨
       view (fs_key s') (files (fs_host s')) = m'))).
Proof.
  intros [m Hm] Hc. rewrite (view_represents _ _ _ Hm) in *. specialize (Hc _ Hm).
  unfold on_key. destruct (c (fs_key s) (fs_host s)) as [[a|e] h']; cbn [fs_key fs_host].
  - split; [by exists m'|]. split; [done|]. left. exists a. split; [done|]. by apply view_represents.
  - destruct Hc as [He Hc]. destruct e as [|msg]; [done|]. split; [|split; [done|]].
    + destruct Hc as [H|H]; [by exists m|by exists m'].
    + right. exists msg. split; [done|]. destruct Hc as [H|H]; [left|right]; by apply view_represents.
Qed.

#[export] Instance filestore_lawful : LawfulStorage FileStore.
Proof.
  refine {| st_wf := wf; st_view s := view (fs_key s) (files (fs_host s)) |}.
  - intros s key [m Hm]. rewrite (view_represents _ _ _ Hm).
    destruct (get_exact (fs_key s) key m (fs_host s) Hm) as [H|([|msg] & H & He)];
      [by left|done|right; by exists msg].
  - intros s key value Hs. pose proof (atomic_lawful (λ self, put self key value) s _ Hs
      (put_atomic _ _ key value)) as H.
    simpl. destruct (on_key _ s) as [r s']. destruct H as (Hwf & _ & H). exists r, s'.
    split_and!; [done|done|]. destruct H as [([] & -> & H)|H]; auto.
  - intros s key Hs. pose proof (atomic_lawful (λ _, delete_ key) s _ Hs
      (delete_atomic _ _ key)) as H.
    simpl. destruct (on_key _ s) as [r s']. destruct H as (Hwf & _ & H). exists r, s'.
    split_and!; [done|done|]. destruct H as [([] & -> & H)|H]; auto.
  - intros s l Hs. pose proof (atomic_lawful (λ self, apply_batch self l) s _ Hs
      (apply_batch_atomic _ _ l)) as H.
    simpl. destruct (on_key _ s) as [r s']. destruct H as (Hwf & _ & H). exists r, s'.
    split_and!; [done|done|]. destruct H as [([] & -> & H)|H]; auto.
Defined.
End Lawful.
