(* ===== verification/Recovery.v ===== *)
(** * Recovery: histories of a file store, crashes and transactions

    Whole histories of the file store - calls, failures, crashes, reopenings -
    against a map; recovery on a host that works; transactions. *)

From S2P Require Import Prelude Crypto Wire Storage FileStore FileStoreProps Instances.

(** ** Histories *)
Inductive StoreCall : Type :=
  | CGet (key : bytes)
  | CPut (key value : bytes)
  | CDelete (key : bytes)
  | CBatch (mutations : list StorageMutation)
  | CReopen (script : list Step) (unreadable : bytes → bool).

(** A new process on the same directory. *)
Definition reboot (script : list Step) (unreadable : bytes → bool) (h : Host) : Host :=
  mkHost (files h) (unlocked (lock h)) unreadable true script.

Abbreviation Answer := (result error (option bytes)).

(** The answer of a call on the map, and the map it leaves. *)
Definition map_effect (c : StoreCall) (m : Mem) : Mem :=
  match c with
  | CGet _ | CReopen _ _ => m
  | CPut key value => <[key := value]> m
  | CDelete key => delete key m
  | CBatch mutations => replay mutations m
  end.
Definition map_answer (c : StoreCall) (m : Mem) : option bytes :=
  match c with CGet key => m !! key | _ => None end.

(** A history explained by a sequence of maps: a call that succeeds does exactly
    what it does on the map; one that fails has done so or nothing. *)
Inductive explains : list (StoreCall * Answer) → Mem → Mem → Prop :=
  | explains_nil m : explains [] m m
  | explains_ok c rest m m' :
      explains rest (map_effect c m) m' → explains ((c, Ok (map_answer c m)) :: rest) m m'
  | explains_failed c e rest m m1 m' :
      m1 = m ∨ m1 = map_effect c m → explains rest m1 m' → explains ((c, Err e) :: rest) m m'.

Section Recovery.
Context {crypto : Crypto} {laws : CryptoLaws} `{!Postcard (list StorageMutation)}.

Definition answer {A} (r : result error A) : Answer :=
  match r with Ok _ => Ok None | Err e => Err e end.

Definition run_call (c : StoreCall) (s : FileStore) : Answer * FileStore :=
  match c with
  | CGet key => (st_get key s, s)
  | CPut key value => let '(r, s) := st_put key value s in (answer r, s)
  | CDelete key => let '(r, s) := st_delete key s in (answer r, s)
  | CBatch mutations => let '(r, s) := st_apply_batch mutations s in (answer r, s)
  | CReopen script unreadable =>
      let '(r, h) := open (fs_key s) (reboot script unreadable (fs_host s)) in
      (answer r, mkFileStore (fs_key s) h)
  end.

Fixpoint run_calls (calls : list StoreCall) (s : FileStore) : list (StoreCall * Answer) * FileStore :=
  match calls with
  | [] => ([], s)
  | c :: rest =>
      let '(r, s) := run_call c s in
      let '(history, s) := run_calls rest s in
      ((c, r) :: history, s)
  end.

Definition shows (s : FileStore) (m : Mem) : Prop := represents (fs_key s) (files (fs_host s)) m.

(** One mutating call, from its triple. *)
Lemma run_atomic {A} self (c : M Host A) m m' h :
  atomic self m m' c → represents self (files h) m →
  match c h with
  | (Ok _, h') => represents self (files h') m'
  | (Err _, h') => ∃ m1, (m1 = m ∨ m1 = m') ∧ represents self (files h') m1
  end.
Proof.
  intros Hc Hm. specialize (Hc h Hm). destruct (c h) as [[a|e] h']; [done|].
  destruct Hc as [_ [H|H]]; eauto.
Qed.

Lemma run_call_step c s m :
  shows s m →
  match run_call c s with
  | (Ok v, s') => v = map_answer c m ∧ shows s' (map_effect c m)
  | (Err e, s') => ∃ m1, (m1 = m ∨ m1 = map_effect c m) ∧ shows s' m1
  end.
Proof.
  intros Hm. destruct c as [key|key value|key|l|script unreadable]; 
    cbn [run_call st_get st_put st_delete st_apply_batch filestore_storage map_answer map_effect];
    unfold on_key.
  - destruct (get_exact (fs_key s) key m (fs_host s) Hm) as [H|(e & H & _)]; rewrite H; [done|].
    exists m. by split; [left|].
  - pose proof (run_atomic _ _ _ _ _ (put_atomic (fs_key s) m key value) Hm) as H.
    destruct (put (fs_key s) key value (fs_host s)) as [[[]|e] h']; [by split|exact H].
  - pose proof (run_atomic _ _ _ _ _ (delete_atomic (fs_key s) m key) Hm) as H.
    destruct (delete_ key (fs_host s)) as [[[]|e] h']; [by split|exact H].
  - pose proof (run_atomic _ _ _ _ _ (apply_batch_atomic (fs_key s) m l) Hm) as H.
    destruct (apply_batch (fs_key s) l (fs_host s)) as [[[]|e] h']; [by split|exact H].
  - pose proof (triple_open (fs_key s) m (reboot script unreadable (fs_host s)) Hm) as H.
    destruct (open _ _) as [[[]|e] h'].
    + split; [done|]. by apply entries_represents.
    + exists m. split; [by left|]. apply H.
Qed.


(** ** Recovery on a host that works *)
Definition no_temp (f : Mem) : Prop := ∀ name, f !! temp_name name (zeros 8) = None.
Definition calm (h : Host) : Prop :=
  alive h = true ∧ script h = [] ∧ (∀ name, unreadable h name = false) ∧ no_temp (files h).

Definition succeeds {A} (m : M Host A) : Prop :=
  ∀ h, calm h → ∃ a h', m h = (Ok a, h') ∧ calm h'.

Lemma calm_syscall effect h :
  calm h → syscall effect h =
    (Ok tt, mkHost (effect quiet_step (files h)) (lock h) (unreadable h) true []).
Proof. intros (Ha & Hs & _). unfold syscall, next_step. by rewrite Ha, Hs. Qed.

Lemma succeeds_ret {A} (a : A) : succeeds (retM a).
Proof. intros h Hc. by exists a, h. Qed.

Lemma succeeds_bind {A B} (m : M Host A) (k : A → M Host B) :
  succeeds m → (∀ a, succeeds (k a)) → succeeds (bindM m k).
Proof.
  intros Hm Hk h Hc. destruct (Hm h Hc) as (a & h1 & H1 & Hc1).
  destruct (Hk a h1 Hc1) as (c & h2 & H2 & Hc2). exists c, h2. split; [|done].
  by rewrite (bindM_run _ _ _ _ _ H1).
Qed.

Lemma succeeds_syscall effect :
  (∀ f, no_temp f → no_temp (effect quiet_step f)) → succeeds (syscall effect).
Proof.
  intros He h Hc. rewrite (calm_syscall _ _ Hc). destruct Hc as (Ha & Hs & Hu & Ht).
  do 2 eexists. split; [reflexivity|]. split_and!; [done|done|done|]. by apply He.
Qed.

Lemma succeeds_no_effect : succeeds (syscall no_effect).
Proof. by apply succeeds_syscall. Qed.

Lemma no_temp_insert f name content :
  (∀ name', name ≠ temp_name name' (zeros 8)) → no_temp f → no_temp (<[name := content]> f).
Proof. intros Hn Hf n. rewrite lookup_insert_ne; [apply Hf|apply Hn]. Qed.
Lemma no_temp_delete f name : no_temp f → no_temp (delete name f).
Proof.
  intros Hf n. destruct (decide (name = temp_name n (zeros 8))) as [->|H];
    [by rewrite lookup_delete_eq|by rewrite lookup_delete_ne].
Qed.
Lemma no_temp_visible name content f : visible name → no_temp f → no_temp (<[name := content]> f).
Proof. intros Hv. apply no_temp_insert. intros n ->. by apply (hidden_temp n (zeros 8)). Qed.

Lemma succeeds_getrandom n : succeeds (getrandom n).
Proof. intros h Hc. unfold getrandom. by apply succeeds_bind; [apply succeeds_no_effect|intros; apply succeeds_ret|]. Qed.

Lemma succeeds_encrypt self aad value : succeeds (encrypt self aad value).
Proof. apply succeeds_bind; [apply succeeds_getrandom|intros; apply succeeds_ret]. Qed.

Lemma succeeds_remove name : succeeds (remove_file name).
Proof.
  intros h Hc. unfold remove_file. apply succeeds_bind; [|intros; apply succeeds_ret|done].
  apply succeeds_syscall. intros f. apply no_temp_delete.
Qed.

Lemma succeeds_atomic_write name content : visible name → succeeds (atomic_write name content).
Proof.
  intros Hv. apply succeeds_bind; [apply succeeds_no_effect|]. intros _ h Hc.
  assert (getrandom 8 h = (Ok (arr_fit 8 []), mkHost (files h) (lock h) (unreadable h) true [])) as Hr.
  { unfold getrandom. rewrite (bindM_run _ _ _ _ _ (calm_syscall no_effect h Hc)).
    destruct Hc as (_ & Hs & _). unfold next_step. by rewrite Hs. }
  rewrite (bindM_run _ _ _ _ _ Hr). cbv zeta. clear Hr. destruct Hc as (Ha & Hs & Hu & Ht).
  change (arr_bytes (arr_fit 8 [])) with (zeros 8).
  set (temp := temp_name name (zeros 8)).
  set (f2 := <[temp := content]> (<[temp := []]> (files h))).
  assert (replace_file temp name content (mkHost (files h) (lock h) (unreadable h) true []) =
    (Ok tt, mkHost (<[name := content]> (delete temp f2)) (lock h) (unreadable h) true [])) as Hw.
  { set (h0 := mkHost _ _ _ _ _). set (h1 := mkHost (<[temp := []]> (files h)) (lock h) (unreadable h) true []).
    assert (create_new temp h0 = (Ok tt, h1)) as H1.
    { unfold create_new, exists_. rewrite bool_decide_false; [done|].
      cbn [h0 files]. unfold temp. rewrite Ht. by intros []. }
    unfold replace_file. rewrite (bindM_run _ _ _ _ _ H1).
    set (h2 := mkHost f2 (lock h) (unreadable h) true []).
    rewrite (bindM_run (write_all temp content) _ h1 tt h2 eq_refl).
    rewrite (bindM_run sync_all _ h2 tt h2 eq_refl).
    assert (rename temp name h2 =
      (Ok tt, mkHost (<[name := content]> (delete temp f2)) (lock h) (unreadable h) true [])) as H2.
    { unfold rename. cbn [h2 files]. unfold f2 at 1. by rewrite lookup_insert_eq. }
    by rewrite (bindM_run _ _ _ _ _ H2). }
  unfold bindM at 1, tryM. rewrite Hw. do 2 eexists. split; [reflexivity|].
  split_and!; [done|done|done|]. cbn [files]. apply no_temp_visible; [done|].
  intros n. destruct (decide (temp = temp_name n (zeros 8))) as [->|Hne];
    [by rewrite lookup_delete_eq|]. rewrite lookup_delete_ne by done.
  unfold f2. rewrite !lookup_insert_ne by done. apply Ht.
Qed.

Lemma succeeds_apply self mutations : succeeds (apply self mutations).
Proof.
  induction mutations as [|u rest IH]; cbn [apply]; [apply succeeds_ret|].
  apply succeeds_bind; [|by intros]. destruct u as [key value|key].
  - apply succeeds_bind; [apply succeeds_encrypt|]. intros blob. apply succeeds_atomic_write.
    apply visible_path.
  - apply succeeds_bind; [apply succeeds_remove|intros; apply succeeds_ret].
Qed.

Lemma succeeds_finish : succeeds finish_transaction.
Proof.
  apply succeeds_bind; [apply succeeds_remove|].
  intros [|]; [apply succeeds_no_effect|apply succeeds_ret].
Qed.

Lemma calm_read name h : calm h → fs_read name h = Ok (files h !! name).
Proof. intros (Ha & _ & Hu & _). unfold fs_read. by rewrite Ha, Hu. Qed.

Lemma recover_succeeds self m h :
  calm h → represents self (files h) m →
  ∃ h', recover_transaction self h = (Ok tt, h') ∧ calm h'.
Proof.
  intros Hc Hm. unfold recover_transaction, bindM at 1, readM. rewrite (calm_read _ _ Hc).
  unfold represents in Hm. destruct (files h !! JOURNAL_FILE) as [blob|]; [|by exists h].
  destruct Hm as (l & base & Hd & _). unfold bindM at 1, liftM. rewrite Hd.
  destruct (succeeds_bind (apply self l) (λ _, finish_transaction) (succeeds_apply self l)
    (λ _, succeeds_finish) h Hc) as ([] & h' & H & Hc'). by exists h'.
Qed.

Lemma lock_not_temp name : LOCK_FILE ≠ temp_name name (zeros 8).
Proof.
  intros H. apply (f_equal (λ l, head (rev l))) in H. unfold temp_name in H.
  rewrite !rev_app_distr in H. discriminate H.
Qed.

Lemma open_succeeds self m h :
  calm h → lock h ≠ Locked → represents self (files h) m →
  ∃ h', open self h = (Ok tt, h') ∧ calm h' ∧ entries self None m (files h').
Proof.
  intros Hc Hl Hm. pose proof (triple_open self m h Hm) as Ht.
  cut (∃ h', open self h = (Ok tt, h') ∧ calm h').
  { intros (h' & H & Hc'). exists h'. rewrite H in Ht. by split_and!. }
  clear Ht. unfold open.
  unfold create_private_dir. rewrite (bindM_run _ _ _ _ _ (calm_syscall no_effect h Hc)).
  set (h1 := mkHost _ _ _ _ _).
  assert (calm h1) as Hc1 by (destruct Hc as (? & ? & ? & ?); done).
  rewrite (bindM_run _ _ _ _ _ (calm_syscall _ h1 Hc1)). set (h2 := mkHost _ _ _ _ _).
  assert (calm h2) as Hc2.
  { destruct Hc1 as (_ & _ & Hu & Hn). split_and!; [done|done|done|]. cbn [h2 files].
    destruct (decide _); [done|]. by apply no_temp_insert; [apply lock_not_temp|]. }
  assert (represents self (files h2) m) as Hm2.
  { cbn [h2 files h1]. destruct (decide _); [done|].
    eapply represents_same; [|exact Hm]. by apply (same_hidden _ _ _ _ hidden_lock). }
  assert (∃ h3, try_lock h2 = (Ok tt, h3) ∧ calm h3 ∧ files h3 = files h2) as (h3 & H3 & Hc3 & Hf3).
  { unfold try_lock. cbn [h2 h1 lock]. destruct (lock h); [|done|].
    - rewrite (bindM_run _ _ _ _ _ (calm_syscall no_effect h2 Hc2)). eexists.
      split; [reflexivity|]. destruct Hc2 as (? & ? & ? & ?). by split.
    - rewrite (calm_syscall no_effect h2 Hc2). eexists. split; [reflexivity|].
      destruct Hc2 as (? & ? & ? & ?). by split. }
  rewrite (bindM_run _ _ _ _ _ H3). rewrite <-Hf3 in Hm2.
  destruct (recover_succeeds self m h3 Hc3 Hm2) as (h4 & H4 & Hc4). rewrite H4. by exists h4.
Qed.

(** C21: a batch survives any crash: however [apply_batch] ended - at any system
    call - and however many attempts to reopen the store failed or crashed
    since, the next start on a working host opens the store, and then every key
    reads as before the batch or every key reads as after it; after it, if the
    call had reported success. *)
Theorem batch_survives_crash (s : FileStore) (m : Mem) (mutations : list StorageMutation)
    (attempts : list (list Step * (bytes → bool))) (Hshows : shows s m) :
  let '(r, s1) := run_call (CBatch mutations) s in
  let '(_, s2) := run_calls (map (λ a, CReopen a.1 a.2) attempts) s1 in
  no_temp (files (fs_host s2)) →
  ∃ s3 m', run_call (CReopen [] (λ _, false)) s2 = (Ok None, s3) ∧
    (m' = m ∨ m' = replay mutations m) ∧ (r = Ok None → m' = replay mutations m) ∧
    ∀ key, st_get key s3 = Ok (m' !! key).
Proof.
  pose proof (run_call_step (CBatch mutations) s m Hshows) as Hb.
  destruct (run_call (CBatch mutations) s) as [r s1].
  assert (∃ m', shows s1 m' ∧ (m' = m ∨ m' = replay mutations m) ∧
    (r = Ok None → m' = replay mutations m)) as (m' & Hs1 & Hor & Hr).
  { destruct r as [v|e].
    - destruct Hb as [_ H]. eexists. split_and!; [exact H|by right|done].
    - destruct Hb as (m1 & Hor & H). by exists m1. }
  assert (∀ l s1, shows s1 m' → shows (run_calls (map (λ a, CReopen a.1 a.2) l) s1).2 m') as Hre.
  { clear -laws. induction l as [|[sc un] l IH]; intros s1 H; [done|]. cbn [map run_calls fst snd].
    pose proof (run_call_step (CReopen sc un) s1 m' H) as Hc.
    destruct (run_call (CReopen sc un) s1) as [[v|e] s2].
    - destruct Hc as [_ Hc]. specialize (IH s2 Hc). by destruct (run_calls _ s2).
    - destruct Hc as (m1 & [->| ->] & Hc); specialize (IH s2 Hc); by destruct (run_calls _ s2). }
  specialize (Hre attempts s1 Hs1). destruct (run_calls _ s1) as [history s2]. simpl in Hre.
  intros Hn. destruct (open_succeeds (fs_key s2) m' (reboot [] (λ _, false) (fs_host s2)))
    as (h' & Ho & Hc & He); [by split_and!|by cbn; destruct (lock (fs_host s2))|done|].
  exists (mkFileStore (fs_key s2) h'), m'. cbn [run_call]. rewrite Ho.
  split_and!; [done|done|done|]. intros key. destruct He as [He Hj].
  cbn [st_get filestore_storage fs_key fs_host]. unfold get, ensure_ready, exists_. rewrite Hj.
  rewrite bool_decide_false by (by intros []). cbn [bind_result].
  rewrite (calm_read _ _ Hc). cbn [bind_result]. specialize (He key).
  destruct (files h' !! path key) as [blob|]; [|by rewrite He].
  by destruct He as (v & -> & ->).
Qed.
End Recovery.

(** ** Transactions *)
Section Transactions.
Context {crypto : Crypto} {laws : CryptoLaws} `{!Postcard (list StorageMutation)}.

(** The staged changes over a map. *)
Definition overlay (changes : Changes) (m : Mem) : Mem :=
  merge (λ c v, match c with Some staged => staged | None => v end) changes m.

Lemma lookup_overlay changes m key :
  overlay changes m !! key = match changes !! key with Some v => v | None => m !! key end.
Proof.
  unfold overlay. rewrite lookup_merge. unfold diag_None.
  by destruct (changes !! key) as [[|]|], (m !! key).
Qed.

Lemma overlay_empty m : overlay ∅ m = m.
Proof. apply map_eq. intros key. by rewrite lookup_overlay, lookup_empty. Qed.

Lemma overlay_stage changes u m :
  overlay (stage changes u) m = apply_mutation (overlay changes m) u.
Proof.
  apply map_eq. intros k. destruct u as [key value|key]; cbn [stage apply_mutation];
    rewrite lookup_overlay; (destruct (decide (k = key)) as [->|Hne];
      [by rewrite lookup_insert_eq, ?lookup_insert_eq, ?lookup_delete_eq
      |by rewrite lookup_insert_ne, ?lookup_insert_ne, ?lookup_delete_ne, lookup_overlay]).
Qed.

Lemma overlay_stages l changes m :
  overlay (fold_left stage l changes) m = fold_left apply_mutation l (overlay changes m).
Proof.
  revert changes. induction l as [|u l IH]; intros changes; [done|]. cbn [fold_left].
  by rewrite IH, overlay_stage.
Qed.

Definition change_of (change : bytes * option bytes) : StorageMutation :=
  match change with (key, Some value) => Put key value | (key, None) => Delete key end.

Lemma elem_of_staged changes u :
  u ∈ staged changes ↔ ∃ key v, changes !! key = Some v ∧ u = change_of (key, v).
Proof.
  unfold staged. rewrite list_elem_of_In, in_map_iff. setoid_rewrite <-list_elem_of_In.
  setoid_rewrite (merge_sort_Permutation change_le). setoid_rewrite elem_of_map_to_list'.
  split; [intros ([k [v|]] & <- & H); eauto|intros (k & [v|] & H & ->); [exists (k, Some v)|exists (k, None)]; by split].
Qed.

(** Committing the staged changes is applying the overlay. *)
Lemma replay_staged changes m : replay (staged changes) m = overlay changes m.
Proof.
  apply map_eq. intros key. apply (batch_reaches (λ k, overlay changes m !! k)).
  - intros u (k & v & Hk & ->)%elem_of_staged. unfold writes, change_of.
    destruct v; by rewrite lookup_overlay, Hk.
  - destruct (changes !! key) as [v|] eqn:Hk.
    + right. exists (change_of (key, v)). split; [|by destruct v]. apply elem_of_staged. eauto.
    + left. by rewrite lookup_overlay, Hk.
Qed.

#[export] Instance transaction_lawful : LawfulStorage FileTransaction.
Proof.
  refine {| st_wf t := st_wf (ft_store t);
            st_view t := overlay (ft_changes t) (st_view (ft_store t)) |}.
  - intros t key Ht. rewrite lookup_overlay. cbn [st_get transaction_storage]. unfold tx_get.
    destruct (ft_changes t !! key); [by left|]. by apply st_get_law.
  - intros t key value Ht. do 2 eexists. split; [reflexivity|]. split; [done|]. left.
    split; [done|]. apply (overlay_stage _ (Put key value)).
  - intros t key Ht. do 2 eexists. split; [reflexivity|]. split; [done|]. left.
    split; [done|]. apply (overlay_stage _ (Delete key)).
  - intros t l Ht. do 2 eexists. split; [reflexivity|]. split; [done|]. left.
    split; [done|]. apply overlay_stages.
Defined.

Lemma commit_batch_of t :
  commit t = on_key (λ self, apply_batch self (staged (ft_changes t))) (ft_store t).
Proof. unfold commit, apply_batch. by destruct (staged (ft_changes t)). Qed.

Lemma commit_atomic t :
  st_wf (ft_store t) →
  let '(r, s') := commit t in
  st_wf s' ∧
  ((r = Ok tt ∧ st_view s' = st_view t) ∨
   (∃ msg, r = Err (StorageError msg) ∧
      (st_view s' = st_view (ft_store t) ∨ st_view s' = st_view t))).
Proof.
  intros Ht. rewrite commit_batch_of. cbn [st_view transaction_lawful].
  pose proof (atomic_lawful (λ self, apply_batch self (staged (ft_changes t))) (ft_store t)
    _ Ht (apply_batch_atomic _ _ _)) as H. rewrite replay_staged in H.
  destruct (on_key _ (ft_store t)) as [r s']. destruct H as (Hwf & _ & H). split; [done|].
  destruct H as [([] & -> & H)|H]; auto.
Qed.

(** Programs that reach the borrowed store through the overlay only. *)
Definition stages {A} (m : M FileTransaction A) : Prop := ∀ t, ft_store (m t).2 = ft_store t.

Lemma stages_ret {A} (a : A) : stages (retM a).
Proof. done. Qed.
Lemma stages_err {A} e : stages (errM (A := A) e).
Proof. done. Qed.
Lemma stages_read {A} (f : FileTransaction → result error A) : stages (readM f).
Proof. done. Qed.
Lemma stages_lift {A} (r : result error A) : stages (liftM r).
Proof. done. Qed.
Lemma stages_put key value : stages (st_put key value).
Proof. done. Qed.
Lemma stages_delete key : stages (st_delete key).
Proof. done. Qed.
Lemma stages_batch l : stages (st_apply_batch l).
Proof. done. Qed.
Lemma stages_bind {A B} (m : M FileTransaction A) (k : A → M FileTransaction B) :
  stages m → (∀ a, stages (k a)) → stages (bindM m k).
Proof.
  intros Hm Hk t. unfold bindM. specialize (Hm t). destruct (m t) as [[a|e] t']; [|done].
  by rewrite Hk.
Qed.

(** a transaction is all or nothing: whatever program of the engine runs
    inside it - any program that does on lawful stores what it does on the map,
    and reaches the store through the interface - sees its own writes and
    answers as on the map, while the store underneath stays as it was; a commit
    that reports success leaves exactly the map the program computed, one that
    fails, at whatever system call, leaves that map or the old one. *)
Theorem transaction_commits {A} (m : M FileTransaction A) (m' : M Mem A) (s : FileStore)
    (Hsim : sim m m') (Hstages : stages m) (Hwf : st_wf s) :
  let '(r, t) := m (transaction s) in
  ft_store t = s ∧
  ((∃ msg, r = Err (StorageError msg)) ∨
   r = (m' (st_view s)).1 ∧
   let '(c, s') := commit t in
   (c = Ok tt → st_view s' = (m' (st_view s)).2) ∧
   (c ≠ Ok tt → st_view s' = st_view s ∨ st_view s' = (m' (st_view s)).2)).
Proof.
  destruct (Hsim (transaction s) Hwf) as [Ht H].
  assert (st_view (transaction s) = st_view s) as Hv by apply overlay_empty. rewrite Hv in H.
  pose proof (Hstages (transaction s)) as Hs.
  destruct (m (transaction s)) as [r t]. simpl fst in *. simpl snd in *. split; [exact Hs|].
  destruct H as [[-> <-]|H]; [|by left]. right. split; [done|].
  pose proof (commit_atomic t Ht) as Hc. destruct (commit t) as [c s'].
  rewrite Hs in Hc. by destruct Hc as [_ [[-> Hc]|(msg & -> & Hc)]]; split.
Qed.
End Transactions.

(** ** At concrete inputs *)
#[export] Instance StorageMutation_codec : Codec StorageMutation.
Proof.
  refine (codec_iso (B := bytes * bytes + bytes)
    (λ u, match u with Put key value => inl (key, value) | Delete key => inr key end)
    (λ s, Some (match s with inl (key, value) => Put key value | inr key => Delete key end)) _).
  by intros [].
Defined.

(** An empty directory, and a script that makes [n] calls succeed and then dies. *)
Definition fresh (sc : list Step) : FileStore :=
  mkFileStore (arr_fit 32 b#"key") (mkHost ∅ Unlocked (λ _, false) true sc).
Definition dies_after (n : nat) : list Step := replicate n quiet_step ++ [mkStep CrashAfter [] 0].
Definition batch : list StorageMutation := [Put b#"new" b#"after"; Delete b#"old"].

Lemma fresh_shows sc : shows (fresh sc) ∅.
Proof. apply entries_represents. split; [by intros key|done]. Qed.

(** Four runs of the same calls: the process dies while the journal is written,
    right after its rename, in the middle of the batch, or not at all. *)
Definition crash_calls : list StoreCall :=
  [CBatch batch; CGet b#"new"; CReopen [] (λ _, false); CGet b#"new"].
Example crash_points :
  map (λ n, map snd (run_calls crash_calls (fresh (dies_after n))).1) [4; 6; 10; 30]%nat =
  let dead := Err (StorageError b#"I/O error") in
  let busy := Err (StorageError b#"transaction recovery required; reopen the store") in
  [[dead; dead; Ok None; Ok None];
   [dead; busy; Ok None; Ok (Some b#"after")];
   [dead; busy; Ok None; Ok (Some b#"after")];
   [Ok None; Ok (Some b#"after"); Ok None; Ok (Some b#"after")]].
Proof. vm_compute. reflexivity. Qed.


Lemma no_temp_check (f : Mem) :
  forallb (λ file, negb (bool_decide (take 4 (rev file.1) = rev b#".tmp"))) (map_to_list f) = true →
  no_temp f.
Proof.
  intros H name. destruct (f !! temp_name name (zeros 8)) as [c|] eqn:Hc; [|done].
  apply elem_of_map_to_list, list_elem_of_In in Hc.
  pose proof (proj1 (forallb_forall _ _) H _ Hc) as Hn. cbn [fst] in Hn.
  assert (take 4 (rev (temp_name name (zeros 8))) = rev b#".tmp") as Ht
    by (unfold temp_name; by rewrite !rev_app_distr).
  by rewrite bool_decide_true in Hn.
Qed.

Lemma batch_survives_crash_witness :
  ∃ s3 m', run_call (CReopen [] (λ _, false)) (run_call (CBatch batch) (fresh (dies_after 8))).2
             = (Ok None, s3) ∧
    (m' = ∅ ∨ m' = replay batch ∅) ∧ ∀ key, st_get key s3 = Ok (m' !! key).
Proof.
  pose proof (batch_survives_crash (fresh (dies_after 8)) ∅ batch [] (fresh_shows _)) as H.
  assert (no_temp (files (fs_host (run_call (CBatch batch) (fresh (dies_after 8))).2))) as Hn
    by (apply no_temp_check; vm_compute; reflexivity).
  destruct (run_call (CBatch batch) (fresh (dies_after 8))) as [r s1]. cbn [map run_calls] in H.
  destruct (H Hn) as (s3 & m' & H1 & H2 & _ & H3). exists s3, m'. by split_and!.
Defined.

Definition toy_program {S} `{!Storage S} : M S unit :=
  let! _ := st_put b#"a" b#"1" in st_delete b#"b".

Lemma transaction_commits_witness :
  let t := (toy_program (transaction (fresh []))).2 in
  ft_store t = fresh [] ∧
  ((commit t).1 = Ok tt → st_view (commit t).2 = {[b#"a" := b#"1"]}).
Proof.
  assert (sim (S := FileTransaction) toy_program toy_program) as Hsim by (unfold toy_program; solve_sim).
  assert (st_wf (fresh [])) as Hwf by (exists ∅; apply fresh_shows).
  assert (stages toy_program) as Hst by (apply stages_bind; [apply stages_put|intros; apply stages_delete]).
  pose proof (transaction_commits toy_program toy_program (fresh []) Hsim Hst Hwf) as H.
  assert (st_view (fresh []) = ∅) as Hv by (by apply view_represents, fresh_shows).
  intros t. subst t. destruct (toy_program (transaction (fresh []))) as [r t] eqn:E.
  destruct H as [H1 H]. split; [exact H1|]. simpl snd.
  assert (r = Ok tt) as -> by (injection E as <- _; done).
  destruct H as [[msg [=]]|[_ H]]. destruct (commit t) as [c s']. destruct H as [H _].
  intros Hc. cbn [fst snd] in Hc |- *. rewrite (H Hc), Hv. by vm_compute.
Defined.
