(* ===== verification/Sealing.v ===== *)
(** * Sealing: the identity at rest

    [mycellium-storage/src/seal.rs], the passphrase-sealed blob, and [store.rs],
    the identity file and the configuration it is used with.  The key derivation
    (Argon2id) and the terminal prompt are external; the file is written with
    [atomic_write] on the operating system of [FileStore]. *)

From S2P Require Import Prelude Std Crypto Wire Identity Storage FileStore FileStoreProps Instances.

(** [Argon2::default().hash_password_into]; an error carries its text. *)
Class Argon2 : Type := hash_password : bytes → bytes → result str (arr 32).

(** [rpassword::prompt_password] over the state of the terminal. *)
Class Terminal (T : Type) : Type := prompt_password : str → M T str.
#[global] Hint Mode Terminal ! : typeclass_instances.

(** ** [seal.rs] *)
Record Sealed : Type := mkSealed { salt : bytes; nonce : bytes; ciphertext : bytes }.

Inductive SealError : Type :=
  | KeyDerivation (e : str) | Random (e : str) | Encrypt | WrongKeyOrCorrupt | Corrupt.

Definition seal_error_msg (e : SealError) : str :=
  match e with
  | KeyDerivation e => b#"key derivation failed: " ++ e
  | Random e => b#"failed to gather randomness: " ++ e
  | Encrypt => b#"failed to seal secret"
  | WrongKeyOrCorrupt => b#"wrong passphrase or corrupt data"
  | Corrupt => b#"sealed data is corrupt"
  end.

(** The text of a system error. *)
Definition io_msg (e : error) : str := match e with Anyhow msg | StorageError msg => msg end.

Section Seal.
Context {crypto : Crypto} `{!Argon2, !Json Sealed}.

Definition derive_passphrase (passphrase : str) (salt : bytes) : result SealError (arr 32) :=
  map_err KeyDerivation (hash_password passphrase salt).

(** What [seal] makes of its two random draws. *)
Definition seal_with (salt : arr 16) (nonce : arr 12) (passphrase : str) (plaintext : bytes)
    : result SealError bytes :=
  let? key := derive_passphrase passphrase (arr_bytes salt) in
  let ciphertext := chacha_encrypt key nonce plaintext [] in
  ok_or Encrypt (to_vec (mkSealed (arr_bytes salt) (arr_bytes nonce) ciphertext)).

Definition seal (passphrase : str) (plaintext : bytes) (h : Host) : result SealError bytes * Host :=
  let '(salt, h) := getrandom 16 h in
  match salt with
  | Err e => (Err (Random (io_msg e)), h)
  | Ok salt =>
      let '(nonce, h) := getrandom 12 h in
      match nonce with
      | Err e => (Err (Random (io_msg e)), h)
      | Ok nonce => (seal_with salt nonce passphrase plaintext, h)
      end
  end.

Definition open (passphrase : str) (input : bytes) : result SealError bytes :=
  let? sealed := ok_or Corrupt (from_slice input) in
  let? key := derive_passphrase passphrase (salt sealed) in
  let? nonce := ok_or Corrupt (arr_try (n := 12) (nonce sealed)) in
  ok_or WrongKeyOrCorrupt (chacha_decrypt key nonce (ciphertext sealed) []).
End Seal.

(** ** [store.rs] *)
Record ClientConfig : Type := mkConfig {
  data_dir : bytes; cfg_passphrase : option str; display_name : str; dht_bootstrap : list str }.

Definition default_config : ClientConfig := mkConfig b#".mycellium" None [] [].

(** The process-wide cell: it is set once. *)
Definition configure (config : ClientConfig) (cell : option ClientConfig)
    : result error unit * option ClientConfig :=
  match cell with
  | None => (Ok tt, Some config)
  | Some _ => (Err (Anyhow b#"client storage is already configured"), cell)
  end.
Definition config (cell : option ClientConfig) : ClientConfig := default default_config cell.

Record Secret : Type := mkSecret { sec_wallet_secret : bytes; sec_device_seed : bytes }.

(** The identity file of a data directory; [Host] is that directory. *)
Definition IDENTITY_FILE : bytes := b#"identity.enc".
Definition exists_in (h : Host) : bool := exists_ IDENTITY_FILE h.

Definition MIN_PASSPHRASE_LEN : nat := 8.

(** [str::chars().count()]: the bytes that do not continue a character. *)
Definition chars_count (s : str) : nat := length (List.filter (λ c, negb (continuation c)) s).

Section Store.
Context {crypto : Crypto} `{!Argon2, !Json Sealed, !Json Secret}.

Definition seal_identity (identity : Identity) (passphrase : str) : M Host bytes := λ h,
  let secret := mkSecret (arr_bytes (Identity.wallet_secret identity))
                         (arr_bytes (Identity.device_seed identity)) in
  match to_vec secret with
  | None => (Err (Anyhow b#"could not encode identity"), h)
  | Some plaintext =>
      let '(sealed, h) := seal passphrase plaintext h in
      (map_err (λ e, Anyhow (b#"failed to encrypt identity: " ++ seal_error_msg e)) sealed, h)
  end.

Definition save_identity_with_passphrase_at (identity : Identity) (passphrase : str) : M Host unit :=
  if (chars_count passphrase <? MIN_PASSPHRASE_LEN)%nat
  then errM (Anyhow b#"passphrase must be at least 8 characters")
  else
    let! sealed := seal_identity identity passphrase in
    let! _ := atomic_write IDENTITY_FILE sealed in
    retM tt.

Definition open_identity_with_passphrase (input : bytes) (passphrase : str) : result error Identity :=
  let? plaintext := map_err (λ e, match e with
    | Corrupt => Anyhow b#"identity file is corrupt"
    | WrongKeyOrCorrupt => Anyhow b#"wrong passphrase or corrupt identity"
    | other => Anyhow (seal_error_msg other)
    end) (open passphrase input) in
  let? secret := ok_or (Anyhow b#"decrypted identity is corrupt") (from_slice plaintext) in
  let? device_seed := ok_or (Anyhow b#"identity file has a malformed device seed")
                        (arr_try (n := 32) (sec_device_seed secret)) in
  let? wallet_secret := ok_or (Anyhow b#"identity file has a malformed wallet secret")
                          (arr_try (n := 32) (sec_wallet_secret secret)) in
  map_err (λ _, Anyhow b#"stored account key is invalid")
    (Identity.from_wallet_secret wallet_secret device_seed).

Definition load_identity_with_passphrase_from (passphrase : str) (h : Host) : result error Identity :=
  let? found := map_err (λ _, Anyhow b#"no identity found") (fs_read IDENTITY_FILE h) in
  let? input := ok_or (Anyhow b#"no identity found") found in
  open_identity_with_passphrase input passphrase.

(** ** Passphrases from the configuration or the terminal *)
Section Prompt.
Context {T : Type} `{!Terminal T} (cell : option ClientConfig).

(** [trim_end_matches(['\r', '\n'])] *)
Definition trim_newlines (s : str) : str :=
  rev (trim_start [[byte_of 13]; [byte_of 10]] (rev s)).

Definition passphrase (prompt : str) : M T str :=
  match cfg_passphrase (config cell) with
  | Some p => retM p
  | None =>
      let! line := prompt_password (prompt ++ b#": ") in
      let line := trim_newlines line in
      if bool_decide (line = []) then errM (Anyhow b#"an empty passphrase is not allowed")
      else retM line
  end.

Definition new_passphrase (prompt : str) : M T str :=
  match cfg_passphrase (config cell) with
  | Some _ => passphrase prompt
  | None =>
      let! first := passphrase prompt in
      let! again := prompt_password b#"Confirm passphrase: " in
      if negb (bool_decide (first = trim_newlines again))
      then errM (Anyhow b#"passphrases did not match")
      else retM first
  end.

Definition on_terminal {A} (m : M T A) : M (T * Host) A := λ s,
  let '(r, t) := m s.1 in (r, (t, s.2)).
Definition on_disk {A} (m : M Host A) : M (T * Host) A := λ s,
  let '(r, h) := m s.2 in (r, (s.1, h)).

Definition save_identity (identity : Identity) : M (T * Host) unit :=
  let! passphrase := on_terminal (new_passphrase b#"Choose a passphrase to encrypt your identity") in
  on_disk (save_identity_with_passphrase_at identity passphrase).

Definition open_identity (input : bytes) : M T Identity :=
  let! passphrase := passphrase b#"Passphrase to unlock your identity" in
  liftM (open_identity_with_passphrase input passphrase).

Definition load_identity : M (T * Host) Identity :=
  let! input := on_disk (readM (λ h,
    let? found := map_err (λ _, Anyhow b#"no identity found") (fs_read IDENTITY_FILE h) in
    ok_or (Anyhow b#"no identity found") found)) in
  on_terminal (open_identity input).
End Prompt.
End Store.

(** ** Properties *)
Section Props.
Context {crypto : Crypto} {laws : CryptoLaws} `{!Argon2, !Json Sealed, !Json Secret}.

Lemma open_seal_with salt nonce passphrase plaintext blob :
  seal_with salt nonce passphrase plaintext = Ok blob → open passphrase blob = Ok plaintext.
Proof.
  unfold seal_with, open. destruct (derive_passphrase passphrase (arr_bytes salt)) as [key|e] eqn:Hk;
    [|done]. cbn. destruct (to_vec _) as [b|] eqn:Hb; [|done]. intros [= <-].
  rewrite (json_roundtrip _ _ Hb). cbn. rewrite Hk. cbn. rewrite arr_try_bytes. cbn.
  by rewrite chacha_correct.
Qed.

Lemma seal_opens passphrase plaintext blob h h' :
  seal passphrase plaintext h = (Ok blob, h') → open passphrase blob = Ok plaintext.
Proof.
  unfold seal. destruct (getrandom 16 h) as [[salt|e] h1]; [|done].
  destruct (getrandom 12 h1) as [[nonce|e] h2]; [|done]. intros [= Hs _]. by eapply open_seal_with.
Qed.

Lemma seal_files passphrase plaintext h : files (seal passphrase plaintext h).2 = files h.
Proof.
  unfold seal. pose proof (triple_getrandom (λ f, f = files h) 16 h eq_refl) as Hf.
  destruct (getrandom 16 h) as [[salt|e] h1]; [|by destruct Hf].
  pose proof (triple_getrandom (λ f, f = files h) 12 h1 Hf) as Hf'.
  by destruct (getrandom 12 h1) as [[nonce|e] h2]; [|destruct Hf'].
Qed.

Lemma seal_identity_files identity passphrase h : files (seal_identity identity passphrase h).2 = files h.
Proof.
  unfold seal_identity. destruct (to_vec _) as [b|]; [|done].
  pose proof (seal_files passphrase b h) as Hf. by destruct (seal passphrase b h).
Qed.

Lemma open_sealed_identity identity passphrase blob h h' :
  Identity.wf identity → seal_identity identity passphrase h = (Ok blob, h') →
  open_identity_with_passphrase blob passphrase = Ok identity.
Proof.
  intros Hwf. unfold seal_identity, open_identity_with_passphrase.
  destruct (to_vec _) as [plaintext|] eqn:Hb; [|done].
  destruct (seal passphrase plaintext h) as [[b|e] h1] eqn:Hs; [|done]. intros [= <- <-].
  rewrite (seal_opens _ _ _ _ _ Hs). cbn. rewrite (json_roundtrip _ _ Hb). cbn.
  rewrite !arr_try_bytes. cbn. unfold Identity.from_wallet_secret. by rewrite Hwf.
Qed.

Definition saved (identity : Identity) (passphrase : str) (f : Mem) : Prop :=
  ∃ blob, f !! IDENTITY_FILE = Some blob ∧
          open_identity_with_passphrase blob passphrase = Ok identity.

Lemma save_ok_saved identity passphrase h h' :
  Identity.wf identity → save_identity_with_passphrase_at identity passphrase h = (Ok tt, h') →
  saved identity passphrase (files h').
Proof.
  intros Hwf. unfold save_identity_with_passphrase_at. destruct (_ <? _)%nat; [done|]. unfold bindM.
  pose proof (seal_identity_files identity passphrase h) as Hf.
  destruct (seal_identity identity passphrase h) as [[blob|e] h1] eqn:Hs; [|done]. cbn in Hf.
  pose proof (triple_atomic_write (files h) IDENTITY_FILE blob h1) as Hw.
  rewrite Hf in Hw. specialize (Hw (reflexivity _)).
  destruct (atomic_write IDENTITY_FILE blob h1) as [[[]|e] h2]; [|done]. intros [= <-].
  exists blob. rewrite (Hw IDENTITY_FILE), lookup_insert_eq by by right.
  split; [done|]. by eapply open_sealed_identity.
Qed.

(** C33: An identity is at rest as a whole or not at all: whatever system call of
    a save fails, or the process dies at, the identity file either is what it was
    or opens to the saved identity with its passphrase, and after a save that
    reported success it does.  A passphrase of fewer than eight characters is
    refused before anything is touched. *)
Theorem identity_saved_whole (identity : Identity) (passphrase : str) (h : Host) :
  Identity.wf identity →
  let '(r, h') := save_identity_with_passphrase_at identity passphrase h in
  ((chars_count passphrase < 8)%nat → is_err r = true ∧ h' = h) ∧
  (saved identity passphrase (files h') ∨
   is_err r = true ∧ files h' !! IDENTITY_FILE = files h !! IDENTITY_FILE) ∧
  ∀ h2, files h2 !! IDENTITY_FILE = files h' !! IDENTITY_FILE → saved identity passphrase (files h') →
    alive h2 = true → unreadable h2 IDENTITY_FILE = false →
    load_identity_with_passphrase_from passphrase h2 = Ok identity.
Proof.
  intros Hwf. destruct (save_identity_with_passphrase_at identity passphrase h) as [r h'] eqn:Hsave.
  split_and!.
  - intros Hlen. unfold save_identity_with_passphrase_at in Hsave.
    apply Nat.ltb_lt in Hlen. change 8%nat with MIN_PASSPHRASE_LEN in Hlen. rewrite Hlen in Hsave.
    by injection Hsave as <- <-.
  - unfold save_identity_with_passphrase_at in Hsave. destruct (_ <? _)%nat.
    { injection Hsave as <- <-. by right. }
    pose proof (seal_identity_files identity passphrase h) as Hf. unfold bindM in Hsave.
    destruct (seal_identity identity passphrase h) as [[blob|e] h1] eqn:Hs; cbn in Hf.
    2: { injection Hsave as <- <-. right. by rewrite Hf. }
    pose proof (triple_atomic_write (files h) IDENTITY_FILE blob h1) as Hw.
    rewrite Hf in Hw. specialize (Hw (reflexivity _)).
    assert (visible IDENTITY_FILE) as Hv by by right.
    assert (∀ f, same (<[IDENTITY_FILE:=blob]> (files h)) f → saved identity passphrase f) as Hafter.
    { intros f Hsame. exists blob. rewrite (Hsame _ Hv), lookup_insert_eq.
      split; [done|]. by eapply open_sealed_identity. }
    destruct (atomic_write IDENTITY_FILE blob h1) as [[[]|e] h2]; injection Hsave as <- <-.
    + left. by apply Hafter.
    + destruct Hw as [_ [Hb|Ha]]; [right|left; by apply Hafter]. split; [done|by apply Hb].
  - intros h2 Hsame (blob & Hb & Hopen) Ha Hu. unfold load_identity_with_passphrase_from, fs_read.
    rewrite Ha, Hu, Hsame, Hb. done.
Qed.
End Props.

(** ** At a concrete input *)
#[export] Instance ToyArgon2 : Argon2 := λ password salt, Ok (toy_hash 32 (password ++ salt)).
#[export] Instance Sealed_codec : Codec Sealed.
Proof.
  refine (codec_iso (λ s, (salt s, nonce s, ciphertext s)) (λ '(s, n, c), Some (mkSealed s n c)) _).
  by intros [].
Defined.
#[export] Instance Secret_codec : Codec Secret.
Proof.
  refine (codec_iso (λ s, (sec_wallet_secret s, sec_device_seed s)) (λ '(w, d), Some (mkSecret w d)) _).
  by intros [].
Defined.

Definition empty_disk (sc : list Step) : Host := mkHost ∅ Unlocked (λ _, false) true sc.

(** Characters are counted, not bytes: seven two-byte ones are too short. *)
Example passphrase_lengths :
  let two_bytes := [byte_of 195; byte_of 169] in
  map (λ p, is_ok (save_identity_with_passphrase_at (toy_identity 7) p (empty_disk [])).1)
    [b#"eight888"; b#"seven77"; concat (replicate 7 two_bytes); concat (replicate 8 two_bytes)]
  = [true; false; false; true].
Proof. vm_compute. reflexivity. Qed.

(** A save that dies while the new file is written leaves the old one. *)
Example save_crash_points :
  let h := (save_identity_with_passphrase_at (toy_identity 7) b#"long enough" (empty_disk [])).2 in
  map (λ n, let h' := (save_identity_with_passphrase_at (toy_identity 9) b#"long enough"
              (mkHost (files h) (lock h) (unreadable h) true
                 (replicate n quiet_step ++ [mkStep CrashAfter [] 0]))).2 in
            match load_identity_with_passphrase_from b#"long enough"
                    (mkHost (files h') (lock h') (unreadable h') true []) with
            | Ok i => bool_decide (Identity.wallet_secret i = Identity.wallet_secret (toy_identity 9))
            | Err _ => false
            end) [1; 4; 5; 6; 7; 8; 9]%nat = [false; false; false; false; true; true; true].
Proof. vm_compute. reflexivity. Qed.

Lemma identity_saved_whole_witness :
  let '(r, h') := save_identity_with_passphrase_at (toy_identity 7) b#"long enough" (empty_disk []) in
  r = Ok tt ∧ load_identity_with_passphrase_from b#"long enough" h' = Ok (toy_identity 7).
Proof.
  pose proof (identity_saved_whole (toy_identity 7) b#"long enough" (empty_disk []) toy_identity_wf) as Hw.
  assert (match save_identity_with_passphrase_at (toy_identity 7) b#"long enough" (empty_disk []) with
          | (Ok _, h') => alive h' && negb (unreadable h' IDENTITY_FILE) | _ => false end = true) as Hok
    by (vm_compute; reflexivity).
  destruct (save_identity_with_passphrase_at _ _ _) as [[[]|e] h']; [|discriminate Hok].
  apply andb_true_iff in Hok as [Ha Hu]. apply negb_true_iff in Hu.
  destruct Hw as (_ & [Hs|[He _]] & Hload); [|discriminate He]. split; [done|]. by apply Hload.
Defined.
