(* ===== verification/LocalState.v ===== *)
(** * LocalState: the small stores of [mycellium-engine]

    One Module per file: [draft], [expiry], [names], [blocklist],
    [attachments], [inbox], [contacts], [verified] and [reachability].  Each keeps its state
    under its own keys of a [Storage]; the properties are stated on the abstract
    map and hold on every lawful store by [sim]. *)

From S2P Require Import Prelude Crypto Wire Identity UserId Delivery Storage Instances.

(** ** [draft.rs] *)
Module draft.
Section Draft.
Context {S : Type} `{!Storage S, !Postcard str}.

Definition key (peer : str) : bytes := key_prefix b#"draft/" peer.

Definition set (peer text : str) : M S unit :=
  let! _ := st_put (key peer) (wire.encode text) in retM tt.

Definition get (peer : str) (store : S) : result error (option str) :=
  let? input := st_get (key peer) store in load_state input b#"draft".

Definition clear (peer : str) : M S unit :=
  let! _ := st_delete (key peer) in retM tt.
End Draft.
End draft.

(** ** [expiry.rs] *)
Module expiry.
Section Expiry.
Context {S : Type} `{!Storage S, !Postcard u64}.

Definition key (peer : str) : bytes := key_prefix b#"expire/" peer.

Definition set (peer : str) (ttl_secs : u64) : M S unit :=
  let! _ := st_put (key peer) (wire.encode ttl_secs) in retM tt.

Definition get (peer : str) (store : S) : result error (option u64) :=
  let? input := st_get (key peer) store in load_state input b#"expiry default".

Definition clear (peer : str) : M S unit :=
  let! _ := st_delete (key peer) in retM tt.
End Expiry.
End expiry.

(** ** [names.rs] *)
Module names.
Definition KEY : bytes := b#"names".

Section Names.
Context {S : Type} `{!Storage S, !Postcard (list (str * str))}.

Definition has_id (id : str) (entry : str * str) : bool := bool_decide (entry.1 = id).

Definition load (store : S) : result error (list (str * str)) :=
  let? input := st_get KEY store in decode_state [] input b#"learned names".

Definition note (id name : str) : M S unit :=
  if bool_decide (name = []) then retM tt
  else
    let! l := readM load in
    match List.find (has_id id) l with
    | Some entry =>
        if bool_decide (entry.2 = name) then retM tt
        else
          let l := update_first (has_id id) (λ entry, (entry.1, name)) l in
          let! _ := st_put KEY (wire.encode l) in retM tt
    | None =>
        let l := l ++ [(id, name)] in
        let! _ := st_put KEY (wire.encode l) in retM tt
    end.

Definition get (id : str) (store : S) : result error (option str) :=
  let? l := load store in Ok (snd <$> List.find (has_id id) l).
End Names.
End names.

(** ** [blocklist.rs] *)
Module blocklist.
Definition KEY : bytes := b#"blocklist".

(** [list.iter().any(|known| known == user_id)] *)
Definition is_blocked (l : list str) (user_id : str) : bool :=
  existsb (λ known, bool_decide (known = user_id)) l.

Section Blocklist.
Context {S : Type} `{!Storage S, !Postcard (list str)}.

Definition load (store : S) : result error (list str) :=
  let? input := st_get KEY store in
  match input with
  | None => Ok []
  | Some input =>
      let? users := map_err (λ _, Anyhow b#"local block list is corrupt") (wire.decode input) in
      if existsb (λ user, is_err (UserId.new user)) users
      then Err (Anyhow b#"local block list contains an invalid user id")
      else Ok users
  end.

Definition block (user_id : str) : M S unit :=
  let! user_id := liftM (map_err (λ _, Anyhow b#"invalid user id") (UserId.new user_id)) in
  let! l := readM load in
  if negb (existsb (λ known, bool_decide (known = UserId.as_str user_id)) l)
  then
    let l := l ++ [UserId.as_str user_id] in
    let! _ := st_put KEY (wire.encode l) in retM tt
  else retM tt.

Definition unblock (user_id : str) : M S unit :=
  let! user_id := liftM (map_err (λ _, Anyhow b#"invalid user id") (UserId.new user_id)) in
  let! l := readM load in
  let l := List.filter (λ known, negb (bool_decide (known = UserId.as_str user_id))) l in
  let! _ := st_put KEY (wire.encode l) in retM tt.
End Blocklist.
End blocklist.

(** ** [attachments.rs] *)
Module attachments.
Record StoredAttachment : Type := mkStoredAttachment {
  id : str;
  name : str;
  mime : str;
  data : bytes
}.

Section Attachments.
Context {S : Type} `{!Storage S, !Postcard StoredAttachment}.

Definition key (id : str) : bytes := key_prefix b#"attachment:" id.

Definition save (attachment : StoredAttachment) : M S unit :=
  st_put (key (id attachment)) (wire.encode attachment).

Definition load (id : str) (store : S) : result error (option StoredAttachment) :=
  let? input := st_get (key id) store in
  match input with
  | None => Ok None
  | Some input =>
      match wire.decode input with
      | Ok a => Ok (Some a)
      | Err _ => Err (Anyhow (b#"stored attachment '" ++ id ++ b#"' is corrupt"))
      end
  end.
End Attachments.
End attachments.

(** ** [inbox.rs] *)
Module inbox.
Definition LEGACY_KEY : bytes := b#"accepted-deliveries".

Record AcceptedDelivery : Type := mkAccepted {
  id : str;
  payload_digest : PayloadDigest;
  accepted_at : u64
}.

Inductive Seen : Type := New | Duplicate | Collision.

Section Inbox.
Context {S : Type} `{!Storage S, !Postcard AcceptedDelivery, !Postcard (list AcceptedDelivery)}.

Definition key (id : str) : bytes := key_prefix b#"accepted-delivery:" id.

Definition decode_entry (input : bytes) : result error AcceptedDelivery :=
  map_err (λ _, Anyhow b#"accepted delivery state is corrupt") (wire.decode input).

Definition legacy_entry (id' : str) (store : S) : result error (option AcceptedDelivery) :=
  let? input := st_get LEGACY_KEY store in
  match input with
  | None => Ok None
  | Some input =>
      let? accepted := map_err (λ _, Anyhow b#"legacy accepted delivery index is corrupt")
                         (wire.decode (T := list AcceptedDelivery) input) in
      Ok (List.find (λ entry, bool_decide (id entry = id')) accepted)
  end.

(** The lookup [seen] and [record] start with. *)
Definition entry (id' : str) (store : S) : result error (option AcceptedDelivery) :=
  let? input := st_get (key id') store in
  match input with
  | Some input => let? e := decode_entry input in Ok (Some e)
  | None => legacy_entry id' store
  end.

Definition seen (id' : str) (digest : PayloadDigest) (store : S) : result error Seen :=
  let? e := entry id' store in
  Ok (match e with
      | None => New
      | Some e => if bool_decide (payload_digest e = digest) then Duplicate else Collision
      end).

Definition record (id' : str) (digest : PayloadDigest) (now : u64) : M S unit :=
  let! existing := readM (entry id') in
  match existing with
  | Some existing =>
      if bool_decide (payload_digest existing = digest) then retM tt else retM tt
  | None =>
      let accepted := mkAccepted id' digest now in
      let! _ := st_put (key (id accepted)) (wire.encode accepted) in retM tt
  end.
End Inbox.
End inbox.

(** ** [contacts.rs] *)
Module contacts.
Record Contact : Type := mkContact {
  nickname : str;
  handle : str;
  user_id : str;
  wallet : WalletPublicKey
}.

Definition INDEX_KEY : bytes := b#"contacts".

Section Contacts.
Context {S : Type} `{!Storage S, !Postcard Contact, !Postcard (list str)}.

Definition contact_key (nickname : str) : bytes := key_prefix b#"contact:" nickname.

Definition contains (l : list str) (x : str) : bool := existsb (λ y, bool_decide (y = x)) l.

Definition list_names (store : S) : result error (list str) :=
  let? input := st_get INDEX_KEY store in decode_state [] input b#"contact index".

Definition save (contact : Contact) : M S unit :=
  let! names := readM list_names in
  let mutations := [Put (contact_key (nickname contact)) (wire.encode contact)] in
  let mutations :=
    if negb (contains names (nickname contact))
    then mutations ++ [Put INDEX_KEY (wire.encode (names ++ [nickname contact]))]
    else mutations in
  let! _ := st_apply_batch mutations in retM tt.

Definition load (nickname : str) (store : S) : result error (option Contact) :=
  let? input := st_get (contact_key nickname) store in
  load_state input (b#"contact '" ++ nickname ++ b#"'").

(** The loop of [list]. *)
Fixpoint load_all (names : list str) (store : S) : result error (list Contact) :=
  match names with
  | [] => Ok []
  | name :: rest =>
      let? c := load name store in
      let? out := load_all rest store in
      Ok (match c with Some c => c :: out | None => out end)
  end.

Definition list_ (store : S) : result error (list Contact) :=
  let? names := list_names store in load_all names store.

Definition remove (nickname : str) : M S unit :=
  let! names := readM list_names in
  let names := List.filter (λ n, negb (bool_decide (n = nickname))) names in
  let! _ := st_apply_batch [Delete (contact_key nickname); Put INDEX_KEY (wire.encode names)] in
  retM tt.

Definition resolve (input : str) (store : S) : result error str :=
  let? c := load input store in
  Ok (match c with Some contact => handle contact | None => input end).

(** The loop of [by_handle] and [by_user_id], returning at the first hit. *)
Fixpoint first_match (p : Contact → bool) (names : list str) (store : S)
    : result error (option Contact) :=
  match names with
  | [] => Ok None
  | name :: rest =>
      let? c := load name store in
      match c with
      | Some c => if p c then Ok (Some c) else first_match p rest store
      | None => first_match p rest store
      end
  end.

Definition by_handle (handle' : str) (store : S) : result error (option Contact) :=
  let? names := list_names store in
  first_match (λ c, bool_decide (handle c = handle')) names store.

Definition by_user_id (user_id' : str) (store : S) : result error (option Contact) :=
  let? names := list_names store in
  first_match (λ c, bool_decide (user_id c = user_id')) names store.
End Contacts.
End contacts.

(** ** [verified.rs] *)
Module verified.
Inductive TrustLevel : Type := Verified | Pinned | Changed | Unverified.

Definition label (self : TrustLevel) : str :=
  match self with
  | Verified => b#"✓ verified"
  | Pinned => b#"• pinned (TOFU, not verified)"
  | Changed => b#"⚠ IDENTITY CHANGED"
  | Unverified => b#"? unverified (first contact)"
  end.

Section Verified.
Context {S : Type} `{!Storage S, !Postcard WalletPublicKey, !Postcard contacts.Contact,
                     !Postcard (list str)}.

Definition key (user_id : str) : bytes := key_prefix b#"verified:" user_id.

Definition mark (user_id : str) (wallet : WalletPublicKey) : M S unit :=
  let! _ := st_put (key user_id) (wire.encode wallet) in retM tt.

Definition get (user_id : str) (store : S) : result error (option WalletPublicKey) :=
  let? input := st_get (key user_id) store in load_state input b#"verification record".

Definition level (user_id : str) (current : WalletPublicKey) (store : S) : TrustLevel :=
  match get user_id store with
  | Ok (Some v) => if bool_decide (v = current) then Verified else Changed
  | Err _ => Changed
  | Ok None =>
      match contacts.by_user_id user_id store with
      | Ok (Some c) => if bool_decide (contacts.wallet c = current) then Pinned else Changed
      | Err _ => Changed
      | Ok None => Unverified
      end
  end.
End Verified.
End verified.

(** ** [reachability.rs] *)
Module reachability.
Inductive DeliveryPath : Type := Direct | Outbox | Failed.

Definition is_delivered (self : DeliveryPath) : bool :=
  match self with Direct => true | _ => false end.
Definition is_live_direct (self : DeliveryPath) : bool :=
  match self with Direct => true | _ => false end.
Definition default_order : list DeliveryPath := [Direct].

Section Reachability.
Context {S : Type}.

Definition record (device_key : str) (path : DeliveryPath) (ok : bool) (now : u64) : M S unit :=
  retM tt.
Definition best_paths (device_key : str) (now : u64) (store : S) : list DeliveryPath :=
  default_order.
Definition best_paths_for (device_key : str) (live : DeliveryPath) (now : u64) (store : S)
    : list DeliveryPath :=
  [live].
Definition clear : M S unit := retM tt.
End Reachability.
End reachability.
