(* ===== verification/LocalProps.v ===== *)
(** * LocalProps: what the small stores guarantee

    Refinement of every operation to the abstract map, fail-closed behaviour on
    corrupt bytes, and the functional behaviour of the block list, the
    acceptance records, the address book and the trust levels. *)

From S2P Require Import Prelude Crypto Wire Identity UserId Delivery Storage LocalState Instances.

(** ** Every operation refines its meaning on the map *)
Section Refinement.
Context {S : Type} `{!Storage S, !LawfulStorage S}.

Lemma simr_map {A B} (f : S → result error A) f' (k : A → result error B) :
  simr f f' → simr (λ s, bind_result (f s) k) (λ m, bind_result (f' m) k).
Proof. intros H. apply (simr_bind f f' (λ a _, k a) (λ a _, k a)); [done|eauto with sim]. Qed.

Lemma simr_get_then {B} key (k : option bytes → result error B) :
  simr (λ s, bind_result (st_get key s) k) (λ m, bind_result (st_get key m) k).
Proof. apply simr_map. eauto with sim. Qed.

Lemma sim_put_unit key value :
  sim (let! _ := st_put key value in retM tt) (let! _ := st_put key value in retM tt).
Proof. solve_sim. Qed.
Lemma sim_delete_unit key :
  sim (let! _ := st_delete key in retM tt) (let! _ := st_delete key in retM tt).
Proof. solve_sim. Qed.
Lemma sim_batch_unit l :
  sim (let! _ := st_apply_batch l in retM tt) (let! _ := st_apply_batch l in retM tt).
Proof. solve_sim. Qed.
End Refinement.
#[export] Hint Resolve simr_get_then simr_map sim_put_unit sim_delete_unit sim_batch_unit : sim.

Section Components.
Context {S : Type} `{!Storage S, !LawfulStorage S}
  `{!Postcard str, !Postcard u64, !Postcard (list (str * str)), !Postcard (list str),
    !Postcard attachments.StoredAttachment, !Postcard inbox.AcceptedDelivery,
    !Postcard (list inbox.AcceptedDelivery), !Postcard contacts.Contact,
    !Postcard WalletPublicKey}.

Lemma inbox_entry_simr id : simr (S := S) (inbox.entry id) (inbox.entry id).
Proof.
  apply (simr_bind (st_get _) (st_get _)
    (λ input s, match input with Some input => _ | None => _ end)
    (λ input s, match input with Some input => _ | None => _ end)); [eauto with sim|].
  intros [input|]; [apply simr_const|apply simr_get_then].
Qed.

Lemma contacts_load_all_simr names :
  simr (S := S) (contacts.load_all names) (contacts.load_all names).
Proof.
  induction names as [|n names IH]; [apply simr_const|].
  apply (simr_bind (contacts.load n) (contacts.load n)
    (λ c s, bind_result (contacts.load_all names s) _)
    (λ c s, bind_result (contacts.load_all names s) _)); [apply simr_get_then|].
  intros c. by apply simr_map.
Qed.

Lemma contacts_first_match_simr p names :
  simr (S := S) (contacts.first_match p names) (contacts.first_match p names).
Proof.
  induction names as [|n names IH]; [apply simr_const|].
  apply (simr_bind (contacts.load n) (contacts.load n)
    (λ c s, match c with Some c => if p c then Ok (Some c) else contacts.first_match p names s
                       | None => contacts.first_match p names s end)
    (λ c s, match c with Some c => if p c then Ok (Some c) else contacts.first_match p names s
                       | None => contacts.first_match p names s end)); [apply simr_get_then|].
  intros [c|]; [|done]. destruct (p c); [apply simr_const|done].
Qed.

Lemma names_note_sim id name : sim (S := S) (names.note id name) (names.note id name).
Proof.
  unfold names.note. case_bool_decide; [eauto with sim|].
  apply sim_bind; [apply sim_read, simr_get_then|].
  intros l. destruct (List.find _ l); [case_bool_decide|]; eauto with sim.
Qed.
Lemma names_get_simr id : simr (S := S) (names.get id) (names.get id).
Proof. apply simr_map, simr_get_then. Qed.
Lemma blocklist_load_simr : simr (S := S) blocklist.load blocklist.load.
Proof. apply simr_get_then. Qed.
Lemma blocklist_block_sim u : sim (S := S) (blocklist.block u) (blocklist.block u).
Proof.
  apply sim_bind; [eauto with sim|]. intros uid.
  apply sim_bind; [apply sim_read, blocklist_load_simr|].
  intros l. destruct (negb _); eauto with sim.
Qed.
Lemma blocklist_unblock_sim u : sim (S := S) (blocklist.unblock u) (blocklist.unblock u).
Proof.
  apply sim_bind; [eauto with sim|]. intros uid.
  apply sim_bind; [apply sim_read, blocklist_load_simr|]. eauto with sim.
Qed.
Lemma inbox_seen_simr id d : simr (S := S) (inbox.seen id d) (inbox.seen id d).
Proof. apply simr_map, inbox_entry_simr. Qed.
Lemma inbox_record_sim id d now : sim (S := S) (inbox.record id d now) (inbox.record id d now).
Proof.
  apply sim_bind; [apply sim_read, inbox_entry_simr|].
  intros [e|]; [case_bool_decide|]; eauto with sim.
Qed.
Lemma contacts_names_simr : simr (S := S) contacts.list_names contacts.list_names.
Proof. apply simr_get_then. Qed.
Lemma contacts_load_simr n : simr (S := S) (contacts.load n) (contacts.load n).
Proof. apply simr_get_then. Qed.
Lemma contacts_save_sim c : sim (S := S) (contacts.save c) (contacts.save c).
Proof. apply sim_bind; [apply sim_read, contacts_names_simr|]. eauto with sim. Qed.
Lemma contacts_list_simr : simr (S := S) contacts.list_ contacts.list_.
Proof.
  apply (simr_bind contacts.list_names contacts.list_names contacts.load_all contacts.load_all);
    [apply contacts_names_simr|apply contacts_load_all_simr].
Qed.
Lemma contacts_remove_sim n : sim (S := S) (contacts.remove n) (contacts.remove n).
Proof. apply sim_bind; [apply sim_read, contacts_names_simr|]. eauto with sim. Qed.
Lemma contacts_by_user_id_simr u : simr (S := S) (contacts.by_user_id u) (contacts.by_user_id u).
Proof.
  apply (simr_bind contacts.list_names contacts.list_names
    (contacts.first_match _) (contacts.first_match _));
    [apply contacts_names_simr|apply contacts_first_match_simr].
Qed.
Lemma contacts_by_handle_simr u : simr (S := S) (contacts.by_handle u) (contacts.by_handle u).
Proof.
  apply (simr_bind contacts.list_names contacts.list_names
    (contacts.first_match _) (contacts.first_match _));
    [apply contacts_names_simr|apply contacts_first_match_simr].
Qed.

(** on any lawful store - a file store as well as memory - every
    operation of the local stores either does exactly what it does on the
    abstract map, errors and results included, or reports a failure of the
    store itself. *)
Theorem local_state_refines
    (peer text id name u n : str) (ttl now : u64) (a : attachments.StoredAttachment)
    (d : PayloadDigest) (c : contacts.Contact) (w : WalletPublicKey) :
  sim (S := S) (draft.set peer text) (draft.set peer text) ∧
  simr (S := S) (draft.get peer) (draft.get peer) ∧
  sim (S := S) (draft.clear peer) (draft.clear peer) ∧
  sim (S := S) (expiry.set peer ttl) (expiry.set peer ttl) ∧
  simr (S := S) (expiry.get peer) (expiry.get peer) ∧
  sim (S := S) (expiry.clear peer) (expiry.clear peer) ∧
  sim (S := S) (names.note id name) (names.note id name) ∧
  simr (S := S) (names.get id) (names.get id) ∧
  sim (S := S) (blocklist.block u) (blocklist.block u) ∧
  sim (S := S) (blocklist.unblock u) (blocklist.unblock u) ∧
  sim (S := S) (attachments.save a) (attachments.save a) ∧
  simr (S := S) (attachments.load id) (attachments.load id) ∧
  simr (S := S) (inbox.seen id d) (inbox.seen id d) ∧
  sim (S := S) (inbox.record id d now) (inbox.record id d now) ∧
  sim (S := S) (contacts.save c) (contacts.save c) ∧
  simr (S := S) contacts.list_ contacts.list_ ∧
  sim (S := S) (contacts.remove n) (contacts.remove n) ∧
  simr (S := S) (contacts.by_handle n) (contacts.by_handle n) ∧
  simr (S := S) (contacts.by_user_id u) (contacts.by_user_id u) ∧
  sim (S := S) (verified.mark u w) (verified.mark u w) ∧
  simr (S := S) (verified.get u) (verified.get u).
Proof.
  split_and!; auto using names_note_sim, names_get_simr, blocklist_block_sim,
    blocklist_unblock_sim, inbox_seen_simr, inbox_record_sim, contacts_save_sim,
    contacts_list_simr, contacts_remove_sim, contacts_by_user_id_simr, contacts_by_handle_simr;
    first [apply simr_get_then|apply sim_put_unit|apply sim_delete_unit|apply sim_put].
Qed.
End Components.

(** ** Behaviour on the abstract map *)
Section Behaviour.
Context `{!Postcard str, !Postcard u64, !Postcard (list (str * str)), !Postcard (list str),
    !Postcard attachments.StoredAttachment, !Postcard inbox.AcceptedDelivery,
    !Postcard (list inbox.AcceptedDelivery), !Postcard contacts.Contact,
    !Postcard WalletPublicKey}.

(** The bytes under [key] are not a value of type [T] in the current format. *)
Definition corrupt (T : Type) `{!Postcard T} (m : Mem) (key : bytes) : Prop :=
  ∃ b, m !! key = Some b ∧ is_err (wire.decode (T := T) b) = true.

Lemma corrupt_get (T : Type) `{!Postcard T} (m : Mem) key :
  corrupt T m key → ∃ b e, st_get key m = Ok (Some b) ∧ wire.decode (T := T) b = Err e.
Proof.
  intros (b & Hb & He). simpl. rewrite Hb.
  destruct (wire.decode b) as [x|e] eqn:Hd; [done|]. by exists b, e.
Qed.

(** present-but-unreadable local state is reported and never overwritten:
    every operation that would have to read it fails and leaves the store as
    it is, and a damaged verification pin or address book counts as a changed
    identity, never as a first contact. *)
Theorem corrupt_state_fails_closed (m : Mem) (id name u : str) (d : PayloadDigest) (now : u64)
    (c : contacts.Contact) (w : WalletPublicKey) :
  (corrupt (list (str * str)) m names.KEY → name ≠ [] →
     ∃ e, names.note id name m = (Err e, m)) ∧
  (corrupt (list str) m blocklist.KEY → UserId.valid u = true →
     ∃ e, blocklist.block u m = (Err e, m) ∧ blocklist.unblock u m = (Err e, m)) ∧
  (corrupt inbox.AcceptedDelivery m (inbox.key id) →
     ∃ e, inbox.record id d now m = (Err e, m) ∧ inbox.seen id d m = Err e) ∧
  (corrupt (list str) m contacts.INDEX_KEY →
     ∃ e, contacts.save c m = (Err e, m) ∧ contacts.remove name m = (Err e, m) ∧
          contacts.list_ m = Err e) ∧
  (corrupt WalletPublicKey m (verified.key u) → verified.level u w m = verified.Changed) ∧
  (corrupt (list str) m contacts.INDEX_KEY → verified.get u m = Ok None →
     verified.level u w m = verified.Changed).
Proof.
  split_and!.
  - intros (b & e & Hg & Hd)%corrupt_get Hn. unfold names.note.
    rewrite bool_decide_false by done. unfold bindM, readM, names.load. rewrite Hg. simpl.
    rewrite Hd. eauto.
  - intros (b & e & Hg & Hd)%corrupt_get Hu.
    unfold blocklist.block, blocklist.unblock, bindM, liftM, readM, blocklist.load. rewrite Hg.
    assert (is_err (UserId.new u) = false) as Hok by (by rewrite UserId.uid_new_is_err, Hu).
    destruct (UserId.new u) as [uid|]; [|done]. simpl. rewrite Hd. eauto.
  - intros (b & e & Hg & Hd)%corrupt_get.
    unfold inbox.record, inbox.seen, bindM, readM, inbox.entry. rewrite Hg. simpl.
    unfold inbox.decode_entry. rewrite Hd. eauto.
  - intros (b & e & Hg & Hd)%corrupt_get.
    unfold contacts.save, contacts.remove, contacts.list_, bindM, readM, contacts.list_names.
    rewrite Hg. simpl. rewrite Hd. eauto.
  - intros (b & e & Hg & Hd)%corrupt_get. unfold verified.level, verified.get. rewrite Hg. simpl.
    by rewrite Hd.
  - intros (b & e & Hg & Hd)%corrupt_get Hn. unfold verified.level. rewrite Hn.
    unfold contacts.by_user_id, contacts.list_names. rewrite Hg. simpl. by rewrite Hd.
Qed.

(** *** Block list *)
Lemma blocklist_load_put (l : list str) (m : Mem) :
  forallb UserId.valid l = true →
  blocklist.load (<[blocklist.KEY := wire.encode l]> m) = Ok l.
Proof.
  intros Hl. unfold blocklist.load. simpl. rewrite lookup_insert_eq, wire.decode_encode. simpl.
  rewrite (proj2 (existsb_false _ _)); [done|]. intros x Hx.
  rewrite UserId.uid_new_is_err. rewrite forallb_forall in Hl.
  by rewrite Hl by (by apply list_elem_of_In).
Qed.

Lemma blocklist_load_valid (m : Mem) (l : list str) :
  blocklist.load m = Ok l → forallb UserId.valid l = true.
Proof.
  unfold blocklist.load. simpl. destruct (m !! blocklist.KEY) as [b|]; [|by intros [= <-]].
  destruct (wire.decode b) as [users|]; [|done]. simpl.
  destruct (existsb _ users) eqn:He; [done|]. intros [= <-].
  apply forallb_forall. intros x Hx%list_elem_of_In.
  pose proof (proj1 (existsb_false _ _) He x Hx) as Hv. cbn beta in Hv. rewrite UserId.uid_new_is_err in Hv.
  by apply negb_false_iff.
Qed.

Lemma is_blocked_elem (l : list str) u : blocklist.is_blocked l u = bool_decide (u ∈ l).
Proof.
  apply eq_true_iff_eq. unfold blocklist.is_blocked. rewrite existsb_elem, bool_decide_eq_true.
  split.
  - by intros (x & Hx & ->%bool_decide_eq_true).
  - intros Hu. exists u. by rewrite bool_decide_eq_true.
Qed.

Lemma block_run (m : Mem) (l : list str) u :
  blocklist.load m = Ok l → UserId.valid u = true →
  blocklist.block u m =
  (Ok tt, if decide (u ∈ l) then m else <[blocklist.KEY := wire.encode (l ++ [u])]> m).
Proof.
  intros Hl Hu. pose proof (is_blocked_elem l u) as He.
  unfold blocklist.is_blocked in He. unfold blocklist.block, bindM, liftM, readM.
  destruct (UserId.new u) as [uid|e] eqn:Hn.
  - apply UserId.uid_new_Ok in Hn. simpl. rewrite Hl, Hn, He.
    destruct (decide (u ∈ l)); [rewrite bool_decide_true by done|rewrite bool_decide_false by done];
      done.
  - pose proof (UserId.uid_new_is_err u) as H. rewrite Hn, Hu in H. done.
Qed.

Lemma unblock_run (m : Mem) (l : list str) u :
  blocklist.load m = Ok l → UserId.valid u = true →
  blocklist.unblock u m = (Ok tt, <[blocklist.KEY := wire.encode
    (List.filter (λ known, negb (bool_decide (known = u))) l)]> m).
Proof.
  intros Hl Hu. unfold blocklist.unblock, bindM, liftM, readM.
  destruct (UserId.new u) as [uid|e] eqn:Hn.
  - apply UserId.uid_new_Ok in Hn. simpl. by rewrite Hl, Hn.
  - pose proof (UserId.uid_new_is_err u) as H. rewrite Hn, Hu in H. done.
Qed.

(** blocking is a set operation on user ids: on a readable list, blocking
    or unblocking a valid id succeeds, changes the status of that id and of no
    other, is idempotent, and keeps the list readable; an invalid id is
    refused without touching the store. *)
Theorem blocklist_is_a_set (m : Mem) (l : list str) (u : str) (Hl : blocklist.load m = Ok l) :
  (UserId.valid u = true →
    ∃ m1 l1 m2 l2,
      blocklist.block u m = (Ok tt, m1) ∧ blocklist.load m1 = Ok l1 ∧
      blocklist.block u m1 = (Ok tt, m1) ∧
      (∀ v, blocklist.is_blocked l1 v = bool_decide (v = u) || blocklist.is_blocked l v) ∧
      blocklist.unblock u m = (Ok tt, m2) ∧ blocklist.load m2 = Ok l2 ∧
      (∀ v, blocklist.is_blocked l2 v =
            negb (bool_decide (v = u)) && blocklist.is_blocked l v)) ∧
  (UserId.valid u = false →
    blocklist.block u m = (Err (Anyhow b#"invalid user id"), m) ∧
    blocklist.unblock u m = (Err (Anyhow b#"invalid user id"), m)).
Proof.
  pose proof (blocklist_load_valid m l Hl) as Hval. split; intros Hu.
  - set (l1 := if decide (u ∈ l) then l else l ++ [u]).
    set (m1 := if decide (u ∈ l) then m else <[blocklist.KEY := wire.encode (l ++ [u])]> m).
    assert (blocklist.load m1 = Ok l1) as Hl1.
    { unfold m1, l1. destruct (decide (u ∈ l)); [done|]. apply blocklist_load_put.
      rewrite forallb_app, Hval. simpl. by rewrite Hu. }
    assert (∀ v, v ∈ l1 ↔ v = u ∨ v ∈ l) as Hin.
    { intros v. unfold l1. destruct (decide (u ∈ l)); [split; [auto|by intros [->|?]]|].
      rewrite elem_of_app, list_elem_of_singleton. tauto. }
    eexists m1, l1, _, _. split_and!.
    + by apply block_run.
    + done.
    + rewrite (block_run m1 l1) by done. rewrite decide_True; [done|]. apply Hin. by left.
    + intros v. rewrite !is_blocked_elem. apply eq_true_iff_eq.
      by rewrite orb_true_iff, !bool_decide_eq_true, Hin.
    + by apply unblock_run.
    + apply blocklist_load_put. apply forallb_forall. intros x [Hx _]%filter_In.
      rewrite forallb_forall in Hval. by apply Hval.
    + intros v. rewrite !is_blocked_elem. apply eq_true_iff_eq.
      rewrite andb_true_iff, !bool_decide_eq_true, elem_of_filterb. tauto.
  - unfold blocklist.block, blocklist.unblock, bindM, liftM.
    pose proof (UserId.uid_new_is_err u) as H. rewrite Hu in H.
    by destruct (UserId.new u).
Qed.

(** *** Acceptance records *)

(** A request to record an acceptance: id, payload digest, time. *)
Definition accept_all (reqs : list (str * PayloadDigest * u64)) (m : Mem) : Mem :=
  fold_left (λ m '(id, d, now), (inbox.record id d now m).2) reqs m.

Definition is_for (id : str) (req : str * PayloadDigest * u64) : bool :=
  bool_decide (req.1.1 = id).

Lemma inbox_keys (id id' : str) : inbox.key id = inbox.key id' ↔ id = id'.
Proof. apply key_prefix_inj. Qed.

Lemma inbox_key_legacy id : inbox.key id ≠ inbox.LEGACY_KEY.
Proof. intros H. apply (f_equal (λ k, nth 17 k zero_byte)) in H. discriminate H. Qed.

Lemma inbox_entry_put (id id' : str) (a : inbox.AcceptedDelivery) (m : Mem) :
  inbox.entry id (<[inbox.key id' := wire.encode a]> m) =
  if decide (id = id') then Ok (Some a) else inbox.entry id m.
Proof.
  unfold inbox.entry. simpl. destruct (decide (id = id')) as [->|Hne].
  - rewrite lookup_insert_eq. unfold inbox.decode_entry. by rewrite wire.decode_encode.
  - rewrite lookup_insert_ne by (rewrite inbox_keys; congruence).
    unfold inbox.legacy_entry. simpl.
    by rewrite lookup_insert_ne by (apply inbox_key_legacy).
Qed.

Lemma inbox_record_run (id : str) (d : PayloadDigest) (now : u64) (m : Mem) :
  inbox.record id d now m =
  match inbox.entry id m with
  | Ok None => (Ok tt, <[inbox.key id := wire.encode (inbox.mkAccepted id d now)]> m)
  | Ok (Some _) => (Ok tt, m)
  | Err e => (Err e, m)
  end.
Proof.
  unfold inbox.record, bindM, readM. destruct (inbox.entry id m) as [[e|]|e]; [|done..].
  by case_bool_decide.
Qed.

Lemma inbox_record_keeps (id : str) (d : PayloadDigest) (now : u64) (id' : str) (m : Mem) (e : inbox.AcceptedDelivery) :
  inbox.entry id' m = Ok (Some e) → inbox.entry id' (inbox.record id d now m).2 = Ok (Some e).
Proof.
  intros He. rewrite inbox_record_run. destruct (inbox.entry id m) as [[x|]|x] eqn:Hx; try done.
  simpl. rewrite inbox_entry_put. destruct (decide (id' = id)) as [->|]; [congruence|done].
Qed.

Lemma accept_all_keeps (id : str) (reqs : list (str * PayloadDigest * u64)) (m : Mem) (e : inbox.AcceptedDelivery) :
  inbox.entry id m = Ok (Some e) → inbox.entry id (accept_all reqs m) = Ok (Some e).
Proof.
  unfold accept_all. revert m. induction reqs as [|[[id' d] now] reqs IH]; intros m He; [done|].
  simpl. by apply IH, inbox_record_keeps.
Qed.

(** a delivery id is accepted once and for ever: after any sequence of
    acceptances on a store where the id was new, the first acceptance of that
    id is the one on record - the same payload is a duplicate, any other
    payload under the id is a collision, whatever was recorded afterwards or
    for other ids - and an id never accepted is still new. *)
Theorem first_acceptance_wins (reqs : list (str * PayloadDigest * u64)) (m : Mem) (id : str)
    (d : PayloadDigest) (Hnew : inbox.seen id d m = Ok inbox.New) :
  inbox.seen id d (accept_all reqs m) =
  Ok (match List.find (is_for id) reqs with
      | None => inbox.New
      | Some (_, d0, _) => if bool_decide (d0 = d) then inbox.Duplicate else inbox.Collision
      end).
Proof.
  unfold inbox.seen in *. destruct (inbox.entry id m) as [[x|]|x] eqn:Hx; simpl in Hnew;
    [by case_bool_decide| |done]. clear Hnew.
  revert m Hx. induction reqs as [|[[id' d'] now] reqs IH]; intros m Hx; [by simpl; rewrite Hx|].
  simpl. unfold is_for at 1. simpl. rewrite inbox_record_run. case_bool_decide as Hid.
  - subst id'. rewrite Hx.
    rewrite (accept_all_keeps id reqs _ (inbox.mkAccepted id d' now)); [done|].
    simpl. rewrite inbox_entry_put. by rewrite decide_True.
  - apply IH. destruct (inbox.entry id' m) as [[y|]|y]; [done| |done]. simpl.
    rewrite inbox_entry_put. by rewrite decide_False by congruence.
Qed.

(** *** Address book *)

(** The store holds exactly the contacts [cs], in the order of the index. *)
Record book (m : Mem) (cs : list contacts.Contact) : Prop := {
  bk_index : contacts.list_names m = Ok (map contacts.nickname cs);
  bk_nodup : NoDup (map contacts.nickname cs);
  bk_load : ∀ n, contacts.load n m =
    Ok (List.find (λ c, bool_decide (contacts.nickname c = n)) cs)
}.

(** Saving replaces the contact of that nickname in place, or appends. *)
Fixpoint upsert (c : contacts.Contact) (cs : list contacts.Contact) : list contacts.Contact :=
  match cs with
  | [] => [c]
  | c' :: cs' =>
      if bool_decide (contacts.nickname c' = contacts.nickname c) then c :: cs'
      else c' :: upsert c cs'
  end.

Definition without (n : str) (cs : list contacts.Contact) : list contacts.Contact :=
  List.filter (λ c, negb (bool_decide (contacts.nickname c = n))) cs.

Lemma contact_key_index n : contacts.contact_key n ≠ contacts.INDEX_KEY.
Proof. intros H. apply (f_equal (λ k, nth 7 k zero_byte)) in H. discriminate H. Qed.

Lemma upsert_names c cs :
  map contacts.nickname (upsert c cs) =
  if decide (contacts.nickname c ∈ map contacts.nickname cs) then map contacts.nickname cs
  else map contacts.nickname cs ++ [contacts.nickname c].
Proof.
  induction cs as [|c' cs IH]; simpl; [done|]. case_bool_decide as Heq; simpl.
  - rewrite Heq. rewrite decide_True by (by left). done.
  - rewrite IH. destruct (decide (contacts.nickname c ∈ map contacts.nickname cs)) as [Hin|Hout].
    + by rewrite decide_True by (by right).
    + rewrite decide_False; [done|]. by intros [?|?]%elem_of_cons.
Qed.

Lemma find_upsert c cs (n : str) :
  List.find (λ c, bool_decide (contacts.nickname c = n)) (upsert c cs) =
  if decide (contacts.nickname c = n) then Some c
  else List.find (λ c, bool_decide (contacts.nickname c = n)) cs.
Proof.
  induction cs as [|c' cs IH]; simpl.
  { by destruct (decide _) as [H|H]; [rewrite bool_decide_true|rewrite bool_decide_false]. }
  case_bool_decide as Heq; simpl.
  - rewrite Heq. destruct (decide (contacts.nickname c = n)) as [Hn|Hn].
    + by rewrite bool_decide_true.
    + by rewrite bool_decide_false.
  - rewrite IH. destruct (decide (contacts.nickname c = n)) as [Hn|]; [|done].
    by rewrite bool_decide_false by congruence.
Qed.

Lemma find_without cs (n n' : str) :
  List.find (λ c, bool_decide (contacts.nickname c = n')) (without n cs) =
  if decide (n' = n) then None else List.find (λ c, bool_decide (contacts.nickname c = n')) cs.
Proof.
  induction cs as [|c cs IH]; simpl; [by destruct (decide _)|].
  destruct (bool_decide_reflect (contacts.nickname c = n)) as [Hn|Hn]; simpl.
  - rewrite IH. destruct (decide (n' = n)) as [|Hne]; [done|].
    by rewrite bool_decide_false by congruence.
  - rewrite IH. destruct (decide (n' = n)) as [->|Hne]; [by rewrite bool_decide_false|done].
Qed.

Lemma contains_elem (l : list str) x : contacts.contains l x = bool_decide (x ∈ l).
Proof. apply is_blocked_elem. Qed.

Lemma book_empty : book ∅ [].
Proof. split; [done|apply NoDup_nil_2|done]. Qed.

Lemma contacts_load_put (n : str) (c : contacts.Contact) (m : Mem) :
  contacts.load n (<[contacts.contact_key (contacts.nickname c) := wire.encode c]> m) =
  if decide (contacts.nickname c = n) then Ok (Some c) else contacts.load n m.
Proof.
  unfold contacts.load. simpl. destruct (decide _) as [<-|Hne].
  - by rewrite lookup_insert_eq, load_state_encode.
  - rewrite lookup_insert_ne; [done|]. unfold contacts.contact_key. by rewrite key_prefix_inj.
Qed.

Lemma contacts_load_index (n : str) (b : bytes) (m : Mem) :
  contacts.load n (<[contacts.INDEX_KEY := b]> m) = contacts.load n m.
Proof.
  unfold contacts.load. simpl. rewrite lookup_insert_ne; [done|].
  apply not_eq_sym, contact_key_index.
Qed.

Lemma contacts_index_put (l : list str) (m : Mem) :
  contacts.list_names (<[contacts.INDEX_KEY := wire.encode l]> m) = Ok l.
Proof.
  unfold contacts.list_names. simpl. by rewrite lookup_insert_eq, decode_state_encode.
Qed.

Lemma contacts_index_key (n : str) (b : bytes) (m : Mem) :
  contacts.list_names (<[contacts.contact_key n := b]> m) = contacts.list_names m.
Proof.
  unfold contacts.list_names. simpl. rewrite lookup_insert_ne; [done|apply contact_key_index].
Qed.

Lemma book_save (m : Mem) cs (c : contacts.Contact) :
  book m cs → ∃ m', contacts.save c m = (Ok tt, m') ∧ book m' (upsert c cs).
Proof.
  intros [Hi Hnd Hl]. unfold contacts.save, bindM, readM. rewrite Hi, contains_elem.
  pose proof (upsert_names c cs) as Hn.
  destruct (decide (contacts.nickname c ∈ map contacts.nickname cs)) as [Hin|Hout].
  - rewrite bool_decide_true by done. simpl. eexists. split; [done|]. split.
    + by rewrite contacts_index_key, Hn.
    + by rewrite Hn.
    + intros n. rewrite contacts_load_put, find_upsert, Hl. by destruct (decide _).
  - rewrite bool_decide_false by done. simpl. eexists. split; [done|]. split.
    + by rewrite contacts_index_put, Hn.
    + rewrite Hn. apply list.NoDup_app. split_and!; [done| |apply NoDup_singleton].
      by intros x Hx ->%list_elem_of_singleton.
    + intros n. rewrite contacts_load_index, contacts_load_put, find_upsert, Hl.
      by destruct (decide _).
Qed.

Lemma without_names n cs :
  map contacts.nickname (without n cs) =
  List.filter (λ x, negb (bool_decide (x = n))) (map contacts.nickname cs).
Proof.
  induction cs as [|c cs IH]; simpl; [done|].
  destruct (negb _); simpl; by rewrite IH.
Qed.

Lemma book_remove (m : Mem) cs (n : str) :
  book m cs → ∃ m', contacts.remove n m = (Ok tt, m') ∧ book m' (without n cs).
Proof.
  intros [Hi Hnd Hl]. unfold contacts.remove, bindM, readM. rewrite Hi. simpl.
  eexists. split; [done|]. split.
  - by rewrite contacts_index_put, without_names.
  - rewrite without_names. apply NoDup_ListNoDup, List.NoDup_filter. by apply NoDup_ListNoDup.
  - intros n'. rewrite contacts_load_index, find_without. unfold contacts.load in *. simpl in *.
    destruct (decide (n' = n)) as [->|Hne].
    + by rewrite lookup_delete_eq.
    + rewrite lookup_delete_ne; [apply Hl|]. unfold contacts.contact_key.
      rewrite key_prefix_inj. congruence.
Qed.

Lemma load_all_find (m : Mem) (cs all : list contacts.Contact) :
  (∀ n, contacts.load n m = Ok (List.find (λ c, bool_decide (contacts.nickname c = n)) all)) →
  (∀ c, c ∈ cs → List.find (λ c', bool_decide (contacts.nickname c' = contacts.nickname c)) all
                 = Some c) →
  contacts.load_all (map contacts.nickname cs) m = Ok cs ∧
  ∀ p, contacts.first_match p (map contacts.nickname cs) m = Ok (List.find p cs).
Proof.
  intros Hl. induction cs as [|c cs IH]; intros Hf; simpl; [done|].
  rewrite Hl, Hf by left. destruct IH as [-> IH]; [intros c' ?; apply Hf; by right|].
  simpl. split; [done|]. intros p. by destruct (p c); [|rewrite IH].
Qed.

Lemma find_self (cs : list contacts.Contact) c :
  NoDup (map contacts.nickname cs) → c ∈ cs →
  List.find (λ c', bool_decide (contacts.nickname c' = contacts.nickname c)) cs = Some c.
Proof.
  induction cs as [|c' cs IH]; simpl; [by intros _ []%elem_of_nil|].
  intros [Hout Hnd]%list.NoDup_cons [<-|Hin]%elem_of_cons; [by rewrite bool_decide_true|].
  rewrite bool_decide_false; [by apply IH|]. intros Heq. apply Hout. rewrite Heq.
  by apply list_elem_of_In, in_map, list_elem_of_In.
Qed.

(** the address book is a list of contacts with distinct nicknames, kept
    consistent with its index: saving inserts or replaces the contact of that
    nickname in place, removing deletes it, and every lookup - by nickname,
    user id or handle, and the whole list - answers what that list says. *)
Theorem contacts_refine (m : Mem) (cs : list contacts.Contact) (Hb : book m cs) :
  (∀ c, ∃ m', contacts.save c m = (Ok tt, m') ∧ book m' (upsert c cs)) ∧
  (∀ n, ∃ m', contacts.remove n m = (Ok tt, m') ∧ book m' (without n cs)) ∧
  contacts.list_ m = Ok cs ∧
  (∀ n, contacts.load n m = Ok (List.find (λ c, bool_decide (contacts.nickname c = n)) cs)) ∧
  (∀ u, contacts.by_user_id u m =
    Ok (List.find (λ c, bool_decide (contacts.user_id c = u)) cs)) ∧
  (∀ h, contacts.by_handle h m =
    Ok (List.find (λ c, bool_decide (contacts.handle c = h)) cs)).
Proof.
  destruct (load_all_find m cs cs) as [Hall Hfirst]; [apply Hb|..].
  { intros c Hc. by apply find_self; [apply Hb|]. }
  split_and!.
  - intros c. by apply book_save.
  - intros n. by apply book_remove.
  - unfold contacts.list_. by rewrite (bk_index _ _ Hb).
  - apply Hb.
  - intros u. unfold contacts.by_user_id. rewrite (bk_index _ _ Hb). apply Hfirst.
  - intros h. unfold contacts.by_handle. rewrite (bk_index _ _ Hb). apply Hfirst.
Qed.

(** trust is never overstated: a peer is [Verified] only when the wallet
    verified out of band is the current one, [Pinned] only when no
    verification exists and the address book pins the current one,
    [Unverified] only when neither exists; a mismatch anywhere is [Changed]. *)
Theorem trust_level_sound (m : Mem) (cs : list contacts.Contact) (u : str)
    (current : WalletPublicKey) (Hb : book m cs) :
  verified.level u current m =
  match verified.get u m with
  | Err _ => verified.Changed
  | Ok (Some v) => if decide (v = current) then verified.Verified else verified.Changed
  | Ok None =>
      match List.find (λ c, bool_decide (contacts.user_id c = u)) cs with
      | Some c => if decide (contacts.wallet c = current) then verified.Pinned
                  else verified.Changed
      | None => verified.Unverified
      end
  end ∧
  (∀ w, verified.mark u w m = (Ok tt, (verified.mark u w m).2) ∧
        verified.level u current (verified.mark u w m).2 =
        if decide (w = current) then verified.Verified else verified.Changed).
Proof.
  destruct (load_all_find m cs cs) as [_ Hfirst]; [apply Hb|..].
  { intros c Hc. by apply find_self; [apply Hb|]. }
  split.
  - unfold verified.level. destruct (verified.get u m) as [[v|]|e];
      [apply if_bool_decide| |done].
    unfold contacts.by_user_id. rewrite (bk_index _ _ Hb). simpl. rewrite Hfirst.
    destruct (List.find _ cs); [apply if_bool_decide|done].
  - intros w. split; [done|]. unfold verified.level, verified.get. simpl.
    rewrite lookup_insert_eq, load_state_encode. apply if_bool_decide.
Qed.
End Behaviour.

(** ** Witnesses *)

#[export] Instance AcceptedDelivery_codec : Codec inbox.AcceptedDelivery.
Proof.
  refine (codec_iso (λ a, (inbox.id a, inbox.payload_digest a, inbox.accepted_at a))
    (λ '(i, d, t), Some (inbox.mkAccepted i d t)) _). by intros [].
Defined.
#[export] Instance Contact_codec : Codec contacts.Contact.
Proof.
  refine (codec_iso (λ c, (contacts.nickname c, contacts.handle c, contacts.user_id c,
                           contacts.wallet c))
    (λ '(n, h, u, w), Some (contacts.mkContact n h u w)) _). by intros [].
Defined.
#[export] Instance StoredAttachment_codec : Codec attachments.StoredAttachment.
Proof.
  refine (codec_iso (λ a, (attachments.id a, attachments.name a, attachments.mime a,
                           attachments.data a))
    (λ '(i, n, t, d), Some (attachments.mkStoredAttachment i n t d)) _). by intros [].
Defined.

Definition toy_user (n : N) : str := hex (toy_hash 32 [byte_of n]).
Definition toy_contact : contacts.Contact :=
  contacts.mkContact b#"mary" b#"mary_x" (toy_user 1) (arr_fit 33 b#"wallet").

Lemma corrupt_state_fails_closed_witness :
  let m : Mem := <[blocklist.KEY := b#"garbage"]> ∅ in
  ∃ e, blocklist.block (toy_user 1) m = (Err e, m).
Proof.
  intros m.
  destruct (corrupt_state_fails_closed m [] [] (toy_user 1) (arr_fit 32 []) (U64 0) toy_contact
    (arr_fit 33 [])) as (_ & H & _).
  destruct H as (e & H & _).
  - exists b#"garbage". split; [apply lookup_insert_eq|vm_compute; reflexivity].
  - vm_compute. reflexivity.
  - by exists e.
Defined.

Lemma blocklist_is_a_set_witness :
  ∃ m1, blocklist.block (toy_user 1) (∅ : Mem) = (Ok tt, m1) ∧
        blocklist.block (toy_user 1) m1 = (Ok tt, m1).
Proof.
  assert (blocklist.load (∅ : Mem) = Ok []) as Hl by reflexivity.
  destruct (blocklist_is_a_set (∅ : Mem) [] (toy_user 1) Hl) as [H _].
  destruct H as (m1 & l1 & m2 & l2 & H1 & H2 & H3 & _); [vm_compute; reflexivity|].
  by exists m1.
Defined.

Lemma first_acceptance_wins_witness :
  let d := arr_fit 32 b#"one" in
  let d' := arr_fit 32 b#"two" in
  inbox.seen b#"x" d' (accept_all [(b#"x", d, U64 1); (b#"y", d', U64 2); (b#"x", d', U64 3)] ∅)
  = Ok inbox.Collision.
Proof.
  intros d d'.
  assert (inbox.seen b#"x" d' (∅ : Mem) = Ok inbox.New) as Hn by reflexivity.
  rewrite (first_acceptance_wins [(b#"x", d, U64 1); (b#"y", d', U64 2); (b#"x", d', U64 3)]
    ∅ b#"x" d' Hn). vm_compute. reflexivity.
Defined.

Lemma contacts_refine_witness :
  ∃ m', contacts.save toy_contact (∅ : Mem) = (Ok tt, m') ∧ book m' [toy_contact].
Proof. apply (contacts_refine ∅ [] book_empty). Defined.

Lemma trust_level_sound_witness :
  verified.level (toy_user 1) (arr_fit 33 b#"w") (∅ : Mem) = verified.Unverified.
Proof.
  destruct (trust_level_sound ∅ [] (toy_user 1) (arr_fit 33 b#"w") book_empty) as [H _].
  rewrite H. reflexivity.
Defined.
