(* ===== verification/Antirollback.v ===== *)
(** * Antirollback: [mycellium-engine/src/antirollback.rs]

    One pin per user holds the high-water mark of every independently signed
    component of a peer record; a record is accepted only if no component
    falls behind its mark or changes under the same version. *)

From S2P Require Import Prelude Crypto Wire Identity UserId Records Delivery Storage Instances.

Record DevicePins : Type := mkDevicePins {
  dp_key : DevicePublicKey;
  dp_stable : u64;
  dp_stable_digest : arr 32;
  dp_transport : u64;
  dp_transport_digest : arr 32
}.

Record VersionPins : Type := mkVersionPins {
  vp_identity : u64;
  vp_identity_digest : arr 32;
  vp_devices : list DevicePins
}.

(** [VersionPins::default] *)
Definition default_pins : VersionPins := mkVersionPins (U64 0) (arr_fit 32 (zeros 32)) [].

Section Antirollback.
Context {crypto : Crypto} {S : Type} `{!Storage S}
  `{!Postcard IdentityClaim, !Postcard DeviceRecord, !Postcard ReachabilityRecord,
    !Postcard VersionPins}.

Definition key (user_id : str) (wallet : WalletPublicKey) : bytes :=
  key_prefix b#"record-versions-v2:" user_id.

Definition digest {T} `{!Postcard T} (value : T) : arr 32 := payload_digest (wire.canonical value).

(** [load]: [None] for pins that are stored but unreadable. *)
Definition load_pins (handle : str) (wallet : WalletPublicKey) (store : S)
    : result error (option VersionPins) :=
  let? input := st_get (key handle wallet) store in
  match input with
  | None => Ok (Some default_pins)
  | Some input =>
      match wire.decode input with
      | Ok pins => Ok (Some pins)
      | Err _ => Ok None
      end
  end.

(** The components of a record and their digests. *)
Definition rec_device (record : SignedRecord) : Device := r_device (sg_record record).
Definition rec_key (record : SignedRecord) : DevicePublicKey :=
  device_key (sd_record (signed (rec_device record))).
Definition rec_seq (record : SignedRecord) : u64 := r_seq (sg_record record).
Definition rec_stable (record : SignedRecord) : u64 := dr_seq (sd_record (signed (rec_device record))).
Definition rec_transport (record : SignedRecord) : u64 :=
  rr_seq (sr_record (reachability (rec_device record))).
Definition identity_digest (record : SignedRecord) : arr 32 :=
  payload_digest (signing_bytes (sg_record record)).
Definition stable_digest (record : SignedRecord) : arr 32 :=
  digest (sd_record (signed (rec_device record))).
Definition transport_digest (record : SignedRecord) : arr 32 :=
  digest (sr_record (reachability (rec_device record))).

Definition is_device (record : SignedRecord) (known : DevicePins) : bool :=
  bool_decide (dp_key known = rec_key record).

(** The identity guard of [check_and_pin]. *)
Definition identity_stale (pins : VersionPins) (record : SignedRecord) : bool :=
  ultb (rec_seq record) (vp_identity pins)
  || (ueqb (rec_seq record) (vp_identity pins) && negb (ueqb (vp_identity pins) (U64 0))
      && negb (bool_decide (identity_digest record = vp_identity_digest pins))).

(** The guard on the device the record names, when it is already pinned. *)
Definition device_stale (known : DevicePins) (record : SignedRecord) : bool :=
  ultb (rec_stable record) (dp_stable known)
  || (ueqb (rec_stable record) (dp_stable known)
      && negb (bool_decide (stable_digest record = dp_stable_digest known)))
  || ultb (rec_transport record) (dp_transport known)
  || (ueqb (rec_transport record) (dp_transport known)
      && negb (bool_decide (transport_digest record = dp_transport_digest known))).

(** The mutation of a pinned device. *)
Definition advance_device (record : SignedRecord) (known : DevicePins) : DevicePins :=
  let known :=
    if ultb (dp_stable known) (rec_stable record)
    then mkDevicePins (dp_key known) (rec_stable record) (stable_digest record)
           (dp_transport known) (dp_transport_digest known)
    else known in
  if ultb (dp_transport known) (rec_transport record)
  then mkDevicePins (dp_key known) (dp_stable known) (dp_stable_digest known)
         (rec_transport record) (transport_digest record)
  else known.

(** The pins after an accepted record. *)
Definition advance_pins (pins : VersionPins) (record : SignedRecord) : VersionPins :=
  let '(identity, digest) :=
    if ultb (vp_identity pins) (rec_seq record) || ueqb (vp_identity pins) (U64 0)
    then (rec_seq record, identity_digest record)
    else (vp_identity pins, vp_identity_digest pins) in
  let devices :=
    match List.find (is_device record) (vp_devices pins) with
    | Some _ => update_first (is_device record) (advance_device record) (vp_devices pins)
    | None => vp_devices pins ++ [mkDevicePins (rec_key record) (rec_stable record)
                (stable_digest record) (rec_transport record) (transport_digest record)]
    end in
  mkVersionPins identity digest devices.

Definition check_and_pin (handle : str) (record : SignedRecord) : M S bool :=
  let wallet := r_wallet (sg_record record) in
  let! pins := readM (load_pins handle wallet) in
  match pins with
  | None => retM false
  | Some pins =>
      if identity_stale pins record then retM false
      else if match List.find (is_device record) (vp_devices pins) with
              | Some known => device_stale known record
              | None => false
              end
      then retM false
      else
        let pins := advance_pins pins record in
        let! _ := st_put (key handle wallet) (wire.encode pins) in
        retM true
  end.

Definition clear_pins (handle : str) (wallet : WalletPublicKey) : M S unit :=
  st_delete (key handle wallet).
End Antirollback.

(** ** Refinement *)
Lemma check_and_pin_sim {crypto : Crypto} {S : Type} `{!Storage S, !LawfulStorage S}
    `{!Postcard IdentityClaim, !Postcard DeviceRecord, !Postcard ReachabilityRecord,
      !Postcard VersionPins} handle record :
  sim (S := S) (check_and_pin handle record) (check_and_pin (S := Mem) handle record).
Proof.
  apply sim_bind.
  - apply sim_read.
    apply (simr_bind (st_get _) (st_get _) (λ input _, _) (λ input _, _)); eauto with sim.
  - intros [pins|]; [|eauto with sim].
    destruct (identity_stale pins record); [eauto with sim|].
    destruct (match List.find _ _ with Some _ => _ | None => _ end); [eauto with sim|].
    apply sim_bind; eauto with sim.
Qed.

(** ** Properties *)
Section Monotone.
Context {crypto : Crypto}
  `{!Postcard IdentityClaim, !Postcard DeviceRecord, !Postcard ReachabilityRecord,
    !Postcard VersionPins}.

(** A version never moves back, and keeps its content under the same number. *)
Definition ahead (v v' : u64) (d d' : arr 32) : Prop :=
  (u_val v < u_val v')%N ∨ (v = v' ∧ d = d').

(** What acceptance promises for two records of one user, the second accepted
    after the first. *)
Record no_rollback (old new : SignedRecord) : Prop := {
  nr_identity : (u_val (rec_seq old) ≤ u_val (rec_seq new))%N;
  nr_identity_same : rec_seq old = rec_seq new → rec_seq old ≠ U64 0 →
    identity_digest old = identity_digest new;
  nr_device : rec_key old = rec_key new →
    ahead (rec_stable old) (rec_stable new) (stable_digest old) (stable_digest new) ∧
    ahead (rec_transport old) (rec_transport new) (transport_digest old) (transport_digest new)
}.

(** What the pins remember of a record accepted earlier. *)
Record pinned (pins : VersionPins) (record : SignedRecord) : Prop := {
  pin_identity : (u_val (rec_seq record) ≤ u_val (vp_identity pins))%N;
  pin_identity_same : rec_seq record = vp_identity pins → rec_seq record ≠ U64 0 →
    identity_digest record = vp_identity_digest pins;
  pin_device : ∃ known, List.find (is_device record) (vp_devices pins) = Some known ∧
    ahead (rec_stable record) (dp_stable known)
          (stable_digest record) (dp_stable_digest known) ∧
    ahead (rec_transport record) (dp_transport known)
          (transport_digest record) (dp_transport_digest known)
}.

(** The two guards of [check_and_pin]. *)
Definition accepts (pins : VersionPins) (record : SignedRecord) : bool :=
  negb (identity_stale pins record)
  && match List.find (is_device record) (vp_devices pins) with
     | Some known => negb (device_stale known record)
     | None => true
     end.

Lemma check_and_pin_run (m : Mem) (handle : str) (record : SignedRecord) :
  check_and_pin handle record m =
  match load_pins handle (r_wallet (sg_record record)) m with
  | Ok (Some pins) =>
      if accepts pins record
      then (Ok true, <[key handle (r_wallet (sg_record record)) :=
                        wire.encode (advance_pins pins record)]> m)
      else (Ok false, m)
  | Ok None => (Ok false, m)
  | Err e => (Err e, m)
  end.
Proof.
  unfold check_and_pin, bindM, readM, accepts. destruct (load_pins _ _ m) as [[pins|]|e]; [|done..].
  destruct (identity_stale pins record); [done|].
  destruct (List.find _ _) as [known|]; [|done]. simpl. by destruct (device_stale known record).
Qed.

Lemma ahead_trans v1 v2 v3 d1 d2 d3 :
  ahead v1 v2 d1 d2 → ahead v2 v3 d2 d3 → ahead v1 v3 d1 d3.
Proof. intros [?|[-> ->]] [?|[-> ->]]; unfold ahead; auto. left. lia. Qed.

Lemma ahead_refl v d : ahead v v d d.
Proof. by right. Qed.

(** Not stale means ahead. *)
Lemma not_stale_ahead (v v' : u64) (d d' : arr 32) :
  ultb v' v || (ueqb v' v && negb (bool_decide (d' = d))) = false → ahead v v' d d'.
Proof.
  rewrite orb_false_iff, andb_false_iff, negb_false_iff, bool_decide_eq_true.
  unfold ultb, ueqb. intros [H1%N.ltb_ge H2]. destruct (N.eqb_spec (u_val v') (u_val v)) as [E|E].
  - destruct H2 as [|H2]; [done|]. right. split; [by apply uint_eq|done].
  - left. lia.
Qed.

Lemma device_fresh known record :
  device_stale known record = false →
  ahead (dp_stable known) (rec_stable record) (dp_stable_digest known) (stable_digest record) ∧
  ahead (dp_transport known) (rec_transport record)
        (dp_transport_digest known) (transport_digest record).
Proof.
  unfold device_stale. intros [[[H1 H2]%orb_false_iff H3]%orb_false_iff H4]%orb_false_iff.
  split; apply not_stale_ahead; [by rewrite H1, H2|by rewrite H3, H4].
Qed.

Lemma advance_device_ahead known record :
  device_stale known record = false →
  let known' := advance_device record known in
  dp_key known' = dp_key known ∧
  (dp_stable known' = rec_stable record ∧ dp_stable_digest known' = stable_digest record) ∧
  (dp_transport known' = rec_transport record ∧
   dp_transport_digest known' = transport_digest record).
Proof.
  intros [Hs Ht]%device_fresh. unfold advance_device, ultb.
  destruct Hs as [Hs|[Hs Hsd]], Ht as [Ht|[Ht Htd]];
    [rewrite (proj2 (N.ltb_lt _ _) Hs)|rewrite (proj2 (N.ltb_lt _ _) Hs)
    |rewrite Hs, N.ltb_irrefl|rewrite Hs, N.ltb_irrefl]; cbn [dp_transport];
    [rewrite (proj2 (N.ltb_lt _ _) Ht)|rewrite Ht, N.ltb_irrefl
    |rewrite (proj2 (N.ltb_lt _ _) Ht)|rewrite Ht, N.ltb_irrefl]; done.
Qed.

Lemma identity_fresh pins record :
  identity_stale pins record = false →
  (u_val (vp_identity pins) ≤ u_val (rec_seq record))%N ∧
  (rec_seq record = vp_identity pins → vp_identity pins ≠ U64 0 →
   identity_digest record = vp_identity_digest pins).
Proof.
  unfold identity_stale, ultb, ueqb.
  intros [H1%N.ltb_ge H2]%orb_false_iff. split; [done|]. intros Heq Hnz.
  rewrite Heq, N.eqb_refl in H2. simpl in H2.
  destruct (N.eqb_spec (u_val (vp_identity pins)) (u_val (U64 0))) as [E|E].
  - by apply uint_eq in E.
  - simpl in H2. by apply negb_false_iff, bool_decide_eq_true in H2.
Qed.

Lemma accepts_split pins record :
  accepts pins record = true →
  identity_stale pins record = false ∧
  ∀ known, List.find (is_device record) (vp_devices pins) = Some known →
    device_stale known record = false.
Proof.
  unfold accepts. intros [H1%negb_true_iff H2]%andb_true_iff. split; [done|].
  intros known Hk. rewrite Hk in H2. by apply negb_true_iff.
Qed.

Lemma is_device_ext r r' k : rec_key r = rec_key r' → is_device r k = is_device r' k.
Proof. unfold is_device. by intros ->. Qed.

Lemma advance_devices_self pins record :
  accepts pins record = true →
  ∃ known, List.find (is_device record) (vp_devices (advance_pins pins record)) = Some known ∧
    (dp_stable known = rec_stable record ∧ dp_stable_digest known = stable_digest record) ∧
    (dp_transport known = rec_transport record ∧
     dp_transport_digest known = transport_digest record).
Proof.
  intros [_ Hd]%accepts_split. unfold advance_pins.
  destruct (if ultb _ _ || _ then _ else _) as [i d]. cbn [vp_devices].
  destruct (List.find (is_device record) (vp_devices pins)) as [known|] eqn:Hf.
  - destruct (advance_device_ahead known record (Hd known eq_refl)) as (Hk & Hs & Ht).
    eexists. split; [|split; [exact Hs|exact Ht]]. rewrite find_update_first_self, Hf; [done|].
    intros x Hx. unfold is_device in *. rewrite <-Hx. f_equal. unfold advance_device.
    by repeat case_match.
  - eexists. rewrite find_app, Hf. simpl. unfold is_device at 1. simpl.
    by rewrite bool_decide_true.
Qed.

Lemma advance_devices_other pins record old :
  rec_key old ≠ rec_key record →
  List.find (is_device old) (vp_devices (advance_pins pins record)) =
  List.find (is_device old) (vp_devices pins).
Proof.
  intros Hne. unfold advance_pins. destruct (if ultb _ _ || _ then _ else _) as [i d].
  cbn [vp_devices]. destruct (List.find (is_device record) (vp_devices pins)).
  - apply find_update_first_other. intros x Hx%bool_decide_eq_true. unfold is_device.
    assert (dp_key (advance_device record x) = dp_key x) as ->
      by (unfold advance_device; by repeat case_match).
    by rewrite bool_decide_false by congruence.
  - rewrite find_app. simpl. unfold is_device at 2. simpl.
    rewrite bool_decide_false by congruence. by destruct (List.find _ _).
Qed.

Lemma advance_identity pins record :
  identity_stale pins record = false →
  vp_identity (advance_pins pins record) = rec_seq record ∧
  (rec_seq record ≠ U64 0 → vp_identity_digest (advance_pins pins record) = identity_digest record).
Proof.
  intros [Hle Hsame]%identity_fresh. unfold advance_pins, ultb, ueqb.
  destruct (N.ltb_spec (u_val (vp_identity pins)) (u_val (rec_seq record))) as [Hlt|Hge]; [done|].
  assert (vp_identity pins = rec_seq record) as Heq by (apply uint_eq; lia).
  destruct (N.eqb_spec (u_val (vp_identity pins)) (u_val (U64 0))) as [Hz|Hnz]; [done|].
  simpl. split; [done|]. intros Hn. symmetry. apply Hsame; [done|]. by rewrite Heq.
Qed.

Lemma accepted_pinned pins record :
  accepts pins record = true → pinned (advance_pins pins record) record.
Proof.
  intros Ha. pose proof (accepts_split _ _ Ha) as [Hi _].
  destruct (advance_identity _ _ Hi) as [H1 H2]. split.
  - by rewrite H1.
  - intros _ Hn. by rewrite H2.
  - destruct (advance_devices_self pins record Ha) as (known & Hf & [Hs Hsd] & [Ht Htd]).
    exists known. split; [done|]. rewrite Hs, Hsd, Ht, Htd. split; apply ahead_refl.
Qed.

Lemma pinned_no_rollback pins old new :
  pinned pins old → accepts pins new = true → no_rollback old new.
Proof.
  intros [Hi Hsame (known & Hf & Hs & Ht)] Ha.
  pose proof (accepts_split _ _ Ha) as [[H1 H2]%identity_fresh Hd]. split.
  - lia.
  - intros Heq Hnz. assert (rec_seq old = vp_identity pins) as Hv
      by (apply uint_eq; rewrite <-Heq in H1; lia).
    rewrite Hsame by done. symmetry. apply H2; congruence.
  - intros Hk. rewrite (find_ext _ (is_device new)) in Hf by (intros; by apply is_device_ext).
    destruct (device_fresh _ _ (Hd _ Hf)) as [Hs' Ht'].
    split; eapply ahead_trans; eauto.
Qed.

Lemma pinned_advance pins old new :
  pinned pins old → accepts pins new = true → pinned (advance_pins pins new) old.
Proof.
  intros Hp Ha. pose proof (pinned_no_rollback _ _ _ Hp Ha) as [Hi Hsame Hdev].
  pose proof (accepts_split _ _ Ha) as [Hid _].
  destruct (advance_identity _ _ Hid) as [H1 H2]. split.
  - by rewrite H1.
  - rewrite H1. intros Heq Hnz. rewrite H2 by congruence. by apply Hsame.
  - destruct (decide (rec_key old = rec_key new)) as [Hk|Hk].
    + destruct (advance_devices_self pins new Ha) as (known & Hf & [Hs Hsd] & [Ht Htd]).
      exists known. rewrite (find_ext _ (is_device new)) by (intros; by apply is_device_ext).
      split; [done|]. rewrite Hs, Hsd, Ht, Htd. by apply Hdev.
    + rewrite advance_devices_other by done. apply Hp.
Qed.

(** The records of one user that were accepted, in order, starting from a store. *)
Fixpoint accepted_records (handle : str) (records : list SignedRecord) (m : Mem)
    : list SignedRecord :=
  match records with
  | [] => []
  | r :: rs =>
      match check_and_pin handle r m with
      | (Ok true, m') => r :: accepted_records handle rs m'
      | (_, m') => accepted_records handle rs m'
      end
  end.

Lemma load_pins_put (handle : str) (w w' : WalletPublicKey) (pins : VersionPins) (m : Mem) :
  load_pins handle w (<[key handle w' := wire.encode pins]> m) = Ok (Some pins).
Proof.
  unfold load_pins. simpl. change (key handle w) with (key handle w').
  by rewrite lookup_insert_eq, wire.decode_encode.
Qed.

Lemma accepted_after (handle : str) (records : list SignedRecord) (m : Mem)
    (old : SignedRecord) (pins : VersionPins) :
  (∀ w, load_pins handle w m = Ok (Some pins)) → pinned pins old →
  Forall (no_rollback old) (accepted_records handle records m).
Proof.
  revert m pins. induction records as [|r rs IH]; intros m pins Hl Hp; cbn [accepted_records].
  { constructor. }
  rewrite check_and_pin_run, Hl. destruct (accepts pins r) eqn:Ha; [|by eapply IH].
  constructor; [by eapply pinned_no_rollback|].
  eapply IH; [|by apply pinned_advance]. intros w. apply load_pins_put.
Qed.


(** a corrupt high-water mark is never read as version zero: unreadable
    pins refuse every record and stay as they are; and a record that is
    refused never changes the store, while an accepted one changes only the
    user's pins. *)
Theorem pins_fail_closed (m : Mem) (handle : str) (record : SignedRecord) :
  match check_and_pin handle record m with
  | (Ok true, m') => (∃ pins, m' !! key handle (r_wallet (sg_record record)) =
        Some (wire.encode pins) ∧ pinned pins record) ∧
      ∀ k, k ≠ key handle (r_wallet (sg_record record)) → m' !! k = m !! k
  | (_, m') => m' = m
  end ∧
  (∀ b, m !! key handle (r_wallet (sg_record record)) = Some b →
     is_err (wire.decode (T := VersionPins) b) = true →
     check_and_pin handle record m = (Ok false, m)).
Proof.
  split.
  - rewrite check_and_pin_run. destruct (load_pins _ _ m) as [[pins|]|e]; [|done..].
    destruct (accepts pins record) eqn:Ha; [|done]. split.
    + eexists. split; [apply lookup_insert_eq|by apply accepted_pinned].
    + intros k Hk. by rewrite lookup_insert_ne.
  - intros b Hb Hd. rewrite check_and_pin_run. unfold load_pins. simpl. rewrite Hb. simpl.
    by destruct (wire.decode b).
Qed.
End Monotone.

(** ** Witnesses *)
#[export] Instance DevicePins_codec : Codec DevicePins.
Proof.
  refine (codec_iso (λ p, (dp_key p, dp_stable p, dp_stable_digest p, dp_transport p,
                           dp_transport_digest p))
    (λ '(k, s, sd, t, td), Some (mkDevicePins k s sd t td)) _). by intros [].
Defined.
#[export] Instance VersionPins_codec : Codec VersionPins.
Proof.
  refine (codec_iso (λ p, (vp_identity p, vp_identity_digest p, vp_devices p))
    (λ '(i, d, l), Some (mkVersionPins i d l)) _). by intros [].
Defined.

Lemma pins_fail_closed_witness :
  let m : Mem := <[key b#"u" (r_wallet (sg_record sample_record)) := b#"junk"]> ∅ in
  check_and_pin b#"u" sample_record m = (Ok false, m).
Proof.
  intros m. destruct (pins_fail_closed m b#"u" sample_record) as [_ H].
  apply (H b#"junk").
  - apply lookup_insert_eq.
  - vm_compute. reflexivity.
Defined.
