(* ===== verification/History.v ===== *)
(** * History: [mycellium-engine/src/history.rs]

    A transcript is a run of segments of at most [SEGMENT] messages plus a
    segment count, so that appending touches the tail only.  One Section holds
    the segmented layout for any message type; the 1:1 and the group
    transcripts are its two instances. *)

From S2P Require Import Prelude Crypto Wire Storage LocalProps Instances.

Record StoredMessage : Type := mkStored {
  sm_id : str;
  from_me : bool;
  sm_text : str;
  sm_timestamp : u64;
  sm_expires_at : option u64
}.

Record GroupStoredMessage : Type := mkGroupStored {
  gs_id : str;
  gs_sender : str;
  gs_text : str;
  gs_timestamp : u64;
  gs_expires_at : option u64
}.

Definition SEGMENT : nat := 128.
Definition HIST : bytes := b#"hist:".
Definition GHIST : bytes := b#"ghist:".
Definition PEER_INDEX : bytes := b#"history:peers".

(** The number of segments of a thread. *)
Record SegMeta : Type := mkSegMeta { segments : u32 }.

Definition seg_key (prefix : bytes) (id : str) (index : u32) : bytes :=
  key_prefix prefix (id ++ b#":" ++ dec_fixed 12 (u_val index)).

Definition meta_key (prefix : bytes) (id : str) : bytes := key_prefix prefix (id ++ b#":meta").

(** [0..count] *)
Definition indices (count : u32) : list u32 :=
  map (λ i, uwrap 32 (N.of_nat i)) (seq 0 (N.to_nat (u_val count))).

(** [matches!(expires_at, Some(at) if now >= at)] *)
Definition expired_at (now : u64) (expires_at : option u64) : bool :=
  match expires_at with Some at_ => uleb at_ now | None => false end.

Section Segments.
Context {S : Type} `{!Storage S} {T : Type} `{!Postcard (list T), !Postcard SegMeta}.

Definition seg_count (prefix : bytes) (id : str) (store : S) : result error u32 :=
  let? input := st_get (meta_key prefix id) store in
  let? meta := decode_state (mkSegMeta (U32 0)) input b#"history meta" in
  Ok (segments meta).

Definition get_seg (prefix : bytes) (id : str) (label : str) (index : u32) (store : S)
    : result error (list T) :=
  let? input := st_get (seg_key prefix id index) store in
  decode_state [] input label.

(** The loop of [load_segments]. *)
Fixpoint load_loop (prefix : bytes) (id label : str) (ixs : list u32) (store : S)
    : result error (list T) :=
  match ixs with
  | [] => Ok []
  | i :: ixs =>
      let? seg := get_seg prefix id label i store in
      let? all := load_loop prefix id label ixs store in
      Ok (seg ++ all)
  end.

Definition load_segments (prefix : bytes) (id label : str) (store : S) : result error (list T) :=
  let? count := seg_count prefix id store in
  load_loop prefix id label (indices count) store.

Definition append_segment_mutations (prefix : bytes) (id : str) (message : T) (label : str)
    (store : S) : result error (list StorageMutation) :=
  let? count := seg_count prefix id store in
  let? tn :=
    if (u_val count =? 0)%N then Ok (U32 0, U32 1)
    else
      let tail_idx := uwrap 32 (u_val count - 1) in
      let? tail := get_seg prefix id label tail_idx store in
      if (SEGMENT <=? length tail)%nat then Ok (count, wrapping_succ count)
      else Ok (tail_idx, count) in
  let '(target, new_count) := tn in
  let? seg := if ultb target count then get_seg prefix id label target store else Ok [] in
  let seg := seg ++ [message] in
  let mutations := [Put (seg_key prefix id target) (wire.encode seg)] in
  Ok (if negb (ueqb new_count count)
      then mutations ++ [Put (meta_key prefix id) (wire.encode (mkSegMeta new_count))]
      else mutations).

(** The loop of [load_active_segments] and [delete_segments]: drop from each
    segment the messages [drop_] selects and rewrite the segment if any went;
    what is left of the thread is the result. *)
Fixpoint prune_loop (prefix : bytes) (id label : str) (drop_ : T → bool) (ixs : list u32)
    : M S (list T) :=
  match ixs with
  | [] => retM []
  | i :: ixs =>
      let! seg := readM (get_seg prefix id label i) in
      let active := List.filter (λ m, negb (drop_ m)) seg in
      let! _ := if negb (length active =? length seg)%nat
                then st_put (seg_key prefix id i) (wire.encode active) else retM tt in
      let! all := prune_loop prefix id label drop_ ixs in
      retM (active ++ all)
  end.

Definition load_active_segments (prefix : bytes) (id label : str) (expired : T → bool)
    : M S (list T) :=
  let! count := readM (seg_count prefix id) in
  prune_loop prefix id label expired (indices count).

Definition delete_segments (prefix : bytes) (id label : str) (remove : T → bool) : M S unit :=
  let! count := readM (seg_count prefix id) in
  let! _ := prune_loop prefix id label remove (indices count) in
  retM tt.

(** The loop of [edit] and [group_edit]: change the messages [hit] selects. *)
Fixpoint edit_loop (prefix : bytes) (id label : str) (hit : T → bool) (change : T → T)
    (ixs : list u32) : M S unit :=
  match ixs with
  | [] => retM tt
  | i :: ixs =>
      let! seg := readM (get_seg prefix id label i) in
      let seg' := map (λ m, if hit m then change m else m) seg in
      let! _ := if existsb hit seg
                then st_put (seg_key prefix id i) (wire.encode seg') else retM tt in
      edit_loop prefix id label hit change ixs
  end.
End Segments.

Section History.
Context {S : Type} `{!Storage S}
  `{!Postcard (list StoredMessage), !Postcard (list GroupStoredMessage), !Postcard SegMeta,
    !Postcard (list str)}.

(** ** 1:1 transcripts *)
Definition LABEL : str := b#"1:1 transcript".

Definition load (user_id : str) (store : S) : result error (list StoredMessage) :=
  load_segments HIST user_id LABEL store.

Definition peers (store : S) : result error (list str) :=
  let? input := st_get PEER_INDEX store in decode_state [] input b#"peer index".

Definition append (peer : str) (message : StoredMessage) : M S bool :=
  let! inserted :=
    if bool_decide (sm_id message = []) then retM true
    else let! known := readM (load peer) in
         retM (negb (existsb (λ known, bool_decide (sm_id known = sm_id message)) known)) in
  let! names := readM peers in
  let! mutations :=
    if (inserted : bool) then readM (append_segment_mutations HIST peer message LABEL)
    else retM [] in
  let mutations :=
    if negb (existsb (λ p, bool_decide (p = peer)) names)
    then mutations ++ [Put PEER_INDEX (wire.encode (names ++ [peer]))] else mutations in
  let! _ := st_apply_batch mutations in
  retM inserted.

Definition load_active (peer : str) (now : u64) : M S (list StoredMessage) :=
  load_active_segments HIST peer LABEL (λ m, expired_at now (sm_expires_at m)).

Definition clear (peer : str) : M S unit :=
  let! count := readM (seg_count HIST peer) in
  let! names := readM peers in
  let names := List.filter (λ p, negb (bool_decide (p = peer))) names in
  let mutations := map (λ i, Delete (seg_key HIST peer i)) (indices count)
    ++ [Delete (meta_key HIST peer); Put PEER_INDEX (wire.encode names)] in
  let! _ := st_apply_batch mutations in
  retM tt.

Definition edited (new_text : str) (m : StoredMessage) : StoredMessage :=
  mkStored (sm_id m) (from_me m) (new_text ++ b#" (edited)") (sm_timestamp m) (sm_expires_at m).

Definition authored (id : str) (by_me : bool) (m : StoredMessage) : bool :=
  bool_decide (sm_id m = id) && bool_decide (from_me m = by_me).

Definition edit (peer id new_text : str) (by_me : bool) : M S unit :=
  let! count := readM (seg_count HIST peer) in
  edit_loop HIST peer LABEL (authored id by_me) (edited new_text) (indices count).

Definition delete (peer id : str) (by_me : bool) : M S unit :=
  delete_segments HIST peer LABEL (authored id by_me).

(** ** Group transcripts *)
Definition GLABEL : str := b#"group transcript".

Definition group_load (group_id : str) (store : S) : result error (list GroupStoredMessage) :=
  load_segments GHIST group_id GLABEL store.

Definition group_append (group_id : str) (message : GroupStoredMessage) : M S bool :=
  let! known :=
    if negb (bool_decide (gs_id message = []))
    then let! l := readM (group_load group_id) in
         retM (existsb (λ known, bool_decide (gs_id known = gs_id message)) l)
    else retM false in
  if (known : bool) then retM false
  else
    let! mutations := readM (append_segment_mutations GHIST group_id message GLABEL) in
    let! _ := st_apply_batch mutations in
    retM true.

Definition group_edited (new_text : str) (m : GroupStoredMessage) : GroupStoredMessage :=
  mkGroupStored (gs_id m) (gs_sender m) (new_text ++ b#" (edited)") (gs_timestamp m)
    (gs_expires_at m).

Definition group_authored (id sender : str) (m : GroupStoredMessage) : bool :=
  bool_decide (gs_id m = id) && bool_decide (gs_sender m = sender).

Definition group_edit (group_id id new_text sender : str) : M S unit :=
  let! count := readM (seg_count GHIST group_id) in
  edit_loop GHIST group_id GLABEL (group_authored id sender) (group_edited new_text)
    (indices count).

Definition group_delete (group_id id sender : str) : M S unit :=
  delete_segments GHIST group_id GLABEL (group_authored id sender).

Definition group_load_active (group_id : str) (now : u64) : M S (list GroupStoredMessage) :=
  load_active_segments GHIST group_id GLABEL (λ m, expired_at now (gs_expires_at m)).
End History.
