(* ===== verification/HistoryProps.v ===== *)
(** * HistoryProps: a segmented transcript is a list of messages

    The refinement of the segmented layout of [History] to a flat list, and what
    it means for the 1:1 and group transcripts. *)

From S2P Require Import Prelude Crypto Wire Storage LocalProps History Instances.

(** ** Keys *)

Lemma index_digits (i : u32) : (u_val i < 10 ^ N.of_nat 12)%N.
Proof. eapply N.lt_trans; [apply u_val_lt|reflexivity]. Qed.

Lemma seg_key_inj prefix (id id' : str) (i i' : u32) :
  seg_key prefix id i = seg_key prefix id' i' → id = id' ∧ i = i'.
Proof.
  intros [H1 H2]%key_prefix_inj%app_inv_length; [|by rewrite !length_app, !length_dec_fixed].
  split; [done|]. apply app_inv_head, dec_fixed_inj, uint_eq in H2; [done|apply index_digits..].
Qed.

Lemma meta_key_inj prefix (id id' : str) : meta_key prefix id = meta_key prefix id' → id = id'.
Proof. by intros H%key_prefix_inj%app_inv_tail. Qed.

Lemma seg_key_not_meta prefix prefix' (id id' : str) (i : u32) :
  seg_key prefix id i ≠ meta_key prefix' id'.
Proof.
  intros H%(f_equal (λ l, List.last l zero_byte)). revert H. unfold seg_key, meta_key, key_prefix.
  cbn [dec_fixed]. rewrite !(assoc_L (++)), List.last_last.
  change b#":meta" with (b#":met" ++ ["a"%char]). rewrite !(assoc_L (++)), List.last_last.
  intros H. pose proof (is_ascii_digit_dec_digit (u_val i)) as Hd. rewrite H in Hd. done.
Qed.

Lemma indices_succ (n : u32) :
  (u_val n + 1 < 2 ^ 32)%N → indices (wrapping_succ n) = indices n ++ [n].
Proof.
  intros Hn. unfold indices.
  replace (N.to_nat (u_val (wrapping_succ n))) with (S (N.to_nat (u_val n)))
    by (unfold wrapping_succ; rewrite u_val_uwrap_small by done; lia).
  rewrite seq_S, map_app. simpl. by rewrite N2Nat.id, uwrap_u_val.
Qed.

Lemma indices_pred (n : u32) :
  u_val n ≠ 0%N → indices n = indices (uwrap 32 (u_val n - 1)) ++ [uwrap 32 (u_val n - 1)].
Proof.
  intros Hn. pose proof (u_val_lt n). rewrite <-indices_succ.
  - f_equal. apply uint_eq. unfold wrapping_succ.
    rewrite u_val_uwrap_small; rewrite u_val_uwrap_small by lia; lia.
  - rewrite u_val_uwrap_small by lia. lia.
Qed.

Lemma elem_of_indices (i n : u32) : i ∈ indices n ↔ (u_val i < u_val n)%N.
Proof.
  unfold indices. rewrite list_elem_of_In, in_map_iff. pose proof (u_val_lt n) as Hn. split.
  - intros (j & <- & Hj%in_seq). rewrite u_val_uwrap_small by lia. lia.
  - intros Hi. exists (N.to_nat (u_val i)). split; [by rewrite N2Nat.id, uwrap_u_val|].
    apply in_seq. lia.
Qed.

Lemma NoDup_indices (n : u32) : NoDup (indices n).
Proof.
  unfold indices. apply NoDup_ListNoDup, NoDup_map_NoDup_ForallPairs, seq_NoDup.
  pose proof (u_val_lt n) as Hn.
  intros i j Hi%in_seq Hj%in_seq H%(f_equal u_val). rewrite !u_val_uwrap_small in H by lia. lia.
Qed.

(** ** The segmented layout *)
Section Layout.
Context {T : Type} `{!Postcard (list T), !Postcard SegMeta}.

(** The segments of a thread, as the store holds them. *)
Definition thread (prefix : bytes) (id label : str) (m : Mem) (segs : list (list T)) : Prop :=
  ∃ n, seg_count prefix id m = Ok n ∧
       Forall2 (λ i seg, get_seg prefix id label i m = Ok seg) (indices n) segs.

Lemma get_seg_put prefix id label (i : u32) (k : bytes) (seg : list T) (m : Mem) :
  get_seg prefix id label i (<[k := wire.encode seg]> m) =
  if decide (seg_key prefix id i = k) then Ok seg else get_seg prefix id label i m.
Proof.
  unfold get_seg. simpl. destruct (decide (seg_key prefix id i = k)) as [<-|Hne].
  - by rewrite lookup_insert_eq, decode_state_encode.
  - by rewrite lookup_insert_ne.
Qed.

Lemma get_seg_other prefix id label (i : u32) (m m' : Mem) :
  m' !! seg_key prefix id i = m !! seg_key prefix id i →
  get_seg (T := T) prefix id label i m' = get_seg prefix id label i m.
Proof. unfold get_seg. simpl. by intros ->. Qed.

Lemma seg_count_other prefix id (m m' : Mem) :
  m' !! meta_key prefix id = m !! meta_key prefix id →
  seg_count prefix id m' = seg_count prefix id m.
Proof. unfold seg_count. simpl. by intros ->. Qed.

(** A thread depends on its own keys only. *)
Lemma thread_other prefix id label (m m' : Mem) segs :
  (∀ i, m' !! seg_key prefix id i = m !! seg_key prefix id i) →
  m' !! meta_key prefix id = m !! meta_key prefix id →
  thread prefix id label m segs → thread prefix id label m' segs.
Proof.
  intros Hs Hm (n & Hn & Hf). exists n. split; [by rewrite (seg_count_other _ _ m)|].
  eapply Forall2_impl_elem; [exact Hf|]. simpl. intros i seg _ Hi. by rewrite (get_seg_other _ _ _ _ m).
Qed.

Lemma load_loop_concat prefix id label ixs (segs : list (list T)) (m : Mem) :
  Forall2 (λ i seg, get_seg prefix id label i m = Ok seg) ixs segs →
  load_loop prefix id label ixs m = Ok (concat segs).
Proof. induction 1 as [|i seg ixs segs Hi _ IH]; simpl; [done|]. by rewrite Hi, IH. Qed.

Lemma thread_load prefix id label (m : Mem) segs :
  thread prefix id label m segs → load_segments prefix id label m = Ok (concat segs).
Proof. intros (n & Hn & Hf). unfold load_segments. rewrite Hn. by apply load_loop_concat. Qed.

(** A readable thread has segments. *)
Lemma load_thread prefix id label (m : Mem) l :
  load_segments (T := T) prefix id label m = Ok l →
  ∃ segs, thread prefix id label m segs ∧ l = concat segs.
Proof.
  unfold load_segments, thread. destruct (seg_count prefix id m) as [n|]; [|done]. simpl.
  intros Hl. assert (∃ segs, Forall2 (λ i seg, get_seg prefix id label i m = Ok seg) (indices n) segs
    ∧ l = concat segs) as (segs & Hf & ->); [|eauto].
  revert l Hl. induction (indices n) as [|i ixs IH]; intros l; simpl.
  - intros [= <-]. by exists [].
  - destruct (get_seg prefix id label i m) as [seg|] eqn:Hi; [|done]. simpl.
    destruct (load_loop prefix id label ixs m) as [all|]; [|done]. simpl. intros [= <-].
    destruct (IH all eq_refl) as (segs & Hf & ->). exists (seg :: segs). split; [|done].
    by constructor.
Qed.

Lemma prune_loop_run prefix id label (drop_ : T → bool) ixs segs (m : Mem) :
  NoDup ixs → Forall2 (λ i seg, get_seg prefix id label i m = Ok seg) ixs segs →
  let kept := map (List.filter (λ x, negb (drop_ x))) segs in
  ∃ m', prune_loop prefix id label drop_ ixs m = (Ok (concat kept), m') ∧
    Forall2 (λ i seg, get_seg prefix id label i m' = Ok seg) ixs kept ∧
    ∀ k, (∀ i, i ∈ ixs → k ≠ seg_key prefix id i) → m' !! k = m !! k.
Proof.
  intros Hnd. revert segs m. induction Hnd as [|i ixs Hi Hnd IH]; intros segs m Hf.
  { inversion Hf; subst. exists m. split_and!; [done|constructor|done]. }
  inversion Hf as [|? seg ? segs' Hseg Hrest]; subst. simpl.
  set (active := List.filter (λ x, negb (drop_ x)) seg).
  set (m1 := if negb (length active =? length seg)%nat
             then <[seg_key prefix id i := wire.encode active]> m else m).
  assert (∀ k, k ≠ seg_key prefix id i → m1 !! k = m !! k) as Hother.
  { intros k Hk. unfold m1. destruct (negb _); [|done]. by rewrite lookup_insert_ne. }
  assert (get_seg prefix id label i m1 = Ok active) as Hm1.
  { unfold m1. destruct (length active =? length seg)%nat eqn:He; simpl.
    - apply Nat.eqb_eq, length_filterb_eq in He. unfold active. by rewrite He.
    - rewrite get_seg_put. by rewrite decide_True. }
  destruct (IH segs' m1) as (m' & Hrun & Hf' & Hk').
  { eapply Forall2_impl_elem; [exact Hrest|]. simpl. intros j seg' Hj Hj'. rewrite (get_seg_other _ _ _ _ m); [done|].
    apply Hother. intros [_ ->]%seg_key_inj. done. }
  exists m'. split_and!.
  - rewrite (bindM_run _ _ _ _ _ (readM_run _ _ _ Hseg)). fold active.
    rewrite (bindM_run _ _ m tt m1) by (unfold m1; by destruct (negb _)).
    by rewrite (bindM_run _ _ _ _ _ Hrun).
  - constructor; [|done]. rewrite (get_seg_other _ _ _ _ m1); [done|].
    apply Hk'. intros j Hj [_ ->]%seg_key_inj. done.
  - intros k Hk. rewrite Hk' by (intros j Hj; apply Hk; by right). apply Hother, Hk. by left.
Qed.

Lemma edit_loop_run prefix id label (hit : T → bool) (change : T → T) ixs segs (m : Mem) :
  NoDup ixs → Forall2 (λ i seg, get_seg prefix id label i m = Ok seg) ixs segs →
  let segs' := map (map (λ x, if hit x then change x else x)) segs in
  ∃ m', edit_loop prefix id label hit change ixs m = (Ok tt, m') ∧
    Forall2 (λ i seg, get_seg prefix id label i m' = Ok seg) ixs segs' ∧
    ∀ k, (∀ i, i ∈ ixs → k ≠ seg_key prefix id i) → m' !! k = m !! k.
Proof.
  intros Hnd. revert segs m. induction Hnd as [|i ixs Hi Hnd IH]; intros segs m Hf.
  { inversion Hf; subst. exists m. split_and!; [done|constructor|done]. }
  inversion Hf as [|? seg ? segs' Hseg Hrest]; subst. simpl.
  set (seg1 := map (λ x, if hit x then change x else x) seg).
  set (m1 := if existsb hit seg then <[seg_key prefix id i := wire.encode seg1]> m else m).
  assert (∀ k, k ≠ seg_key prefix id i → m1 !! k = m !! k) as Hother.
  { intros k Hk. unfold m1. destruct (existsb hit seg); [|done]. by rewrite lookup_insert_ne. }
  assert (get_seg prefix id label i m1 = Ok seg1) as Hm1.
  { unfold m1. destruct (existsb hit seg) eqn:He.
    - rewrite get_seg_put. by rewrite decide_True.
    - rewrite Hseg. unfold seg1. f_equal. rewrite <-(map_id seg) at 1. apply map_ext_in.
      intros x Hx%list_elem_of_In. by rewrite (proj1 (existsb_false _ _) He x Hx). }
  destruct (IH segs' m1) as (m' & Hrun & Hf' & Hk').
  { eapply Forall2_impl_elem; [exact Hrest|]. simpl. intros j seg' Hj Hj'.
    rewrite (get_seg_other _ _ _ _ m); [done|]. apply Hother. intros [_ ->]%seg_key_inj. done. }
  exists m'. split_and!.
  - rewrite (bindM_run _ _ _ _ _ (readM_run _ _ _ Hseg)). fold seg1.
    by rewrite (bindM_run _ _ m tt m1) by (unfold m1; by destruct (existsb hit seg)).
  - constructor; [|done]. rewrite (get_seg_other _ _ _ _ m1); [done|].
    apply Hk'. intros j Hj [_ ->]%seg_key_inj. done.
  - intros k Hk. rewrite Hk' by (intros j Hj; apply Hk; by right). apply Hother, Hk. by left.
Qed.

(** The segments after an append: a new one when there is none or the last is full. *)
Definition append_segs (segs : list (list T)) (x : T) : list (list T) :=
  match list.last segs with
  | Some tail => if (SEGMENT <=? length tail)%nat then segs ++ [[x]]
                 else removelast segs ++ [tail ++ [x]]
  | None => [[x]]
  end.

Lemma concat_append_segs segs x : concat (append_segs segs x) = concat segs ++ [x].
Proof.
  unfold append_segs. destruct segs as [|tail front _] using rev_ind; [done|].
  rewrite list.last_snoc, removelast_last. destruct (SEGMENT <=? length tail)%nat.
  - rewrite (concat_app _ [[x]]). simpl. done.
  - rewrite !concat_app. simpl. rewrite !app_nil_r. by rewrite (assoc_L (++)).
Qed.

Lemma Forall2_length_eq {A B} (P : A → B → Prop) l k : Forall2 P l k → length l = length k.
Proof. by induction 1; simpl; f_equal. Qed.

Lemma thread_new_segment prefix id label segs (n : u32) (x : T) (m : Mem) :
  seg_count prefix id m = Ok n →
  Forall2 (λ i seg, get_seg prefix id label i m = Ok seg) (indices n) segs →
  (u_val n + 1 < 2 ^ 32)%N →
  thread prefix id label
    (<[meta_key prefix id := wire.encode (mkSegMeta (wrapping_succ n))]>
       (<[seg_key prefix id n := wire.encode [x]]> m)) (segs ++ [[x]]).
Proof.
  intros Hn Hf Hroom. exists (wrapping_succ n). split.
  - unfold seg_count. simpl. rewrite lookup_insert_eq. cbn [bind_result].
    by rewrite decode_state_encode.
  - rewrite indices_succ by done.
    assert (∀ i, get_seg prefix id label i (<[meta_key prefix id := wire.encode (mkSegMeta (wrapping_succ n))]>
        (<[seg_key prefix id n := wire.encode [x]]> m)) =
      if decide (i = n) then Ok [x] else get_seg prefix id label i m) as Hget.
    { intros i. rewrite (get_seg_other _ _ _ _ (<[seg_key prefix id n := wire.encode [x]]> m))
        by (rewrite lookup_insert_ne; [done|by apply not_eq_sym, seg_key_not_meta]).
      rewrite get_seg_put. destruct (decide (i = n)) as [->|Hne]; [by rewrite decide_True|].
      rewrite decide_False; [done|]. by intros [_ ?]%seg_key_inj. }
    apply Forall2_app.
    + eapply Forall2_impl_elem; [exact Hf|]. simpl. intros i seg Hi%elem_of_indices Hseg.
      rewrite Hget. rewrite decide_False; [done|]. intros ->. lia.
    + constructor; [|constructor]. rewrite Hget. by rewrite decide_True.
Qed.

Lemma thread_grow_tail prefix id label front tail (n : u32) (x : T) (m : Mem) :
  seg_count prefix id m = Ok n → u_val n ≠ 0%N →
  Forall2 (λ i seg, get_seg prefix id label i m = Ok seg) (indices n) (front ++ [tail]) →
  let t := uwrap 32 (u_val n - 1) in
  get_seg prefix id label t m = Ok tail ∧
  thread prefix id label (<[seg_key prefix id t := wire.encode (tail ++ [x])]> m)
    (front ++ [tail ++ [x]]).
Proof.
  intros Hn Hnz Hf t. rewrite indices_pred in Hf by done. fold t in Hf.
  apply Forall2_app_inv in Hf as [Hfront Htail].
  2: { apply Forall2_length_eq in Hf. rewrite !length_app in Hf. simpl in Hf. lia. }
  inversion Htail as [|? ? ? ? Ht _]; subst. split; [done|]. exists n. split.
  - rewrite <-Hn. apply seg_count_other. rewrite lookup_insert_ne; [done|].
    apply seg_key_not_meta.
  - rewrite (indices_pred n) by done. fold t. apply Forall2_app.
    + eapply Forall2_impl_elem; [exact Hfront|]. simpl. intros i seg Hi Hseg.
      rewrite get_seg_put, decide_False; [done|]. intros [_ ->]%seg_key_inj.
      apply elem_of_indices in Hi. lia.
    + constructor; [|constructor]. by rewrite get_seg_put, decide_True.
Qed.

(** Appending touches the tail segment and, for a new segment, the count. *)
Lemma append_run prefix id label segs (x : T) (m : Mem) :
  thread prefix id label m segs → (N.of_nat (length segs) + 1 < 2 ^ 32)%N →
  ∃ mutations, append_segment_mutations prefix id x label m = Ok mutations ∧
    thread prefix id label (fold_left apply_mutation mutations m) (append_segs segs x) ∧
    (length mutations ≤ 2)%nat ∧
    ∀ k, (∀ i, k ≠ seg_key prefix id i) → k ≠ meta_key prefix id →
      fold_left apply_mutation mutations m !! k = m !! k.
Proof.
  intros (n & Hn & Hf) Hroom. unfold append_segment_mutations. rewrite Hn. cbn [bind_result].
  assert (length segs = N.to_nat (u_val n)) as Hlen.
  { rewrite <-(Forall2_length_eq _ _ _ Hf). unfold indices. by rewrite length_map, length_seq. }
  assert (u_val n + 1 < 2 ^ 32)%N as Hlt by lia.
  assert (ueqb (wrapping_succ n) n = false) as Hne.
  { apply N.eqb_neq. unfold wrapping_succ. rewrite u_val_uwrap_small by done. lia. }
  assert (ultb n n = false) as Hirr by apply N.ltb_irrefl.
  assert (∀ k, (∀ i, k ≠ seg_key prefix id i) → k ≠ meta_key prefix id →
    <[meta_key prefix id := wire.encode (mkSegMeta (wrapping_succ n))]>
      (<[seg_key prefix id n := wire.encode [x]]> m) !! k = m !! k) as Hframe.
  { intros k Hk Hm. rewrite !lookup_insert_ne; [done|by apply not_eq_sym..]. }
  destruct (N.eqb_spec (u_val n) 0) as [Hz|Hnz].
  - assert (n = U32 0) as -> by (by apply uint_eq). cbn [bind_result].
    change (U32 1) with (wrapping_succ (U32 0)). rewrite Hirr, Hne. cbn [bind_result negb].
    eexists. split; [done|]. destruct segs; [|simpl in Hlen; lia].
    split_and!; [|simpl; lia|exact Hframe].
    exact (thread_new_segment _ _ label [] _ x m Hn Hf Hlt).
  - destruct segs as [|tail front _] using rev_ind; [simpl in Hlen; lia|].
    destruct (thread_grow_tail prefix id label front tail n x m Hn Hnz Hf) as [Htail Hgrow].
    rewrite Htail. cbn [bind_result]. unfold append_segs. rewrite list.last_snoc, removelast_last.
    destruct (SEGMENT <=? length tail)%nat; cbn [bind_result].
    + rewrite Hirr, Hne. cbn [bind_result negb]. eexists. split; [done|].
      split_and!; [|simpl; lia|exact Hframe].
      exact (thread_new_segment _ _ label _ _ x m Hn Hf Hlt).
    + replace (ultb _ n) with true
        by (symmetry; apply N.ltb_lt; rewrite u_val_uwrap_small by lia; lia).
      rewrite Htail. cbn [bind_result]. unfold ueqb. rewrite N.eqb_refl.
      eexists. split; [done|]. split_and!; [exact Hgrow|simpl; lia|].
      intros k Hk Hm. simpl. rewrite lookup_insert_ne; [done|by apply not_eq_sym].
Qed.

(** *** On flat lists *)

(** What an operation on the thread [id] leaves alone: everything but the
    thread's own segments. *)
Definition only_segments (prefix : bytes) (id : str) (m m' : Mem) : Prop :=
  ∀ k, (∀ i, k ≠ seg_key prefix id i) → m' !! k = m !! k.

Lemma load_segments_other prefix id label (m m' : Mem) :
  (∀ i, m' !! seg_key prefix id i = m !! seg_key prefix id i) →
  m' !! meta_key prefix id = m !! meta_key prefix id →
  load_segments (T := T) prefix id label m' = load_segments prefix id label m.
Proof.
  intros Hs Hm. unfold load_segments. rewrite (seg_count_other _ _ m) by done.
  destruct (seg_count prefix id m) as [n|]; [|done]. simpl.
  induction (indices n) as [|i ixs IH]; simpl; [done|].
  by rewrite (get_seg_other _ _ _ _ m), IH.
Qed.

Lemma prune_list prefix id label (drop_ : T → bool) l (m : Mem) :
  load_segments prefix id label m = Ok l →
  let kept := List.filter (λ x, negb (drop_ x)) l in
  ∃ m', load_active_segments prefix id label drop_ m = (Ok kept, m') ∧
    delete_segments prefix id label drop_ m = (Ok tt, m') ∧
    load_segments prefix id label m' = Ok kept ∧ only_segments prefix id m m'.
Proof.
  intros (segs & (n & Hn & Hf) & ->)%load_thread kept.
  destruct (prune_loop_run prefix id label drop_ _ _ m (NoDup_indices n) Hf) as (m' & Hrun & Hf' & Hk).
  rewrite <-filterb_concat in Hrun. exists m'. split_and!.
  - unfold load_active_segments. by rewrite (bindM_run _ _ _ _ _ (readM_run _ _ _ Hn)).
  - unfold delete_segments. rewrite (bindM_run _ _ _ _ _ (readM_run _ _ _ Hn)).
    by rewrite (bindM_run _ _ _ _ _ Hrun).
  - unfold kept. rewrite filterb_concat. apply thread_load. exists n. split; [|done].
    rewrite <-Hn. apply seg_count_other, Hk. intros i _. apply not_eq_sym, seg_key_not_meta.
  - intros k H. by apply Hk.
Qed.

Lemma edit_list prefix id label (hit : T → bool) (change : T → T) l (m : Mem) :
  load_segments prefix id label m = Ok l →
  let l' := map (λ x, if hit x then change x else x) l in
  ∃ m', (let! count := readM (seg_count prefix id) in
         edit_loop prefix id label hit change (indices count)) m = (Ok tt, m') ∧
    load_segments prefix id label m' = Ok l' ∧ only_segments prefix id m m'.
Proof.
  intros (segs & (n & Hn & Hf) & ->)%load_thread l'.
  destruct (edit_loop_run prefix id label hit change _ _ m (NoDup_indices n) Hf)
    as (m' & Hrun & Hf' & Hk).
  exists m'. split_and!.
  - by rewrite (bindM_run _ _ _ _ _ (readM_run _ _ _ Hn)).
  - unfold l'. rewrite concat_map. apply thread_load. exists n. split; [|done].
    rewrite <-Hn. apply seg_count_other, Hk. intros i _. apply not_eq_sym, seg_key_not_meta.
  - intros k H. by apply Hk.
Qed.

Lemma append_list prefix id label l (x : T) (n : u32) (m : Mem) :
  load_segments prefix id label m = Ok l → seg_count prefix id m = Ok n →
  (u_val n + 1 < 2 ^ 32)%N →
  ∃ mutations, append_segment_mutations prefix id x label m = Ok mutations ∧
    load_segments prefix id label (fold_left apply_mutation mutations m) = Ok (l ++ [x]) ∧
    (length mutations ≤ 2)%nat ∧
    ∀ k, (∀ i, k ≠ seg_key prefix id i) → k ≠ meta_key prefix id →
      fold_left apply_mutation mutations m !! k = m !! k.
Proof.
  intros (segs & (n' & Hn' & Hf) & ->)%load_thread Hn Hroom.
  assert (n' = n) as -> by congruence.
  assert (length segs = N.to_nat (u_val n)) as Hlen.
  { rewrite <-(Forall2_length_eq _ _ _ Hf). unfold indices. by rewrite length_map, length_seq. }
  destruct (append_run prefix id label segs x m) as (ms & Hrun & Hthread & Hms & Hk);
    [by exists n|lia|].
  exists ms. split_and!; [done| |done|done].
  by rewrite (thread_load _ _ _ _ _ Hthread), concat_append_segs.
Qed.
End Layout.

(** ** 1:1 transcripts *)
Section Transcripts.
Context `{!Postcard (list StoredMessage), !Postcard (list GroupStoredMessage), !Postcard SegMeta,
  !Postcard (list str)}.

(** The thread has room for another segment: fewer than [2 ^ 32 - 1] exist. *)
Definition room (prefix : bytes) (id : str) (m : Mem) : Prop :=
  ∃ n, seg_count prefix id m = Ok n ∧ (u_val n + 1 < 2 ^ 32)%N.

Definition is_new (l : list StoredMessage) (msg : StoredMessage) : bool :=
  bool_decide (sm_id msg = [])
  || negb (existsb (λ known, bool_decide (sm_id known = sm_id msg)) l).

Definition note_peer (names : list str) (peer : str) : list str :=
  if existsb (λ p, bool_decide (p = peer)) names then names else names ++ [peer].

(** The other conversations: every other peer's and every group's. *)
Definition others_unchanged (peer : str) (m m' : Mem) : Prop :=
  (∀ other, other ≠ peer → load other m' = load other m) ∧
  (∀ g, group_load g m' = group_load g m).

Lemma hist_ghist id id' (i i' : u32) :
  seg_key HIST id i ≠ seg_key GHIST id' i' ∧ meta_key HIST id ≠ meta_key GHIST id' ∧
  seg_key HIST id i ≠ PEER_INDEX ∧ meta_key HIST id ≠ PEER_INDEX ∧
  seg_key GHIST id i ≠ PEER_INDEX ∧ meta_key GHIST id ≠ PEER_INDEX.
Proof. split_and!; intros H; discriminate H. Qed.

Lemma frame_others peer (m m' : Mem) :
  (∀ k, (∀ i, k ≠ seg_key HIST peer i) → k ≠ meta_key HIST peer → k ≠ PEER_INDEX →
    m' !! k = m !! k) → others_unchanged peer m m'.
Proof.
  intros Hk. split.
  - intros other Hne. apply load_segments_other.
    + intros i. apply Hk; [by intros j [? _]%seg_key_inj|apply seg_key_not_meta|].
      apply (hist_ghist other other i i).
    + apply Hk; [intros i; apply not_eq_sym, seg_key_not_meta|by intros ?%meta_key_inj|].
      apply (hist_ghist other other (U32 0) (U32 0)).
  - intros g. apply load_segments_other.
    + intros i. apply Hk; [intros j; apply not_eq_sym, hist_ghist; exact (U32 0)
        |apply seg_key_not_meta|]. apply (hist_ghist g g i i).
    + apply Hk; [intros i; apply not_eq_sym, seg_key_not_meta
        |apply not_eq_sym; apply (hist_ghist peer g (U32 0) (U32 0))|].
      apply (hist_ghist g g (U32 0) (U32 0)).
Qed.

Lemma peers_other (m m' : Mem) : m' !! PEER_INDEX = m !! PEER_INDEX → peers m' = peers m.
Proof. unfold peers. simpl. by intros ->. Qed.

(** Storing the peer index after the mutations [ms]. *)
Definition with_index (names : list str) (peer : str) (ms : list StorageMutation)
    : list StorageMutation :=
  if negb (existsb (λ p, bool_decide (p = peer)) names)
  then ms ++ [Put PEER_INDEX (wire.encode (names ++ [peer]))] else ms.

Lemma with_index_run (m : Mem) names peer ms :
  peers m = Ok names → fold_left apply_mutation ms m !! PEER_INDEX = m !! PEER_INDEX →
  let m1 := fold_left apply_mutation ms m in
  let m' := fold_left apply_mutation (with_index names peer ms) m in
  peers m' = Ok (note_peer names peer) ∧ ∀ k, k ≠ PEER_INDEX → m' !! k = m1 !! k.
Proof.
  intros Hp Hidx. cbv zeta. unfold with_index, note_peer.
  destruct (existsb (λ p, bool_decide (p = peer)) names); cbn [negb].
  - split; [|done]. rewrite <-Hp. by apply peers_other.
  - rewrite fold_left_app. simpl. split.
    + unfold peers. simpl. rewrite lookup_insert_eq. cbn [bind_result].
      by rewrite decode_state_encode.
    + intros k Hk. by rewrite lookup_insert_ne.
Qed.

Lemma inserted_run (m : Mem) peer msg (l : list StoredMessage) :
  load peer m = Ok l →
  (if bool_decide (sm_id msg = []) then retM true
   else let! known := readM (load peer) in
        retM (negb (existsb (λ known, bool_decide (sm_id known = sm_id msg)) known))) m
  = (Ok (is_new l msg), m).
Proof.
  intros Hl. unfold is_new. destruct (bool_decide (sm_id msg = [])); [done|].
  by rewrite (bindM_run _ _ _ _ _ (readM_run _ _ _ Hl)).
Qed.

Lemma append_run_list (m : Mem) (peer : str) (msg : StoredMessage) (l : list StoredMessage)
    (names : list str)
    (Hl : load peer m = Ok l) (Hp : peers m = Ok names) (Hroom : room HIST peer m) :
  ∃ m', append peer msg m = (Ok (is_new l msg), m') ∧
    load peer m' = Ok (if is_new l msg then l ++ [msg] else l) ∧
    peers m' = Ok (note_peer names peer) ∧ others_unchanged peer m m'.
Proof.
  destruct Hroom as (n & Hn & Hlt).
  destruct (append_list HIST peer LABEL l msg n m Hl Hn Hlt) as (ms & Hms & Hload & _ & Hk).
  assert (∃ ms', (if is_new l msg then readM (append_segment_mutations HIST peer msg LABEL)
                  else retM []) m = (Ok ms', m) ∧
    load peer (fold_left apply_mutation ms' m) = Ok (if is_new l msg then l ++ [msg] else l) ∧
    ∀ k, (∀ i, k ≠ seg_key HIST peer i) → k ≠ meta_key HIST peer →
      fold_left apply_mutation ms' m !! k = m !! k) as (ms' & Hrun & Hload' & Hk').
  { destruct (is_new l msg); [exists ms; by rewrite (readM_run _ _ _ Hms)|by exists []]. }
  assert (fold_left apply_mutation ms' m !! PEER_INDEX = m !! PEER_INDEX) as Hidx.
  { apply Hk'; [intros i|]; apply not_eq_sym;
      [apply (hist_ghist peer peer i i)|apply (hist_ghist peer peer n n)]. }
  destruct (with_index_run m names peer ms' Hp Hidx) as [Hpeers Hrest].
  set (m' := fold_left apply_mutation (with_index names peer ms') m) in *.
  exists m'. split_and!; [| |done|].
  - unfold append. rewrite (bindM_run _ _ _ _ _ (inserted_run m peer msg l Hl)).
    rewrite (bindM_run _ _ _ _ _ (readM_run _ _ _ Hp)), (bindM_run _ _ _ _ _ Hrun). done.
  - rewrite <-Hload'. apply load_segments_other; [intros i|]; apply Hrest;
      [apply (hist_ghist peer peer i i)|apply (hist_ghist peer peer n n)].
  - apply frame_others. intros k Hseg Hmeta Hpi. rewrite Hrest by done. by apply Hk'.
Qed.

(** C36: appending to a transcript appends exactly one message: a message whose
    id is already in the thread is not stored twice, any other is the new last
    message; the peer is indexed once; no other conversation changes. *)
Theorem append_refines (m : Mem) (peer : str) (msg : StoredMessage) (l : list StoredMessage)
    (names : list str)
    (Hl : load peer m = Ok l) (Hp : peers m = Ok names) (Hroom : room HIST peer m) :
  ∃ m', append peer msg m = (Ok (is_new l msg), m') ∧
    load peer m' = Ok (if is_new l msg then l ++ [msg] else l) ∧
    peers m' = Ok (note_peer names peer) ∧ others_unchanged peer m m'.
Proof. by apply append_run_list. Qed.

Lemma only_segments_others peer (m m' : Mem) :
  only_segments HIST peer m m' → others_unchanged peer m m'.
Proof. intros H. apply frame_others. intros k Hk _ _. by apply H. Qed.

(** C37: editing, deleting and expiry act message by message, whatever segments
    the messages lie in: an edit changes exactly the messages with that id and
    author side, a delete drops exactly those, expiry drops exactly the expired
    ones and returns the rest; order and the other messages are kept, and no
    other conversation changes. *)
Theorem edit_delete_expire_refine (m : Mem) (peer id text : str) (by_me : bool) (now : u64)
    (l : list StoredMessage) (Hl : load peer m = Ok l) :
  (∃ m', edit peer id text by_me m = (Ok tt, m') ∧
     load peer m' = Ok (map (λ x, if authored id by_me x then edited text x else x) l) ∧
     others_unchanged peer m m') ∧
  (∃ m', delete peer id by_me m = (Ok tt, m') ∧
     load peer m' = Ok (List.filter (λ x, negb (authored id by_me x)) l) ∧
     others_unchanged peer m m') ∧
  (∃ m', load_active peer now m =
       (Ok (List.filter (λ x, negb (expired_at now (sm_expires_at x))) l), m') ∧
     load peer m' = Ok (List.filter (λ x, negb (expired_at now (sm_expires_at x))) l) ∧
     others_unchanged peer m m').
Proof.
  split_and!.
  - destruct (edit_list HIST peer LABEL (authored id by_me) (edited text) l m Hl)
      as (m' & H1 & H2 & H3). exists m'. auto using only_segments_others.
  - destruct (prune_list HIST peer LABEL (authored id by_me) l m Hl) as (m' & _ & H1 & H2 & H3).
    exists m'. auto using only_segments_others.
  - destruct (prune_list HIST peer LABEL (λ x, expired_at now (sm_expires_at x)) l m Hl)
      as (m' & H1 & _ & H2 & H3). exists m'. auto using only_segments_others.
Qed.

Lemma fold_deletes (ks : list bytes) (m : Mem) (k : bytes) :
  fold_left apply_mutation (map Delete ks) m !! k = if decide (k ∈ ks) then None else m !! k.
Proof.
  revert m. induction ks as [|k' ks IH]; intros m; simpl; [done|].
  rewrite IH. destruct (decide (k ∈ ks)) as [Hin|Hout].
  - by rewrite decide_True by (by right).
  - destruct (decide (k = k')) as [->|Hne].
    + rewrite lookup_delete_eq. by rewrite decide_True by left.
    + rewrite lookup_delete_ne by done. rewrite decide_False; [done|].
      by intros [?|?]%elem_of_cons.
Qed.

(** clearing a readable conversation empties it and takes the peer out of
    the index in one batch: no message of it can be read back, and every other
    conversation and index entry stays. *)
Theorem clear_refines (m : Mem) (peer : str) (l : list StoredMessage) (names : list str)
    (Hl : load peer m = Ok l) (Hp : peers m = Ok names) :
  ∃ m', clear peer m = (Ok tt, m') ∧ load peer m' = Ok [] ∧
    peers m' = Ok (List.filter (λ p, negb (bool_decide (p = peer))) names) ∧
    others_unchanged peer m m'.
Proof.
  apply load_thread in Hl as (segs & (n & Hn & _) & _).
  set (names' := List.filter (λ p, negb (bool_decide (p = peer))) names).
  set (ks := map (seg_key HIST peer) (indices n)).
  set (m1 := base.delete (meta_key HIST peer) (fold_left apply_mutation (map Delete ks) m)).
  set (m' := <[PEER_INDEX := wire.encode names']> m1).
  assert (∀ k, k ≠ PEER_INDEX → k ≠ meta_key HIST peer → k ∉ ks → m' !! k = m !! k) as Hframe.
  { intros k H1 H2 H3. unfold m', m1. rewrite lookup_insert_ne, lookup_delete_ne by done.
    by rewrite fold_deletes, decide_False. }
  exists m'. split_and!.
  - unfold clear. rewrite (bindM_run _ _ _ _ _ (readM_run _ _ _ Hn)).
    rewrite (bindM_run _ _ _ _ _ (readM_run _ _ _ Hp)). fold names'.
    rewrite (bindM_run _ _ m tt m'); [done|]. simpl. rewrite fold_left_app. simpl.
    unfold m', m1, ks. by rewrite map_map.
  - unfold load, load_segments, seg_count. simpl. unfold m', m1.
    rewrite lookup_insert_ne by (apply not_eq_sym, (hist_ghist peer peer n n)).
    by rewrite lookup_delete_eq.
  - unfold peers. simpl. unfold m'. rewrite lookup_insert_eq. cbn [bind_result].
    by rewrite decode_state_encode.
  - apply frame_others. intros k Hseg Hmeta Hpi. apply Hframe; [done..|].
    intros (i & Hi & _)%list_elem_of_In%in_map_iff. by apply (Hseg i).
Qed.

(** ** Group transcripts *)

Definition group_is_new (l : list GroupStoredMessage) (msg : GroupStoredMessage) : bool :=
  bool_decide (gs_id msg = [])
  || negb (existsb (λ known, bool_decide (gs_id known = gs_id msg)) l).

(** group transcripts behave the same: an append stores a new message last
    and refuses a known id, and edits and deletions reach exactly the messages
    with that id recorded under that sender, so no member rewrites another's. *)
Theorem group_transcript_refines (m : Mem) (g id text sender : str) (msg : GroupStoredMessage)
    (l : list GroupStoredMessage)
    (Hl : group_load g m = Ok l) (Hroom : room GHIST g m) :
  (∃ m', group_append g msg m = (Ok (group_is_new l msg), m') ∧
     group_load g m' = Ok (if group_is_new l msg then l ++ [msg] else l)) ∧
  (∃ m', group_edit g id text sender m = (Ok tt, m') ∧
     group_load g m' =
       Ok (map (λ x, if group_authored id sender x then group_edited text x else x) l)) ∧
  (∃ m', group_delete g id sender m = (Ok tt, m') ∧
     group_load g m' = Ok (List.filter (λ x, negb (group_authored id sender x)) l)).
Proof.
  split_and!.
  - unfold group_append, group_is_new. destruct Hroom as (n & Hn & Hlt).
    destruct (append_list GHIST g GLABEL l msg n m Hl Hn Hlt) as (ms & Hms & Hload & _ & _).
    destruct (bool_decide (gs_id msg = [])) eqn:Hid; cbn [negb orb].
    + eexists. split; [|exact Hload]. rewrite (bindM_run _ _ m false m) by done.
      by rewrite (bindM_run _ _ _ _ _ (readM_run _ _ _ Hms)).
    + rewrite (bindM_run _ _ _ _ _ (bindM_run _ _ _ _ _ (readM_run _ _ _ Hl))).
      destruct (existsb _ l); cbn [negb]; [by exists m|].
      eexists. split; [|exact Hload]. by rewrite (bindM_run _ _ _ _ _ (readM_run _ _ _ Hms)).
  - destruct (edit_list GHIST g GLABEL (group_authored id sender) (group_edited text) l m Hl)
      as (m' & H1 & H2 & _). by exists m'.
  - destruct (prune_list GHIST g GLABEL (group_authored id sender) l m Hl)
      as (m' & _ & H1 & H2 & _). by exists m'.
Qed.
End Transcripts.

(** ** Footprints *)
Section Footprints.
Context `{!Postcard (list StoredMessage), !Postcard (list GroupStoredMessage), !Postcard SegMeta,
  !Postcard (list str)}.

(** The keys of a thread, and those of a 1:1 conversation. *)
Definition thread_key (prefix : bytes) (id : str) (k : bytes) : Prop :=
  (∃ i, k = seg_key prefix id i) ∨ k = meta_key prefix id.
Definition direct_key (peer : str) (k : bytes) : Prop := thread_key HIST peer k ∨ k = PEER_INDEX.

Section Thread.
Context {T : Type} `{!Postcard (list T)} (prefix : bytes) (id label : str).

Lemma prune_loop_modifies (drop_ : T → bool) ixs :
  modifies (thread_key prefix id) (prune_loop prefix id label drop_ ixs).
Proof.
  induction ixs as [|i ixs IH]; simpl; [apply modifies_ret|].
  apply modifies_bind; [apply modifies_read|]. intros seg. apply modifies_bind.
  - destruct (negb _); [|apply modifies_ret]. apply modifies_put. left. by exists i.
  - intros _. apply modifies_bind; [done|]. intros. apply modifies_ret.
Qed.

Lemma edit_loop_modifies (hit : T → bool) change ixs :
  modifies (thread_key prefix id) (edit_loop prefix id label hit change ixs).
Proof.
  induction ixs as [|i ixs IH]; simpl; [apply modifies_ret|].
  apply modifies_bind; [apply modifies_read|]. intros seg. apply modifies_bind; [|done].
  destruct (existsb hit seg); [|apply modifies_ret]. apply modifies_put. left. by exists i.
Qed.

Lemma append_mutations_keys {S : Type} `{!Storage S} (x : T) (m : S) ms :
  append_segment_mutations prefix id x label m = Ok ms →
  ∀ u, u ∈ ms → thread_key prefix id (mutation_key u).
Proof.
  unfold append_segment_mutations. destruct (seg_count prefix id m) as [n|]; [|done].
  cbn [bind_result]. destruct (if (u_val n =? 0)%N then _ else _) as [[t n']|]; [|done].
  cbn [bind_result]. destruct (if ultb t n then _ else _) as [seg|]; [|done]. cbn [bind_result].
  intros [= <-] u Hu. assert (u ∈ [Put (seg_key prefix id t) (wire.encode (seg ++ [x]));
    Put (meta_key prefix id) (wire.encode (mkSegMeta n'))]) as Hin.
  { destruct (negb (ueqb n' n)); [done|]. apply list_elem_of_singleton in Hu as ->. by left. }
  apply elem_of_cons in Hin as [->|Hin]; [left; by exists t|].
  apply list_elem_of_singleton in Hin as ->. by right.
Qed.
End Thread.

Lemma append_modifies peer msg : modifies (direct_key peer) (append peer msg).
Proof.
  unfold append. apply modifies_bind.
  { destruct (bool_decide _); [apply modifies_ret|].
    apply modifies_bind; [apply modifies_read|intros; apply modifies_ret]. }
  intros inserted. apply modifies_bind; [apply modifies_read|]. intros names.
  intros s key HK. unfold bindM at 1.
  destruct ((if inserted then readM (append_segment_mutations HIST peer msg LABEL) else retM []) s)
    as [[ms|e] s'] eqn:Hms.
  - assert (s' = s ∧ ∀ u, u ∈ ms → direct_key peer (mutation_key u)) as [-> Hk].
    { destruct inserted; unfold readM, retM in Hms.
      - destruct (append_segment_mutations HIST peer msg LABEL s) as [ms'|] eqn:Ha; [|done].
        injection Hms as -> ->. split; [done|]. intros u Hu. left.
        exact (append_mutations_keys HIST peer LABEL msg s' ms Ha u Hu).
      - injection Hms as <- <-. split; [done|]. by intros u []%elem_of_nil. }
    revert s key HK Hms. intros s key HK _. refine (modifies_bind (direct_key peer) _ _ _ _ s key HK).
    + apply modifies_batch. intros u Hu. destruct (negb _); [|by apply Hk].
      apply elem_of_app in Hu as [Hu|Hu%list_elem_of_singleton]; [by apply Hk|]. subst u. by right.
    + intros _. apply modifies_ret.
  - assert (s' = s) as ->; [|done]. destruct inserted; unfold readM, retM in Hms; congruence.
Qed.

Lemma edit_modifies peer id text by_me : modifies (direct_key peer) (edit peer id text by_me).
Proof.
  apply (modifies_weaken (thread_key HIST peer)); [by left|].
  apply modifies_bind; [apply modifies_read|]. intros n. apply edit_loop_modifies.
Qed.

Lemma delete_modifies peer id by_me : modifies (direct_key peer) (delete peer id by_me).
Proof.
  apply (modifies_weaken (thread_key HIST peer)); [by left|].
  apply modifies_bind; [apply modifies_read|]. intros n.
  apply modifies_bind; [apply prune_loop_modifies|]. intros. apply modifies_ret.
Qed.

Lemma group_append_modifies g msg : modifies (thread_key GHIST g) (group_append g msg).
Proof.
  unfold group_append. apply modifies_bind.
  { destruct (negb _); [|apply modifies_ret].
    apply modifies_bind; [apply modifies_read|intros; apply modifies_ret]. }
  intros known. destruct known; [apply modifies_ret|]. apply modifies_bind_read.
  intros s ms Hms key HK.
  refine (modifies_bind (thread_key GHIST g) _ _ _ _ s key HK); [|intros; apply modifies_ret].
  apply modifies_batch. exact (append_mutations_keys GHIST g GLABEL msg s ms Hms).
Qed.

Lemma group_edit_modifies g id text sender :
  modifies (thread_key GHIST g) (group_edit g id text sender).
Proof. apply modifies_bind; [apply modifies_read|]. intros n. apply edit_loop_modifies. Qed.

Lemma group_delete_modifies g id sender :
  modifies (thread_key GHIST g) (group_delete g id sender).
Proof.
  apply modifies_bind; [apply modifies_read|]. intros n.
  apply modifies_bind; [apply prune_loop_modifies|]. intros. apply modifies_ret.
Qed.
End Footprints.
#[export] Hint Resolve append_modifies edit_modifies delete_modifies group_append_modifies
  group_edit_modifies group_delete_modifies : modifies.

(** ** Witnesses *)
#[export] Instance StoredMessage_codec : Codec StoredMessage.
Proof.
  refine (codec_iso (λ x, (sm_id x, from_me x, sm_text x, sm_timestamp x, sm_expires_at x))
    (λ '(i, f, t, s, e), Some (mkStored i f t s e)) _). by intros [].
Defined.
#[export] Instance GroupStoredMessage_codec : Codec GroupStoredMessage.
Proof.
  refine (codec_iso (λ x, (gs_id x, gs_sender x, gs_text x, gs_timestamp x, gs_expires_at x))
    (λ '(i, f, t, s, e), Some (mkGroupStored i f t s e)) _). by intros [].
Defined.
#[export] Instance SegMeta_codec : Codec SegMeta.
Proof. refine (codec_iso segments (λ n, Some (mkSegMeta n)) _). by intros []. Defined.

Definition toy_message : StoredMessage := mkStored b#"m1" true b#"hello" (U64 10) (Some (U64 20)).
Definition toy_group_message : GroupStoredMessage :=
  mkGroupStored b#"g1" b#"alice" b#"hello" (U64 10) None.

(** A store with one conversation of one message. *)
Definition toy_history : Mem := (append b#"bob" toy_message (∅ : Mem)).2.

Lemma append_refines_witness :
  ∃ m', append b#"bob" toy_message (∅ : Mem) = (Ok true, m') ∧ load b#"bob" m' = Ok [toy_message].
Proof.
  assert (load b#"bob" (∅ : Mem) = Ok []) as Hl by reflexivity.
  assert (peers (∅ : Mem) = Ok []) as Hp by reflexivity.
  destruct (append_refines ∅ b#"bob" toy_message [] [] Hl Hp) as (m' & H1 & H2 & _).
  - exists (U32 0). split; reflexivity.
  - by exists m'.
Defined.

Lemma edit_delete_expire_refine_witness :
  ∃ m', load_active b#"bob" (U64 30) toy_history = (Ok [], m') ∧ load b#"bob" m' = Ok [].
Proof.
  assert (load b#"bob" toy_history = Ok [toy_message]) as Hl by (vm_compute; reflexivity).
  destruct (edit_delete_expire_refine toy_history b#"bob" b#"m1" b#"bye" true (U64 30) _ Hl)
    as (_ & _ & m' & H1 & H2 & _). by exists m'.
Defined.

Lemma clear_refines_witness :
  ∃ m', clear b#"bob" toy_history = (Ok tt, m') ∧ load b#"bob" m' = Ok [].
Proof.
  assert (load b#"bob" toy_history = Ok [toy_message]) as Hl by (vm_compute; reflexivity).
  assert (peers toy_history = Ok [b#"bob"]) as Hp by (vm_compute; reflexivity).
  destruct (clear_refines toy_history b#"bob" _ _ Hl Hp) as (m' & H1 & H2 & _). by exists m'.
Defined.

Lemma group_transcript_refines_witness :
  ∃ m', group_append b#"g" toy_group_message (∅ : Mem) = (Ok true, m') ∧
        group_load b#"g" m' = Ok [toy_group_message].
Proof.
  assert (group_load b#"g" (∅ : Mem) = Ok []) as Hl by reflexivity.
  destruct (group_transcript_refines ∅ b#"g" b#"g1" [] [] toy_group_message [] Hl)
    as ((m' & H1 & H2) & _).
  - exists (U32 0). split; reflexivity.
  - by exists m'.
Defined.
