(* ===== verification/Groups.v ===== *)
(** * Groups: [mycellium-engine/src/groups.rs]

    What travels between devices ([MailItem], [PeerFrame]), a member's persisted
    view of a group, and its storage. *)

From S2P Require Import Prelude Crypto Wire Identity Records Group Message Delivery Storage LocalState LocalProps Instances.

Inductive MailItem : Type :=
  | Direct (envelope : Envelope)
  | GroupInvite (envelope : Envelope)
  | GroupText (group_id : str) (message : GroupMessage)
  | GroupLeave (envelope : Envelope).

Record DiscoveryRecord : Type := mkDiscovery {
  d_user_id : str;
  d_handle : str;
  d_record : SignedRecord
}.

Inductive PeerFrame : Type :=
  | DeliveryFrame (delivery_id : str) (item : MailItem)
  | AckFrame (ack : DeliveryAck)
  | DiscoveryRequest (want : list str)
  | DiscoveryResponse (records : list DiscoveryRecord).

Record GroupMember : Type := mkGroupMember {
  gmem_user_id : str;
  gmem_handle : str
}.

Record GroupLeavePayload : Type := mkGroupLeave { leave_group_id : str }.

Record GroupInvitePayload : Type := mkGroupInvite {
  inv_group_id : str;
  inv_name : str;
  inv_members : list GroupMember;
  inv_sender_id : bytes;
  inv_distribution : SenderKeyDistribution
}.

Record GroupSender : Type := mkGroupSender {
  snd_id : bytes;
  snd_user_id : str;
  snd_handle : str
}.

Record GroupKeyShare : Type := mkKeyShare {
  ks_user_id : str;
  ks_device_slot : str;
  ks_signing_public : arr 32
}.

Record StoredGroup : Type := mkStoredGroup {
  sg_id : str;
  sg_name : str;
  sg_members : list GroupMember;
  sg_senders : list GroupSender;
  sg_key_shares : list GroupKeyShare;
  sg_state : GroupState
}.

Definition has_sender_id (sender_id : bytes) (entry : GroupSender) : bool :=
  bool_decide (snd_id entry = sender_id).

Definition note_sender (self : StoredGroup) (sender_id : bytes) (user_id handle : str) : StoredGroup :=
  let senders :=
    match List.find (has_sender_id sender_id) (sg_senders self) with
    | Some _ => update_first (has_sender_id sender_id)
                  (λ entry, mkGroupSender (snd_id entry) user_id handle) (sg_senders self)
    | None => sg_senders self ++ [mkGroupSender sender_id user_id handle]
    end in
  mkStoredGroup (sg_id self) (sg_name self) (sg_members self) senders (sg_key_shares self)
    (sg_state self).

Definition sender_of (self : StoredGroup) (sender_id : bytes) : option GroupSender :=
  List.find (has_sender_id sender_id) (sg_senders self).

Definition key_shared_with (self : StoredGroup) (user_id device_slot : str) (signing_public : arr 32)
    : bool :=
  existsb (λ share, bool_decide (ks_user_id share = user_id)
                    && bool_decide (ks_device_slot share = device_slot)
                    && bool_decide (ks_signing_public share = signing_public))
    (sg_key_shares self).

Definition note_key_share (self : StoredGroup) (share : GroupKeyShare) : StoredGroup :=
  let key_shares := List.filter
    (λ known, negb (bool_decide (ks_user_id known = ks_user_id share))) (sg_key_shares self) in
  mkStoredGroup (sg_id self) (sg_name self) (sg_members self) (sg_senders self)
    (key_shares ++ [share]) (sg_state self).

Definition group_key (id : str) : bytes := key_prefix b#"group:" id.
Definition GROUPS_INDEX_KEY : bytes := b#"groups".

Section Store.
Context {S : Type} `{!Storage S, !Postcard StoredGroup, !Postcard (list str)}.

Definition list_groups (store : S) : result error (list str) :=
  let? input := st_get GROUPS_INDEX_KEY store in decode_state [] input b#"group index".

Definition save_group (group : StoredGroup) : M S unit :=
  let! ids := readM list_groups in
  let mutations := [Put (group_key (sg_id group)) (wire.encode group)] in
  let mutations :=
    if negb (contacts.contains ids (sg_id group))
    then mutations ++ [Put GROUPS_INDEX_KEY (wire.encode (ids ++ [sg_id group]))]
    else mutations in
  let! _ := st_apply_batch mutations in retM tt.

Definition load_group (id : str) (store : S) : result error (option StoredGroup) :=
  let? input := st_get (group_key id) store in
  load_state input (b#"group '" ++ id ++ b#"'").

Definition remove_group (id : str) : M S unit :=
  let! ids := readM list_groups in
  let ids := List.filter (λ g, negb (bool_decide (g = id))) ids in
  let! _ := st_apply_batch [Delete (group_key id); Put GROUPS_INDEX_KEY (wire.encode ids)] in
  retM tt.
End Store.

(** ** Refinement *)
Section Refinement.
Context {S : Type} `{!Storage S, !LawfulStorage S, !Postcard StoredGroup, !Postcard (list str)}.

Lemma list_groups_simr : simr (S := S) list_groups list_groups.
Proof. apply simr_get_then. Qed.
Lemma load_group_simr id : simr (S := S) (load_group id) (load_group id).
Proof. apply simr_get_then. Qed.
Lemma save_group_sim g : sim (S := S) (save_group g) (save_group g).
Proof. apply sim_bind; [apply sim_read, list_groups_simr|]. eauto with sim. Qed.
Lemma remove_group_sim id : sim (S := S) (remove_group id) (remove_group id).
Proof. apply sim_bind; [apply sim_read, list_groups_simr|]. eauto with sim. Qed.
End Refinement.
#[export] Hint Resolve list_groups_simr load_group_simr save_group_sim remove_group_sim : sim.

(** ** Properties *)

Lemma existsb_app_snoc {A} (p : A → bool) l x : existsb p (l ++ [x]) = existsb p l || p x.
Proof. by rewrite existsb_app; simpl; rewrite orb_false_r. Qed.

Lemma existsb_filter {A} (p q : A → bool) l :
  existsb p (List.filter q l) = existsb (λ x, q x && p x) l.
Proof. induction l as [|x l IH]; simpl; [done|]. destruct (q x); simpl; by rewrite IH. Qed.

Lemma existsb_ext_in {A} (p q : A → bool) l : (∀ x, p x = q x) → existsb p l = existsb q l.
Proof. intros H. induction l as [|x l IH]; simpl; [done|]. by rewrite H, IH. Qed.

(** one active device per member holds the sender key: after a share is
    noted, the member counts as served exactly on that device and for that key
    generation - earlier devices and generations of the same member no longer
    count - and what is known of the other members is unchanged. *)
Theorem note_key_share_latest (g : StoredGroup) (share : GroupKeyShare) (u slot : str)
    (pub : arr 32) :
  key_shared_with (note_key_share g share) u slot pub =
  if decide (u = ks_user_id share)
  then bool_decide (slot = ks_device_slot share) && bool_decide (pub = ks_signing_public share)
  else key_shared_with g u slot pub.
Proof.
  unfold key_shared_with, note_key_share. cbn [sg_key_shares].
  rewrite existsb_app_snoc, existsb_filter. destruct (decide (u = ks_user_id share)) as [->|Hne].
  - rewrite (proj2 (existsb_false _ _)); simpl.
    + rewrite (bool_decide_true (ks_user_id share = ks_user_id share)) by done. simpl.
      apply eq_true_iff_eq. rewrite !andb_true_iff, !bool_decide_eq_true.
      split; by intros [-> ->].
    + intros x _. by destruct (bool_decide (ks_user_id x = ks_user_id share)).
  - rewrite (bool_decide_false (ks_user_id share = u)) by congruence. simpl. rewrite orb_false_r.
    apply existsb_ext_in. intros x. destruct (bool_decide_reflect (ks_user_id x = u)) as [Hx|Hx].
    + by rewrite (bool_decide_false (ks_user_id x = ks_user_id share)) by congruence.
    + simpl. by rewrite andb_false_r.
Qed.

(** the identity behind a sender device id is the last authenticated one:
    noting a sender replaces what was known of that device id, or adds it, and
    keeps what is known of every other. *)
Theorem note_sender_latest (g : StoredGroup) (sender_id id : bytes) (u h : str) :
  sender_of (note_sender g sender_id u h) id =
  if decide (id = sender_id) then Some (mkGroupSender sender_id u h) else sender_of g id.
Proof.
  unfold sender_of, note_sender. cbn [sg_senders].
  destruct (List.find (has_sender_id sender_id) (sg_senders g)) as [e|] eqn:Hf.
  - destruct (decide (id = sender_id)) as [->|Hne].
    + rewrite find_update_first_self, Hf by done. simpl.
      apply find_Some_elem in Hf as [_ Hid%bool_decide_eq_true]. by rewrite Hid.
    + apply find_update_first_other. intros x Hx%bool_decide_eq_true. unfold has_sender_id. simpl.
      by rewrite bool_decide_false by congruence.
  - rewrite find_app. destruct (decide (id = sender_id)) as [->|Hne].
    + rewrite Hf. simpl. unfold has_sender_id. simpl. by rewrite bool_decide_true.
    + assert (has_sender_id id (mkGroupSender sender_id u h) = false) as Hn
        by (by apply bool_decide_false; simpl; congruence).
      simpl. rewrite Hn. by destruct (List.find (has_sender_id id) _).
Qed.

Section StoreProps.
Context `{!Postcard StoredGroup, !Postcard (list str)}.

Lemma group_key_index id : group_key id ≠ GROUPS_INDEX_KEY.
Proof. intros H. apply (f_equal (λ k, nth 5 k zero_byte)) in H. discriminate H. Qed.

Lemma load_group_put (id : str) (g : StoredGroup) (m : Mem) :
  load_group id (<[group_key (sg_id g) := wire.encode g]> m) =
  if decide (sg_id g = id) then Ok (Some g) else load_group id m.
Proof.
  unfold load_group. simpl. destruct (decide _) as [<-|Hne].
  - by rewrite lookup_insert_eq, load_state_encode.
  - rewrite lookup_insert_ne; [done|]. unfold group_key. by rewrite key_prefix_inj.
Qed.

Lemma load_group_index (id : str) (b : bytes) (m : Mem) :
  load_group id (<[GROUPS_INDEX_KEY := b]> m) = load_group id m.
Proof.
  unfold load_group. simpl. rewrite lookup_insert_ne; [done|]. apply not_eq_sym, group_key_index.
Qed.

(** saving a group stores it under its id and indexes it once, removing it
    erases its state and its index entry together; both leave every other
    group's state and membership in the index as they were. *)
Theorem group_store_refines (m : Mem) (ids : list str) (g : StoredGroup) (id : str)
    (Hl : list_groups m = Ok ids) :
  (∃ m', save_group g m = (Ok tt, m') ∧
     list_groups m' = Ok (if decide (sg_id g ∈ ids) then ids else ids ++ [sg_id g]) ∧
     ∀ i, load_group i m' = if decide (sg_id g = i) then Ok (Some g) else load_group i m) ∧
  (∃ m', remove_group id m = (Ok tt, m') ∧
     list_groups m' = Ok (List.filter (λ g, negb (bool_decide (g = id))) ids) ∧
     ∀ i, load_group i m' = if decide (i = id) then Ok None else load_group i m).
Proof.
  split.
  - unfold save_group. rewrite (bindM_run _ _ _ _ _ (readM_run _ _ _ Hl)), contains_elem.
    destruct (decide (sg_id g ∈ ids)) as [Hin|Hout].
    + rewrite bool_decide_true by done. eexists. split; [done|]. simpl. split.
      * rewrite <-Hl. unfold list_groups. simpl.
        by rewrite lookup_insert_ne by (apply group_key_index).
      * intros i. apply load_group_put.
    + rewrite bool_decide_false by done. eexists. split; [done|]. simpl. split.
      * unfold list_groups. simpl. rewrite lookup_insert_eq. cbn [bind_result].
        by rewrite decode_state_encode.
      * intros i. rewrite load_group_index. apply load_group_put.
  - unfold remove_group. rewrite (bindM_run _ _ _ _ _ (readM_run _ _ _ Hl)).
    eexists. split; [done|]. simpl. split.
    + unfold list_groups. simpl. rewrite lookup_insert_eq. cbn [bind_result].
      by rewrite decode_state_encode.
    + intros i. rewrite load_group_index. unfold load_group. simpl.
      destruct (decide (i = id)) as [->|Hne]; [by rewrite lookup_delete_eq|].
      rewrite lookup_delete_ne; [done|]. unfold group_key. rewrite key_prefix_inj. congruence.
Qed.
End StoreProps.

(** ** Witnesses *)
#[export] Instance MemberState_codec : Codec MemberState.
Proof.
  refine (codec_iso (λ s, (ms_id s, ms_chain s, ms_iteration s, ms_signing_public s, ms_skipped s))
    (λ '(i, c, n, p, l), Some (mkMemberState i c n p l)) _). by intros [].
Defined.
#[export] Instance GroupState_codec : Codec GroupState.
Proof.
  refine (codec_iso (λ s, (gs_own_id s, gs_own_chain s, gs_own_iteration s, gs_own_signing s,
                           gs_members s))
    (λ '(i, c, n, p, l), Some (mkGroupState i c n p l)) _). by intros [].
Defined.
#[export] Instance GroupMember_codec : Codec GroupMember.
Proof.
  refine (codec_iso (λ s, (gmem_user_id s, gmem_handle s)) (λ '(i, c), Some (mkGroupMember i c)) _).
  by intros [].
Defined.
#[export] Instance GroupSender_codec : Codec GroupSender.
Proof.
  refine (codec_iso (λ s, (snd_id s, snd_user_id s, snd_handle s))
    (λ '(i, u, h), Some (mkGroupSender i u h)) _). by intros [].
Defined.
#[export] Instance GroupKeyShare_codec : Codec GroupKeyShare.
Proof.
  refine (codec_iso (λ s, (ks_user_id s, ks_device_slot s, ks_signing_public s))
    (λ '(i, u, h), Some (mkKeyShare i u h)) _). by intros [].
Defined.
#[export] Instance StoredGroup_codec : Codec StoredGroup.
Proof.
  refine (codec_iso (λ g, (sg_id g, sg_name g, sg_members g, sg_senders g, sg_key_shares g,
                           sg_state g))
    (λ '(i, n, m, s, k, t), Some (mkStoredGroup i n m s k t)) _). by intros [].
Defined.

Definition toy_stored_group : StoredGroup :=
  mkStoredGroup b#"g1" b#"friends" [] [] []
    (mkGroupState b#"me" (arr_fit 32 []) (U32 0) (arr_fit 32 []) []).

Lemma group_store_refines_witness :
  ∃ m', save_group toy_stored_group (∅ : Mem) = (Ok tt, m') ∧
        load_group b#"g1" m' = Ok (Some toy_stored_group).
Proof.
  assert (list_groups (∅ : Mem) = Ok []) as Hl by reflexivity.
  destruct (group_store_refines ∅ [] toy_stored_group b#"g1" Hl) as ((m' & H1 & _ & H2) & _).
  exists m'. split; [done|]. rewrite H2. reflexivity.
Defined.
