(* ===== verification/Codecs.v ===== *)
(** * Codecs: concrete encodings of the structured messages

    Instances of the serialisation class for whole records, envelopes and mail
    items, at which the witnesses of the later files are evaluated. *)

From S2P Require Import Prelude Crypto Wire Identity UserId Records X3DH Group Message Groups Instances.

#[export] Instance SignedDeviceRecord_codec : Codec SignedDeviceRecord.
Proof.
  refine (codec_iso (λ r, (sd_record r, sd_signature r))
    (λ '(d, s), Some (mkSignedDeviceRecord d s)) _). by intros [].
Defined.
#[export] Instance SignedReachabilityRecord_codec : Codec SignedReachabilityRecord.
Proof.
  refine (codec_iso (λ r, (sr_record r, sr_signature r))
    (λ '(d, s), Some (mkSignedReachabilityRecord d s)) _). by intros [].
Defined.
#[export] Instance Device_codec : Codec Device.
Proof.
  refine (codec_iso (λ r, (signed r, reachability r)) (λ '(d, s), Some (mkDevice d s)) _).
  by intros [].
Defined.
#[export] Instance Record_codec : Codec Record_.
Proof.
  refine (codec_iso
    (λ r, (r_user_id r, r_handle r, r_name r, r_wallet r, r_device r, r_seq r))
    (λ '(u, h, n, w, d, s), Some (mkRecord u h n w d s)) _). by intros [].
Defined.
#[export] Instance SignedRecord_codec : Codec SignedRecord.
Proof.
  refine (codec_iso (λ r, (sg_record r, sg_signature r)) (λ '(d, s), Some (mkSignedRecord d s)) _).
  by intros [].
Defined.
#[export] Instance HandshakeInit_codec : Codec x3dh.HandshakeInit.
Proof.
  refine (codec_iso (λ i, (x3dh.initiator_ik i, x3dh.initiator_ek i))
    (λ '(a, c), Some (x3dh.mkHandshakeInit a c)) _). by intros [].
Defined.
#[export] Instance OneShotMessage_codec : Codec one_shot.OneShotMessage.
Proof.
  refine (codec_iso (λ '(one_shot.X3dhChaCha20Poly1305V1 c), c)
    (λ c, Some (one_shot.X3dhChaCha20Poly1305V1 c)) _). by intros [].
Defined.
#[export] Instance Envelope_codec : Codec Envelope.
Proof.
  refine (codec_iso (λ e, (from e, sender_record e, env_init e, env_message e, env_timestamp e))
    (λ '(f, s, i, m, t), Some (mkEnvelope f s i m t)) _). by intros [].
Defined.
#[export] Instance GroupMessage_codec : Codec GroupMessage.
Proof.
  refine (codec_iso (λ m, (gm_sender m, gm_iteration m, gm_ciphertext m, gm_signature m))
    (λ '(f, s, i, m), Some (mkGroupMessage f s i m)) _). by intros [].
Defined.
#[export] Instance MailItem_codec : Codec MailItem.
Proof.
  refine (codec_iso (B := Envelope + (Envelope + (str * GroupMessage + Envelope)))
    (λ i, match i with
          | Direct e => inl e
          | GroupInvite e => inr (inl e)
          | GroupText g m => inr (inr (inl (g, m)))
          | GroupLeave e => inr (inr (inr e))
          end)
    (λ s, Some (match s with
                | inl e => Direct e
                | inr (inl e) => GroupInvite e
                | inr (inr (inl (g, m))) => GroupText g m
                | inr (inr (inr e)) => GroupLeave e
                end)) _).
  by intros [].
Defined.
