(* ===== verification/WireOps.v ===== *)
(** * WireOps: [mycellium-engine/src/wireops.rs]

    Sealing a payload for one device and opening it: identity record, key
    agreement, size padding and one-shot encryption composed. *)

From S2P Require Import Prelude Crypto Wire Identity UserId Records X3DH Message Instances.

Definition associated_data (initiator_ik responder_ik : MessagingPublicKey) : bytes :=
  arr_bytes initiator_ik ++ responder_ik.

Definition device_slot (key : DevicePublicKey) : str := hex key.

Definition group_ad (group_id : str) : bytes := b#"group:" ++ group_id.

(** ** Padding *)
Definition PAD_BUCKETS : list N := [256; 1024; 4096; 16384; 65536; 262144]%N.

(** [needed.div_ceil(65536)] *)
Definition div_ceil (n d : N) : N := (n / d + (if (n mod d =? 0)%N then 0 else 1))%N.

Definition pad_target (needed : N) : N :=
  match List.find (λ bucket, needed <=? bucket)%N PAD_BUCKETS with
  | Some bucket => bucket
  | None => (div_ceil needed 65536 * 65536)%N
  end.

(** [u32::to_le_bytes], [u32::from_le_bytes] *)
Definition le32 (n : u32) : bytes := rev (be32 n).
Definition from_le32 (b : bytes) : N := fold_right (λ c n, byte_val c + n * 256)%N 0%N b.

(** The length is cast to [u32]; [resize] fills up with zeros. *)
Definition pad_bucket (payload : bytes) : bytes :=
  let needed := (4 + N.of_nat (length payload))%N in
  let target := pad_target needed in
  let out := le32 (uwrap 32 (N.of_nat (length payload))) ++ payload in
  out ++ zeros (N.to_nat target - length out).

Definition unpad_bucket (padded : bytes) : result error bytes :=
  if (length padded <? 4)%nat then Err (Anyhow b#"padded payload too short")
  else
    let len := from_le32 (take 4 padded) in
    let end_ := (4 + len)%N in
    if (end_ <=? N.of_nat (length padded))%N
    then Ok (take (N.to_nat len) (drop 4 padded))
    else Err (Anyhow b#"padded length prefix out of range").

Section WireOps.
Context {crypto : Crypto} {P : Type} `{!Platform P}
  `{!Postcard IdentityClaim, !Postcard (WalletPublicKey * DeviceRecord),
    !Postcard ReachabilityRecord}.

Definition random_id (platform : P) : str * P :=
  let '(b, platform) := fill_random platform 16 in (hex b, platform).

Definition app_message (platform : P) (body : Body) : AppMessage * P :=
  let '(id, platform) := random_id platform in
  (mkAppMessage id (now_unix_secs platform) None body, platform).

Definition text_message (platform : P) (text : str) : AppMessage * P :=
  app_message platform (Text text).

Definition my_group_id (identity : Identity) : bytes := Identity.device_public identity.

Definition this_device (identity : Identity) (seq : u64) : Device := Device_create identity seq.

Definition build_record (platform : P) (identity : Identity) (handle : Handle) (name : str)
    : SignedRecord :=
  let record := mkRecord (user_id (Identity.wallet_public identity)) handle name
    (Identity.wallet_public identity) (this_device identity (now_unix_secs platform))
    (now_unix_secs platform) in
  SignedRecord_sign record identity.

Definition seal_to_with_record (platform : P) (identity : Identity) (me : Handle)
    (sender_record : SignedRecord) (device : Device) (plaintext : bytes)
    : result error Envelope * P :=
  let responder_ik := id_key (sd_record (signed device)) in
  let responder_spk := spk_public (signed_pre_key (sd_record (signed device))) in
  match x3dh.initiate platform identity responder_ik responder_spk with
  | (Err e, platform) => (Err (anyhow_of e), platform)
  | (Ok initiated, platform) =>
      let ad := associated_data (Identity.messaging_public identity) responder_ik in
      let sealed := one_shot.seal (x3dh.shared_secret initiated) (pad_bucket plaintext) ad in
      (Ok (mkEnvelope me sender_record (x3dh.init initiated) sealed (now_unix_secs platform)),
       platform)
  end.

Definition seal_to (platform : P) (identity : Identity) (me : Handle) (my_name : str)
    (device : Device) (plaintext : bytes) : result error Envelope * P :=
  let sender_record := build_record platform identity me my_name in
  seal_to_with_record platform identity me sender_record device plaintext.
End WireOps.

Section Open.
Context {crypto : Crypto}
  `{!Postcard IdentityClaim, !Postcard (WalletPublicKey * DeviceRecord),
    !Postcard ReachabilityRecord}.

Definition open_envelope (identity : Identity) (env : Envelope) : result error (Handle * bytes) :=
  let? _ := map_err (λ _, Anyhow b#"sender record failed verification")
              (verify (sender_record env)) in
  let record := sg_record (sender_record env) in
  if negb (bool_decide (r_user_id record = user_id (r_wallet record)))
  then Err (Anyhow b#"sender record user id does not match its wallet")
  else if negb (bool_decide (from env = r_handle record))
  then Err (Anyhow b#"sender handle does not match its record")
  else if negb (bool_decide (id_key (sd_record (signed (r_device record)))
                             = x3dh.initiator_ik (env_init env)))
  then Err (Anyhow b#"handshake is not bound to the sender's identity")
  else
    let? shared := map_err anyhow_of (x3dh.respond identity (env_init env)) in
    let ad := associated_data (x3dh.initiator_ik (env_init env))
                (Identity.messaging_public identity) in
    let? padded := map_err (λ _, Anyhow b#"could not decrypt message")
                     (one_shot.open shared (env_message env) ad) in
    let? plaintext := unpad_bucket padded in
    Ok (from env, plaintext).
End Open.

(** ** Padding *)

Lemma length_le32 n : length (le32 n) = 4%nat.
Proof. done. Qed.

Lemma from_le32_le32 (n : u32) : from_le32 (le32 n) = u_val n.
Proof.
  unfold from_le32, le32, be32. simpl fold_right.
  rewrite !byte_val_byte_of. pose proof (N_digits_256 (u_val n) (u_val_lt (w := 32) n)). lia.
Qed.

Lemma pad_target_ge needed : (needed ≤ pad_target needed)%N.
Proof.
  unfold pad_target. destruct (List.find _ PAD_BUCKETS) as [b|] eqn:Hf.
  - by apply find_Some_elem in Hf as [_ H%N.leb_le].
  - unfold div_ceil. pose proof (N.div_mod needed 65536 ltac:(done)).
    pose proof (N.mod_lt needed 65536 ltac:(done)).
    destruct (N.eqb_spec (needed mod 65536) 0); lia.
Qed.

Lemma length_pad_bucket payload :
  N.of_nat (length (pad_bucket payload)) = pad_target (4 + N.of_nat (length payload)).
Proof.
  pose proof (pad_target_ge (4 + N.of_nat (length payload))) as Hge.
  unfold pad_bucket. cbv zeta. unfold zeros. rewrite !length_app, length_replicate, length_le32. lia.
Qed.

Lemma unpad_pad payload :
  (N.of_nat (length payload) < 2 ^ 32)%N → unpad_bucket (pad_bucket payload) = Ok payload.
Proof.
  intros Hlen. pose proof (length_pad_bucket payload) as Hl.
  pose proof (pad_target_ge (4 + N.of_nat (length payload))) as Hge. unfold unpad_bucket.
  destruct (Nat.ltb_spec (length (pad_bucket payload)) 4) as [Hlt|_]; [lia|].
  assert (take 4 (pad_bucket payload) = le32 (uwrap 32 (N.of_nat (length payload)))) as ->.
  { unfold pad_bucket. cbv zeta. rewrite <-(assoc_L (++)).
    by rewrite take_app_length' by (by rewrite length_le32). }
  rewrite from_le32_le32, u_val_uwrap_small by done.
  rewrite (proj2 (N.leb_le _ _)) by lia. f_equal. rewrite Nat2N.id.
  unfold pad_bucket. cbv zeta. rewrite <-(assoc_L (++)).
  rewrite drop_app_length' by (by rewrite length_le32). apply take_app_length.
Qed.

(** padding hides lengths and loses nothing: a payload of less than 4 GiB
    comes back exactly; the padded size is one of the six buckets or a multiple
    of 64 KiB, depends on the payload's size only, leaves room for the length
    prefix; and whatever [unpad_bucket] accepts, the result lies inside the
    authenticated bytes. *)
Theorem padding_roundtrip (payload padded out : bytes) :
  ((N.of_nat (length payload) < 2 ^ 32)%N → unpad_bucket (pad_bucket payload) = Ok payload) ∧
  (let size := N.of_nat (length (pad_bucket payload)) in
   (size ∈ PAD_BUCKETS ∨ (size mod 65536 = 0)%N) ∧
   size = pad_target (4 + N.of_nat (length payload)) ∧
   (4 + N.of_nat (length payload) ≤ size)%N) ∧
  (unpad_bucket padded = Ok out →
   N.of_nat (length out) = from_le32 (take 4 padded) ∧
   ∃ rest, padded = take 4 padded ++ out ++ rest).
Proof.
  split_and!.
  - apply unpad_pad.
  - cbv zeta. rewrite length_pad_bucket. split_and!; [|done|apply pad_target_ge].
    unfold pad_target. destruct (List.find _ PAD_BUCKETS) as [b|] eqn:Hf.
    + left. by apply find_Some_elem in Hf as [? _].
    + right. by rewrite N.Div0.mod_mul.
  - unfold unpad_bucket. destruct (Nat.ltb_spec (length padded) 4) as [|H4]; [done|].
    destruct (N.leb_spec (4 + from_le32 (take 4 padded)) (N.of_nat (length padded))) as [Hle|];
      [|done].
    intros [= <-]. split.
    + rewrite length_take, length_drop. lia.
    + eexists (drop (N.to_nat (from_le32 (take 4 padded))) (drop 4 padded)).
      by rewrite take_drop, take_drop.
Qed.

(** ** Envelopes *)
Section Envelopes.
Context {crypto : Crypto} {P : Type} `{!Platform P}
  `{!Postcard IdentityClaim, !Postcard (WalletPublicKey * DeviceRecord),
    !Postcard ReachabilityRecord}.

(** The device record belongs to this local identity. *)
Definition device_of (identity : Identity) (device : Device) : Prop :=
  id_key (sd_record (signed device)) = Identity.messaging_public identity ∧
  spk_public (signed_pre_key (sd_record (signed device))) = Identity.signed_pre_key_public identity.

Lemma seal_to_with_record_Ok (platform platform' : P) (a : Identity) (me : Handle)
    (sr : SignedRecord) (device : Device) (plaintext : bytes) env :
  seal_to_with_record platform a me sr device plaintext = (Ok env, platform') →
  ∃ i, x3dh.initiate platform a (id_key (sd_record (signed device)))
         (spk_public (signed_pre_key (sd_record (signed device)))) = (Ok i, platform') ∧
    from env = me ∧ sender_record env = sr ∧ env_init env = x3dh.init i ∧
    env_message env = one_shot.seal (x3dh.shared_secret i) (pad_bucket plaintext)
      (associated_data (Identity.messaging_public a) (id_key (sd_record (signed device)))).
Proof.
  unfold seal_to_with_record. destruct (x3dh.initiate _ _ _ _) as [[i|e] p']; [|done].
  intros [= <- <-]. by exists i.
Qed.

Lemma sealed_opens (laws : CryptoLaws) (platform platform' : P) (a c : Identity) (me : Handle)
    (sr : SignedRecord) (device : Device) (plaintext : bytes) (env : Envelope)
    (Hseal : seal_to_with_record platform a me sr device plaintext = (Ok env, platform'))
    (Hdevice : device_of c device)
    (Hverify : verify sr = Ok tt)
    (Hhandle : r_handle (sg_record sr) = me)
    (Hkey : id_key (sd_record (signed (r_device (sg_record sr)))) = Identity.messaging_public a)
    (Hlen : (N.of_nat (length plaintext) < 2 ^ 32)%N) :
  open_envelope c env = Ok (me, plaintext).
Proof.
  apply seal_to_with_record_Ok in Hseal as (i & Hi & Hfrom & Hsr & Hinit & Hmsg).
  destruct Hdevice as [Hik Hspk]. rewrite Hik, Hspk in Hi.
  destruct (respond_to_initiated _ _ _ _ _ Hi) as [Hiki Hrespond].
  unfold open_envelope. rewrite Hsr, Hverify. cbn [map_err bind_result].
  rewrite (bool_decide_true (r_user_id _ = _)) by (by apply verify_spec in Hverify as []).
  rewrite Hfrom, Hhandle, (bool_decide_true (me = me)) by done.
  rewrite Hinit, Hiki, Hkey, bool_decide_true by done. cbn [negb].
  rewrite Hrespond, Hmsg, Hik. cbn [map_err bind_result]. rewrite one_shot.open_seal.
  cbn [map_err bind_result]. by rewrite unpad_pad.
Qed.

(** what is sealed for a device opens on that device: whenever sealing to a
    device of the recipient succeeds, under any verifying record of the sender
    that carries the sender's handle and messaging key, the recipient opens the
    envelope to exactly the sender's handle and the payload. *)
Theorem open_sealed (laws : CryptoLaws) (platform platform' : P) (a c : Identity) (me : Handle)
    (sr : SignedRecord) (device : Device) (plaintext : bytes) (env : Envelope)
    (Hseal : seal_to_with_record platform a me sr device plaintext = (Ok env, platform'))
    (Hdevice : device_of c device)
    (Hverify : verify sr = Ok tt)
    (Hhandle : r_handle (sg_record sr) = me)
    (Hkey : id_key (sd_record (signed (r_device (sg_record sr)))) = Identity.messaging_public a)
    (Hlen : (N.of_nat (length plaintext) < 2 ^ 32)%N) :
  open_envelope c env = Ok (me, plaintext).
Proof. by apply (sealed_opens laws platform platform' a c me sr device). Qed.

(** C31: nothing opens anonymously: an envelope that opens carries a fully
    self-certifying sender record, the returned handle is the one in that
    record, the handshake key is the messaging key the wallet certified, and
    the payload is what decrypts under the secret of that very handshake. *)
Theorem open_authenticates (c : Identity) (env : Envelope) (h : Handle) (plaintext : bytes)
    (Hopen : open_envelope c env = Ok (h, plaintext)) :
  certified (sender_record env) ∧
  h = r_handle (sg_record (sender_record env)) ∧
  x3dh.initiator_ik (env_init env) =
    id_key (sd_record (signed (r_device (sg_record (sender_record env))))) ∧
  ∃ shared padded, x3dh.respond c (env_init env) = Ok shared ∧
    one_shot.open shared (env_message env)
      (associated_data (x3dh.initiator_ik (env_init env)) (Identity.messaging_public c))
      = Ok padded ∧
    unpad_bucket padded = Ok plaintext.
Proof.
  unfold open_envelope in Hopen.
  destruct (verify (sender_record env)) as [[]|] eqn:Hv; [|done]. apply verify_spec in Hv.
  cbn [map_err bind_result] in Hopen.
  destruct (bool_decide_reflect (r_user_id (sg_record (sender_record env)) =
    user_id (r_wallet (sg_record (sender_record env))))) as [_|]; [|done].
  destruct (bool_decide_reflect (from env = r_handle (sg_record (sender_record env)))) as [Hf|];
    [|done].
  destruct (bool_decide_reflect (id_key (sd_record (signed (r_device (sg_record (sender_record env)))))
    = x3dh.initiator_ik (env_init env))) as [Hk|]; [|done].
  cbn [negb] in Hopen. destruct (x3dh.respond c (env_init env)) as [shared|] eqn:Hr; [|done].
  cbn [map_err bind_result] in Hopen.
  destruct (one_shot.open _ _ _) as [padded|] eqn:Ho; [|done]. cbn [map_err bind_result] in Hopen.
  destruct (unpad_bucket padded) as [out|] eqn:Hu; [|done]. injection Hopen as <- <-.
  split_and!; [done..|]. by exists shared, padded.
Qed.
End Envelopes.

Lemma padding_roundtrip_witness :
  unpad_bucket (pad_bucket b#"hello") = Ok b#"hello" ∧ length (pad_bucket b#"hello") = 256%nat.
Proof.
  split; [|reflexivity].
  apply (padding_roundtrip b#"hello" [] []). reflexivity.
Defined.

(** Alice (7) writes to Bob (9). *)
Definition toy_envelope : result error Envelope :=
  (seal_to_with_record 5%N (toy_identity 7) (toy_handle "alice") sample_record
     (Device_create (toy_identity 9) (U64 1)) b#"hello").1.

Lemma open_sealed_witness :
  ∃ env, toy_envelope = Ok env ∧
         open_envelope (toy_identity 9) env = Ok (toy_handle "alice", b#"hello").
Proof.
  unfold toy_envelope.
  destruct (seal_to_with_record 5%N (toy_identity 7) (toy_handle "alice") sample_record
     (Device_create (toy_identity 9) (U64 1)) b#"hello") as [[env|e] p] eqn:E.
  - exists env. split; [done|].
    apply (open_sealed ToyCryptoLaws 5%N p (toy_identity 7) (toy_identity 9) (toy_handle "alice")
      sample_record (Device_create (toy_identity 9) (U64 1)) b#"hello" env E).
    + split; reflexivity.
    + vm_compute. reflexivity.
    + reflexivity.
    + reflexivity.
    + reflexivity.
  - exfalso. vm_compute in E. discriminate E.
Defined.

Lemma open_authenticates_witness :
  ∃ env, toy_envelope = Ok env ∧ certified (sender_record env).
Proof.
  destruct toy_envelope as [env|e] eqn:E; [|exfalso; vm_compute in E; discriminate E].
  exists env. split; [done|].
  apply (open_authenticates (toy_identity 9) env (toy_handle "alice") b#"hello").
  vm_compute in E. injection E as <-. vm_compute. reflexivity.
Defined.
