(* ===== verification/Peerbook.v ===== *)
(** * Peerbook: [mycellium-engine/src/peerbook.rs]

    The local book of self-authenticating peer records: verified and pinned on
    the way in, exchanged as text or over discovery. *)

From S2P Require Import Prelude Std Crypto Wire Identity UserId Records X3DH Message Group Delivery Storage Antirollback Groups Codecs WireOps Instances.

Module peerbook.
Definition KEY : bytes := b#"peerbook".

Record PeerRecord : Type := mkPeerRecord {
  user_id : str;
  handle : str;
  record : SignedRecord
}.

(** [err.to_string()] *)
Definition error_msg (e : error) : str :=
  match e with Anyhow msg => msg | StorageError msg => msg end.

Record ImportReport : Type := mkReport {
  imported : nat;
  skipped : list (str * str)
}.

(** The fields of the entry that [put] assigns. *)
Definition set_record (h : Handle) (r : SignedRecord) (entry : PeerRecord) : PeerRecord :=
  mkPeerRecord (user_id entry) (Handle.as_str h) r.

(** The [user_id] of a record as text. *)
Definition uid (r : SignedRecord) : str := UserId.as_str (r_user_id (sg_record r)).

Section Peerbook.
Context {crypto : Crypto} {S : Type} `{!Storage S}
  `{!Postcard IdentityClaim, !Postcard (WalletPublicKey * DeviceRecord), !Postcard DeviceRecord,
    !Postcard ReachabilityRecord, !Postcard VersionPins, !Postcard (list PeerRecord)}.

Definition load (store : S) : result error (list PeerRecord) :=
  let? input := st_get KEY store in
  match input with
  | None => Ok []
  | Some input =>
      map_err (λ _, Anyhow b#"local signed-record book is corrupt") (wire.decode input)
  end.

Definition save (records : list PeerRecord) : M S unit :=
  let! _ := st_put KEY (wire.encode records) in retM tt.

Definition get (h : Handle) (store : S) : result error (option SignedRecord) :=
  let? records := load store in
  let matches := List.filter
    (λ entry, bool_decide (handle entry = Handle.as_str h)
              && bool_decide (r_handle (sg_record (record entry)) = h)) records in
  Ok (match matches with
      | [] => None
      | [first] => Some (record first)
      | _ :: _ :: _ => None
      end).

Definition get_by_user_id (u : UserId) (store : S) : result error (option SignedRecord) :=
  let? records := load store in
  Ok (record <$> List.find (λ entry, bool_decide (user_id entry = UserId.as_str u)) records).

Definition verify_handle (h : Handle) (r : SignedRecord) : result error unit :=
  if negb (bool_decide (r_user_id (sg_record r) = UserId.user_id (r_wallet (sg_record r))))
     || negb (bool_decide (r_handle (sg_record r) = h))
  then Err (Anyhow (b#"record does not belong to '" ++ Handle.as_str h ++ b#"'"))
  else Ok tt.

Definition put (h : Handle) (r : SignedRecord) : M S unit :=
  let! _ := liftM (verify_handle h r) in
  let! _ := liftM (map_err (λ _, Anyhow b#"record failed verification") (verify r)) in
  if bool_decide (arr_bytes (address (reticulum (r_device (sg_record r)))) = zeros 16)
  then errM (Anyhow (b#"record for '" ++ Handle.as_str h ++ b#"' has an empty Reticulum destination"))
  else
    let! fresh := check_and_pin (uid r) r in
    if negb fresh then errM (Anyhow (b#"stale record for '" ++ Handle.as_str h ++ b#"'"))
    else
      let! records := readM load in
      let is_user entry := bool_decide (user_id entry = uid r) in
      let records :=
        match List.find is_user records with
        | Some _ => update_first is_user (set_record h r) records
        | None => records ++ [mkPeerRecord (uid r) (Handle.as_str h) r]
        end in
      let! _ := save records in retM tt.

Definition remove (h : Handle) : M S bool :=
  let! records := readM load in
  if negb (length (List.filter (λ entry, bool_decide (handle entry = Handle.as_str h)) records)
           =? 1)%nat
  then retM false
  else
    let before := length records in
    let records := List.filter
      (λ entry, negb (bool_decide (handle entry = Handle.as_str h))
                || negb (bool_decide (r_handle (sg_record (record entry)) = h))) records in
    let removed := negb (before =? length records)%nat in
    let! _ := save records in retM removed.

Definition discovery (entry : PeerRecord) : DiscoveryRecord :=
  mkDiscovery (user_id entry) (handle entry) (record entry).

Definition pack (want : list str) (store : S) : result error (list DiscoveryRecord) :=
  let? records := load store in
  if bool_decide (want = []) then Ok (map discovery records)
  else
    Ok (map discovery (List.filter
      (λ entry, existsb (λ h, bool_decide (h = handle entry)) want) records)).

(** One iteration of [import_records]. *)
Definition import_one (report : ImportReport) (entry : DiscoveryRecord) (store : S)
    : ImportReport * S :=
  let skip h reason := mkReport (imported report) (skipped report ++ [(h, reason)]) in
  if negb (bool_decide (d_user_id entry = uid (d_record entry)))
  then (skip (d_handle entry) b#"record user id mismatch", store)
  else
    match Handle.new (d_handle entry) with
    | Err _ => (skip (d_handle entry) b#"invalid handle", store)
    | Ok h =>
        match put h (d_record entry) store with
        | (Ok _, store) => (mkReport (imported report + 1) (skipped report), store)
        | (Err err, store) => (skip (Handle.as_str h) (error_msg err), store)
        end
    end.

Fixpoint import_loop (report : ImportReport) (records : list DiscoveryRecord) (store : S)
    : ImportReport * S :=
  match records with
  | [] => (report, store)
  | entry :: rest =>
      let '(report, store) := import_one report entry store in import_loop report rest store
  end.

Definition import_records (records : list DiscoveryRecord) (store : S) : ImportReport * S :=
  import_loop (mkReport 0 []) records store.
End Peerbook.

(** ** Building and exchanging records *)
Section Exchange.
Context {crypto : Crypto} {P : Type} `{!Platform P}
  `{!Postcard IdentityClaim, !Postcard (WalletPublicKey * DeviceRecord),
    !Postcard ReachabilityRecord, !Postcard SignedRecord}.

Definition build_record (platform : P) (identity : Identity) (h : Handle) (name : str)
    : SignedRecord :=
  let record := mkRecord (UserId.user_id (Identity.wallet_public identity)) h name
    (Identity.wallet_public identity) (this_device identity (now_unix_secs platform))
    (now_unix_secs platform) in
  SignedRecord_sign record identity.

Definition with_device (platform : P) (identity : Identity) (h : Handle) (name : str)
    (device : Device) (prev_seq : u64) : SignedRecord :=
  let record := mkRecord (UserId.user_id (Identity.wallet_public identity)) h name
    (Identity.wallet_public identity) device
    (umax (saturating_add prev_seq (U64 1)) (now_unix_secs platform)) in
  SignedRecord_sign record identity.

Definition encode (r : SignedRecord) : str := hex (wire.encode r).
End Exchange.

(** A call that may abort: [None] is a panic. *)
Abbreviation panics A := (option A).

(** [char::to_digit(16)] on one byte. *)
Definition to_digit16 (c : ascii) : option N :=
  if is_ascii_digit c then Some (byte_val c - 48)%N
  else if in_range 97 102 c then Some (byte_val c - 87)%N
  else if in_range 65 70 c then Some (byte_val c - 55)%N
  else None.

(** [u8::from_str_radix(s, 16)] on a two-byte slice: a leading [+] is a sign. *)
Definition from_str_radix16 (c d : ascii) : option ascii :=
  if bool_decide (c = byte_of 43)
  then lo ← to_digit16 d; Some (byte_of lo)
  else hi ← to_digit16 c; lo ← to_digit16 d; Some (byte_of (16 * hi + lo)).

(** [str::is_char_boundary] at the start of the rest: not a continuation byte. *)
Definition boundary (rest : str) : bool :=
  match rest with [] => true | c :: _ => negb (in_range 128 191 c) end.

(** The iterator of [from_hex], collected up to the first error; slicing off a
    character boundary panics. *)
Fixpoint hex_pairs (s : str) : panics (result error bytes) :=
  match s with
  | c :: d :: rest =>
      if negb (boundary s) || negb (boundary rest) then None
      else
        match from_str_radix16 c d with
        | None => Some (Err (Anyhow b#"invalid hex"))
        | Some byte =>
            match hex_pairs rest with
            | None => None
            | Some r => Some (let? bytes := r in Ok (byte :: bytes))
            end
        end
  | _ => Some (Ok [])
  end.

Definition from_hex (s : str) : panics (result error bytes) :=
  if negb (Nat.even (length s)) then Some (Err (Anyhow b#"hex string has an odd length"))
  else hex_pairs s.

Section Decode.
Context {crypto : Crypto}
  `{!Postcard IdentityClaim, !Postcard (WalletPublicKey * DeviceRecord),
    !Postcard ReachabilityRecord, !Postcard SignedRecord}.

Definition decode (s : str) : panics (result error SignedRecord) :=
  input ← from_hex (trim s);
  Some (
    let? input := input in
    let? r := map_err (λ _, Anyhow b#"bad record") (wire.decode input) in
    let? _ := map_err (λ _, Anyhow b#"record failed verification") (verify r) in
    Ok r).
End Decode.
End peerbook.
