(* ===== verification/PeerbookProps.v ===== *)
(** * PeerbookProps: what the peer book guarantees

    Everything in the book is self-certifying and no user's record ever rolls
    back; the text form of a record round-trips. *)

From S2P Require Import Prelude Std Crypto Wire Identity UserId Records X3DH Message Group Delivery Storage LocalState LocalProps Antirollback Groups Codecs WireOps Peerbook Instances.
Import peerbook.

(** ** Refinement *)
Section Refinement.
Context {crypto : Crypto} {S : Type} `{!Storage S, !LawfulStorage S}
  `{!Postcard IdentityClaim, !Postcard (WalletPublicKey * DeviceRecord), !Postcard DeviceRecord,
    !Postcard ReachabilityRecord, !Postcard VersionPins, !Postcard (list PeerRecord)}.

Lemma peerbook_load_simr : simr (S := S) load load.
Proof. unfold load. solve_simr. Qed.
Hint Resolve peerbook_load_simr check_and_pin_sim : sim.

Lemma peerbook_put_sim h r : sim (S := S) (put h r) (put h r).
Proof.
  unfold put. apply sim_bind; [eauto with sim|]. intros _. apply sim_bind; [eauto with sim|].
  intros _. destruct (bool_decide _); [eauto with sim|]. apply sim_bind; [eauto with sim|].
  intros fresh. destruct (negb fresh); [eauto with sim|]. apply sim_bind; [eauto with sim|].
  intros rs. cbv zeta. unfold save. repeat (apply sim_bind; eauto with sim).
Qed.

Lemma peerbook_remove_sim h : sim (S := S) (remove h) (remove h).
Proof.
  unfold remove. apply sim_bind; [eauto with sim|]. intros rs. destruct (negb _); [eauto with sim|].
  cbv zeta. unfold save. repeat (apply sim_bind; eauto with sim).
Qed.
End Refinement.
#[export] Hint Resolve peerbook_load_simr peerbook_put_sim peerbook_remove_sim : sim.

(** ** The book *)
Section Book.
Context {crypto : Crypto}
  `{!Postcard IdentityClaim, !Postcard (WalletPublicKey * DeviceRecord), !Postcard DeviceRecord,
    !Postcard ReachabilityRecord, !Postcard VersionPins, !Postcard (list PeerRecord)}.

(** What the book promises of one entry. *)
Record entry_ok (e : PeerRecord) : Prop := {
  eo_user : user_id e = uid (record e);
  eo_handle : handle e = Handle.as_str (r_handle (sg_record (record e)));
  eo_certified : certified (record e);
  eo_address : arr_bytes (address (reticulum (r_device (sg_record (record e))))) ≠ zeros 16
}.

(** The pins of a user cover a record. *)
Definition covered (m : Mem) (r : SignedRecord) : Prop :=
  ∃ pins, load_pins (uid r) (r_wallet (sg_record r)) m = Ok (Some pins) ∧ pinned pins r.

Record sound (m : Mem) (es : list PeerRecord) : Prop := {
  so_load : load m = Ok es;
  so_ok : Forall entry_ok es;
  so_users : NoDup (map user_id es);
  so_pins : Forall (λ e, covered m (record e)) es
}.

Lemma sound_empty : sound ∅ [].
Proof. split; [done|constructor|apply NoDup_nil_2|constructor]. Qed.

Lemma pins_key_book u w : key u w ≠ KEY.
Proof. intros H. apply (f_equal (λ k, nth 0 k zero_byte)) in H. discriminate H. Qed.

Lemma load_key (m : Mem) u w b : load (<[key u w := b]> m) = load m.
Proof. unfold load. simpl. by rewrite lookup_insert_ne by (apply pins_key_book). Qed.

Lemma load_save (m : Mem) es : load (<[KEY := wire.encode es]> m) = Ok es.
Proof.
  unfold load. simpl. rewrite lookup_insert_eq. cbn [bind_result]. by rewrite wire.decode_encode.
Qed.

Lemma load_pins_book (m : Mem) u w b : load_pins u w (<[KEY := b]> m) = load_pins u w m.
Proof.
  unfold load_pins. simpl. rewrite lookup_insert_ne; [done|]. apply not_eq_sym, pins_key_book.
Qed.

Lemma load_pins_other (m : Mem) u u' w w' b :
  u ≠ u' → load_pins u w (<[key u' w' := b]> m) = load_pins u w m.
Proof.
  intros Hne. unfold load_pins. simpl. rewrite lookup_insert_ne; [done|].
  unfold key. rewrite key_prefix_inj. congruence.
Qed.

Definition is_user (u : str) (e : PeerRecord) : bool := bool_decide (user_id e = u).

(** The list after a record was accepted for a handle. *)
Definition upsert (h : Handle) (r : SignedRecord) (es : list PeerRecord) : list PeerRecord :=
  match List.find (is_user (uid r)) es with
  | Some _ => update_first (is_user (uid r)) (set_record h r) es
  | None => es ++ [mkPeerRecord (uid r) (Handle.as_str h) r]
  end.

(** The checks of [put] before the pins are consulted. *)
Definition admissible (h : Handle) (r : SignedRecord) : bool :=
  is_ok (verify_handle h r) && is_ok (verify r)
  && negb (bool_decide (arr_bytes (address (reticulum (r_device (sg_record r)))) = zeros 16)).

Lemma admissible_spec h r :
  admissible h r = true ↔
  certified r ∧ r_handle (sg_record r) = h ∧
  arr_bytes (address (reticulum (r_device (sg_record r)))) ≠ zeros 16.
Proof.
  unfold admissible. rewrite !andb_true_iff, negb_true_iff, bool_decide_eq_false.
  unfold verify_handle. split.
  - intros [[H1 H2] H3]. destruct (verify r) as [[]|] eqn:Hv; [|done]. apply verify_spec in Hv.
    destruct (bool_decide_reflect (r_user_id (sg_record r) = UserId.user_id (r_wallet (sg_record r))));
      [|done].
    by destruct (bool_decide_reflect (r_handle (sg_record r) = h)).
  - intros (Hc & <- & Ha). rewrite (proj2 (verify_spec r) Hc).
    by rewrite (bool_decide_true (r_user_id _ = _)), bool_decide_true by (done || apply Hc).
Qed.

(** [put] on the map: refused before the pins, refused by the pins, or stored. *)
Lemma put_run (m : Mem) h r :
  put h r m =
  if admissible h r then
    match check_and_pin (uid r) r m with
    | (Ok true, m') =>
        match load m with
        | Ok es => (Ok tt, <[KEY := wire.encode (upsert h r es)]> m')
        | Err e => (Err e, m')
        end
    | (Ok false, m') => (Err (Anyhow (b#"stale record for '" ++ Handle.as_str h ++ b#"'")), m')
    | (Err e, m') => (Err e, m')
    end
  else ((put h r m).1, m).
Proof.
  unfold admissible, put. destruct (verify_handle h r) as [[]|e]; [|done].
  destruct (verify r) as [[]|e]; [|done]. unfold bindM, liftM. simpl.
  destruct (bool_decide _); [done|]. simpl. rewrite check_and_pin_run.
  destruct (load_pins _ _ m) as [[pins|]|e] eqn:Hl; [|done..].
  destruct (accepts pins r); [|done]. simpl. unfold readM. rewrite load_key. by destruct (load m).
Qed.

Definition new_entry (h : Handle) (r : SignedRecord) : PeerRecord :=
  mkPeerRecord (uid r) (Handle.as_str h) r.

Lemma elem_of_update_first {A} (p : A → bool) f (l : list A) y :
  y ∈ update_first p f l → y ∈ l ∨ ∃ x, x ∈ l ∧ p x = true ∧ y = f x.
Proof.
  induction l as [|x l IH]; simpl; [by left|]. destruct (p x) eqn:Hp.
  - intros [->|Hy]%elem_of_cons; [right; exists x; split; [by left|done]|left; by right].
  - intros [->|Hy]%elem_of_cons; [left; by left|]. destruct (IH Hy) as [|(z & Hz & ?)].
    + left. by right.
    + right. exists z. split; [by right|done].
Qed.

Lemma elem_of_upsert h r es e :
  e ∈ upsert h r es → e = new_entry h r ∨ e ∈ es.
Proof.
  unfold upsert. destruct (List.find _ es).
  - intros [Hin|(x & _ & Hx%bool_decide_eq_true & ->)]%elem_of_update_first; [by right|].
    left. unfold set_record, new_entry. by rewrite Hx.
  - intros [Hin|Hin%list_elem_of_singleton]%elem_of_app; [by right|by left].
Qed.

Lemma find_upsert_user h r es u :
  List.find (is_user u) (upsert h r es) =
  if decide (u = uid r) then Some (new_entry h r) else List.find (is_user u) es.
Proof.
  unfold upsert. destruct (List.find (is_user (uid r)) es) as [e|] eqn:Hf.
  - destruct (decide (u = uid r)) as [->|Hne].
    + rewrite find_update_first_self, Hf by done. simpl.
      apply find_Some_elem in Hf as [_ Hu%bool_decide_eq_true]. unfold set_record, new_entry.
      by rewrite Hu.
    + apply find_update_first_other. intros x Hx%bool_decide_eq_true. unfold is_user. simpl.
      by rewrite bool_decide_false by congruence.
  - rewrite find_app. destruct (decide (u = uid r)) as [->|Hne].
    + rewrite Hf. simpl. unfold is_user. simpl. by rewrite bool_decide_true.
    + simpl. unfold is_user at 2. simpl. rewrite bool_decide_false by congruence.
      by destruct (List.find (is_user u) es).
Qed.

Lemma upsert_users h r es : NoDup (map user_id es) → NoDup (map user_id (upsert h r es)).
Proof.
  intros Hnd. unfold upsert. destruct (List.find _ es) as [e|] eqn:Hf.
  - by rewrite (update_first_fst user_id).
  - rewrite map_app. apply list.NoDup_app. split_and!; [done| |apply NoDup_singleton].
    intros x Hx. simpl. intros ->%list_elem_of_singleton.
    apply list_elem_of_In, in_map_iff in Hx as (e & He & Hin%list_elem_of_In).
    rewrite find_None_elem in Hf. specialize (Hf e Hin). by apply bool_decide_eq_false in Hf.
Qed.

(** The pins after a record was accepted for its user. *)
Lemma covered_advance (m : Mem) r old pins (es : list PeerRecord) :
  load_pins (uid r) (r_wallet (sg_record r)) m = Ok (Some pins) → accepts pins r = true →
  covered m old ∨ old = r →
  covered (<[KEY := wire.encode es]>
    (<[key (uid r) (r_wallet (sg_record r)) := wire.encode (advance_pins pins r)]> m)) old.
Proof.
  intros Hl Ha Hold. unfold covered. rewrite load_pins_book.
  destruct (decide (uid old = uid r)) as [Heq|Hne].
  - rewrite Heq. exists (advance_pins pins r). split; [apply load_pins_put|].
    destruct Hold as [(pins' & Hl' & Hp)| ->]; [|by apply accepted_pinned].
    apply pinned_advance; [|done]. rewrite Heq in Hl'.
    change (load_pins (uid r) (r_wallet (sg_record r)) m = Ok (Some pins')) in Hl'. congruence.
  - rewrite load_pins_other by done. destruct Hold as [| ->]; done.
Qed.

(** [put] on a sound book: nothing changes, or the record is stored. *)
Lemma put_sound (m : Mem) es h r :
  sound m es →
  (∃ e, put h r m = (Err e, m)) ∨
  (∃ m', put h r m = (Ok tt, m') ∧ admissible h r = true ∧ sound m' (upsert h r es) ∧
     (∀ old, covered m old → covered m' old) ∧
     (∀ old, covered m old → uid old = uid r → no_rollback old r)).
Proof.
  intros [Hl Hok Hu Hp]. rewrite put_run. destruct (admissible h r) eqn:Had.
  - rewrite check_and_pin_run. destruct (load_pins _ _ m) as [[pins|]|e] eqn:Hpin;
      [|left; by eexists..]. destruct (accepts pins r) eqn:Ha; [|left; by eexists].
    right. rewrite Hl. eexists. split; [done|]. split; [done|].
    assert (∀ old, covered m old ∨ old = r → covered (<[KEY := wire.encode (upsert h r es)]>
      (<[key (uid r) (r_wallet (sg_record r)) := wire.encode (advance_pins pins r)]> m)) old) as Hcov
      by (intros old; by apply covered_advance).
    split_and!; [|by auto|].
    + split; [apply load_save| |by apply upsert_users|].
      * apply list.Forall_forall. intros e [->|He]%elem_of_upsert; [|by rewrite list.Forall_forall in Hok; auto].
        apply admissible_spec in Had as (Hc & <- & Hz). by split.
      * apply list.Forall_forall. intros e [->|He]%elem_of_upsert; apply Hcov; [by right|left].
        rewrite list.Forall_forall in Hp. by apply Hp.
    + intros old (pins' & Hl' & Hpo) Heq. apply (pinned_no_rollback pins); [|done].
      rewrite Heq in Hl'.
      change (load_pins (uid r) (r_wallet (sg_record r)) m = Ok (Some pins')) in Hl'. congruence.
  - left. destruct (put h r m) as [[[]|e] m'] eqn:E; [|by eexists].
    exfalso. unfold admissible in Had. unfold put, bindM, liftM in E.
    destruct (verify_handle h r) as [[]|]; [|done]. destruct (verify r) as [[]|]; [|done].
    simpl in Had, E. by destruct (bool_decide _).
Qed.

(** ** Over time *)

(** Any record of the user of [old] in the book does not roll [old] back. *)
Definition behind (m : Mem) (es : list PeerRecord) (old : SignedRecord) : Prop :=
  covered m old ∧ ∀ e, e ∈ es → uid (record e) = uid old → no_rollback old (record e).

Definition keeps (m : Mem) (es : list PeerRecord) (m' : Mem) : Prop :=
  ∃ es', sound m' es' ∧ ∀ old, behind m es old → behind m' es' old.

Lemma keeps_refl m es : sound m es → keeps m es m.
Proof. intros. by exists es. Qed.

Lemma put_keeps (m : Mem) es h r : sound m es → keeps m es (put h r m).2.
Proof.
  intros Hs. destruct (put_sound m es h r Hs) as [[e ->]|(m' & -> & Had & Hs' & Hc & Hr)];
    [by apply keeps_refl|].
  exists (upsert h r es). split; [done|]. intros old [Hco Hb]. split; [by apply Hc|].
  intros e [->|He]%elem_of_upsert Hu; [|by apply Hb]. by apply Hr.
Qed.

Lemma sound_filter (m : Mem) es (p : PeerRecord → bool) :
  sound m es → sound (<[KEY := wire.encode (List.filter p es)]> m) (List.filter p es).
Proof.
  intros [Hl Hok Hu Hp]. split.
  - apply load_save.
  - rewrite list.Forall_forall in *. intros e [He _]%elem_of_filterb. auto.
  - clear -Hu. induction es as [|e es IH]; simpl in *; [done|].
    apply list.NoDup_cons in Hu as [He Hu]. destruct (p e); simpl; [|by apply IH].
    apply list.NoDup_cons. split; [|by apply IH]. intros Hin. apply He.
    apply list_elem_of_In, in_map_iff in Hin as (x & Hx & Hin). rewrite <-Hx.
    apply filter_In in Hin as [Hin _]. by apply list_elem_of_In, in_map.
  - rewrite list.Forall_forall in *. intros e [He _]%elem_of_filterb. unfold covered.
    rewrite load_pins_book. by apply Hp.
Qed.

Lemma remove_keeps (m : Mem) es h : sound m es → keeps m es (remove h m).2.
Proof.
  intros Hs. unfold remove. rewrite (bindM_run _ _ _ _ _ (readM_run _ _ _ (so_load _ _ Hs))).
  destruct (negb _); [by apply keeps_refl|]. cbv zeta. simpl.
  eexists. split; [by apply sound_filter|]. intros old [Hco Hb]. split.
  - unfold covered. by rewrite load_pins_book.
  - intros e [He _]%elem_of_filterb. by apply Hb.
Qed.

Lemma import_one_keeps (m : Mem) es report d :
  sound m es → keeps m es (import_one report d m).2.
Proof.
  intros Hs. unfold import_one. destruct (negb _); [by apply keeps_refl|].
  destruct (Handle.new (d_handle d)) as [h|]; [|by apply keeps_refl].
  pose proof (put_keeps m es h (d_record d) Hs) as Hk.
  by destruct (put h (d_record d) m) as [[[]|e] m'].
Qed.

Lemma keeps_trans (m : Mem) es m1 m2 :
  keeps m es m1 → (∀ es1, sound m1 es1 → keeps m1 es1 m2) → keeps m es m2.
Proof.
  intros (es1 & H1 & B1) H2. destruct (H2 es1 H1) as (es2 & H3 & B2). exists es2. split; auto.
Qed.

Lemma import_keeps (ds : list DiscoveryRecord) (m : Mem) es report :
  sound m es → keeps m es (import_loop report ds m).2.
Proof.
  revert m es report. induction ds as [|d ds IH]; intros m es report Hs; simpl; [by apply keeps_refl|].
  pose proof (import_one_keeps m es report d Hs) as Hk.
  destruct (import_one report d m) as [report' m1]. apply (keeps_trans m es m1); [done|].
  intros es1 Hs1. by apply IH.
Qed.

Inductive book_op : Type :=
  | BPut (h : Handle) (r : SignedRecord)
  | BRemove (h : Handle)
  | BImport (records : list DiscoveryRecord).

Definition run_book (o : book_op) (m : Mem) : Mem :=
  match o with
  | BPut h r => (put h r m).2
  | BRemove h => (remove h m).2
  | BImport ds => (import_records ds m).2
  end.

Lemma run_book_keeps (os : list book_op) (m : Mem) es :
  sound m es → keeps m es (fold_left (λ m o, run_book o m) os m).
Proof.
  revert m es. induction os as [|o os IH]; intros m es Hs; simpl; [by apply keeps_refl|].
  apply (keeps_trans m es (run_book o m)); [|apply IH].
  destruct o; simpl; [by apply put_keeps|by apply remove_keeps|by apply import_keeps].
Qed.

Lemma no_rollback_refl r : no_rollback r r.
Proof. split; [done|done|]. split; apply ahead_refl. Qed.

Lemma user_unique es e e' :
  NoDup (map user_id es) → e ∈ es → e' ∈ es → user_id e = user_id e' → e = e'.
Proof.
  induction es as [|x es IH]; simpl; [by intros _ []%elem_of_nil|].
  assert (∀ y, y ∈ es → user_id y ∈ map user_id es) as Hin
    by (intros y Hy; by apply list_elem_of_In, in_map, list_elem_of_In).
  intros [Hx Hnd]%list.NoDup_cons [->|He]%elem_of_cons [->|He']%elem_of_cons Heq; [done|..].
  - destruct Hx. rewrite Heq. by apply Hin.
  - destruct Hx. rewrite <-Heq. by apply Hin.
  - by apply IH.
Qed.

(** C23: the peer book only ever holds self-certifying records, one per user, and
    never rolls anybody back: after any sequence of insertions, imports of
    untrusted discovery records and removals, every entry is a fully verified
    record filed under its own user id and handle with a usable address; and
    the record held for a user is never behind the one held before - neither
    its identity claim nor, for the same device, its keys or its address -
    even when the entry was removed in between. *)
Theorem book_never_rolls_back (m : Mem) (es : list PeerRecord) (os : list book_op)
    (Hs : sound m es) :
  ∃ es', load (fold_left (λ m o, run_book o m) os m) = Ok es' ∧
    Forall entry_ok es' ∧ NoDup (map user_id es') ∧
    ∀ e e', e ∈ es → e' ∈ es' → user_id e = user_id e' → no_rollback (record e) (record e').
Proof.
  destruct (run_book_keeps os m es Hs) as (es' & Hs' & Hb). exists es'.
  split_and!; [apply Hs'..|]. intros e e' He He' Heq.
  destruct Hs as [_ Hok Hu Hp]. rewrite list.Forall_forall in Hok, Hp.
  assert (Forall entry_ok es') as Hok' by apply Hs'. rewrite list.Forall_forall in Hok'.
  destruct (Hb (record e)) as [_ Hr].
  - split; [by apply Hp|]. intros e1 He1 Heq1. assert (e1 = e) as ->; [|apply no_rollback_refl].
    apply (user_unique es); [done..|].
    by rewrite (eo_user _ (Hok _ He1)), (eo_user _ (Hok _ He)).
  - apply Hr; [done|]. by rewrite <-(eo_user _ (Hok _ He)), <-(eo_user _ (Hok' _ He')).
Qed.
End Book.

(** ** Lookups *)
Section Lookups.
Context {crypto : Crypto}
  `{!Postcard IdentityClaim, !Postcard (WalletPublicKey * DeviceRecord), !Postcard DeviceRecord,
    !Postcard ReachabilityRecord, !Postcard VersionPins, !Postcard (list PeerRecord)}.

Lemma filter_singleton {A} (p : A → bool) l x :
  NoDup l → (List.filter p l = [x] ↔ x ∈ l ∧ p x = true ∧ ∀ y, y ∈ l → p y = true → y = x).
Proof.
  intros Hnd. split.
  - intros H. assert (∀ y, y ∈ l ∧ p y = true ↔ y = x) as Hall.
    { intros y. rewrite <-elem_of_filterb, H. apply list_elem_of_singleton. }
    destruct (proj2 (Hall x) eq_refl). split_and!; [done..|]. intros y ? ?. by apply Hall.
  - intros (Hx & Hp & Hy). assert (∀ y, y ∈ List.filter p l → y = x) as Hone
      by (intros y [? ?]%elem_of_filterb; auto).
    assert (NoDup (List.filter p l)) as Hnf
      by (by apply NoDup_ListNoDup, List.NoDup_filter, NoDup_ListNoDup).
    assert (x ∈ List.filter p l) as Hin by (by apply elem_of_filterb).
    destruct (List.filter p l) as [|a [|c k]]; [by apply elem_of_nil in Hin|..].
    + f_equal. apply Hone. by left.
    + apply list.NoDup_cons in Hnf as [Ha _]. destruct Ha.
      rewrite (Hone a), <-(Hone c); [by left|right; by left|by left].
Qed.

Lemma NoDup_fst {A K} (f : A → K) (l : list A) : NoDup (map f l) → NoDup l.
Proof.
  induction l as [|x l IH]; simpl; [intros; apply NoDup_nil_2|].
  intros [Hx Hl]%list.NoDup_cons. apply list.NoDup_cons. split; [|auto].
  intros Hin. apply Hx. by apply list_elem_of_In, in_map, list_elem_of_In.
Qed.

(** a handle is a hint, a user id is an identity: looking a handle up answers
    a record only when exactly one entry of the book carries that handle - two
    users with one handle are never confused - while a user id finds its one
    entry; and storing a record makes it the answer for its user id, leaves
    every other user's answer unchanged, and is refused without any effect
    unless the record verifies, belongs to the handle and has an address. *)
Theorem lookups_exact (m : Mem) (es : list PeerRecord) (Hs : sound m es) :
  (∀ h r, get h m = Ok (Some r) ↔
     ∃ e, e ∈ es ∧ record e = r ∧ r_handle (sg_record r) = h ∧
          ∀ e', e' ∈ es → r_handle (sg_record (record e')) = h → e' = e) ∧
  (∀ u, get_by_user_id u m = Ok (record <$> List.find (is_user (UserId.as_str u)) es)) ∧
  (∀ h r, match put h r m with
          | (Ok _, m') => certified r ∧ r_handle (sg_record r) = h ∧
              ∀ u, get_by_user_id u m' =
                   if decide (u = r_user_id (sg_record r)) then Ok (Some r)
                   else get_by_user_id u m
          | (Err _, m') => m' = m
          end).
Proof.
  pose proof Hs as [Hl Hok Hu Hp]. rewrite list.Forall_forall in Hok. split_and!.
  - intros h r. unfold get. rewrite Hl. cbn [bind_result].
    set (p := λ entry, bool_decide (handle entry = Handle.as_str h) && _).
    assert (∀ e, e ∈ es → p e = bool_decide (r_handle (sg_record (record e)) = h)) as Hp'.
    { intros e He. unfold p. rewrite (eo_handle _ (Hok e He)).
      destruct (bool_decide_reflect (r_handle (sg_record (record e)) = h)) as [<-|Hn].
      - by rewrite bool_decide_true.
      - by rewrite andb_false_r. }
    assert ((∃ e, List.filter p es = [e] ∧ record e = r) ↔
      ∃ e, e ∈ es ∧ record e = r ∧ r_handle (sg_record r) = h ∧
          ∀ e', e' ∈ es → r_handle (sg_record (record e')) = h → e' = e) as <-.
    { apply exist_proper. intros e. rewrite (filter_singleton _ _ _ (NoDup_fst _ _ Hu)). split.
      - intros ((He & Hpe & Hone) & <-). rewrite Hp', bool_decide_eq_true in Hpe by done.
        split_and!; [done..|]. intros e' He' Hh. apply Hone; [done|].
        rewrite Hp' by done. by apply bool_decide_eq_true.
      - intros (He & <- & Hh & Hone). split_and!; [done| | |done].
        + rewrite Hp' by done. by apply bool_decide_eq_true.
        + intros e' He' Hpe. rewrite Hp', bool_decide_eq_true in Hpe by done. auto. }
    destruct (List.filter p es) as [|e [|e2 k]]; split; try (by intros (x & [=] & _)); try done.
    + intros [= <-]. by exists e.
    + by intros (x & [= ->] & <-).
  - intros u. unfold get_by_user_id. by rewrite Hl.
  - intros h r. destruct (put_sound m es h r Hs) as [[e ->]|(m' & -> & Had & Hs' & _)]; [done|].
    apply admissible_spec in Had as (Hc & Hh & _). split_and!; [done..|]. intros u.
    unfold get_by_user_id. rewrite (so_load _ _ Hs'), Hl. cbn [bind_result].
    change (λ entry, bool_decide (user_id entry = UserId.as_str u)) with (is_user (UserId.as_str u)).
    rewrite find_upsert_user. destruct (decide (u = r_user_id (sg_record r))) as [->|Hne].
    + by rewrite decide_True.
    + rewrite decide_False; [done|]. intros Heq. by apply Hne, UserId.uid_eq.
Qed.
End Lookups.

(** ** Imports account for every record *)
Section Imports.
Context {crypto : Crypto} {S : Type} `{!Storage S}
  `{!Postcard IdentityClaim, !Postcard (WalletPublicKey * DeviceRecord), !Postcard DeviceRecord,
    !Postcard ReachabilityRecord, !Postcard VersionPins, !Postcard (list PeerRecord)}.

Lemma import_one_count report d (s : S) :
  let r := (import_one report d s).1 in
  (imported r + length (skipped r) = imported report + length (skipped report) + 1)%nat.
Proof.
  unfold import_one. destruct (negb _); simpl; [rewrite length_app; simpl; lia|].
  destruct (Handle.new (d_handle d)) as [h|]; simpl; [|rewrite length_app; simpl; lia].
  destruct (put h (d_record d) s) as [[[]|e] s']; simpl; rewrite ?length_app; simpl; lia.
Qed.

(** an import never loses track: on any store every presented record is
    either counted as imported or listed as skipped, exactly once, and the
    records are taken one after the other in the order presented. *)
Theorem import_accounts (ds ds' : list DiscoveryRecord) (s : S) :
  let r := (import_records ds s).1 in
  (imported r + length (skipped r) = length ds)%nat ∧
  import_records (ds ++ ds') s =
    (let '(r, s) := import_records ds s in import_loop r ds' s).
Proof.
  assert (∀ ds report (s' : S), let r := (import_loop report ds s').1 in
    (imported r + length (skipped r) = imported report + length (skipped report) + length ds)%nat)
    as Hcount.
  { clear. intros ds. induction ds as [|d ds IH]; intros report s; simpl; [lia|].
    pose proof (import_one_count report d s) as H1. destruct (import_one report d s) as [r1 s1].
    rewrite IH. simpl in H1. lia. }
  split; [apply (Hcount ds (mkReport 0 []) s)|]. unfold import_records.
  generalize (mkReport 0 []). revert s. induction ds as [|d ds IH]; intros s report; simpl; [done|].
  destruct (import_one report d s) as [r1 s1]. apply IH.
Qed.
End Imports.

(** ** The text form *)
Lemma digit_value n :
  (n < 16)%N → to_digit16 (hex_digit n) = Some n ∧ hex_digit n ≠ byte_of 43 ∧
  in_range 128 191 (hex_digit n) = false.
Proof.
  intros Hn.
  assert (forallb (λ n, bool_decide (to_digit16 (hex_digit n) = Some n)
    && negb (bool_decide (hex_digit n = byte_of 43)) && negb (in_range 128 191 (hex_digit n)))
    (map N.of_nat (seq 0 16)) = true) as Hall by (vm_compute; reflexivity).
  rewrite forallb_forall in Hall. specialize (Hall n).
  rewrite !andb_true_iff, !negb_true_iff, bool_decide_eq_true, bool_decide_eq_false in Hall.
  destruct Hall as [[? ?] ?]; [|done]. apply in_map_iff. exists (N.to_nat n).
  split; [by rewrite N2Nat.id|]. apply in_seq. lia.
Qed.

Lemma boundary_hex l : boundary (hex l) = true.
Proof.
  destruct l as [|c l]; [done|]. simpl. destruct (hex_nibbles c) as (H & _ & _).
  by destruct (digit_value _ H) as (_ & _ & ->).
Qed.

Lemma hex_pairs_hex l : hex_pairs (hex l) = Some (Ok l).
Proof.
  induction l as [|c l IH]; [done|].
  destruct (hex_nibbles c) as (H1 & H2 & H3).
  destruct (digit_value _ H1) as (D1 & D2 & D3), (digit_value _ H2) as (D4 & _ & _).
  cbn [hex hex_pairs]. rewrite boundary_hex. cbn [boundary negb]. rewrite D3. cbn [negb orb].
  unfold from_str_radix16. rewrite bool_decide_false by done. rewrite D1, D4, IH. simpl.
  repeat f_equal. rewrite <-H3. unfold byte_of, byte_val.
  rewrite N.mod_small by apply byte_val_lt. apply ascii_N_embedding.
Qed.

Lemma from_hex_hex l : from_hex (hex l) = Some (Ok l).
Proof.
  unfold from_hex. rewrite length_hex, Nat.even_mul. simpl. apply hex_pairs_hex.
Qed.

(** A form whose first byte is no hex digit does not start a hex string. *)
Definition no_hex (form : str) : bool :=
  match form with c :: _ => negb (UserId.is_lower_hex c) | [] => false end.

Lemma strip_any_hex forms s :
  forallb no_hex forms = true → forallb UserId.is_lower_hex s = true → strip_any forms s = None.
Proof.
  intros Hf Hs. induction forms as [|f forms IH]; simpl in *; [done|].
  apply andb_true_iff in Hf as [Hf Hfs]. rewrite IH by done. unfold strip.
  destruct f as [|c f]; [done|]. rewrite bool_decide_false; [done|].
  destruct s as [|d s]; [done|]. simpl in *. intros [= -> _].
  apply andb_true_iff in Hs as [Hd _]. by rewrite Hd in Hf.
Qed.

Lemma trim_start_hex forms s :
  forallb no_hex forms = true → forallb UserId.is_lower_hex s = true → trim_start forms s = s.
Proof.
  intros Hf Hs. unfold trim_start. destruct (length s); simpl; [done|]. by rewrite strip_any_hex.
Qed.

Lemma trim_hex l : trim (hex l) = hex l.
Proof.
  unfold trim. rewrite (trim_start_hex white_space) by (done || apply UserId.hex_lower).
  rewrite trim_start_hex; [apply rev_involutive|done|].
  apply forallb_forall. intros c Hc%in_rev. revert c Hc. apply forallb_forall, UserId.hex_lower.
Qed.

(** ASCII text survives trimming and never splits a character. *)
Definition is_ascii (c : ascii) : bool := (byte_val c <? 128)%N.

Lemma trim_start_sub forms n s : ∃ k, trim_start_fuel n forms s = drop k s.
Proof.
  revert s. induction n as [|n IH]; intros s; simpl; [by exists 0%nat|].
  destruct (strip_any forms s) as [r|] eqn:Hr; [|by exists 0%nat].
  assert (∃ j, r = drop j s) as [j ->].
  { clear IH. revert Hr. induction forms as [|f fs IHf]; simpl; [done|]. unfold strip.
    case_bool_decide; [intros [= <-]; by eexists|exact IHf]. }
  destruct (IH (drop j s)) as [k Hk]. exists (j + k)%nat. by rewrite Hk, drop_drop.
Qed.

Lemma Forall_trim (P : ascii → Prop) s : Forall P s → Forall P (trim s).
Proof.
  intros H. unfold trim. destruct (trim_start_sub white_space (length s) s) as [k Hk].
  unfold trim_start at 2. rewrite Hk.
  destruct (trim_start_sub (map (@rev ascii) white_space) (length (rev (drop k s))) (rev (drop k s)))
    as [j Hj].
  unfold trim_start. rewrite Hj. by apply Forall_rev, Forall_drop, Forall_rev, Forall_drop.
Qed.

Lemma hex_pairs_ascii s : Forall (λ c, is_ascii c = true) s → hex_pairs s ≠ None.
Proof.
  assert (∀ c, is_ascii c = true → in_range 128 191 c = false) as Ha.
  { intros c Hc%N.ltb_lt. unfold in_range. by rewrite (proj2 (N.leb_gt _ _) Hc). }
  remember (length s) as n eqn:Hn. revert s Hn.
  induction (lt_wf n) as [n _ IH]. intros [|c [|d s]] Hn Hs; simpl; [done..|].
  apply list.Forall_cons in Hs as [Hc Hs]. apply list.Forall_cons in Hs as [Hd Hs].
  assert (boundary s = true) as ->.
  { destruct s as [|e s]; [done|]. apply list.Forall_cons in Hs as [He _]. simpl. by rewrite Ha. }
  rewrite Ha by done. simpl. destruct (from_str_radix16 c d); [|done].
  specialize (IH (length s) ltac:(simpl in Hn; lia) s eq_refl Hs). by destruct (hex_pairs s).
Qed.

Section Text.
Context {crypto : Crypto}
  `{!Postcard IdentityClaim, !Postcard (WalletPublicKey * DeviceRecord),
    !Postcard ReachabilityRecord, !Postcard SignedRecord}.

(** a record survives being passed around as text, and text is never
    trusted: what [encode] prints for a verifying record [decode] reads back
    exactly; whatever [decode] accepts is a self-certifying record; and any
    ASCII text is either accepted or refused with an error - whereas a text
    with a multi-byte character across a pair boundary aborts. *)
Theorem record_text_roundtrip (r : SignedRecord) (s : str) :
  (verify r = Ok tt → decode (encode r) = Some (Ok r)) ∧
  (decode s = Some (Ok r) → certified r) ∧
  (Forall (λ c, is_ascii c = true) s → decode s ≠ None) ∧
  decode (map byte_of [97; 195; 169; 98]%N) = None.
Proof.
  split_and!.
  - intros Hv. unfold decode, encode. rewrite trim_hex, from_hex_hex.
    cbv [mbind option_bind]. cbn [bind_result]. rewrite wire.decode_encode.
    cbn [map_err bind_result]. by rewrite Hv.
  - unfold decode. destruct (from_hex (trim s)) as [[b|e]|]; simpl; [|done..].
    destruct (wire.decode b) as [r'|]; simpl; [|done].
    destruct (verify r') as [[]|] eqn:Hv; simpl; [|done]. intros [= <-]. by apply verify_spec.
  - intros Hs%Forall_trim. unfold decode, from_hex. destruct (negb _); [done|].
    apply hex_pairs_ascii in Hs. by destruct (hex_pairs (trim s)).
  - reflexivity.
Qed.
End Text.

(** ** Witnesses *)
#[export] Instance PeerRecord_codec : Codec PeerRecord.
Proof.
  refine (codec_iso (λ e, (user_id e, handle e, record e)) (λ '(u, h, r), Some (mkPeerRecord u h r)) _).
  by intros [].
Defined.

Lemma book_never_rolls_back_witness :
  (put (toy_handle "alice") sample_record (∅ : Mem)).1 = Ok tt ∧
  ∃ es', load (fold_left (λ m o, run_book o m)
           [BPut (toy_handle "alice") sample_record; BRemove (toy_handle "alice")] (∅ : Mem)) = Ok es' ∧
         Forall entry_ok es'.
Proof.
  split; [vm_compute; reflexivity|].
  destruct (book_never_rolls_back ∅ []
    [BPut (toy_handle "alice") sample_record; BRemove (toy_handle "alice")] sound_empty)
    as (es & H1 & H2 & _).
  by exists es.
Defined.

Lemma lookups_exact_witness : get_by_user_id (r_user_id (sg_record sample_record)) (∅ : Mem) = Ok None.
Proof. apply (proj1 (proj2 (lookups_exact ∅ [] sound_empty))). Defined.

Lemma record_text_roundtrip_witness : decode (encode sample_record) = Some (Ok sample_record).
Proof.
  assert (verify sample_record = Ok tt) as Hv by (vm_compute; reflexivity).
  destruct (record_text_roundtrip sample_record []) as [H _]. exact (H Hv).
Defined.
