(* ===== verification/Flow.v ===== *)
(** * Flow: [mycellium-engine/src/flow/mod.rs]

    The messaging orchestration: trust checks, sending, receiving and group
    state transitions, composed from the stores and the sealing of the other
    files.  The host - record lookup, delivery policy, rendering - is what the
    source injects: a class, a function argument and a list of events. *)

From S2P Require Import Prelude Crypto Wire Identity UserId Records X3DH Group Message Delivery Storage LocalState Antirollback History Groups WireOps Peerbook.

(** [trait FlowNet], over the state of the host. *)
Class FlowNet (X : Type) : Type := {
  lookup : Handle → X → result error SignedRecord * X;
  lookup_user_id : UserId → X → result error SignedRecord * X
}.
#[global] Hint Mode FlowNet ! : typeclass_instances.

Inductive TrustError : Type := IdentityChanged | StaleRecord | Unverified | BadHandle.

Inductive ItemOutcome : Type := Accepted | Rejected | Retry.

Inductive FlowEvent : Type :=
  | EDirectMessage (user_id from id text : str) (from_me : bool)
  | EGroupMessage (group_id name sender id text : str)
  | EEdited (thread id text : str) (group : bool)
  | EDeleted (thread id : str) (group : bool)
  | EReceipt (user_id from message_id : str) (read : bool)
  | EGroupJoined (group_id name inviter : str)
  | EGroupLeft (group_id name member : str)
  | EAttachment (id name mime : str) (data : bytes)
  | EWarn (message : str).

Record SendOutcome : Type := mkSendOutcome {
  so_id : str;
  delivered : u32;
  direct : u32;
  outboxed : u32;
  failed : u32
}.

(** [SendOutcome { id, ..Default::default() }] and the tally of one delivery. *)
Definition new_outcome (id : str) : SendOutcome :=
  mkSendOutcome id (U32 0) (U32 0) (U32 0) (U32 0).

Definition tally (path : reachability.DeliveryPath) (out : SendOutcome) : SendOutcome :=
  match path with
  | reachability.Direct =>
      mkSendOutcome (so_id out) (wrapping_succ (delivered out)) (wrapping_succ (direct out))
        (outboxed out) (failed out)
  | reachability.Outbox =>
      mkSendOutcome (so_id out) (delivered out) (direct out) (wrapping_succ (outboxed out))
        (failed out)
  | reachability.Failed =>
      mkSendOutcome (so_id out) (delivered out) (direct out) (outboxed out)
        (wrapping_succ (failed out))
  end.

(** [struct Recv] *)
Record Recv : Type := mkRecv {
  rv_identity : Identity;
  rv_me : Handle;
  rv_sender_record : SignedRecord;
  rv_blocked : list str
}.

Abbreviation uid := peerbook.uid.

(** ** The state a handler runs in: [&mut store], [&mut platform], the sink and
    the host behind the network and the delivery closure. *)
Record World (S P X : Type) : Type := mkWorld {
  w_store : S;
  w_platform : P;
  w_events : list FlowEvent;
  w_host : X
}.
Arguments mkWorld {S P X} _ _ _ _.
Arguments w_store {S P X} _.
Arguments w_platform {S P X} _.
Arguments w_events {S P X} _.
Arguments w_host {S P X} _.

Definition F (S P X A : Type) : Type := World S P X → A * World S P X.

Section Monad.
Context {S P X : Type}.

Definition retF {A} (a : A) : F S P X A := λ w, (a, w).
Definition bindF {A B} (m : F S P X A) (k : A → F S P X B) : F S P X B :=
  λ w, let '(a, w) := m w in k a w.

(** A call on the store, on the platform, on the sink, on the host. *)
Definition on_store {A} (m : M S A) : F S P X (result error A) :=
  λ w, let '(r, s) := m (w_store w) in (r, mkWorld s (w_platform w) (w_events w) (w_host w)).
Definition read_store {A} (f : S → A) : F S P X A := λ w, (f (w_store w), w).
Definition on_platform {A} (m : P → A * P) : F S P X A :=
  λ w, let '(a, p) := m (w_platform w) in (a, mkWorld (w_store w) p (w_events w) (w_host w)).
Definition emit (e : FlowEvent) : F S P X unit :=
  λ w, (tt, mkWorld (w_store w) (w_platform w) (w_events w ++ [e]) (w_host w)).
Definition on_host {A} (m : X → A * X) : F S P X A :=
  λ w, let '(a, x) := m (w_host w) in (a, mkWorld (w_store w) (w_platform w) (w_events w) x).

(** [DeliveryHook] and [PairwiseDeliveryHook]: closures over the host, given the store. *)
Definition DeliveryHook : Type :=
  Handle → SignedRecord → Device → MailItem → option bytes → S → X →
  reachability.DeliveryPath * S * X.
Definition PairwiseDeliveryHook : Type :=
  Handle → SignedRecord → Device → MailItem → bytes → S → X → reachability.DeliveryPath * S * X.

(** [|..., plaintext| deliver(..., Some(plaintext))] *)
Definition pairwise (deliver : DeliveryHook) : PairwiseDeliveryHook :=
  λ h rec dev item plaintext, deliver h rec dev item (Some plaintext).

Definition read_platform_now `{!Platform P} : F S P X u64 :=
  λ w, (now_unix_secs (w_platform w), w).

Definition call (f : S → X → reachability.DeliveryPath * S * X) : F S P X reachability.DeliveryPath :=
  λ w, let '(path, s, x) := f (w_store w) (w_host w) in
       (path, mkWorld s (w_platform w) (w_events w) x).
End Monad.
Arguments DeliveryHook : clear implicits.
Arguments PairwiseDeliveryHook : clear implicits.

Notation "'let*' x ':=' m 'in' k" := (bindF m (λ x, k))
  (at level 10, x pattern, m at level 100, k at level 200) : myc_scope.
(** [match r { Ok(x) => k, Err(_) => return e }] *)
Notation "'let|' x ':=' r 'else' e 'in' k" := (match r with Ok x => k | Err _ => e end)
  (at level 10, x pattern, r at level 100, e at level 100, k at level 200) : myc_scope.

Section Flow.
Context {crypto : Crypto} {S P X : Type} `{!Storage S, !Platform P, !FlowNet X}
  `{!Postcard IdentityClaim, !Postcard (WalletPublicKey * DeviceRecord), !Postcard DeviceRecord,
    !Postcard ReachabilityRecord, !Postcard VersionPins, !Postcard WalletPublicKey,
    !Postcard contacts.Contact, !Postcard (list str), !Postcard (list (str * str)),
    !Postcard AppMessage, !Postcard attachments.StoredAttachment, !Postcard StoredGroup,
    !Postcard (list StoredMessage), !Postcard (list GroupStoredMessage), !Postcard SegMeta,
    !Postcard (list peerbook.PeerRecord), !Json GroupInvitePayload, !Json GroupLeavePayload}.

Abbreviation Fl A := (F S P X A).

(** ** Trust *)
Definition resolve_record (handle : str) : Fl (result TrustError (Handle * SignedRecord)) :=
  match Handle.new handle with
  | Err _ => retF (Err BadHandle)
  | Ok handle =>
      let* found := on_host (lookup handle) in
      match found with
      | Err _ => retF (Err BadHandle)
      | Ok record =>
          if is_err (verify record) then retF (Err Unverified)
          else
            let* trust := read_store (verified.level (uid record) (r_wallet (sg_record record))) in
            match trust with
            | verified.Changed => retF (Err IdentityChanged)
            | _ =>
                let* fresh := on_store (check_and_pin (uid record) record) in
                match fresh with
                | Ok true => retF (Ok (handle, record))
                | _ => retF (Err StaleRecord)
                end
            end
      end
  end.

Definition resolve_group_target (identity : Identity) (member : GroupMember)
    : Fl (option (Handle * SignedRecord)) :=
  match UserId.new (gmem_user_id member) with
  | Err _ => retF None
  | Ok user_id =>
      let* found := on_host (lookup_user_id user_id) in
      match found with
      | Err _ => retF None
      | Ok record =>
          if is_err (verify record) || negb (bool_decide (r_user_id (sg_record record) = user_id))
          then retF None
          else
            let* trust := read_store (verified.level (uid record) (r_wallet (sg_record record))) in
            if negb (bool_decide (r_wallet (sg_record record) = Identity.wallet_public identity))
               && match trust with
                  | verified.Changed | verified.Unverified => true
                  | _ => false
                  end
            then retF None
            else
              let* fresh := on_store (check_and_pin (uid record) record) in
              match fresh with
              | Ok true => retF (Some (r_handle (sg_record record), record))
              | _ => retF None
              end
      end
  end.

(** ** Sending *)
Definition record_own_copy (peer : str) (app : AppMessage) : Fl (result error unit) :=
  match body app with
  | Edit to text => on_store (History.edit peer to text true)
  | Message.Delete to => on_store (History.delete peer to true)
  | Receipt _ _ => retF (Ok tt)
  | _ =>
      let* r := on_store (History.append peer
        (mkStored (Message.id app) true (summary app) (timestamp app) (expires_at app))) in
      retF (let? _ := r in Ok tt)
  end.

Definition send_app (identity : Identity) (me : Handle) (sender_record : SignedRecord)
    (peer : Handle) (peer_record : SignedRecord) (app : AppMessage) (deliver : DeliveryHook S X)
    : Fl (result error SendOutcome) :=
  let encoded := AppMessage_encode app in
  let out := new_outcome (Message.id app) in
  let device := r_device (sg_record peer_record) in
  let* env := on_platform
    (λ p, seal_to_with_record p identity me sender_record device encoded) in
  match env with
  | Err _ => retF (Ok (tally reachability.Failed out))
  | Ok env =>
      let* path := call (deliver peer peer_record device (Direct env) (Some encoded)) in
      let out := tally path out in
      let* r := record_own_copy (uid peer_record) app in
      retF (let? _ := r in Ok out)
  end.

(** One target of [distribute_key_inner]; [Some] when its device now holds the key. *)
Definition share_with (identity : Identity) (me : Handle) (sender_record : SignedRecord)
    (distribution : SenderKeyDistribution) (plaintext : bytes) (known_shares : list GroupKeyShare)
    (deliver : PairwiseDeliveryHook S X) (target : GroupMember) : Fl (option GroupKeyShare) :=
  let* found := resolve_group_target identity target in
  match found with
  | None => retF None
  | Some (handle, record) =>
      let device := r_device (sg_record record) in
      let key := device_key (sd_record (signed device)) in
      if bool_decide (key = Identity.device_public identity) then retF None
      else
        let slot := device_slot key in
        if existsb (λ share, bool_decide (ks_user_id share = gmem_user_id target)
                             && bool_decide (ks_device_slot share = slot)
                             && bool_decide (ks_signing_public share = skd_signing_public distribution))
             known_shares
        then retF None
        else
          let* env := on_platform
            (λ p, seal_to_with_record p identity me sender_record device plaintext) in
          match env with
          | Err _ => retF None
          | Ok env =>
              let* path := call (deliver handle record device (GroupInvite env) plaintext) in
              retF (match path with
                    | reachability.Direct | reachability.Outbox =>
                        Some (mkKeyShare (gmem_user_id target) slot (skd_signing_public distribution))
                    | reachability.Failed => None
                    end)
          end
  end.

Fixpoint share_loop (share : GroupMember → Fl (option GroupKeyShare)) (targets : list GroupMember)
    : Fl (list GroupKeyShare) :=
  match targets with
  | [] => retF []
  | target :: rest =>
      let* one := share target in
      let* shared := share_loop share rest in
      retF (match one with Some s => s :: shared | None => shared end)
  end.

Definition distribute_key_inner (identity : Identity) (me : Handle) (sender_record : SignedRecord)
    (group_id name : str) (distribution : SenderKeyDistribution) (members targets : list GroupMember)
    (known_shares : list GroupKeyShare) (deliver : PairwiseDeliveryHook S X)
    : Fl (list GroupKeyShare) :=
  let payload := mkGroupInvite group_id name members (my_group_id identity) distribution in
  match to_vec payload with
  | None => retF []
  | Some plaintext =>
      share_loop (share_with identity me sender_record distribution plaintext known_shares deliver)
        targets
  end.

Definition distribute_key (identity : Identity) (me : Handle) (sender_record : SignedRecord)
    (group_id name : str) (distribution : SenderKeyDistribution) (members targets : list GroupMember)
    (deliver : PairwiseDeliveryHook S X) : Fl (list GroupKeyShare) :=
  distribute_key_inner identity me sender_record group_id name distribution members targets []
    deliver.

(** ** Groups, sending side *)
Definition with_state (g : StoredGroup) (state : GroupState) : StoredGroup :=
  mkStoredGroup (sg_id g) (sg_name g) (sg_members g) (sg_senders g) (sg_key_shares g) state.

Definition note_shares (g : StoredGroup) (shared : list GroupKeyShare) : StoredGroup :=
  fold_left note_key_share shared g.

(** The fan-out loop of [group_send]. *)
Fixpoint fan_out (identity : Identity) (deliver : DeliveryHook S X) (item : MailItem)
    (targets : list GroupMember) (out : SendOutcome) : Fl SendOutcome :=
  match targets with
  | [] => retF out
  | member :: rest =>
      let* found := resolve_group_target identity member in
      match found with
      | None => fan_out identity deliver item rest out
      | Some (handle, record) =>
          let device := r_device (sg_record record) in
          if bool_decide (device_key (sd_record (signed device)) = Identity.device_public identity)
          then fan_out identity deliver item rest out
          else
            let* path := call (deliver handle record device item None) in
            fan_out identity deliver item rest (tally path out)
      end
  end.

Definition apply_own_edit (group_id me : str) (app : AppMessage) : Fl (result error unit) :=
  match body app with
  | Edit to text => on_store (group_edit group_id to text me)
  | Message.Delete to => on_store (group_delete group_id to me)
  | _ => retF (Ok tt)
  end.

Definition is_change (b : Body) : bool :=
  match b with Edit _ _ | Message.Delete _ => true | _ => false end.

Definition record_group_copy (group_id me : str) (app : AppMessage) : Fl (result error unit) :=
  if is_change (body app) then retF (Ok tt)
  else
    let* r := on_store (group_append group_id
      (mkGroupStored (Message.id app) me (summary app) (timestamp app) (expires_at app))) in
    retF (let? _ := r in Ok tt).

(** The sharing of the current sender key with replacement devices. *)
Definition share_current_key (identity : Identity) (me : Handle) (sender_record : SignedRecord)
    (group : StoredGroup) (session : Group) (deliver : DeliveryHook S X)
    : Fl (result error unit * StoredGroup) :=
  let* shared := distribute_key_inner identity me sender_record (sg_id group) (sg_name group)
    (Group.distribution session) (sg_members group) (sg_members group) (sg_key_shares group)
    (pairwise deliver) in
  match shared with
  | [] => retF (Ok tt, group)
  | _ =>
      let group := note_shares group shared in
      let* r := on_store (save_group group) in retF (r, group)
  end.

(** [group_send]; the mutated [group] is returned beside the result. *)
Definition group_send (identity : Identity) (me : Handle) (sender_record : SignedRecord)
    (group : StoredGroup) (app : AppMessage) (deliver : DeliveryHook S X)
    : Fl (result error SendOutcome * StoredGroup) :=
  let out := new_outcome (Message.id app) in
  match Group.import (sg_state group) with
  | Err _ => retF (Err (Anyhow b#"stored group state is corrupt"), group)
  | Ok session =>
      let* (r, group) := share_current_key identity me sender_record group session deliver in
      match r with
      | Err e => retF (Err e, group)
      | Ok _ =>
          let* r := apply_own_edit (sg_id group) (Handle.as_str me) app in
          match r with
          | Err e => retF (Err e, group)
          | Ok _ =>
              let '(gm, session) :=
                Group.encrypt session (AppMessage_encode app) (group_ad (sg_id group)) in
              let group := with_state group (Group.export session) in
              let* r := on_store (save_group group) in
              match r with
              | Err e => retF (Err e, group)
              | Ok _ =>
                  let item := GroupText (sg_id group) gm in
                  let* out := fan_out identity deliver item (sg_members group) out in
                  let* r := record_group_copy (sg_id group) (Handle.as_str me) app in
                  retF (let? _ := r in Ok out, group)
              end
          end
      end
  end.

(** The loop of [group_leave]. *)
Fixpoint announce_leave (identity : Identity) (me : Handle) (sender_record : SignedRecord)
    (plaintext : bytes) (deliver : PairwiseDeliveryHook S X) (targets : list GroupMember) : Fl unit :=
  match targets with
  | [] => retF tt
  | member :: rest =>
      let continue_ := announce_leave identity me sender_record plaintext deliver rest in
      if bool_decide (gmem_user_id member = uid sender_record) then continue_
      else
        let* found := resolve_group_target identity member in
        match found with
        | None => continue_
        | Some (handle, record) =>
            let device := r_device (sg_record record) in
            if bool_decide (device_key (sd_record (signed device)) = Identity.device_public identity)
            then continue_
            else
              let* env := on_platform
                (λ p, seal_to_with_record p identity me sender_record device plaintext) in
              match env with
              | Err _ => continue_
              | Ok env =>
                  let* _ := call (deliver handle record device (GroupLeave env) plaintext) in
                  continue_
              end
        end
  end.

Definition group_leave (identity : Identity) (me : Handle) (sender_record : SignedRecord)
    (group : StoredGroup) (deliver : PairwiseDeliveryHook S X) : Fl unit :=
  match to_vec (mkGroupLeave (sg_id group)) with
  | None => retF tt
  | Some plaintext =>
      let* _ := announce_leave identity me sender_record plaintext deliver (sg_members group) in
      let* _ := on_store (remove_group (sg_id group)) in
      retF tt
  end.

(** [distribute_group_key]; the mutated [stored] is returned beside the result. *)
Definition distribute_group_key (r : Recv) (stored : StoredGroup) (group : Group)
    (targets : list GroupMember) (deliver : DeliveryHook S X)
    : Fl (result error unit * StoredGroup) :=
  let* shared := distribute_key (rv_identity r) (rv_me r) (rv_sender_record r) (sg_id stored)
    (sg_name stored) (Group.distribution group) (sg_members stored) targets (pairwise deliver) in
  let stored := note_shares stored shared in
  let* saved := on_store (save_group stored) in
  retF (saved, stored).

(** ** Receiving *)

(** The effect of a real direct message. *)
Definition store_direct (sender_user_id : str) (from : Handle) (app : AppMessage) : Fl ItemOutcome :=
  let* saved :=
    match body app with
    | File name mime data =>
        on_store (attachments.save
          (attachments.mkStoredAttachment (Message.id app) name mime data))
    | _ => retF (Ok tt)
    end in
  let| _ := saved else retF Retry in
  let* now := read_platform_now in
  let* inserted := on_store (History.append sender_user_id
    (mkStored (Message.id app) false (summary app) now (expires_at app))) in
  let| inserted := inserted else retF Retry in
  if negb inserted then retF Accepted
  else
    let* _ :=
      match body app with
      | File name mime data => emit (EAttachment (Message.id app) name mime data)
      | _ => retF tt
      end in
    let* _ := emit (EDirectMessage sender_user_id (Handle.as_str from) (Message.id app) (summary app) false) in
    retF Accepted.

Definition recv_direct (r : Recv) (env : Envelope) : Fl ItemOutcome :=
  let| (from, input) := open_envelope (rv_identity r) env else retF Retry in
  let sender_user_id := uid (sender_record env) in
  if blocklist.is_blocked (rv_blocked r) sender_user_id then retF Rejected
  else
    let* _ := on_store (names.note (Handle.as_str from) (r_name (sg_record (sender_record env)))) in
    let| app := AppMessage_decode input else retF Rejected in
    match body app with
    | Receipt message_id read =>
        let* _ := emit (EReceipt sender_user_id (Handle.as_str from) message_id read) in
        retF Accepted
    | Edit to text =>
        let* done := on_store (History.edit sender_user_id to text false) in
        let| _ := done else retF Retry in
        let* _ := emit (EEdited (Handle.as_str from) to text false) in
        retF Accepted
    | Message.Delete to =>
        let* done := on_store (History.delete sender_user_id to false) in
        let| _ := done else retF Retry in
        let* _ := emit (EDeleted (Handle.as_str from) to false) in
        retF Accepted
    | _ =>
        let* now := read_platform_now in
        if is_expired app now then retF Accepted
        else store_direct sender_user_id from app
    end.

(** The validation loop of [recv_group_invite]: the ids of the members, unless
    one is invalid or repeated. *)
Fixpoint check_members (seen : list str) (members : list GroupMember) : option (list str) :=
  match members with
  | [] => Some seen
  | m :: rest =>
      if is_err (UserId.new (gmem_user_id m)) || is_err (Handle.new (gmem_handle m))
         || contacts.contains seen (gmem_user_id m)
      then None
      else check_members (gmem_user_id m :: seen) rest
  end.

Definition has_member (members : list GroupMember) (user_id : str) : bool :=
  existsb (λ m, bool_decide (gmem_user_id m = user_id)) members.

(** The retirement of the keys of a user's previous devices. *)
Definition retire_senders (senders : list GroupSender) (user_id : str) (sender_id : bytes)
    (group : Group) : Group :=
  fold_left (λ group known,
    if bool_decide (snd_user_id known = user_id) && negb (bool_decide (snd_id known = sender_id))
    then Group.remove_member group (snd_id known) else group) senders group.

Definition keep_senders (senders : list GroupSender) (user_id : str) (sender_id : bytes)
    : list GroupSender :=
  List.filter (λ known, negb (bool_decide (snd_user_id known = user_id))
                        || bool_decide (snd_id known = sender_id)) senders.

(** The branch of [recv_group_invite] for a group this device is in. *)
Definition update_group (r : Recv) (env : Envelope) (from : Handle) (payload : GroupInvitePayload)
    (stored : StoredGroup) (deliver : DeliveryHook S X) : Fl ItemOutcome :=
  let sender_user_id := uid (sender_record env) in
  let sender_id := inv_sender_id payload in
  if negb (has_member (sg_members stored) sender_user_id) then retF Rejected
  else
    let| group := Group.import (sg_state stored) else retF Retry in
    let group := retire_senders (sg_senders stored) sender_user_id sender_id group in
    let stored := mkStoredGroup (sg_id stored) (sg_name stored) (sg_members stored)
      (keep_senders (sg_senders stored) sender_user_id sender_id) (sg_key_shares stored)
      (sg_state stored) in
    match Group.add_member group sender_id (inv_distribution payload) with
    | (Err _, _) => retF Retry
    | (Ok _, group) =>
        let stored := note_sender stored sender_id sender_user_id (Handle.as_str from) in
        let newcomers := List.filter
          (λ m, negb (has_member (sg_members stored) (gmem_user_id m))) (inv_members payload) in
        let stored := mkStoredGroup (sg_id stored) (sg_name stored) (sg_members stored ++ newcomers)
          (sg_senders stored) (sg_key_shares stored) (Group.export group) in
        let* saved := on_store (save_group stored) in
        let| _ := saved else retF Retry in
        match newcomers with
        | [] => retF Accepted
        | _ =>
            let* (done, _) := distribute_group_key r stored group newcomers deliver in
            let| _ := done else retF Retry in
            retF Accepted
        end
    end.

(** The branch for a group heard of for the first time. *)
Definition join_group (r : Recv) (env : Envelope) (from : Handle) (payload : GroupInvitePayload)
    (deliver : DeliveryHook S X) : Fl ItemOutcome :=
  let sender_user_id := uid (sender_record env) in
  let sender_id := inv_sender_id payload in
  let* group := on_platform (λ p, Group.new p (my_group_id (rv_identity r))) in
  match Group.add_member group sender_id (inv_distribution payload) with
  | (Err _, _) => retF Retry
  | (Ok _, group) =>
      let stored := mkStoredGroup (inv_group_id payload) (inv_name payload) (inv_members payload)
        [] [] (Group.export group) in
      let stored := note_sender stored sender_id sender_user_id (Handle.as_str from) in
      let stored := note_sender stored (my_group_id (rv_identity r)) (uid (rv_sender_record r))
        (Handle.as_str (rv_me r)) in
      let* saved := on_store (save_group stored) in
      let| _ := saved else retF Retry in
      let* _ := emit (EGroupJoined (sg_id stored) (sg_name stored) (Handle.as_str from)) in
      let* (done, _) := distribute_group_key r stored group (sg_members stored) deliver in
      let| _ := done else retF Retry in
      retF Accepted
  end.

Definition recv_group_invite (r : Recv) (env : Envelope) (deliver : DeliveryHook S X)
    : Fl ItemOutcome :=
  let| (from, input) := open_envelope (rv_identity r) env else retF Retry in
  if blocklist.is_blocked (rv_blocked r) (uid (sender_record env)) then retF Rejected
  else
    match from_slice input with
    | None => retF Retry
    | Some payload =>
        match check_members [] (inv_members payload) with
        | None => retF Rejected
        | Some member_ids =>
            if negb (bool_decide (inv_sender_id payload = arr_bytes
                 (device_key (sd_record (signed (r_device (sg_record (sender_record env))))))))
               || negb (contacts.contains member_ids (uid (sender_record env)))
               || negb (contacts.contains member_ids (uid (rv_sender_record r)))
            then retF Rejected
            else
              let* known := read_store (load_group (inv_group_id payload)) in
              match known with
              | Ok (Some stored) => update_group r env from payload stored deliver
              | Ok None => join_group r env from payload deliver
              | Err _ => retF Retry
              end
        end
    end.

(** The end of [recv_group_text] for a message that is stored. *)
Definition store_group_text (stored : StoredGroup) (group_id sender : str) (app : AppMessage)
    : Fl ItemOutcome :=
  let attachment :=
    match body app with
    | File name mime data => Some (attachments.mkStoredAttachment (Message.id app) name mime data)
    | _ => None
    end in
  let* saved := match attachment with
                | Some a => on_store (attachments.save a)
                | None => retF (Ok tt)
                end in
  let| _ := saved else retF Retry in
  let* now := read_platform_now in
  let* inserted := on_store (group_append group_id
    (mkGroupStored (Message.id app) sender (summary app) now (expires_at app))) in
  let| inserted := inserted else retF Retry in
  let* saved := on_store (save_group stored) in
  let| _ := saved else retF Retry in
  if negb inserted then retF Accepted
  else
    let* _ :=
      match attachment with
      | Some a => emit (EAttachment (attachments.id a) (attachments.name a) (attachments.mime a)
                          (attachments.data a))
      | None => retF tt
      end in
    let* _ := emit (EGroupMessage group_id (sg_name stored) sender (Message.id app) (summary app)) in
    retF Accepted.

(** The effect of a decrypted group message; [stored] holds the advanced ratchet. *)
Definition act_on_group_text (stored : StoredGroup) (group_id sender : str) (plaintext : bytes)
    : Fl ItemOutcome :=
  let| app := AppMessage_decode plaintext else retF Rejected in
  match body app with
  | Edit to text =>
      let* done := on_store (group_edit group_id to text sender) in
      let| _ := done else retF Retry in
      let* saved := on_store (save_group stored) in
      let| _ := saved else retF Retry in
      let* _ := emit (EEdited (sg_name stored) to text true) in
      retF Accepted
  | Message.Delete to =>
      let* done := on_store (group_delete group_id to sender) in
      let| _ := done else retF Retry in
      let* saved := on_store (save_group stored) in
      let| _ := saved else retF Retry in
      let* _ := emit (EDeleted (sg_name stored) to true) in
      retF Accepted
  | _ =>
      let* now := read_platform_now in
      if is_expired app now then
        let* saved := on_store (save_group stored) in
        let| _ := saved else retF Retry in
        retF Accepted
      else store_group_text stored group_id sender app
  end.

Definition recv_group_text (r : Recv) (group_id : str) (message : GroupMessage) : Fl ItemOutcome :=
  let* known := read_store (load_group group_id) in
  match known with
  | Ok (Some stored) =>
      match sender_of stored (gm_sender message) with
      | None => retF Retry
      | Some sender_identity =>
          if blocklist.is_blocked (rv_blocked r) (snd_user_id sender_identity) then retF Rejected
          else
            let| sender_user_id := UserId.new (snd_user_id sender_identity) else retF Rejected in
            let* found := read_store (peerbook.get_by_user_id sender_user_id) in
            match found with
            | Ok (Some sender_record) =>
                if is_err (verify sender_record)
                   || negb (bool_decide (r_user_id (sg_record sender_record) = sender_user_id))
                   || negb (bool_decide (arr_bytes (device_key (sd_record (signed
                        (r_device (sg_record sender_record))))) = gm_sender message))
                then retF Rejected
                else
                  let sender := Handle.as_str (r_handle (sg_record sender_record)) in
                  let| group := Group.import (sg_state stored) else retF Retry in
                  match Group.decrypt group message (group_ad group_id) with
                  | (Err _, _) => retF Retry
                  | (Ok plaintext, group) =>
                      act_on_group_text (with_state stored (Group.export group)) group_id sender
                        plaintext
                  end
            | _ => retF Retry
            end
      end
  | _ => retF Retry
  end.

(** The session and the group after a member's departure. *)
Definition drop_senders (senders : list GroupSender) (user_id : str) (group : Group) : Group :=
  fold_left (λ group known,
    if bool_decide (snd_user_id known = user_id)
    then Group.remove_member group (snd_id known) else group) senders group.

Definition drop_member (stored : StoredGroup) (user_id : str) (state : GroupState) : StoredGroup :=
  mkStoredGroup (sg_id stored) (sg_name stored)
    (List.filter (λ known, negb (bool_decide (gmem_user_id known = user_id))) (sg_members stored))
    (List.filter (λ known, negb (bool_decide (snd_user_id known = user_id))) (sg_senders stored))
    (sg_key_shares stored) state.

Definition recv_group_leave (r : Recv) (env : Envelope) (deliver : DeliveryHook S X)
    : Fl ItemOutcome :=
  let| (from, input) := open_envelope (rv_identity r) env else retF Rejected in
  let member_user_id := uid (sender_record env) in
  if blocklist.is_blocked (rv_blocked r) member_user_id then retF Rejected
  else
    match from_slice input with
    | None => retF Rejected
    | Some payload =>
        if bool_decide (member_user_id = uid (rv_sender_record r)) then retF Rejected
        else
          let* known := read_store (load_group (leave_group_id payload)) in
          match known with
          | Err _ => retF Retry
          | Ok None => retF Accepted
          | Ok (Some stored) =>
              if negb (has_member (sg_members stored) member_user_id) then retF Rejected
              else
                let| session := Group.import (sg_state stored) else retF Retry in
                let session := drop_senders (sg_senders stored) member_user_id session in
                let* session := on_platform (Group.rotate session) in
                let stored := drop_member stored member_user_id (Group.export session) in
                let* saved := on_store (save_group stored) in
                let| _ := saved else retF Retry in
                let* (done, stored) :=
                  distribute_group_key r stored session (sg_members stored) deliver in
                let| _ := done else retF Retry in
                let* _ := emit (EGroupLeft (sg_id stored) (sg_name stored) (Handle.as_str from)) in
                retF Accepted
          end
    end.

Definition process_item (identity : Identity) (me : Handle) (sender_record : SignedRecord)
    (blocked : list str) (item : MailItem) (deliver : DeliveryHook S X) : Fl ItemOutcome :=
  let r := mkRecv identity me sender_record blocked in
  match item with
  | Direct env => recv_direct r env
  | GroupInvite env => recv_group_invite r env deliver
  | GroupText group_id message => recv_group_text r group_id message
  | GroupLeave env => recv_group_leave r env deliver
  end.
End Flow.
