(* ===== verification/FlowProps.v ===== *)
(** * FlowProps: what the messaging flow guarantees

    Refused items leave no trace, an accepted message reaches exactly the
    conversation of its authenticated sender, and a ratchet is only advanced
    with the effect of the message it decrypted. *)

From S2P Require Import Prelude Crypto Wire Identity UserId Records X3DH Group Message Delivery Storage LocalState LocalProps Antirollback History HistoryProps Groups Codecs WireOps Peerbook Flow Instances.

(** ** Reasoning about handlers *)
Section Handlers.
Context {S P X : Type}.

(** A step that renders nothing, a step that does nothing at all. *)
Definition quiet {A} (m : F S P X A) : Prop := ∀ w, w_events (m w).2 = w_events w.
Definition pure_step {A} (m : F S P X A) : Prop := ∀ w, (m w).2 = w.

(** Handlers that render only what they accept, that always accept, that never
    reject, and that reject without a trace. *)
Definition speaks_accepted (m : F S P X ItemOutcome) : Prop :=
  ∀ w, (m w).1 = Accepted ∨ w_events (m w).2 = w_events w.
Definition accepts_always (m : F S P X ItemOutcome) : Prop := ∀ w, (m w).1 = Accepted.
Definition never_rejects (m : F S P X ItemOutcome) : Prop := ∀ w, (m w).1 ≠ Rejected.
Definition rejects_clean (m : F S P X ItemOutcome) : Prop := ∀ w, (m w).1 = Rejected → (m w).2 = w.

Lemma quiet_ret {A} (a : A) : quiet (retF a).
Proof. done. Qed.
Lemma quiet_bind {A B} (m : F S P X A) (k : A → F S P X B) :
  quiet m → (∀ a, quiet (k a)) → quiet (bindF m k).
Proof.
  intros Hm Hk w. unfold bindF. specialize (Hm w). destruct (m w) as [a w1]. simpl in *.
  by rewrite Hk.
Qed.
Lemma quiet_store {A} (m : M S A) : quiet (on_store m).
Proof. intros w. unfold on_store. by destruct (m (w_store w)). Qed.
Lemma quiet_read {A} (f : S → A) : quiet (read_store f).
Proof. done. Qed.
Lemma quiet_platform {A} (m : P → A * P) : quiet (on_platform m).
Proof. intros w. unfold on_platform. by destruct (m (w_platform w)). Qed.
Lemma quiet_host {A} (m : X → A * X) : quiet (on_host m).
Proof. intros w. unfold on_host. by destruct (m (w_host w)). Qed.
Lemma quiet_call f : quiet (call f).
Proof. intros w. unfold call. by destruct (f (w_store w) (w_host w)) as [[? ?] ?]. Qed.
Lemma quiet_now `{!Platform P} : quiet read_platform_now.
Proof. done. Qed.

Lemma speaks_ret o : speaks_accepted (retF o).
Proof. by right. Qed.
Lemma speaks_bind {A} (m : F S P X A) k :
  quiet m → (∀ a, speaks_accepted (k a)) → speaks_accepted (bindF m k).
Proof.
  intros Hm Hk w. unfold bindF. specialize (Hm w). destruct (m w) as [a w1]. simpl in *.
  rewrite <-Hm. apply Hk.
Qed.
Lemma speaks_always m : accepts_always m → speaks_accepted m.
Proof. intros H w. left. apply H. Qed.

Lemma always_ret : accepts_always (retF Accepted).
Proof. done. Qed.
Lemma always_bind {A} (m : F S P X A) k : (∀ a, accepts_always (k a)) → accepts_always (bindF m k).
Proof. intros Hk w. unfold bindF. destruct (m w) as [a w1]. apply Hk. Qed.

Lemma never_ret o : o ≠ Rejected → never_rejects (retF o).
Proof. by intros H w. Qed.
Lemma never_bind {A} (m : F S P X A) k : (∀ a, never_rejects (k a)) → never_rejects (bindF m k).
Proof. intros Hk w. unfold bindF. destruct (m w) as [a w1]. apply Hk. Qed.

Lemma clean_ret o : rejects_clean (retF o).
Proof. done. Qed.
Lemma clean_never m : never_rejects m → rejects_clean m.
Proof. intros H w Hr. by destruct (H w). Qed.
Lemma clean_bind {A} (m : F S P X A) k :
  pure_step m → (∀ a, rejects_clean (k a)) → rejects_clean (bindF m k).
Proof.
  intros Hm Hk w. unfold bindF. specialize (Hm w). destruct (m w) as [a w1]. simpl in Hm. subst w1.
  apply Hk.
Qed.
End Handlers.

Lemma pure_read {S P X A} (f : S → A) : pure_step (P := P) (X := X) (read_store f).
Proof. done. Qed.
Lemma pure_now {S P X} `{!Platform P} : pure_step (S := S) (X := X) (P := P) read_platform_now.
Proof. done. Qed.

Create HintDb flow.
#[export] Hint Resolve quiet_ret quiet_store quiet_read quiet_platform quiet_host quiet_call quiet_now
  always_ret speaks_ret clean_ret pure_read pure_now : flow.
#[export] Hint Extern 1 (never_rejects (retF _)) => (apply never_ret; discriminate) : flow.

(** Walks through a handler: branches, then sequenced steps. *)
Ltac always_step :=
  lazymatch goal with
  | |- ∀ _, _ => intro
  | |- accepts_always (match ?x with _ => _ end) => destruct x
  | |- accepts_always (bindF _ _) => apply always_bind
  | _ => exact always_ret
  end.
Ltac never_step :=
  lazymatch goal with
  | |- ∀ _, _ => intro
  | |- never_rejects (match ?x with _ => _ end) => destruct x
  | |- never_rejects (bindF _ _) => apply never_bind
  | _ => apply never_ret; discriminate
  end.
Ltac flow_step :=
  lazymatch goal with
  | |- ∀ _, _ => intro
  | |- quiet (match ?x with _ => _ end) => destruct x
  | |- speaks_accepted (match ?x with _ => _ end) => destruct x
  | |- rejects_clean (match ?x with _ => _ end) => destruct x
  | |- quiet (bindF _ _) => apply quiet_bind
  | |- speaks_accepted (bindF _ _) =>
      first [apply speaks_always; solve [repeat always_step] | apply speaks_bind]
  | |- rejects_clean (bindF _ _) =>
      first [apply clean_bind; [solve [eauto with flow]|]
            |apply clean_never; solve [repeat never_step]]
  | _ => solve [eauto with flow]
  end.
Ltac solve_flow := repeat flow_step.

Section Events.
Context {crypto : Crypto} {S P X : Type} `{!Storage S, !Platform P, !FlowNet X}
  `{!Postcard IdentityClaim, !Postcard (WalletPublicKey * DeviceRecord), !Postcard DeviceRecord,
    !Postcard ReachabilityRecord, !Postcard VersionPins, !Postcard WalletPublicKey,
    !Postcard contacts.Contact, !Postcard (list str), !Postcard (list (str * str)),
    !Postcard AppMessage, !Postcard attachments.StoredAttachment, !Postcard StoredGroup,
    !Postcard (list StoredMessage), !Postcard (list GroupStoredMessage), !Postcard SegMeta,
    !Postcard (list peerbook.PeerRecord), !Json GroupInvitePayload, !Json GroupLeavePayload}.

Lemma quiet_resolve_group identity m : quiet (S := S) (P := P) (X := X) (resolve_group_target identity m).
Proof. unfold resolve_group_target. solve_flow. Qed.
Hint Resolve quiet_resolve_group : flow.

Lemma quiet_share_loop (share : GroupMember → F S P X (option GroupKeyShare)) targets :
  (∀ t, quiet (share t)) → quiet (share_loop share targets).
Proof. intros H. induction targets as [|t ts IH]; simpl; solve_flow. Qed.

Lemma quiet_distribute r stored group targets (deliver : DeliveryHook S X) :
  quiet (P := P) (distribute_group_key r stored group targets deliver).
Proof.
  unfold distribute_group_key, distribute_key, distribute_key_inner. cbv zeta.
  apply quiet_bind; [|solve_flow]. destruct (to_vec _) as [plaintext|]; [|apply quiet_ret].
  apply quiet_share_loop. intros t. unfold share_with. cbv zeta. solve_flow.
Qed.
Hint Resolve quiet_distribute : flow.

Lemma speaks_store_direct u from app :
  speaks_accepted (S := S) (P := P) (X := X) (store_direct u from app).
Proof. unfold store_direct. solve_flow. Qed.
Hint Resolve speaks_store_direct : flow.

Lemma speaks_recv_direct r env : speaks_accepted (S := S) (P := P) (X := X) (recv_direct r env).
Proof. unfold recv_direct. cbv zeta. solve_flow. Qed.

Lemma speaks_group_text r g m : speaks_accepted (S := S) (P := P) (X := X) (recv_group_text r g m).
Proof.
  unfold recv_group_text, act_on_group_text, store_group_text. cbv zeta. solve_flow.
Qed.

Lemma speaks_group_leave r env (deliver : DeliveryHook S X) :
  speaks_accepted (P := P) (recv_group_leave r env deliver).
Proof. unfold recv_group_leave. cbv zeta. solve_flow. Qed.

Lemma clean_group_text r g m : rejects_clean (S := S) (P := P) (X := X) (recv_group_text r g m).
Proof.
  unfold recv_group_text, act_on_group_text, store_group_text. cbv zeta. solve_flow.
Qed.

Lemma clean_group_leave r env (deliver : DeliveryHook S X) :
  rejects_clean (P := P) (recv_group_leave r env deliver).
Proof. unfold recv_group_leave. cbv zeta. solve_flow. Qed.

Lemma clean_group_invite r env (deliver : DeliveryHook S X) :
  rejects_clean (P := P) (recv_group_invite r env deliver).
Proof.
  unfold recv_group_invite, update_group, join_group. cbv zeta. solve_flow.
Qed.

Definition envelope_of (item : MailItem) : option Envelope :=
  match item with
  | Direct env | GroupInvite env | GroupLeave env => Some env
  | GroupText _ _ => None
  end.

(** what is not accepted leaves no trace, on any store and whatever the host
    does: only accepted items are rendered (an invite apart, whose joining is
    shown once the group is saved); a rejected group item changes nothing at
    all; and an envelope that does not open, or comes from a blocked user, is
    never accepted and changes nothing - no name learned, no ratchet moved, no
    delivery triggered. *)
Theorem unwanted_items_leave_no_trace (identity : Identity) (me : Handle)
    (own_record : SignedRecord) (blocked : list str) (item : MailItem) (deliver : DeliveryHook S X)
    (w : World S P X) :
  let '(o, w') := process_item identity me own_record blocked item deliver w in
  (o ≠ Accepted → (∀ env, item ≠ GroupInvite env) → w_events w' = w_events w) ∧
  (o = Rejected → (∀ env, item ≠ Direct env) → w' = w) ∧
  (∀ env, envelope_of item = Some env →
     is_err (open_envelope identity env) = true ∨
     blocklist.is_blocked blocked (uid (sender_record env)) = true →
     o ≠ Accepted ∧ w' = w).
Proof.
  set (r := mkRecv identity me own_record blocked).
  destruct (process_item _ _ _ _ _ _ w) as [o w'] eqn:E. split_and!.
  - intros Ho Hi. destruct item as [env|env|g m|env]; unfold process_item in E; cbv zeta iota beta in E; fold r in E.
    + destruct (speaks_recv_direct r env w); rewrite E in *; done.
    + by destruct (Hi env).
    + destruct (speaks_group_text r g m w); rewrite E in *; done.
    + destruct (speaks_group_leave r env deliver w); rewrite E in *; done.
  - intros -> Hi. destruct item as [env|env|g m|env]; unfold process_item in E; cbv zeta iota beta in E; fold r in E.
    + by destruct (Hi env).
    + pose proof (clean_group_invite r env deliver w) as H. rewrite E in H. by apply H.
    + pose proof (clean_group_text r g m w) as H. rewrite E in H.
      by apply H.
    + pose proof (clean_group_leave r env deliver w) as H. rewrite E in H. by apply H.
  - intros env He Hbad. destruct item as [env'|env'|g m|env']; try discriminate He; unfold process_item in E; cbv zeta iota beta in E;
      injection He as ->;
      unfold recv_direct, recv_group_invite, recv_group_leave in E; cbn [rv_identity rv_blocked] in E;
      (destruct (open_envelope identity env) as [[from input]|e]; [|by injection E as <- <-]);
      (destruct Hbad as [[=]|Hb]; rewrite Hb in E; by injection E as <- <-).
Qed.
End Events.

(** ** Isolation *)
Section Isolation.
Context {P X : Type}.

(** Whatever its outcome, a handler leaves every key outside [K] alone. *)
Definition modifiesF (K : bytes → Prop) {A} (m : F Mem P X A) : Prop :=
  ∀ w k, ¬ K k → w_store (m w).2 !! k = w_store w !! k.

Lemma modifiesF_ret K {A} (a : A) : modifiesF K (retF a).
Proof. done. Qed.
Lemma modifiesF_bind K {A B} (m : F Mem P X A) (k : A → F Mem P X B) :
  modifiesF K m → (∀ a, modifiesF K (k a)) → modifiesF K (bindF m k).
Proof.
  intros Hm Hk w key HK. unfold bindF. specialize (Hm w key HK). destruct (m w) as [a w1].
  simpl in *. by rewrite Hk.
Qed.
Lemma modifiesF_store K {A} (m : M Mem A) : modifies K m → modifiesF K (on_store m).
Proof.
  intros Hm w k HK. unfold on_store. specialize (Hm (w_store w) k HK). by destruct (m (w_store w)).
Qed.
Lemma modifiesF_read K {A} (f : Mem → A) : modifiesF K (read_store f).
Proof. done. Qed.
Lemma modifiesF_emit K e : modifiesF K (emit e).
Proof. done. Qed.
Lemma modifiesF_now K `{!Platform P} : modifiesF K read_platform_now.
Proof. done. Qed.
End Isolation.
#[export] Hint Resolve modifiesF_ret modifiesF_store modifiesF_read modifiesF_emit modifiesF_now
  : modifies.

Ltac modifies_step :=
  lazymatch goal with
  | |- ∀ _, _ => intro
  | |- modifiesF _ (match ?x with _ => _ end) => destruct x
  | |- modifies _ (match ?x with _ => _ end) => destruct x
  | |- modifiesF _ (bindF _ _) => apply modifiesF_bind
  | |- modifies _ (bindM _ _) => apply modifies_bind
  | _ => solve [eauto with modifies]
  end.
Ltac solve_modifies := repeat modifies_step.

Section Footprint.
Context {crypto : Crypto} {P X : Type} `{!Platform P, !FlowNet X}
  `{!Postcard IdentityClaim, !Postcard (WalletPublicKey * DeviceRecord), !Postcard DeviceRecord,
    !Postcard ReachabilityRecord, !Postcard VersionPins, !Postcard WalletPublicKey,
    !Postcard contacts.Contact, !Postcard (list str), !Postcard (list (str * str)),
    !Postcard AppMessage, !Postcard attachments.StoredAttachment, !Postcard StoredGroup,
    !Postcard (list StoredMessage), !Postcard (list GroupStoredMessage), !Postcard SegMeta,
    !Postcard (list peerbook.PeerRecord), !Json GroupInvitePayload, !Json GroupLeavePayload}.

(** The keys a direct item of a user may touch. *)
Definition direct_footprint (user_id : str) (k : bytes) : Prop :=
  direct_key user_id k ∨ k = names.KEY ∨ ∃ id, k = attachments.key id.

Lemma names_note_modifies id name : modifies (λ k, k = names.KEY) (names.note id name).
Proof.
  unfold names.note. destruct (bool_decide _); [apply modifies_ret|].
  apply modifies_bind; [apply modifies_read|]. intros l. destruct (List.find _ l) as [e|].
  - destruct (bool_decide _); [apply modifies_ret|]. cbv zeta. solve_modifies.
  - cbv zeta. solve_modifies.
Qed.

Lemma attachment_modifies a : modifies (λ k, ∃ id, k = attachments.key id) (attachments.save a).
Proof. apply modifies_put. by exists (attachments.id a). Qed.

Lemma recv_direct_modifies r env :
  modifiesF (P := P) (X := X) (direct_footprint (uid (sender_record env))) (recv_direct r env).
Proof.
  set (u := uid (sender_record env)).
  assert (∀ id name, modifies (direct_footprint u) (names.note id name)) as Hn.
  { intros id name. apply (modifies_weaken (λ k, k = names.KEY)); [|apply names_note_modifies].
    intros k ->. right. by left. }
  assert (∀ a, modifies (direct_footprint u) (attachments.save a)) as Ha.
  { intros a. eapply modifies_weaken; [|apply attachment_modifies]. intros k H. right. by right. }
  assert (∀ k, direct_key u k → direct_footprint u k) as Hd by (by left).
  assert (∀ m, modifies (direct_footprint u) (History.append u m)) as Happ
    by (intros m; eapply modifies_weaken; [exact Hd|apply append_modifies]).
  assert (∀ i t b, modifies (direct_footprint u) (History.edit u i t b)) as Hed
    by (intros; eapply modifies_weaken; [exact Hd|apply edit_modifies]).
  assert (∀ i b, modifies (direct_footprint u) (History.delete u i b)) as Hde
    by (intros; eapply modifies_weaken; [exact Hd|apply delete_modifies]).
  unfold recv_direct, store_direct. fold u. cbv zeta. solve_modifies.
Qed.

(** The first byte tells a direct item's keys from those of the other stores. *)
Definition direct_head (k : bytes) : bool :=
  match k with
  | c :: _ => bool_decide (c = "h"%char) || bool_decide (c = "n"%char) || bool_decide (c = "a"%char)
  | [] => false
  end.

Lemma direct_footprint_head u k : direct_footprint u k → direct_head k = true.
Proof. by intros [[[[i ->]| ->]| ->]|[->|[id ->]]]. Qed.

Lemma direct_threads u v (i : u32) :
  v ≠ u → ¬ direct_footprint u (seg_key HIST v i) ∧ ¬ direct_footprint u (meta_key HIST v).
Proof.
  intros Hne. split; intros [[[[j Hk]|Hk]|Hk]|[Hk|[id Hk]]]; try discriminate Hk.
  - by apply seg_key_inj in Hk as [? _].
  - by apply seg_key_not_meta in Hk.
  - symmetry in Hk. by apply seg_key_not_meta in Hk.
  - by apply meta_key_inj in Hk.
Qed.

Lemma group_threads u g (i : u32) :
  ¬ direct_footprint u (seg_key GHIST g i) ∧ ¬ direct_footprint u (meta_key GHIST g).
Proof. split; intros H%direct_footprint_head; discriminate H. Qed.

(** a peer reaches its own conversation only: whatever a direct item of an
    authenticated user contains, and whether or not it is accepted, processing
    it leaves every other conversation, every group and its ratchets, the
    contacts, the block list, the verification marks, the version pins, the
    peer book, the accepted deliveries and the outbox exactly as they were;
    only the user's own transcript, the conversation index, the learned names
    and the attachments can change. *)
Theorem direct_item_isolated (identity : Identity) (me : Handle) (own_record : SignedRecord)
    (blocked : list str) (env : Envelope) (deliver : DeliveryHook Mem X) (w : World Mem P X) :
  let u := uid (sender_record env) in
  let m := w_store w in
  let m' := w_store (process_item identity me own_record blocked (Direct env) deliver w).2 in
  (∀ v, v ≠ u → History.load v m' = History.load v m) ∧
  (∀ g, group_load g m' = group_load g m ∧ load_group g m' = load_group g m) ∧
  (∀ n, contacts.load n m' = contacts.load n m) ∧ blocklist.load m' = blocklist.load m ∧
  (∀ v wallet, verified.get v m' = verified.get v m ∧
     load_pins v wallet m' = load_pins v wallet m) ∧
  peerbook.load m' = peerbook.load m ∧
  (∀ k, direct_head k = false → m' !! k = m !! k).
Proof.
  intros u m m'.
  assert (∀ k, ¬ direct_footprint u k → m' !! k = m !! k) as Hk
    by (apply (recv_direct_modifies (mkRecv identity me own_record blocked) env w)).
  assert (∀ k, direct_head k = false → m' !! k = m !! k) as Hh.
  { intros k Hd. apply Hk. intros H%direct_footprint_head. by rewrite Hd in H. }
  split_and!; [..|exact Hh].
  - intros v Hv. apply load_segments_other; [intros i; apply Hk, (direct_threads u v i Hv)|].
    apply Hk, (direct_threads u v (U32 0) Hv).
  - intros g. split.
    + apply load_segments_other; [intros i; apply Hk, (group_threads u g i)|].
      apply Hk, (group_threads u g (U32 0)).
    + unfold load_group. simpl. by rewrite Hh.
  - intros n. unfold contacts.load. simpl. by rewrite Hh.
  - unfold blocklist.load. simpl. by rewrite Hh.
  - intros v wallet. split; [unfold verified.get|unfold load_pins]; simpl; by rewrite Hh.
  - unfold peerbook.load. simpl. by rewrite Hh.
Qed.

(** ** Group messages commit as a whole *)
Definition group_state_key (k : bytes) : Prop := k = GROUPS_INDEX_KEY ∨ ∃ id, k = group_key id.

Definition commits (g : str) (target : StoredGroup) (m : F Mem P X ItemOutcome) : Prop :=
  ∀ w, ((m w).1 = Accepted → load_group g (w_store (m w).2) = Ok (Some target)) ∧
       ((m w).1 ≠ Accepted → ∀ id, load_group id (w_store (m w).2) = load_group id (w_store w)).

Lemma commits_ret g target o : o ≠ Accepted → commits g target (retF o).
Proof. done. Qed.

Lemma commits_bind {A} g target (m : F Mem P X A) k :
  (∀ w id, w_store (m w).2 !! group_key id = w_store w !! group_key id) →
  (∀ a, commits g target (k a)) → commits g target (bindF m k).
Proof.
  intros Hm Hk w. unfold bindF. specialize (Hm w). destruct (m w) as [a w1]. simpl in Hm.
  destruct (Hk a w1) as [H1 H2]. split; [done|]. intros Ho id. rewrite H2 by done.
  unfold load_group. simpl. by rewrite Hm.
Qed.

(** The save that commits, followed by rendering only. *)
Lemma commits_save g target (k : F Mem P X ItemOutcome) :
  sg_id target = g → (∀ w, (k w).1 = Accepted ∧ w_store (k w).2 = w_store w) →
  commits g target (let* saved := on_store (save_group target) in
                    let| _ := saved else retF Retry in k).
Proof.
  intros <- Hk w. unfold bindF, on_store.
  destruct (save_group target (w_store w)) as [[u|e] m'] eqn:E; cbn [w_store].
  - destruct (Hk (mkWorld m' (w_platform w) (w_events w) (w_host w))) as [H1 H2].
    split; [|by rewrite H1]. intros _. rewrite H2. cbn [w_store].
    unfold save_group, bindM, readM in E. destruct (list_groups (w_store w)) as [ids|]; [|done].
    destruct (negb (contacts.contains ids (sg_id target))); simpl in E; injection E as <- <-.
    + by rewrite load_group_index, load_group_put, decide_True.
    + by rewrite load_group_put, decide_True.
  - split; [done|]. intros _ id. simpl. unfold save_group, bindM, readM in E.
    destruct (list_groups (w_store w)) as [ids|]; simpl in E; [done|by injection E as <- <-].
Qed.

Lemma commits_frame {A} g target K (m : M Mem A) k :
  modifies K m → (∀ id, ¬ K (group_key id)) →
  (∀ a, commits g target (k a)) → commits g target (bindF (on_store m) k).
Proof.
  intros Hm HK. apply commits_bind. intros w id. unfold on_store.
  specialize (Hm (w_store w) (group_key id) (HK id)). by destruct (m (w_store w)).
Qed.

Lemma thread_not_group g id : ¬ thread_key GHIST g (group_key id).
Proof. intros [[i H]|H]; discriminate H. Qed.
Lemma attachment_not_group id : ¬ (∃ a, group_key id = attachments.key a).
Proof. intros [a H]. discriminate H. Qed.

Lemma store_group_text_commits g target sender app :
  sg_id target = g → commits g target (store_group_text target g sender app).
Proof.
  intros Hg. unfold store_group_text. cbv zeta.
  set (attachment := match body app with File name mime data => _ | _ => None end).
  apply commits_bind.
  { intros w id. destruct attachment as [a|]; [|done]. unfold on_store.
    pose proof (attachment_modifies a (w_store w) (group_key id) (attachment_not_group id)) as H.
    by destruct (attachments.save a (w_store w)). }
  intros [u|e]; [|by apply commits_ret]. apply commits_bind; [done|]. intros now.
  eapply commits_frame; [apply group_append_modifies|apply thread_not_group|].
  intros [inserted|e]; [|by apply commits_ret]. apply commits_save; [done|].
  intros w. destruct (negb inserted); [done|]. by destruct attachment.
Qed.

Lemma act_on_group_text_commits g target sender plaintext :
  sg_id target = g → commits g target (act_on_group_text target g sender plaintext).
Proof.
  intros Hg. unfold act_on_group_text. destruct (AppMessage_decode plaintext) as [app|];
    [|by apply commits_ret].
  assert (commits g target (
    let* now := read_platform_now in
    if is_expired app now then
      let* saved := on_store (save_group target) in
      let| _ := saved else retF Retry in retF Accepted
    else store_group_text target g sender app)) as Hmsg.
  { apply commits_bind; [done|]. intros now. destruct (is_expired app now).
    - by apply commits_save.
    - by apply store_group_text_commits. }
  destruct (body app); try exact Hmsg.
  - eapply commits_frame; [apply group_edit_modifies|apply thread_not_group|].
    intros [[]|e]; [|by apply commits_ret]. by apply commits_save.
  - eapply commits_frame; [apply group_delete_modifies|apply thread_not_group|].
    intros [[]|e]; [|by apply commits_ret]. by apply commits_save.
Qed.

(** C12: a group ratchet advances exactly with the message it decrypted: when a
    group message is accepted it was decrypted under its signature by the key
    of the device that sent it - the active device of a verified, unblocked
    user of the book - and the stored group is the old one with the ratchet
    advanced past this message; when it is not accepted, no group's stored
    state has changed, so the same message can be tried again. *)
Theorem group_text_commits (identity : Identity) (me : Handle) (own_record : SignedRecord)
    (blocked : list str) (g : str) (message : GroupMessage) (deliver : DeliveryHook Mem X)
    (w : World Mem P X) (stored : StoredGroup)
    (Hg : load_group g (w_store w) = Ok (Some stored)) (Hid : sg_id stored = g) :
  let '(o, w') := process_item identity me own_record blocked (GroupText g message) deliver w in
  (o = Accepted →
   ∃ group plaintext group' known record,
     Group.import (sg_state stored) = Ok group ∧
     Group.decrypt group message (group_ad g) = (Ok plaintext, group') ∧
     load_group g (w_store w') = Ok (Some (with_state stored (Group.export group'))) ∧
     sender_of stored (gm_sender message) = Some known ∧
     blocklist.is_blocked blocked (snd_user_id known) = false ∧
     certified record ∧ uid record = snd_user_id known ∧
     arr_bytes (device_key (sd_record (signed (r_device (sg_record record))))) = gm_sender message) ∧
  (o ≠ Accepted → ∀ id, load_group id (w_store w') = load_group id (w_store w)).
Proof.
  unfold process_item, recv_group_text, bindF at 1, read_store at 1. cbn [rv_blocked]. rewrite Hg.
  destruct (sender_of stored (gm_sender message)) as [known|] eqn:Hsend; [|done].
  destruct (blocklist.is_blocked blocked (snd_user_id known)) eqn:Hblock; [done|].
  destruct (UserId.new (snd_user_id known)) as [u|] eqn:Hu; [|done].
  unfold bindF at 1, read_store at 1.
  destruct (peerbook.get_by_user_id u (w_store w)) as [[record|]|]; [|done..].
  destruct (verify record) as [[]|] eqn:Hv; [|done]. cbn [is_err is_ok negb orb].
  destruct (bool_decide_reflect (r_user_id (sg_record record) = u)) as [Hru|]; [|done].
  destruct (bool_decide_reflect (arr_bytes (device_key (sd_record (signed
    (r_device (sg_record record))))) = gm_sender message)) as [Hdev|]; [|done]. cbn [negb orb].
  destruct (Group.import (sg_state stored)) as [group|] eqn:Himp; [|done].
  destruct (Group.decrypt group message (group_ad g)) as [[plaintext|e] group'] eqn:Hdec; [|done].
  set (target := with_state stored (Group.export group')).
  destruct (act_on_group_text_commits g target (Handle.as_str (r_handle (sg_record record)))
    plaintext Hid w) as [H1 H2].
  destruct (act_on_group_text target g _ plaintext w) as [o w']. simpl in H1, H2. split; [|exact H2].
  intros Ho. exists group, plaintext, group', known, record. split_and!; try done; [by apply H1|..].
  - by apply verify_spec.
  - unfold uid, peerbook.uid. rewrite Hru. by apply UserId.uid_new_Ok.
Qed.

(** ** Membership changes *)

(** Removing the receiver keys of the senders [p] selects. *)
Definition remove_senders (p : GroupSender → bool) (senders : list GroupSender) (group : Group)
    : Group :=
  fold_left (λ group known, if p known then Group.remove_member group (snd_id known) else group)
    senders group.

Lemma remove_senders_members p senders group id :
  members (remove_senders p senders group) !! id =
  if existsb (λ known, p known && bool_decide (snd_id known = id)) senders then None
  else members group !! id.
Proof.
  unfold remove_senders. revert group. induction senders as [|k ks IH]; intros group; simpl; [done|].
  rewrite IH. destruct (p k); simpl; [|done].
  destruct (bool_decide_reflect (snd_id k = id)) as [<-|Hne]; simpl.
  - destruct (existsb _ ks); [done|]. by rewrite lookup_delete_eq.
  - destruct (existsb _ ks); [done|]. by rewrite lookup_delete_ne.
Qed.

Lemma remove_senders_own p senders group :
  own (remove_senders p senders group) = own group ∧
  own_id (remove_senders p senders group) = own_id group.
Proof.
  unfold remove_senders. revert group. induction senders as [|k ks IH]; intros group; simpl; [done|].
  destruct (p k); [|done]. destruct (IH (Group.remove_member group (snd_id k))) as [-> ->]. done.
Qed.

Lemma note_shares_fields shared g :
  sg_id (note_shares g shared) = sg_id g ∧ sg_name (note_shares g shared) = sg_name g ∧
  sg_members (note_shares g shared) = sg_members g ∧
  sg_senders (note_shares g shared) = sg_senders g ∧
  sg_state (note_shares g shared) = sg_state g.
Proof.
  unfold note_shares. revert g. induction shared as [|s ss IH]; intros g; simpl; [done|].
  apply (IH (note_key_share g s)).
Qed.

Lemma save_group_saved (g : StoredGroup) (m m' : Mem) u :
  save_group g m = (Ok u, m') → load_group (sg_id g) m' = Ok (Some g).
Proof.
  unfold save_group, bindM, readM. destruct (list_groups m) as [ids|]; [|done].
  destruct (negb (contacts.contains ids (sg_id g))); simpl; intros [= _ <-].
  - by rewrite load_group_index, load_group_put, decide_True.
  - by rewrite load_group_put, decide_True.
Qed.

(** Whatever the host does during the distribution, its end saves the group. *)
Lemma distribute_saved r stored group targets (deliver : DeliveryHook Mem X) (w w' : World Mem P X)
    u stored' :
  distribute_group_key r stored group targets deliver w = ((Ok u, stored'), w') →
  load_group (sg_id stored) (w_store w') = Ok (Some stored') ∧
  sg_name stored' = sg_name stored ∧ sg_members stored' = sg_members stored ∧
  sg_senders stored' = sg_senders stored ∧ sg_state stored' = sg_state stored.
Proof.
  unfold distribute_group_key, bindF at 1. destruct (distribute_key _ _ _ _ _ _ _ _ _ w) as [shared w1].
  cbv zeta. unfold bindF, on_store, retF.
  destruct (save_group (note_shares stored shared) (w_store w1)) as [res m'] eqn:Hs.
  intros [= -> <- <-]. cbn [w_store]. destruct (note_shares_fields shared stored) as (Hi & H).
  apply save_group_saved in Hs. by rewrite Hi in Hs.
Qed.

(** C15: only a member can leave, and only itself: an accepted departure comes in
    a self-certifying envelope from a member other than oneself; afterwards the
    stored group lacks exactly that user, no receiver key of the departed
    user's devices is left, every other sender's key is untouched, and the own
    sender key is freshly generated, so the departed cannot read on. *)
Theorem leave_removes_only_the_leaver (identity : Identity) (me : Handle)
    (own_record : SignedRecord) (blocked : list str) (env : Envelope)
    (deliver : DeliveryHook Mem X) (w w' : World Mem P X) (from : Handle) (input : bytes)
    (payload : GroupLeavePayload) (stored : StoredGroup)
    (Hopen : open_envelope identity env = Ok (from, input))
    (Hpayload : from_slice input = Some payload)
    (Hg : load_group (leave_group_id payload) (w_store w) = Ok (Some stored))
    (Hid : sg_id stored = leave_group_id payload)
    (Haccepted : process_item identity me own_record blocked (GroupLeave env) deliver w
                 = (Accepted, w')) :
  let leaver := uid (sender_record env) in
  let theirs known := bool_decide (snd_user_id known = leaver) in
  has_member (sg_members stored) leaver = true ∧ leaver ≠ uid own_record ∧
  ∃ session g',
    Group.import (sg_state stored) = Ok session ∧
    load_group (leave_group_id payload) (w_store w') = Ok (Some g') ∧
    sg_name g' = sg_name stored ∧
    sg_members g' = List.filter (λ m, negb (bool_decide (gmem_user_id m = leaver))) (sg_members stored) ∧
    sg_senders g' = List.filter (λ k, negb (theirs k)) (sg_senders stored) ∧
    ∃ session', sg_state g' = Group.export session' ∧
      own session' = (SenderKey.generate (w_platform w)).1 ∧
      ∀ id, members session' !! id =
        if existsb (λ k, theirs k && bool_decide (snd_id k = id)) (sg_senders stored) then None
        else members session !! id.
Proof.
  intros leaver theirs. unfold process_item, recv_group_leave in Haccepted.
  cbn [rv_identity rv_blocked rv_sender_record] in Haccepted. rewrite Hopen in Haccepted.
  cbv zeta in Haccepted. fold leaver in Haccepted.
  destruct (blocklist.is_blocked blocked leaver); [done|]. rewrite Hpayload in Haccepted.
  destruct (bool_decide_reflect (leaver = uid own_record)) as [|Hown]; [done|].
  unfold bindF at 1, read_store at 1 in Haccepted. rewrite Hg in Haccepted.
  destruct (has_member (sg_members stored) leaver) eqn:Hm; [|done]. cbn [negb] in Haccepted.
  split; [done|]. split; [done|].
  destruct (Group.import (sg_state stored)) as [session|] eqn:Himp; [|done].
  unfold bindF at 1, on_platform, Group.rotate in Haccepted.
  destruct (SenderKey.generate (w_platform w)) as [fresh p'] eqn:Hgen.
  unfold bindF at 1, on_store at 1 in Haccepted. cbn [w_store] in Haccepted.
  set (session1 := drop_senders (sg_senders stored) leaver session) in Haccepted.
  set (session' := mkGroup (own_id session1) fresh (members session1)) in Haccepted.
  set (stored1 := drop_member stored leaver (Group.export session')) in Haccepted.
  destruct (save_group stored1 (w_store w)) as [[[]|e] m1]; [|done].
  unfold bindF at 1 in Haccepted.
  destruct (distribute_group_key _ _ _ _ _ _) as [[[u|e] stored2] w2] eqn:Hd; [|done].
  apply distribute_saved in Hd as (Hl & Hn & Hme & Hse & Hst).
  unfold bindF, emit, retF in Haccepted. injection Haccepted as <-. cbn [w_store].
  exists session, stored2. split_and!; [done| |done|done|done|].
  { by rewrite <-Hid. }
  exists session'. split_and!; [done|done|]. intros id. cbn [members].
  apply (remove_senders_members theirs (sg_senders stored) session id).
Qed.

End Footprint.

(** ** Who is sent what: the calls of the delivery policy *)
Record Call : Type := mkCall {
  c_handle : Handle;
  c_record : SignedRecord;
  c_device : Device;
  c_item : MailItem;
  c_store : Mem
}.

(** Any delivery policy, with its calls recorded in the host state. *)
Definition logged {X} (deliver : DeliveryHook Mem X) : DeliveryHook Mem (X * list Call) :=
  λ h rec dev item plaintext s x,
    let '(path, s', x') := deliver h rec dev item plaintext s x.1 in
    (path, s', (x', x.2 ++ [mkCall h rec dev item s])).

#[export] Instance logged_net {X} `{!FlowNet X} : FlowNet (X * list Call) := {|
  lookup h x := let '(r, x') := lookup h x.1 in (r, (x', x.2));
  lookup_user_id u x := let '(r, x') := lookup_user_id u x.1 in (r, (x', x.2))
|}.

Section Calls.
Context {P X : Type}.
Abbreviation W := (World Mem P (X * list Call)).

(** From a store satisfying [I], the handler keeps [I] and makes only calls
    satisfying [Q]. *)
Definition calls_at (I : Mem → Prop) (Q : Call → Prop) {A} (m : F Mem P (X * list Call) A)
    (w : W) : Prop :=
  I (w_store w) → I (w_store (m w).2) ∧
    ∃ new, (w_host (m w).2).2 = (w_host w).2 ++ new ∧ Forall Q new.

Lemma calls_silent I Q {A} (m : F Mem P (X * list Call) A) w :
  (I (w_store w) → I (w_store (m w).2)) → (w_host (m w).2).2 = (w_host w).2 → calls_at I Q m w.
Proof. intros Hi Hm Hw. split; [auto|]. exists []. by rewrite app_nil_r. Qed.

Lemma calls_ret I Q {A} (a : A) w : calls_at I Q (retF a) w.
Proof. by apply calls_silent. Qed.

Lemma calls_bind I Q {A B} (m : F Mem P (X * list Call) A) (k : A → F Mem P (X * list Call) B) w :
  calls_at I Q m w → (∀ a w', m w = (a, w') → I (w_store w') → calls_at I Q (k a) w') →
  calls_at I Q (bindF m k) w.
Proof.
  intros Hm Hk Hw. unfold bindF. destruct (Hm Hw) as (Hi & n1 & H1 & F1).
  destruct (m w) as [a w1] eqn:E. simpl in *. destruct (Hk a w1 eq_refl Hi Hi) as (Hi2 & n2 & H2 & F2).
  split; [done|]. exists (n1 ++ n2). rewrite H2, H1, <-(assoc_L (++)). split; [done|].
  by apply Forall_app.
Qed.
End Calls.

Section Distribution.
Context {crypto : Crypto} {P X : Type} `{!Platform P, !FlowNet X}
  `{!Postcard IdentityClaim, !Postcard (WalletPublicKey * DeviceRecord), !Postcard DeviceRecord,
    !Postcard ReachabilityRecord, !Postcard VersionPins, !Postcard WalletPublicKey,
    !Postcard contacts.Contact, !Postcard (list str), !Postcard (list (str * str)),
    !Postcard AppMessage, !Postcard attachments.StoredAttachment, !Postcard StoredGroup,
    !Postcard (list StoredMessage), !Postcard (list GroupStoredMessage), !Postcard SegMeta,
    !Postcard (list peerbook.PeerRecord), !Json GroupInvitePayload, !Json GroupLeavePayload}.
Abbreviation W := (World Mem P (X * list Call)).

Definition trusted (t : verified.TrustLevel) : bool :=
  match t with verified.Verified | verified.Pinned => true | _ => false end.

(** What a delivery of the flow may look like: to the certified active device of
    a user of the group, another device than this one, whose wallet is our own
    or one that was verified or pinned. *)
Record authorised (identity : Identity) (targets : list GroupMember) (c : Call) : Prop := {
  au_certified : certified (c_record c);
  au_target : ∃ t, t ∈ targets ∧ gmem_user_id t = uid (c_record c);
  au_handle : c_handle c = r_handle (sg_record (c_record c));
  au_device : c_device c = r_device (sg_record (c_record c));
  au_other : device_key (sd_record (signed (c_device c))) ≠ Identity.device_public identity;
  au_trust : r_wallet (sg_record (c_record c)) = Identity.wallet_public identity ∨
    trusted (verified.level (uid (c_record c)) (r_wallet (sg_record (c_record c))) (c_store c)) = true
}.

Lemma level_pins u wallet v wallet' b (m : Mem) :
  verified.level u wallet (<[key v wallet' := b]> m) = verified.level u wallet m.
Proof.
  assert (∀ k, head k ≠ Some "r"%char → <[key v wallet' := b]> m !! k = m !! k) as Hk.
  { intros k Hk. apply lookup_insert_ne. intros <-. by apply Hk. }
  assert (verified.get u (<[key v wallet' := b]> m) = verified.get u m) as Hv
    by (unfold verified.get; simpl; by rewrite Hk).
  assert (contacts.list_names (<[key v wallet' := b]> m) = contacts.list_names m) as Hn
    by (unfold contacts.list_names; simpl; by rewrite Hk).
  assert (∀ p ns, contacts.first_match p ns (<[key v wallet' := b]> m) =
    contacts.first_match p ns m) as Hf.
  { intros p ns. induction ns as [|n ns IH]; [done|]. cbn [contacts.first_match].
    assert (contacts.load n (<[key v wallet' := b]> m) = contacts.load n m) as ->
      by (unfold contacts.load; simpl; by rewrite Hk).
    destruct (contacts.load n m) as [[c|]|]; [|exact IH|done]. cbn [bind_result]. by rewrite IH. }
  unfold verified.level, contacts.by_user_id. rewrite Hv, Hn.
  destruct (verified.get u m) as [[x|]|]; [done| |done].
  destruct (contacts.list_names m); [|done]. cbn [bind_result]. by rewrite Hf.
Qed.

Lemma resolve_group_spec identity t (w : W) :
  let '(r, w') := resolve_group_target identity t w in
  (w_host w').2 = (w_host w).2 ∧
  (∀ id, load_group id (w_store w') = load_group id (w_store w)) ∧
  match r with
  | None => True
  | Some (h, rec) => certified rec ∧ h = r_handle (sg_record rec) ∧ uid rec = gmem_user_id t ∧
      (r_wallet (sg_record rec) = Identity.wallet_public identity ∨
       trusted (verified.level (uid rec) (r_wallet (sg_record rec)) (w_store w')) = true)
  end.
Proof.
  unfold resolve_group_target. destruct (UserId.new (gmem_user_id t)) as [u|] eqn:Hu; [|done].
  apply UserId.uid_new_Ok in Hu.
  unfold bindF at 1, on_host at 1. cbn [lookup_user_id logged_net].
  destruct (lookup_user_id u (w_host w).1) as [[rec|e] x']; [|done].
  destruct (verify rec) as [[]|] eqn:Hv; [|done]. cbn [is_err is_ok negb orb].
  destruct (bool_decide_reflect (r_user_id (sg_record rec) = u)) as [<-|]; [|done]. cbn [negb].
  unfold bindF at 1, read_store at 1. cbn [w_store].
  destruct (_ && _) eqn:Ht; [done|].
  unfold bindF, on_store. cbn [w_store]. rewrite check_and_pin_run.
  destruct (load_pins _ _ (w_store w)) as [[pins|]|e]; [|done..].
  destruct (accepts pins rec); [|done]. simpl. split; [done|]. split.
  - intros id. unfold load_group. simpl. by rewrite lookup_insert_ne.
  - apply verify_spec in Hv. split_and!; [done..|]. rewrite level_pins.
    apply andb_false_iff in Ht as [Ht|Ht].
    + left. by apply negb_false_iff, bool_decide_eq_true in Ht.
    + right. by destruct (verified.level _ _ _).
Qed.

Lemma calls_strengthen I Q {A} (m : F Mem P (X * list Call) A) (w : W) :
  I (w_store w) → calls_at I Q m w → calls_at (λ _, True) Q m w.
Proof. intros Hi Hm _. destruct (Hm Hi) as [_ H]. done. Qed.

Lemma calls_store I Q {A} (m : M Mem A) (w : W) :
  (I (w_store w) → I (m (w_store w)).2) → calls_at I Q (on_store m) w.
Proof.
  intros H. apply calls_silent; unfold on_store; destruct (m (w_store w)); [exact H|done].
Qed.

Lemma calls_platform I Q {A} (m : P → A * P) (w : W) : calls_at I Q (on_platform m) w.
Proof. apply calls_silent; unfold on_platform; by destruct (m (w_platform w)). Qed.

(** The policy may do anything but touch the stored groups. *)
Definition leaves_groups (deliver : DeliveryHook Mem X) : Prop :=
  ∀ h rec dev item plaintext s x id,
    load_group id (deliver h rec dev item plaintext s x).1.2 = load_group id s.

Definition group_is (g : str) (saved : result error (option StoredGroup)) (m : Mem) : Prop :=
  load_group g m = saved.

Lemma calls_call g saved Q deliver h rec dev item plaintext (w : W) :
  leaves_groups deliver →
  (group_is g saved (w_store w) → Q (mkCall h rec dev item (w_store w))) →
  calls_at (group_is g saved) Q (call (logged deliver h rec dev item plaintext)) w.
Proof.
  intros Hd HQ Hi. unfold call, logged.
  pose proof (Hd h rec dev item plaintext (w_store w) (w_host w).1 g) as Hg.
  destruct (deliver h rec dev item plaintext (w_store w) (w_host w).1) as [[path s'] x']. simpl in *.
  unfold group_is in *. split; [by rewrite Hg|]. eexists. split; [done|].
  apply Forall_singleton. auto.
Qed.

Lemma calls_resolve g saved Q identity t (w : W) :
  calls_at (group_is g saved) Q (resolve_group_target identity t) w.
Proof.
  pose proof (resolve_group_spec identity t w) as H.
  destruct (resolve_group_target identity t w) as [r w'] eqn:E. destruct H as (H1 & H2 & _).
  apply calls_silent; rewrite E; [|done]. unfold group_is. simpl. by rewrite H2.
Qed.

(** The deliveries of a resolved target are authorised. *)
Lemma resolved_authorised identity targets t h rec item (w w' : W) :
  resolve_group_target identity t w = (Some (h, rec), w') → t ∈ targets →
  device_key (sd_record (signed (r_device (sg_record rec)))) ≠ Identity.device_public identity →
  authorised identity targets (mkCall h rec (r_device (sg_record rec)) item (w_store w')).
Proof.
  intros Hr Ht Hd. pose proof (resolve_group_spec identity t w) as H. rewrite Hr in H.
  destruct H as (_ & _ & Hc & Hh & Hu & Htr). split; simpl; try done. by exists t.
Qed.

Lemma fan_out_calls g saved Q identity deliver item targets all out (w : W) :
  leaves_groups deliver → (∀ t, t ∈ targets → t ∈ all) →
  (∀ c, authorised identity all c → c_item c = item → group_is g saved (c_store c) → Q c) →
  calls_at (group_is g saved) Q (fan_out identity (logged deliver) item targets out) w.
Proof.
  intros Hd Hsub HQ. revert w out. induction targets as [|t ts IH]; intros w out; simpl;
    [apply calls_ret|].
  assert (∀ t, t ∈ ts → t ∈ all) as Hsub' by (intros t' ?; apply Hsub; by right).
  apply calls_bind; [apply calls_resolve|]. intros [[h rec]|] w1 Hr _; [|by apply IH].
  destruct (bool_decide_reflect (device_key (sd_record (signed (r_device (sg_record rec))))
    = Identity.device_public identity)) as [|Hne]; [by apply IH|].
  apply calls_bind; [|intros path w2 _ _; by apply IH]. apply calls_call; [done|].
  intros Hi. apply HQ; [|done|done]. eapply resolved_authorised; [exact Hr|apply Hsub; by left|done].
Qed.

Lemma share_loop_calls g saved Q identity me own_record distribution plaintext known deliver targets
    all (w : W) :
  leaves_groups deliver → (∀ t, t ∈ targets → t ∈ all) →
  (∀ c, authorised identity all c → (∃ env, c_item c = GroupInvite env) → Q c) →
  calls_at (group_is g saved) Q (share_loop (share_with identity me own_record distribution
    plaintext known (pairwise (logged deliver))) targets) w.
Proof.
  intros Hd Hsub HQ. revert w. induction targets as [|t ts IH]; intros w; [apply calls_ret|].
  cbn [share_loop].
  assert (∀ t, t ∈ ts → t ∈ all) as Hsub' by (intros t' ?; apply Hsub; by right).
  apply calls_bind; [|intros one w1 _ _; apply calls_bind; [by apply IH|intros; apply calls_ret]].
  unfold share_with. cbv zeta. apply calls_bind; [apply calls_resolve|].
  intros [[h rec]|] w1 Hr _; [|apply calls_ret].
  destruct (bool_decide_reflect (device_key (sd_record (signed (r_device (sg_record rec))))
    = Identity.device_public identity)) as [|Hne]; [apply calls_ret|].
  destruct (existsb _ known); [apply calls_ret|].
  apply calls_bind; [apply calls_platform|]. intros env w2 Hseal _.
  assert (w_store w2 = w_store w1) as Hst.
  { unfold on_platform in Hseal. destruct (seal_to_with_record _ _ _ _ _ _).
    by injection Hseal as <- <-. }
  destruct env as [env|e]; [|apply calls_ret].
  apply calls_bind; [|intros; apply calls_ret]. unfold pairwise. apply calls_call; [done|].
  intros _. apply HQ; [|by exists env]. rewrite Hst.
  eapply resolved_authorised; [exact Hr|apply Hsub; by left|done].
Qed.

(** The stored group has moved past the key of a group message about to be sent. *)
Definition ratchet_saved (c : Call) : Prop :=
  match c_item c with
  | GroupText g message => ∃ saved, load_group g (c_store c) = Ok (Some saved) ∧
      gs_own_iteration (sg_state saved) = wrapping_succ (gm_iteration message)
  | GroupInvite _ => True
  | _ => False
  end.

Lemma calls_done I Q {A} (m : F Mem P (X * list Call) A) (w : W) :
  calls_at I Q m w → I (w_store w) →
  ∃ new, (w_host (m w).2).2 = (w_host w).2 ++ new ∧ Forall Q new.
Proof. intros H Hi. by destruct (H Hi). Qed.

Lemma calls_group g Q {A} (m : F Mem P (X * list Call) A) (w : W) :
  (∀ saved, calls_at (group_is g saved) Q m w) → calls_at (λ _, True) Q m w.
Proof. intros H. by apply (calls_strengthen (group_is g (load_group g (w_store w)))). Qed.

Lemma share_current_calls identity me own_record group session deliver (w : W) :
  leaves_groups deliver →
  calls_at (λ _, True) (λ c, authorised identity (sg_members group) c ∧ ratchet_saved c)
    (share_current_key identity me own_record group session (logged deliver)) w.
Proof.
  intros Hd. unfold share_current_key, distribute_key_inner. cbv zeta. apply calls_bind.
  - destruct (to_vec _) as [plaintext|]; [|apply calls_ret].
    apply (calls_group (sg_id group)). intros saved.
    apply (share_loop_calls _ _ _ _ _ _ _ _ _ _ _ (sg_members group)); [done|done|].
    intros c Hc [env He]. split; [done|]. unfold ratchet_saved. by rewrite He.
  - intros [|s shared] w1 _ _; [apply calls_ret|].
    apply calls_bind; [by apply calls_store|intros; apply calls_ret].
Qed.

Lemma share_current_fields identity me own_record group session deliver (w w' : W) r group' :
  share_current_key identity me own_record group session deliver w = ((r, group'), w') →
  sg_id group' = sg_id group ∧ sg_members group' = sg_members group.
Proof.
  unfold share_current_key, bindF at 1. destruct (distribute_key_inner _ _ _ _ _ _ _ _ _ _ w) as [shared w1].
  destruct shared as [|s shared]; [by intros [= _ <- _]|]. cbv zeta. unfold bindF, on_store, retF.
  destruct (save_group _ _) as [res m]. intros [= _ <- _].
  destruct (note_shares_fields (s :: shared) group) as (? & _ & ? & _). done.
Qed.

(** C13: sending to a group is safe against rewinds and strangers, whatever the
    host's lookups answer and its delivery policy does (short of rewriting the
    stored groups): every delivery goes to the certified active device of a
    current member with a verified or pinned wallet, never to this device; what
    is sent is the group message or the sender key; and before any copy of the
    group message leaves, the store already holds the group with the ratchet
    moved past its key, so a crash in the middle never reuses it. *)
Theorem group_send_safe (identity : Identity) (me : Handle) (own_record : SignedRecord)
    (group : StoredGroup) (app : AppMessage) (deliver : DeliveryHook Mem X) (w : W)
    (Hdeliver : leaves_groups deliver) :
  ∃ new, (w_host (group_send identity me own_record group app (logged deliver) w).2).2
         = (w_host w).2 ++ new ∧
         Forall (λ c, authorised identity (sg_members group) c ∧ ratchet_saved c) new.
Proof.
  apply (calls_done (λ _, True)); [|done]. unfold group_send. cbv zeta.
  destruct (Group.import (sg_state group)) as [session|]; [|apply calls_ret].
  apply calls_bind; [by apply share_current_calls|].
  intros [[u|e] group1] w1 Hshare _; [|apply calls_ret].
  apply share_current_fields in Hshare as [Hid Hmem].
  apply calls_bind.
  { unfold apply_own_edit. destruct (body app); try apply calls_ret; by apply calls_store. }
  intros [u2|e] w2 _ _; [|apply calls_ret].
  unfold Group.encrypt, SenderKey.encrypt. destruct (kdf_ck _) as [next mk].
  set (session' := mkGroup _ _ _). set (gm := mkGroupMessage _ _ _ _).
  set (group2 := with_state group1 (Group.export session')).
  apply calls_bind; [by apply calls_store|]. intros [u3|e] w3 Hsave _; [|apply calls_ret].
  assert (load_group (sg_id group2) (w_store w3) = Ok (Some group2)) as Hsaved.
  { unfold on_store in Hsave. destruct (save_group group2 (w_store w2)) as [res m] eqn:Hs.
    injection Hsave as -> <-. by eapply save_group_saved. }
  apply calls_bind.
  - apply (calls_strengthen (group_is (sg_id group2) (Ok (Some group2)))); [done|].
    apply (fan_out_calls _ _ _ _ _ _ _ (sg_members group)); [done|by rewrite <-Hmem|].
    intros c Hc Hitem Hg. split; [done|]. unfold ratchet_saved. rewrite Hitem.
    by exists group2.
  - intros out w4 _ _. apply calls_bind; [|intros; apply calls_ret].
    unfold record_group_copy. destruct (is_change (body app)); [apply calls_ret|].
    apply calls_bind; [by apply calls_store|intros; apply calls_ret].
Qed.
End Distribution.
