(* ===== verification/EndToEnd.v ===== *)
(** * EndToEnd: a message from one user's device to another's

    Sending, sealing, opening and receiving composed: what [send_app] hands to
    the delivery policy of the sender is, on the recipient's device, exactly
    one new message of the sender - once, however often it arrives. *)

From S2P Require Import Prelude Crypto Wire Identity UserId Records X3DH Group Message Delivery Storage LocalState LocalProps Antirollback History HistoryProps Groups Codecs WireOps Peerbook Flow FlowProps Instances.

Section EndToEnd.
Context {crypto : Crypto} {P X Y : Type} `{!Platform P, !FlowNet X, !FlowNet Y}
  `{!Postcard IdentityClaim, !Postcard (WalletPublicKey * DeviceRecord), !Postcard DeviceRecord,
    !Postcard ReachabilityRecord, !Postcard VersionPins, !Postcard WalletPublicKey,
    !Postcard contacts.Contact, !Postcard (list str), !Postcard (list (str * str)),
    !Postcard AppMessage, !Postcard attachments.StoredAttachment, !Postcard StoredGroup,
    !Postcard (list StoredMessage), !Postcard (list GroupStoredMessage), !Postcard SegMeta,
    !Postcard (list peerbook.PeerRecord), !Json GroupInvitePayload, !Json GroupLeavePayload}.

(** The bodies that are stored as a message of the conversation. *)
Definition is_message (b : Body) : bool :=
  match b with Receipt _ _ | Edit _ _ | Message.Delete _ => false | _ => true end.

(** What the recipient stores and shows. *)
Definition received (app : AppMessage) (now : u64) : StoredMessage :=
  mkStored (Message.id app) false (summary app) now (expires_at app).
Definition shown (user_id : str) (from : Handle) (app : AppMessage) : list FlowEvent :=
  match body app with
  | File name mime data => [EAttachment (Message.id app) name mime data]
  | _ => []
  end ++ [EDirectMessage user_id (Handle.as_str from) (Message.id app) (summary app) false].

(** The recipient's conversation with a user, ready for another message. *)
Record ready (m : Mem) (u : str) (l : list StoredMessage) : Prop := {
  rd_load : History.load u m = Ok l;
  rd_peers : ∃ names, peers m = Ok names
}.

(** Keys outside the conversations do not matter to it. *)
Lemma ready_other (m m' : Mem) u l (K : bytes → Prop) :
  (∀ k, ¬ K k → m' !! k = m !! k) → (∀ k, direct_key u k → ¬ K k) →
  ready m u l → ready m' u l.
Proof.
  intros Hk HK [Hl [names Hp]]. split.
  - rewrite <-Hl. apply load_segments_other; [intros i|]; apply Hk, HK; left; [left; by exists i|by right].
  - exists names. rewrite <-Hp. apply peers_other, Hk, HK. by right.
Qed.

Lemma room_other (m m' : Mem) u (K : bytes → Prop) :
  (∀ k, ¬ K k → m' !! k = m !! k) → (∀ k, direct_key u k → ¬ K k) →
  room HIST u m → room HIST u m'.
Proof.
  intros Hk HK (n & Hn & Hlt). exists n. split; [|done]. rewrite <-Hn.
  apply seg_count_other, Hk, HK. left. by right.
Qed.

(** A known message is not stored again. *)
Lemma append_known (m : Mem) u l msg :
  ready m u l → is_new l msg = false →
  ∃ m', History.append u msg m = (Ok false, m') ∧ ready m' u l.
Proof.
  intros [Hl [names Hp]] Hnew.
  destruct (with_index_run m names u [] Hp eq_refl) as [Hp' Hk].
  exists (fold_left apply_mutation (with_index names u []) m). split.
  - unfold History.append. rewrite (bindM_run _ _ _ _ _ (inserted_run m u msg l Hl)), Hnew.
    by rewrite (bindM_run _ _ _ _ _ (readM_run _ _ _ Hp)).
  - split; [|by eexists]. rewrite <-Hl. apply load_segments_other; [intros i|]; apply Hk;
      [apply (hist_ghist u u i i)|apply (hist_ghist u u (U32 0) (U32 0))].
Qed.

Lemma names_not_direct u k : direct_key u k → k ≠ names.KEY.
Proof. by intros [[[i ->]| ->]| ->]. Qed.
Lemma attachment_not_direct u k : direct_key u k → ¬ ∃ id, k = attachments.key id.
Proof. intros [[[i ->]| ->]| ->] [id H]; discriminate H. Qed.

Lemma attachment_saved (a : attachments.StoredAttachment) (m : Mem) :
  attachments.save a m = (Ok tt, <[attachments.key (attachments.id a) := wire.encode a]> m).
Proof. done. Qed.

(** [append] on a conversation that is ready, with room if it is needed. *)
Lemma append_ready (m : Mem) u l msg :
  ready m u l → room HIST u m ∨ is_new l msg = false →
  ∃ m', History.append u msg m = (Ok (is_new l msg), m') ∧
        ready m' u (if is_new l msg then l ++ [msg] else l).
Proof.
  intros Hr [Hroom|Hold].
  - destruct Hr as [Hl [names Hp]].
    destruct (append_run_list m u msg l names Hl Hp Hroom) as (m' & H1 & H2 & H3 & _).
    exists m'. split; [done|]. split; [done|by eexists].
  - rewrite Hold. by apply append_known.
Qed.

(** Saving the attachment of a file leaves the conversation as it is. *)
Lemma save_attachment_ready (m : Mem) u l a :
  ready m u l → ready (attachments.save a m).2 u l ∧
                (room HIST u m → room HIST u (attachments.save a m).2).
Proof.
  intros Hr.
  assert (∀ k, ¬ (∃ id, k = attachments.key id) → (attachments.save a m).2 !! k = m !! k) as Hk
    by (intros k; apply (attachment_modifies a m k)).
  split.
  - by apply (ready_other _ _ _ _ _ Hk (attachment_not_direct u)).
  - by apply (room_other _ _ _ _ Hk (attachment_not_direct u)).
Qed.

Lemma names_note_ready (m : Mem) u l id name :
  ready m u l → ready (names.note id name m).2 u l ∧
                (room HIST u m → room HIST u (names.note id name m).2).
Proof.
  intros Hr.
  assert (∀ k, ¬ k = names.KEY → (names.note id name m).2 !! k = m !! k) as Hk
    by (intros k; apply (names_note_modifies id name m k)).
  split.
  - by apply (ready_other _ _ _ _ (λ k, k = names.KEY) Hk (names_not_direct u)).
  - by apply (room_other _ _ _ (λ k, k = names.KEY) Hk (names_not_direct u)).
Qed.

Definition outcome_of (new : bool) u from app (w w' : World Mem P Y) (l : list StoredMessage) : Prop :=
  ready (w_store w') u (if new then l ++ [received app (now_unix_secs (w_platform w))] else l) ∧
  w_events w' = w_events w ++ (if new then shown u from app else []) ∧
  w_platform w' = w_platform w.

Lemma store_direct_run u from app (w : World Mem P Y) l :
  let new := is_new l (received app (now_unix_secs (w_platform w))) in
  ready (w_store w) u l → room HIST u (w_store w) ∨ new = false →
  ∃ w', store_direct u from app w = (Accepted, w') ∧ outcome_of new u from app w w' l.
Proof.
  intros new Hr Hroom. unfold store_direct.
  set (saved := match body app with File name mime data => _ | _ => _ end).
  assert (∃ m1, saved w = (Ok tt, mkWorld m1 (w_platform w) (w_events w) (w_host w)) ∧
    ready m1 u l ∧ (room HIST u m1 ∨ new = false)) as (m1 & Hs & Hr1 & Hroom1).
  { unfold saved. destruct (body app) as [| | | |name mime data| |];
      try (exists (w_store w); by destruct w).
    destruct (save_attachment_ready (w_store w) u l
      (attachments.mkStoredAttachment (Message.id app) name mime data) Hr) as [H1 H2].
    eexists. split; [reflexivity|]. split; [exact H1|]. destruct Hroom; auto. }
  clearbody saved. unfold bindF at 1. rewrite Hs. unfold bindF at 1, read_platform_now at 1.
  cbn [w_platform]. fold (received app (now_unix_secs (w_platform w))).
  destruct (append_ready m1 u l _ Hr1 Hroom1) as (m2 & Ha & Hr2).
  unfold bindF at 1, on_store at 1. cbn [w_store]. rewrite Ha. fold new in Hr2 |- *.
  unfold outcome_of, shown. destruct new; cbn [negb].
  - unfold bindF. destruct (body app); (eexists; split; [reflexivity|]); cbn;
      (split_and!; [done|by rewrite ?app_nil_l, <-?(assoc_L (++))|done]).
  - eexists. split; [reflexivity|]. cbn. by rewrite app_nil_r.
Qed.

(** Receiving an envelope that opens to a message. *)
Lemma recv_message r env from app (w : World Mem P Y) l :
  let u := uid (sender_record env) in
  let new := is_new l (received app (now_unix_secs (w_platform w))) in
  open_envelope (rv_identity r) env = Ok (from, AppMessage_encode app) →
  blocklist.is_blocked (rv_blocked r) u = false →
  is_message (body app) = true → is_expired app (now_unix_secs (w_platform w)) = false →
  ready (w_store w) u l → room HIST u (w_store w) ∨ new = false →
  ∃ w', recv_direct r env w = (Accepted, w') ∧ outcome_of new u from app w w' l.
Proof.
  intros u new Hopen Hblock Hmsg Hexp Hr Hroom. unfold recv_direct. rewrite Hopen. cbv zeta.
  fold u. rewrite Hblock. unfold bindF at 1, on_store at 1.
  destruct (names_note_ready (w_store w) u l (Handle.as_str from)
    (r_name (sg_record (sender_record env))) Hr) as [Hr0 Hroom0].
  destruct (names.note _ _ (w_store w)) as [res m0]. simpl in Hr0, Hroom0.
  unfold AppMessage_decode, AppMessage_encode. rewrite wire.decode_encode.
  set (w0 := mkWorld m0 (w_platform w) (w_events w) (w_host w)).
  destruct (store_direct_run u from app w0 l Hr0) as (w' & Hw & Ho);
    [destruct Hroom; auto|].
  exists w'. split; [|exact Ho].
  destruct (body app) eqn:Hb; try discriminate Hmsg;
    unfold bindF at 1, read_platform_now; cbn [w_platform w0]; by rewrite Hexp.
Qed.

(** What [send_app] hands to the delivery policy. *)
Lemma send_app_call (alice : Identity) me sr peer peer_record app (deliver : DeliveryHook Mem X)
    (w w' : World Mem P (X * list Call)) r c :
  send_app alice me sr peer peer_record app (logged deliver) w = (r, w') →
  (w_host w').2 = (w_host w).2 ++ [c] →
  ∃ env p', seal_to_with_record (w_platform w) alice me sr (r_device (sg_record peer_record))
      (AppMessage_encode app) = (Ok env, p') ∧
    c = mkCall peer peer_record (r_device (sg_record peer_record)) (Direct env) (w_store w).
Proof.
  unfold send_app. cbv zeta. unfold bindF at 1, on_platform.
  destruct (seal_to_with_record _ _ _ _ _ _) as [[env|e] p'].
  2: { intros [= _ <-] H. exfalso. cbn in H. apply (f_equal length) in H.
       rewrite length_app in H. simpl in H. lia. }
  unfold bindF at 1, call, logged. cbn [w_store w_host].
  destruct (deliver _ _ _ _ _ (w_store w) (w_host w).1) as [[path s'] x'].
  set (w1 := mkWorld s' _ _ _). unfold bindF at 1.
  assert (w_host (record_own_copy (uid peer_record) app w1).2 = w_host w1) as Hh.
  { clear. unfold record_own_copy, bindF, on_store, retF.
    destruct (body app); try reflexivity.
    all: try (destruct (History.append _ _ _); reflexivity).
    - by destruct (History.edit _ _ _ _ _).
    - by destruct (History.delete _ _ _ _). }
  destruct (record_own_copy (uid peer_record) app w1) as [r2 w2]. simpl in Hh.
  intros [= _ <-]. rewrite Hh. cbn. intros H%app_inv_head. injection H as <-. by exists env, p'.
Qed.

End EndToEnd.
