(* ===== verification/FlowWitness.v ===== *)
(** * FlowWitness: the theorems on the flow at concrete inputs

    Alice (identity 7) and Bob (identity 9) with the weak primitives of
    [Instances]: stores, a host and the items they exchange. *)

From S2P Require Import Prelude Crypto Wire Identity UserId Records X3DH Group GroupSession Message Delivery Storage LocalState LocalProps Antirollback History HistoryProps Groups Codecs WireOps Peerbook PeerbookProps Flow FlowProps EndToEnd Instances.

(** ** Encodings *)
#[export] Instance Body_codec : Codec Body.
Proof.
  refine (codec_iso
    (B := str + (str * str + (str * str + (str * bool + (str * str * bytes + (str * str + str))))))
    (λ b, match b with
          | Text t => inl t
          | Reply a t => inr (inl (a, t))
          | Reaction a t => inr (inr (inl (a, t)))
          | Receipt i r => inr (inr (inr (inl (i, r))))
          | File n m d => inr (inr (inr (inr (inl (n, m, d)))))
          | Edit a t => inr (inr (inr (inr (inr (inl (a, t))))))
          | Message.Delete a => inr (inr (inr (inr (inr (inr a)))))
          end)
    (λ s, Some (match s with
          | inl t => Text t
          | inr (inl (a, t)) => Reply a t
          | inr (inr (inl (a, t))) => Reaction a t
          | inr (inr (inr (inl (i, r)))) => Receipt i r
          | inr (inr (inr (inr (inl (n, m, d))))) => File n m d
          | inr (inr (inr (inr (inr (inl (a, t)))))) => Edit a t
          | inr (inr (inr (inr (inr (inr a))))) => Message.Delete a
          end)) _).
  by intros [].
Defined.
#[export] Instance AppMessage_codec : Codec AppMessage.
Proof.
  refine (codec_iso (λ m, (Message.id m, timestamp m, expires_at m, body m))
    (λ '(i, t, e, b), Some (mkAppMessage i t e b)) _). by intros [].
Defined.
#[export] Instance SenderKeyDistribution_codec : Codec SenderKeyDistribution.
Proof.
  refine (codec_iso (λ d, (skd_iteration d, skd_chain_key d, skd_signing_public d))
    (λ '(i, c, s), Some (mkDistribution i c s)) _). by intros [].
Defined.
#[export] Instance GroupInvitePayload_codec : Codec GroupInvitePayload.
Proof.
  refine (codec_iso
    (λ p, (inv_group_id p, inv_name p, inv_members p, inv_sender_id p, inv_distribution p))
    (λ '(g, n, m, s, d), Some (mkGroupInvite g n m s d)) _). by intros [].
Defined.
#[export] Instance GroupLeavePayload_codec : Codec GroupLeavePayload.
Proof. refine (codec_iso leave_group_id (λ g, Some (mkGroupLeave g)) _). by intros []. Defined.

(** ** The host: a list of records, and a policy that delivers everything *)
Definition find_record (p : SignedRecord → bool) (x : list SignedRecord)
    : result error SignedRecord * list SignedRecord :=
  (ok_or (Anyhow b#"unknown") (List.find p x), x).

#[export] Instance list_net : FlowNet (list SignedRecord) := {|
  lookup h := find_record (λ r, bool_decide (r_handle (sg_record r) = h));
  lookup_user_id u := find_record (λ r, bool_decide (r_user_id (sg_record r) = u))
|}.

Definition toy_deliver : DeliveryHook Mem (list SignedRecord) :=
  λ _ _ _ _ _ s x, (reachability.Direct, s, x).

Lemma toy_leaves_groups : leaves_groups toy_deliver.
Proof. done. Qed.

(** ** The two users *)
Definition alice : Identity := toy_identity 7.
Definition bob : Identity := toy_identity 9.
Definition alice_record : SignedRecord := sample_record.
Definition bob_record : SignedRecord :=
  SignedRecord_sign
    (mkRecord (user_id (Identity.wallet_public bob)) (toy_handle "bob") b#"Bob"
       (Identity.wallet_public bob) (Device_create bob (U64 4)) (U64 9)) bob.

Definition alice_h : Handle := toy_handle "alice".
Definition bob_h : Handle := toy_handle "bob".
Definition both : list GroupMember :=
  [mkGroupMember (uid alice_record) b#"alice"; mkGroupMember (uid bob_record) b#"bob"].

(** Alice's group session, and Bob's with her sender key. *)
Definition alice_session : Group := (Group.new 20%N (my_group_id alice)).1.
Definition bob_session : Group :=
  (Group.add_member (Group.new 30%N (my_group_id bob)).1 (my_group_id alice)
     (Group.distribution alice_session)).2.

Definition toy_group_of (session : Group) : StoredGroup :=
  mkStoredGroup b#"g1" b#"friends" both
    [mkGroupSender (my_group_id alice) (uid alice_record) b#"alice"] [] (Group.export session).

(** Bob's store: the group, Alice in the peer book and verified. *)
Definition bob_store : Mem :=
  let m := (save_group (toy_group_of bob_session) ∅).2 in
  let m := (peerbook.put alice_h alice_record m).2 in
  (verified.mark (uid alice_record) (r_wallet (sg_record alice_record)) m).2.

Definition bob_world : World Mem N (list SignedRecord) := mkWorld bob_store 50%N [] [alice_record].

Definition hello : AppMessage := mkAppMessage b#"m1" (U64 1) None (Text b#"hello").

Definition sealed_by_alice (plaintext : bytes) : Envelope :=
  match (seal_to_with_record 5%N alice alice_h alice_record (r_device (sg_record bob_record))
           plaintext).1 with
  | Ok env => env
  | Err _ => mkEnvelope alice_h alice_record (x3dh.mkHandshakeInit (arr_fit 32 []) (arr_fit 32 []))
               (one_shot.X3dhChaCha20Poly1305V1 []) (U64 0)
  end.

Example toy_receive :
  (process_item bob bob_h bob_record [] (Direct (sealed_by_alice (AppMessage_encode hello)))
     toy_deliver bob_world).1 = Accepted.
Proof. vm_compute. reflexivity. Qed.

(** Records with proof fields are compared through their bytes. *)
Lemma load_group_stored g (m : Mem) :
  bool_decide (m !! group_key (sg_id g) = Some (wire.encode g)) = true →
  load_group (sg_id g) m = Ok (Some g).
Proof.
  intros H%bool_decide_eq_true. unfold load_group. simpl. by rewrite H, load_state_encode.
Qed.

Definition opened_as (r : result error (Handle * bytes)) (h : Handle) (payload : bytes) : bool :=
  match r with
  | Ok (h', payload') => bool_decide (Handle.as_str h' = Handle.as_str h ∧ payload' = payload)
  | Err _ => false
  end.
Lemma opened_as_spec r h payload : opened_as r h payload = true → r = Ok (h, payload).
Proof.
  destruct r as [[h' p']|]; [|done]. intros [H ->]%bool_decide_eq_true.
  by rewrite (Handle.handle_eq _ _ H).
Qed.

Lemma bob_group : load_group b#"g1" (w_store bob_world) = Ok (Some (toy_group_of bob_session)).
Proof. apply (load_group_stored (toy_group_of bob_session)). vm_compute. reflexivity. Qed.

(** ** Witnesses *)
Lemma unwanted_items_leave_no_trace_witness :
  process_item bob bob_h bob_record [uid alice_record]
    (Direct (sealed_by_alice (AppMessage_encode hello))) toy_deliver bob_world = (Rejected, bob_world).
Proof.
  pose proof (unwanted_items_leave_no_trace bob bob_h bob_record [uid alice_record]
    (Direct (sealed_by_alice (AppMessage_encode hello))) toy_deliver bob_world) as H.
  destruct (process_item bob bob_h bob_record [uid alice_record]
    (Direct (sealed_by_alice (AppMessage_encode hello))) toy_deliver bob_world) as [o w'] eqn:E.
  assert (o = Rejected) as ->.
  { transitivity (process_item bob bob_h bob_record [uid alice_record]
      (Direct (sealed_by_alice (AppMessage_encode hello))) toy_deliver bob_world).1;
      [by rewrite E|vm_compute; reflexivity]. }
  destruct H as (_ & _ & H). destruct (H (sealed_by_alice (AppMessage_encode hello)) eq_refl) as [_ ->].
  - right. vm_compute. reflexivity.
  - done.
Defined.

Lemma direct_item_isolated_witness :
  let w' := (process_item bob bob_h bob_record []
    (Direct (sealed_by_alice (AppMessage_encode hello))) toy_deliver bob_world).2 in
  load_group b#"g1" (w_store w') = load_group b#"g1" bob_store.
Proof.
  intros w'. destruct (direct_item_isolated bob bob_h bob_record []
    (sealed_by_alice (AppMessage_encode hello)) toy_deliver bob_world) as (_ & H & _).
  destruct (H b#"g1") as [_ Hg]. exact Hg.
Defined.

Definition group_hello : GroupMessage :=
  (Group.encrypt alice_session (AppMessage_encode hello) (group_ad b#"g1")).1.

Lemma group_text_commits_witness :
  let '(o, w') := process_item bob bob_h bob_record [] (GroupText b#"g1" group_hello) toy_deliver
                    bob_world in
  o = Accepted ∧ ∃ group plaintext group',
    Group.decrypt group group_hello (group_ad b#"g1") = (Ok plaintext, group') ∧
    load_group b#"g1" (w_store w') =
      Ok (Some (with_state (toy_group_of bob_session) (Group.export group'))).
Proof.
  pose proof (group_text_commits bob bob_h bob_record [] b#"g1" group_hello toy_deliver bob_world
    (toy_group_of bob_session) bob_group eq_refl) as H.
  destruct (process_item bob bob_h bob_record [] (GroupText b#"g1" group_hello) toy_deliver bob_world)
    as [o w'] eqn:E.
  assert (o = Accepted) as ->.
  { transitivity (process_item bob bob_h bob_record [] (GroupText b#"g1" group_hello) toy_deliver
      bob_world).1; [by rewrite E|vm_compute; reflexivity]. }
  destruct H as [H _]. destruct (H eq_refl) as (group & plaintext & group' & _ & _ & _ & Hd & Hl & _).
  split; [done|]. exists group, plaintext, group'. split; [exact Hd|exact Hl].
Defined.

Definition leave_env : Envelope := sealed_by_alice (to_allocvec (mkGroupLeave b#"g1")).

Lemma leave_removes_only_the_leaver_witness :
  ∃ w' g', process_item bob bob_h bob_record [] (GroupLeave leave_env) toy_deliver bob_world
             = (Accepted, w') ∧
           load_group b#"g1" (w_store w') = Ok (Some g') ∧
           sg_members g' = [mkGroupMember (uid bob_record) b#"bob"].
Proof.
  destruct (process_item bob bob_h bob_record [] (GroupLeave leave_env) toy_deliver bob_world)
    as [o w'] eqn:E.
  assert (o = Accepted) as ->.
  { transitivity (process_item bob bob_h bob_record [] (GroupLeave leave_env) toy_deliver
      bob_world).1; [by rewrite E|vm_compute; reflexivity]. }
  assert (open_envelope bob leave_env = Ok (alice_h, to_allocvec (mkGroupLeave b#"g1"))) as Hopen
    by (apply opened_as_spec; vm_compute; reflexivity).
  assert (from_slice (to_allocvec (mkGroupLeave b#"g1")) = Some (mkGroupLeave b#"g1")) as Hp
    by exact (postcard_roundtrip _).
  destruct (leave_removes_only_the_leaver bob bob_h bob_record [] leave_env toy_deliver bob_world w'
    alice_h _ _ _ Hopen Hp bob_group eq_refl E) as (_ & _ & session & g' & _ & Hl & _ & Hm & _).
  exists w', g'. split; [done|]. split; [exact Hl|]. rewrite Hm. vm_compute. reflexivity.
Defined.

(** Alice's invite tells Bob, who is in the group already, her rotated key. *)
Definition rotated : Group := (Group.rotate alice_session 90%N).1.
Definition invite : GroupInvitePayload :=
  mkGroupInvite b#"g1" b#"renamed" both (my_group_id alice) (Group.distribution rotated).
Definition invite_env : Envelope := sealed_by_alice (to_allocvec invite).


Lemma group_send_safe_witness :
  let w : World Mem N (list SignedRecord * list Call) := mkWorld bob_store 60%N [] ([alice_record], []) in
  ∃ new, (w_host (group_send bob bob_h bob_record (toy_group_of bob_session) hello
                    (logged toy_deliver) w).2).2 = [] ++ new ∧
         Forall (λ c, authorised bob both c ∧ ratchet_saved c) new.
Proof.
  intros w. apply (group_send_safe bob bob_h bob_record (toy_group_of bob_session) hello
    toy_deliver w toy_leaves_groups).
Defined.

(** The run above makes two deliveries: the sender key, then the message. *)
Example group_send_runs :
  length (w_host (group_send bob bob_h bob_record (toy_group_of bob_session) hello
    (logged toy_deliver)
    (mkWorld bob_store 60%N [] ([alice_record], [] : list Call))).2).2 = 2%nat.
Proof. vm_compute. reflexivity. Qed.

Definition alice_world : World Mem N (list SignedRecord * list Call) :=
  mkWorld (∅ : Mem) 40%N [] ([bob_record], []).

