(* ===== verification/Outbox.v ===== *)
(** * Outbox: [mycellium-engine/src/outbox.rs]

    The sender's delivery queue: one stored entry per delivery id under an index,
    a legacy single-blob form, and the operations on it. *)

From S2P Require Import Prelude Crypto Wire Identity UserId Records X3DH Group Message Delivery Storage LocalState LocalProps Groups Instances.

Module outbox.
Definition LEGACY_KEY : bytes := b#"outbox".
Definition INDEX_KEY : bytes := b#"outbox-index-v2".
Definition entry_key (id : str) : bytes := key_prefix b#"outbox-entry-v2:" id.

Definition RETRY_BASE_SECS : u64 := U64 5.
Definition RETRY_MAX_SECS : u64 := U64 (60 * 60).

Inductive OutboxStatus : Type := Pending | Delivered | Failed | Cancelled.
#[export] Instance OutboxStatus_eq_dec : EqDecision OutboxStatus.
Proof. solve_decision. Defined.

Record OutboxEntry : Type := mkEntry {
  id : str;
  recipient_user_id : str;
  recipient : str;
  slot : str;
  item : option MailItem;
  created_at : u64;
  attempts : u32;
  send_after : u64;
  status : OutboxStatus;
  pairwise_plaintext : option bytes
}.

Definition is_some {A} (o : option A) : bool := match o with Some _ => true | None => false end.

Definition is_pending (self : OutboxEntry) : bool :=
  bool_decide (status self = Pending) && is_some (item self).

Definition is_due (self : OutboxEntry) (now : u64) : bool :=
  is_pending self && uleb (send_after self) now.

Inductive Attempt : Type := ADelivered | ADrop | ARetry.

Section Retry.
Context {crypto : Crypto}.

(** [1u64 << exponent] with [exponent <= 10]. *)
Definition retry_delay (entry : OutboxEntry) : u64 :=
  let exponent := N.min (u_val (attempts entry) - 1) 10 in
  let delay := usat 64 (u_val RETRY_BASE_SECS * N.shiftl 1 exponent) in
  let digest := payload_digest (id entry) in
  let jitter := uwrap 64 (byte_val (nth 0 (arr_bytes digest) zero_byte) mod u_val RETRY_BASE_SECS) in
  let total := saturating_add delay jitter in
  if uleb total RETRY_MAX_SECS then total else RETRY_MAX_SECS.

(** The fields the operations assign, the others kept. *)
Definition finish (s : OutboxStatus) (e : OutboxEntry) : OutboxEntry :=
  mkEntry (id e) (recipient_user_id e) (recipient e) (slot e) None (created_at e) (attempts e)
    (send_after e) s None.

Definition set_send_after (t : u64) (e : OutboxEntry) : OutboxEntry :=
  mkEntry (id e) (recipient_user_id e) (recipient e) (slot e) (item e) (created_at e) (attempts e)
    t (status e) (pairwise_plaintext e).

Definition set_attempts (n : u32) (e : OutboxEntry) : OutboxEntry :=
  mkEntry (id e) (recipient_user_id e) (recipient e) (slot e) (item e) (created_at e) n
    (send_after e) (status e) (pairwise_plaintext e).

(** One iteration of [flush_pass]; [deliver] is an [FnMut] with state [X]. *)
Definition flush_entry {X} (now : u64) (deliver : OutboxEntry → X → Attempt * X)
    (entry : OutboxEntry) (x : X) : nat * OutboxEntry * X :=
  if negb (is_due entry now) then (0%nat, entry, x)
  else
    let '(attempt, x) := deliver entry x in
    match attempt with
    | ADelivered => (1%nat, finish Delivered entry, x)
    | ADrop => (0%nat, finish Failed entry, x)
    | ARetry =>
        let entry := set_attempts (wrapping_succ (attempts entry)) entry in
        (0%nat, set_send_after (saturating_add now (retry_delay entry)) entry, x)
    end.

Fixpoint flush_pass {X} (entries : list OutboxEntry) (now : u64)
    (deliver : OutboxEntry → X → Attempt * X) (x : X) : nat * list OutboxEntry * X :=
  match entries with
  | [] => (0%nat, [], x)
  | entry :: rest =>
      let '(n, entry, x) := flush_entry now deliver entry x in
      let '(delivered, remaining, x) := flush_pass rest now deliver x in
      ((n + delivered)%nat, entry :: remaining, x)
  end.
End Retry.

(** The legacy entry and its conversion. *)
Record LegacyOutboxEntry : Type := mkLegacy {
  l_id : str;
  l_recipient_user_id : str;
  l_recipient : str;
  l_slot : str;
  l_item : MailItem;
  l_created_at : u64;
  l_attempts : u32;
  l_send_after : u64;
  l_status : OutboxStatus
}.

Definition from_legacy (entry : LegacyOutboxEntry) : OutboxEntry :=
  let item := if bool_decide (l_status entry = Pending) then Some (l_item entry) else None in
  mkEntry (l_id entry) (l_recipient_user_id entry) (l_recipient entry) (l_slot entry) item
    (l_created_at entry) (l_attempts entry) (l_send_after entry) (l_status entry) None.

Section Ops.
Context {crypto : Crypto} {S : Type} `{!Storage S, !Postcard OutboxEntry, !Postcard (list OutboxEntry),
  !Postcard (list LegacyOutboxEntry), !Postcard (list str)}.

(** The loop of [load] over the index. *)
Fixpoint load_entries (ids : list str) (store : S) : result error (list OutboxEntry) :=
  match ids with
  | [] => Ok []
  | id' :: rest =>
      let? found := st_get (entry_key id') store in
      let? input := ok_or (Anyhow (b#"outbox entry '" ++ id' ++ b#"' is missing")) found in
      let? entry := map_err (λ _, Anyhow (b#"outbox entry '" ++ id' ++ b#"' is corrupt"))
                      (wire.decode input) in
      if negb (bool_decide (id entry = id'))
      then Err (Anyhow (b#"outbox entry '" ++ id' ++ b#"' has the wrong identity"))
      else let? entries := load_entries rest store in Ok (entry :: entries)
  end.

Definition decode_index (input : bytes) : result error (list str) :=
  map_err (λ _, Anyhow b#"outbox index is corrupt") (wire.decode input).

Definition load (store : S) : result error (list OutboxEntry) :=
  let? index := st_get INDEX_KEY store in
  match index with
  | Some index_bytes =>
      let? ids := decode_index index_bytes in load_entries ids store
  | None =>
      let? legacy := st_get LEGACY_KEY store in
      match legacy with
      | None => Ok []
      | Some input =>
          match wire.decode (T := list OutboxEntry) input with
          | Ok entries => Ok entries
          | Err _ =>
              map_err (λ _, Anyhow b#"legacy outbox is corrupt")
                (let? entries := wire.decode (T := list LegacyOutboxEntry) input in
                 Ok (map from_legacy entries))
          end
      end
  end.

(** The previously stored ids that [save] compares against. *)
Definition old_ids (store : S) : result error (list str) :=
  let? index := st_get INDEX_KEY store in
  match index with
  | Some input => decode_index input
  | None => let? entries := load store in Ok (map id entries)
  end.

(** [store.get(&key)?.as_deref() != Some(bytes)] *)
Definition put_if_changed (key value : bytes) (store : S) : result error (list StorageMutation) :=
  let? stored := st_get key store in
  Ok (if bool_decide (stored = Some value) then [] else [Put key value]).

Fixpoint changed_entries (entries : list OutboxEntry) (store : S)
    : result error (list StorageMutation) :=
  match entries with
  | [] => Ok []
  | entry :: rest =>
      let? one := put_if_changed (entry_key (id entry)) (wire.encode entry) store in
      let? mutations := changed_entries rest store in Ok (one ++ mutations)
  end.

Definition save (entries : list OutboxEntry) : M S unit :=
  let! old_ids := readM old_ids in
  let ids := map id entries in
  if negb (bool_decide (NoDup ids)) then errM (Anyhow b#"outbox contains duplicate delivery ids")
  else
    let! mutations := readM (changed_entries entries) in
    let stale := List.filter (λ old_id, negb (contacts.contains ids old_id)) old_ids in
    let mutations := mutations ++ map (λ old_id, Delete (entry_key old_id)) stale in
    let! index := readM (put_if_changed INDEX_KEY (wire.encode ids)) in
    let! legacy := readM (st_get LEGACY_KEY) in
    let mutations := mutations ++ index ++ (if is_some legacy then [Delete LEGACY_KEY] else []) in
    let! _ := st_apply_batch mutations in retM tt.

Definition enqueue_at (id' : str) (to : str * str) (slot' : str) (item' : MailItem)
    (plaintext : option bytes) (now send_after' : u64) : M S unit :=
  let '(recipient_user_id', recipient') := to in
  let! entries := readM load in
  match List.find (λ entry, bool_decide (id entry = id')) entries with
  | Some existing =>
      if bool_decide (recipient_user_id existing = recipient_user_id')
         && bool_decide (slot existing = slot')
      then retM tt
      else errM (Anyhow b#"delivery id already belongs to another outbox item")
  | None =>
      save (entries ++ [mkEntry id' recipient_user_id' recipient' slot' (Some item') now (U32 0)
                          send_after' Pending plaintext])
  end.

Definition pairwise (item' : MailItem) : bool :=
  match item' with Direct _ | GroupInvite _ | GroupLeave _ => true | GroupText _ _ => false end.

Definition enqueue_pairwise (id' recipient_user_id' recipient' slot' : str) (item' : MailItem)
    (plaintext : option bytes) (now : u64) : M S unit :=
  if is_some plaintext && negb (pairwise item')
  then errM (Anyhow b#"only pairwise envelopes can be readdressed")
  else enqueue_at id' (recipient_user_id', recipient') slot' item' plaintext now (U64 0).

Definition enqueue (id' recipient_user_id' recipient' slot' : str) (item' : MailItem) (now : u64)
    : M S unit :=
  enqueue_pairwise id' recipient_user_id' recipient' slot' item' None now.

Definition len (store : S) : result error nat :=
  let? entries := load store in Ok (length (List.filter is_pending entries)).

Definition apply_status (s : OutboxStatus) (entry : OutboxEntry) : OutboxEntry :=
  let entry := mkEntry (id entry) (recipient_user_id entry) (recipient entry) (slot entry)
    (item entry) (created_at entry) (attempts entry) (U64 0) s (pairwise_plaintext entry) in
  if bool_decide (s = Pending) then entry else finish s entry.

Definition set_status (id' : str) (s : OutboxStatus) : M S bool :=
  let! entries := readM load in
  let found := existsb (λ entry, bool_decide (id entry = id')) entries in
  let entries := map (λ entry, if bool_decide (id entry = id') then apply_status s entry else entry)
                   entries in
  let! _ := (if found then save entries else retM tt) in retM found.

Definition mark_delivered (id' : str) : M S bool := set_status id' Delivered.
Definition mark_cancelled (id' : str) : M S bool := set_status id' Cancelled.
Definition mark_failed (id' : str) : M S bool := set_status id' Failed.

Definition make_all_due : M S unit :=
  let! entries := readM load in
  save (map (λ entry, if is_pending entry then set_send_after (U64 0) entry else entry) entries).

(** What [record_attempt] does to the pending entry. *)
Definition attempted (now : u64) (accepted : bool) (entry : OutboxEntry) : OutboxEntry :=
  if accepted then set_send_after (U64 0) (finish Delivered entry)
  else
    let entry := set_attempts (saturating_add (attempts entry) (U32 1)) entry in
    set_send_after (saturating_add now (retry_delay entry)) entry.

Definition record_attempt (id' : str) (now : u64) (accepted : bool) : M S bool :=
  let! entries := readM load in
  let hit entry := bool_decide (id entry = id') && is_pending entry in
  let found := existsb hit entries in
  let remaining := map (λ entry, if hit entry then attempted now accepted entry else entry) entries in
  if negb found then retM false
  else let! _ := save remaining in retM true.

Definition readdressed (new_id new_slot : str) (new_item : MailItem) (entry : OutboxEntry)
    : OutboxEntry :=
  mkEntry new_id (recipient_user_id entry) (recipient entry) new_slot (Some new_item)
    (created_at entry) (U32 0) (U64 0) (status entry) (pairwise_plaintext entry).

Definition readdress_pending (old_id new_id new_slot : str) (new_item : MailItem) : M S bool :=
  let! entries := readM load in
  if negb (bool_decide (new_id = old_id))
     && existsb (λ entry, bool_decide (id entry = new_id)) entries
  then errM (Anyhow b#"readdressed delivery id already exists")
  else
    let hit entry := bool_decide (id entry = old_id) && is_pending entry in
    match List.find hit entries with
    | None => retM false
    | Some _ =>
        let entries := update_first hit (readdressed new_id new_slot new_item) entries in
        let! _ := save entries in retM true
    end.
End Ops.
End outbox.
