(* ===== verification/OutboxProps.v ===== *)
(** * OutboxProps: what the outbox guarantees

    The stored queue refines a list of entries with distinct ids; final entries
    stay final and hold no content; retries back off within bounds. *)

From S2P Require Import Prelude Crypto Wire Identity UserId Records X3DH Group Message Delivery Storage LocalState LocalProps Groups Codecs Outbox Instances.
Import outbox.

(** ** Refinement *)
Section Refinement.
Context {crypto : Crypto} {S : Type} `{!Storage S, !LawfulStorage S, !Postcard OutboxEntry,
  !Postcard (list OutboxEntry), !Postcard (list LegacyOutboxEntry), !Postcard (list str)}.

Lemma load_entries_simr ids : simr (S := S) (load_entries ids) (load_entries ids).
Proof. induction ids as [|i ids IH]; cbn [load_entries]; solve_simr. Qed.
Hint Resolve load_entries_simr : sim.

Lemma outbox_load_simr : simr (S := S) load load.
Proof. unfold load. solve_simr. Qed.
Hint Resolve outbox_load_simr : sim.

Lemma old_ids_simr : simr (S := S) old_ids old_ids.
Proof. unfold old_ids. solve_simr. Qed.

Lemma put_if_changed_simr k v : simr (S := S) (put_if_changed k v) (put_if_changed k v).
Proof. unfold put_if_changed. solve_simr. Qed.
Hint Resolve old_ids_simr put_if_changed_simr : sim.

Lemma changed_entries_simr es : simr (S := S) (changed_entries es) (changed_entries es).
Proof. induction es as [|e es IH]; cbn [changed_entries]; solve_simr. Qed.
Hint Resolve changed_entries_simr : sim.

Lemma outbox_save_sim es : sim (S := S) (save es) (save es).
Proof. unfold save. solve_sim. Qed.
Hint Resolve outbox_save_sim : sim.

Lemma enqueue_at_sim i to sl it pt now t :
  sim (S := S) (enqueue_at i to sl it pt now t) (enqueue_at i to sl it pt now t).
Proof. unfold enqueue_at. destruct to. solve_sim. Qed.
Lemma enqueue_pairwise_sim i u r sl it pt now :
  sim (S := S) (enqueue_pairwise i u r sl it pt now) (enqueue_pairwise i u r sl it pt now).
Proof.
  unfold enqueue_pairwise. destruct (is_some pt && _); [apply sim_err|apply enqueue_at_sim].
Qed.
Lemma set_status_sim i s : sim (S := S) (set_status i s) (set_status i s).
Proof.
  unfold set_status. apply sim_bind; [eauto with sim|]. intros es.
  apply sim_bind; [|eauto with sim]. destruct (existsb _ es); eauto with sim.
Qed.
Lemma make_all_due_sim : sim (S := S) make_all_due make_all_due.
Proof. unfold make_all_due. solve_sim. Qed.
Lemma record_attempt_sim i now a : sim (S := S) (record_attempt i now a) (record_attempt i now a).
Proof.
  unfold record_attempt. apply sim_bind; [eauto with sim|]. intros es. cbv zeta.
  destruct (negb _); [eauto with sim|]. apply sim_bind; eauto with sim.
Qed.
Lemma readdress_pending_sim o n sl it :
  sim (S := S) (readdress_pending o n sl it) (readdress_pending o n sl it).
Proof.
  unfold readdress_pending. apply sim_bind; [eauto with sim|]. intros es. cbv zeta.
  destruct (_ && _); [eauto with sim|]. destruct (List.find _ es); [|eauto with sim].
  apply sim_bind; eauto with sim.
Qed.
End Refinement.
#[export] Hint Resolve outbox_load_simr outbox_save_sim enqueue_at_sim enqueue_pairwise_sim
  set_status_sim make_all_due_sim record_attempt_sim readdress_pending_sim : sim.

(** ** Saving and loading *)
Section Save.
Context {crypto : Crypto} `{!Postcard OutboxEntry, !Postcard (list OutboxEntry),
  !Postcard (list LegacyOutboxEntry), !Postcard (list str)}.

Lemma entry_key_index i : entry_key i ≠ INDEX_KEY.
Proof. intros H. apply (f_equal (λ k, nth 7 k zero_byte)) in H. discriminate H. Qed.
Lemma entry_key_legacy i : entry_key i ≠ LEGACY_KEY.
Proof. intros H. apply (f_equal (λ k, nth 6 k zero_byte)) in H. discriminate H. Qed.
Lemma entry_key_eq i j : entry_key i = entry_key j ↔ i = j.
Proof. apply key_prefix_inj. Qed.

Lemma load_entries_ids ids (m : Mem) es : load_entries ids m = Ok es → map id es = ids.
Proof.
  revert es. induction ids as [|i ids IH]; intros es; simpl; [by intros [= <-]|].
  destruct (m !! entry_key i) as [b|]; simpl; [|done].
  destruct (wire.decode b) as [e|]; simpl; [|done].
  destruct (bool_decide_reflect (id e = i)) as [<-|]; simpl; [|done].
  destruct (load_entries ids m) as [es'|]; simpl; [|done]. intros [= <-]. simpl. f_equal. by apply IH.
Qed.

Lemma old_ids_load (m : Mem) es : load m = Ok es → old_ids m = Ok (map id es).
Proof.
  intros Hl. unfold old_ids. simpl. destruct (m !! INDEX_KEY) as [b|] eqn:Hi; cbn [bind_result].
  - unfold load in Hl. simpl in Hl. rewrite Hi in Hl. cbn [bind_result] in Hl.
    destruct (decode_index b) as [ids|]; [|done]. cbn [bind_result] in Hl.
    by rewrite (load_entries_ids _ _ _ Hl).
  - by rewrite Hl.
Qed.

(** The entry stored under an id, and what the key of an id holds after a save. *)
Definition has_id (i : str) (e : OutboxEntry) : bool := bool_decide (id e = i).

Definition want (old : list str) (es : list OutboxEntry) (m : Mem) (key : bytes) : option bytes :=
  if decide (key = INDEX_KEY) then Some (wire.encode (map id es))
  else if decide (key = LEGACY_KEY) then None
  else match List.find (λ e, bool_decide (entry_key (id e) = key)) es with
       | Some e => Some (wire.encode e)
       | None => if existsb (λ i, bool_decide (entry_key i = key)) old then None else m !! key
       end.

Lemma want_entry old es m i :
  want old es m (entry_key i) =
  match List.find (has_id i) es with
  | Some e => Some (wire.encode e)
  | None => if decide (i ∈ old) then None else m !! entry_key i
  end.
Proof.
  unfold want. rewrite decide_False by apply entry_key_index.
  rewrite decide_False by apply entry_key_legacy.
  assert (List.find (λ e, bool_decide (entry_key (id e) = entry_key i)) es
          = List.find (has_id i) es) as ->.
  { apply find_ext. intros e. apply bool_decide_ext, entry_key_eq. }
  destruct (List.find (has_id i) es) as [e|]; [done|].
  assert (existsb (λ j, bool_decide (entry_key j = entry_key i)) old = bool_decide (i ∈ old)) as ->.
  { apply eq_true_iff_eq. rewrite existsb_elem, bool_decide_eq_true. setoid_rewrite bool_decide_eq_true.
    setoid_rewrite entry_key_eq. split; [by intros (j & Hj & ->)|by exists i]. }
  apply if_bool_decide.
Qed.

Lemma find_has_id es e :
  NoDup (map id es) → e ∈ es → List.find (has_id (id e)) es = Some e.
Proof.
  induction es as [|e' es IH]; simpl; [by intros _ []%elem_of_nil|].
  unfold has_id at 1. intros [Hout Hnd]%list.NoDup_cons [<-|Hin]%elem_of_cons;
    [by rewrite bool_decide_true|].
  rewrite bool_decide_false; [by apply IH|]. intros Heq. apply Hout. rewrite Heq.
  by apply list_elem_of_In, in_map, list_elem_of_In.
Qed.

Lemma changed_entries_run (m : Mem) es :
  ∃ l, changed_entries es m = Ok l ∧
    (∀ u, u ∈ l → ∃ e, e ∈ es ∧ u = Put (entry_key (id e)) (wire.encode e)) ∧
    (∀ e, e ∈ es → m !! entry_key (id e) = Some (wire.encode e) ∨
                   Put (entry_key (id e)) (wire.encode e) ∈ l).
Proof.
  induction es as [|e es (l & IH & H1 & H2)]; simpl.
  { exists []. split_and!; [done|by intros u []%elem_of_nil..]. }
  unfold put_if_changed. simpl. rewrite IH. cbn [bind_result]. eexists. split; [done|].
  case_bool_decide as Heq; simpl.
  - split.
    + intros u (e' & Hin & ->)%H1. exists e'. split; [by right|done].
    + intros e' [->|Hin]%elem_of_cons; auto.
  - split.
    + intros u [->|(e' & Hin & ->)%H1]%elem_of_cons; [exists e|exists e']; (split; [|done]).
      * by left.
      * by right.
    + intros e' [->|Hin]%elem_of_cons; [right; by left|].
      destruct (H2 _ Hin); [auto|right; by right].
Qed.

Lemma put_if_changed_run (m : Mem) key value :
  ∃ l, put_if_changed key value m = Ok l ∧
    (∀ u, u ∈ l → u = Put key value) ∧ (m !! key = Some value ∨ Put key value ∈ l).
Proof.
  unfold put_if_changed. simpl. eexists. split; [done|]. case_bool_decide; split.
  - by intros u []%elem_of_nil.
  - by left.
  - by intros u ->%list_elem_of_singleton.
  - right. by apply list_elem_of_singleton.
Qed.

Lemma outbox_save_run (m : Mem) old es :
  load m = Ok old → NoDup (map id es) →
  ∃ m', save es m = (Ok tt, m') ∧ ∀ key, m' !! key = want (map id old) es m key.
Proof.
  intros Hl Hnd. unfold save. rewrite (bindM_run _ _ _ _ _ (readM_run _ _ _ (old_ids_load _ _ Hl))).
  rewrite bool_decide_true by done. cbn [negb].
  destruct (changed_entries_run m es) as (l & Hc & Hl1 & Hl2).
  rewrite (bindM_run _ _ _ _ _ (readM_run _ _ _ Hc)).
  destruct (put_if_changed_run m INDEX_KEY (wire.encode (map id es))) as (ix & Hx & Hx1 & Hx2).
  rewrite (bindM_run _ _ _ _ _ (readM_run _ _ _ Hx)).
  assert (st_get LEGACY_KEY m = Ok (m !! LEGACY_KEY)) as Hleg by done.
  rewrite (bindM_run _ _ _ _ _ (readM_run _ _ _ Hleg)).
  eexists. split; [reflexivity|]. intros key. apply batch_reaches.
  - intros u Hu. rewrite !elem_of_app in Hu. destruct Hu as [[Hu|Hu]|[Hu|Hu]].
    + apply Hl1 in Hu as (e & Hin & ->). simpl. by rewrite want_entry, find_has_id.
    + rewrite list_elem_of_In in Hu. apply in_map_iff in Hu as (i & <- & Hi). simpl.
      rewrite <-list_elem_of_In, elem_of_filterb in Hi. destruct Hi as [Hold Hnew].
      rewrite contains_elem, negb_true_iff, bool_decide_eq_false in Hnew.
      rewrite want_entry. rewrite (proj2 (find_None_elem _ _)); [by rewrite decide_True|].
      intros e He. apply bool_decide_false. intros <-. apply Hnew.
      by apply list_elem_of_In, in_map, list_elem_of_In.
    + apply Hx1 in Hu as ->. simpl. unfold want. by rewrite decide_True.
    + destruct (is_some _); [|by apply elem_of_nil in Hu].
      apply list_elem_of_singleton in Hu as ->. simpl. unfold want.
      by rewrite decide_False, decide_True.
  - unfold want. destruct (decide (key = INDEX_KEY)) as [->|Hni].
    { destruct Hx2; [by left|right]. exists (Put INDEX_KEY (wire.encode (map id es))). split; [|done]. rewrite !elem_of_app. eauto. }
    destruct (decide (key = LEGACY_KEY)) as [->|Hnl].
    { destruct (m !! LEGACY_KEY) as [v|]; [right|by left]. exists (Delete LEGACY_KEY).
      split; [|done]. rewrite !elem_of_app. simpl. do 2 right. by apply list_elem_of_singleton. }
    destruct (List.find _ es) as [e|] eqn:Hf.
    + apply find_Some_elem in Hf as [Hin <-%bool_decide_eq_true].
      destruct (Hl2 e Hin); [by left|right]. exists (Put (entry_key (id e)) (wire.encode e)).
      split; [|done]. rewrite !elem_of_app. eauto.
    + destruct (existsb _ _) eqn:Hex; [|by left]. right.
      apply existsb_elem in Hex as (i & Hi & <-%bool_decide_eq_true).
      exists (Delete (entry_key i)). split; [|done]. rewrite !elem_of_app. left. right.
      apply list_elem_of_In, in_map_iff. exists i. split; [done|].
      rewrite <-list_elem_of_In, elem_of_filterb. split; [done|].
      rewrite contains_elem, negb_true_iff, bool_decide_eq_false. intros He.
      apply list_elem_of_In, in_map_iff in He as (e & <- & He). rewrite <-list_elem_of_In in He.
      rewrite find_None_elem in Hf. specialize (Hf e He). by rewrite bool_decide_true in Hf.
Qed.

Lemma load_entries_want (m m' : Mem) old (all es : list OutboxEntry) :
  (∀ key, m' !! key = want old all m key) → NoDup (map id all) → (∀ e, e ∈ es → e ∈ all) →
  load_entries (map id es) m' = Ok es.
Proof.
  intros Hm Hnd. induction es as [|e es IH]; intros Hsub; simpl; [done|].
  rewrite Hm, want_entry, find_has_id; [|done|apply Hsub; by left]. cbn [ok_or bind_result].
  rewrite wire.decode_encode. cbn [map_err bind_result]. rewrite bool_decide_true by done.
  cbn [negb]. rewrite IH; [done|]. intros e' ?. apply Hsub. by right.
Qed.

(** Saving a list with distinct ids makes it the queue. *)
Lemma outbox_save_load (m : Mem) old es :
  load m = Ok old → NoDup (map id es) →
  ∃ m', save es m = (Ok tt, m') ∧ load m' = Ok es ∧
        ∀ key, m' !! key = want (map id old) es m key.
Proof.
  intros Hl Hnd. destruct (outbox_save_run m old es Hl Hnd) as (m' & Hs & Hm).
  exists m'. split_and!; [done| |done]. unfold load. simpl. rewrite Hm. unfold want at 1.
  rewrite decide_True by done. cbn [bind_result]. unfold decode_index. rewrite wire.decode_encode.
  cbn [map_err bind_result]. by apply (load_entries_want m m' (map id old) es es).
Qed.
End Save.

(** ** Operations on the list of entries *)
Inductive op : Type :=
  | Enqueue (id' : str) (to : str * str) (slot' : str) (item' : MailItem)
      (plaintext : option bytes) (now send_after' : u64)
  | MarkDelivered (id' : str)
  | MarkCancelled (id' : str)
  | MarkFailed (id' : str)
  | MakeAllDue
  | RecordAttempt (id' : str) (now : u64) (accepted : bool)
  | Readdress (old_id new_id new_slot : str) (new_item : MailItem).

Section Spec.
Context {crypto : Crypto}.

Definition mark (i : str) (s : OutboxStatus) (es : list OutboxEntry)
    : result error bool * list OutboxEntry :=
  (Ok (existsb (has_id i) es), map (λ e, if has_id i e then apply_status s e else e) es).

(** The meaning of an operation on the queue: its answer and the new queue. *)
Definition spec (o : op) (es : list OutboxEntry) : result error bool * list OutboxEntry :=
  match o with
  | Enqueue i to sl it pt now t =>
      match List.find (has_id i) es with
      | Some e =>
          if bool_decide (recipient_user_id e = to.1) && bool_decide (slot e = sl)
          then (Ok true, es)
          else (Err (Anyhow b#"delivery id already belongs to another outbox item"), es)
      | None => (Ok true, es ++ [mkEntry i to.1 to.2 sl (Some it) now (U32 0) t Pending pt])
      end
  | MarkDelivered i => mark i Delivered es
  | MarkCancelled i => mark i Cancelled es
  | MarkFailed i => mark i Failed es
  | MakeAllDue => (Ok true, map (λ e, if is_pending e then set_send_after (U64 0) e else e) es)
  | RecordAttempt i now a =>
      let hit e := has_id i e && is_pending e in
      (Ok (existsb hit es), map (λ e, if hit e then attempted now a e else e) es)
  | Readdress i j sl it =>
      let hit e := has_id i e && is_pending e in
      if negb (bool_decide (j = i)) && existsb (has_id j) es
      then (Err (Anyhow b#"readdressed delivery id already exists"), es)
      else (Ok (existsb hit es), update_first hit (readdressed j sl it) es)
  end.

(** The operation of the code, with [true] for the unit answers. *)
Definition run {S} `{!Storage S, !Postcard OutboxEntry, !Postcard (list OutboxEntry),
    !Postcard (list LegacyOutboxEntry), !Postcard (list str)} (o : op) : M S bool :=
  match o with
  | Enqueue i to sl it pt now t => let! _ := enqueue_at i to sl it pt now t in retM true
  | MarkDelivered i => mark_delivered i
  | MarkCancelled i => mark_cancelled i
  | MarkFailed i => mark_failed i
  | MakeAllDue => let! _ := make_all_due in retM true
  | RecordAttempt i now a => record_attempt i now a
  | Readdress i j sl it => readdress_pending i j sl it
  end.

Definition run_all {S} `{!Storage S, !Postcard OutboxEntry, !Postcard (list OutboxEntry),
    !Postcard (list LegacyOutboxEntry), !Postcard (list str)} (os : list op) (s : S) : S :=
  fold_left (λ s o, (run o s).2) os s.
End Spec.

(** *** Facts about the meaning *)
Section SpecFacts.
Context {crypto : Crypto}.

Lemma map_id_if (p : OutboxEntry → bool) (f : OutboxEntry → OutboxEntry) es :
  (∀ e, id (f e) = id e) → map id (map (λ e, if p e then f e else e) es) = map id es.
Proof.
  intros H. rewrite map_map. apply map_ext. intros e. destruct (p e); [apply H|done].
Qed.

Lemma id_apply_status s e : id (apply_status s e) = id e.
Proof. unfold apply_status. by destruct (bool_decide _). Qed.
Lemma id_attempted now a e : id (attempted now a e) = id e.
Proof. unfold attempted. by destruct a. Qed.

Lemma update_first_none {A} (p : A → bool) f (l : list A) :
  existsb p l = false → update_first p f l = l.
Proof.
  induction l as [|x l IH]; simpl; [done|]. intros [Hx Hl]%orb_false_iff. by rewrite Hx, IH.
Qed.

Lemma map_if_none {A} (p : A → bool) (f : A → A) (l : list A) :
  existsb p l = false → map (λ x, if p x then f x else x) l = l.
Proof.
  induction l as [|x l IH]; simpl; [done|]. intros [Hx Hl]%orb_false_iff. by rewrite Hx, IH.
Qed.

Lemma find_existsb {A} (p : A → bool) l :
  existsb p l = match List.find p l with Some _ => true | None => false end.
Proof. induction l as [|x l IH]; simpl; [done|]. by destruct (p x). Qed.

(** Renaming the first entry of an id to a fresh id keeps the ids distinct. *)
Lemma NoDup_readdress (p : OutboxEntry → bool) f (es : list OutboxEntry) (j : str) :
  NoDup (map id es) → j ∉ map id es → (∀ e, id (f e) = j) →
  NoDup (map id (update_first p f es)).
Proof.
  intros Hnd Hj Hf. induction es as [|e es IH]; simpl; [done|].
  simpl in Hnd, Hj. apply list.NoDup_cons in Hnd as [He Hnd].
  rewrite not_elem_of_cons in Hj. destruct Hj as [Hje Hj].
  destruct (p e); simpl; apply list.NoDup_cons; [by rewrite Hf|]. split; [|by apply IH].
  intros Hin%list_elem_of_In. apply in_map_iff in Hin as (e' & He' & Hin).
  assert (id e' = j ∨ id e' ∈ map id es) as [E|E]; [|congruence|by rewrite He' in E].
  clear -Hin Hf. induction es as [|x es IH]; simpl in *; [done|]. destruct (p x); simpl in *.
  - destruct Hin as [<-|Hin]; [by left; rewrite Hf|].
    right. right. by apply list_elem_of_In, in_map.
  - destruct Hin as [<-|Hin]; [right; by left|].
    destruct (IH Hin); [by left|right; by right].
Qed.

Lemma has_id_elem i es : existsb (has_id i) es = false → i ∉ map id es.
Proof.
  intros H Hin%list_elem_of_In. apply in_map_iff in Hin as (e & <- & He).
  apply list_elem_of_In in He. rewrite existsb_false in H. specialize (H _ He).
  by apply bool_decide_eq_false in H.
Qed.

Lemma NoDup_spec o es : NoDup (map id es) → NoDup (map id (spec o es).2).
Proof.
  intros Hnd. destruct o; simpl; unfold mark; simpl.
  - destruct (List.find _ es) as [e|] eqn:Hf; simpl; [by destruct (_ && _)|].
    rewrite map_app. apply list.NoDup_app. split_and!; [done| |apply NoDup_singleton].
    intros x Hx. simpl. intros ->%list_elem_of_singleton. revert Hx. apply has_id_elem.
    by rewrite find_existsb, Hf.
  - rewrite map_id_if; [done|apply id_apply_status].
  - rewrite map_id_if; [done|apply id_apply_status].
  - rewrite map_id_if; [done|apply id_apply_status].
  - by rewrite map_id_if.
  - rewrite map_id_if; [done|apply id_attempted].
  - destruct (bool_decide_reflect (new_id = old_id)) as [->|Hne]; simpl.
    + rewrite (update_first_fst id); [done|]. by intros e [->%bool_decide_eq_true _]%andb_true_iff.
    + destruct (existsb (has_id new_id) es) eqn:He; simpl; [done|].
      apply (NoDup_readdress _ _ _ new_id); [done|by apply has_id_elem|done].
Qed.
End SpecFacts.

Section Queue.
Context {crypto : Crypto} `{!Postcard OutboxEntry, !Postcard (list OutboxEntry),
  !Postcard (list LegacyOutboxEntry), !Postcard (list str)}.

(** The store holds the queue [es], with distinct ids. *)
Definition queue (m : Mem) (es : list OutboxEntry) : Prop := load m = Ok es ∧ NoDup (map id es).

Lemma queue_save (m : Mem) es es' :
  queue m es → NoDup (map id es') → ∃ m', save es' m = (Ok tt, m') ∧ queue m' es'.
Proof.
  intros [Hl _] Hnd. destruct (outbox_save_load m es es' Hl Hnd) as (m' & H1 & H2 & _).
  by exists m'.
Qed.

(** Saves that end an operation. *)
Lemma queue_save_then (m : Mem) es es' (b : bool) :
  queue m es → NoDup (map id es') →
  ∃ m', (let! _ := save es' in retM b) m = (Ok b, m') ∧ queue m' es'.
Proof.
  intros Hq Hnd. destruct (queue_save m es es' Hq Hnd) as (m' & H1 & H2).
  exists m'. split; [|done]. by rewrite (bindM_run _ _ _ _ _ H1).
Qed.

Lemma run_mark (m : Mem) es i s :
  queue m es → ∃ m', set_status i s m = ((mark i s es).1, m') ∧ queue m' (mark i s es).2.
Proof.
  intros Hq. unfold set_status. rewrite (bindM_run _ _ _ _ _ (readM_run _ _ _ (proj1 Hq))).
  unfold mark. simpl. change (λ entry, bool_decide (id entry = i)) with (has_id i).
  destruct (existsb (has_id i) es) eqn:Hex.
  - apply (queue_save_then m es); [done|]. rewrite map_id_if; [apply Hq|apply id_apply_status].
  - exists m. split; [done|]. by rewrite map_if_none.
Qed.

Lemma run_spec (m : Mem) es o :
  queue m es → ∃ m', run o m = ((spec o es).1, m') ∧ queue m' (spec o es).2.
Proof.
  intros Hq. pose proof (NoDup_spec o es (proj2 Hq)) as Hnd.
  destruct o; cbn [run spec] in *; try by apply run_mark.
  - unfold enqueue_at, bindM at 1. destruct to as [u r]. simpl fst in *. simpl snd in *.
    rewrite (bindM_run _ _ _ _ _ (readM_run _ _ _ (proj1 Hq))).
    change (λ entry, bool_decide (id entry = id')) with (has_id id').
    destruct (List.find (has_id id') es) as [e|].
    + destruct (_ && _); by exists m.
    + destruct (queue_save m es _ Hq Hnd) as (m' & Hs & H). cbn [fst snd] in *.
      exists m'. by rewrite Hs.
  - unfold make_all_due, bindM at 1. rewrite (bindM_run _ _ _ _ _ (readM_run _ _ _ (proj1 Hq))).
    destruct (queue_save m es _ Hq Hnd) as (m' & Hs & H). cbn [fst snd] in *.
    exists m'. by rewrite Hs.
  - unfold record_attempt. rewrite (bindM_run _ _ _ _ _ (readM_run _ _ _ (proj1 Hq))).
    cbv zeta. change (λ entry, bool_decide (id entry = id') && is_pending entry)
      with (λ entry, has_id id' entry && is_pending entry).
    destruct (existsb _ es) eqn:Hex; cbn [negb].
    + by apply (queue_save_then m es).
    + exists m. split; [done|]. by rewrite (map_if_none _ _ _ Hex).
  - unfold readdress_pending. rewrite (bindM_run _ _ _ _ _ (readM_run _ _ _ (proj1 Hq))).
    cbv zeta in *. change (λ entry, bool_decide (id entry = old_id) && is_pending entry)
      with (λ entry, has_id old_id entry && is_pending entry).
    change (λ entry, bool_decide (id entry = new_id)) with (has_id new_id).
    destruct (_ && existsb _ es); [by exists m|]. rewrite find_existsb. cbn [fst snd] in *.
    destruct (List.find _ es) as [e|] eqn:Hf.
    + by apply (queue_save_then m es).
    + exists m. split; [done|]. rewrite update_first_none; [done|]. by rewrite find_existsb, Hf.
Qed.

(** C38: the stored outbox is a queue of entries with distinct ids, whatever the
    form it is stored in: each operation, run on the store, answers and leaves
    the queue exactly as its meaning on that list says, and does the same on
    every lawful storage backend unless the backend itself fails. *)
Theorem outbox_refines {S : Type} `{!Storage S, !LawfulStorage S} (m : Mem)
    (es : list OutboxEntry) (Hq : queue m es) :
  (∀ o, ∃ m', run o m = ((spec o es).1, m') ∧ queue m' (spec o es).2) ∧
  (∀ o, sim (S := S) (run o) (run o)).
Proof.
  split; [intros o; by apply run_spec|].
  intros []; cbn [run]; unfold mark_delivered, mark_cancelled, mark_failed; eauto with sim;
    apply sim_bind; eauto with sim.
Qed.
End Queue.

(** ** Final entries *)
Definition final (e : OutboxEntry) : Prop := status e ≠ Pending.
Definition erased (e : OutboxEntry) : Prop := item e = None ∧ pairwise_plaintext e = None.
Definition sealed (e : OutboxEntry) : Prop := final e → erased e.

(** How one delivery may change over time. *)
Record evolved (e e' : OutboxEntry) : Prop := {
  ev_recipient : recipient_user_id e' = recipient_user_id e;
  ev_created : created_at e' = created_at e;
  ev_final : final e → final e' ∧ id e' = id e ∧ slot e' = slot e;
  ev_sealed : sealed e → sealed e'
}.

Lemma evolved_refl e : evolved e e.
Proof. by split. Qed.
Lemma evolved_trans e1 e2 e3 : evolved e1 e2 → evolved e2 e3 → evolved e1 e3.
Proof.
  intros [R1 C1 F1 S1] [R2 C2 F2 S2]. split; [congruence..| |auto].
  intros (H2 & E2 & T2)%F1. destruct (F2 H2) as (H3 & E3 & T3). split_and!; congruence || done.
Qed.

#[export] Instance evolved_preorder : PreOrder evolved.
Proof. split; [exact evolved_refl|exact evolved_trans]. Qed.

Lemma Forall2_update_first {A} (R : A → A → Prop) (p : A → bool) f (l : list A) :
  (∀ x, R x x) → (∀ x, p x = true → R x (f x)) → Forall2 R l (update_first p f l).
Proof.
  intros Hr Hf. induction l as [|x l IH]; simpl; [done|].
  destruct (p x) eqn:Hp; constructor; auto. clear -Hr. by induction l; constructor.
Qed.
Lemma Forall2_map_if {A} (R : A → A → Prop) (p : A → bool) f (l : list A) :
  (∀ x, R x x) → (∀ x, p x = true → R x (f x)) →
  Forall2 R l (map (λ x, if p x then f x else x) l).
Proof.
  intros Hr Hf. induction l as [|x l IH]; simpl; [done|].
  constructor; [|done]. destruct (p x) eqn:Hp; auto.
Qed.

Lemma evolved_status s e : s ≠ Pending → evolved e (apply_status s e).
Proof.
  intros Hs. unfold apply_status. rewrite bool_decide_false by done. by split.
Qed.

Lemma is_pending_spec e : is_pending e = true → status e = Pending ∧ ∃ i, item e = Some i.
Proof.
  intros [H1%bool_decide_eq_true H2]%andb_true_iff. split; [done|].
  destruct (item e) as [i|]; [by exists i|done].
Qed.

Section Evolution.
Context {crypto : Crypto}.

Lemma evolved_attempted now a e : is_pending e = true → evolved e (attempted now a e).
Proof.
  intros [Hp _]%is_pending_spec. unfold attempted, final, sealed, erased.
  destruct a; split; try done; unfold final, sealed, erased in *; simpl; tauto.
Qed.
Lemma evolved_readdressed i sl it e : is_pending e = true → evolved e (readdressed i sl it e).
Proof.
  intros [Hp _]%is_pending_spec. split; try done; unfold final, sealed, erased; simpl; congruence.
Qed.
Lemma evolved_due e : is_pending e = true → evolved e (set_send_after (U64 0) e).
Proof. by split. Qed.

Lemma spec_evolves o es :
  ∃ es' extra, (spec o es).2 = es' ++ extra ∧ Forall2 evolved es es' ∧ Forall sealed extra.
Proof.
  assert (∀ i s, s ≠ Pending → Forall2 evolved es (mark i s es).2) as Hmark.
  { intros i s Hs. apply Forall2_map_if; [apply evolved_refl|]. intros e _.
    by apply evolved_status. }
  destruct o; cbn [spec];
    try (eexists _, []; rewrite app_nil_r; split_and!; [done|by apply Hmark|done]).
  - destruct (List.find _ es).
    + destruct (_ && _); exists es, []; by rewrite app_nil_r.
    + eexists es, [_]. split_and!; [done..|]. by apply Forall_singleton.
  - eexists _, []. rewrite app_nil_r. split_and!; [done| |done].
    apply Forall2_map_if; [apply evolved_refl|apply evolved_due].
  - eexists _, []. rewrite app_nil_r. split_and!; [done| |done].
    apply Forall2_map_if; [apply evolved_refl|]. intros e [_ H]%andb_true_iff.
    by apply evolved_attempted.
  - destruct (_ && existsb _ es); [exists es, []; by rewrite app_nil_r|].
    eexists _, []. rewrite app_nil_r. split_and!; [done| |done].
    apply Forall2_update_first; [apply evolved_refl|]. intros e [_ H]%andb_true_iff.
    by apply evolved_readdressed.
Qed.
End Evolution.

Section Lifetime.
Context {crypto : Crypto} `{!Postcard OutboxEntry, !Postcard (list OutboxEntry),
  !Postcard (list LegacyOutboxEntry), !Postcard (list str)}.

End Lifetime.

(** ** Backoff *)
Section Backoff.
Context {crypto : Crypto}.

(** The exponential part, in seconds. *)
Definition backoff (n : u32) : N := (5 * 2 ^ N.min (u_val n - 1) 10)%N.

Definition jitter_of (i : str) : N :=
  (byte_val (nth 0 (arr_bytes (payload_digest i)) zero_byte) mod 5)%N.

Lemma jitter_lt i : (jitter_of i < 5)%N.
Proof. by apply N.mod_lt. Qed.

Lemma backoff_bounds n : (5 ≤ backoff n ≤ 5120)%N.
Proof.
  unfold backoff. assert (N.min (u_val n - 1) 10 ≤ 10)%N as H by lia.
  pose proof (N.pow_le_mono_r 2 _ _ ltac:(done) H) as H2. change (2 ^ 10)%N with 1024%N in H2.
  assert (2 ^ N.min (u_val n - 1) 10 ≠ 0)%N by (by apply N.pow_nonzero). lia.
Qed.

Lemma retry_delay_val e :
  u_val (retry_delay e) = N.min 3600 (backoff (attempts e) + jitter_of (id e)).
Proof.
  pose proof (backoff_bounds (attempts e)). pose proof (jitter_lt (id e)).
  unfold retry_delay. cbv zeta. unfold saturating_add, uleb, RETRY_BASE_SECS, RETRY_MAX_SECS.
  rewrite N.shiftl_1_l. change (u_val (U64 5)) with 5%N. change (u_val (U64 (60 * 60))) with 3600%N.
  fold (backoff (attempts e)). fold (jitter_of (id e)).
  rewrite !u_val_usat. rewrite u_val_uwrap_small
    by (change (2 ^ 64)%N with 18446744073709551616%N; lia).
  change (2 ^ 64 - 1)%N with 18446744073709551615%N.
  rewrite (N.min_l (backoff _)) by lia.
  rewrite (N.min_l (backoff _ + _) 18446744073709551615) by lia.
  destruct (N.leb_spec (backoff (attempts e) + jitter_of (id e)) 3600).
  - rewrite u_val_usat. change (2 ^ 64 - 1)%N with 18446744073709551615%N. lia.
  - change (u_val (U64 (60 * 60))) with 3600%N. lia.
Qed.

(** an undeliverable item is retried, but gently: the delay is between five
    seconds and one hour, doubles with every failed attempt up to a spread of
    four seconds, never shrinks as attempts of the same delivery accumulate, and
    after a failed attempt the delivery keeps its content and is due again
    exactly that much later. *)
Theorem retry_backoff (e e' : OutboxEntry) (now : u64)
    (Hid : id e = id e') (Hattempts : (u_val (attempts e) ≤ u_val (attempts e'))%N) :
  (5 ≤ u_val (retry_delay e) ≤ 3600)%N ∧
  (u_val (attempts e) ≤ 10 → backoff (attempts e) ≤ u_val (retry_delay e)
                             ≤ backoff (attempts e) + 4)%N ∧
  (u_val (retry_delay e) ≤ u_val (retry_delay e'))%N ∧
  (let failed := attempted now false e in
   u_val (attempts failed) = N.min (u_val (attempts e) + 1) (2 ^ 32 - 1) ∧
   u_val (send_after failed) = N.min (u_val now + u_val (retry_delay failed)) (2 ^ 64 - 1) ∧
   item failed = item e ∧ pairwise_plaintext failed = pairwise_plaintext e ∧
   status failed = status e).
Proof.
  pose proof (backoff_bounds (attempts e)). pose proof (jitter_lt (id e)).
  rewrite !retry_delay_val, <-Hid. cbv zeta. split_and!.
  - lia.
  - lia.
  - intros Hn. assert (backoff (attempts e) ≤ 2560)%N; [|lia].
    unfold backoff. assert (N.min (u_val (attempts e) - 1) 10 ≤ 9)%N as Hm by lia.
    pose proof (N.pow_le_mono_r 2 _ _ ltac:(done) Hm) as H2. change (2 ^ 9)%N with 512%N in H2. lia.
  - assert (backoff (attempts e) ≤ backoff (attempts e'))%N; [|lia].
    unfold backoff. apply N.mul_le_mono_l, N.pow_le_mono_r; [done|lia].
  - cbn [attempts attempted set_attempts set_send_after]. unfold saturating_add.
    rewrite u_val_usat. change (u_val (U32 1)) with 1%N. reflexivity.
  - cbn [send_after attempted set_send_after attempts set_attempts id]. unfold saturating_add.
    rewrite u_val_usat, !retry_delay_val. reflexivity.
  - done.
  - done.
  - done.
Qed.
End Backoff.

(** ** One flush pass *)
Section Flush.
Context {crypto : Crypto} {X : Type}.

(** [deliver] called on each of a list of entries in turn. *)
Fixpoint deliver_all (deliver : OutboxEntry → X → Attempt * X) (es : list OutboxEntry) (x : X)
    : list Attempt * X :=
  match es with
  | [] => ([], x)
  | e :: es =>
      let '(a, x) := deliver e x in
      let '(rest, x) := deliver_all deliver es x in (a :: rest, x)
  end.

(** The outcome of one attempt, and of the attempts in order of the due entries. *)
Definition settle (now : u64) (a : Attempt) (e : OutboxEntry) : OutboxEntry :=
  match a with
  | ADelivered => finish Delivered e
  | ADrop => finish Failed e
  | ARetry =>
      let e := set_attempts (wrapping_succ (attempts e)) e in
      set_send_after (saturating_add now (retry_delay e)) e
  end.

Fixpoint settle_all (now : u64) (answers : list Attempt) (es : list OutboxEntry)
    : list OutboxEntry :=
  match es with
  | [] => []
  | e :: es =>
      if is_due e now then
        match answers with
        | a :: answers => settle now a e :: settle_all now answers es
        | [] => e :: settle_all now [] es
        end
      else e :: settle_all now answers es
  end.

Definition is_delivered (a : Attempt) : bool := match a with ADelivered => true | _ => false end.

(** a flush pass tries exactly the due entries, each once and in queue
    order, whatever stateful delivery function it is given: entries that are
    final or not yet due are kept untouched and never handed over, every due
    entry is settled by its own answer, and the count is that of the delivered
    ones. *)
Theorem flush_pass_exact (es : list OutboxEntry) (now : u64)
    (deliver : OutboxEntry → X → Attempt * X) (x : X) :
  let '(answers, x') := deliver_all deliver (List.filter (λ e, is_due e now) es) x in
  flush_pass es now deliver x =
    (length (List.filter is_delivered answers), settle_all now answers es, x') ∧
  length answers = length (List.filter (λ e, is_due e now) es).
Proof.
  revert x. induction es as [|e es IH]; intros x; simpl; [done|].
  unfold flush_entry. destruct (is_due e now) eqn:Hd; cbn [negb deliver_all].
  - destruct (deliver e x) as [a x1]. specialize (IH x1).
    destruct (deliver_all _ _ x1) as [answers x2]. destruct IH as [IH1 IH2].
    destruct a; rewrite IH1; simpl; auto.
  - specialize (IH x). destruct (deliver_all _ _ x) as [answers x2]. destruct IH as [-> IH2]. auto.
Qed.
End Flush.

(** ** Saving, exactly *)
Section SaveExact.
Context {crypto : Crypto} `{!Postcard OutboxEntry, !Postcard (list OutboxEntry),
  !Postcard (list LegacyOutboxEntry), !Postcard (list str)}.

(** rewriting the queue is all or nothing: a list with a repeated id is
    refused and changes nothing; otherwise loading returns exactly the list
    that was saved, the stored content of every delivery that left the queue is
    erased, the legacy form is gone, and no other component's key is touched. *)
Theorem outbox_save_exact (m : Mem) (old es : list OutboxEntry) (Hl : load m = Ok old) :
  (¬ NoDup (map id es) →
   save es m = (Err (Anyhow b#"outbox contains duplicate delivery ids"), m)) ∧
  (NoDup (map id es) →
   ∃ m', save es m = (Ok tt, m') ∧ load m' = Ok es ∧
     (∀ i, i ∈ map id old → i ∉ map id es → m' !! entry_key i = None) ∧
     m' !! LEGACY_KEY = None ∧
     (∀ key, key ≠ INDEX_KEY → key ≠ LEGACY_KEY → (∀ i, key ≠ entry_key i) → m' !! key = m !! key)).
Proof.
  split.
  - intros Hdup. unfold save. rewrite (bindM_run _ _ _ _ _ (readM_run _ _ _ (old_ids_load _ _ Hl))).
    by rewrite bool_decide_false.
  - intros Hnd. destruct (outbox_save_load m old es Hl Hnd) as (m' & H1 & H2 & Hm).
    exists m'. split_and!; [done|done|..].
    + intros i Hold Hnew. rewrite Hm, want_entry, decide_True by done.
      destruct (List.find (has_id i) es) eqn:Hf; [|done].
      exfalso. revert Hnew. assert (existsb (has_id i) es = true) as Hex.
      { by rewrite find_existsb, Hf. }
      apply existsb_elem in Hex as (e & He & <-%bool_decide_eq_true). intros Hnew. apply Hnew.
      by apply list_elem_of_In, in_map, list_elem_of_In.
    + rewrite Hm. unfold want. by rewrite decide_False, decide_True.
    + intros key Hi Hleg Hk. rewrite Hm. unfold want. rewrite !decide_False by done.
      rewrite (proj2 (find_None_elem _ _)), (proj2 (existsb_false _ _)); [done|..].
      * intros i _. apply bool_decide_false. auto.
      * intros e _. apply bool_decide_false. auto.
Qed.
End SaveExact.

(** ** Witnesses *)
#[export] Instance OutboxStatus_codec : Codec OutboxStatus.
Proof.
  refine (codec_iso (B := N)
    (λ s, match s with Pending => 0 | Delivered => 1 | Failed => 2 | Cancelled => 3 end%N)
    (λ n, Some (match n with 0 => Pending | 1 => Delivered | 2 => Failed | _ => Cancelled end%N)) _).
  by intros [].
Defined.
#[export] Instance OutboxEntry_codec : Codec OutboxEntry.
Proof.
  refine (codec_iso
    (λ e, (id e, recipient_user_id e, recipient e, slot e, item e, created_at e, attempts e,
           send_after e, status e, pairwise_plaintext e))
    (λ '(i, u, r, s, m, c, a, t, st, p), Some (mkEntry i u r s m c a t st p)) _). by intros [].
Defined.
#[export] Instance LegacyOutboxEntry_codec : Codec LegacyOutboxEntry.
Proof.
  refine (codec_iso
    (λ e, (l_id e, l_recipient_user_id e, l_recipient e, l_slot e, l_item e, l_created_at e,
           l_attempts e, l_send_after e, l_status e))
    (λ '(i, u, r, s, m, c, a, t, st), Some (mkLegacy i u r s m c a t st)) _). by intros [].
Defined.

Definition toy_item : MailItem :=
  GroupText b#"g" (mkGroupMessage b#"a" (U32 0) b#"secret" b#"sig").
Definition toy_entry (i : string) : OutboxEntry :=
  mkEntry (bs i) b#"u" b#"mary" b#"abcd" (Some toy_item) (U64 100) (U32 0) (U64 0) Pending
    (Some b#"plain").

Definition toy_ops : list op :=
  [Enqueue b#"1" (b#"u", b#"mary") b#"abcd" toy_item None (U64 100) (U64 0);
   RecordAttempt b#"1" (U64 110) false; MarkCancelled b#"1";
   Readdress b#"1" b#"2" b#"ef" toy_item; MakeAllDue].

Lemma queue_empty : queue ∅ [].
Proof. split; [reflexivity|apply NoDup_nil_2]. Qed.

Lemma outbox_refines_witness :
  ∃ m', run (hd MakeAllDue toy_ops) (∅ : Mem) = (Ok true, m').
Proof.
  destruct (proj1 (outbox_refines (S := Mem) ∅ [] queue_empty) (hd MakeAllDue toy_ops))
    as (m' & H & _).
  exists m'. exact H.
Defined.


Lemma retry_backoff_witness :
  (5 ≤ u_val (retry_delay (toy_entry "1")) ≤ 3600)%N.
Proof.
  apply (retry_backoff (toy_entry "1") (toy_entry "1") (U64 0)); [reflexivity|].
  apply N.le_refl.
Defined.

Lemma outbox_save_exact_witness :
  ∃ m', save [toy_entry "1"; toy_entry "2"] (∅ : Mem) = (Ok tt, m') ∧
        load m' = Ok [toy_entry "1"; toy_entry "2"].
Proof.
  assert (load (∅ : Mem) = Ok []) as Hl by reflexivity.
  destruct (proj2 (outbox_save_exact ∅ [] [toy_entry "1"; toy_entry "2"] Hl)) as (m' & H1 & H2 & _).
  - apply (bool_decide_unpack _). reflexivity.
  - by exists m'.
Defined.
