(* ===== verification/Registry.v ===== *)
(** * Registry: [mycellium-registry/src/lib.rs] and [redb_store.rs]

    The account registry: its metadata store over an embedded transactional
    database, and the login and session service on top.  [redb] is an external
    crate: a class of ordered tables of text to bytes with the laws of its
    documentation.  A write transaction runs on a private copy that [commit]
    publishes; one that is dropped, or whose begin or commit fails, changes
    nothing. *)

From S2P Require Import Prelude Std Interleave Crypto Wire UserId.

(** ** Errors *)
Inductive RegistryErrorKind : Type := InvalidInput | Conflict | Internal.
Record RegistryError : Type := mkRegistryError { re_kind : RegistryErrorKind; re_message : str }.

Definition internal (message : str) : RegistryError := mkRegistryError Internal message.
Definition invalid (message : str) : RegistryError := mkRegistryError InvalidInput message.
Definition conflict (message : str) : RegistryError := mkRegistryError Conflict message.

Abbreviation Res := (result RegistryError).

(** ** Account ids

    A generated or parsed id is 32 lower-case hexadecimal digits
    ([account_valid]); the type itself, as the code's, holds any text. *)
Definition is_ascii_hexdigit (c : ascii) : bool :=
  is_ascii_digit c || in_range 97 102 c || in_range 65 70 c.

Record AccountId : Type := mkAccountId { aid : str }.
#[global] Instance AccountId_eq_dec : EqDecision AccountId.
Proof. solve_decision. Defined.

Definition account_valid (id : AccountId) : bool :=
  (length (aid id) =? 32)%nat && forallb UserId.is_lower_hex (aid id).

Definition account_from_str (s : str) : Res AccountId :=
  if negb (length s =? 32)%nat || negb (forallb is_ascii_hexdigit s)
  then Err (invalid b#"invalid account id")
  else Ok (mkAccountId (map to_ascii_lowercase s)).

(** ** The data *)
Inductive LoginIdentityKind : Type := Email.
#[global] Instance LoginIdentityKind_eq_dec : EqDecision LoginIdentityKind.
Proof. solve_decision. Defined.
Definition kind_str (k : LoginIdentityKind) : str := match k with Email => b#"email" end.

(** [struct LoginIdentityHash(String)] *)
Record LoginIdentityHash : Type := mkHash { hash_str : str }.
#[global] Instance LoginIdentityHash_eq_dec : EqDecision LoginIdentityHash.
Proof. solve_decision. Defined.

Record Account : Type := mkAccount {
  ac_id : AccountId; created_at : i64; updated_at : i64; display_handle : option str }.
Definition Account_new (id : AccountId) (now : i64) : Account := mkAccount id now now None.

Record LoginIdentity : Type := mkLoginIdentity {
  li_kind : LoginIdentityKind; li_value_hash : LoginIdentityHash;
  li_account_id : AccountId; verified_at : i64 }.

Record LoginToken : Type := mkLoginToken {
  lt_kind : LoginIdentityKind; lt_value_hash : LoginIdentityHash;
  lt_account_id : option AccountId; lt_expires_at : i64 }.

Record LoginChallenge : Type := mkLoginChallenge { lc_token : str; lc_expires_at : i64 }.
Record AccountLogin : Type := mkAccountLogin { al_account_id : AccountId; al_created : bool }.

Record Session : Type := mkSession {
  se_account_id : AccountId; se_token_hash : str; se_expires_at : i64 }.
Record SessionToken : Type := mkSessionToken {
  st_token : str; st_account_id : AccountId; st_expires_at : i64 }.

Record BlobRef : Type := mkBlobRef { bl_id : str; bl_size : u64; bl_sha256 : str }.
#[global] Instance BlobRef_eq_dec : EqDecision BlobRef.
Proof. solve_decision. Defined.

Inductive BlobSwap : Type :=
  | Applied (previous : option BlobRef)
  | Mismatch (current : option BlobRef).

Record RateLimitBucket : Type := mkBucket { rb_count : u64; rb_expires_at : i64 }.

Inductive AccountBlobKind : Type := Backup | Recovery | PublicRecord.
#[global] Instance AccountBlobKind_eq_dec : EqDecision AccountBlobKind.
Proof. solve_decision. Defined.
Definition blob_kind_str (k : AccountBlobKind) : str :=
  match k with
  | Backup => b#"backup" | Recovery => b#"recovery" | PublicRecord => b#"public_record"
  end.

(** ** State passing with registry errors *)
Definition R (S A : Type) : Type := S → Res A * S.
Definition retR {S A} (a : A) : R S A := λ s, (Ok a, s).
Definition errR {S A} (e : RegistryError) : R S A := λ s, (Err e, s).
Definition bindR {S A B} (m : R S A) (k : A → R S B) : R S B :=
  λ s, match m s with (Ok a, s) => k a s | (Err e, s) => (Err e, s) end.
Notation "'let%' x ':=' m 'in' k" := (bindR m (λ x, k))
  (at level 10, x pattern, m at level 100, k at level 200) : myc_scope.

(** [trait RegistryStore] *)
Class RegistryStore (S : Type) : Type := {
  put_login_token : str → LoginToken → R S unit;
  take_login_token : str → R S (option LoginToken);
  account_id_by_login : LoginIdentityKind → LoginIdentityHash → R S (option AccountId);
  get_or_create_account_for_login :
    LoginIdentityKind → LoginIdentityHash → Account → i64 → R S AccountLogin;
  account : AccountId → R S (option Account);
  compare_and_swap_blob_ref : AccountId → AccountBlobKind → option BlobRef → BlobRef → R S BlobSwap;
  blob_ref : AccountId → AccountBlobKind → R S (option BlobRef);
  compare_and_swap_public_record_ref :
    AccountId → UserId → option UserId → option BlobRef → BlobRef → R S BlobSwap;
  account_id_by_user_id : UserId → R S (option AccountId);
  replace_session : Session → R S unit;
  session : str → R S (option Session);
  bump_rate_limit : str → i64 → i64 → R S RateLimitBucket;
  purge_expired : i64 → nat → R S nat
}.
#[global] Hint Mode RegistryStore ! : typeclass_instances.

(** ** [redb_store.rs] *)
Inductive Table : Type :=
  | ACCOUNTS | LOGIN_INDEX | LOGIN_TOKENS | LOGIN_TOKEN_EXPIRY | BLOBS | RATES
  | ACCOUNT_SESSIONS | SESSION_INDEX | SESSION_EXPIRY | USER_INDEX | RATE_EXPIRY | META.
#[global] Instance Table_eq_dec : EqDecision Table.
Proof. solve_decision. Defined.

(** Tables ordered by key; inserting replaces, iterating visits every entry once
    in the order of the keys. *)
Class Redb (D : Type) : Type := {
  tbl_get : Table → str → D → option bytes;
  tbl_insert : Table → str → bytes → D → D;
  tbl_remove : Table → str → D → D;
  tbl_iter : Table → D → list (str * bytes)
}.
#[global] Hint Mode Redb ! : typeclass_instances.

Class RedbLaws (D : Type) `{!Redb D} : Prop := {
  get_insert t k v (d : D) t' k' :
    tbl_get t' k' (tbl_insert t k v d) = if decide (t = t' ∧ k = k') then Some v else tbl_get t' k' d;
  get_remove t k (d : D) t' k' :
    tbl_get t' k' (tbl_remove t k d) = if decide (t = t' ∧ k = k') then None else tbl_get t' k' d;
  iter_get t (d : D) k v : (k, v) ∈ tbl_iter t d ↔ tbl_get t k d = Some v;
  iter_sorted t (d : D) : StronglySorted (λ a c, bytes_leb a.1 c.1 = true ∧ a.1 ≠ c.1) (tbl_iter t d)
}.

Definition EXPIRY_INDEX_MARKER : str := b#"expiry_indexes_v1".

(** [struct RedbRegistryStore], and for each transaction to come whether the
    database fails it. *)
Record RedbRegistryStore (D : Type) : Type := mkRedbStore { rs_db : D; rs_faults : list bool }.
Arguments mkRedbStore {D} _ _.
Arguments rs_db {D} _.
Arguments rs_faults {D} _.

(** How the body of a write transaction ends: by a commit, or by a return that
    drops it. *)
Inductive TxEnd (D A : Type) : Type := Commit (a : A) (d : D) | Dropped (r : Res A).
Arguments Commit {D A} _ _.
Arguments Dropped {D A} _.

Notation "'let^' x ':=' r 'in' k" := (match r with Ok x => k | Err e => Dropped (Err e) end)
  (at level 10, x pattern, r at level 100, k at level 200) : myc_scope.

Section Redb.
Context {D : Type} `{!Redb D}.
Context `{!Json LoginToken, !Json Account, !Json LoginIdentity, !Json BlobRef, !Json Session,
  !Json RateLimitBucket}.
Abbreviation Store := (RedbRegistryStore D).

Definition encode_json {T} `{!Json T} (value : T) : Res bytes :=
  ok_or (internal b#"encode failed") (to_vec value).
Definition decode_json {T} `{!Json T} (input : bytes) : Res T :=
  ok_or (internal b#"decode failed") (from_slice input).

(** [.map(|value| decode_json(value.value())).transpose()?] *)
Definition decode_opt {T} `{!Json T} (found : option bytes) : Res (option T) :=
  match found with
  | None => Ok None
  | Some input => let? value := decode_json input in Ok (Some value)
  end.

Definition begin_write {A} (body : D → TxEnd D A) : R Store A := λ s,
  match rs_faults s with
  | true :: faults => (Err (internal b#"begin write failed"), mkRedbStore (rs_db s) faults)
  | faults =>
      match body (rs_db s) with
      | Commit a d => (Ok a, mkRedbStore d (tail faults))
      | Dropped r => (r, mkRedbStore (rs_db s) (tail faults))
      end
  end.

Definition begin_read {A} (body : D → Res A) : R Store A := begin_write (λ d, Dropped (body d)).

(** [parts.join(":")] *)
Fixpoint key (parts : list str) : str :=
  match parts with
  | [] => []
  | [part] => part
  | part :: rest => part ++ b#":" ++ key rest
  end.

Definition login_key (kind : LoginIdentityKind) (hash : LoginIdentityHash) : str :=
  key [b#"login"; kind_str kind; hash_str hash].
Definition blob_key (account_id : AccountId) (kind : AccountBlobKind) : str :=
  key [b#"blob"; aid account_id; blob_kind_str kind].

(** [format!("{:020}:{subject}", expires_at.max(0) as u64)] *)
Definition expiry_key (expires_at : i64) (subject : str) : str :=
  dec_fixed 20 (i_nonneg expires_at) ++ b#":" ++ subject.

Definition expiry_timestamp (k : str) : Res i64 :=
  let? (timestamp, _) := ok_or (internal b#"invalid expiry index key") (split_once ":" k) in
  ok_or (internal b#"invalid expiry index timestamp") (parse_i64 timestamp).

Definition expiry_subject (k : str) : Res str :=
  let? (_, subject) := ok_or (internal b#"invalid expiry index key") (split_once ":" k) in
  if bool_decide (subject = []) then Err (internal b#"empty expiry index subject") else Ok subject.

(** The stored bytes of an account id. *)
Definition stored_account (value : bytes) : Res AccountId :=
  let? id := ok_or (internal b#"stored account id is not utf-8") (from_utf8 value) in
  account_from_str id.

Definition redb_put_login_token (token_hash : str) (token : LoginToken) : R Store unit :=
  begin_write (λ d,
    let^ value := encode_json token in
    let d := tbl_insert LOGIN_TOKENS token_hash value d in
    let d := tbl_insert LOGIN_TOKEN_EXPIRY (expiry_key (lt_expires_at token) token_hash) [] d in
    Commit tt d).

Definition redb_take_login_token (token_hash : str) : R Store (option LoginToken) :=
  begin_write (λ d,
    match tbl_get LOGIN_TOKENS token_hash d with
    | None => Dropped (Ok None)
    | Some value =>
        let d := tbl_remove LOGIN_TOKENS token_hash d in
        let^ token := decode_json (T := LoginToken) value in
        let d := tbl_remove LOGIN_TOKEN_EXPIRY (expiry_key (lt_expires_at token) token_hash) d in
        Commit (Some token) d
    end).

Definition redb_account_id_by_login (kind : LoginIdentityKind) (hash : LoginIdentityHash)
    : R Store (option AccountId) :=
  begin_read (λ d,
    match tbl_get LOGIN_INDEX (login_key kind hash) d with
    | None => Ok None
    | Some value => let? id := stored_account value in Ok (Some id)
    end).

Definition redb_get_or_create_account_for_login (kind : LoginIdentityKind)
    (hash : LoginIdentityHash) (new_account : Account) (verified_at : i64) : R Store AccountLogin :=
  begin_write (λ d,
    let login_key := login_key kind hash in
    let^ existing :=
      match tbl_get LOGIN_INDEX login_key d with
      | Some value => let? id := stored_account value in Ok (Some id)
      | None => Ok None
      end in
    match existing with
    | Some account_id => Commit (mkAccountLogin account_id false) d
    | None =>
        let account_id := ac_id new_account in
        let d := tbl_insert LOGIN_INDEX login_key (aid account_id) d in
        let^ account_bytes := encode_json new_account in
        let d := tbl_insert ACCOUNTS (aid account_id) account_bytes d in
        let identity := mkLoginIdentity kind hash account_id verified_at in
        let identity_key := key [b#"login_identity"; aid account_id; kind_str kind] in
        let^ identity_bytes := encode_json identity in
        let d := tbl_insert BLOBS identity_key identity_bytes d in
        Commit (mkAccountLogin account_id true) d
    end).

Definition redb_account (id : AccountId) : R Store (option Account) :=
  begin_read (λ d, decode_opt (tbl_get ACCOUNTS (aid id) d)).

Definition redb_compare_and_swap_blob_ref (account_id : AccountId) (kind : AccountBlobKind)
    (expected : option BlobRef) (next : BlobRef) : R Store BlobSwap :=
  begin_write (λ d,
    let^ current := decode_opt (T := BlobRef) (tbl_get BLOBS (blob_key account_id kind) d) in
    if negb (bool_decide (current = expected)) then Dropped (Ok (Mismatch current))
    else
      let^ blob_bytes := encode_json next in
      let d := tbl_insert BLOBS (blob_key account_id kind) blob_bytes d in
      Commit (Applied current) d).

Definition redb_blob_ref (account_id : AccountId) (kind : AccountBlobKind) : R Store (option BlobRef) :=
  begin_read (λ d, decode_opt (tbl_get BLOBS (blob_key account_id kind) d)).

Definition redb_compare_and_swap_public_record_ref (account_id : AccountId) (user_id : UserId)
    (previous_user_id : option UserId) (expected : option BlobRef) (next : BlobRef)
    : R Store BlobSwap :=
  begin_write (λ d,
    let^ current :=
      decode_opt (T := BlobRef) (tbl_get BLOBS (blob_key account_id PublicRecord) d) in
    if negb (bool_decide (current = expected)) then Dropped (Ok (Mismatch current))
    else
      let user := UserId.as_str user_id in
      if match tbl_get USER_INDEX user d with
         | Some existing => negb (bool_decide (existing = aid account_id))
         | None => false
         end
      then Dropped (Err (conflict b#"protocol user id is already bound to another account"))
      else
        let d := tbl_insert USER_INDEX user (aid account_id) d in
        let d :=
          match previous_user_id with
          | Some previous =>
              if negb (bool_decide (previous = user_id))
                 && bool_decide (tbl_get USER_INDEX (UserId.as_str previous) d = Some (aid account_id))
              then tbl_remove USER_INDEX (UserId.as_str previous) d else d
          | None => d
          end in
        let^ blob_bytes := encode_json next in
        let d := tbl_insert BLOBS (blob_key account_id PublicRecord) blob_bytes d in
        Commit (Applied current) d).

Definition redb_account_id_by_user_id (user_id : UserId) : R Store (option AccountId) :=
  begin_read (λ d,
    match tbl_get USER_INDEX (UserId.as_str user_id) d with
    | None => Ok None
    | Some value => let? id := stored_account value in Ok (Some id)
    end).

Definition redb_replace_session (session : Session) : R Store unit :=
  begin_write (λ d,
    let account := aid (se_account_id session) in
    let^ previous := decode_opt (T := Session) (tbl_get ACCOUNT_SESSIONS account d) in
    let^ session_bytes := encode_json session in
    let d := tbl_insert ACCOUNT_SESSIONS account session_bytes d in
    let d :=
      match previous with
      | Some previous =>
          let d := tbl_remove SESSION_INDEX (se_token_hash previous) d in
          tbl_remove SESSION_EXPIRY (expiry_key (se_expires_at previous) account) d
      | None => d
      end in
    let d := tbl_insert SESSION_INDEX (se_token_hash session) account d in
    let d := tbl_insert SESSION_EXPIRY (expiry_key (se_expires_at session) account)
               (se_token_hash session) d in
    Commit tt d).

Definition redb_session (token_hash : str) : R Store (option Session) :=
  begin_read (λ d,
    match tbl_get SESSION_INDEX token_hash d with
    | None => Ok None
    | Some value =>
        let? account_id := ok_or (internal b#"stored account id is not utf-8") (from_utf8 value) in
        match tbl_get ACCOUNT_SESSIONS account_id d with
        | None => Ok None
        | Some value =>
            let? session := decode_json (T := Session) value in
            if negb (bool_decide (se_token_hash session = token_hash)) then Ok None
            else Ok (Some session)
        end
    end).

Definition u_saturating_succ (n : u64) : u64 := saturating_add n (U64 1).

Definition redb_bump_rate_limit (k : str) (now window_secs : i64) : R Store RateLimitBucket :=
  if bool_decide (k = []) || i_leb window_secs (I64 0)
  then errR (internal b#"invalid rate-limit bucket")
  else
    begin_write (λ d,
      let^ current := decode_opt (T := RateLimitBucket) (tbl_get RATES k d) in
      let fresh := mkBucket (U64 1) (i_saturating_add now window_secs) in
      let next :=
        match current with
        | Some bucket =>
            if i_ltb now (rb_expires_at bucket)
            then mkBucket (u_saturating_succ (rb_count bucket)) (rb_expires_at bucket) else fresh
        | None => fresh
        end in
      let^ input := encode_json next in
      let d := tbl_insert RATES k input d in
      let d :=
        match current with
        | Some previous => tbl_remove RATE_EXPIRY (expiry_key (rb_expires_at previous) k) d
        | None => d
        end in
      let d := tbl_insert RATE_EXPIRY (expiry_key (rb_expires_at next) k) [] d in
      Commit next d).

(** ** Cleanup *)

(** The collecting loop of a cleanup pass: [item] reads one index entry, at most
    [room] entries are taken, and the first entry that is not due ends it. *)
Fixpoint collect_due {X} (item : str → bytes → i64 → Res X) (now : i64) (room : nat)
    (entries : list (str * bytes)) : Res (list X) :=
  match entries with
  | [] => Ok []
  | (k, v) :: rest =>
      let? expires_at := expiry_timestamp k in
      if i_ltb now expires_at then Ok []
      else
        let? x := item k v expires_at in
        match room with
        | S (S room) => let? xs := collect_due item now (S room) rest in Ok (x :: xs)
        | _ => Ok [x]
        end
  end.

Definition login_item (k : str) (v : bytes) (expires_at : i64) : Res (str * str) :=
  let? subject := expiry_subject k in Ok (k, subject).

Definition session_item (k : str) (v : bytes) (expires_at : i64) : Res (str * str * str * i64) :=
  let? token_hash := ok_or (internal b#"stored session token hash is not utf-8") (from_utf8 v) in
  let? subject := expiry_subject k in
  Ok (k, subject, token_hash, expires_at).

Definition rate_item (k : str) (v : bytes) (expires_at : i64) : Res (str * str * i64) :=
  let? subject := expiry_subject k in Ok (k, subject, expires_at).

Definition drop_login (d : D) (due : str * str) : D :=
  let '(index_key, token_hash) := due in
  let d := tbl_remove LOGIN_TOKENS token_hash d in
  tbl_remove LOGIN_TOKEN_EXPIRY index_key d.

Definition drop_session (d : D) (due : str * str * str * i64) : Res D :=
  let '(index_key, account, token_hash, expires_at) := due in
  let? current := decode_opt (T := Session) (tbl_get ACCOUNT_SESSIONS account d) in
  let d :=
    match current with
    | Some session =>
        if bool_decide (se_token_hash session = token_hash)
           && bool_decide (se_expires_at session = expires_at)
        then
          let d := tbl_remove ACCOUNT_SESSIONS account d in
          tbl_remove SESSION_INDEX token_hash d
        else d
    | None => d
    end in
  Ok (tbl_remove SESSION_EXPIRY index_key d).

Definition drop_rate (d : D) (due : str * str * i64) : Res D :=
  let '(index_key, rate_key, expires_at) := due in
  let? current := decode_opt (T := RateLimitBucket) (tbl_get RATES rate_key d) in
  let d :=
    match current with
    | Some bucket =>
        if bool_decide (rb_expires_at bucket = expires_at) then tbl_remove RATES rate_key d else d
    | None => d
    end in
  Ok (tbl_remove RATE_EXPIRY index_key d).

Fixpoint drop_all {X} (drop : D → X → Res D) (d : D) (due : list X) : Res D :=
  match due with
  | [] => Ok d
  | x :: rest => let? d := drop d x in drop_all drop d rest
  end.

(** One pass over one index: what is left of [limit] bounds it. *)
Definition purge_pass {X} (t : Table) (item : str → bytes → i64 → Res X) (drop : D → X → Res D)
    (now : i64) (limit removed : nat) (d : D) : Res (nat * D) :=
  if (removed <? limit)%nat then
    let? due := collect_due item now (limit - removed) (tbl_iter t d) in
    let? d := drop_all drop d due in
    Ok ((removed + length due)%nat, d)
  else Ok (removed, d).

Definition redb_purge_expired (now : i64) (limit : nat) : R Store nat :=
  if (limit =? 0)%nat then retR 0%nat
  else
    begin_write (λ d,
      let^ (removed, d) :=
        purge_pass LOGIN_TOKEN_EXPIRY login_item (λ d due, Ok (drop_login d due)) now limit 0 d in
      let^ (removed, d) := purge_pass SESSION_EXPIRY session_item drop_session now limit removed d in
      let^ (removed, d) := purge_pass RATE_EXPIRY rate_item drop_rate now limit removed d in
      Commit removed d).

(** ** Opening: the expiry indexes of an older database are filled once *)
Fixpoint backfill {T} `{!Json T} (index : D → str → T → D) (entries : list (str * bytes)) (d : D)
    : Res D :=
  match entries with
  | [] => Ok d
  | (k, v) :: rest => let? value := decode_json v in backfill index rest (index d k value)
  end.

Definition index_login (d : D) (token_hash : str) (token : LoginToken) : D :=
  tbl_insert LOGIN_TOKEN_EXPIRY (expiry_key (lt_expires_at token) token_hash) [] d.
Definition index_session (d : D) (account : str) (session : Session) : D :=
  tbl_insert SESSION_EXPIRY (expiry_key (se_expires_at session) account) (se_token_hash session) d.
Definition index_rate (d : D) (rate_key : str) (bucket : RateLimitBucket) : D :=
  tbl_insert RATE_EXPIRY (expiry_key (rb_expires_at bucket) rate_key) [] d.

Definition init : R Store unit :=
  begin_write (λ d,
    match tbl_get META EXPIRY_INDEX_MARKER d with
    | Some _ => Commit tt d
    | None =>
        let logins := tbl_iter LOGIN_TOKENS d in
        let sessions := tbl_iter ACCOUNT_SESSIONS d in
        let rates := tbl_iter RATES d in
        let^ d := backfill index_login logins d in
        let^ d := backfill index_session sessions d in
        let^ d := backfill index_rate rates d in
        Commit tt (tbl_insert META EXPIRY_INDEX_MARKER b#"1" d)
    end).

#[export] Instance redb_registry_store : RegistryStore Store := {|
  put_login_token := redb_put_login_token;
  take_login_token := redb_take_login_token;
  account_id_by_login := redb_account_id_by_login;
  get_or_create_account_for_login := redb_get_or_create_account_for_login;
  account := redb_account;
  compare_and_swap_blob_ref := redb_compare_and_swap_blob_ref;
  blob_ref := redb_blob_ref;
  compare_and_swap_public_record_ref := redb_compare_and_swap_public_record_ref;
  account_id_by_user_id := redb_account_id_by_user_id;
  replace_session := redb_replace_session;
  session := redb_session;
  bump_rate_limit := redb_bump_rate_limit;
  purge_expired := redb_purge_expired
|}.
End Redb.

(** ** The service *)
Section Service.
Context {crypto : Crypto}.

Definition sha256_hex (input : bytes) : str := hex (sha256 input).

Definition normalize_email (email : str) : Res str :=
  let email := map to_ascii_lowercase (trim email) in
  if bool_decide (email = []) || (320 <? length email)%nat
     || negb (existsb (λ c, bool_decide (c = "@"%char)) email)
     || existsb (λ c, (byte_val c <? 32)%N || (byte_val c =? 127)%N) email
  then Err (invalid b#"invalid email") else Ok email.

Definition hash_login_identity (kind : LoginIdentityKind) (normalized : str) : LoginIdentityHash :=
  mkHash (hex (sha256
    (b#"mycellium-registry-login-identity-v1:" ++ kind_str kind ++ b#":" ++ normalized))).

Definition LoginIdentityHash_email (email : str) : Res LoginIdentityHash :=
  let? normalized := normalize_email email in Ok (hash_login_identity Email normalized).

Definition token_hash (token : str) : str :=
  hex (sha256 (b#"mycellium-registry-login-token-v1:" ++ token)).

(** [Registry<S>], and what [getrandom] will answer. *)
Record Registry (S : Type) : Type := mkRegistry { store : S; random : list (option bytes) }.
Arguments mkRegistry {S} _ _.
Arguments store {S} _.
Arguments random {S} _.

Context {S : Type} `{!RegistryStore S}.
Abbreviation Rg A := (Prog (Registry S) RegistryError A).

(** A call of the store is one step; other requests may run between two. *)
Definition on_reg {A} (m : R S A) : Rg A :=
  atomic (λ r, let '(a, s) := m (store r) in (a, mkRegistry s (random r))).

Definition reg_getrandom (n : nat) : Rg (arr n) :=
  atomic (λ r,
    match random r with
    | None :: rest => (Err (internal b#"randomness failed"), mkRegistry (store r) rest)
    | Some b :: rest => (Ok (arr_fit n b), mkRegistry (store r) rest)
    | [] => (Ok (arr_fit n []), r)
    end).

Definition random_token : Rg str := let# b := reg_getrandom 32 in okP (hex b).

Definition AccountId_generate : Rg AccountId :=
  let# b := reg_getrandom 16 in okP (mkAccountId (hex b)).

Definition request_email_login (email : str) (now ttl_secs : i64) : Rg LoginChallenge :=
  if i_leb ttl_secs (I64 0) then errP (invalid b#"login ttl must be positive")
  else
    let# value_hash := Ret (LoginIdentityHash_email email) in
    let# account_id := on_reg (account_id_by_login Email value_hash) in
    let# token := random_token in
    let expires_at := i_saturating_add now ttl_secs in
    let# _ := on_reg (put_login_token (token_hash token)
                        (mkLoginToken Email value_hash account_id expires_at)) in
    okP (mkLoginChallenge token expires_at).

Definition confirm_login (token : str) (now : i64) : Rg AccountLogin :=
  let# found := on_reg (take_login_token (token_hash token)) in
  match found with
  | None => errP (invalid b#"invalid login token")
  | Some login =>
      if i_leb (lt_expires_at login) now then errP (invalid b#"expired login token")
      else
        match lt_account_id login with
        | Some account_id => okP (mkAccountLogin account_id false)
        | None =>
            let# id := AccountId_generate in
            on_reg (get_or_create_account_for_login (lt_kind login) (lt_value_hash login)
                      (Account_new id now) now)
        end
  end.

Definition create_session (account_id : AccountId) (now ttl_secs : i64) : Rg SessionToken :=
  if i_leb ttl_secs (I64 0) then errP (invalid b#"session ttl must be positive")
  else
    let# token := random_token in
    let expires_at := i_saturating_add now ttl_secs in
    let# _ := on_reg (replace_session (mkSession account_id (token_hash token) expires_at)) in
    okP (mkSessionToken token account_id expires_at).

Definition account_for_session (token : str) (now : i64) : Rg (option AccountId) :=
  let# found := on_reg (session (token_hash token)) in
  match found with
  | None => okP None
  | Some session =>
      if i_leb (se_expires_at session) now then okP None
      else okP (Some (se_account_id session))
  end.
End Service.
Arguments mkRegistry {S} _ _.
Arguments store {S} _.
Arguments random {S} _.
