(* ===== verification/RegistrySpec.v ===== *)
(** * RegistrySpec: what the registry's metadata store promises

    The store as independent maps, the requests the service makes of it, and
    the reply and the effect each request may have.  The implementation over the
    database ([Registry]) is proved to refine it in [RegistryProps]. *)

From stdpp Require Import functions.
From S2P Require Import Prelude Std Crypto Wire UserId Registry.

Record AReg : Type := mkAReg {
  a_tokens : str → option LoginToken;
  a_logins : LoginIdentityKind * LoginIdentityHash → option AccountId;
  a_accounts : AccountId → option Account;
  a_blobs : AccountId * AccountBlobKind → option BlobRef;
  a_users : UserId → option AccountId;
  a_sessions : AccountId → option Session;
  a_rates : str → option RateLimitBucket
}.

Definition empty_registry : AReg :=
  mkAReg (λ _, None) (λ _, None) (λ _, None) (λ _, None) (λ _, None) (λ _, None) (λ _, None).

Definition on_tokens (f : (str → option LoginToken) → str → option LoginToken) (A : AReg) : AReg :=
  mkAReg (f (a_tokens A)) (a_logins A) (a_accounts A) (a_blobs A) (a_users A) (a_sessions A) (a_rates A).
Definition on_logins (f : (LoginIdentityKind * LoginIdentityHash → option AccountId)
    → LoginIdentityKind * LoginIdentityHash → option AccountId) (A : AReg) : AReg :=
  mkAReg (a_tokens A) (f (a_logins A)) (a_accounts A) (a_blobs A) (a_users A) (a_sessions A) (a_rates A).
Definition on_accounts (f : (AccountId → option Account) → AccountId → option Account)
    (A : AReg) : AReg :=
  mkAReg (a_tokens A) (a_logins A) (f (a_accounts A)) (a_blobs A) (a_users A) (a_sessions A) (a_rates A).
Definition on_blobs (f : (AccountId * AccountBlobKind → option BlobRef)
    → AccountId * AccountBlobKind → option BlobRef) (A : AReg) : AReg :=
  mkAReg (a_tokens A) (a_logins A) (a_accounts A) (f (a_blobs A)) (a_users A) (a_sessions A) (a_rates A).
Definition on_users (f : (UserId → option AccountId) → UserId → option AccountId) (A : AReg) : AReg :=
  mkAReg (a_tokens A) (a_logins A) (a_accounts A) (a_blobs A) (f (a_users A)) (a_sessions A) (a_rates A).
Definition on_sessions (f : (AccountId → option Session) → AccountId → option Session)
    (A : AReg) : AReg :=
  mkAReg (a_tokens A) (a_logins A) (a_accounts A) (a_blobs A) (a_users A) (f (a_sessions A)) (a_rates A).
Definition on_rates (f : (str → option RateLimitBucket) → str → option RateLimitBucket)
    (A : AReg) : AReg :=
  mkAReg (a_tokens A) (a_logins A) (a_accounts A) (a_blobs A) (a_users A) (a_sessions A) (f (a_rates A)).

(** ** The requests *)
Inductive Op : Type :=
  | PutLoginToken (token_hash : str) (token : LoginToken)
  | TakeLoginToken (token_hash : str)
  | AccountIdByLogin (kind : LoginIdentityKind) (hash : LoginIdentityHash)
  | GetOrCreate (kind : LoginIdentityKind) (hash : LoginIdentityHash) (acc : Account) (at_ : i64)
  | GetAccount (id : AccountId)
  | SwapBlob (id : AccountId) (kind : AccountBlobKind) (expected : option BlobRef) (next : BlobRef)
  | GetBlobRef (id : AccountId) (kind : AccountBlobKind)
  | SwapRecord (id : AccountId) (user : UserId) (previous : option UserId)
      (expected : option BlobRef) (next : BlobRef)
  | AccountIdByUserId (user : UserId)
  | ReplaceSession (s : Session)
  | GetSession (token_hash : str)
  | Bump (k : str) (now window_secs : i64)
  | Purge (now : i64) (limit : nat).

Inductive Reply : Type :=
  | RUnit
  | RToken (token : option LoginToken)
  | RId (id : option AccountId)
  | RLogin (login : AccountLogin)
  | RAccount (acc : option Account)
  | RSwap (swap : BlobSwap)
  | RBlob (blob : option BlobRef)
  | RSession (s : option Session)
  | RBucket (bucket : RateLimitBucket)
  | RCount (n : nat).

Definition map_reply {S A} (f : A → Reply) (m : R S A) : R S Reply := let% a := m in retR (f a).

Definition perform {S} `{!RegistryStore S} (op : Op) : R S Reply :=
  match op with
  | PutLoginToken h t => map_reply (λ _, RUnit) (put_login_token h t)
  | TakeLoginToken h => map_reply RToken (take_login_token h)
  | AccountIdByLogin k h => map_reply RId (account_id_by_login k h)
  | GetOrCreate k h a t => map_reply RLogin (get_or_create_account_for_login k h a t)
  | GetAccount id => map_reply RAccount (account id)
  | SwapBlob id k e n => map_reply RSwap (compare_and_swap_blob_ref id k e n)
  | GetBlobRef id k => map_reply RBlob (blob_ref id k)
  | SwapRecord id u p e n => map_reply RSwap (compare_and_swap_public_record_ref id u p e n)
  | AccountIdByUserId u => map_reply RId (account_id_by_user_id u)
  | ReplaceSession s => map_reply (λ _, RUnit) (replace_session s)
  | GetSession h => map_reply RSession (session h)
  | Bump k t w => map_reply RBucket (bump_rate_limit k t w)
  | Purge t n => map_reply RCount (purge_expired t n)
  end.

(** ** What they do *)

(** The session a token hash opens: the current one of some account. *)
Definition current_session (A : AReg) (s : Session) : Prop := a_sessions A (se_account_id s) = Some s.

Definition next_bucket (current : option RateLimitBucket) (now window_secs : i64) : RateLimitBucket :=
  match current with
  | Some b =>
      if i_ltb now (rb_expires_at b) then mkBucket (saturating_add (rb_count b) (U64 1)) (rb_expires_at b)
      else mkBucket (U64 1) (i_saturating_add now window_secs)
  | None => mkBucket (U64 1) (i_saturating_add now window_secs)
  end.

(** The user index after a publication: the new id is bound, and the id of the
    replaced record released when it was bound to the same account. *)
Definition rebind (id : AccountId) (user : UserId) (previous : option UserId)
    (users : UserId → option AccountId) : UserId → option AccountId :=
  let users := <[user := Some id]> users in
  match previous with
  | Some p => if decide (p ≠ user ∧ users p = Some id) then <[p := None]> users else users
  | None => users
  end.

(** The expiry of the entry of each kind under a subject, and its removal. *)
Definition token_expiry (A : AReg) (th : str) : option i64 := lt_expires_at <$> a_tokens A th.
Definition session_expiry (A : AReg) (account : str) : option i64 :=
  se_expires_at <$> a_sessions A (mkAccountId account).
Definition rate_expiry (A : AReg) (k : str) : option i64 := rb_expires_at <$> a_rates A k.
Definition forget_token (A : AReg) (th : str) : AReg := on_tokens <[th := None]> A.
Definition forget_session (A : AReg) (account : str) : AReg :=
  on_sessions <[mkAccountId account := None]> A.
Definition forget_rate (A : AReg) (k : str) : AReg := on_rates <[k := None]> A.

(** [subjects] are distinct and expired. *)
Definition all_expired (expiry : AReg → str → option i64) (now : i64) (A : AReg) (subjects : list str)
    : Prop :=
  NoDup subjects ∧ ∀ s, s ∈ subjects → ∃ e, expiry A s = Some e ∧ (i_val e ≤ i_val now)%Z.
Definition none_expired (expiry : AReg → str → option i64) (now : i64) (A : AReg) : Prop :=
  ∀ s e, expiry A s = Some e → (i_val now < i_val e)%Z.

Inductive spec : Op → AReg → Res Reply → AReg → Prop :=
  | spec_put_token h t A : spec (PutLoginToken h t) A (Ok RUnit) (on_tokens <[h := Some t]> A)
  | spec_take_none h A :
      a_tokens A h = None → spec (TakeLoginToken h) A (Ok (RToken None)) A
  | spec_take h t A :
      a_tokens A h = Some t →
      spec (TakeLoginToken h) A (Ok (RToken (Some t))) (forget_token A h)
  | spec_by_login k h A : spec (AccountIdByLogin k h) A (Ok (RId (a_logins A (k, h)))) A
  | spec_login_known k h acc t id A :
      a_logins A (k, h) = Some id →
      spec (GetOrCreate k h acc t) A (Ok (RLogin (mkAccountLogin id false))) A
  | spec_login_new k h acc t A :
      a_logins A (k, h) = None →
      spec (GetOrCreate k h acc t) A (Ok (RLogin (mkAccountLogin (ac_id acc) true)))
        (on_accounts <[ac_id acc := Some acc]> (on_logins <[(k, h) := Some (ac_id acc)]> A))
  | spec_account id A : spec (GetAccount id) A (Ok (RAccount (a_accounts A id))) A
  | spec_swap id k e n A :
      a_blobs A (id, k) = e →
      spec (SwapBlob id k e n) A (Ok (RSwap (Applied e))) (on_blobs <[(id, k) := Some n]> A)
  | spec_swap_mismatch id k e n A :
      a_blobs A (id, k) ≠ e →
      spec (SwapBlob id k e n) A (Ok (RSwap (Mismatch (a_blobs A (id, k))))) A
  | spec_blob id k A : spec (GetBlobRef id k) A (Ok (RBlob (a_blobs A (id, k)))) A
  | spec_record id u p e n A :
      a_blobs A (id, PublicRecord) = e → (∀ id', a_users A u = Some id' → id' = id) →
      spec (SwapRecord id u p e n) A (Ok (RSwap (Applied e)))
        (on_blobs <[(id, PublicRecord) := Some n]> (on_users (rebind id u p) A))
  | spec_record_mismatch id u p e n A :
      a_blobs A (id, PublicRecord) ≠ e →
      spec (SwapRecord id u p e n) A (Ok (RSwap (Mismatch (a_blobs A (id, PublicRecord))))) A
  | spec_record_conflict id id' u p e n m A :
      a_blobs A (id, PublicRecord) = e → a_users A u = Some id' → id' ≠ id →
      spec (SwapRecord id u p e n) A (Err (conflict m)) A
  | spec_by_user u A : spec (AccountIdByUserId u) A (Ok (RId (a_users A u))) A
  | spec_session s A :
      spec (ReplaceSession s) A (Ok RUnit) (on_sessions <[se_account_id s := Some s]> A)
  | spec_session_found s A :
      current_session A s → spec (GetSession (se_token_hash s)) A (Ok (RSession (Some s))) A
  | spec_session_none h A :
      (∀ s, current_session A s → se_token_hash s ≠ h) →
      spec (GetSession h) A (Ok (RSession None)) A
  | spec_bump_bad k t w m A : k = [] ∨ (i_val w ≤ 0)%Z → spec (Bump k t w) A (Err (internal m)) A
  | spec_bump k t w A :
      k ≠ [] → (0 < i_val w)%Z →
      spec (Bump k t w) A (Ok (RBucket (next_bucket (a_rates A k) t w)))
        (on_rates <[k := Some (next_bucket (a_rates A k) t w)]> A)
  | spec_purge now limit A A' n ts ss rs :
      all_expired token_expiry now A ts → all_expired session_expiry now A ss →
      all_expired rate_expiry now A rs →
      n = (length ts + length ss + length rs)%nat → (n ≤ limit)%nat →
      A' = fold_left forget_rate rs (fold_left forget_session ss (fold_left forget_token ts A)) →
      ((n < limit)%nat →
        none_expired token_expiry now A' ∧ none_expired session_expiry now A' ∧
        none_expired rate_expiry now A') →
      spec (Purge now limit) A (Ok (RCount n)) A'.

(** ** Runs *)

Fixpoint run_ops {S} `{!RegistryStore S} (ops : list Op) (s : S) : list (Res Reply) * S :=
  match ops with
  | [] => ([], s)
  | op :: ops =>
      let '(r, s) := perform op s in
      let '(rs, s) := run_ops ops s in
      (r :: rs, s)
  end.

(** A run in which the environment fails at most [faults] requests; a failed one
    has no effect. *)
Inductive spec_run : nat → AReg → list Op → list (Res Reply) → AReg → Prop :=
  | run_nil n A : spec_run n A [] [] A
  | run_op n A op r A1 ops rs A2 :
      spec op A r A1 → spec_run n A1 ops rs A2 → spec_run n A (op :: ops) (r :: rs) A2
  | run_fault n A op m ops rs A2 :
      spec_run n A ops rs A2 → spec_run (S n) A (op :: ops) (Err (internal m) :: rs) A2.

(** The token hash a request brings into use. *)
Definition new_token (op : Op) : option str :=
  match op with PutLoginToken h _ => Some h | _ => None end.
Definition new_session (op : Op) : option str :=
  match op with ReplaceSession s => Some (se_token_hash s) | _ => None end.
