(* ===== verification/RegistryProps.v ===== *)
(** * RegistryProps: the database store implements [RegistrySpec]

    [represents] ties the tables to the maps, the three expiry indexes and the
    session index included.  Every request keeps it and answers as [spec] says;
    one the database fails changes nothing. *)

From stdpp Require Import functions.
From S2P Require Import Prelude Std Crypto Wire UserId Registry RegistrySpec.

(** Writing a value of these types never fails. *)
Class JsonTotal (T : Type) `{!Json T} : Prop := { json_total : ∀ x : T, is_Some (to_vec x) }.

(** The text a Rust string holds, not empty. *)
Definition text (s : str) : Prop := s ≠ [] ∧ from_utf8 s = Some s.

Lemma hexdigit_ascii c : UserId.is_lower_hex c = true → (byte_val c <? 128)%N = true.
Proof.
  unfold UserId.is_lower_hex, is_ascii_digit, in_range. intros H. apply N.ltb_lt.
  apply orb_true_iff in H as [H|H]; apply andb_true_iff in H as [_ H%N.leb_le];
    eapply N.le_lt_trans; [exact H|done|exact H|done].
Qed.

Lemma lower_hex_utf8 s : forallb UserId.is_lower_hex s = true → from_utf8 s = Some s.
Proof.
  intros H. apply from_utf8_ascii. rewrite forallb_forall in H |- *.
  intros c Hc. apply hexdigit_ascii; auto.
Qed.

Lemma account_text a : account_valid a = true → text (aid a).
Proof.
  intros [Hl%Nat.eqb_eq Hh]%andb_true_iff. split; [by intros E; rewrite E in Hl|].
  by apply lower_hex_utf8.
Qed.

Lemma lower_hex_digit c :
  UserId.is_lower_hex c = true → is_ascii_hexdigit c = true ∧ to_ascii_lowercase c = c.
Proof. destruct c as [[] [] [] [] [] [] [] []]; vm_compute; intros H; try discriminate H; done. Qed.

Lemma parse_valid a : account_valid a = true → account_from_str (aid a) = Ok a.
Proof.
  destruct a as [s]. cbn [aid]. intros [Hl%Nat.eqb_eq Hh]%andb_true_iff. cbn [aid] in *.
  unfold account_from_str. rewrite Hl, Nat.eqb_refl.
  rewrite forallb_forall in Hh.
  rewrite (proj2 (forallb_forall _ _)) by (intros c Hc; by apply lower_hex_digit, Hh).
  cbn [negb orb]. do 2 f_equal. rewrite <-(map_id s) at 2. apply map_ext_in.
  intros c Hc. by apply lower_hex_digit, Hh.
Qed.

Lemma stored_valid a : account_valid a = true → stored_account (aid a) = Ok a.
Proof.
  intros H. unfold stored_account. rewrite (proj2 (account_text a H)). cbn. by apply parse_valid.
Qed.

(** ** Keys *)
Lemma expiry_key_inj e s e' s' :
  (0 ≤ i_val e)%Z → (0 ≤ i_val e')%Z → expiry_key e s = expiry_key e' s' → e = e' ∧ s = s'.
Proof.
  intros He He' H. unfold expiry_key in H.
  apply app_inj_1 in H as [Hd [= ->]]; [|by rewrite !length_dec_fixed].
  split; [|done]. apply dec_fixed_inj in Hd; [|apply i_nonneg_lt..].
  apply i64_eq. unfold i_nonneg in Hd. lia.
Qed.

Lemma colon_not_digit n w : ":"%char ∉ dec_fixed w n.
Proof.
  intros H. pose proof (dec_fixed_digits w n) as Hd. rewrite forallb_forall in Hd.
  apply list_elem_of_In, Hd in H. discriminate H.
Qed.

Lemma expiry_key_split e s : split_once ":" (expiry_key e s) = Some (dec_fixed 20 (i_nonneg e), s).
Proof. apply split_once_app, colon_not_digit. Qed.

Lemma expiry_timestamp_key e s : (0 ≤ i_val e)%Z → expiry_timestamp (expiry_key e s) = Ok e.
Proof.
  intros He. unfold expiry_timestamp. rewrite expiry_key_split. cbn -[parse_i64 dec_fixed].
  rewrite (parse_dec_fixed 19) by (done || apply i_nonneg_lt). done.
Qed.

Lemma expiry_subject_key e s : s ≠ [] → expiry_subject (expiry_key e s) = Ok s.
Proof.
  intros Hs. unfold expiry_subject. rewrite expiry_key_split. cbn -[dec_fixed].
  by rewrite bool_decide_false.
Qed.

Lemma expiry_key_order e s e' s' :
  (0 ≤ i_val e)%Z → (0 ≤ i_val e')%Z →
  bytes_leb (expiry_key e s) (expiry_key e' s') = true → (i_val e ≤ i_val e')%Z.
Proof.
  intros He He' H. unfold expiry_key in H. apply digits_order in H;
    [|by rewrite !length_dec_fixed|apply dec_fixed_digits..].
  rewrite !from_dec_fixed in H by apply i_nonneg_lt. unfold i_nonneg in H. lia.
Qed.

Lemma blob_key_inj a k a' k' : blob_key a k = blob_key a' k' → (a, k) = (a', k').
Proof.
  destruct a as [s], a' as [s']. unfold blob_key, key. cbn [aid]. intros H.
  apply app_inv_head, app_inv_head in H.
  destruct k, k'; cbn [blob_kind_str] in H; try (by apply app_inv_tail in H as ->);
    exfalso; apply (f_equal (@rev _)) in H; rewrite !rev_app_distr in H; discriminate H.
Qed.

Lemma login_key_inj k h k' h' : login_key k h = login_key k' h' → (k, h) = (k', h').
Proof.
  destruct k, k', h as [h], h' as [h']. unfold login_key, key. intros H.
  by repeat (cbn in H; injection H as H); subst.
Qed.

Section Refinement.
Context {D : Type} `{!Redb D, !RedbLaws D}.
Context `{!Json LoginToken, !Json Account, !Json LoginIdentity, !Json BlobRef, !Json Session,
  !Json RateLimitBucket}.
Context `{!JsonTotal LoginToken, !JsonTotal Account, !JsonTotal LoginIdentity, !JsonTotal BlobRef,
  !JsonTotal Session, !JsonTotal RateLimitBucket}.

Record represents (d : D) (A : AReg) : Prop := {
  r_tokens h : decode_opt (tbl_get LOGIN_TOKENS h d) = Ok (a_tokens A h);
  r_logins k h : tbl_get LOGIN_INDEX (login_key k h) d = aid <$> a_logins A (k, h);
  r_accounts a : decode_opt (tbl_get ACCOUNTS (aid a) d) = Ok (a_accounts A a);
  r_blobs a k : decode_opt (tbl_get BLOBS (blob_key a k) d) = Ok (a_blobs A (a, k));
  r_users u : tbl_get USER_INDEX (UserId.as_str u) d = aid <$> a_users A u;
  r_sessions a : decode_opt (tbl_get ACCOUNT_SESSIONS (aid a) d) = Ok (a_sessions A a);
  r_rates k : decode_opt (tbl_get RATES k d) = Ok (a_rates A k);
  r_index h v :
    tbl_get SESSION_INDEX h d = Some v ↔
    ∃ s, current_session A s ∧ se_token_hash s = h ∧ v = aid (se_account_id s);
  r_token_expiry k v :
    tbl_get LOGIN_TOKEN_EXPIRY k d = Some v ↔
    ∃ h t, a_tokens A h = Some t ∧ k = expiry_key (lt_expires_at t) h ∧ v = [];
  r_session_expiry k v :
    tbl_get SESSION_EXPIRY k d = Some v ↔
    ∃ s, current_session A s ∧ k = expiry_key (se_expires_at s) (aid (se_account_id s)) ∧
      v = se_token_hash s;
  r_rate_expiry k v :
    tbl_get RATE_EXPIRY k d = Some v ↔
    ∃ r b, a_rates A r = Some b ∧ k = expiry_key (rb_expires_at b) r ∧ v = []
}.

(** What the stored values satisfy. *)
Definition good_token (h : str) (t : LoginToken) : Prop := text h ∧ (0 ≤ i_val (lt_expires_at t))%Z.
Definition good_session (s : Session) : Prop :=
  account_valid (se_account_id s) = true ∧ text (se_token_hash s) ∧ (0 ≤ i_val (se_expires_at s))%Z.

Record coherent (A : AReg) : Prop := {
  c_tokens h t : a_tokens A h = Some t → good_token h t;
  c_logins k a : a_logins A k = Some a → account_valid a = true;
  c_users u a : a_users A u = Some a → account_valid a = true;
  c_sessions a s : a_sessions A a = Some s → se_account_id s = a ∧ good_session s;
  c_hashes s s' :
    current_session A s → current_session A s' → se_token_hash s = se_token_hash s' → s = s';
  c_rates k b : a_rates A k = Some b → text k ∧ (0 ≤ i_val (rb_expires_at b))%Z
}.

(** What the callers of the store see to: valid ids, times that are not negative,
    token hashes that are not in use. *)
Definition admissible (A : AReg) (op : Op) : Prop :=
  match op with
  | PutLoginToken h t => good_token h t ∧ a_tokens A h = None
  | GetOrCreate _ _ acc _ => account_valid (ac_id acc) = true
  | SwapRecord id _ _ _ _ => account_valid id = true
  | ReplaceSession s =>
      good_session s ∧ ∀ s', current_session A s' → se_token_hash s' ≠ se_token_hash s
  | Bump k now _ => from_utf8 k = Some k ∧ (0 ≤ i_val now)%Z
  | _ => True
  end.

Lemma get_insert_ne t k v (d : D) t' k' :
  t ≠ t' → tbl_get t' k' (tbl_insert t k v d) = tbl_get t' k' d.
Proof. intros H. rewrite get_insert, decide_False; [done|by intros [? _]]. Qed.
Lemma get_remove_ne t k (d : D) t' k' :
  t ≠ t' → tbl_get t' k' (tbl_remove t k d) = tbl_get t' k' d.
Proof. intros H. rewrite get_remove, decide_False; [done|by intros [? _]]. Qed.
Lemma get_insert_tbl t k v (d : D) k' :
  tbl_get t k' (tbl_insert t k v d) = if decide (k = k') then Some v else tbl_get t k' d.
Proof.
  rewrite get_insert. destruct (decide (k = k')) as [->|Hk]; [by rewrite decide_True|].
  rewrite decide_False; [done|by intros [_ ?]].
Qed.
Lemma get_remove_tbl t k (d : D) k' :
  tbl_get t k' (tbl_remove t k d) = if decide (k = k') then None else tbl_get t k' d.
Proof.
  rewrite get_remove. destruct (decide (k = k')) as [->|Hk]; [by rewrite decide_True|].
  rewrite decide_False; [done|by intros [_ ?]].
Qed.

Lemma decode_opt_none {T} `{!Json T} o : decode_opt (T := T) o = Ok None ↔ o = None.
Proof.
  destruct o as [b|]; cbn; [|done]. unfold decode_json.
  by destruct (from_slice b); cbn.
Qed.

Lemma encode_ok {T} `{!Json T, !JsonTotal T} (x : T) :
  ∃ b, encode_json x = Ok b ∧ decode_json b = Ok x.
Proof.
  destruct (json_total x) as [b Hb]. exists b. unfold encode_json, decode_json.
  rewrite Hb. cbn. by rewrite (json_roundtrip _ _ Hb).
Qed.

(** Reading a table after one insertion or removal, through the codec. *)
Lemma decode_insert {T} `{!Json T} t k b (x : T) (d : D) k' :
  decode_json b = Ok x →
  decode_opt (tbl_get t k' (tbl_insert t k b d)) =
  (if decide (k = k') then Ok (Some x) else decode_opt (tbl_get t k' d)).
Proof.
  intros Hb. rewrite get_insert_tbl. case_decide; [|done]. cbn.
  change (from_slice b) with (from_slice (T := T) b). by rewrite Hb.
Qed.
Lemma decode_remove {T} `{!Json T} t k (d : D) k' :
  decode_opt (T := T) (tbl_get t k' (tbl_remove t k d)) =
  (if decide (k = k') then Ok None else decode_opt (tbl_get t k' d)).
Proof. rewrite get_remove_tbl. by case_decide. Qed.

(** Entries of the other tables are read through the writes of one. *)
Ltac other_tables := repeat first [rewrite get_insert_ne by discriminate | rewrite get_remove_ne by discriminate].
Ltac kept HR := try (intros; other_tables; apply HR).
Ltac cleanup := unfold insert, fn_insert.

Lemma put_token_represents d A h t b :
  represents d A → coherent A → good_token h t → a_tokens A h = None → decode_json b = Ok t →
  let A' := on_tokens <[h := Some t]> A in
  represents (tbl_insert LOGIN_TOKEN_EXPIRY (expiry_key (lt_expires_at t) h) []
    (tbl_insert LOGIN_TOKENS h b d)) A' ∧ coherent A'.
Proof.
  intros HR HC Hg Hfresh Hb A'. split; split; kept HR; try apply HC; subst A'; cbn [a_tokens on_tokens].
  - intros h'. other_tables. rewrite (decode_insert _ _ _ _ _ _ Hb). cleanup.
    case_decide; [done|apply HR].
  - intros k v. rewrite get_insert_tbl. other_tables. cleanup. case_decide as Hk.
    + subst k. split.
      * intros [= <-]. exists h, t. by rewrite decide_True.
      * intros (h' & t' & Ht' & Hk & ->). done.
    + rewrite (r_token_expiry _ _ HR). split; intros (h' & t' & Ht' & -> & ->); exists h', t'.
      * split; [|done]. rewrite decide_False; [done|congruence].
      * case_decide; [|done]. naive_solver.
  - intros h' t'. cleanup. case_decide; [intros [= <-]; by subst|apply HC].
Qed.

Lemma forget_token_represents d A h t :
  represents d A → coherent A → a_tokens A h = Some t →
  represents (tbl_remove LOGIN_TOKEN_EXPIRY (expiry_key (lt_expires_at t) h)
    (tbl_remove LOGIN_TOKENS h d)) (forget_token A h) ∧ coherent (forget_token A h).
Proof.
  intros HR HC Ht. pose proof (c_tokens _ HC _ _ Ht) as [_ Hpos].
  split; split; kept HR; try apply HC; cbn [a_tokens forget_token on_tokens].
  - intros h'. other_tables. rewrite decode_remove. cleanup. case_decide; [done|apply HR].
  - intros k v. rewrite get_remove_tbl. other_tables. cleanup. case_decide as Hk.
    + subst k. split; [done|]. intros (h' & t' & Ht' & Hk & ->). case_decide as Hh; [done|].
      apply expiry_key_inj in Hk as [_ ?]; [done|done|]. by eapply c_tokens.
    + rewrite (r_token_expiry _ _ HR). split; intros (h' & t' & Ht' & -> & ->); exists h', t'.
      * split; [|done]. rewrite decide_False; [done|congruence].
      * case_decide; [done|naive_solver].
  - intros h' t'. cleanup. case_decide; [done|apply HC].
Qed.

Lemma new_login_represents d A k h acc b b' key' :
  represents d A → coherent A → account_valid (ac_id acc) = true → decode_json b = Ok acc →
  (∀ a k, key' ≠ blob_key a k) →
  let A' := on_accounts <[ac_id acc := Some acc]> (on_logins <[(k, h) := Some (ac_id acc)]> A) in
  represents (tbl_insert BLOBS key' b' (tbl_insert ACCOUNTS (aid (ac_id acc)) b
    (tbl_insert LOGIN_INDEX (login_key k h) (aid (ac_id acc)) d))) A' ∧ coherent A'.
Proof.
  intros HR HC Hv Hb Hkey A'. split; split; kept HR; try apply HC; subst A';
    cbn [a_logins a_accounts a_blobs on_accounts on_logins].
  - intros k' h'. other_tables. rewrite get_insert_tbl. cleanup.
    destruct (decide ((k, h) = (k', h'))) as [E|E].
    + injection E as -> ->. by rewrite decide_True.
    + rewrite decide_False; [apply HR|]. by intros ?%login_key_inj.
  - intros [a]. other_tables. rewrite (decode_insert _ _ _ _ _ _ Hb). cleanup.
    destruct (ac_id acc) as [a']. cbn [aid]. destruct (decide (a' = a)) as [->|Hne].
    + by rewrite decide_True.
    + rewrite decide_False by congruence. other_tables. apply (r_accounts _ _ HR (mkAccountId a)).
  - intros a k'. rewrite get_insert_tbl, decide_False by apply Hkey. other_tables. apply HR.
  - intros k' a. cleanup. case_decide; [by intros [= <-]|apply HC].
Qed.

Lemma swap_blob_represents d A a k b n :
  represents d A → coherent A → decode_json b = Ok n →
  let A' := on_blobs <[(a, k) := Some n]> A in
  represents (tbl_insert BLOBS (blob_key a k) b d) A' ∧ coherent A'.
Proof.
  intros HR HC Hb A'. split; split; kept HR; try apply HC; subst A'; cbn [a_blobs on_blobs].
  intros a' k'. rewrite (decode_insert _ _ _ _ _ _ Hb). cleanup.
  destruct (decide ((a, k) = (a', k'))) as [E|E].
  - injection E as -> ->. by rewrite decide_True.
  - rewrite decide_False; [apply HR|]. by intros ?%blob_key_inj.
Qed.

Lemma users_represents d A (f : (UserId → option AccountId) → UserId → option AccountId) d' :
  represents d A → coherent A →
  (∀ t k, t ≠ USER_INDEX → tbl_get t k d' = tbl_get t k d) →
  (∀ u, tbl_get USER_INDEX (UserId.as_str u) d' = aid <$> f (a_users A) u) →
  (∀ u a, f (a_users A) u = Some a → account_valid a = true) →
  represents d' (on_users f A) ∧ coherent (on_users f A).
Proof.
  intros HR HC Hother Hf Hv. split; split; try apply HC; try done;
    intros; rewrite Hother by discriminate; apply HR.
Qed.

(** The current session of an account is found under its own id. *)
Lemma current_of A a s : coherent A → a_sessions A a = Some s → se_account_id s = a ∧ current_session A s.
Proof. intros HC H. pose proof (c_sessions _ HC _ _ H) as [<- _]. done. Qed.

Lemma current_good A s : coherent A → current_session A s → good_session s.
Proof. intros HC H. by apply (c_sessions _ HC _ _ H). Qed.

Lemma current_insert A s s' :
  current_session (on_sessions <[se_account_id s := Some s]> A) s' ↔
  s' = s ∨ (se_account_id s' ≠ se_account_id s ∧ current_session A s').
Proof.
  unfold current_session. cbn [a_sessions on_sessions]. cleanup.
  destruct (decide (se_account_id s = se_account_id s')) as [E|E].
  - split; [intros [= <-]; by left|]. intros [->|[Hne _]]; [done|by destruct Hne].
  - split; [by right|]. by intros [->|[_ ?]].
Qed.

Lemma current_forget A a s' :
  current_session (forget_session A (aid a)) s' ↔ se_account_id s' ≠ a ∧ current_session A s'.
Proof.
  unfold current_session, forget_session. cbn [a_sessions on_sessions]. cleanup.
  destruct a as [a]. cbn [aid]. case_decide as E; [naive_solver|].
  split; [|by intros [_ ?]]. split; [congruence|done].
Qed.

Lemma sessions_insert A s b (d : D) :
  represents d A → decode_json b = Ok s → ∀ a,
  decode_opt (tbl_get ACCOUNT_SESSIONS (aid a)
    (tbl_insert ACCOUNT_SESSIONS (aid (se_account_id s)) b d)) =
  Ok (a_sessions (on_sessions <[se_account_id s := Some s]> A) a).
Proof.
  intros HR Hb [a]. rewrite (decode_insert _ _ _ _ _ _ Hb). cbn [a_sessions on_sessions].
  cleanup. destruct (se_account_id s) as [a']. cbn [aid]. destruct (decide (a' = a)) as [->|Hne].
  - by rewrite decide_True.
  - rewrite decide_False by congruence. apply (r_sessions _ _ HR (mkAccountId a)).
Qed.

(** The database once the previous session of the account is out of the indexes. *)
Definition drop_indexes (account : str) (previous : option Session) (d : D) : D :=
  match previous with
  | Some p =>
      tbl_remove SESSION_EXPIRY (expiry_key (se_expires_at p) account)
        (tbl_remove SESSION_INDEX (se_token_hash p) d)
  | None => d
  end.

Lemma drop_indexes_index d A a h v :
  represents d A → coherent A →
  tbl_get SESSION_INDEX h (drop_indexes (aid a) (a_sessions A a) d) = Some v ↔
  ∃ s, current_session A s ∧ se_account_id s ≠ a ∧ se_token_hash s = h ∧ v = aid (se_account_id s).
Proof.
  intros HR HC. destruct (a_sessions A a) as [p|] eqn:Hp; cbn [drop_indexes].
  - destruct (current_of _ _ _ HC Hp) as [<- Hcur]. rewrite get_remove_ne by done.
    rewrite get_remove_tbl. case_decide as Hh.
    + split; [done|]. intros (s & Hs & Hne & <- & ->). by rewrite (c_hashes _ HC _ _ Hcur Hs) in Hne.
    + rewrite (r_index _ _ HR). split; intros (s & Hs & H); exists s; [|tauto].
      destruct H as [<- ->]. split_and!; try done. intros E. unfold current_session in Hs, Hcur.
      rewrite E in Hs. congruence.
  - rewrite (r_index _ _ HR). split; intros (s & Hs & H); exists s; [|tauto].
    destruct H as [<- ->]. split_and!; try done. intros <-. congruence.
Qed.

Lemma drop_indexes_expiry d A a k v :
  represents d A → coherent A →
  tbl_get SESSION_EXPIRY k (drop_indexes (aid a) (a_sessions A a) d) = Some v ↔
  ∃ s, current_session A s ∧ se_account_id s ≠ a ∧
    k = expiry_key (se_expires_at s) (aid (se_account_id s)) ∧ v = se_token_hash s.
Proof.
  intros HR HC. destruct (a_sessions A a) as [p|] eqn:Hp; cbn [drop_indexes].
  - destruct (current_of _ _ _ HC Hp) as [<- Hcur]. rewrite get_remove_tbl. case_decide as Hk.
    + subst k. split; [done|]. intros (s & Hs & Hne & Hk & ->).
      apply expiry_key_inj in Hk as [_ Hk]; [|by apply (current_good A)..].
      destruct Hne. destruct (se_account_id p), (se_account_id s). by cbn in Hk; subst.
    + rewrite get_remove_ne by done. rewrite (r_session_expiry _ _ HR).
      split; intros (s & Hs & H); exists s; [|tauto].
      destruct H as [-> ->]. split_and!; try done. intros E. unfold current_session in Hs, Hcur.
      rewrite E in Hs. congruence.
  - rewrite (r_session_expiry _ _ HR). split; intros (s & Hs & H); exists s; [|tauto].
    destruct H as [-> ->]. split_and!; try done. intros <-. congruence.
Qed.

Lemma drop_indexes_other t account previous (d : D) k :
  t ≠ SESSION_INDEX → t ≠ SESSION_EXPIRY →
  tbl_get t k (drop_indexes account previous d) = tbl_get t k d.
Proof.
  intros. destruct previous; cbn [drop_indexes]; [|done].
  by rewrite !get_remove_ne by done.
Qed.

Lemma drop_indexes_write account previous k b (d : D) t k' :
  tbl_get t k' (drop_indexes account previous (tbl_insert ACCOUNT_SESSIONS k b d)) =
  if decide (t = ACCOUNT_SESSIONS) then tbl_get t k' (tbl_insert ACCOUNT_SESSIONS k b d)
  else tbl_get t k' (drop_indexes account previous d).
Proof.
  case_decide as Ht; [subst t; by rewrite drop_indexes_other|].
  destruct previous; cbn [drop_indexes]; rewrite ?get_remove, ?get_insert_ne by done; done.
Qed.

Lemma replace_session_represents d A s b :
  represents d A → coherent A → good_session s →
  (∀ s', current_session A s' → se_token_hash s' ≠ se_token_hash s) → decode_json b = Ok s →
  let account := aid (se_account_id s) in
  let A' := on_sessions <[se_account_id s := Some s]> A in
  represents
    (tbl_insert SESSION_EXPIRY (expiry_key (se_expires_at s) account) (se_token_hash s)
      (tbl_insert SESSION_INDEX (se_token_hash s) account
        (drop_indexes account (a_sessions A (se_account_id s))
          (tbl_insert ACCOUNT_SESSIONS account b d)))) A' ∧ coherent A'.
Proof.
  intros HR HC Hg Hfresh Hb account A'.
  assert (∀ s', current_session A' s' → good_session s') as Hgood.
  { intros s' [->|[_ Hs']]%current_insert; [done|by apply (current_good A)]. }
  subst A' account. split; split; try apply HC;
    try (intros; other_tables; rewrite drop_indexes_write, decide_False, drop_indexes_other
           by discriminate; apply HR).
  - intros a. other_tables. rewrite drop_indexes_write, decide_True by done.
    by apply sessions_insert.
  - intros h v. rewrite get_insert_ne, get_insert_tbl by done. case_decide as Hh.
    + subst h. split.
      * intros [= <-]. exists s. by rewrite current_insert; auto.
      * intros (s' & [->|[_ Hs']]%current_insert & Hh & ->); [done|]. by apply Hfresh in Hh.
    + rewrite drop_indexes_write, decide_False, drop_indexes_index by done.
      setoid_rewrite current_insert. naive_solver.
  - intros k v. rewrite get_insert_tbl. case_decide as Hk.
    + subst k. split.
      * intros [= <-]. exists s. by rewrite current_insert; auto.
      * intros (s' & Hs' & Hk & ->). pose proof (Hgood _ Hs') as (_ & _ & Hpos).
        apply expiry_key_inj in Hk as [_ Hk]; [|by apply Hg|done].
        apply current_insert in Hs' as [->|[Hne _]]; [done|].
        destruct Hne. destruct (se_account_id s), (se_account_id s'). by cbn in Hk; subst.
    + rewrite get_insert_ne, drop_indexes_write, decide_False, drop_indexes_expiry by done.
      setoid_rewrite current_insert. naive_solver.
  - intros a s' Hs'. assert (se_account_id s' = a) as <-.
    { revert Hs'. cbn [a_sessions on_sessions]. cleanup. case_decide as Ha; [by intros [= <-]|].
      intros Hs'. by apply (c_sessions _ HC _ _ Hs'). }
    split; [done|by apply Hgood].
  - intros s1 s2 [->|[_ H1]]%current_insert [->|[_ H2]]%current_insert Hh; try done.
    + by apply Hfresh in H2.
    + by apply Hfresh in Hh.
    + by apply (c_hashes _ HC).
Qed.

Lemma forget_session_represents d A s :
  represents d A → coherent A → current_session A s →
  let account := se_account_id s in
  represents (tbl_remove SESSION_EXPIRY (expiry_key (se_expires_at s) (aid account))
    (tbl_remove SESSION_INDEX (se_token_hash s) (tbl_remove ACCOUNT_SESSIONS (aid account) d)))
    (forget_session A (aid account)) ∧ coherent (forget_session A (aid account)).
Proof.
  intros HR HC Hs account. subst account. unfold current_session in Hs.
  pose proof (drop_indexes_index d A (se_account_id s)) as Hi. rewrite Hs in Hi.
  pose proof (drop_indexes_expiry d A (se_account_id s)) as Hx. rewrite Hs in Hx.
  cbn [drop_indexes] in Hi, Hx.
  split; split; kept HR; try apply HC.
  - intros [a]. other_tables. rewrite decode_remove. unfold forget_session.
    cbn [a_sessions on_sessions]. cleanup. destruct (se_account_id s) as [a']. cbn [aid].
    destruct (decide (a' = a)) as [->|Hne]; [by rewrite decide_True|].
    rewrite decide_False by congruence. apply (r_sessions _ _ HR (mkAccountId a)).
  - intros h v. rewrite get_remove_ne by done. setoid_rewrite current_forget.
    specialize (Hi h v HR HC). rewrite get_remove_ne in Hi by done.
    rewrite get_remove_tbl in Hi. rewrite get_remove_tbl, get_remove_ne, Hi by done.
    split; intros (s' & H); exists s'; split_and!; apply H.
  - intros k v. setoid_rewrite current_forget. specialize (Hx k v HR HC).
    rewrite get_remove_tbl, !get_remove_ne by done. rewrite get_remove_tbl, get_remove_ne in Hx by done.
    rewrite Hx. split; intros (s' & H); exists s'; split_and!; apply H.
  - intros a s'. unfold forget_session. cbn [a_sessions on_sessions]. cleanup.
    case_decide; [done|]. apply HC.
  - intros s1 s2 [_ H1]%current_forget [_ H2]%current_forget. by apply HC.
Qed.

Lemma bump_represents d A k n b :
  represents d A → coherent A → text k → (0 ≤ i_val (rb_expires_at n))%Z → decode_json b = Ok n →
  let A' := on_rates <[k := Some n]> A in
  represents
    (tbl_insert RATE_EXPIRY (expiry_key (rb_expires_at n) k) []
      (match a_rates A k with
       | Some p => tbl_remove RATE_EXPIRY (expiry_key (rb_expires_at p) k) (tbl_insert RATES k b d)
       | None => tbl_insert RATES k b d
       end)) A' ∧ coherent A'.
Proof.
  intros HR HC Hk Hn Hb A'. subst A'.
  assert (∀ t k', t ≠ RATES → t ≠ RATE_EXPIRY →
    tbl_get t k' (match a_rates A k with
       | Some p => tbl_remove RATE_EXPIRY (expiry_key (rb_expires_at p) k) (tbl_insert RATES k b d)
       | None => tbl_insert RATES k b d end) = tbl_get t k' d) as Hother.
  { intros. destruct (a_rates A k); by rewrite ?get_remove_ne, ?get_insert_ne. }
  split; split; try apply HC; try (intros; other_tables; rewrite Hother by done; apply HR);
    cbn [a_rates on_rates].
  - intros k'. other_tables. cleanup.
    destruct (a_rates A k); other_tables; rewrite (decode_insert _ _ _ _ _ _ Hb);
      (case_decide; [done|apply HR]).
  - intros k' v. rewrite get_insert_tbl. cleanup. case_decide as Hk'.
    + subst k'. split; [intros [= <-]; exists k, n; by rewrite decide_True|].
      by intros (r & bk & _ & _ & ->).
    + transitivity (∃ r p, a_rates A r = Some p ∧ r ≠ k ∧ k' = expiry_key (rb_expires_at p) r ∧ v = []).
      * destruct (a_rates A k) as [p|] eqn:Hp; other_tables.
        -- rewrite get_remove_tbl. case_decide as Hpk.
           ++ subst k'. split; [done|]. intros (r & p' & Hp' & Hne & E & _).
              apply expiry_key_inj in E as [_ ->]; [done| |]; by eapply (c_rates _ HC).
           ++ other_tables. rewrite (r_rate_expiry _ _ HR).
              split; intros (r & p' & Hp' & H); exists r, p'; [|tauto].
              split_and!; try tauto. intros ->. destruct H as [-> _]. congruence.
        -- rewrite (r_rate_expiry _ _ HR). split; intros (r & p' & Hp' & H); exists r, p'; [|tauto].
           split_and!; try tauto. intros ->. congruence.
      * split; intros (r & p' & Hp' & H); exists r, p'.
        -- rewrite decide_False by (intros E; symmetry in E; tauto). tauto.
        -- case_decide as E; [|assert (r ≠ k) by congruence; tauto].
           subst r. injection Hp' as <-. by destruct H as [-> _].
  - intros k' n'. cleanup. case_decide; [intros [= <-]; by subst|apply HC].
Qed.

Lemma forget_rate_represents d A k p :
  represents d A → coherent A → a_rates A k = Some p →
  represents (tbl_remove RATE_EXPIRY (expiry_key (rb_expires_at p) k) (tbl_remove RATES k d))
    (forget_rate A k) ∧ coherent (forget_rate A k).
Proof.
  intros HR HC Hp. pose proof (c_rates _ HC _ _ Hp) as [_ Hpos].
  split; split; kept HR; try apply HC; cbn [a_rates forget_rate on_rates].
  - intros k'. other_tables. rewrite decode_remove. cleanup. case_decide; [done|apply HR].
  - intros k' v. rewrite get_remove_tbl. other_tables. cleanup. case_decide as Hk.
    + subst k'. split; [done|]. intros (r & p' & Hp' & Hk & ->). case_decide as Hr; [done|].
      apply expiry_key_inj in Hk as [_ ?]; [done|done|]. by eapply c_rates.
    + rewrite (r_rate_expiry _ _ HR). split; intros (r & p' & Hp' & -> & ->); exists r, p'.
      * split; [|done]. rewrite decide_False; [done|congruence].
      * case_decide; [done|naive_solver].
  - intros k' p'. cleanup. case_decide; [done|apply HC].
Qed.

(** ** The requests *)

(** The database fails the next transaction. *)
Definition faulty (s : RedbRegistryStore D) : Prop := head (rs_faults s) = Some true.

Definition outcome (op : Op) (A : AReg) (result : Res Reply * RedbRegistryStore D) : Prop :=
  ∃ A', spec op A (fst result) A' ∧ represents (rs_db (snd result)) A' ∧ coherent A'.

Lemma begin_write_ok {X} (body : D → TxEnd D X) s :
  ¬ faulty s →
  begin_write body s =
  match body (rs_db s) with
  | Commit a d => (Ok a, mkRedbStore d (tail (rs_faults s)))
  | Dropped r => (r, mkRedbStore (rs_db s) (tail (rs_faults s)))
  end.
Proof. destruct s as [d [|[] f]]; intros H; [done|by destruct H|done]. Qed.

Ltac begin_op f :=
  intros HR HC Hadm Hf; unfold outcome, perform, map_reply, bindR, retR; cbn -[begin_write f];
  unfold f, begin_read; rewrite ?begin_write_ok by done.

Lemma put_login_token_ok h t s A :
  represents (rs_db s) A → coherent A → admissible A (PutLoginToken h t) → ¬ faulty s →
  outcome (PutLoginToken h t) A (perform (PutLoginToken h t) s).
Proof.
  begin_op (@redb_put_login_token). destruct (encode_ok t) as (b & -> & Hb). cbn.
  exists (on_tokens <[h := Some t]> A). split; [constructor|].
  destruct Hadm. by apply put_token_represents.
Qed.

Lemma take_login_token_ok h s A :
  represents (rs_db s) A → coherent A → admissible A (TakeLoginToken h) → ¬ faulty s →
  outcome (TakeLoginToken h) A (perform (TakeLoginToken h) s).
Proof.
  begin_op (@redb_take_login_token). pose proof (r_tokens _ _ HR h) as Ht.
  destruct (tbl_get LOGIN_TOKENS h (rs_db s)) as [v|]; cbn in Ht.
  - change (from_slice v) with (from_slice (T := LoginToken) v) in Ht.
    destruct (decode_json v) as [t|]; [|done]. cbn in Ht |- *. injection Ht as Ht.
    exists (forget_token A h). split; [by constructor|]. by apply forget_token_represents.
  - injection Ht as Ht. exists A. split; [by constructor|done].
Qed.

Lemma account_id_by_login_ok k h s A :
  represents (rs_db s) A → coherent A → admissible A (AccountIdByLogin k h) → ¬ faulty s →
  outcome (AccountIdByLogin k h) A (perform (AccountIdByLogin k h) s).
Proof.
  begin_op (@redb_account_id_by_login). rewrite (r_logins _ _ HR).
  destruct (a_logins A (k, h)) as [a|] eqn:Ha; cbn [fmap option_fmap option_map];
    [rewrite stored_valid by (by eapply c_logins)|]; exists A; (split; [|done]);
    cbn; rewrite <-Ha; constructor.
Qed.

Lemma get_or_create_ok k h acc t s A :
  represents (rs_db s) A → coherent A → admissible A (GetOrCreate k h acc t) → ¬ faulty s →
  outcome (GetOrCreate k h acc t) A (perform (GetOrCreate k h acc t) s).
Proof.
  begin_op (@redb_get_or_create_account_for_login). cbn zeta. rewrite (r_logins _ _ HR).
  destruct (a_logins A (k, h)) as [a|] eqn:Ha; cbn [fmap option_fmap option_map].
  - rewrite stored_valid by (by eapply c_logins). cbn. exists A. split; [by constructor|done].
  - cbn -[key login_key]. destruct (encode_ok acc) as (b & -> & Hb).
    destruct (encode_ok (mkLoginIdentity k h (ac_id acc) t)) as (b' & -> & _).
    cbn -[key login_key]. eexists. split; [by constructor|].
    by apply new_login_represents.
Qed.

Lemma account_ok id s A :
  represents (rs_db s) A → coherent A → admissible A (GetAccount id) → ¬ faulty s →
  outcome (GetAccount id) A (perform (GetAccount id) s).
Proof.
  begin_op (@redb_account). rewrite (r_accounts _ _ HR). cbn. exists A. split; [constructor|done].
Qed.

Lemma swap_blob_ok id k e n s A :
  represents (rs_db s) A → coherent A → admissible A (SwapBlob id k e n) → ¬ faulty s →
  outcome (SwapBlob id k e n) A (perform (SwapBlob id k e n) s).
Proof.
  begin_op (@redb_compare_and_swap_blob_ref). rewrite (r_blobs _ _ HR). case_bool_decide as He.
  - cbn [negb]. destruct (encode_ok n) as (b & -> & Hb). cbn -[blob_key]. rewrite He.
    eexists. split; [by constructor|]. by apply swap_blob_represents.
  - cbn. exists A. split; [by constructor|done].
Qed.

Lemma blob_ref_ok id k s A :
  represents (rs_db s) A → coherent A → admissible A (GetBlobRef id k) → ¬ faulty s →
  outcome (GetBlobRef id k) A (perform (GetBlobRef id k) s).
Proof.
  begin_op (@redb_blob_ref). rewrite (r_blobs _ _ HR). cbn. exists A. split; [constructor|done].
Qed.

(** The writes of a publication to the user index. *)
Lemma rebind_table d A id u p :
  represents d A → coherent A →
  let d1 := tbl_insert USER_INDEX (UserId.as_str u) (aid id) d in
  let d2 :=
    match p with
    | Some previous =>
        if negb (bool_decide (previous = u))
           && bool_decide (tbl_get USER_INDEX (UserId.as_str previous) d1 = Some (aid id))
        then tbl_remove USER_INDEX (UserId.as_str previous) d1 else d1
    | None => d1
    end in
  (∀ t k, t ≠ USER_INDEX → tbl_get t k d2 = tbl_get t k d) ∧
  (∀ u', tbl_get USER_INDEX (UserId.as_str u') d2 = aid <$> rebind id u p (a_users A) u').
Proof.
  intros HR HC d1 d2.
  assert (∀ u', tbl_get USER_INDEX (UserId.as_str u') d1 =
    aid <$> (<[u := Some id]> (a_users A)) u') as H1.
  { intros u'. subst d1. rewrite get_insert_tbl. cleanup. destruct (decide (u = u')) as [->|Hne].
    - by rewrite decide_True.
    - rewrite decide_False by (by intros ?%UserId.uid_eq). apply HR. }
  assert (∀ u', tbl_get USER_INDEX (UserId.as_str u') d1 = Some (aid id) ↔
    (<[u := Some id]> (a_users A)) u' = Some id) as H2.
  { intros u'. rewrite H1. destruct ((<[u := Some id]> (a_users A)) u') as [[a]|]; [|done].
    destruct id. cbn. split; congruence. }
  assert (∀ t k, t ≠ USER_INDEX → tbl_get t k d1 = tbl_get t k d) as H3.
  { intros. by apply get_insert_ne. }
  subst d2. destruct p as [p|]; [|done]. unfold rebind.
  case_decide as Hp.
  - destruct Hp as [Hne Hp]. rewrite bool_decide_false, bool_decide_true by (done || by apply H2).
    cbn [negb andb]. split.
    + intros. rewrite get_remove_ne by done. by apply H3.
    + intros u'. rewrite get_remove_tbl. unfold insert at 1, fn_insert at 1.
      destruct (decide (p = u')) as [->|Hn]; [by rewrite decide_True|].
      rewrite decide_False by (by intros ?%UserId.uid_eq). apply H1.
  - destruct (negb _ && _) eqn:E; [|done]. destruct Hp. apply andb_true_iff in E as [E1 E2].
    apply negb_true_iff, bool_decide_eq_false in E1. apply bool_decide_eq_true, H2 in E2. done.
Qed.

Lemma rebind_valid id u p users u' a :
  rebind id u p users u' = Some a → a = id ∨ users u' = Some a.
Proof.
  unfold rebind. destruct p as [p|]; [case_decide|]; cleanup; repeat case_decide; naive_solver.
Qed.

Lemma swap_record_ok id u p e n s A :
  represents (rs_db s) A → coherent A → admissible A (SwapRecord id u p e n) → ¬ faulty s →
  outcome (SwapRecord id u p e n) A (perform (SwapRecord id u p e n) s).
Proof.
  begin_op (@redb_compare_and_swap_public_record_ref). rewrite (r_blobs _ _ HR). cbn zeta.
  case_bool_decide as He; cbn [negb]; [|exists A; split; [by constructor|done]].
  rewrite (r_users _ _ HR u).
  assert (match aid <$> a_users A u with
    | Some existing => negb (bool_decide (existing = aid id)) | None => false end = true ↔
    ∃ id', a_users A u = Some id' ∧ id' ≠ id) as Hbound.
  { destruct (a_users A u) as [[a]|]; cbn; [|naive_solver].
    rewrite negb_true_iff, bool_decide_eq_false. destruct id as [id].
    split; [intros Hn; exists (mkAccountId a); split; [done|by intros [= ->]]|].
    intros (id' & [= <-] & Hne) ->. by destruct Hne. }
  destruct (match aid <$> a_users A u with Some _ => _ | None => _ end).
  - destruct Hbound as [(id' & Hid & Hne) _]; [done|]. cbn. exists A. split; [|done].
    by eapply spec_record_conflict.
  - destruct (encode_ok n) as (b & -> & Hb). cbn -[blob_key]. rewrite He.
    destruct (rebind_table _ _ id u p HR HC) as [Hother Husers]. cbn zeta in Hother, Husers.
    destruct (users_represents _ _ _ _ HR HC Hother Husers) as [HR' HC'].
    { intros u' a [->|H]%rebind_valid; [done|by eapply c_users]. }
    eexists. split; [|by apply swap_blob_represents].
    constructor; [done|]. intros id' Hid. destruct (decide (id' = id)) as [|Hne]; [done|].
    by discriminate (proj2 Hbound (ex_intro _ id' (conj Hid Hne))).
Qed.
Lemma account_id_by_user_id_ok u s A :
  represents (rs_db s) A → coherent A → admissible A (AccountIdByUserId u) → ¬ faulty s →
  outcome (AccountIdByUserId u) A (perform (AccountIdByUserId u) s).
Proof.
  begin_op (@redb_account_id_by_user_id). rewrite (r_users _ _ HR).
  destruct (a_users A u) as [a|] eqn:Ha; cbn [fmap option_fmap option_map];
    [rewrite stored_valid by (by eapply c_users)|]; exists A; (split; [|done]);
    cbn; rewrite <-Ha; constructor.
Qed.

Lemma replace_session_ok se s A :
  represents (rs_db s) A → coherent A → admissible A (ReplaceSession se) → ¬ faulty s →
  outcome (ReplaceSession se) A (perform (ReplaceSession se) s).
Proof.
  begin_op (@redb_replace_session). cbn zeta. rewrite (r_sessions _ _ HR).
  destruct (encode_ok se) as (b & -> & Hb). cbn.
  eexists. split; [constructor|]. destruct Hadm. by apply replace_session_represents.
Qed.

Lemma get_session_ok h s A :
  represents (rs_db s) A → coherent A → admissible A (GetSession h) → ¬ faulty s →
  outcome (GetSession h) A (perform (GetSession h) s).
Proof.
  begin_op (@redb_session). destruct (tbl_get SESSION_INDEX h (rs_db s)) as [v|] eqn:Hv.
  - apply (r_index _ _ HR) in Hv as (se & Hcur & <- & ->).
    pose proof (current_good _ _ HC Hcur) as (Hvalid & _ & _).
    rewrite (proj2 (account_text _ Hvalid)). cbn -[decode_json].
    pose proof (r_sessions _ _ HR (se_account_id se)) as Hs. rewrite Hcur in Hs.
    destruct (tbl_get ACCOUNT_SESSIONS _ _) as [b|]; [|done]. cbn -[decode_json] in Hs |- *.
    destruct (decode_json b) as [se'|]; [|done]. cbn in Hs |- *. injection Hs as ->.
    rewrite bool_decide_true by done. exists A. split; [by constructor|done].
  - exists A. split; [|done]. apply spec_session_none. intros se Hcur <-.
    assert (tbl_get SESSION_INDEX (se_token_hash se) (rs_db s) = Some (aid (se_account_id se)));
      [apply (r_index _ _ HR); by exists se|congruence].
Qed.

Lemma bump_ok k t w s A :
  represents (rs_db s) A → coherent A → admissible A (Bump k t w) → ¬ faulty s →
  outcome (Bump k t w) A (perform (Bump k t w) s).
Proof.
  begin_op (@redb_bump_rate_limit). unfold i_leb. rewrite (i_val_sat 0) by done.
  destruct (bool_decide (k = []) || (i_val w <=? 0)%Z) eqn:E.
  - cbn. exists A. split; [|done]. apply spec_bump_bad.
    apply orb_true_iff in E as [E|E]; [left; by apply bool_decide_eq_true in E|].
    right. by apply Z.leb_le.
  - apply orb_false_iff in E as [Hk Hw]. apply bool_decide_eq_false in Hk. apply Z.leb_gt in Hw.
    rewrite begin_write_ok, (r_rates _ _ HR) by done.
    set (n := next_bucket (a_rates A k) t w).
    match goal with |- context [encode_json ?x] => change x with n end.
    destruct (encode_ok n) as (b & -> & Hb). cbn.
    exists (on_rates <[k := Some n]> A). split; [by apply spec_bump|].
    destruct Hadm as [Hutf Ht]. assert (0 ≤ i_val (rb_expires_at n))%Z.
    { assert (0 ≤ i_val (i_saturating_add t w))%Z.
      { unfold i_saturating_add. change (i_val (i_sat ?z)) with (Z.max i64_min (Z.min z i64_max)).
        unfold i64_min, i64_max. lia. }
      subst n. unfold next_bucket. destruct (a_rates A k) as [p|] eqn:Hp; [|done].
      destruct (i_ltb _ _); [|done]. by apply (c_rates _ HC _ _ Hp). }
    by apply bump_represents.
Qed.

(** ** Cleanup *)

(** One pass, over the index [t] of the entries whose expiry is [expiry] and that
    [forget] removes. *)
Section Pass.
Context {X : Type} (t : Table) (item : str → bytes → i64 → Res X) (drop : D → X → Res D)
  (mk : i64 → str → bytes → X)
  (expiry : AReg → str → option i64) (forget : AReg → str → AReg).

(** What an entry of the index says, and that every entity with an expiry has one. *)
Hypothesis expiry_pos : ∀ A s e, coherent A → expiry A s = Some e → (0 ≤ i_val e)%Z.
Hypothesis index_entry : ∀ d A k v, represents d A → coherent A → tbl_get t k d = Some v →
  ∃ e s, expiry A s = Some e ∧ k = expiry_key e s ∧ item k v e = Ok (mk e s v).
Hypothesis index_complete : ∀ d A s e, represents d A → coherent A → expiry A s = Some e →
  is_Some (tbl_get t (expiry_key e s) d).
Hypothesis drop_entry : ∀ d A e s v, represents d A → coherent A → expiry A s = Some e →
  tbl_get t (expiry_key e s) d = Some v →
  ∃ d', drop d (mk e s v) = Ok d' ∧ represents d' (forget A s) ∧ coherent (forget A s) ∧
    ∀ k, k ≠ expiry_key e s → tbl_get t k d' = tbl_get t k d.
Hypothesis forget_expiry : ∀ A s s',
  expiry (forget A s) s' = if decide (s = s') then None else expiry A s'.

Definition due_key (due : i64 * str * bytes) : str := let '(e, s, _) := due in expiry_key e s.
Definition due_item (due : i64 * str * bytes) : X := let '(e, s, v) := due in mk e s v.

(** An entry of the index that is due. *)
Definition is_due (d : D) (A : AReg) (now : i64) (due : i64 * str * bytes) : Prop :=
  let '(e, s, v) := due in
  expiry A s = Some e ∧ (i_val e ≤ i_val now)%Z ∧ tbl_get t (expiry_key e s) d = Some v.

Definition key_order (a c : str * bytes) : Prop := bytes_leb a.1 c.1 = true ∧ a.1 ≠ c.1.

(** Past the first entry that is not due, none is. *)
Lemma later_not_due A now e s v rest e' s' v' :
  coherent A → expiry A s = Some e → (i_val now < i_val e)%Z →
  Forall (key_order (expiry_key e s, v)) rest →
  (expiry_key e' s', v') ∈ (expiry_key e s, v) :: rest → expiry A s' = Some e' →
  (i_val now < i_val e')%Z.
Proof.
  intros HC He Hlt Hall Hin He'. pose proof (expiry_pos _ _ _ HC He). pose proof (expiry_pos _ _ _ HC He').
  apply elem_of_cons in Hin as [Hin|Hin].
  - apply (f_equal fst), expiry_key_inj in Hin as [-> _]; done.
  - rewrite list.Forall_forall in Hall. apply Hall in Hin as [Hle%expiry_key_order _]; lia.
Qed.

Lemma collect_due_ok d A now room entries :
  represents d A → coherent A → (∀ k v, (k, v) ∈ entries → tbl_get t k d = Some v) →
  StronglySorted key_order entries → (0 < room)%nat →
  ∃ dues, collect_due item now room entries = Ok (map due_item dues) ∧
    (length dues ≤ room)%nat ∧ NoDup (map due_key dues) ∧
    (∀ due, due ∈ dues → is_due d A now due ∧ due_key due ∈ map fst entries) ∧
    ((length dues < room)%nat → ∀ e s v, (expiry_key e s, v) ∈ entries →
      expiry A s = Some e → (i_val e ≤ i_val now)%Z → (e, s, v) ∈ dues).
Proof.
  intros HR HC. revert room. induction entries as [|[k v] rest IH]; intros room Hin Hsort Hroom.
  { exists []. cbn [length map collect_due].
    split_and!; [done|lia|constructor|intros ? []%not_elem_of_nil|intros _ ? ? ? []%not_elem_of_nil]. }
  apply StronglySorted_inv in Hsort as [Hsort Hall].
  assert (tbl_get t k d = Some v) as Hk by (apply Hin; by left).
  destruct (index_entry d A k v) as (e & s & He & -> & Hitem); try done.
  cbn [collect_due]. rewrite expiry_timestamp_key by by eapply expiry_pos. cbn -[i_ltb expiry_key].
  unfold i_ltb. destruct (Z.ltb_spec (i_val now) (i_val e)) as [Hlt|Hle].
  { exists []. cbn [length map].
    split_and!; [done|lia|constructor|intros ? []%not_elem_of_nil|].
    intros _ e' s' v' Hk' He' Hle'. pose proof (later_not_due _ _ _ _ _ _ _ _ _ HC He Hlt Hall Hk' He'). lia. }
  rewrite Hitem. cbn -[expiry_key].
  assert (is_due d A now (e, s, v)) as Hdue by done.
  destruct room as [|[|room]]; [lia| |].
  - exists [(e, s, v)]. cbn [length map].
    split_and!; [done|lia|apply NoDup_singleton| |lia].
    intros due ->%list_elem_of_singleton. split; [done|by left].
  - destruct (IH (S room)) as (dues & -> & Hlen & Hnd & Hdues & Hall'); [|done|lia|].
    { intros k' v' ?. apply Hin. by right. }
    exists ((e, s, v) :: dues). cbn [length map].
    split_and!; [done|lia| | |].
    + constructor; [|done]. intros (due & Hkey & Hd)%list_elem_of_fmap.
      apply Hdues in Hd as [_ Hd]. rewrite <-Hkey in Hd.
      apply list_elem_of_fmap in Hd as ([k' v'] & Hk' & Hd). rewrite list.Forall_forall in Hall.
      by apply Hall in Hd as [_ ?].
    + intros due [->|Hd]%elem_of_cons; [split; [done|by left]|].
      apply Hdues in Hd as [? ?]. split; [done|by right].
    + intros Hl e' s' v' [Heq|Hk']%elem_of_cons He' Hle'.
      * apply (f_equal fst) in Heq as Hkk. apply expiry_key_inj in Hkk as [-> ->];
          [|by eapply expiry_pos..]. apply (f_equal snd) in Heq as Hv. cbn in Hv. subst. by left.
      * right. apply Hall'; [lia|done..].
Qed.

Definition due_subject (due : i64 * str * bytes) : str := let '(_, s, _) := due in s.

Lemma drop_all_ok now dues d A :
  represents d A → coherent A → NoDup (map due_key dues) →
  (∀ due, due ∈ dues → is_due d A now due) →
  ∃ d', drop_all drop d (map due_item dues) = Ok d' ∧
    represents d' (fold_left forget (map due_subject dues) A) ∧
    coherent (fold_left forget (map due_subject dues) A).
Proof.
  revert d A. induction dues as [|[[e s] v] dues IH]; intros d A HR HC Hnd Hdue; [by exists d|].
  apply list.NoDup_cons in Hnd as [Hfresh Hnd].
  destruct (Hdue (e, s, v) ltac:(by left)) as (He & Hle & Hv).
  destruct (drop_entry _ _ _ _ _ HR HC He Hv) as (d1 & Hd1 & HR1 & HC1 & Hother).
  cbn [map drop_all due_item due_subject fold_left]. rewrite Hd1. cbn.
  apply IH; [done..|]. intros [[e' s'] v'] Hin.
  destruct (Hdue (e', s', v') ltac:(by right)) as (He' & Hle' & Hv').
  assert (expiry_key e' s' ≠ expiry_key e s) as Hne.
  { intros E. apply Hfresh. cbn [due_key]. rewrite <-E.
    apply list_elem_of_fmap. by exists (e', s', v'). }
  split_and!; [|done|by rewrite Hother]. rewrite forget_expiry, decide_False; [done|].
  intros <-. rewrite He in He'. injection He' as <-. done.
Qed.

(** An entity has one expiry, so distinct index keys are distinct subjects. *)
Lemma subjects_nodup d A now dues :
  NoDup (map due_key dues) → (∀ due, due ∈ dues → is_due d A now due) →
  NoDup (map due_subject dues).
Proof.
  induction dues as [|[[e s] v] dues IH]; intros Hnd Hdue; [constructor|].
  apply list.NoDup_cons in Hnd as [Hfresh Hnd].
  apply list.NoDup_cons. split; [|apply IH; [done|]; intros ? ?; apply Hdue; by right].
  intros ([[e' s'] v'] & Hs & Hin)%list_elem_of_fmap. cbn in Hs. subst s'. apply Hfresh.
  apply list_elem_of_fmap. exists (e', s, v'). split; [|done]. cbn [due_key].
  destruct (Hdue (e, s, v) ltac:(by left)) as (He & _).
  destruct (Hdue (e', s, v') ltac:(by right)) as (He' & _). congruence.
Qed.

Lemma fold_forget_expiry A ss s :
  expiry (fold_left forget ss A) s = if decide (s ∈ ss) then None else expiry A s.
Proof.
  revert A. induction ss as [|s' ss IH]; intros A; cbn [fold_left].
  { rewrite decide_False; [done|apply not_elem_of_nil]. }
  rewrite IH, forget_expiry.
  destruct (decide (s ∈ s' :: ss)) as [H|H]; rewrite elem_of_cons in H.
  - repeat case_decide; naive_solver.
  - rewrite !decide_False; [done|intros ->; naive_solver|naive_solver].
Qed.

Lemma purge_pass_ok now limit removed d A :
  represents d A → coherent A → (removed ≤ limit)%nat →
  ∃ ss d', purge_pass t item drop now limit removed d = Ok ((removed + length ss)%nat, d') ∧
    all_expired expiry now A ss ∧ (removed + length ss ≤ limit)%nat ∧
    represents d' (fold_left forget ss A) ∧ coherent (fold_left forget ss A) ∧
    ((removed + length ss < limit)%nat → none_expired expiry now (fold_left forget ss A)).
Proof.
  intros HR HC Hle. unfold purge_pass. destruct (Nat.ltb_spec removed limit) as [Hlt|Hge]; cycle 1.
  { exists [], d. rewrite Nat.add_0_r. split_and!; try done; [|lia].
    split; [constructor|by intros ? []%not_elem_of_nil]. }
  destruct (collect_due_ok d A now (limit - removed) (tbl_iter t d))
    as (dues & -> & Hlen & Hnd & Hdues & Hall);
    [done|done|by intros; apply iter_get|apply iter_sorted|lia|].
  destruct (drop_all_ok now dues d A) as (d' & Hd' & HR' & HC'); [done..|by intros ? []%Hdues|].
  cbn. rewrite Hd'. cbn. rewrite length_map.
  exists (map due_subject dues), d'. rewrite length_map.
  split_and!; [done| |lia|done|done|].
  - split.
    + eapply subjects_nodup; [done|]. by intros ? []%Hdues.
    + intros s ([[e s'] v] & -> & Hd)%list_elem_of_fmap. apply Hdues in Hd as [(He & Hn & _) _].
      by exists e.
  - intros Hless s e He. rewrite fold_forget_expiry in He. case_decide as Hs; [done|].
    destruct (Z.lt_ge_cases (i_val now) (i_val e)) as [|Hdue]; [done|]. destruct Hs.
    destruct (index_complete _ _ _ _ HR HC He) as [v Hv].
    apply list_elem_of_fmap. exists (e, s, v). split; [done|].
    apply Hall; [lia| |done|done]. by apply iter_get.
Qed.
End Pass.

(** The three passes. *)
Lemma token_expiry_Some A h e :
  token_expiry A h = Some e ↔ ∃ t, a_tokens A h = Some t ∧ lt_expires_at t = e.
Proof. etransitivity; [apply fmap_Some|]. by split; intros (x & ? & ?); exists x. Qed.
Lemma rate_expiry_Some A k e :
  rate_expiry A k = Some e ↔ ∃ b, a_rates A k = Some b ∧ rb_expires_at b = e.
Proof. etransitivity; [apply fmap_Some|]. by split; intros (x & ? & ?); exists x. Qed.

Lemma session_expiry_Some A a e : coherent A →
  session_expiry A a = Some e ↔
  ∃ s, current_session A s ∧ aid (se_account_id s) = a ∧ se_expires_at s = e.
Proof.
  intros HC. unfold session_expiry. rewrite fmap_Some. split; intros (s & Hs & H).
  - destruct (current_of _ _ _ HC Hs) as [Ha Hcur]. exists s. by rewrite Ha.
  - exists s. destruct H as [<- <-]. split; [|done].
    unfold current_session in Hs. by destruct (se_account_id s).
Qed.

Lemma purge_tokens now limit removed d A :
  represents d A → coherent A → (removed ≤ limit)%nat →
  ∃ ss d',
    purge_pass LOGIN_TOKEN_EXPIRY login_item (λ d due, Ok (drop_login d due)) now limit removed d
      = Ok ((removed + length ss)%nat, d') ∧
    all_expired token_expiry now A ss ∧ (removed + length ss ≤ limit)%nat ∧
    represents d' (fold_left forget_token ss A) ∧ coherent (fold_left forget_token ss A) ∧
    ((removed + length ss < limit)%nat →
      none_expired token_expiry now (fold_left forget_token ss A)).
Proof.
  apply (purge_pass_ok LOGIN_TOKEN_EXPIRY login_item _ (λ e s _, (expiry_key e s, s))).
  - intros A' s e HC (t & Ht & <-)%token_expiry_Some. by apply (c_tokens _ HC _ _ Ht).
  - intros d' A' k v HR HC (h & t & Ht & -> & ->)%(r_token_expiry _ _ HR).
    exists (lt_expires_at t), h. split_and!; [apply token_expiry_Some; eauto|done|].
    unfold login_item. rewrite expiry_subject_key; [done|]. by apply (c_tokens _ HC _ _ Ht).
  - intros d' A' s e HR HC (t & Ht & <-)%token_expiry_Some. exists [].
    apply (r_token_expiry _ _ HR). eauto.
  - intros d' A' e s v HR HC (t & Ht & <-)%token_expiry_Some _. eexists. split; [done|].
    destruct (forget_token_represents _ _ _ _ HR HC Ht). split_and!; [done..|].
    intros k Hk. cbn -[expiry_key]. rewrite get_remove_tbl, decide_False by done.
    by apply get_remove_ne.
  - intros A' s s'. unfold token_expiry, forget_token. cbn [a_tokens on_tokens]. cleanup.
    by case_decide.
Qed.

Lemma purge_sessions now limit removed d A :
  represents d A → coherent A → (removed ≤ limit)%nat →
  ∃ ss d',
    purge_pass SESSION_EXPIRY session_item drop_session now limit removed d
      = Ok ((removed + length ss)%nat, d') ∧
    all_expired session_expiry now A ss ∧ (removed + length ss ≤ limit)%nat ∧
    represents d' (fold_left forget_session ss A) ∧ coherent (fold_left forget_session ss A) ∧
    ((removed + length ss < limit)%nat →
      none_expired session_expiry now (fold_left forget_session ss A)).
Proof.
  apply (purge_pass_ok SESSION_EXPIRY session_item _ (λ e s v, (expiry_key e s, s, v, e))).
  - intros A' s e HC (se & Hs & _ & <-)%session_expiry_Some; [|done].
    by apply (current_good _ _ HC Hs).
  - intros d' A' k v HR HC (se & Hs & -> & ->)%(r_session_expiry _ _ HR).
    pose proof (current_good _ _ HC Hs) as (Hv & Ht & _).
    exists (se_expires_at se), (aid (se_account_id se)).
    split_and!; [apply session_expiry_Some; eauto|done|].
    unfold session_item. rewrite (proj2 Ht). cbn -[expiry_key].
    by rewrite expiry_subject_key by apply (account_text _ Hv).
  - intros d' A' s e HR HC (se & Hs & <- & <-)%session_expiry_Some; [|done].
    exists (se_token_hash se). apply (r_session_expiry _ _ HR). eauto.
  - intros d' A' e s v HR HC (se & Hs & <- & <-)%session_expiry_Some Hv; [|done].
    apply (r_session_expiry _ _ HR) in Hv as (se' & Hs' & Hk & ->).
    apply expiry_key_inj in Hk as [_ Hk]; [|by eapply current_good..].
    assert (se' = se) as ->.
    { unfold current_session in Hs, Hs'. destruct (se_account_id se), (se_account_id se').
      cbn in Hk. congruence. }
    unfold drop_session. rewrite (r_sessions _ _ HR (se_account_id se)), Hs.
    cbn -[expiry_key]. rewrite !bool_decide_true by done. cbn -[expiry_key].
    eexists. split; [done|].
    destruct (forget_session_represents _ _ _ HR HC Hs) as [HR' HC'].
    split_and!; [|exact HC'|].
    + by destruct (se_account_id se).
    + intros k Hne. rewrite get_remove_tbl, decide_False, !get_remove_ne by done. done.
  - intros A' s s'. unfold session_expiry, forget_session. cbn [a_sessions on_sessions]. cleanup.
    repeat case_decide; naive_solver.
Qed.

Lemma purge_rates now limit removed d A :
  represents d A → coherent A → (removed ≤ limit)%nat →
  ∃ ss d',
    purge_pass RATE_EXPIRY rate_item drop_rate now limit removed d
      = Ok ((removed + length ss)%nat, d') ∧
    all_expired rate_expiry now A ss ∧ (removed + length ss ≤ limit)%nat ∧
    represents d' (fold_left forget_rate ss A) ∧ coherent (fold_left forget_rate ss A) ∧
    ((removed + length ss < limit)%nat →
      none_expired rate_expiry now (fold_left forget_rate ss A)).
Proof.
  apply (purge_pass_ok RATE_EXPIRY rate_item _ (λ e s _, (expiry_key e s, s, e))).
  - intros A' s e HC (b & Hb & <-)%rate_expiry_Some. by apply (c_rates _ HC _ _ Hb).
  - intros d' A' k v HR HC (r & b & Hb & -> & ->)%(r_rate_expiry _ _ HR).
    exists (rb_expires_at b), r. split_and!; [apply rate_expiry_Some; eauto|done|].
    unfold rate_item. rewrite expiry_subject_key; [done|]. by apply (c_rates _ HC _ _ Hb).
  - intros d' A' s e HR HC (b & Hb & <-)%rate_expiry_Some. exists [].
    apply (r_rate_expiry _ _ HR). eauto.
  - intros d' A' e s v HR HC (b & Hb & <-)%rate_expiry_Some _.
    unfold drop_rate. rewrite (r_rates _ _ HR s), Hb. cbn -[expiry_key].
    rewrite bool_decide_true by done. eexists. split; [done|].
    destruct (forget_rate_represents _ _ _ _ HR HC Hb). split_and!; [done..|].
    intros k Hk. rewrite get_remove_tbl, decide_False, get_remove_ne by done. done.
  - intros A' s s'. unfold rate_expiry, forget_rate. cbn [a_rates on_rates]. cleanup.
    by case_decide.
Qed.

Lemma fold_left_keep {B C} (f : AReg → B) (forget : AReg → C → AReg) ss A :
  (∀ A s, f (forget A s) = f A) → f (fold_left forget ss A) = f A.
Proof. intros H. revert A. induction ss as [|s ss IH]; intros A; [done|]. cbn. by rewrite IH. Qed.

Lemma all_expired_ext expiry now A A' ss :
  (∀ s, expiry A s = expiry A' s) → all_expired expiry now A ss → all_expired expiry now A' ss.
Proof. intros H [Hnd Hs]. split; [done|]. intros s Hin. rewrite <-H. auto. Qed.

Lemma none_expired_ext expiry now A A' :
  (∀ s, expiry A s = expiry A' s) → none_expired expiry now A → none_expired expiry now A'.
Proof. intros H Hn s e He. rewrite <-H in He. by eapply Hn. Qed.

Lemma purge_ok now limit s A :
  represents (rs_db s) A → coherent A → admissible A (Purge now limit) → ¬ faulty s →
  outcome (Purge now limit) A (perform (Purge now limit) s).
Proof.
  begin_op (@redb_purge_expired). destruct (Nat.eqb_spec limit 0) as [->|Hlimit].
  { exists A. split; [|done]. cbn. eapply (spec_purge _ _ _ _ _ [] [] []); try done; try lia;
      (split; [constructor|by intros ? []%not_elem_of_nil]). }
  rewrite begin_write_ok by done.
  destruct (purge_tokens now limit 0 _ _ HR HC) as (ts & d1 & -> & Ht & Hl1 & HR1 & HC1 & Hn1);
    [lia|]. cbn -[purge_pass Nat.ltb].
  destruct (purge_sessions now limit (length ts) _ _ HR1 HC1)
    as (ss & d2 & -> & Hs & Hl2 & HR2 & HC2 & Hn2); [done|]. cbn -[purge_pass Nat.ltb].
  destruct (purge_rates now limit (length ts + length ss) _ _ HR2 HC2)
    as (rs & d3 & -> & Hr & Hl3 & HR3 & HC3 & Hn3); [done|]. cbn -[purge_pass Nat.ltb].
  eexists. split; [|split; [exact HR3|exact HC3]].
  assert (∀ A ss, a_sessions (fold_left forget_token ss A) = a_sessions A) as Kst
    by (intros; by apply fold_left_keep).
  assert (∀ A ss, a_rates (fold_left forget_token ss A) = a_rates A) as Krt
    by (intros; by apply fold_left_keep).
  assert (∀ A ss, a_rates (fold_left forget_session ss A) = a_rates A) as Krs
    by (intros; by apply fold_left_keep).
  assert (∀ A ss, a_tokens (fold_left forget_session ss A) = a_tokens A) as Kts
    by (intros; by apply fold_left_keep).
  assert (∀ A ss, a_tokens (fold_left forget_rate ss A) = a_tokens A) as Ktr
    by (intros; by apply fold_left_keep).
  assert (∀ A ss, a_sessions (fold_left forget_rate ss A) = a_sessions A) as Ksr
    by (intros; by apply fold_left_keep).
  eapply (spec_purge _ _ _ _ _ ts ss rs); [done| | |done|done|done|].
  - eapply all_expired_ext, Hs. intros a. unfold session_expiry. by rewrite Kst.
  - eapply all_expired_ext, Hr. intros k. unfold rate_expiry. by rewrite Krs, Krt.
  - intros Hless. split_and!; [| |by apply Hn3].
    + eapply none_expired_ext, Hn1; [|lia]. intros h. unfold token_expiry. by rewrite Ktr, Kts.
    + eapply none_expired_ext, Hn2; [|lia]. intros a. unfold session_expiry. by rewrite Ksr.
Qed.

Lemma perform_ok op s A :
  represents (rs_db s) A → coherent A → admissible A op → ¬ faulty s →
  outcome op A (perform op s).
Proof.
  destruct op; eauto using put_login_token_ok, take_login_token_ok, account_id_by_login_ok,
    get_or_create_ok, account_ok, swap_blob_ok, blob_ref_ok, swap_record_ok,
    account_id_by_user_id_ok, replace_session_ok, get_session_ok, bump_ok, purge_ok.
Qed.

(** The failures left to come. *)
Definition faults (s : RedbRegistryStore D) : nat := length (List.filter id (rs_faults s)).

Definition failed {X} (r : Res X * RedbRegistryStore D) (s : RedbRegistryStore D) : Prop :=
  ∃ m, fst r = Err (internal m) ∧ rs_db (snd r) = rs_db s ∧ S (faults (snd r)) = faults s.

Lemma begin_write_failed {X} (body : D → TxEnd D X) s : faulty s → failed (begin_write body s) s.
Proof. destruct s as [d [|[] f]]; intros H; try discriminate H. eexists. split_and!; reflexivity. Qed.

Lemma map_reply_failed {X} (f : X → Reply) (m : R (RedbRegistryStore D) X) s :
  failed (m s) s → failed (map_reply f m s) s.
Proof.
  intros (msg & H1 & H2 & H3). exists msg. unfold map_reply, bindR.
  destruct (m s) as [[x|e] s']; cbn in *; [discriminate H1|]. injection H1 as ->. done.
Qed.

(** A transaction the database fails has no effect. *)
Lemma perform_fault op s A :
  represents (rs_db s) A → coherent A → faulty s →
  outcome op A (perform op s) ∨ failed (perform op s) s.
Proof.
  intros HR HC Hf. destruct op as [| | | | | | | | | | |k t w|t n];
    try (right; by apply map_reply_failed, begin_write_failed).
  - cbn. unfold redb_bump_rate_limit, map_reply, bindR.
    destruct (bool_decide (k = []) || i_leb w (I64 0)) eqn:E.
    + left. exists A. split; [|done]. cbn. apply spec_bump_bad.
      apply orb_true_iff in E as [E|E]; [left; by apply bool_decide_eq_true in E|].
      right. by apply Z.leb_le.
    + right. by apply map_reply_failed, begin_write_failed.
  - cbn. unfold redb_purge_expired. destruct (Nat.eqb_spec n 0) as [->|Hn].
    + left. exists A. split; [|done]. cbn. eapply (spec_purge _ _ _ _ _ [] [] []); try done; try lia;
        (split; [constructor|by intros ? []%not_elem_of_nil]).
    + right. by apply map_reply_failed, begin_write_failed.
Qed.

Lemma begin_write_faults {X} (body : D → TxEnd D X) s :
  (faults (snd (begin_write body s)) ≤ faults s)%nat.
Proof.
  destruct s as [d [|[] f]]; unfold begin_write, faults; cbn; [|lia|];
    destruct (body d); cbn; lia.
Qed.

Lemma map_reply_faults {X} (f : X → Reply) (m : R (RedbRegistryStore D) X) s :
  (faults (snd (m s)) ≤ faults s)%nat → (faults (snd (map_reply f m s)) ≤ faults s)%nat.
Proof. unfold map_reply, bindR. by destruct (m s) as [[x|e] s']. Qed.

Lemma perform_faults op s : (faults (snd (perform op s)) ≤ faults s)%nat.
Proof.
  destruct op as [| | | | | | | | | | |k t w|t n]; apply map_reply_faults;
    try apply begin_write_faults; cbn.
  - unfold redb_bump_rate_limit. destruct (_ || _); [done|apply begin_write_faults].
  - unfold redb_purge_expired. destruct (_ =? _)%nat; [done|apply begin_write_faults].
Qed.

End Refinement.
