(* ===== verification/RegistryRuns.v ===== *)
(** * RegistryRuns: runs of the metadata store, and what the service gets from them *)

From stdpp Require Import functions.
From S2P Require Import Prelude Std Crypto Wire UserId Registry RegistrySpec RegistryProps.

(** ** The effect of one request on each map *)

Lemma fold_forget_token ts A h :
  a_tokens (fold_left forget_token ts A) h = if decide (h ∈ ts) then None else a_tokens A h.
Proof.
  revert A. induction ts as [|t ts IH]; intros A; cbn [fold_left].
  { rewrite decide_False; [done|apply not_elem_of_nil]. }
  rewrite IH. unfold forget_token. cbn [a_tokens on_tokens]. unfold insert, fn_insert.
  destruct (decide (h ∈ t :: ts)) as [H|H]; rewrite elem_of_cons in H.
  - repeat case_decide; naive_solver.
  - rewrite !decide_False; [done|intros ->; naive_solver|naive_solver].
Qed.

Lemma fold_forget_rate rs A k :
  a_rates (fold_left forget_rate rs A) k = if decide (k ∈ rs) then None else a_rates A k.
Proof.
  revert A. induction rs as [|t ts IH]; intros A; cbn [fold_left].
  { rewrite decide_False; [done|apply not_elem_of_nil]. }
  rewrite IH. unfold forget_rate. cbn [a_rates on_rates]. unfold insert, fn_insert.
  destruct (decide (k ∈ t :: ts)) as [H|H]; rewrite elem_of_cons in H.
  - repeat case_decide; naive_solver.
  - rewrite !decide_False; [done|intros ->; naive_solver|naive_solver].
Qed.

Lemma fold_forget_session ss A a :
  a_sessions (fold_left forget_session ss A) a =
  if decide (aid a ∈ ss) then None else a_sessions A a.
Proof.
  revert A. induction ss as [|t ts IH]; intros A; cbn [fold_left].
  { rewrite decide_False; [done|apply not_elem_of_nil]. }
  rewrite IH. unfold forget_session. cbn [a_sessions on_sessions]. unfold insert, fn_insert.
  destruct a as [a]. cbn [aid].
  destruct (decide (a ∈ t :: ts)) as [H|H]; rewrite elem_of_cons in H.
  - repeat case_decide; naive_solver.
  - rewrite !decide_False; [done|intros [= ->]; naive_solver|naive_solver].
Qed.

(** What a purge leaves of the maps. *)
Lemma purged_tokens ts ss rs A h :
  a_tokens (fold_left forget_rate rs (fold_left forget_session ss (fold_left forget_token ts A))) h =
  if decide (h ∈ ts) then None else a_tokens A h.
Proof. rewrite !(fold_left_keep a_tokens) by done. apply fold_forget_token. Qed.
Lemma purged_sessions ts ss rs A a :
  a_sessions (fold_left forget_rate rs (fold_left forget_session ss (fold_left forget_token ts A))) a =
  if decide (aid a ∈ ss) then None else a_sessions A a.
Proof.
  rewrite (fold_left_keep a_sessions), fold_forget_session by done.
  by rewrite (fold_left_keep a_sessions) by done.
Qed.
Lemma purged_rates ts ss rs A k :
  a_rates (fold_left forget_rate rs (fold_left forget_session ss (fold_left forget_token ts A))) k =
  if decide (k ∈ rs) then None else a_rates A k.
Proof. rewrite fold_forget_rate. by rewrite !(fold_left_keep a_rates) by done. Qed.

(** ** Token hashes in use *)

Lemma spec_tokens op A r A' h t :
  spec op A r A' → a_tokens A' h = Some t → a_tokens A h = Some t ∨ op = PutLoginToken h t.
Proof.
  intros H Ht. destruct H; try (by left);
    [|cbn [a_tokens forget_token on_tokens] in Ht|subst A'; rewrite purged_tokens in Ht].
  - cbn [a_tokens on_tokens] in Ht. unfold insert, fn_insert in Ht. case_decide; [|by left].
    injection Ht as ->. subst. by right.
  - unfold insert, fn_insert in Ht. case_decide; [done|by left].
  - case_decide; [done|by left].
Qed.

Lemma spec_sessions op A r A' s :
  spec op A r A' → current_session A' s → current_session A s ∨ op = ReplaceSession s.
Proof.
  intros H Hs. destruct H; try (by left).
  - apply current_insert in Hs as [->|[_ Hs]]; [by right|by left].
  - subst A'. unfold current_session in Hs. rewrite purged_sessions in Hs.
    case_decide; [done|by left].
Qed.

(** What a request brings in is well formed. *)
Definition well_formed (op : Op) : Prop :=
  match op with
  | PutLoginToken h t => good_token h t
  | GetOrCreate _ _ acc _ => account_valid (ac_id acc) = true
  | SwapRecord id _ _ _ _ => account_valid id = true
  | ReplaceSession s => good_session s
  | Bump k now _ => from_utf8 k = Some k ∧ (0 ≤ i_val now)%Z
  | _ => True
  end.

(** Fresh token hashes: each is brought into use once, and is not in use yet. *)
Record fresh (A : AReg) (ops : list Op) : Prop := {
  f_tokens : NoDup (omap new_token ops);
  f_sessions : NoDup (omap new_session ops);
  f_new_tokens h t : h ∈ omap new_token ops → a_tokens A h = Some t → False;
  f_new_sessions s : se_token_hash s ∈ omap new_session ops → current_session A s → False
}.

Lemma fresh_admissible A op ops : well_formed op → fresh A (op :: ops) → admissible A op.
Proof.
  intros Hw Hf. destruct op; try done; cbn in *; split; try done.
  - destruct (a_tokens A token_hash) eqn:E; [|done]. exfalso.
    eapply (f_new_tokens _ _ Hf); [|done]. by left.
  - intros s' Hs' E. eapply (f_new_sessions _ _ Hf); [|done]. rewrite E. by left.
Qed.

Lemma fresh_tail A op ops : fresh A (op :: ops) → fresh A ops.
Proof.
  intros [H1 H2 H3 H4]. cbn [omap list_omap] in *. destruct op; cbn in *; split; try done.
  all: first [by apply list.NoDup_cons in H1 as [_ ?]|by apply list.NoDup_cons in H2 as [_ ?]|idtac].
  - intros h t ?. apply H3. by right.
  - intros s' ?. apply H4. by right.
Qed.

Lemma fresh_neutral A op ops :
  new_token op = None → new_session op = None → fresh A ops → fresh A (op :: ops).
Proof.
  intros Ht Hs [H1 H2 H3 H4].
  assert (omap new_token (op :: ops) = omap new_token ops) as Et by (cbn; by rewrite Ht).
  assert (omap new_session (op :: ops) = omap new_session ops) as Es by (cbn; by rewrite Hs).
  split; rewrite ?Et, ?Es; [done|done| |]; intros; rewrite ?Et, ?Es in *; eauto.
Qed.

Lemma fresh_step A op r A' ops : fresh A (op :: ops) → spec op A r A' → fresh A' ops.
Proof.
  intros Hf Hspec. pose proof (fresh_tail _ _ _ Hf) as Hf'. split; try apply Hf'.
  - intros h t Hin Ht. destruct (spec_tokens _ _ _ _ _ _ Hspec Ht) as [H| ->].
    + by eapply (f_new_tokens _ _ Hf').
    + pose proof (f_tokens _ _ Hf) as Hnd. by apply list.NoDup_cons in Hnd as [? _].
  - intros s Hin Hs. destruct (spec_sessions _ _ _ _ _ Hspec Hs) as [H| ->].
    + by eapply (f_new_sessions _ _ Hf').
    + pose proof (f_sessions _ _ Hf) as Hnd. by apply list.NoDup_cons in Hnd as [? _].
Qed.

Lemma fresh_run n A ops rs A' rest : fresh A (ops ++ rest) → spec_run n A ops rs A' → fresh A' rest.
Proof.
  intros Hf Hrun. revert Hf. induction Hrun; intros Hf; [done| |].
  - apply IHHrun. by eapply fresh_step.
  - apply IHHrun. by eapply fresh_tail.
Qed.

Lemma fresh_prefix A ops rest : fresh A (ops ++ rest) → fresh A ops.
Proof.
  intros [H1 H2 H3 H4]. rewrite omap_app in *.
  split; [by apply list.NoDup_app in H1 as [? _]|by apply list.NoDup_app in H2 as [? _]| |].
  - intros h t ?. apply H3. set_solver.
  - intros s ?. apply H4. set_solver.
Qed.

Section Runs.
Context {D : Type} `{!Redb D, !RedbLaws D}.
Context `{!Json LoginToken, !Json Account, !Json LoginIdentity, !Json BlobRef, !Json Session,
  !Json RateLimitBucket}.
Context `{!JsonTotal LoginToken, !JsonTotal Account, !JsonTotal LoginIdentity, !JsonTotal BlobRef,
  !JsonTotal Session, !JsonTotal RateLimitBucket}.

(** ** Runs of the implementation are runs of the specification *)

Lemma runs_refine ops (s : RedbRegistryStore D) A :
  represents (rs_db s) A → coherent A → Forall well_formed ops → fresh A ops →
  ∃ n A', (n ≤ faults s)%nat ∧ spec_run n A ops (fst (run_ops ops s)) A' ∧
    represents (rs_db (snd (run_ops ops s))) A' ∧ coherent A'.
Proof.
  revert s A. induction ops as [|op ops IH]; intros s A HR HC Hw Hf.
  { exists 0%nat, A. split_and!; [lia|constructor|done|done]. }
  apply list.Forall_cons in Hw as [Hop Hw]. pose proof (fresh_admissible _ _ _ Hop Hf) as Hadm.
  pose proof (perform_faults op s) as Hfaults.
  assert (outcome op A (perform op s) ∨ failed (perform op s) s) as [(A1 & Hspec & HR1 & HC1)|Hfail].
  { destruct (decide (head (rs_faults s) = Some true)) as [Hfl|Hfl];
      [by apply perform_fault|left; by apply perform_ok]. }
  - destruct (IH (snd (perform op s)) A1 HR1 HC1 Hw) as (n & A' & Hn & Hrun & HR' & HC');
      [by eapply fresh_step|].
    exists n, A'. cbn [run_ops]. destruct (perform op s) as [r s1]. cbn [fst snd] in *.
    destruct (run_ops ops s1) as [rs s2]. split_and!; [lia|by econstructor|done|done].
  - destruct Hfail as (m & Hr & Hdb & Hcount).
    destruct (IH (snd (perform op s)) A) as (n & A' & Hn & Hrun & HR' & HC');
      [by rewrite Hdb|done|done|by eapply fresh_tail|].
    exists (S n), A'. cbn [run_ops]. destruct (perform op s) as [r s1]. cbn [fst snd] in *. subst r.
    destruct (run_ops ops s1) as [rs s2]. split_and!; [lia|by constructor|done|done].
Qed.

(** ** Opening a database *)

(** The tables of a database written before there were expiry indexes. *)
Record unindexed (d : D) (A : AReg) : Prop := {
  u_tokens h : decode_opt (tbl_get LOGIN_TOKENS h d) = Ok (a_tokens A h);
  u_logins k h : tbl_get LOGIN_INDEX (login_key k h) d = aid <$> a_logins A (k, h);
  u_accounts a : decode_opt (tbl_get ACCOUNTS (aid a) d) = Ok (a_accounts A a);
  u_blobs a k : decode_opt (tbl_get BLOBS (blob_key a k) d) = Ok (a_blobs A (a, k));
  u_users u : tbl_get USER_INDEX (UserId.as_str u) d = aid <$> a_users A u;
  u_sessions a : decode_opt (tbl_get ACCOUNT_SESSIONS (aid a) d) = Ok (a_sessions A a);
  u_rates k : decode_opt (tbl_get RATES k d) = Ok (a_rates A k);
  u_index h v :
    tbl_get SESSION_INDEX h d = Some v ↔
    ∃ s, current_session A s ∧ se_token_hash s = h ∧ v = aid (se_account_id s);
  u_empty t k : t ∈ [LOGIN_TOKEN_EXPIRY; SESSION_EXPIRY; RATE_EXPIRY] → tbl_get t k d = None;
  u_marker : tbl_get META EXPIRY_INDEX_MARKER d = None
}.

Section Backfill.
Context {T : Type} `{!Json T} (t : Table) (ikey : str → T → str) (ival : T → bytes).
Definition put_index (d : D) (k : str) (x : T) : D := tbl_insert t (ikey k x) (ival x) d.

(** The index entry of one stored entity. *)
Definition indexed (entries : list (str * bytes)) (k : str) (v : bytes) : Prop :=
  ∃ k0 v0 x, (k0, v0) ∈ entries ∧ decode_json v0 = Ok x ∧ k = ikey k0 x ∧ v = ival x.

Lemma backfill_ok entries (Q : str → bytes → Prop) d :
  (∀ k v, (k, v) ∈ entries → ∃ x : T, decode_json v = Ok x) →
  NoDup (map fst entries) →
  (∀ k v k' v' (x x' : T), (k, v) ∈ entries → (k', v') ∈ entries →
    decode_json v = Ok x → decode_json v' = Ok x' → ikey k x = ikey k' x' → k = k') →
  (∀ k v, tbl_get t k d = Some v ↔ Q k v) →
  (∀ k v, indexed entries k v → ∀ v', ¬ Q k v') →
  ∃ d', backfill put_index entries d = Ok d' ∧
    (∀ t' k, t ≠ t' → tbl_get t' k d' = tbl_get t' k d) ∧
    ∀ k v, tbl_get t k d' = Some v ↔ indexed entries k v ∨ Q k v.
Proof.
  revert Q d. induction entries as [|[k0 v0] rest IH]; intros Q d Hdec Hnd Hinj HQ Hdisj.
  { exists d. cbn. split_and!; [done..|]. intros k v. rewrite HQ. split; [by right|].
    intros [(? & ? & ? & []%not_elem_of_nil & _)|?]; done. }
  destruct (Hdec k0 v0 ltac:(by left)) as [x0 Hx0]. cbn [backfill]. rewrite Hx0. cbn -[backfill].
  apply list.NoDup_cons in Hnd as [Hk0 Hnd].
  destruct (IH (λ k v, (k = ikey k0 x0 ∧ v = ival x0) ∨ Q k v) (put_index d k0 x0))
    as (d' & Hd' & Hother & Hget).
  - intros k v ?. apply (Hdec k v). by right.
  - done.
  - intros k v k' v' x x' ? ?. apply Hinj; by right.
  - intros k v. unfold put_index. rewrite get_insert_tbl. case_decide as Hk.
    + subst k. split; [intros [= <-]; by left|].
      intros [[_ ->]|Hq]; [done|]. exfalso. apply (Hdisj (ikey k0 x0) (ival x0)) in Hq; [done|].
      exists k0, v0, x0. split_and!; [by left|done..].
    + rewrite HQ. split; [by right|]. intros [[-> _]|?]; done.
  - intros k v (k1 & v1 & x1 & Hin & Hx1 & -> & ->) v' [[Heq _]|Hq].
    + assert (k1 = k0) as ->.
      { eapply (Hinj k1 v1 k0 v0); [by right|by left|done..]. }
      apply Hk0, list_elem_of_fmap. by exists (k0, v1).
    + eapply (Hdisj (ikey k1 x1) (ival x1)); [|done].
      exists k1, v1, x1. split_and!; [by right|done..].
  - exists d'. split; [done|]. split.
    + intros t' k Ht. rewrite Hother by done. by apply get_insert_ne.
    + intros k v. rewrite Hget. split.
      * intros [(k1 & v1 & x1 & Hin & H)|[[-> ->]|Hq]]; [left|left|by right].
        -- exists k1, v1, x1. split; [by right|done].
        -- exists k0, v0, x0. split_and!; [by left|done..].
      * intros [(k1 & v1 & x1 & [[= -> ->]|Hin]%elem_of_cons & Hx & -> & ->)|Hq]; [| |by right; right].
        -- right; left. rewrite Hx0 in Hx. by injection Hx as ->.
        -- left. exists k1, v1, x1. by split_and!.
Qed.
End Backfill.

(** The entries of a table, decoded. *)
Lemma iter_nodup t (d : D) : NoDup (map fst (tbl_iter t d)).
Proof.
  pose proof (iter_sorted t d) as H. induction H as [|[k v] l H IH Hall]; [constructor|].
  cbn [map]. apply list.NoDup_cons. split; [|done].
  intros ([k' v'] & Hk & Hin)%list_elem_of_fmap. rewrite list.Forall_forall in Hall.
  by apply Hall in Hin as [_ ?].
Qed.

Lemma decode_entry {T} `{!Json T} t k v (o : option T) (d : D) :
  decode_opt (tbl_get t k d) = Ok o → (k, v) ∈ tbl_iter t d → ∃ x, decode_json v = Ok x ∧ o = Some x.
Proof.
  intros Ho Hin%iter_get. rewrite Hin in Ho. cbn in Ho.
  change (from_slice v) with (from_slice (T := T) v) in Ho.
  destruct (decode_json v) as [x|]; [|done]. exists x. cbn in Ho. split; congruence.
Qed.

Lemma entry_of {T} `{!Json T} t k (x : T) (d : D) :
  decode_opt (tbl_get t k d) = Ok (Some x) → ∃ v, (k, v) ∈ tbl_iter t d ∧ decode_json v = Ok x.
Proof.
  destruct (tbl_get t k d) as [v|] eqn:Hv; [|done]. cbn. intros H. exists v. split; [by apply iter_get|].
  change (from_slice v) with (from_slice (T := T) v) in H.
  destruct (decode_json v); [|done]. cbn in H. congruence.
Qed.

(** One index of an old database: the entities of [main], by the expiry [ex] of each. *)
Lemma backfill_index {T} `{!Json T} (main index : Table) (ex : T → i64) (ival : T → bytes)
    (contents : str → option T) (d0 d : D) :
  (∀ k, decode_opt (tbl_get main k d0) = Ok (contents k)) →
  (∀ k x, contents k = Some x → (0 ≤ i_val (ex x))%Z) →
  (∀ k, tbl_get index k d = None) →
  ∃ d', backfill (put_index index (λ k x, expiry_key (ex x) k) ival) (tbl_iter main d0) d = Ok d' ∧
    (∀ t' k, index ≠ t' → tbl_get t' k d' = tbl_get t' k d) ∧
    ∀ k v, tbl_get index k d' = Some v ↔
      ∃ k0 x, contents k0 = Some x ∧ k = expiry_key (ex x) k0 ∧ v = ival x.
Proof.
  intros Hmain Hpos Hempty.
  assert (∀ k v x, (k, v) ∈ tbl_iter main d0 → decode_json v = Ok x → contents k = Some x) as Hin.
  { intros k v x Hkv Hx. destruct (decode_entry _ _ _ _ _ (Hmain k) Hkv) as (x' & Hx' & ->). congruence. }
  destruct (backfill_ok index (λ k x, expiry_key (ex x) k) ival (tbl_iter main d0) (λ _ _, False) d)
    as (d' & Hd' & Hother & Hget).
  - intros k v Hkv. destruct (decode_entry _ _ _ _ _ (Hmain k) Hkv) as (x & Hx & _). by exists x.
  - apply iter_nodup.
  - intros k v k' v' x x' H1 H2 Hx Hx' E.
    apply expiry_key_inj in E as [_ ?]; [done| |];
      [by apply (Hpos k), (Hin k v)|by apply (Hpos k'), (Hin k' v')].
  - intros k v. rewrite Hempty. done.
  - by intros k v _ v' [].
  - exists d'. split_and!; [done|done|]. intros k v. rewrite Hget. split.
    + intros [(k0 & v0 & x & H1 & Hx & H2)|[]]. exists k0, x. split; [by apply (Hin _ v0)|done].
    + intros (k0 & x & Hx & H2). left. pose proof (Hmain k0) as Hk. rewrite Hx in Hk.
      apply entry_of in Hk as (v0 & H1 & Hv0). by exists k0, v0, x.
Qed.

Lemma session_contents A (d : D) a :
  (∀ a, decode_opt (tbl_get ACCOUNT_SESSIONS (aid a) d) = Ok (a_sessions A a)) →
  decode_opt (tbl_get ACCOUNT_SESSIONS a d) = Ok (a_sessions A (mkAccountId a)).
Proof. intros H. apply (H (mkAccountId a)). Qed.

Lemma init_ok s A :
  unindexed (rs_db s) A → coherent A → ¬ faulty s →
  fst (init s) = Ok tt ∧ represents (rs_db (snd (init s))) A.
Proof.
  intros HU HC Hf. unfold init. rewrite begin_write_ok, (u_marker _ _ HU) by done. cbn zeta.
  destruct (backfill_index LOGIN_TOKENS LOGIN_TOKEN_EXPIRY lt_expires_at (λ _, []) (a_tokens A)
    (rs_db s) (rs_db s)) as (d1 & Hd1 & O1 & G1).
  { apply HU. } { intros h t Ht. by apply (c_tokens _ HC _ _ Ht). }
  { intros k. apply (u_empty _ _ HU). set_solver. }
  destruct (backfill_index ACCOUNT_SESSIONS SESSION_EXPIRY se_expires_at se_token_hash
    (λ a, a_sessions A (mkAccountId a)) (rs_db s) d1) as (d2 & Hd2 & O2 & G2).
  { intros a. apply session_contents, HU. } { intros a se Hs. by apply (c_sessions _ HC _ _ Hs). }
  { intros k. rewrite O1 by done. apply (u_empty _ _ HU). set_solver. }
  destruct (backfill_index RATES RATE_EXPIRY rb_expires_at (λ _, []) (a_rates A) (rs_db s) d2)
    as (d3 & Hd3 & O3 & G3).
  { apply HU. } { intros k b Hb. by apply (c_rates _ HC _ _ Hb). }
  { intros k. rewrite O2, O1 by done. apply (u_empty _ _ HU). set_solver. }
  change index_login with (put_index LOGIN_TOKEN_EXPIRY
    (λ h t, expiry_key (lt_expires_at t) h) (λ _ : LoginToken, [])).
  change index_session with (put_index SESSION_EXPIRY
    (λ a s, expiry_key (se_expires_at s) a) se_token_hash).
  change index_rate with (put_index RATE_EXPIRY
    (λ k b, expiry_key (rb_expires_at b) k) (λ _ : RateLimitBucket, [])).
  rewrite Hd1, Hd2, Hd3. split; [done|]. cbn [snd rs_db].
  split; intros; rewrite get_insert_ne by done; try (rewrite O3, O2, O1 by done; apply HU).
  - rewrite O3, O2 by done. apply G1.
  - rewrite O3, G2 by done. split.
    + intros (a & se & Hs & -> & ->). destruct (current_of _ _ _ HC Hs) as [Ha Hcur].
      exists se. by rewrite Ha.
    + intros (se & Hs & -> & ->). exists (aid (se_account_id se)), se. split; [|done].
      unfold current_session in Hs. by destruct (se_account_id se).
  - apply G3.
Qed.


End Runs.
