(* ===== verification/RegistryAuth.v ===== *)
(** * RegistryAuth: logins, sessions and rate limits

    What the service over the database store guarantees whatever requests are
    made in between. *)

From stdpp Require Import functions.
From S2P Require Import Prelude Std Crypto Wire UserId Interleave Registry RegistrySpec RegistryProps RegistryRuns.

(** ** Invariants of runs of the specification *)

Lemma run_token_gone n A ops rs A' h :
  spec_run n A ops rs A' → h ∉ omap new_token ops → a_tokens A h = None → a_tokens A' h = None.
Proof.
  induction 1 as [|n A op r A1 ops rs A2 Hspec Hrun IH|n A op m ops rs A2 Hrun IH]; intros Hh HA;
    [done| |].
  - apply IH; [destruct op; cbn in Hh |- *; set_solver|].
    destruct (a_tokens A1 h) as [t|] eqn:E; [|done].
    destruct (spec_tokens _ _ _ _ _ _ Hspec E) as [? | ->]; [congruence|].
    destruct Hh. by left.
  - apply IH; [destruct op; cbn in Hh |- *; set_solver|done].
Qed.

(** A property of the current sessions with one token hash, kept as long as the
    hash is not brought in again. *)
Lemma run_sessions n A ops rs A' h (P : Session → Prop) :
  spec_run n A ops rs A' → h ∉ omap new_session ops →
  (∀ s, current_session A s → se_token_hash s = h → P s) →
  ∀ s, current_session A' s → se_token_hash s = h → P s.
Proof.
  induction 1 as [|n A op r A1 ops rs A2 Hspec Hrun IH|n A op m ops rs A2 Hrun IH]; intros Hh HA;
    [done| |].
  - apply IH; [destruct op; cbn in Hh |- *; set_solver|].
    intros s Hs Hsh. destruct (spec_sessions _ _ _ _ _ Hspec Hs) as [? | ->]; [by apply HA|].
    destruct Hh. rewrite <-Hsh. by left.
  - apply IH; [destruct op; cbn in Hh |- *; set_solver|done].
Qed.

(** ** Rate limits *)

(** The requests of [k] that [check_rate_limit] lets pass. *)
Fixpoint admitted (k : str) (limit : u64) (ops : list Op) (replies : list (Res Reply)) : nat :=
  match ops, replies with
  | Bump k' _ _ :: ops, Ok (RBucket b) :: replies =>
      ((if bool_decide (k' = k) && uleb (rb_count b) limit then 1 else 0)
       + admitted k limit ops replies)%nat
  | _ :: ops, _ :: replies => admitted k limit ops replies
  | _, _ => 0%nat
  end.

(** The time at which a request is made. *)
Definition before (k : str) (e : i64) (op : Op) : Prop :=
  match op with
  | Bump k' t _ => k' = k → (i_val t < i_val e)%Z
  | Purge t _ => (i_val t < i_val e)%Z
  | _ => True
  end.

Lemma spec_rates op A r A' k b :
  spec op A r A' → before k (rb_expires_at b) op → a_rates A k = Some b →
  match op with Bump k' _ _ => k' ≠ k | _ => True end → a_rates A' k = Some b.
Proof.
  intros H Hb HA Hne. destruct H; try done.
  - cbn [a_rates on_rates]. unfold insert, fn_insert. by rewrite decide_False.
  - subst A'. rewrite purged_rates, decide_False; [done|].
    intros (e & He & Hle)%(proj2 H1). unfold rate_expiry in He. rewrite HA in He.
    cbn in He, Hb. injection He as <-. lia.
Qed.

(** One request within the window. *)
Lemma next_in_window b t w :
  (i_val t < i_val (rb_expires_at b))%Z →
  next_bucket (Some b) t w = mkBucket (saturating_add (rb_count b) (U64 1)) (rb_expires_at b).
Proof. intros H. unfold next_bucket, i_ltb. by rewrite (proj2 (Z.ltb_lt _ _) H). Qed.

Lemma admitted_other k limit op ops r rs :
  match op with Bump k' _ _ => k' ≠ k | _ => True end →
  admitted k limit (op :: ops) (r :: rs) = admitted k limit ops rs.
Proof.
  intros H. destruct op; try done. destruct r as [[]|]; try done.
  cbn. by rewrite bool_decide_false.
Qed.

Lemma run_admitted n A ops rs A' k b limit :
  spec_run n A ops rs A' → a_rates A k = Some b → (u_val limit < 2 ^ 64 - 1)%N →
  Forall (before k (rb_expires_at b)) ops →
  (N.of_nat (admitted k limit ops rs) ≤ u_val limit - u_val (rb_count b))%N.
Proof.
  intros Hrun. revert b.
  induction Hrun as [|n A op r A1 ops rs A2 Hspec Hrun IH|n A op m ops rs A2 Hrun IH];
    intros b HA Hl Hb; [cbn; lia| |].
  - apply list.Forall_cons in Hb as [Hop Hb].
    assert (match op with Bump k' _ _ => k' ≠ k | _ => True end ∨ ∃ t w, op = Bump k t w)
      as [Hne|(t & w & ->)].
    { destruct op; try by left. destruct (decide (k0 = k)) as [->|]; [right; eauto|by left]. }
    + rewrite admitted_other by done. apply (IH b); [by eapply spec_rates|done..].
    + inversion Hspec; subst; [cbn; by apply IH|].
      rewrite HA in *. rewrite next_in_window in * by by apply Hop.
      cbn [admitted rb_count]. rewrite bool_decide_true by done. cbn [andb].
      set (b' := mkBucket _ _) in *.
      assert (N.of_nat (admitted k limit ops rs) ≤ u_val limit - u_val (rb_count b'))%N as Hrest.
      { apply IH; [|done|done]. cbn [a_rates on_rates]. by rewrite fn_lookup_insert. }
      subst b'. cbn [rb_count] in Hrest. unfold saturating_add, uleb in *.
      rewrite u_val_usat in *. change (u_val (U64 1)) with 1%N in *.
      destruct (N.leb_spec (N.min (u_val (rb_count b) + 1) (2 ^ 64 - 1)) (u_val limit)); lia.
  - apply list.Forall_cons in Hb as [Hop Hb]. specialize (IH b HA Hl Hb). destruct op; cbn; done.
Qed.

Section Auth.
Context {crypto : Crypto}.
Context {D : Type} `{!Redb D, !RedbLaws D}.
Context `{!Json LoginToken, !Json Account, !Json LoginIdentity, !Json BlobRef, !Json Session,
  !Json RateLimitBucket}.
Context `{!JsonTotal LoginToken, !JsonTotal Account, !JsonTotal LoginIdentity, !JsonTotal BlobRef,
  !JsonTotal Session, !JsonTotal RateLimitBucket}.
Abbreviation Store := (RedbRegistryStore D).

(** A request that succeeds has taken effect as specified. *)
Lemma performed {X} (f : X → Reply) op (m : R Store X) s x s' A :
  @perform Store _ op = map_reply f m →
  represents (rs_db s) A → coherent A → admissible A op → m s = (Ok x, s') →
  ∃ A', spec op A (Ok (f x)) A' ∧ represents (rs_db s') A' ∧ coherent A'.
Proof.
  intros Hop HR HC Hadm Hm. assert (perform op s = (Ok (f x), s')) as Hp.
  { rewrite Hop. unfold map_reply, bindR. by rewrite Hm. }
  destruct (decide (head (rs_faults s) = Some true)) as [Hfl|Hfl].
  - destruct (perform_fault op s A HR HC Hfl) as [Ho|(e & He & _)].
    + unfold outcome in Ho. by rewrite Hp in Ho.
    + by rewrite Hp in He.
  - pose proof (perform_ok op s A HR HC Hadm Hfl) as Ho. unfold outcome in Ho. by rewrite Hp in Ho.
Qed.

Lemma performed_run ops (s : Store) A :
  represents (rs_db s) A → coherent A → Forall well_formed ops → fresh A ops →
  ∃ n A', spec_run n A ops (fst (run_ops ops s)) A' ∧
    represents (rs_db (snd (run_ops ops s))) A' ∧ coherent A'.
Proof. intros HR HC Hw Hf. destruct (runs_refine ops s A HR HC Hw Hf) as (n & A' & _ & H). eauto. Qed.

Lemma generated_valid (b : arr 16) : account_valid (mkAccountId (hex b)) = true.
Proof.
  apply andb_true_iff. split; [|apply UserId.hex_lower].
  apply Nat.eqb_eq. cbn [aid]. by rewrite length_hex, arr_length.
Qed.


(** A confirmation has no loop: it always answers. *)
Lemma confirm_login_total token now (r : Registry Store) :
  ∃ res, fst (run (confirm_login token now) r) = Some res.
Proof.
  unfold confirm_login, on_reg, AccountId_generate, reg_getrandom, atomic, okP, errP. cbn [bindP run].
  destruct (take_login_token (token_hash token) (store r)) as [[[t|]|e] s1]; cbn [bindP run]; eauto.
  destruct (i_leb _ _); cbn [run]; eauto. destruct (lt_account_id t); cbn [bindP run random]; eauto.
  destruct (random r) as [|[b|] rest]; cbn [bindP run store]; eauto;
    destruct (get_or_create_account_for_login _ _ _ _ s1); cbn [run]; eauto.
Qed.

(** The steps of a confirmation that succeeded. *)
Lemma confirm_login_ok token now login (r r1 : Registry Store) A :
  represents (rs_db (store r)) A → coherent A → run (confirm_login token now) r = (Some (Ok login), r1) →
  ∃ t A1, a_tokens A (token_hash token) = Some t ∧ (i_val now < i_val (lt_expires_at t))%Z ∧
    represents (rs_db (store r1)) A1 ∧ coherent A1 ∧
    a_tokens A1 (token_hash token) = None ∧
    (∀ h t, a_tokens A1 h = Some t → a_tokens A h = Some t) ∧ a_sessions A1 = a_sessions A ∧
    (lt_account_id t = Some (al_account_id login) ∨
     a_logins A1 (lt_kind t, lt_value_hash t) = Some (al_account_id login)).
Proof.
  intros HR HC H. unfold confirm_login, on_reg, atomic in H. cbn [bindP run] in H.
  destruct (take_login_token (token_hash token) (store r)) as [[[t|]|e] s1] eqn:Htake; try discriminate H.
  destruct (performed RToken (TakeLoginToken (token_hash token)) _ _ _ _ A eq_refl HR HC I Htake)
    as (A1 & Hspec & HR1 & HC1).
  inversion Hspec; subst. unfold i_leb in H. cbn in H.
  destruct (Z.leb_spec (i_val (lt_expires_at t)) (i_val now)) as [|Hlt]; [discriminate H|].
  assert (a_tokens (forget_token A (token_hash token)) (token_hash token) = None) as Hgone.
  { cbn. by rewrite fn_lookup_insert. }
  assert (∀ h t', a_tokens (forget_token A (token_hash token)) h = Some t' → a_tokens A h = Some t').
  { intros h t'. cbn. unfold insert, fn_insert. by case_decide. }
  destruct (lt_account_id t) as [id|] eqn:Hid.
  - injection H as <- <-. exists t, (forget_token A (token_hash token)). split_and!; try done. by left.
  - unfold AccountId_generate, reg_getrandom, atomic, okP in H. cbn [bindP run] in H.
    assert (∀ (b : arr 16) rnd,
      run (on_reg (get_or_create_account_for_login (lt_kind t) (lt_value_hash t)
        (Account_new (mkAccountId (hex b)) now) now)) (mkRegistry s1 rnd) = (Some (Ok login), r1) →
      ∃ A2, spec (GetOrCreate (lt_kind t) (lt_value_hash t)
        (Account_new (mkAccountId (hex b)) now) now) (forget_token A (token_hash token))
        (Ok (RLogin login)) A2 ∧ represents (rs_db (store r1)) A2 ∧ coherent A2) as Hcreate.
    { intros b rnd Hc. unfold on_reg, atomic in Hc. cbn [run store random] in Hc.
      destruct (get_or_create_account_for_login _ _ _ _ s1) as [res s2] eqn:Hget.
      injection Hc as -> <-.
      eapply (performed RLogin (GetOrCreate _ _ _ _)); [reflexivity|done|done|apply generated_valid|done]. }
    destruct (random r) as [|[b|] rest]; [|apply Hcreate in H|discriminate H].
    1: apply Hcreate in H.
    all: destruct H as (A2 & Hs2 & HR2 & HC2); exists t, A2; inversion Hs2; subst;
      split_and!; try done; right; cbn; try done; by rewrite fn_lookup_insert.
Qed.

Lemma fresh_ext A A' ops :
  (∀ h t, a_tokens A' h = Some t → a_tokens A h = Some t) →
  (∀ s, current_session A' s → current_session A s) → fresh A ops → fresh A' ops.
Proof. intros Ht Hs [H1 H2 H3 H4]. split; eauto. Qed.

(** C17: A login token is confirmed at most once, and only before it expires:
    after a confirmation that succeeded, whatever requests follow (new login
    tokens have fresh hashes), confirming the same token is refused. *)
Theorem login_token_used_once token now login (r r1 r2 : Registry Store) ops now' A :
  represents (rs_db (store r)) A → coherent A → run (confirm_login token now) r = (Some (Ok login), r1) →
  Forall well_formed ops → fresh A ops → store r2 = snd (run_ops ops (store r1)) →
  (∃ t, a_tokens A (token_hash token) = Some t ∧ (i_val now < i_val (lt_expires_at t))%Z) ∧
  ∃ e, fst (run (confirm_login token now') r2) = Some (Err e).
Proof.
  intros HR HC H Hw Hf Hr2.
  destruct (confirm_login_ok _ _ _ _ _ _ HR HC H)
    as (t & A1 & Ht & Hlt & HR1 & HC1 & Hgone & Hsub & Hses & _).
  split; [by exists t|].
  destruct (performed_run ops (store r1) A1 HR1 HC1 Hw) as (n & A2 & Hrun & HR2 & HC2).
  { eapply fresh_ext, Hf; [done|]. intros s. unfold current_session. by rewrite Hses. }
  destruct (run (confirm_login token now') r2) as [res r3] eqn:H2.
  destruct (confirm_login_total token now' r2) as [[login'|e] Hres]; rewrite H2 in Hres; cbn in Hres; subst res;
    [exfalso|by exists e].
  rewrite <-Hr2 in HR2.
  destruct (confirm_login_ok _ _ _ _ _ _ HR2 HC2 H2) as (t' & _ & Ht' & _).
  rewrite (run_token_gone _ _ _ _ _ _ Hrun) in Ht'; [done| |done].
  intros Hin. by eapply (f_new_tokens _ _ Hf).
Qed.

(** The session a successful [create_session] stores. *)
Definition session_of (token : SessionToken) : Session :=
  mkSession (st_account_id token) (token_hash (st_token token)) (st_expires_at token).

Lemma create_session_ok a now ttl token (r r1 : Registry Store) A :
  represents (rs_db (store r)) A → coherent A → run (create_session a now ttl) r = (Some (Ok token), r1) →
  admissible A (ReplaceSession (session_of token)) →
  st_account_id token = a ∧ (i_val now ≤ i_val (st_expires_at token))%Z ∧
  ∃ A1, spec (ReplaceSession (session_of token)) A (Ok RUnit) A1 ∧
    represents (rs_db (store r1)) A1 ∧ coherent A1.
Proof.
  intros HR HC H Hadm. unfold create_session, i_leb in H. rewrite (i_val_sat 0) in H by done.
  destruct (Z.leb_spec (i_val ttl) 0) as [|Hpos]; [discriminate H|].
  assert (∀ (b : arr 32) rnd,
    run (let# _ := on_reg (replace_session (mkSession a (token_hash (hex b)) (i_saturating_add now ttl))) in
         okP (mkSessionToken (hex b) a (i_saturating_add now ttl))) (mkRegistry (store r) rnd)
      = (Some (Ok token), r1) →
    st_account_id token = a ∧ (i_val now ≤ i_val (st_expires_at token))%Z ∧
    ∃ A1, spec (ReplaceSession (session_of token)) A (Ok RUnit) A1 ∧
      represents (rs_db (store r1)) A1 ∧ coherent A1) as Hrest.
  { intros b rnd Hs. unfold on_reg, atomic, okP in Hs. cbn [bindP run store random] in Hs.
    destruct (replace_session _ (store r)) as [[[]|e] s1] eqn:Hrep; [|discriminate Hs].
    injection Hs as <- <-. split; [done|]. split.
    - cbn [st_expires_at]. unfold i_saturating_add. pose proof (i_val_range now) as Hr.
      change (i_val (i_sat ?z)) with (Z.max i64_min (Z.min z i64_max)). lia.
    - by apply (performed (λ _, RUnit) (ReplaceSession _) _ _ _ _ A eq_refl HR HC Hadm Hrep). }
  unfold random_token, reg_getrandom, atomic, okP in H. cbn [bindP run] in H.
  destruct (random r) as [|[b|] rest]; [| |discriminate H]; by apply Hrest in H.
Qed.

(** What [account_for_session] answers. *)
Lemma account_for_session_ok token now a (r r1 : Registry Store) A :
  represents (rs_db (store r)) A → coherent A →
  run (account_for_session token now) r = (Some (Ok (Some a)), r1) →
  ∃ s, current_session A s ∧ se_token_hash s = token_hash token ∧ se_account_id s = a ∧
    (i_val now < i_val (se_expires_at s))%Z.
Proof.
  intros HR HC H. unfold account_for_session, on_reg, atomic in H. cbn [bindP run] in H.
  destruct (session (token_hash token) (store r)) as [[[s|]|e] s1] eqn:Hs; try discriminate H.
  destruct (performed RSession (GetSession (token_hash token)) _ _ _ _ A eq_refl HR HC I Hs)
    as (A1 & Hspec & _).
  inversion Hspec; subst. unfold i_leb in H. cbn in H.
  destruct (Z.leb_spec (i_val (se_expires_at s)) (i_val now)) as [|Hlt]; [discriminate H|].
  injection H as <- <-. by exists s.
Qed.

Lemma account_for_session_live token now s (r : Registry Store) A :
  represents (rs_db (store r)) A → coherent A → ¬ faulty (store r) →
  current_session A s → se_token_hash s = token_hash token →
  fst (run (account_for_session token now) r) =
  Some (Ok (if i_leb (se_expires_at s) now then None else Some (se_account_id s))).
Proof.
  intros HR HC Hf Hcur Hh. pose proof (perform_ok (GetSession (token_hash token)) _ A HR HC I Hf)
    as (A1 & Hspec & _). unfold account_for_session, on_reg, atomic. cbn [bindP run].
  unfold perform, map_reply, bindR, retR in Hspec.
  destruct (session (token_hash token) (store r)) as [[o|e] s1]; cbn in Hspec;
    inversion Hspec as [| | | | | | | | | | | | | | |s' A' Hs' He Hr|h A' Hnone He Hr| | |]; subst.
  - assert (s' = s) as -> by (apply (c_hashes _ HC); [done|done|congruence]).
    cbn. by destruct (i_leb _ _).
  - by destruct (Hnone s).
Qed.

(** An account has one session.  Once a second session is created, whatever
    requests follow, the token of the first opens nothing, and until it expires
    the new token opens its account. *)
Theorem one_session_per_account a now ttl tok1 now' ttl' tok2 (r0 r1 r2 r3 r4 : Registry Store)
    ops ops' t A :
  represents (rs_db (store r0)) A → coherent A →
  Forall well_formed (ReplaceSession (session_of tok1) :: ops ++ ReplaceSession (session_of tok2) :: ops') →
  fresh A (ReplaceSession (session_of tok1) :: ops ++ ReplaceSession (session_of tok2) :: ops') →
  run (create_session a now ttl) r0 = (Some (Ok tok1), r1) →
  store r2 = snd (run_ops ops (store r1)) →
  run (create_session a now' ttl') r2 = (Some (Ok tok2), r3) →
  store r4 = snd (run_ops ops' (store r3)) →
  (∀ x, fst (run (account_for_session (st_token tok1) t) r4) ≠ Some (Ok (Some x))) ∧
  (¬ faulty (store r3) → fst (run (account_for_session (st_token tok2) t) r3) =
    Some (Ok (if i_leb (st_expires_at tok2) t then None else Some a))).
Proof.
  intros HR HC Hw Hf H1 Hr2 H2 Hr4. set (s1 := session_of tok1) in *. set (s2 := session_of tok2) in *.
  apply list.Forall_cons in Hw as [Hw1 Hw]. apply Forall_app in Hw as [Hwo Hw].
  apply list.Forall_cons in Hw as [Hw2 Hw'].
  destruct (create_session_ok _ _ _ _ _ _ _ HR HC H1) as (Ha1 & _ & A1 & Hs1 & HR1 & HC1).
  { by eapply fresh_admissible. }
  pose proof (fresh_step _ _ _ _ _ Hf Hs1) as Hf1.
  destruct (performed_run ops (store r1) A1 HR1 HC1 Hwo (fresh_prefix _ _ _ Hf1))
    as (n & A2 & Hrun & HR2 & HC2). rewrite <-Hr2 in HR2.
  pose proof (fresh_run _ _ _ _ _ _ Hf1 Hrun) as Hf2.
  destruct (create_session_ok _ _ _ _ _ _ _ HR2 HC2 H2) as (Ha2 & _ & A3 & Hs2 & HR3 & HC3).
  { by eapply fresh_admissible. }
  pose proof (fresh_step _ _ _ _ _ Hf2 Hs2) as Hf3.
  destruct (performed_run ops' (store r3) A3 HR3 HC3 Hw' Hf3) as (n' & A4 & Hrun' & HR4 & HC4).
  rewrite <-Hr4 in HR4.
  assert (Hnew : se_token_hash s1 ∉ omap new_session (ops ++ ReplaceSession s2 :: ops')).
  { pose proof (f_sessions _ _ Hf) as Hnd. by apply list.NoDup_cons in Hnd as [? _]. }
  rewrite omap_app in Hnew. cbn [omap list_omap new_session] in Hnew.
  apply not_elem_of_app in Hnew as [Hn1 [Hn2 Hn3]%not_elem_of_cons].
  assert (∀ s, current_session A1 s → se_token_hash s = se_token_hash s1 → se_account_id s = a) as Hown1.
  { inversion Hs1; subst. intros s [->|[_ Hs]]%current_insert Hh; [done|].
    exfalso. eapply (f_new_sessions _ _ Hf); [|exact Hs]. rewrite Hh. by left. }
  pose proof (run_sessions _ _ _ _ _ (se_token_hash s1) _ Hrun Hn1 Hown1) as Hown2.
  assert (∀ s, current_session A3 s → se_token_hash s = se_token_hash s1 → False) as Hgone.
  { inversion Hs2; subst. intros s [->|[Hne Hs]]%current_insert Hh; [by apply Hn2|].
    destruct Hne. by rewrite (Hown2 _ Hs Hh). }
  pose proof (run_sessions _ _ _ _ _ (se_token_hash s1) _ Hrun' Hn3 Hgone) as Hgone4. split.
  - intros x Hx. destruct (run (account_for_session (st_token tok1) t) r4) as [res r5] eqn:Hres.
    cbn in Hx. subst res.
    destruct (account_for_session_ok _ _ _ _ _ _ HR4 HC4 Hres) as (s & Hs & Hh & _).
    by apply (Hgone4 s).
  - intros Hfl. rewrite (account_for_session_live _ _ s2 _ _ HR3 HC3 Hfl); [by rewrite <-Ha2| |done].
    inversion Hs2; subst. apply current_insert. by left.
Qed.
End Auth.
