(* ===== verification/RegistryWitness.v ===== *)
(** * RegistryWitness: the registry's theorems at concrete inputs

    A database of finite maps, the encodings of the registry's records, and runs
    of the service over them. *)

From stdpp Require Import functions sorting.
From S2P Require Import Prelude Std Crypto Wire UserId Interleave Instances Storage Registry RegistrySpec RegistryProps RegistryRuns RegistryAuth.

(** ** Encodings *)
#[export] Instance i64_codec : Codec i64.
Proof.
  refine (codec_iso (λ a, Z.to_N (i_val a - i64_min)) (λ n, Some (i_sat (Z.of_N n + i64_min))) _).
  intros a. f_equal. apply i64_eq. pose proof (i_val_range a) as H. rewrite i_val_sat; unfold i64_min, i64_max in *; lia.
Defined.
#[export] Instance AccountId_codec : Codec AccountId.
Proof. refine (codec_iso aid (λ s, Some (mkAccountId s)) _). by intros []. Defined.
#[export] Instance LoginIdentityKind_codec : Codec LoginIdentityKind.
Proof. refine (codec_iso (λ _, tt) (λ _, Some Email) _). by intros []. Defined.
#[export] Instance LoginIdentityHash_codec : Codec LoginIdentityHash.
Proof. refine (codec_iso hash_str (λ s, Some (mkHash s)) _). by intros []. Defined.
#[export] Instance Account_codec : Codec Account.
Proof.
  refine (codec_iso (λ a, (ac_id a, created_at a, updated_at a, display_handle a))
    (λ '(i, c, u, h), Some (mkAccount i c u h)) _). by intros [].
Defined.
#[export] Instance LoginIdentity_codec : Codec LoginIdentity.
Proof.
  refine (codec_iso (λ a, (li_kind a, li_value_hash a, li_account_id a, verified_at a))
    (λ '(i, c, u, h), Some (mkLoginIdentity i c u h)) _). by intros [].
Defined.
#[export] Instance LoginToken_codec : Codec LoginToken.
Proof.
  refine (codec_iso (λ a, (lt_kind a, lt_value_hash a, lt_account_id a, lt_expires_at a))
    (λ '(i, c, u, h), Some (mkLoginToken i c u h)) _). by intros [].
Defined.
#[export] Instance Session_codec : Codec Session.
Proof.
  refine (codec_iso (λ a, (se_account_id a, se_token_hash a, se_expires_at a))
    (λ '(c, u, h), Some (mkSession c u h)) _). by intros [].
Defined.
#[export] Instance BlobRef_codec : Codec BlobRef.
Proof.
  refine (codec_iso (λ a, (bl_id a, bl_size a, bl_sha256 a))
    (λ '(c, u, h), Some (mkBlobRef c u h)) _). by intros [].
Defined.
#[export] Instance RateLimitBucket_codec : Codec RateLimitBucket.
Proof.
  refine (codec_iso (λ a, (rb_count a, rb_expires_at a)) (λ '(c, u), Some (mkBucket c u)) _).
  by intros [].
Defined.
#[export] Instance codec_total `{!Codec T} : JsonTotal T.
Proof. split. intros x. by eexists. Qed.

(** ** A database *)
Abbreviation Tables := (Table → Mem).
Definition entry_le (a c : str * bytes) : Prop := bytes_leb a.1 c.1 = true.
#[export] Instance entry_le_dec a c : Decision (entry_le a c).
Proof. unfold entry_le. apply _. Defined.

#[export] Instance entry_le_total : Total entry_le.
Proof. intros a c. apply bytes_leb_total. Qed.
#[export] Instance entry_le_trans : Transitive entry_le.
Proof. intros a b c. apply bytes_leb_trans. Qed.

#[export] Instance toy_redb : Redb Tables := {|
  tbl_get t k d := d t !! k;
  tbl_insert t k v d := <[t := <[k := v]> (d t)]> d;
  tbl_remove t k d := <[t := delete k (d t)]> d;
  tbl_iter t d := merge_sort entry_le (map_to_list (d t))
|}.

Lemma sorted_keys (l : list (str * bytes)) :
  NoDup l.*1 → StronglySorted entry_le l →
  StronglySorted (λ a c, bytes_leb a.1 c.1 = true ∧ a.1 ≠ c.1) l.
Proof.
  intros Hnd H. induction H as [|a l H IH Hall]; [constructor|].
  apply list.NoDup_cons in Hnd as [Ha Hnd]. constructor; [by apply IH|].
  rewrite list.Forall_forall in Hall |- *. intros c Hc. split; [by apply Hall|].
  intros E. apply Ha. rewrite E. by apply list_elem_of_fmap_2.
Qed.

#[export] Instance toy_redb_laws : RedbLaws Tables.
Proof.
  split; cbn.
  - intros t k v d t' k'. unfold insert at 1, fn_insert. destruct (decide (t = t')) as [->|Ht].
    + destruct (decide (k = k')) as [->|Hk].
      * rewrite decide_True by done. apply lookup_insert_eq.
      * rewrite decide_False by naive_solver. by apply lookup_insert_ne.
    + by rewrite decide_False by naive_solver.
  - intros t k d t' k'. unfold insert at 1, fn_insert. destruct (decide (t = t')) as [->|Ht].
    + destruct (decide (k = k')) as [->|Hk].
      * rewrite decide_True by done. apply lookup_delete_eq.
      * rewrite decide_False by naive_solver. by apply lookup_delete_ne.
    + by rewrite decide_False by naive_solver.
  - intros t d k v. rewrite merge_sort_Permutation. apply elem_of_map_to_list.
  - intros t d. apply sorted_keys.
    + rewrite merge_sort_Permutation. apply NoDup_fst_map_to_list.
    + apply StronglySorted_merge_sort; apply _.
Qed.

(** ** Runs *)
Definition clean : RedbRegistryStore Tables := mkRedbStore (λ _, ∅) [].
Definition opened : RedbRegistryStore Tables := snd (init clean).

Lemma clean_unindexed : unindexed (rs_db clean) empty_registry.
Proof.
  split; intros; try done. cbn. split; [done|]. intros (s & Hs & _). discriminate Hs.
Qed.

Lemma empty_coherent : coherent empty_registry.
Proof. by split. Qed.

Lemma opened_represents : represents (rs_db opened) empty_registry.
Proof. by apply init_ok; [apply clean_unindexed|apply empty_coherent|]. Qed.

Definition account1 : AccountId := mkAccountId (concat (replicate 16 b#"a1")).
Definition hash1 : str := token_hash b#"first".
Definition hash2 : str := token_hash b#"second".
Definition login1 : LoginToken := mkLoginToken Email (mkHash b#"e1") None (I64 1000).
Definition login2 : LoginToken := mkLoginToken Email (mkHash b#"e2") None (I64 1000).
Definition session1 : Session := mkSession account1 hash1 (I64 500).
Definition session2 : Session := mkSession account1 hash2 (I64 600).

Definition day : list Op :=
  [PutLoginToken hash1 login1; TakeLoginToken hash1;
   GetOrCreate Email (mkHash b#"e1") (Account_new account1 (I64 90)) (I64 90);
   ReplaceSession session1; GetSession hash1; ReplaceSession session2; GetSession hash1;
   GetSession hash2; Bump b#"k" (I64 90) (I64 60); Purge (I64 550) 10].

Lemma new_hashes_fresh A ops :
  bool_decide (NoDup (omap new_token ops)) && bool_decide (NoDup (omap new_session ops)) = true →
  (∀ h, h ∈ omap new_token ops → a_tokens A h = None) →
  (∀ a, a_sessions A a = None) → fresh A ops.
Proof.
  intros [H1%bool_decide_eq_true H2%bool_decide_eq_true]%andb_true_iff Ht Hs. split; try done.
  - intros h t Hin Hh. by rewrite (Ht _ Hin) in Hh.
  - intros s _ H. unfold current_session in H. by rewrite Hs in H.
Qed.

Lemma token_hash_text token : text (token_hash token).
Proof.
  unfold token_hash. split; [|apply lower_hex_utf8, UserId.hex_lower].
  intros H%(f_equal length). by rewrite length_hex, arr_length in H.
Qed.

Lemma day_well_formed : Forall well_formed day.
Proof.
  unfold day. repeat apply list.Forall_cons_2; try apply list.Forall_nil_2; try done;
    cbn; unfold good_token, good_session; auto using token_hash_text.
Qed.

(** What the run answers, in a form that evaluates. *)
Definition shape (r : Res Reply) : nat :=
  match r with
  | Ok (RToken (Some _)) | Ok (RSession (Some _)) => 1
  | Ok (RCount n) => 10 + n
  | Ok (RLogin l) => if al_created l then 2 else 3
  | Ok (RBucket b) => 4
  | Ok _ => 0
  | Err _ => 5
  end.

Example day_replies : map shape (fst (run_ops day opened)) = [0; 1; 2; 0; 1; 0; 0; 1; 4; 11]%nat.
Proof. vm_compute. reflexivity. Qed.


(** Two more requests in the window of the first, one after it would expire. *)
Definition source_key1 : str := b#"login:source:10.0.0.1".


(** A login: the token put in the store by a request, confirmed, and tried again. *)
Definition pending : RedbRegistryStore Tables := snd (put_login_token hash1 login1 opened).

Lemma pending_represents :
  ∃ A, represents (rs_db pending) A ∧ coherent A ∧ fresh A [PutLoginToken hash2 login2].
Proof.
  destruct (performed (λ _, RUnit) (PutLoginToken hash1 login1)
    (put_login_token hash1 login1) opened tt pending empty_registry) as (A & Hs & HR & HC);
    [done|apply opened_represents|apply empty_coherent|split; [split; [apply token_hash_text|done]|done]
    |vm_compute; reflexivity|].
  inversion Hs; subst. eexists. split; [done|]. split; [done|].
  apply new_hashes_fresh; [done| |done].
  intros h ->%list_elem_of_singleton. cbn. unfold insert, fn_insert. by rewrite decide_False.
Qed.

Definition pending_registry : Registry (RedbRegistryStore Tables) :=
  mkRegistry pending [Some (replicate 16 (byte_of 161))].

Lemma login_token_used_once_witness :
  ∃ login r1, run (confirm_login b#"first" (I64 200)) pending_registry = (Some (Ok login), r1) ∧
    ∃ e, fst (run (confirm_login b#"first" (I64 201))
      (mkRegistry (snd (run_ops [PutLoginToken hash2 login2] (store r1))) [])) = Some (Err e).
Proof.
  assert (match run (confirm_login b#"first" (I64 200)) pending_registry with
          | (Some (Ok _), _) => true | _ => false end = true) as H by (vm_compute; reflexivity).
  destruct (run (confirm_login _ _) pending_registry) as [[[login|e]|] r1] eqn:E; try discriminate H.
  exists login, r1. split; [done|]. destruct pending_represents as (A & HR & HC & Hf).
  eapply (login_token_used_once b#"first" (I64 200) login pending_registry r1
    (mkRegistry (snd (run_ops [PutLoginToken hash2 login2] (store r1))) [])
    [PutLoginToken hash2 login2]); [exact HR|exact HC|exact E| |exact Hf|done].
  apply list.Forall_singleton. split; [apply token_hash_text|done].
Defined.

(** Two sessions of one account. *)
Definition start : Registry (RedbRegistryStore Tables) :=
  mkRegistry opened [Some (replicate 32 (byte_of 1)); Some (replicate 32 (byte_of 2))].
Definition tok (n : N) (expires : i64) : SessionToken :=
  mkSessionToken (hex (replicate 32 (byte_of n))) account1 expires.

Definition created (n : N) (expires : Z)
    (m : option (Res SessionToken) * Registry (RedbRegistryStore Tables)) : bool :=
  match fst m with
  | Some (Ok t) => bool_decide (st_token t = hex (replicate 32 (byte_of n)))
            && bool_decide (st_account_id t = account1) && (i_val (st_expires_at t) =? expires)%Z
  | _ => false
  end.

Lemma created_tok n expires m :
  (i64_min ≤ expires ≤ i64_max)%Z → created n expires m = true → fst m = Some (Ok (tok n (i_sat expires))).
Proof.
  intros Hr. unfold created. destruct m as [[[[t a e]|err]|] r]; [|done..]. cbn [fst]. intros H.
  apply andb_true_iff in H as [[H1%bool_decide_eq_true H2%bool_decide_eq_true]%andb_true_iff H3%Z.eqb_eq].
  cbn in H1, H2, H3. subst t a. unfold tok. do 3 f_equal. apply i64_eq. by rewrite i_val_sat.
Qed.

Lemma tok_good n e : (0 ≤ i_val e)%Z → good_session (session_of (tok n e)).
Proof.
  intros He. split; [vm_compute; reflexivity|]. split; [apply token_hash_text|done].
Qed.

Lemma one_session_per_account_witness :
  ∃ r1 r3, run (create_session account1 (I64 100) (I64 900)) start = (Some (Ok (tok 1 (I64 1000))), r1) ∧
    run (create_session account1 (I64 200) (I64 900)) r1 = (Some (Ok (tok 2 (I64 1100))), r3) ∧
    (∀ x, fst (run (account_for_session (st_token (tok 1 (I64 1000))) (I64 300)) r3) ≠ Some (Ok (Some x))) ∧
    (¬ faulty (store r3) → fst (run (account_for_session (st_token (tok 2 (I64 1100))) (I64 300)) r3) =
      Some (Ok (if i_leb (I64 1100) (I64 300) then None else Some account1))).
Proof.
  assert (created 1 1000 (run (create_session account1 (I64 100) (I64 900)) start) = true) as H1
    by (vm_compute; reflexivity).
  assert (created 2 1100 (run (create_session account1 (I64 200) (I64 900))
    (snd (run (create_session account1 (I64 100) (I64 900)) start))) = true) as H2
    by (vm_compute; reflexivity).
  apply created_tok in H1; [|done]. apply created_tok in H2; [|done].
  destruct (run (create_session account1 (I64 100) (I64 900)) start) as [res1 r1] eqn:E1.
  cbn [fst snd] in H1, H2. subst res1.
  destruct (run (create_session account1 (I64 200) (I64 900)) r1) as [res2 r3] eqn:E2.
  cbn [fst] in H2. subst res2. exists r1, r3. split; [done|]. split; [done|].
  apply (one_session_per_account account1 (I64 100) (I64 900) (tok 1 (I64 1000)) (I64 200) (I64 900)
    (tok 2 (I64 1100)) start r1 r1 r3 r3 [] [] (I64 300) empty_registry);
    [apply opened_represents|apply empty_coherent| | |exact E1|done|exact E2|done].
  - repeat apply list.Forall_cons_2; try apply list.Forall_nil_2; by apply tok_good.
  - apply new_hashes_fresh; [vm_compute; reflexivity|done|done].
Defined.
