(* ===== verification/RegistryPointers.v ===== *)
(** * RegistryPointers: the blob pointers and the user index of a metadata store

    The interface through which the handlers' safety is proved: what each call
    of the store does to the pointers of the accounts' slots and to the index of
    user ids, whatever else the store holds.  The database store implements it
    unconditionally. *)

From S2P Require Import Prelude Std Interleave Crypto Wire UserId Registry RegistrySpec RegistryProps.

(** Reading [slot] is an error when the stored pointer cannot be decoded. *)
Class Pointers (S : Type) : Type := {
  slot : S → AccountId → AccountBlobKind → Res (option BlobRef);
  bound_to : S → UserId → option bytes
}.
#[global] Hint Mode Pointers ! : typeclass_instances.

Section Laws.
Context {S : Type} `{!RegistryStore S, !Pointers S}.

(** Pointers and index are as before. *)
Definition untouched (s s' : S) : Prop :=
  (∀ a k, slot s' a k = slot s a k) ∧ (∀ u, bound_to s' u = bound_to s u).

Definition slot_set (s s' : S) (a : AccountId) (k : AccountBlobKind) (blob : BlobRef) : Prop :=
  slot s' a k = Ok (Some blob) ∧ ∀ a' k', (a', k') ≠ (a, k) → slot s' a' k' = slot s a' k'.

(** The index after account [a] published a record of user [u] in place of one of
    user [p]. *)
Definition rebound (s s' : S) (a : AccountId) (u : UserId) (p : option UserId) : Prop :=
  (∀ b, bound_to s u = Some b → b = aid a) ∧ bound_to s' u = Some (aid a) ∧
  ∀ u', u' ≠ u → bound_to s' u' = bound_to s u' ∨
    (p = Some u' ∧ bound_to s u' = Some (aid a) ∧ bound_to s' u' = None).

Definition touches_pointers (op : Op) : bool :=
  match op with SwapBlob _ _ _ _ | SwapRecord _ _ _ _ _ => true | _ => false end.

Class PointerLaws : Prop := {
  ptr_other op (s : S) : touches_pointers op = false → untouched s (snd (perform op s));
  ptr_read a k (s : S) o : fst (blob_ref a k s) = Ok o → slot s a k = Ok o;
  ptr_swap a k e n (s : S) :
    let '(r, s') := compare_and_swap_blob_ref a k e n s in
    (r = Ok (Applied e) ∧ slot s a k = Ok e ∧ slot_set s s' a k n ∧
      ∀ u, bound_to s' u = bound_to s u) ∨
    (untouched s s' ∧ ((∃ err, r = Err err) ∨ ∃ c, r = Ok (Mismatch c) ∧ slot s a k = Ok c ∧ c ≠ e));
  ptr_record a u p e n (s : S) :
    let '(r, s') := compare_and_swap_public_record_ref a u p e n s in
    (r = Ok (Applied e) ∧ slot s a PublicRecord = Ok e ∧ slot_set s s' a PublicRecord n ∧
      rebound s s' a u p) ∨
    (untouched s s' ∧
      ((∃ err, r = Err err) ∨ ∃ c, r = Ok (Mismatch c) ∧ slot s a PublicRecord = Ok c ∧ c ≠ e))
}.
End Laws.
Arguments PointerLaws S {_ _}.

(** ** The database store *)
Section Redb.
Context {D : Type} `{!Redb D, !RedbLaws D}.
Context `{!Json LoginToken, !Json Account, !Json LoginIdentity, !Json BlobRef, !Json Session,
  !Json RateLimitBucket}.
Abbreviation Store := (RedbRegistryStore D).

#[export] Instance redb_pointers : Pointers Store := {|
  slot s a k := decode_opt (tbl_get BLOBS (blob_key a k) (rs_db s));
  bound_to s u := tbl_get USER_INDEX (UserId.as_str u) (rs_db s)
|}.

(** Two databases with the same pointers and index. *)
Definition same_pointers (d d' : D) : Prop :=
  (∀ a k, tbl_get BLOBS (blob_key a k) d' = tbl_get BLOBS (blob_key a k) d) ∧
  (∀ u, tbl_get USER_INDEX u d' = tbl_get USER_INDEX u d).

Lemma same_refl d : same_pointers d d.
Proof. done. Qed.
Lemma same_write t k v d d' :
  t ≠ BLOBS → t ≠ USER_INDEX → same_pointers d d' → same_pointers d (tbl_insert t k v d').
Proof. intros ? ? [H1 H2]. split; intros; by rewrite get_insert_ne. Qed.
Lemma same_remove t k d d' :
  t ≠ BLOBS → t ≠ USER_INDEX → same_pointers d d' → same_pointers d (tbl_remove t k d').
Proof. intros ? ? [H1 H2]. split; intros; by rewrite get_remove_ne. Qed.
Lemma same_login_identity k v a kind d d' :
  k = key [b#"login_identity"; aid a; kind_str kind] →
  same_pointers d d' → same_pointers d (tbl_insert BLOBS k v d').
Proof.
  intros -> [H1 H2]. split; intros; [|by rewrite get_insert_ne].
  rewrite get_insert_tbl, decide_False; [done|discriminate].
Qed.
Hint Resolve same_refl same_write same_remove same_login_identity : core.
Hint Extern 0 (@eq Table _ _ → False) => discriminate : core.
Hint Extern 0 (¬ @eq Table _ _) => discriminate : core.

Lemma same_drop_all {X} (drop : D → X → Res D) due d d' :
  (∀ d x d', drop d x = Ok d' → same_pointers d d') →
  drop_all drop d due = Ok d' → same_pointers d d'.
Proof.
  intros Hdrop. revert d. induction due as [|x due IH]; intros d; cbn; [by intros [= ->]|].
  destruct (drop d x) as [d1|] eqn:E; [|done]. cbn. intros H.
  apply Hdrop in E as [E1 E2]. apply IH in H as [H1 H2].
  split; intros; [by rewrite H1|by rewrite H2].
Qed.

Lemma same_pass {X} t item (drop : D → X → Res D) now limit removed n d d0 d' :
  (∀ d x d', drop d x = Ok d' → same_pointers d d') → same_pointers d0 d →
  purge_pass t item drop now limit removed d = Ok (n, d') → same_pointers d0 d'.
Proof.
  intros Hdrop [S1 S2]. unfold purge_pass. destruct (_ <? _)%nat; [|intros [= _ ->]; done].
  destruct (collect_due _ _ _ _) as [due|]; [|done]. cbn.
  destruct (drop_all drop d due) as [d1|] eqn:E; [|done]. cbn. intros [= _ ->].
  apply same_drop_all in E as [E1 E2]; [|done].
  split; intros; [by rewrite E1|by rewrite E2].
Qed.

Lemma begin_write_same {X} (body : D → TxEnd D X) s :
  (∀ x d, body (rs_db s) = Commit x d → same_pointers (rs_db s) d) →
  untouched s (snd (begin_write body s)).
Proof.
  intros H. assert (same_pointers (rs_db s) (rs_db (snd (begin_write body s)))) as [H1 H2].
  { destruct s as [d [|[] f]]; unfold begin_write; cbn in *; try done;
      destruct (body d) as [x d'|r]; cbn; eauto. }
  split; intros; cbn [slot bound_to redb_pointers]; [by rewrite H1|by rewrite H2].
Qed.

Lemma untouched_refl (s : Store) : untouched s s.
Proof. done. Qed.

Lemma map_reply_state {X} (f : X → Reply) (m : R Store X) s : snd (map_reply f m s) = snd (m s).
Proof. unfold map_reply, bindR. by destruct (m s) as [[x|e] s']. Qed.

(** The body of a transaction that commits nothing else. *)
Ltac body :=
  repeat match goal with
  | |- context [let _ := _ in _] => cbv zeta
  | |- context [match ?x with _ => _ end] => destruct x eqn:?; try discriminate
  | |- Commit _ _ = Commit _ _ → _ => intros [= _ <-]
  end.

Lemma same_drop_login d x d' : Ok (drop_login d x) = Ok (E := RegistryError) d' → same_pointers d d'.
Proof. destruct x as [k h]. intros [= <-]. cbn. auto. Qed.

Lemma same_drop_session d x d' : drop_session d x = Ok d' → same_pointers d d'.
Proof.
  destruct x as [[[k a] h] e]. unfold drop_session.
  destruct (decode_opt _) as [[se|]|]; cbn; try done; [|intros [= <-]; auto].
  destruct (_ && _); intros [= <-]; auto 6.
Qed.

Lemma same_drop_rate d x d' : drop_rate d x = Ok d' → same_pointers d d'.
Proof.
  destruct x as [[k a] e]. unfold drop_rate.
  destruct (decode_opt _) as [[b|]|]; cbn; try done; [|intros [= <-]; auto].
  destruct (bool_decide _); intros [= <-]; auto 6.
Qed.

Lemma redb_other op (s : Store) : touches_pointers op = false → untouched s (snd (perform op s)).
Proof.
  intros Hop. destruct op; try discriminate Hop; cbn [perform]; rewrite map_reply_state; cbn;
    try (apply begin_write_same; intros x d; unfold begin_read; discriminate).
  - apply begin_write_same. intros x d. body. auto.
  - apply begin_write_same. intros x d. body. auto.
  - apply begin_write_same. intros x d. cbn zeta. body; eauto 6.
  - apply begin_write_same. intros x d. cbn zeta. body; auto 8.
  - unfold redb_bump_rate_limit. destruct (_ || _); [apply untouched_refl|].
    apply begin_write_same. intros x d. cbn zeta. body; auto 8.
  - unfold redb_purge_expired. destruct (_ =? _)%nat; [apply untouched_refl|].
    apply begin_write_same. intros x d.
    destruct (purge_pass LOGIN_TOKEN_EXPIRY _ _ _ _ _ _) as [[n1 d1]|] eqn:E1; [|done].
    destruct (purge_pass SESSION_EXPIRY _ _ _ _ _ _) as [[n2 d2]|] eqn:E2; [|done].
    destruct (purge_pass RATE_EXPIRY _ _ _ _ _ _) as [[n3 d3]|] eqn:E3; [|done].
    intros [= _ <-]. eapply same_pass in E1; [|apply same_drop_login|apply same_refl].
    eapply same_pass in E2; [|apply same_drop_session|exact E1].
    by eapply same_pass in E3; [|apply same_drop_rate|exact E2].
Qed.

Lemma begin_read_value {X} (body : D → Res X) (s : Store) x :
  fst (begin_read body s) = Ok x → body (rs_db s) = Ok x.
Proof. by destruct s as [d [|[] f]]. Qed.

Lemma untouched_db (s s' : Store) : rs_db s' = rs_db s → untouched s s'.
Proof. intros H. by split; intros; cbn [slot bound_to redb_pointers]; rewrite H. Qed.

(** How a transaction can end. *)
Lemma begin_write_ends {X} (body : D → TxEnd D X) (s : Store) :
  (∃ x d, body (rs_db s) = Commit x d ∧ fst (begin_write body s) = Ok x ∧
    rs_db (snd (begin_write body s)) = d) ∨
  (rs_db (snd (begin_write body s)) = rs_db s ∧
    ((∃ err, fst (begin_write body s) = Err err) ∨ body (rs_db s) = Dropped (fst (begin_write body s)))).
Proof.
  destruct s as [d [|[] f]]; unfold begin_write; cbn; [|right; eauto|];
    (destruct (body d) as [x d'|r] eqn:E; [left; by exists x, d'|right; by eauto]).
Qed.

Lemma slot_insert (s s' : Store) d a k b n :
  decode_json b = Ok n → (∀ a k, tbl_get BLOBS (blob_key a k) d = tbl_get BLOBS (blob_key a k) (rs_db s)) →
  rs_db s' = tbl_insert BLOBS (blob_key a k) b d → slot_set s s' a k n.
Proof.
  intros Hb Hd Hs'. split; cbn [slot redb_pointers]; rewrite Hs'.
  - rewrite (decode_insert _ _ _ _ _ _ Hb). by rewrite decide_True.
  - intros a' k' Hne. rewrite (decode_insert _ _ _ _ _ _ Hb), decide_False, Hd; [done|].
    intros E%blob_key_inj. by rewrite E in Hne.
Qed.

Lemma encode_json_Ok {T} `{!Json T} (x : T) b : encode_json x = Ok b → decode_json b = Ok x.
Proof.
  unfold encode_json, decode_json. destruct (to_vec x) as [b'|] eqn:E; [|done]. intros [= <-].
  by rewrite (json_roundtrip _ _ E).
Qed.

Lemma redb_swap a k e n (s : Store) :
  let '(r, s') := redb_compare_and_swap_blob_ref a k e n s in
  (r = Ok (Applied e) ∧ slot s a k = Ok e ∧ slot_set s s' a k n ∧
    ∀ u, bound_to s' u = bound_to s u) ∨
  (untouched s s' ∧ ((∃ err, r = Err err) ∨ ∃ c, r = Ok (Mismatch c) ∧ slot s a k = Ok c ∧ c ≠ e)).
Proof.
  unfold redb_compare_and_swap_blob_ref.
  match goal with |- context [begin_write ?b s] =>
    pose proof (begin_write_ends b s) as H; destruct (begin_write b s) as [r s'] end.
  cbn [fst snd] in H. cbn [slot bound_to redb_pointers].
  destruct (decode_opt (tbl_get BLOBS (blob_key a k) (rs_db s))) as [c|err].
  - case_bool_decide as Hc; cbn [negb] in H.
    + subst c. destruct (encode_json n) as [b|err] eqn:Hb; cbv zeta in H.
      * destruct H as [(x & d & [= <- <-] & -> & Hd)|[Hd [[err ->]|H]]]; [left| |done].
        { split_and!; try done.
          - eapply slot_insert; [by apply encode_json_Ok|done|done].
          - intros u. rewrite Hd. by apply get_insert_ne. }
        right. split; [by apply untouched_db|eauto].
      * right. destruct H as [(x & d & H & _)|[Hd [?|[= <-]]]]; [done| |];
          (split; [by apply untouched_db|eauto]).
    + right. destruct H as [(x & d & H & _)|[Hd [?|[= <-]]]]; [done| |];
        (split; [by apply untouched_db|eauto 6]).
  - right. destruct H as [(x & d & H & _)|[Hd [?|[= <-]]]]; [done| |];
      (split; [by apply untouched_db|eauto]).
Qed.

Lemma bool_decide_aid (o : option bytes) id :
  match o with Some existing => negb (bool_decide (existing = aid id)) | None => false end = false →
  ∀ b, o = Some b → b = aid id.
Proof.
  intros H b ->. apply negb_false_iff, bool_decide_eq_true in H. done.
Qed.

(** The index after the writes of a publication. *)
Lemma rebind_rebound (d : D) (id : AccountId) (u : UserId) p u' :
  let d1 := tbl_insert USER_INDEX (UserId.as_str u) (aid id) d in
  let d2 :=
    match p with
    | Some previous =>
        if negb (bool_decide (previous = u))
           && bool_decide (tbl_get USER_INDEX (UserId.as_str previous) d1 = Some (aid id))
        then tbl_remove USER_INDEX (UserId.as_str previous) d1 else d1
    | None => d1
    end in
  (∀ a k, tbl_get BLOBS (blob_key a k) d2 = tbl_get BLOBS (blob_key a k) d) ∧
  tbl_get USER_INDEX (UserId.as_str u) d2 = Some (aid id) ∧
  (u' ≠ u → tbl_get USER_INDEX (UserId.as_str u') d2 = tbl_get USER_INDEX (UserId.as_str u') d ∨
    (p = Some u' ∧ tbl_get USER_INDEX (UserId.as_str u') d = Some (aid id) ∧
      tbl_get USER_INDEX (UserId.as_str u') d2 = None)).
Proof.
  intros d1 d2.
  assert (∀ v, v ≠ u → tbl_get USER_INDEX (UserId.as_str v) d1 = tbl_get USER_INDEX (UserId.as_str v) d)
    as H1.
  { intros v Hv. subst d1. rewrite get_insert_tbl, decide_False; [done|]. by intros ?%UserId.uid_eq. }
  assert (tbl_get USER_INDEX (UserId.as_str u) d1 = Some (aid id)) as H2.
  { subst d1. by rewrite get_insert_tbl, decide_True. }
  assert (∀ a k, tbl_get BLOBS (blob_key a k) d1 = tbl_get BLOBS (blob_key a k) d) as H3.
  { intros. by apply get_insert_ne. }
  subst d2. destruct p as [p|]; [|by auto].
  destruct (negb _ && _) eqn:E; [|by auto].
  apply andb_true_iff in E as [E1%negb_true_iff%bool_decide_eq_false E2%bool_decide_eq_true].
  split_and!.
  - intros. rewrite get_remove_ne by done. apply H3.
  - rewrite get_remove_tbl, decide_False; [done|]. by intros ?%UserId.uid_eq.
  - intros Hu'. rewrite get_remove_tbl. destruct (decide (p = u')) as [->|Hp].
    + right. rewrite decide_True by done. by rewrite <-H1.
    + left. rewrite decide_False by (by intros ?%UserId.uid_eq). by apply H1.
Qed.

Lemma redb_record a u p e n (s : Store) :
  let '(r, s') := redb_compare_and_swap_public_record_ref a u p e n s in
  (r = Ok (Applied e) ∧ slot s a PublicRecord = Ok e ∧ slot_set s s' a PublicRecord n ∧
    rebound s s' a u p) ∨
  (untouched s s' ∧
    ((∃ err, r = Err err) ∨ ∃ c, r = Ok (Mismatch c) ∧ slot s a PublicRecord = Ok c ∧ c ≠ e)).
Proof.
  unfold redb_compare_and_swap_public_record_ref.
  match goal with |- context [begin_write ?b s] =>
    pose proof (begin_write_ends b s) as H; destruct (begin_write b s) as [r s'] end.
  cbn [fst snd] in H. cbn [slot redb_pointers].
  destruct (decode_opt (tbl_get BLOBS (blob_key a PublicRecord) (rs_db s))) as [c|err].
  2: { right. destruct H as [(x & d & H & _)|[Hd [?|[= <-]]]]; [done| |];
      (split; [by apply untouched_db|eauto]). }
  case_bool_decide as Hc; cbn [negb] in H.
  2: { right. destruct H as [(x & d & H & _)|[Hd [?|[= <-]]]]; [done| |];
        (split; [by apply untouched_db|eauto 6]). }
  subst c. cbv zeta in H.
  destruct (match tbl_get USER_INDEX (UserId.as_str u) (rs_db s) with Some _ => _ | None => _ end) eqn:Ho.
  { right. destruct H as [(x & d & H & _)|[Hd [?|[= <-]]]]; [done| |];
      (split; [by apply untouched_db|eauto]). }
  destruct (encode_json n) as [b|err] eqn:Hb.
  2: { right. destruct H as [(x & d & H & _)|[Hd [?|[= <-]]]]; [done| |];
      (split; [by apply untouched_db|eauto]). }
  destruct H as [(x & d & [= <- <-] & -> & Hd)|[Hd [[err ->]|H]]]; [left| |done].
  2: { right. split; [by apply untouched_db|eauto]. }
  pose proof (λ u', rebind_rebound (rs_db s) a u p u') as Hre. cbv zeta in Hre.
  split_and!; try done.
  - eapply slot_insert; [by apply encode_json_Ok|apply (Hre u)|done].
  - split_and!; cbn [bound_to redb_pointers].
    + by apply bool_decide_aid.
    + rewrite Hd, get_insert_ne by done. apply (Hre u).
    + intros u' Hu'. rewrite Hd, get_insert_ne by done. by apply Hre.
Qed.

#[export] Instance redb_pointer_laws : PointerLaws Store.
Proof.
  split.
  - apply redb_other.
  - intros a k s o H. by apply begin_read_value in H.
  - apply redb_swap.
  - apply redb_record.
Qed.

End Redb.
