(* ===== verification/RegistryApi.v ===== *)
(** * RegistryApi: [mycellium-registry/src/http.rs], [recovery.rs] and the blob store of [lib.rs]

    The registry's requests as programs over the server they share: the metadata
    store, the files of the blob store and the random source.  Each transaction
    of the metadata store and each system call is one step ([Interleave]), so
    the requests interleave as concurrently served ones do.  The HTTP framework,
    the mail provider and the clock are inputs: what a request carries, the
    answer of the sender, the time. *)

From S2P Require Import Prelude Std Interleave Crypto Wire Identity UserId Records Storage FileStore Registry.

(** ** [recovery.rs] *)

(** [XChaCha20Poly1305]: key, nonce, message and associated data. *)
Class XChaCha : Type := {
  xc_encrypt : arr 32 → arr 24 → bytes → bytes → option bytes;
  xc_decrypt : arr 32 → bytes → bytes → bytes → option bytes
}.

(** What was encrypted decrypts under the same key, nonce and data; a ciphertext
    carries a tag, so it is not empty. *)
Class XChaChaLaws `{!XChaCha} : Prop := {
  xc_correct key nonce msg aad ct :
    xc_encrypt key nonce msg aad = Some ct → xc_decrypt key (arr_bytes nonce) ct aad = Some msg;
  xc_tagged key nonce msg aad ct : xc_encrypt key nonce msg aad = Some ct → ct ≠ []
}.

Definition MAGIC : bytes := b#"MCRK" ++ [byte_of 1].
Definition NONCE_LEN : nat := 24.

(** [struct RecoveryCipher { key }] *)
Record RecoveryCipher : Type := mkCipher { rc_key : arr 32 }.

Definition hex_nibble (byte : ascii) : Res N :=
  if in_range 48 57 byte then Ok (byte_val byte - 48)%N
  else if in_range 97 102 byte then Ok (byte_val byte - 97 + 10)%N
  else if in_range 65 70 byte then Ok (byte_val byte - 65 + 10)%N
  else Err (internal b#"MYCELLIUM_REGISTRY_RECOVERY_KEY must be hexadecimal").

(** The loop over [chunks_exact(2)]. *)
Fixpoint hex_pairs (value : str) : Res bytes :=
  match value with
  | hi :: lo :: rest =>
      let? h := hex_nibble hi in
      let? l := hex_nibble lo in
      let? key := hex_pairs rest in
      Ok (byte_of (N.lor (N.shiftl h 4) l) :: key)
  | _ => Ok []
  end.

Definition cipher_from_hex (value : str) : Res RecoveryCipher :=
  if negb (length value =? 64)%nat
  then Err (internal b#"MYCELLIUM_REGISTRY_RECOVERY_KEY must be 64 hexadecimal characters")
  else let? key := hex_pairs value in Ok (mkCipher (arr_fit 32 key)).

(** [from_env], on the value of the variable. *)
Definition cipher_from_env (value : option str) : Res RecoveryCipher :=
  let? value := ok_or (internal b#"MYCELLIUM_REGISTRY_RECOVERY_KEY is required") value in
  cipher_from_hex (trim value).

Definition recovery_aad (account_id : AccountId) : str :=
  b#"mycellium-registry-recovery-v1:" ++ aid account_id.

Section Cipher.
Context `{!XChaCha}.

Definition sealed_under (self : RecoveryCipher) (account_id : AccountId) (nonce : arr 24)
    (plaintext : bytes) : Res bytes :=
  let? ciphertext := ok_or (internal b#"recovery encryption failed")
    (xc_encrypt (rc_key self) nonce plaintext (recovery_aad account_id)) in
  Ok (MAGIC ++ arr_bytes nonce ++ ciphertext).

Definition cipher_open (self : RecoveryCipher) (account_id : AccountId) (sealed : bytes) : Res bytes :=
  let? rest := ok_or (internal b#"unsupported recovery blob") (strip MAGIC sealed) in
  if (length rest <=? NONCE_LEN)%nat then Err (internal b#"corrupt recovery blob")
  else
    ok_or (internal b#"recovery blob authentication failed")
      (xc_decrypt (rc_key self) (take NONCE_LEN rest) (drop NONCE_LEN rest) (recovery_aad account_id)).
End Cipher.

(** ** The server *)
Record Server (S : Type) : Type := mkServer { sv_registry : Registry S; sv_disk : Host }.
Arguments mkServer {S} _ _.
Arguments sv_registry {S} _.
Arguments sv_disk {S} _.

(** The [authorization] header, when there is one. *)
Abbreviation HeaderMap := (option bytes).

(** System calls on directories; permissions are not modelled. *)
Definition create_dir_all : M Host unit := syscall no_effect.
Definition restrict_dir : M Host unit := syscall no_effect.
Definition restrict_file : M Host unit := syscall no_effect.
Definition open_dir : M Host unit := syscall no_effect.

(** [read_dir]: the names of the files directly in a directory. *)
Definition is_slash (c : ascii) : bool := bool_decide (c = "/"%char).
Definition read_dir (directory : bytes) : M Host (list bytes) := λ h,
  (let! _ := syscall no_effect in
   retM (omap (λ '(name, _), 
           rest ← strip (directory ++ b#"/") name;
           if existsb is_slash rest then None else Some rest) (map_to_list (files h)))) h.

Section Server.
Context {crypto : Crypto}.
Context {S : Type} `{!RegistryStore S}.
Abbreviation P E A := (Prog (Server S) E A).

Definition on_service {E A} (m : Prog (Registry S) E A) : P E A :=
  zoom sv_registry (λ r s, mkServer r (sv_disk s)) m.

(** A call of the metadata store made by a handler. *)
Definition on_store {A} (m : R S A) : P RegistryError A := on_service (on_reg m).

(** A system call, its error mapped to a registry error. *)
Definition fs {A} (message : str) (m : M Host A) : P RegistryError A :=
  atomic (λ s,
    let '(r, h) := m (sv_disk s) in
    (map_err (λ _, internal message) r, mkServer (sv_registry s) h)).

(** ** [FileBlobStore] *)
Record FileBlobStore : Type := mkBlobs { root : bytes }.

Definition blob_id_char (b : ascii) : bool :=
  is_ascii_lowercase b || is_ascii_digit b || bool_decide (b = "-"%char) || bool_decide (b = "_"%char).

Definition account_dir (self : FileBlobStore) (account_id : AccountId) : bytes :=
  let id := aid account_id in
  root self ++ b#"/users/" ++ take 3 id ++ b#"/" ++ take 3 (drop 3 id) ++ b#"/"
    ++ take 3 (drop 6 id) ++ b#"/" ++ id.

(** [path]: the directory and the name without its extension. *)
Definition blob_stem (self : FileBlobStore) (account_id : AccountId) (blob_id : str) : Res bytes :=
  if negb (forallb blob_id_char blob_id) then Err (internal b#"invalid blob id")
  else Ok (account_dir self account_id ++ b#"/" ++ blob_id).
Definition data_file (stem : bytes) : bytes := stem ++ b#".data".

Definition random_hex_8 : P RegistryError str :=
  let# b := on_service (reg_getrandom 8) in okP (hex b).

Definition sync_directory : P RegistryError unit :=
  let# _ := fs b#"open blob dir for sync failed" open_dir in
  fs b#"sync blob dir failed" sync_all.

(** Both checks of a blob's bytes against its reference. *)
Definition denotes (blob : BlobRef) (content : bytes) : bool :=
  (N.of_nat (length content) =? u_val (bl_size blob))%N && bool_decide (sha256_hex content = bl_sha256 blob).

Definition blob_of (kind : AccountBlobKind) (content : bytes) : BlobRef :=
  let sha256 := sha256_hex content in
  mkBlobRef (blob_kind_str kind ++ b#"-" ++ sha256) (uwrap 64 (N.of_nat (length content))) sha256.

(** What [put] does when the blob is not there yet. *)
Definition commit_blob (tmp stem content : bytes) (blob : BlobRef) : P RegistryError BlobRef :=
  let# _ := fs b#"create blob failed" (create_new tmp) in
  let# _ := fs b#"secure blob failed" restrict_file in
  let# _ := fs b#"write blob failed" (write_all tmp content) in
  let# _ := fs b#"sync blob failed" sync_all in
  let# _ := fs b#"commit blob failed" (rename tmp (data_file stem)) in
  let# _ := sync_directory in
  okP blob.

Definition write_blob (stem content : bytes) (blob : BlobRef) : P RegistryError BlobRef :=
  let# suffix := random_hex_8 in
  commit_blob (stem ++ b#".tmp-" ++ suffix) stem content blob.

Definition blobs_put (self : FileBlobStore) (account_id : AccountId) (kind : AccountBlobKind)
    (content : bytes) : P RegistryError BlobRef :=
  let blob := blob_of kind content in
  let# stem := Ret (blob_stem self account_id (bl_id blob)) in
  let# _ := fs b#"create blob dir failed" create_dir_all in
  let# _ := fs b#"secure blob dir failed" restrict_dir in
  let# found := fs b#"read blob failed" (readM (fs_read (data_file stem))) in
  match found with
  | Some existing =>
      if denotes blob existing
      then let# _ := fs b#"secure blob failed" restrict_file in okP blob
      else write_blob stem content blob
  | None => write_blob stem content blob
  end.

Definition blobs_get (self : FileBlobStore) (account_id : AccountId) (blob : BlobRef)
    : P RegistryError (option bytes) :=
  let# stem := Ret (blob_stem self account_id (bl_id blob)) in
  let# found := fs b#"read blob failed" (readM (fs_read (data_file stem))) in
  match found with
  | Some content =>
      if negb (denotes blob content) then errP (internal b#"blob integrity check failed")
      else okP (Some content)
  | None => okP None
  end.

Definition blobs_remove (self : FileBlobStore) (account_id : AccountId) (blob : BlobRef)
    : P RegistryError unit :=
  let# stem := Ret (blob_stem self account_id (bl_id blob)) in
  let# existed := fs b#"remove blob failed" (remove_file (data_file stem)) in
  if existed then sync_directory else okP tt.

(** The loop over the entries of the directory. *)
Fixpoint prune_entries (directory : bytes) (current prefix : bytes) (entries : list bytes)
    : P RegistryError unit :=
  match entries with
  | [] => okP tt
  | name :: rest =>
      if bool_decide (name = current) || negb (bool_decide (is_Some (strip prefix name)))
      then prune_entries directory current prefix rest
      else
        let# existed := fs b#"remove stale blob failed" (remove_file (directory ++ b#"/" ++ name)) in
        if existed then prune_entries directory current prefix rest
        else errP (internal b#"remove stale blob failed")
  end.

Definition prune_kind_except (self : FileBlobStore) (account_id : AccountId) (kind : AccountBlobKind)
    (current : BlobRef) : P RegistryError unit :=
  let# _ := Ret (blob_stem self account_id (bl_id current)) in
  let directory := account_dir self account_id in
  let prefix := blob_kind_str kind ++ b#"-" in
  let# entries := fs b#"read blob dir failed" (read_dir directory) in
  let# _ := prune_entries directory (bl_id current ++ b#".data") prefix entries in
  sync_directory.

(** ** [http.rs] *)
Inductive StatusCode : Type :=
  | BAD_REQUEST | UNAUTHORIZED | FORBIDDEN | NOT_FOUND | TOO_MANY_REQUESTS | PAYLOAD_TOO_LARGE
  | CONFLICT | INTERNAL_SERVER_ERROR.

Record ApiError : Type := mkApiError { ae_status : StatusCode; ae_message : str }.

Definition bad_request (message : str) : ApiError := mkApiError BAD_REQUEST message.
Definition unauthorized : ApiError := mkApiError UNAUTHORIZED b#"unauthorized".
Definition forbidden : ApiError := mkApiError FORBIDDEN b#"forbidden".
Definition not_found (message : str) : ApiError := mkApiError NOT_FOUND message.
Definition rate_limited : ApiError := mkApiError TOO_MANY_REQUESTS b#"rate limited".
Definition payload_too_large : ApiError := mkApiError PAYLOAD_TOO_LARGE b#"payload too large".
Definition api_conflict (message : str) : ApiError := mkApiError CONFLICT message.
Definition api_internal : ApiError := mkApiError INTERNAL_SERVER_ERROR b#"internal server error".

(** [From<RegistryError>] *)
Definition from_registry (err : RegistryError) : ApiError :=
  match re_kind err with
  | InvalidInput => mkApiError BAD_REQUEST (re_message err)
  | Conflict => api_conflict (re_message err)
  | Internal => api_internal
  end.

(** [?] on a registry result in a handler. *)
Definition api {A} (m : P RegistryError A) : P ApiError A := map_errP from_registry m.

Inductive Response : Type :=
  | EmailLoginResponse (expires_at : i64)
  | ConfirmLoginResponse (account_id : str) (created : bool) (session_token : str)
      (session_expires_at : i64)
  | BlobResponse (id : str) (size : u64) (sha256 : str)
  | OctetStream (body : bytes).

Definition blob_response (blob : BlobRef) : Response :=
  BlobResponse (bl_id blob) (bl_size blob) (bl_sha256 blob).

Definition LOGIN_TTL_SECS : i64 := I64 900.
Definition SESSION_TTL_SECS : i64 := I64 900.
Definition EMAIL_LOGIN_LIMIT : u64 := U64 5.
Definition EMAIL_LOGIN_SOURCE_LIMIT : u64 := U64 100.
Definition LOGIN_CONFIRM_SOURCE_LIMIT : u64 := U64 300.
Definition MAX_BACKUP_BYTES : N := 16777216.
Definition MAX_PUBLIC_RECORD_BYTES : N := 1048576.
Definition RECOVERY_SECRET_BYTES : nat := 32.

(** [AppState<S>]: the parts that do not change, and the clock and the mail
    provider as what they answer the request. *)
Record AppState : Type := mkApp {
  blobs : FileBlobStore;
  send_login_token : str → str → i64 → Res unit;
  recovery_cipher : RecoveryCipher
}.

Context `{!XChaCha, !Postcard SignedRecord, !Postcard IdentityClaim,
  !Postcard (WalletPublicKey * DeviceRecord), !Postcard ReachabilityRecord}.
Context (state : AppState) (now : i64).

Definition visible_ascii (c : ascii) : bool := in_range 32 126 c || (byte_val c =? 9)%N.

Definition bearer_token (headers : HeaderMap) : option str :=
  value ← headers;
  if forallb visible_ascii value then strip b#"Bearer " value else None.

Definition parse_account_id (value : str) : result ApiError AccountId :=
  map_err from_registry (account_from_str value).

Definition authorize (headers : HeaderMap) (account_id : AccountId) : P ApiError unit :=
  let# token := Ret (ok_or unauthorized (bearer_token headers)) in
  let# found := api (on_service (account_for_session token now)) in
  match found with
  | None => errP unauthorized
  | Some session_account =>
      if negb (bool_decide (session_account = account_id)) then errP forbidden else okP tt
  end.

Definition require_size_at_most (size max : N) : result ApiError unit :=
  if (max <? size)%N then Err payload_too_large else Ok tt.

Definition check_rate_limit (k : str) (window_secs : i64) (limit : u64) : P ApiError unit :=
  let# bucket := api (on_store (bump_rate_limit k now window_secs)) in
  if ultb limit (rb_count bucket) then errP rate_limited else okP tt.

Definition http_request_email_login (source : str) (email : str) : P ApiError Response :=
  let# _ := check_rate_limit (b#"login:source:" ++ source) LOGIN_TTL_SECS EMAIL_LOGIN_SOURCE_LIMIT in
  let# value_hash := api (Ret (LoginIdentityHash_email email)) in
  let# _ := check_rate_limit (b#"login:email:" ++ hash_str value_hash) LOGIN_TTL_SECS EMAIL_LOGIN_LIMIT in
  let# challenge := api (on_service (request_email_login email now LOGIN_TTL_SECS)) in
  let# _ := api (Ret (send_login_token state email (lc_token challenge) (lc_expires_at challenge))) in
  okP (EmailLoginResponse (lc_expires_at challenge)).

Definition http_confirm_login (source : str) (token : str) : P ApiError Response :=
  let# _ := check_rate_limit (b#"confirm:source:" ++ source) LOGIN_TTL_SECS LOGIN_CONFIRM_SOURCE_LIMIT in
  let# login := api (on_service (confirm_login token now)) in
  let# session := api (on_service (create_session (al_account_id login) now SESSION_TTL_SECS)) in
  okP (ConfirmLoginResponse (aid (st_account_id session)) (al_created login)
         (st_token session) (st_expires_at session)).

(** The pointer of a slot and the bytes it names; retried when a concurrent
    replacement removed them. *)
Fixpoint load_current_blob (fuel : nat) (account_id : AccountId) (kind : AccountBlobKind)
    : P RegistryError (option (BlobRef * bytes)) :=
  match fuel with
  | O => Spin
  | Datatypes.S fuel =>
      let# found := on_store (blob_ref account_id kind) in
      match found with
      | None => okP None
      | Some blob =>
          let# content := blobs_get (blobs state) account_id blob in
          match content with
          | Some content => okP (Some (blob, content))
          | None =>
              let# again := on_store (blob_ref account_id kind) in
              if bool_decide (again = Some blob) then errP (internal b#"current blob is missing")
              else load_current_blob fuel account_id kind
          end
      end
  end.

(** The error of the cleanup is logged. *)
Definition remove_replaced_blob (account_id : AccountId) (previous : option BlobRef)
    (current : BlobRef) : P ApiError unit :=
  match previous with
  | Some previous =>
      if bool_decide (previous = current) then okP tt
      else catchP (blobs_remove (blobs state) account_id previous) (λ _, okP tt)
  | None => okP tt
  end.

Fixpoint put_backup_loop (fuel : nat) (account_id : AccountId) (blob : BlobRef)
    (expected : option BlobRef) : P ApiError unit :=
  match fuel with
  | O => Spin
  | Datatypes.S fuel =>
      let# swap := api (on_store (compare_and_swap_blob_ref account_id Backup expected blob)) in
      match swap with
      | Applied previous => remove_replaced_blob account_id previous blob
      | Mismatch current => put_backup_loop fuel account_id blob current
      end
  end.

Definition put_backup (fuel : nat) (account_id : str) (headers : HeaderMap) (body : bytes)
    : P ApiError Response :=
  let# account_id := Ret (parse_account_id account_id) in
  let# _ := authorize headers account_id in
  let# _ := Ret (require_size_at_most (N.of_nat (length body)) MAX_BACKUP_BYTES) in
  let# blob := api (blobs_put (blobs state) account_id Backup body) in
  let# expected := api (on_store (blob_ref account_id Backup)) in
  let# _ := put_backup_loop fuel account_id blob expected in
  okP (blob_response blob).

Definition get_backup (fuel : nat) (account_id : str) (headers : HeaderMap) : P ApiError Response :=
  let# account_id := Ret (parse_account_id account_id) in
  let# _ := authorize headers account_id in
  let# found := api (load_current_blob fuel account_id Backup) in
  match found with
  | None => errP (not_found b#"backup not found")
  | Some (_, content) => okP (OctetStream content)
  end.

Definition cipher_seal (account_id : AccountId) (plaintext : bytes) : P RegistryError bytes :=
  let# nonce := on_service (reg_getrandom NONCE_LEN) in
  Ret (sealed_under (recovery_cipher state) account_id nonce plaintext).

Fixpoint put_recovery_loop (fuel : nat) (account_id : AccountId) (body : bytes) (blob : BlobRef)
    : P ApiError Response :=
  match fuel with
  | O => Spin
  | Datatypes.S fuel' =>
      let# current := api (load_current_blob fuel account_id Recovery) in
      match current with
      | Some (current_ref, current_sealed) =>
          let# current_secret :=
            api (Ret (cipher_open (recovery_cipher state) account_id current_sealed)) in
          if negb (bool_decide (current_secret = body)) then
            let# _ := api (blobs_remove (blobs state) account_id blob) in
            errP (api_conflict b#"account recovery identity cannot be replaced")
          else
            let# _ := if negb (bool_decide (current_ref = blob))
                      then api (blobs_remove (blobs state) account_id blob) else okP tt in
            okP (blob_response current_ref)
      | None =>
          let# swap := api (on_store (compare_and_swap_blob_ref account_id Recovery None blob)) in
          match swap with
          | Applied _ => okP (blob_response blob)
          | Mismatch _ => put_recovery_loop fuel' account_id body blob
          end
      end
  end.

Definition put_recovery (fuel : nat) (account_id : str) (headers : HeaderMap) (body : bytes)
    : P ApiError Response :=
  let# account_id := Ret (parse_account_id account_id) in
  let# _ := authorize headers account_id in
  if negb (length body =? RECOVERY_SECRET_BYTES)%nat
  then errP (bad_request b#"recovery material must be exactly 32 bytes")
  else
    let# wallet_secret := Ret (ok_or (bad_request b#"invalid recovery material") (arr_try (n := 32) body)) in
    let# _ := Ret (map_err (λ _, bad_request b#"recovery material is not a valid wallet key")
                     (Identity.from_wallet_secret wallet_secret (arr_fit 32 []))) in
    let# sealed := api (cipher_seal account_id body) in
    let# blob := api (blobs_put (blobs state) account_id Recovery sealed) in
    put_recovery_loop fuel account_id body blob.

Definition get_recovery (fuel : nat) (account_id : str) (headers : HeaderMap) : P ApiError Response :=
  let# account_id := Ret (parse_account_id account_id) in
  let# _ := authorize headers account_id in
  let# found := api (load_current_blob fuel account_id Recovery) in
  match found with
  | None => errP (not_found b#"recovery material not found")
  | Some (_, sealed) =>
      let# secret := api (Ret (cipher_open (recovery_cipher state) account_id sealed)) in
      if negb (length secret =? RECOVERY_SECRET_BYTES)%nat
      then errP (bad_request b#"stored recovery material is invalid")
      else okP (OctetStream secret)
  end.

Definition decode_signed_public_record (input : bytes) : result ApiError SignedRecord :=
  let? record := map_err (λ _, bad_request b#"bad signed public record") (wire.decode input) in
  let? _ := map_err (λ _, bad_request b#"public record failed verification") (verify record) in
  Ok record.

Record PublicRecordUpdate : Type := mkUpdate {
  up_expected : option BlobRef; previous_user_id : option UserId }.

Definition freshness_eqb (a c : u64 * u64 * u64) : bool := bool_decide (a = c).

Definition enforce_public_record_update (fuel : nat) (account_id : AccountId) (next : SignedRecord)
    (next_bytes : bytes) : P ApiError PublicRecordUpdate :=
  let# recovery := api (load_current_blob fuel account_id Recovery) in
  let# (_, recovery_sealed) :=
    Ret (ok_or (api_conflict b#"store account recovery before publishing a record") recovery) in
  let# recovery := api (Ret (cipher_open (recovery_cipher state) account_id recovery_sealed)) in
  let# wallet_secret :=
    Ret (ok_or (bad_request b#"stored recovery material is invalid") (arr_try (n := 32) recovery)) in
  let# identity :=
    Ret (map_err (λ _, bad_request b#"stored recovery material is invalid")
           (Identity.from_wallet_secret wallet_secret (arr_fit 32 []))) in
  if negb (bool_decide (r_wallet (sg_record next) = Identity.wallet_public identity))
  then errP (api_conflict b#"public record does not belong to the account recovery identity")
  else
    let# found := api (load_current_blob fuel account_id PublicRecord) in
    match found with
    | None => okP (mkUpdate None None)
    | Some (current_ref, current_bytes) =>
        let# current := Ret (map_err (λ _, bad_request b#"stored public record is invalid")
                               (wire.decode (T := SignedRecord) current_bytes)) in
        let update := mkUpdate (Some current_ref) (Some (r_user_id (sg_record current))) in
        if is_err (verify current) then okP update
        else if negb (bool_decide (r_user_id (sg_record current) = r_user_id (sg_record next)))
        then errP (api_conflict b#"public record belongs to a different user")
        else if freshness_ltb (freshness next) (freshness current)
             || (freshness_eqb (freshness next) (freshness current)
                 && negb (bool_decide (next_bytes = current_bytes)))
        then errP (api_conflict b#"stale public record")
        else okP update
    end.

Fixpoint put_public_record_loop (fuel : nat) (account_id : AccountId) (record : SignedRecord)
    (body : bytes) (blob : BlobRef) : P ApiError Response :=
  match fuel with
  | O => Spin
  | Datatypes.S fuel' =>
      catchP (enforce_public_record_update fuel account_id record body) (λ checked,
        match checked with
        | Err error =>
            catchP (blobs_remove (blobs state) account_id blob) (λ _, errP error)
        | Ok update =>
            let# swap := api (on_store (compare_and_swap_public_record_ref account_id
              (r_user_id (sg_record record)) (previous_user_id update) (up_expected update) blob)) in
            match swap with
            | Applied previous =>
                let# _ := remove_replaced_blob account_id previous blob in
                okP (blob_response blob)
            | Mismatch _ => put_public_record_loop fuel' account_id record body blob
            end
        end)
  end.

Definition put_public_record (fuel : nat) (account_id : str) (headers : HeaderMap) (body : bytes)
    : P ApiError Response :=
  let# account_id := Ret (parse_account_id account_id) in
  let# _ := authorize headers account_id in
  let# _ := Ret (require_size_at_most (N.of_nat (length body)) MAX_PUBLIC_RECORD_BYTES) in
  let# record := Ret (decode_signed_public_record body) in
  let# blob := api (blobs_put (blobs state) account_id PublicRecord body) in
  put_public_record_loop fuel account_id record body blob.

Definition public_record_response (fuel : nat) (account_id : AccountId) : P ApiError Response :=
  let# found := api (load_current_blob fuel account_id PublicRecord) in
  match found with
  | None => errP (not_found b#"record not found")
  | Some (_, content) =>
      let# _ := Ret (map_err (λ _, not_found b#"record not found")
                       (decode_signed_public_record content)) in
      okP (OctetStream content)
  end.

Definition get_public_record (fuel : nat) (account_id : str) : P ApiError Response :=
  let# account_id := Ret (parse_account_id account_id) in
  public_record_response fuel account_id.

Definition get_public_record_by_user_id (fuel : nat) (user_id : str) : P ApiError Response :=
  let# user_id := Ret (map_err (λ _, bad_request b#"invalid protocol user id") (UserId.new user_id)) in
  let# found := api (on_store (account_id_by_user_id user_id)) in
  match found with
  | None => errP (not_found b#"record not found")
  | Some account_id => public_record_response fuel account_id
  end.

(** [AppState::purge_expired], which the server runs periodically. *)
Definition api_purge_expired (limit : nat) : P RegistryError nat := on_store (purge_expired now limit).
End Server.
