(* ===== verification/RegistryApiProps.v ===== *)
(** * RegistryApiProps: what holds however the registry's requests interleave

    Every handler of [RegistryApi], on any metadata store with the laws of
    [RegistryPointers]: the recovery identity of an account is written once, its
    public record only moves forward under that identity, and a user id never
    passes from one account to another. *)

From S2P Require Import Prelude Std Interleave Crypto Wire Identity UserId Records Storage FileStore Registry RegistrySpec RegistryProps RegistryPointers RegistryApi.

(** ** Programs that leave pointers and index alone *)
Section Calm.
Context {S : Type} `{!RegistryStore S, !Pointers S}.

(** Every step leaves the store untouched, and [Q] holds of the result. *)
Fixpoint calm {Σ E A} (st : Σ → S) (m : Prog Σ E A) (Q : result E A → Prop) : Prop :=
  match m with
  | Ret r => Q r
  | Spin => True
  | Atom f k => ∀ s, untouched (st s) (st (snd (f s))) ∧ calm st (k (fst (f s))) Q
  end.

Lemma calm_weaken {Σ E A} (st : Σ → S) (m : Prog Σ E A) (Q Q' : result E A → Prop) :
  (∀ r, Q r → Q' r) → calm st m Q → calm st m Q'.
Proof. intros HQ. induction m as [r| |X f k IH]; cbn; naive_solver. Qed.

Lemma calm_bind {Σ E A B} (st : Σ → S) (m : Prog Σ E A) (k : A → Prog Σ E B) Q Q' :
  calm st m Q → (∀ a, Q (Ok a) → calm st (k a) Q') → (∀ e, Q' (Err e)) → calm st (bindP m k) Q'.
Proof.
  intros Hm Hk He. induction m as [[a|e]| |X f next IH]; cbn in *; [by auto|by auto|done|].
  intros s. destruct (Hm s) as [? ?]. split; [done|]. by apply IH.
Qed.

Lemma calm_catch {Σ E F A B} (st : Σ → S) (m : Prog Σ E A) (k : result E A → Prog Σ F B) Q Q' :
  calm st m Q → (∀ r, Q r → calm st (k r) Q') → calm st (catchP m k) Q'.
Proof.
  intros Hm Hk. induction m as [r| |X f next IH]; cbn in *; [by auto|done|].
  intros s. destruct (Hm s) as [? ?]. split; [done|]. by apply IH.
Qed.

Lemma calm_zoom {Σ Σ' E A} (st : Σ → S) (st' : Σ' → S) get put (m : Prog Σ E A) Q :
  (∀ s, st' s = st (get s)) → (∀ p s, get (put p s) = p) →
  calm st m Q → calm st' (zoom get put m) Q.
Proof.
  intros Hst Hgp. induction m as [r| |X f k IH]; cbn; [done..|]. intros Hm s.
  destruct (Hm (get s)) as [H1 H2]. destruct (f (get s)) as [x p]. cbn in *.
  rewrite !Hst, Hgp. split; [done|]. by apply IH.
Qed.

Lemma calm_atomic {Σ E A} (st : Σ → S) (f : Σ → result E A * Σ) (Q : result E A → Prop) :
  (∀ s, untouched (st s) (st (snd (f s))) ∧ Q (fst (f s))) → calm st (atomic f) Q.
Proof. done. Qed.

Lemma untouched_same (s : S) : untouched s s.
Proof. done. Qed.
End Calm.

Section Service.
Context {crypto : Crypto}.
Context {S : Type} `{!RegistryStore S, !Pointers S, !PointerLaws S}.

Lemma map_reply_snd {A} (f : A → Reply) (m : R S A) s : snd (map_reply f m s) = snd (m s).
Proof. unfold map_reply, bindR. by destruct (m s) as [[x|e] s']. Qed.

(** A call of the store that is not a swap. *)
Lemma calm_on_reg {A} op (f : A → Reply) (m : R S A) (Q : Res A → Prop) :
  touches_pointers op = false → @perform S _ op = map_reply f m → (∀ s, Q (fst (m s))) →
  calm store (on_reg m) Q.
Proof.
  intros Ht Hop HQ. apply calm_atomic. intros r. pose proof (ptr_other op (store r) Ht) as H.
  rewrite Hop, map_reply_snd in H. specialize (HQ (store r)). by destruct (m (store r)).
Qed.

Lemma calm_getrandom n : calm store (reg_getrandom n : Prog (Registry S) _ _) (λ _, True).
Proof. apply calm_atomic. intros r. split; [|done]. by destruct (random r) as [|[b|] rest]. Qed.

Ltac anything := by intros; exact I.
Ltac calm_op op :=
  eapply calm_bind with (Q := λ _, True);
    [eapply (calm_on_reg op); [done|reflexivity|done]| |done]; intros ? _.

Lemma calm_account_for_session token now :
  calm store (account_for_session (S := S) token now) (λ _, True).
Proof.
  calm_op (GetSession (token_hash token)). destruct a as [s|]; [|done]. by destruct (i_leb _ _).
Qed.

Lemma calm_request_email_login email now ttl :
  calm store (request_email_login (S := S) email now ttl) (λ _, True).
Proof.
  unfold request_email_login. destruct (i_leb _ _); [done|].
  apply calm_bind with (Q := λ _, True); [done| |done]. intros h _.
  calm_op (AccountIdByLogin Email h).
  apply calm_bind with (Q := λ _, True); [| |done].
  { apply calm_bind with (Q := λ _, True); [apply calm_getrandom|done|done]. }
  intros token _. cbv zeta. by calm_op (PutLoginToken (token_hash token)
    (mkLoginToken Email h a (i_saturating_add now ttl))).
Qed.

Lemma calm_confirm_login token now : calm store (confirm_login (S := S) token now) (λ _, True).
Proof.
  unfold confirm_login. calm_op (TakeLoginToken (token_hash token)).
  destruct a as [t|]; [|done]. destruct (i_leb _ _); [done|]. destruct (lt_account_id t); [done|].
  apply calm_bind with (Q := λ _, True); [| |done].
  { apply calm_bind with (Q := λ _, True); [apply calm_getrandom|done|done]. }
  intros id _. by apply (calm_on_reg (GetOrCreate (lt_kind t) (lt_value_hash t) (Account_new id now) now) RLogin).
Qed.

Lemma calm_create_session a now ttl : calm store (create_session (S := S) a now ttl) (λ _, True).
Proof.
  unfold create_session. destruct (i_leb _ _); [done|].
  apply calm_bind with (Q := λ _, True); [| |done].
  { apply calm_bind with (Q := λ _, True); [apply calm_getrandom|done|done]. }
  intros token _. cbv zeta.
  by calm_op (ReplaceSession (mkSession a (token_hash token) (i_saturating_add now ttl))).
Qed.
End Service.

(** ** The handlers' parts *)
Section Handlers.
Context {crypto : Crypto}.
Context {S : Type} `{!RegistryStore S, !Pointers S, !PointerLaws S}.
Abbreviation P E A := (Prog (Server S) E A).
Definition st (s : Server S) : S := store (sv_registry s).

Lemma calm_service {E A} (m : Prog (Registry S) E A) Q : calm store m Q → calm st (on_service m) Q.
Proof. by apply calm_zoom. Qed.

Lemma calm_store {A} op (f : A → Reply) (m : R S A) :
  touches_pointers op = false → @perform S _ op = map_reply f m → calm st (on_store m) (λ _, True).
Proof. intros H1 H2. by apply calm_service, (calm_on_reg op f). Qed.

Lemma calm_fs {A} message (m : M Host A) : calm st (fs (S := S) message m) (λ _, True).
Proof. apply calm_atomic. intros s. split; [|done]. by destruct (m (sv_disk s)). Qed.

Lemma calm_api {A} (m : P RegistryError A) (Q : A → Prop) :
  calm st m (λ r, match r with Ok a => Q a | Err _ => True end) →
  calm st (api m) (λ r, match r with Ok a => Q a | Err _ => True end).
Proof. intros H. eapply calm_catch; [exact H|]. by intros [a|e] Ha. Qed.

Lemma calm_api_any {A} (m : P RegistryError A) :
  calm st m (λ _, True) → calm st (api m) (λ _, True).
Proof. intros H. by eapply calm_catch. Qed.

(** Sequencing when nothing is needed of the intermediate result. *)
Lemma calm_seq {E A B} (m : P E A) (k : A → P E B) (Q : result E B → Prop) :
  calm st m (λ _, True) → (∀ a, calm st (k a) Q) → (∀ e, Q (Err e)) → calm st (bindP m k) Q.
Proof. intros Hm Hk He. by eapply calm_bind. Qed.

Context (state : AppState) (now : i64).
Context `{!XChaCha, !Postcard SignedRecord, !Postcard IdentityClaim,
  !Postcard (WalletPublicKey * DeviceRecord), !Postcard ReachabilityRecord}.

Lemma calm_random_hex : calm st (random_hex_8 (S := S)) (λ _, True).
Proof. apply calm_seq; [|done|done]. apply calm_service, calm_getrandom. Qed.

Lemma calm_sync_directory : calm st (sync_directory (S := S)) (λ _, True).
Proof. apply calm_seq; [apply calm_fs|intros; apply calm_fs|done]. Qed.

(** What [put] returns is the reference of the bytes. *)
Definition puts (blob : BlobRef) (r : Res BlobRef) : Prop := match r with Ok b => b = blob | Err _ => True end.

Lemma calm_write_blob stem content blob : calm st (write_blob (S := S) stem content blob) (puts blob).
Proof.
  unfold write_blob, commit_blob. apply calm_seq; [apply calm_random_hex|intros suffix|done].
  do 5 (apply calm_seq; [apply calm_fs|intros _|done]).
  by apply calm_seq; [apply calm_sync_directory|intros _|].
Qed.

Lemma calm_blobs_put self a k content :
  calm st (blobs_put (S := S) self a k content) (puts (blob_of k content)).
Proof.
  unfold blobs_put. cbv zeta. apply calm_seq; [done|intros stem|done].
  do 2 (apply calm_seq; [apply calm_fs|intros _|done]).
  apply calm_seq; [apply calm_fs|intros found|done].
  destruct found as [existing|]; [|apply calm_write_blob].
  destruct (denotes _ _); [|apply calm_write_blob].
  by apply calm_seq; [apply calm_fs|intros _|].
Qed.

(** What [get] returns passed both checks. *)
Definition gets (blob : BlobRef) (r : Res (option bytes)) : Prop :=
  match r with Ok (Some content) => denotes blob content = true | _ => True end.

Lemma calm_blobs_get self a blob : calm st (blobs_get (S := S) self a blob) (gets blob).
Proof.
  unfold blobs_get. apply calm_seq; [done|intros stem|done].
  apply calm_seq; [apply calm_fs|intros found|done]. destruct found as [content|]; [|done].
  by destruct (denotes blob content) eqn:E.
Qed.

Lemma calm_blobs_remove self a blob : calm st (blobs_remove (S := S) self a blob) (λ _, True).
Proof.
  unfold blobs_remove. apply calm_seq; [done|intros stem|done].
  apply calm_seq; [apply calm_fs|intros existed|done].
  destruct existed; [apply calm_sync_directory|done].
Qed.

Lemma calm_check_rate_limit k w limit : calm st (check_rate_limit (S := S) now k w limit) (λ _, True).
Proof.
  unfold check_rate_limit. apply calm_seq; [|intros b; by destruct (ultb _ _)|done].
  apply calm_api_any. by apply (calm_store (Bump k now w) RBucket).
Qed.

Lemma calm_authorize headers a : calm st (authorize (S := S) now headers a) (λ _, True).
Proof.
  unfold authorize. apply calm_seq; [done|intros token|done].
  apply calm_seq; [apply calm_api_any, calm_service, calm_account_for_session|intros found|done].
  destruct found as [a'|]; [|done]. by destruct (negb _).
Qed.

(** What a load returns: bytes that the pointer denotes. *)
Definition loads {E} (r : result E (option (BlobRef * bytes))) : Prop :=
  match r with Ok (Some (blob, content)) => denotes blob content = true | _ => True end.

Lemma calm_load fuel a k : calm st (load_current_blob (S := S) state fuel a k) loads.
Proof.
  induction fuel as [|fuel IH]; [done|]. cbn [load_current_blob].
  apply calm_seq; [by apply (calm_store (GetBlobRef a k) RBlob)|intros found|done].
  destruct found as [blob|]; [|done].
  eapply calm_bind; [apply calm_blobs_get|intros content Hc|done].
  destruct content as [content|]; [done|].
  apply calm_seq; [by apply (calm_store (GetBlobRef a k) RBlob)|intros again|done].
  by case_bool_decide.
Qed.

Lemma calm_api_load fuel a k : calm st (api (load_current_blob (S := S) state fuel a k)) loads.
Proof. eapply calm_catch; [apply calm_load|]. by intros [[[]|]|e]. Qed.

Lemma calm_remove_replaced a previous current :
  calm st (remove_replaced_blob (S := S) state a previous current) (λ _, True).
Proof.
  destruct previous as [p|]; [|done]. cbn. case_bool_decide; [done|].
  by eapply calm_catch; [apply calm_blobs_remove|].
Qed.

Lemma calm_request_login source email :
  calm st (http_request_email_login (S := S) state now source email) (λ _, True).
Proof.
  unfold http_request_email_login. apply calm_seq; [apply calm_check_rate_limit|intros _|done].
  apply calm_seq; [by apply calm_api_any|intros h|done].
  apply calm_seq; [apply calm_check_rate_limit|intros _|done].
  apply calm_seq; [apply calm_api_any, calm_service, calm_request_email_login|intros c|done].
  by apply calm_seq; [apply calm_api_any|intros _|].
Qed.

Lemma calm_http_confirm source token :
  calm st (http_confirm_login (S := S) now source token) (λ _, True).
Proof.
  unfold http_confirm_login. apply calm_seq; [apply calm_check_rate_limit|intros _|done].
  apply calm_seq; [apply calm_api_any, calm_service, calm_confirm_login|intros l|done].
  by apply calm_seq; [apply calm_api_any, calm_service, calm_create_session|intros s|].
Qed.

Lemma calm_get_backup fuel a headers :
  calm st (get_backup (S := S) state now fuel a headers) (λ _, True).
Proof.
  unfold get_backup. apply calm_seq; [done|intros id|done].
  apply calm_seq; [apply calm_authorize|intros _|done].
  eapply calm_bind; [apply calm_api_load|intros found _|done]. by destruct found as [[]|].
Qed.

Lemma calm_get_recovery fuel a headers :
  calm st (get_recovery (S := S) state now fuel a headers) (λ _, True).
Proof.
  unfold get_recovery. apply calm_seq; [done|intros id|done].
  apply calm_seq; [apply calm_authorize|intros _|done].
  eapply calm_bind; [apply calm_api_load|intros found _|done]. destruct found as [[]|]; [|done].
  apply calm_seq; [by apply calm_api_any|intros secret|done]. by destruct (negb _).
Qed.

Lemma calm_record_response fuel a :
  calm st (public_record_response (S := S) state fuel a) (λ _, True).
Proof.
  unfold public_record_response.
  eapply calm_bind; [apply calm_api_load|intros found _|done]. destruct found as [[]|]; [|done].
  by apply calm_seq.
Qed.

Lemma calm_get_record fuel a : calm st (get_public_record (S := S) state fuel a) (λ _, True).
Proof. apply calm_seq; [done|intros id|done]. apply calm_record_response. Qed.

Lemma calm_get_record_by_user fuel u :
  calm st (get_public_record_by_user_id (S := S) state fuel u) (λ _, True).
Proof.
  apply calm_seq; [done|intros id|done].
  apply calm_seq; [apply calm_api_any; by apply (calm_store (AccountIdByUserId id) RId)|intros found|done].
  destruct found; [apply calm_record_response|done].
Qed.

Lemma calm_purge limit :
  calm st (api_purge_expired (S := S) now limit) (λ _, True).
Proof. by apply (calm_store (Purge now limit) RCount). Qed.
End Handlers.

(** ** What every step guarantees *)
Section Safety.
Context {crypto : Crypto}.
Context {S : Type} `{!RegistryStore S, !Pointers S, !PointerLaws S}.
Abbreviation P E A := (Prog (Server S) E A).
Context (state : AppState).
Context `{!XChaCha, !Postcard SignedRecord, !Postcard IdentityClaim,
  !Postcard (WalletPublicKey * DeviceRecord), !Postcard ReachabilityRecord}.

Definition cslot (s : Server S) : AccountId → AccountBlobKind → Res (option BlobRef) := slot (st s).
Definition cbound (s : Server S) : UserId → option bytes := bound_to (st s).

(** The identity that an account's stored recovery secret restores. *)
Definition identity_of (s : Server S) (a : AccountId) (id : Identity) : Prop :=
  ∃ ref sealed secret (wallet_secret : arr 32),
    cslot s a Recovery = Ok (Some ref) ∧ denotes ref sealed = true ∧
    cipher_open (recovery_cipher state) a sealed = Ok secret ∧ arr_try secret = Some wallet_secret ∧
    Identity.from_wallet_secret wallet_secret (arr_fit 32 []) = Ok id.

(** The bytes [content], which hold [next], may take the place of the record the
    pointer [current] denotes: there is none, or it does not verify, or it is an
    older one of the same user, or the same bytes. *)
Definition may_replace (current : option BlobRef) (content : bytes) (next : SignedRecord) : Prop :=
  match current with
  | None => True
  | Some ref =>
      ∃ old_bytes old, denotes ref old_bytes = true ∧ wire.decode old_bytes = Ok old ∧
        (is_err (verify old) = true ∨
         (r_user_id (sg_record old) = r_user_id (sg_record next) ∧
          (freshness_ltb (freshness old) (freshness next) = true ∨ content = old_bytes)))
  end.

(** One publication: a verified record of the account's own recovery identity. *)
Definition publishes (s s' : Server S) (a : AccountId) : Prop :=
  ∃ current content next id,
    cslot s a PublicRecord = Ok current ∧
    decode_signed_public_record content = Ok next ∧
    identity_of s a id ∧ r_wallet (sg_record next) = Identity.wallet_public id ∧
    may_replace current content next ∧
    cslot s' a PublicRecord = Ok (Some (blob_of PublicRecord content)) ∧
    cbound s' (r_user_id (sg_record next)) = Some (aid a).

Record keeps (s s' : Server S) : Prop := {
  k_recovery a ref : cslot s a Recovery = Ok (Some ref) → cslot s' a Recovery = Ok (Some ref);
  k_record a : cslot s' a PublicRecord = cslot s a PublicRecord ∨ publishes s s' a;
  k_bound u b b' : cbound s u = Some b → cbound s' u = Some b' → b' = b;
  k_released u b : cbound s u = Some b → cbound s' u = None → ∃ a, b = aid a ∧ publishes s s' a
}.

Lemma keeps_untouched s s' : untouched (st s) (st s') → keeps s s'.
Proof.
  intros [H1 H2]. split; unfold cslot, cbound; intros; rewrite ?H1, ?H2 in *; auto; congruence.
Qed.

Lemma server_keeps_refl s : keeps s s.
Proof. by apply keeps_untouched. Qed.

Definition anywhere (s : Server S) : Prop := True.

(** A calm program keeps everything, and what was known before it. *)
Lemma calm_safe {E A} (m : P E A) (Q : result E A → Prop) K :
  stable anywhere keeps K → calm st m Q → safe anywhere keeps m K (λ r K', Q r ∧ K' = K).
Proof.
  intros HK. induction m as [r| |X f k IH]; cbn; [done..|]. intros Hm s _ Hs.
  destruct (Hm s) as [Hu Hk]. pose proof (keeps_untouched _ _ Hu) as Hkeep.
  split; [done|]. split; [done|]. exists K. split_and!; [done|by apply (HK s)|]. by apply IH.
Qed.

Lemma stable_true : stable anywhere keeps (λ _, True).
Proof. done. Qed.

(** What is known once the recovery pointer of [a] was read. *)
Definition recovery_is (a : AccountId) (ref : BlobRef) (s : Server S) : Prop :=
  cslot s a Recovery = Ok (Some ref).

Lemma stable_recovery a ref : stable anywhere keeps (recovery_is a ref).
Proof. intros s s' _ _ Hs Hk. by apply (k_recovery _ _ Hk). Qed.

(** The result of a program that learns nothing new. *)
Definition settled {E A} (r : result E A) (K : Server S → Prop) : Prop := stable anywhere keeps K.

Lemma calm_settled {E A} (m : P E A) Q K :
  stable anywhere keeps K → calm st m Q → safe anywhere keeps m K (λ r K', Q r ∧ settled r K').
Proof.
  intros HK Hm. eapply safe_weaken; [by apply calm_safe|]. by intros r K' [HQ ->].
Qed.

(** Reading a pointer. *)
Lemma read_pointer a k (s : S) : untouched s (snd (blob_ref a k s)).
Proof.
  pose proof (ptr_other (GetBlobRef a k) s eq_refl) as Hop. cbn [perform] in Hop.
  by rewrite map_reply_snd in Hop.
Qed.

Lemma stable_and K K' :
  stable anywhere keeps K → stable anywhere keeps K' → stable anywhere keeps (λ s, K s ∧ K' s).
Proof. intros H1 H2 s s' Hs Hs' [HK HK'] Hk. split; [by apply (H1 s)|by apply (H2 s)]. Qed.

(** What loading the recovery blob establishes. *)
Definition recovery_known (a : AccountId) {E} (r : result E (option (BlobRef * bytes)))
    (K : Server S → Prop) : Prop :=
  stable anywhere keeps K ∧
  match r with
  | Ok (Some (ref, content)) => denotes ref content = true ∧ ∀ s, K s → recovery_is a ref s
  | _ => True
  end.

(** One call of the store that leaves the pointers alone, with what its result
    tells about them. *)
Lemma store_read_safe {B} a (k : AccountBlobKind) (next : option BlobRef → P RegistryError B)
    K (Q : Res B → (Server S → Prop) → Prop) :
  stable anywhere keeps K →
  (∀ e K, stable anywhere keeps K → Q (Err e) K) →
  (k = Recovery → ∀ ref, safe anywhere keeps (next (Some ref)) (λ s, K s ∧ recovery_is a ref s) Q) →
  (k ≠ Recovery → ∀ o, safe anywhere keeps (next o) K Q) →
  safe anywhere keeps (next None) K Q →
  safe anywhere keeps (let# found := on_store (blob_ref a k) in next found) K Q.
Proof.
  intros HK He Hrec Hother Hnone. unfold on_store, on_service, on_reg, atomic. cbn [zoom bindP safe].
  intros s _ Hs. pose proof (read_pointer a k (st s)) as Hu. unfold st in Hu.
  pose proof (ptr_read a k (store (sv_registry s))) as Hread.
  destruct (blob_ref a k (store (sv_registry s))) as [r d]. cbn [fst snd] in *.
  assert (keeps s (mkServer (mkRegistry d (random (sv_registry s))) (sv_disk s))) as Hkeep
    by by apply keeps_untouched.
  split; [done|]. split; [done|].
  destruct r as [[ref|]|e]; cbn [zoom bindP]; [|exists K; split_and!; [done|by apply (HK s)|done]
    |exists K; split_and!; [done|by apply (HK s)|by apply He]].
  destruct (decide (k = Recovery)) as [->|Hk].
  - exists (λ s, K s ∧ recovery_is a ref s). split; [apply stable_and; [done|apply stable_recovery]|].
    split; [|by apply Hrec]. split; [by apply (HK s)|].
    unfold recovery_is, cslot, st. cbn. rewrite (proj1 Hu). by apply Hread.
  - exists K. split_and!; [done|by apply (HK s)|by apply Hother].
Qed.

Lemma load_recovery_safe fuel a K :
  stable anywhere keeps K →
  safe anywhere keeps (load_current_blob (S := S) state fuel a Recovery) K
    (λ r K', recovery_known a r K').
Proof.
  revert K. induction fuel as [|fuel IH]; intros K HK; [done|]. cbn [load_current_blob].
  apply (store_read_safe a Recovery); try done. intros _ ref.
  set (K1 := λ s, K s ∧ recovery_is a ref s).
  assert (stable anywhere keeps K1) as HK1 by (apply stable_and; [done|apply stable_recovery]).
  eapply safe_bind; [by apply calm_safe, calm_blobs_get| |by intros e K' [_ ->]].
  intros content K' [Hc ->]. destruct content as [content|].
  { split; [done|]. split; [done|]. by intros s [_ ?]. }
  apply (store_read_safe a Recovery); try done; [|by apply IH].
  intros _ again. case_bool_decide; [split; [|done]|].
  - apply stable_and; [done|apply stable_recovery].
  - apply IH, stable_and; [done|apply stable_recovery].
Qed.

(** What a successful check establishes. *)
Definition checked_update (a : AccountId) (next : SignedRecord) (body : bytes)
    (r : result ApiError PublicRecordUpdate) (K : Server S → Prop) : Prop :=
  stable anywhere keeps K ∧
  match r with
  | Ok update =>
      may_replace (up_expected update) body next ∧
      ∃ id, r_wallet (sg_record next) = Identity.wallet_public id ∧ ∀ s, K s → identity_of s a id
  | Err _ => True
  end.

Lemma not_stale (f g : u64 * u64 * u64) (b : bool) :
  freshness_ltb f g || (freshness_eqb f g && b) = false →
  freshness_ltb g f = true ∨ b = false.
Proof.
  intros [Hlt Heq]%orb_false_iff. unfold freshness_eqb in Heq.
  destruct (decide (f = g)) as [->|Hne].
  { right. by rewrite bool_decide_true in Heq. }
  left. destruct f as [[f1 f2] f3], g as [[g1 g2] g3]. unfold freshness_ltb, ultb in *.
  destruct (N.ltb_spec (u_val f1) (u_val g1)), (N.ltb_spec (u_val g1) (u_val f1)); try done; try lia.
  destruct (N.ltb_spec (u_val f2) (u_val g2)), (N.ltb_spec (u_val g2) (u_val f2)); try done; try lia.
  apply N.ltb_ge in Hlt. apply N.ltb_lt. destruct (N.eq_dec (u_val f3) (u_val g3)) as [E|]; [|lia].
  destruct Hne. assert (u_val f1 = u_val g1) by lia. assert (u_val f2 = u_val g2) by lia.
  by repeat f_equal; apply uint_eq.
Qed.

Lemma enforce_safe fuel a next body K :
  stable anywhere keeps K →
  safe anywhere keeps (enforce_public_record_update (S := S) state fuel a next body) K
    (checked_update a next body).
Proof.
  intros HK. unfold enforce_public_record_update.
  eapply safe_bind with (Q := λ r K', recovery_known a r K'); [| |by intros e K' [? _]].
  { eapply safe_catch; [by apply load_recovery_safe|]. by intros [[[]|]|e] K' [? ?]. }
  intros [[ref sealed]|] K' [HK' Hrec]; [|done]. destruct Hrec as [Hden Hrec].
  cbn [ok_or bindP api map_errP catchP].
  destruct (cipher_open (recovery_cipher state) a sealed) as [secret|e] eqn:Hopen; [|done].
  cbn [map_err bindP]. destruct (arr_try secret) as [ws|] eqn:Hws; [|done]. cbn [ok_or bindP].
  destruct (Identity.from_wallet_secret ws _) as [id|e] eqn:Hid; [|done]. cbn [map_err bindP].
  case_bool_decide as Hwallet; cbn [negb]; [|done].
  assert (∀ s, K' s → identity_of s a id) as Hident.
  { intros s Hs. exists ref, sealed, secret, ws. split_and!; try done. by apply Hrec. }
  eapply safe_bind; [by apply calm_safe, calm_api_load| |by intros e K2 [_ ->]].
  intros found K2 [Hload ->]. destruct found as [[cref cbytes]|]; [|by repeat split; try exists id].
  destruct (wire.decode cbytes) as [old|e] eqn:Hdec; cbn -[freshness freshness_ltb verify]; [|done].
  destruct (is_err (verify old)) eqn:Hv; [split; [done|]; split; [|by exists id]|].
  { exists cbytes, old. by auto. }
  case_bool_decide as Hu; cbn [negb]; [|done].
  destruct (_ || _) eqn:Hstale; [done|]. split; [done|]. split; [|by exists id].
  exists cbytes, old. split_and!; [done|done|]. right. split; [done|].
  apply not_stale in Hstale as [?|Hb]; [by left|right].
  by apply negb_false_iff, bool_decide_eq_true in Hb.
Qed.

(** The step that publishes. *)
Lemma keeps_published s s' a u p blob :
  slot_set (st s) (st s') a PublicRecord blob → rebound (st s) (st s') a u p →
  publishes s s' a → keeps s s'.
Proof.
  intros [_ Hrest] (Hfree & Hnew & Hother) Hpub. split; unfold cslot, cbound.
  - intros a' ref Hr. by rewrite Hrest.
  - intros a'. destruct (decide (a' = a)) as [->|Hne]; [by right|left].
    apply Hrest. congruence.
  - intros u' b b' Hb Hb'. destruct (decide (u' = u)) as [->|Hne].
    + apply Hfree in Hb. congruence.
    + destruct (Hother _ Hne) as [E|(_ & _ & E)]; congruence.
  - intros u' b Hb Hnone. exists a. split; [|done].
    destruct (decide (u' = u)) as [->|Hne]; [congruence|].
    destruct (Hother _ Hne) as [E|(_ & E & _)]; congruence.
Qed.

Lemma record_loop_safe fuel a next body K :
  stable anywhere keeps K → decode_signed_public_record body = Ok next →
  safe anywhere keeps
    (put_public_record_loop (S := S) state fuel a next body (blob_of PublicRecord body)) K
    (λ _ _, True).
Proof.
  intros HK Hdec. revert K HK. induction fuel as [|fuel IH]; intros K HK; [done|].
  cbn [put_public_record_loop]. eapply safe_catch; [by apply enforce_safe|].
  intros [update|e] K' [HK' Hchecked]; cycle 1.
  { eapply safe_weaken; [eapply calm_safe with (Q := λ _, True); [done|]|done].
    by eapply calm_catch; [apply calm_blobs_remove|]. }
  destruct Hchecked as (Hmay & id & Hwallet & Hid).
  unfold on_store, on_service, on_reg, atomic, api, map_errP. cbn [zoom bindP catchP safe].
  intros s _ Hs.
  pose proof (ptr_record a (r_user_id (sg_record next)) (previous_user_id update) (up_expected update)
    (blob_of PublicRecord body) (store (sv_registry s))) as Hswap.
  destruct (compare_and_swap_public_record_ref _ _ _ _ _ _) as [r d] eqn:Er. cbn [fst snd] in *.
  destruct Hswap as [(-> & Hcur & [Hset Hrest] & Hb)|[Hu Hr]].
  - assert (keeps s (mkServer (mkRegistry d (random (sv_registry s))) (sv_disk s))) as Hkeep.
    { eapply keeps_published; [by split|exact Hb|]. exists (up_expected update), body, next, id.
      split_and!; try done; [by apply Hid|apply Hb]. }
    split; [done|]. split; [done|]. exists K'. split; [done|]. split; [by apply (HK' s)|].
    cbn. eapply safe_weaken; [apply calm_safe with (Q := λ _, True); [done|]|done].
    by apply calm_seq; [apply calm_remove_replaced|intros _|].
  - assert (keeps s (mkServer (mkRegistry d (random (sv_registry s))) (sv_disk s))) as Hkeep
      by by apply keeps_untouched.
    split; [done|]. split; [done|]. exists K'. split; [done|]. split; [by apply (HK' s)|].
    destruct Hr as [[err ->]|(c & -> & _)]; cbn; [done|]. by apply IH.
Qed.

(** A swap of a slot that is not the public record, and not a recovery slot that
    is filled. *)
Lemma keeps_swapped s s' a k e blob :
  slot (st s) a k = Ok e → slot_set (st s) (st s') a k blob →
  (∀ u, bound_to (st s') u = bound_to (st s) u) → k = Backup ∨ (k = Recovery ∧ e = None) → keeps s s'.
Proof.
  intros He [_ Hrest] Hb Hk. split; unfold cslot, cbound.
  - intros a' ref Hr. destruct (decide ((a', Recovery) = (a, k))) as [[= -> <-]|Hne]; [|by rewrite Hrest].
    destruct Hk as [|[_ ->]]; congruence.
  - intros a'. left. apply Hrest. destruct Hk as [->|[-> _]]; congruence.
  - intros u b b'. rewrite Hb. congruence.
  - intros u b. rewrite Hb. congruence.
Qed.

Lemma swap_safe {B} a k e blob (next : BlobSwap → P ApiError B) K Q :
  stable anywhere keeps K → k = Backup ∨ (k = Recovery ∧ e = None) →
  (∀ swap, safe anywhere keeps (next swap) K Q) → (∀ err, Q (Err err) K) →
  safe anywhere keeps
    (let# swap := api (on_store (compare_and_swap_blob_ref a k e blob)) in next swap) K Q.
Proof.
  intros HK Hk Hnext He.
  unfold on_store, on_service, on_reg, atomic, api, map_errP. cbn [zoom bindP catchP safe].
  intros s _ Hs. pose proof (ptr_swap a k e blob (store (sv_registry s))) as Hswap.
  destruct (compare_and_swap_blob_ref _ _ _ _ _) as [r d] eqn:Er. cbn [fst snd] in *.
  assert (keeps s (mkServer (mkRegistry d (random (sv_registry s))) (sv_disk s))) as Hkeep.
  { destruct Hswap as [(_ & Hcur & Hset & Hb)|[Hu _]]; [|by apply keeps_untouched].
    by eapply keeps_swapped. }
  split; [done|]. split; [done|]. exists K. split; [done|]. split; [by apply (HK s)|].
  destruct r as [swap|err]; cbn; [apply Hnext|apply He].
Qed.

Lemma backup_loop_safe fuel a blob e K :
  stable anywhere keeps K →
  safe anywhere keeps (put_backup_loop (S := S) state fuel a blob e) K (λ _ K', stable anywhere keeps K').
Proof.
  intros HK. revert e. induction fuel as [|fuel IH]; intros e; [done|]. cbn [put_backup_loop].
  apply swap_safe; [done|by left| |done]. intros [previous|current]; [|apply IH].
  eapply safe_weaken; [apply calm_safe with (Q := λ _, True); [done|apply calm_remove_replaced]|].
  by intros r K' [_ ->].
Qed.

Lemma recovery_loop_safe fuel a body blob K :
  stable anywhere keeps K →
  safe anywhere keeps (put_recovery_loop (S := S) state fuel a body blob) K (λ _ _, True).
Proof.
  revert K. induction fuel as [|fuel IH]; intros K HK; [done|]. cbn [put_recovery_loop].
  eapply safe_bind; [apply calm_safe; [done|apply calm_api_load]| |done].
  intros found K' [_ ->]. destruct found as [[ref sealed]|].
  - eapply safe_weaken; [apply calm_safe with (Q := λ _, True); [done|]|done].
    apply calm_seq; [by apply calm_api_any|intros secret|done]. destruct (negb _).
    + by apply calm_seq; [apply calm_api_any, calm_blobs_remove|intros _|].
    + apply calm_seq; [|done|done]. destruct (negb _); [|done].
      apply calm_api_any, calm_blobs_remove.
  - apply swap_safe; [done|by right| |done]. by intros [previous|current]; [|apply IH].
Qed.

(** ** The requests *)
(** [fuel] bounds the retries of its loops. *)
Inductive request (fuel : nat) : P ApiError Response → Prop :=
  | req_email_login now source email : request fuel (http_request_email_login state now source email)
  | req_confirm now source token : request fuel (http_confirm_login now source token)
  | req_put_backup now a headers body : request fuel (put_backup state now fuel a headers body)
  | req_get_backup now a headers : request fuel (get_backup state now fuel a headers)
  | req_put_recovery now a headers body : request fuel (put_recovery state now fuel a headers body)
  | req_get_recovery now a headers : request fuel (get_recovery state now fuel a headers)
  | req_put_record now a headers body : request fuel (put_public_record state now fuel a headers body)
  | req_get_record a : request fuel (get_public_record state fuel a)
  | req_get_record_by_user u : request fuel (get_public_record_by_user_id state fuel u)
  | req_purge now limit :
      request fuel (catchP (api_purge_expired now limit) (λ _, okP (OctetStream []))).
Definition any_request (m : P ApiError Response) : Prop := ∃ fuel, request fuel m.

Lemma calm_request {A} (m : P ApiError A) :
  calm st m (λ _, True) → safe anywhere keeps m (λ _, True) (λ _ _, True).
Proof. intros Hm. eapply safe_weaken; [by apply calm_safe|done]. Qed.

(** A calm first part of a handler. *)
Lemma prefix_safe {A B} (m : P ApiError A) (k : A → P ApiError B) (Q : result ApiError A → Prop) :
  calm st m Q → (∀ a, Q (Ok a) → safe anywhere keeps (k a) (λ _, True) (λ _ _, True)) →
  safe anywhere keeps (bindP m k) (λ _, True) (λ _ _, True).
Proof.
  intros Hm Hk. eapply safe_bind; [by apply calm_safe| |done]. intros a K [Ha ->]. by apply Hk.
Qed.

Lemma requests_safe m : any_request m → safe anywhere keeps m (λ _, True) (λ _ _, True).
Proof.
  intros [fuel Hm]. destruct Hm.
  - apply calm_request, calm_request_login.
  - apply calm_request, calm_http_confirm.
  - unfold put_backup. apply prefix_safe with (Q := λ _, True); [done|intros id _].
    apply prefix_safe with (Q := λ _, True); [apply calm_authorize|intros _ _].
    apply prefix_safe with (Q := λ _, True); [done|intros _ _].
    apply prefix_safe with (Q := λ _, True);
      [eapply calm_weaken; [|apply calm_api_any; eapply calm_weaken; [|apply calm_blobs_put]]; done
      |intros blob _].
    apply prefix_safe with (Q := λ _, True);
      [apply calm_api_any; by apply (calm_store (GetBlobRef id Backup) RBlob)|intros expected _].
    eapply safe_bind; [by apply backup_loop_safe|done|done].
  - apply calm_request, calm_get_backup.
  - unfold put_recovery. apply prefix_safe with (Q := λ _, True); [done|intros id _].
    apply prefix_safe with (Q := λ _, True); [apply calm_authorize|intros _ _].
    destruct (negb _); [done|].
    apply prefix_safe with (Q := λ _, True); [done|intros ws _].
    apply prefix_safe with (Q := λ _, True); [done|intros _ _].
    apply prefix_safe with (Q := λ _, True); [|intros sealed _].
    { apply calm_api_any, calm_seq; [apply calm_service, calm_getrandom|done|done]. }
    apply prefix_safe with (Q := λ _, True);
      [eapply calm_weaken; [|apply calm_api_any; eapply calm_weaken; [|apply calm_blobs_put]]; done
      |intros blob _].
    by apply recovery_loop_safe.
  - apply calm_request, calm_get_recovery.
  - unfold put_public_record. apply prefix_safe with (Q := λ _, True); [done|intros id _].
    apply prefix_safe with (Q := λ _, True); [apply calm_authorize|intros _ _].
    apply prefix_safe with (Q := λ _, True); [done|intros _ _].
    apply prefix_safe with (Q := λ r, r = decode_signed_public_record body); [done|intros next Hnext].
    apply prefix_safe with (Q := λ r, match r with Ok b => b = blob_of PublicRecord body | _ => True end);
      [by apply calm_api, calm_blobs_put|intros blob ->].
    by apply record_loop_safe.
  - apply calm_request, calm_get_record.
  - apply calm_request, calm_get_record_by_user.
  - apply calm_request. by eapply calm_catch; [apply calm_purge|].
Qed.

(** What was known at one state of a run is known at the last. *)
Lemma guaranteed_known (K : Server S → Prop) s h s1 :
  (∀ s s', K s → keeps s s' → K s') → guaranteed keeps (s :: h) → s1 ∈ s :: h → K s1 → K s.
Proof.
  intros HK. revert s. induction h as [|s2 h IH]; intros s Hg Hin Hs1.
  - by apply list_elem_of_singleton in Hin as ->.
  - inversion Hg as [|? ? ? Hkeep Hrest]; subst.
    apply elem_of_cons in Hin as [->|Hin]; [done|]. apply (HK s2); [by apply IH|done].
Qed.

(** C9: However the requests of any number of clients interleave with each other
    and with the cleanup, each step of the server keeps, for every account: the
    public record is replaced only by a verified record of the account's own
    recovery identity that is newer than the one it replaces, of the same user,
    or by the same bytes; and a user id bound to an account is never bound to
    another by a step, nor released except by a publication of that account.
    The recovery secret stored at any time is the one stored from then on. *)
Theorem requests_keep_authority s0 h pool s :
  steps any_request ([], s0) h (pool, s) →
  guaranteed keeps (s :: h) ∧
  ∀ s1 a ref, s1 ∈ s :: h → cslot s1 a Recovery = Ok (Some ref) → cslot s a Recovery = Ok (Some ref).
Proof.
  intros Hsteps. assert (guaranteed keeps (s :: h)) as Hg.
  { by apply (steps_safe anywhere keeps any_request server_keeps_refl requests_safe s0 h (pool, s)). }
  split; [done|]. intros s1 a ref Hin.
  apply (guaranteed_known (recovery_is a ref) s h s1); [|done|done].
  intros s2 s3 H2 Hk. by apply (k_recovery _ _ Hk).
Qed.
End Safety.
