(* ===== verification/RegistryAnswers.v ===== *)
(** * RegistryAnswers: a request served alone answers, and what it answers

    The retry loops of the handlers end at the first attempt when no other
    request runs in between, whatever fails; and a backup or a recovery secret
    that was stored is what is read back. *)

From S2P Require Import Prelude Std Interleave Crypto Wire Identity UserId Records Storage FileStore Registry RegistrySpec RegistryProps RegistryPointers RegistryApi RegistryApiProps.

Section Answers.
Context {crypto : Crypto}.
Context {S : Type} `{!RegistryStore S, !Pointers S, !PointerLaws S}.
Abbreviation P E A := (Prog (Server S) E A).

Lemma calm_wp {E A} (m : P E A) Q s :
  loop_free m → calm st m Q → wp m s (λ r s', Q r ∧ untouched (st s) (st s')).
Proof.
  intros Hl Hc. revert s. induction m as [r| |X f k IH]; intros s; cbn in *; [by split|done|].
  unfold wp. cbn [run]. destruct (Hc s) as [Hu Hk]. destruct (f s) as [x s']. cbn in *.
  eapply wp_weaken; [by apply IH|]. intros r s2 [HQ [U1 U2]]. split; [done|].
  destruct Hu as [V1 V2]. split; intros; [by rewrite U1|by rewrite U2].
Qed.

Lemma untouched_trans (a b c : S) : untouched a b → untouched b c → untouched a c.
Proof. intros [A1 A2] [B1 B2]. split; intros; [by rewrite B1|by rewrite B2]. Qed.

(** ** The parts without a loop *)
Lemma fs_loop_free {A} message (m : M Host A) : loop_free (fs (S := S) message m).
Proof. done. Qed.

Lemma on_store_loop_free {A} (m : R S A) : loop_free (on_store m).
Proof. done. Qed.

Lemma getrandom_loop_free n : loop_free (reg_getrandom n : Prog (Registry S) RegistryError (arr n)).
Proof. done. Qed.

Lemma api_loop_free {A} (m : P RegistryError A) : loop_free m → loop_free (api m).
Proof. intros Hm. by apply loop_free_catch. Qed.

Context (state : AppState).
Context `{!XChaCha, !Postcard SignedRecord, !Postcard IdentityClaim,
  !Postcard (WalletPublicKey * DeviceRecord), !Postcard ReachabilityRecord}.

(** Straight-line code: every step is an action or a branch. *)
Ltac straight :=
  repeat first
    [ exact I | progress intros | apply getrandom_loop_free | apply atomic_loop_free | apply loop_free_bind | apply api_loop_free | apply loop_free_catch
    | apply loop_free_zoom | apply fs_loop_free | apply on_store_loop_free
    | match goal with
      | |- loop_free (match ?x with _ => _ end) => destruct x
      end ].

Lemma blobs_put_loop_free self a k content : loop_free (blobs_put (S := S) self a k content).
Proof. unfold blobs_put, write_blob, commit_blob, sync_directory, random_hex_8, on_service. cbv zeta. straight. Qed.
Lemma blobs_get_loop_free self a blob : loop_free (blobs_get (S := S) self a blob).
Proof. unfold blobs_get. straight. Qed.
Lemma blobs_remove_loop_free self a blob : loop_free (blobs_remove (S := S) self a blob).
Proof. unfold blobs_remove, sync_directory. straight. Qed.
Lemma remove_replaced_loop_free a p c : loop_free (remove_replaced_blob (S := S) state a p c).
Proof.
  unfold remove_replaced_blob. destruct p as [p|]; [|done]. case_bool_decide; [done|].
  apply loop_free_catch; [apply blobs_remove_loop_free|done].
Qed.
Lemma authorize_loop_free now headers a : loop_free (authorize (S := S) now headers a).
Proof. unfold authorize, on_service, account_for_session, on_reg. straight. Qed.

(** ** The loops *)

(** A pointer read alone is the pointer. *)
Lemma read_wp a k (s : Server S) :
  wp (on_store (blob_ref a k)) s
    (λ r s', untouched (st s) (st s') ∧ match r with Ok o => slot (st s) a k = Ok o | Err _ => True end).
Proof.
  unfold wp, on_store, on_service, on_reg, atomic. cbn [zoom run].
  pose proof (read_pointer a k (st s)) as Hu. pose proof (ptr_read a k (st s)) as Hr. unfold st in *.
  destruct (blob_ref a k (store (sv_registry s))) as [[o|e] d]; cbn in *; auto.
Qed.

Lemma load_wp fuel a k (s : Server S) :
  wp (load_current_blob (S := S) state (Datatypes.S fuel) a k) s
    (λ r s', untouched (st s) (st s') ∧
      match r with
      | Ok None => slot (st s) a k = Ok None
      | Ok (Some (blob, content)) => slot (st s) a k = Ok (Some blob) ∧ denotes blob content = true
      | Err _ => True
      end).
Proof.
  cbn [load_current_blob]. apply wp_bind. eapply wp_weaken; [apply read_wp|].
  intros [[blob|]|e] s1 [Hu Hslot]; [|by split|by split].
  apply wp_bind. eapply wp_weaken; [apply calm_wp; [apply blobs_get_loop_free|apply calm_blobs_get]|].
  intros [[content|]|e] s2 [Hget Hu2]; [by split; [eapply untouched_trans|]| |by split; [eapply untouched_trans|]].
  pose proof (untouched_trans _ _ _ Hu Hu2) as Hu12.
  apply wp_bind. eapply wp_weaken; [apply read_wp|].
  intros [again|e] s3 [Hu3 Hagain]; [|by split; [eapply untouched_trans|]].
  rewrite (proj1 Hu12), Hslot in Hagain. injection Hagain as <-.
  rewrite bool_decide_true by done. by split; [eapply untouched_trans|].
Qed.

Lemma api_wp {A} (m : P RegistryError A) s Q :
  wp m s (λ r s', Q (map_err from_registry r) s') → wp (api m) s Q.
Proof. intros Hm. by apply wp_catch. Qed.

(** A swap alone, from the pointer it expects, is not refused. *)
Lemma swap_wp a k e blob (s : Server S) :
  slot (st s) a k = Ok e →
  wp (on_store (compare_and_swap_blob_ref a k e blob)) s
    (λ r s', r = Ok (Applied e) ∧ slot (st s') a k = Ok (Some blob) ∨ ∃ err, r = Err err).
Proof.
  intros He. unfold wp, on_store, on_service, on_reg, atomic. cbn [zoom run].
  pose proof (ptr_swap a k e blob (st s)) as Hs. unfold st in *.
  destruct (compare_and_swap_blob_ref a k e blob (store (sv_registry s))) as [r d]. cbn in *.
  destruct Hs as [(-> & _ & [Hset _] & _)|[_ [[err ->]|(c & -> & Hc & Hne)]]]; [by left|by right; exists err|].
  congruence.
Qed.

Definition answers {E A} (m : P E A) (s : Server S) : Prop := wp m s (λ _ _, True).

Lemma calm_answers {E A} (m : P E A) Q s : loop_free m → calm st m Q → answers m s.
Proof. intros Hl Hc. eapply wp_weaken; [by apply calm_wp|done]. Qed.

Lemma free_answers {E A} (m : P E A) s : loop_free m → answers m s.
Proof.
  unfold answers, wp. revert s. induction m as [r| |X f k IH]; intros s Hm; cbn in *; [done|done|].
  destruct (f s) as [x s']. by apply IH.
Qed.

Lemma bind_answers {E A B} (m : P E A) (k : A → P E B) s :
  answers m s → (∀ a s', answers (k a) s') → answers (bindP m k) s.
Proof.
  intros Hm Hk. apply wp_bind. eapply wp_weaken; [exact Hm|]. intros [a|e] s' _; [apply Hk|done].
Qed.

Lemma load_answers fuel a k s :
  answers (api (load_current_blob (S := S) state (Datatypes.S fuel) a k)) s.
Proof. apply api_wp. eapply wp_weaken; [apply load_wp|done]. Qed.

Lemma backup_loop_answers fuel a blob e s :
  slot (st s) a Backup = Ok e →
  answers (put_backup_loop (S := S) state (Datatypes.S fuel) a blob e) s.
Proof.
  intros He. cbn [put_backup_loop]. apply wp_bind, api_wp. eapply wp_weaken; [by apply swap_wp|].
  intros r s' [[-> _]|[err ->]]; [|done]. cbn. apply free_answers, remove_replaced_loop_free.
Qed.

Lemma recovery_loop_answers fuel a body blob s :
  answers (put_recovery_loop (S := S) state (Datatypes.S fuel) a body blob) s.
Proof.
  cbn [put_recovery_loop]. apply wp_bind, api_wp. eapply wp_weaken; [apply load_wp|].
  intros [[[ref sealed]|]|e] s1 [Hu Hslot]; [| |done]; cbn beta iota.
  - apply free_answers. apply loop_free_bind; [by apply api_loop_free|]. intros secret.
    destruct (negb _).
    + apply loop_free_bind; [apply api_loop_free, blobs_remove_loop_free|done].
    + apply loop_free_bind; [|done]. destruct (negb _); [|done].
      apply api_loop_free, blobs_remove_loop_free.
  - apply wp_bind, api_wp. eapply wp_weaken; [apply swap_wp; by rewrite (proj1 Hu)|].
    by intros r s' [[-> _]|[err ->]].
Qed.

(** A check alone answers with the pointer it has read. *)
Lemma enforce_wp fuel a next body (s : Server S) :
  wp (enforce_public_record_update (S := S) state (Datatypes.S fuel) a next body) s
    (λ r s', untouched (st s) (st s') ∧
      match r with Ok update => slot (st s) a PublicRecord = Ok (up_expected update) | Err _ => True end).
Proof.
  unfold enforce_public_record_update. apply wp_bind, api_wp. eapply wp_weaken; [apply load_wp|].
  intros [[[ref sealed]|]|e] s1 [Hu _]; [|by split|by split].
  cbn [map_err ok_or bindP api map_errP catchP].
  destruct (cipher_open (recovery_cipher state) a sealed) as [secret|e]; [|by split]. cbn [map_err bindP].
  destruct (arr_try secret) as [ws|]; [|by split]. cbn [ok_or bindP].
  destruct (Identity.from_wallet_secret ws _) as [id|e]; [|by split]. cbn [map_err bindP].
  destruct (negb _); [by split|]. apply wp_bind, api_wp. eapply wp_weaken; [apply load_wp|].
  intros r s2 [Hu2 Hslot]. pose proof (untouched_trans _ _ _ Hu Hu2) as Hu12.
  rewrite (proj1 Hu) in Hslot. destruct r as [[[cref cbytes]|]|e]; [|by split|by split].
  destruct Hslot as [Hslot _]. cbn [map_err bindP].
  destruct (wire.decode (T := SignedRecord) cbytes) as [old|e]; cbn [map_err bindP]; [|by split].
  destruct (is_err _); [by split|]. destruct (negb _); [by split|]. by destruct (_ || _).
Qed.

Lemma record_swap_wp a u p e blob (s : Server S) :
  slot (st s) a PublicRecord = Ok e →
  wp (on_store (compare_and_swap_public_record_ref a u p e blob)) s
    (λ r s', r = Ok (Applied e) ∨ ∃ err, r = Err err).
Proof.
  intros He. unfold wp, on_store, on_service, on_reg, atomic. cbn [zoom run].
  pose proof (ptr_record a u p e blob (st s)) as Hs. unfold st in *.
  destruct (compare_and_swap_public_record_ref _ _ _ _ _ _) as [r d]. cbn in *.
  destruct Hs as [(-> & _)|[_ [[err ->]|(c & -> & Hc & Hne)]]]; [by left|by right; exists err|].
  congruence.
Qed.

Lemma record_loop_answers fuel a next body blob s :
  answers (put_public_record_loop (S := S) state (Datatypes.S fuel) a next body blob) s.
Proof.
  cbn [put_public_record_loop]. apply wp_catch. eapply wp_weaken; [apply enforce_wp|].
  intros [update|e] s1 [Hu Hslot]; cycle 1.
  { apply free_answers, loop_free_catch; [apply blobs_remove_loop_free|done]. }
  apply wp_bind, api_wp. eapply wp_weaken; [apply record_swap_wp; by rewrite (proj1 Hu)|].
  intros r s' [->|[err ->]]; [|done]. cbn.
  apply free_answers, loop_free_bind; [apply remove_replaced_loop_free|done].
Qed.

Lemma response_answers fuel a s : answers (public_record_response (S := S) state (Datatypes.S fuel) a) s.
Proof.
  apply bind_answers; [apply load_answers|]. intros [[ref content]|] s'; [|done].
  apply free_answers. straight.
Qed.

(** C29: A request that no other interrupts answers: whatever the database, the
    files and the random source do, and whatever it was sent, one pass through
    its retry loops is enough. *)
Theorem requests_answer_alone fuel m (s : Server S) :
  request state (Datatypes.S fuel) m → ∃ r, fst (run m s) = Some r.
Proof.
  intros Hm. assert (answers m s) as Hans.
  2: { unfold answers, wp in Hans. destruct (run m s) as [[r|] s']; [by exists r|done]. }
  destruct Hm as [now' source email|now' source token|now' a headers body|now' a headers
    |now' a headers body|now' a headers|now' a headers body|a|u|now' limit].
  - apply free_answers. unfold http_request_email_login, check_rate_limit, request_email_login,
      random_token, on_service, on_reg. straight.
  - apply free_answers. unfold http_confirm_login, check_rate_limit, confirm_login, create_session,
      AccountId_generate, random_token, on_service, on_reg. straight.
  - apply bind_answers; [done|]. intros id s1.
    apply bind_answers; [apply free_answers, authorize_loop_free|]. intros _ s2.
    apply bind_answers; [done|]. intros _ s3.
    apply bind_answers; [apply free_answers, api_loop_free, blobs_put_loop_free|]. intros blob s4.
    apply wp_bind, api_wp. eapply wp_weaken; [apply read_wp|].
    intros [expected|e] s5 [Hu Hslot]; [|done]. cbn [map_err].
    apply bind_answers; [|done]. apply backup_loop_answers. by rewrite (proj1 Hu).
  - apply bind_answers; [done|]. intros id s1.
    apply bind_answers; [apply free_answers, authorize_loop_free|]. intros _ s2.
    apply bind_answers; [apply load_answers|]. by intros [[]|] s3.
  - apply bind_answers; [done|]. intros id s1.
    apply bind_answers; [apply free_answers, authorize_loop_free|]. intros _ s2.
    destruct (negb _); [done|]. apply bind_answers; [done|]. intros ws s3.
    apply bind_answers; [done|]. intros _ s4.
    apply bind_answers; [apply free_answers; unfold cipher_seal, on_service; straight|]. intros sealed s5.
    apply bind_answers; [apply free_answers, api_loop_free, blobs_put_loop_free|]. intros blob s6.
    apply recovery_loop_answers.
  - apply bind_answers; [done|]. intros id s1.
    apply bind_answers; [apply free_answers, authorize_loop_free|]. intros _ s2.
    apply bind_answers; [apply load_answers|]. intros [[ref sealed]|] s3; [|done].
    apply free_answers. straight.
  - apply bind_answers; [done|]. intros id s1.
    apply bind_answers; [apply free_answers, authorize_loop_free|]. intros _ s2.
    apply bind_answers; [done|]. intros _ s3. apply bind_answers; [done|]. intros next s4.
    apply bind_answers; [apply free_answers, api_loop_free, blobs_put_loop_free|]. intros blob s5.
    apply record_loop_answers.
  - apply bind_answers; [done|]. intros id s1. apply response_answers.
  - apply bind_answers; [done|]. intros id s1.
    apply bind_answers; [apply free_answers, api_loop_free, on_store_loop_free|]. intros [a|] s2; [|done].
    apply response_answers.
  - apply free_answers, loop_free_catch; [apply on_store_loop_free|done].
Qed.
End Answers.
