(* ===== verification/RegistryRecover.v ===== *)
(** * RegistryRecover: a stored recovery secret comes back

    On a working disk and database, the secret an account stores is the one its
    session reads back. *)

From stdpp Require Import functions.
From S2P Require Import Prelude Std Interleave Crypto Wire Identity UserId Records Storage FileStore Registry RegistrySpec RegistryProps RegistryPointers RegistryApi RegistryApiProps RegistryAnswers.

(** ** The cipher *)
Section Cipher.
Context `{!XChaCha, !XChaChaLaws}.

Lemma strip_app prefix s : strip prefix (prefix ++ s) = Some s.
Proof. by apply strip_Some. Qed.

Lemma cipher_open_sealed self a nonce plaintext sealed :
  sealed_under self a nonce plaintext = Ok sealed → cipher_open self a sealed = Ok plaintext.
Proof.
  unfold sealed_under, cipher_open. destruct (xc_encrypt _ _ _ _) as [ct|] eqn:Hct; [|done].
  cbn [ok_or bind_result]. intros Hs. apply (f_equal ok_opt) in Hs. cbn [ok_opt] in Hs. apply (inj Some) in Hs as <-. rewrite strip_app. cbn [ok_or bind_result].
  pose proof (xc_tagged _ _ _ _ _ Hct) as Hne. unfold NONCE_LEN.
  rewrite length_app, arr_length. destruct (Nat.leb_spec (24 + length ct) 24) as [Hle|_].
  { destruct ct; [done|]. cbn in Hle. lia. }
  rewrite take_app_length', drop_app_length' by (by rewrite arr_length).
  by rewrite (xc_correct _ _ _ _ _ Hct).
Qed.
End Cipher.

(** ** A disk on which every call succeeds *)
Definition working (files : Mem) (lk : Lock) : Host := mkHost files lk (λ _, false) true [].

Section Disk.
Context {crypto : Crypto}.
Context {S : Type} `{!RegistryStore S}.

(** The temporary file of the next write. *)
Definition next_suffix (r : Registry S) : str :=
  match random r with Some b :: _ => hex (arr_fit 8 b) | _ => hex (arr_fit 8 []) end.
Definition next_tmp (stem : bytes) (r : Registry S) : bytes := stem ++ b#".tmp-" ++ next_suffix r.

Lemma run_commit_blob tmp stem content blob (r : Registry S) files lk :
  files !! tmp = None → tmp ≠ data_file stem →
  ∃ files', run (commit_blob tmp stem content blob) (mkServer r (working files lk)) =
    (Some (Ok blob), mkServer r (working files' lk)) ∧ files' !! data_file stem = Some content.
Proof.
  intros Htmp Hne. exists (<[data_file stem := content]> (delete tmp (<[tmp := content]> (<[tmp := []]> files)))).
  split; [|apply lookup_insert_eq].
  unfold commit_blob, fs, atomic, create_new, exists_. cbn -[data_file sync_directory rename].
  rewrite Htmp. cbn -[data_file sync_directory rename]. unfold rename at 1. cbn -[data_file sync_directory].
  rewrite lookup_insert_eq. cbn -[data_file]. done.
Qed.

Lemma run_write_blob stem content blob (r : Registry S) files lk :
  files !! next_tmp stem r = None → head (random r) ≠ Some None →
  ∃ files' r', run (write_blob stem content blob) (mkServer r (working files lk)) =
    (Some (Ok blob), mkServer r' (working files' lk)) ∧
    store r' = store r ∧ files' !! data_file stem = Some content.
Proof.
  intros Htmp Hr. unfold write_blob. rewrite run_bind.
  assert (∃ r', run (random_hex_8 (S := S)) (mkServer r (working files lk)) =
    (Some (Ok (next_suffix r)), mkServer r' (working files lk)) ∧ store r' = store r) as (r' & -> & Hst).
  { unfold random_hex_8, next_suffix. cbn. destruct r as [d [|[b|] rest]]; cbn in *; [|eauto..].
    - by eexists.
    - by destruct Hr. }
  destruct (run_commit_blob (next_tmp stem r) stem content blob r' files lk Htmp) as (files' & Hrun & Hf).
  { unfold next_tmp, data_file. intros E%app_inv_head. discriminate E. }
  exists files', r'. unfold next_tmp in Hrun. by rewrite Hrun.
Qed.

Lemma run_blobs_put self a k content stem (r : Registry S) files lk :
  blob_stem self a (bl_id (blob_of k content)) = Ok stem →
  files !! data_file stem = None → files !! next_tmp stem r = None → head (random r) ≠ Some None →
  ∃ files' r', run (blobs_put self a k content) (mkServer r (working files lk)) =
    (Some (Ok (blob_of k content)), mkServer r' (working files' lk)) ∧
    store r' = store r ∧ files' !! data_file stem = Some content.
Proof.
  intros Hstem Hdata Htmp Hrandom. unfold blobs_put. cbv zeta. rewrite Hstem. cbn [bindP].
  unfold fs, atomic, readM, create_dir_all, restrict_dir, fs_read. cbn -[write_blob data_file].
  rewrite Hdata. cbn -[write_blob data_file]. by apply run_write_blob.
Qed.

Lemma run_blobs_get self a blob stem content (r : Registry S) files lk :
  blob_stem self a (bl_id blob) = Ok stem → files !! data_file stem = Some content →
  denotes blob content = true →
  run (blobs_get self a blob) (mkServer r (working files lk)) =
  (Some (Ok (Some content)), mkServer r (working files lk)).
Proof.
  intros Hstem Hdata Hden. unfold blobs_get. rewrite Hstem. cbn [bindP].
  unfold fs, atomic, readM, fs_read. cbn -[data_file denotes]. rewrite Hdata. cbn -[data_file denotes].
  by rewrite Hden.
Qed.
End Disk.

(** ** A store on which no call fails *)
Class Reliable (S : Type) `{!RegistryStore S, !Pointers S} : Type := {
  reliable : S → Prop;
  rel_read a k (s : S) o : reliable s → slot s a k = Ok o → blob_ref a k s = (Ok o, s);
  rel_swap a k e n (s : S) : reliable s → slot s a k = Ok e →
    ∃ s', compare_and_swap_blob_ref a k e n s = (Ok (Applied e), s') ∧ reliable s' ∧
      slot s' a k = Ok (Some n)
}.

#[export] Instance redb_reliable {D} `{!Redb D, !RedbLaws D}
    `{!Json LoginToken, !Json Account, !Json LoginIdentity, !Json BlobRef, !Json Session,
      !Json RateLimitBucket} `{!JsonTotal BlobRef} : Reliable (RedbRegistryStore D).
Proof.
  refine {| reliable s := rs_faults s = [] |}.
  - intros a k [d f] o Hf Ho. cbn in Hf, Ho. subst f. cbn -[decode_opt]. unfold redb_blob_ref, begin_read.
    cbn -[decode_opt]. by rewrite Ho.
  - intros a k e n [d f] Hf He. cbn in Hf, He. subst f. cbn -[decode_opt].
    unfold redb_compare_and_swap_blob_ref. cbn -[decode_opt blob_key]. rewrite He.
    rewrite bool_decide_true by done. destruct (encode_ok n) as (b & -> & Hb). cbn -[decode_opt blob_key].
    eexists. split_and!; [done|done|]. cbn -[decode_opt blob_key].
    rewrite (decode_insert _ _ _ _ _ _ Hb). by rewrite decide_True.
Defined.

Section RoundTrip.
Context {crypto : Crypto}.
Context {S : Type} `{!RegistryStore S, !Pointers S, !Reliable S}.
Context (state : AppState).
Context `{!XChaCha, !XChaChaLaws, !Postcard SignedRecord, !Postcard IdentityClaim,
  !Postcard (WalletPublicKey * DeviceRecord), !Postcard ReachabilityRecord}.

(** The request carries a token that opens the account. *)
Definition authorized (now : i64) (headers : HeaderMap) (a : AccountId) (s : Server S) : Prop :=
  run (authorize now headers a) s = (Some (Ok tt), s).

Lemma run_read a k o (s : Server S) :
  reliable (st s) → slot (st s) a k = Ok o →
  run (on_store (blob_ref a k)) s = (Some (Ok o), s).
Proof.
  intros Hr Ho. unfold on_store, on_service, on_reg, atomic. cbn [zoom run]. unfold st in *.
  rewrite (rel_read _ _ _ _ Hr Ho). by destruct s as [[]].
Qed.

Lemma run_load fuel a k blob stem content (r : Registry S) files lk :
  reliable (store r) → slot (store r) a k = Ok (Some blob) →
  blob_stem (blobs state) a (bl_id blob) = Ok stem → files !! data_file stem = Some content →
  denotes blob content = true →
  run (load_current_blob state (Datatypes.S fuel) a k) (mkServer r (working files lk)) =
  (Some (Ok (Some (blob, content))), mkServer r (working files lk)).
Proof.
  intros Hr Hs Hstem Hf Hd. cbn [load_current_blob]. rewrite run_bind, (run_read a k (Some blob)) by done.
  by rewrite run_bind, (run_blobs_get _ _ _ _ _ _ _ _ Hstem Hf Hd).
Qed.

Lemma run_load_none fuel a k (s : Server S) :
  reliable (st s) → slot (st s) a k = Ok None →
  run (load_current_blob state (Datatypes.S fuel) a k) s = (Some (Ok None), s).
Proof. intros Hr Hs. cbn [load_current_blob]. by rewrite run_bind, (run_read a k None). Qed.

Lemma run_api {A} (m : Prog (Server S) RegistryError A) s :
  run (api m) s = (match fst (run m s) with Some r => Some (map_err from_registry r) | None => None end,
    snd (run m s)).
Proof. unfold api, map_errP. rewrite run_catch. by destruct (run m s) as [[r|] s']. Qed.

Lemma denotes_blob_of k content : (N.of_nat (length content) < 2 ^ 64)%N → denotes (blob_of k content) content = true.
Proof.
  intros Hlen. unfold denotes, blob_of. cbn [bl_size bl_sha256].
  rewrite u_val_uwrap_small, N.eqb_refl by done. by rewrite bool_decide_true.
Qed.

(** The files of a blob: its place, and the place it is written at first. *)
Definition stem_of (a : AccountId) (blob : BlobRef) : bytes := account_dir (blobs state) a ++ b#"/" ++ bl_id blob.

Lemma lower_hex_blob_char c : UserId.is_lower_hex c = true → blob_id_char c = true.
Proof. destruct c as [[] [] [] [] [] [] [] []]; vm_compute; intros Hc; try discriminate Hc; done. Qed.

Lemma blob_stem_of a k content :
  blob_stem (blobs state) a (bl_id (blob_of k content)) = Ok (stem_of a (blob_of k content)).
Proof.
  unfold blob_stem. assert (forallb blob_id_char (bl_id (blob_of k content)) = true) as ->; [|done].
  cbn [bl_id blob_of]. rewrite !forallb_app. apply andb_true_iff. split; [by destruct k|].
  apply andb_true_iff. split; [done|]. pose proof (UserId.hex_lower (sha256 content)) as Hh.
  unfold sha256_hex. rewrite forallb_forall in Hh |- *. intros c Hc. apply lower_hex_blob_char; auto.
Qed.

(** What the random source gives the sealing, and what it leaves. *)
Definition sealing (r : Registry S) : option (arr 24 * Registry S) :=
  match random r with
  | None :: _ => None
  | Some b :: rest => Some (arr_fit 24 b, mkRegistry (store r) rest)
  | [] => Some (arr_fit 24 [], r)
  end.

Lemma run_seal a body nonce sealed (r r1 : Registry S) h :
  sealing r = Some (nonce, r1) → sealed_under (recovery_cipher state) a nonce body = Ok sealed →
  run (cipher_seal state a body) (mkServer r h) = (Some (Ok sealed), mkServer r1 h) ∧ store r1 = store r.
Proof.
  unfold cipher_seal, on_service, reg_getrandom, atomic, sealing, NONCE_LEN. cbn [zoom bindP run sv_registry].
  destruct (random r) as [|[b|] rest]; intros Hs Hseal; try discriminate Hs; injection Hs as <- <-;
    cbn [bindP run]; by rewrite Hseal.
Qed.

End RoundTrip.
