(* ===== verification/RegistryApiWitness.v ===== *)
(** * RegistryApiWitness: the handlers' theorems at concrete inputs

    Two clients of one account storing its recovery secret and its record at the
    same time. *)

From stdpp Require Import functions.
From S2P Require Import Prelude Std Interleave Crypto Wire Identity UserId Records Instances Codecs Storage FileStore Registry RegistrySpec RegistryProps RegistryRuns RegistryAuth RegistryWitness RegistryPointers RegistryApi RegistryApiProps RegistryAnswers RegistryRecover.

(** ** The server *)
Definition toy_xtag (key nonce msg aad : bytes) : bytes := toy_hash 16 (key ++ nonce ++ msg ++ aad).
Lemma length_toy_xtag key nonce msg aad : length (toy_xtag key nonce msg aad) = 16%nat.
Proof. apply arr_length. Qed.

#[export] Instance ToyXChaCha : XChaCha := {|
  xc_encrypt key nonce msg aad := Some (toy_xtag key nonce msg aad ++ msg);
  xc_decrypt key nonce ct aad :=
    let msg := drop 16 ct in
    if bool_decide (take 16 ct = toy_xtag key nonce msg aad) then Some msg else None
|}.

#[export] Instance ToyXChaChaLaws : XChaChaLaws.
Proof.
  split.
  - intros key nonce msg aad ct. cbn -[toy_xtag]. intros [= <-].
    rewrite drop_app_length' by (by rewrite length_toy_xtag).
    rewrite take_app_length' by (by rewrite length_toy_xtag). by rewrite bool_decide_true.
  - intros key nonce msg aad ct. cbn -[toy_xtag]. intros [= <-] Hnil.
    apply (f_equal length) in Hnil. by rewrite length_app, length_toy_xtag in Hnil.
Qed.

Definition no_mail : AppState :=
  mkApp (mkBlobs b#"blobs") (λ _ _ _, Ok tt) (mkCipher (arr_fit 32 [])).

(** A store with a session of [account1] under the token "first". *)
Definition with_session : RedbRegistryStore Tables := snd (replace_session session1 opened).
Definition server1 : Server (RedbRegistryStore Tables) :=
  mkServer (mkRegistry with_session [Some (replicate 24 (byte_of 5)); Some (replicate 8 (byte_of 6))])
    (working ∅ Unlocked).
Definition bearer : HeaderMap := Some b#"Bearer first".
Definition secret1 : arr 32 := arr_fit 32 (replicate 32 (byte_of 7)).
Definition secret2 : arr 32 := arr_fit 32 (replicate 32 (byte_of 8)).

Definition clients : list (Prog (Server (RedbRegistryStore Tables)) ApiError Response) :=
  [put_recovery no_mail (I64 200) 3 (aid account1) bearer (arr_bytes secret1);
   put_recovery no_mail (I64 200) 3 (aid account1) bearer (arr_bytes secret2)].

(** Both have written their blob before either sets the pointer. *)
Definition order : list nat := concat (replicate 40 [0%nat; 1%nat]).

Definition final := schedule order clients server1 [].
Definition answer (m : Prog (Server (RedbRegistryStore Tables)) ApiError Response) : nat :=
  match m with
  | Ret (Ok (BlobResponse _ _ _)) => 1
  | Ret (Err e) => match ae_status e with CONFLICT => 2 | _ => 3 end
  | _ => 0
  end.

Example one_wins : map answer (fst (fst final)) = [1; 2]%nat.
Proof. vm_compute. reflexivity. Qed.

(** The pointer the winner set is there, and stays. *)
Example winner_set :
  match cslot (snd (fst final)) account1 Recovery with Ok (Some _) => true | _ => false end = true.
Proof. vm_compute. reflexivity. Qed.

Lemma clients_are_requests : Forall (any_request no_mail) clients.
Proof.
  apply list.Forall_cons. split; [|apply list.Forall_singleton]; exists 3%nat; apply req_put_recovery.
Qed.

Lemma requests_keep_authority_witness :
  ∃ h pool s, steps (any_request no_mail) ([], server1) h (pool, s) ∧
    (∃ ref, cslot s account1 Recovery = Ok (Some ref)) ∧
    guaranteed (keeps no_mail) (s :: h) ∧
    ∀ s1 a ref, s1 ∈ s :: h → cslot s1 a Recovery = Ok (Some ref) → cslot s a Recovery = Ok (Some ref).
Proof.
  destruct (start_steps (any_request no_mail) clients server1 clients_are_requests) as [h0 H0].
  pose proof winner_set as Hset. unfold final in Hset.
  pose proof (schedule_steps (any_request no_mail) order ([], server1) clients server1 h0 H0) as Hsteps.
  assert (snd (fst (schedule order clients server1 h0)) = snd (fst (schedule order clients server1 [])))
    as Hsame by by rewrite schedule_state.
  destruct (schedule order clients server1 h0) as [[pool s] h]. cbn [fst snd] in Hsame.
  exists h, pool, s. split; [exact Hsteps|]. split.
  - rewrite Hsame. destruct (cslot _ account1 Recovery) as [[ref|]|e]; try discriminate Hset. by exists ref.
  - exact (requests_keep_authority no_mail server1 h pool s Hsteps).
Defined.

Lemma requests_answer_alone_witness :
  ∃ r, fst (run (put_recovery no_mail (I64 200) 1 (aid account1) bearer (arr_bytes secret1)) server1) = Some r.
Proof. apply (requests_answer_alone no_mail 0 _ server1), req_put_recovery. Defined.

(** ** Storing a secret and reading it back *)
Definition sealed1 : bytes :=
  match sealed_under (recovery_cipher no_mail) account1 (arr_fit 24 (replicate 24 (byte_of 5))) (arr_bytes secret1) with
  | Ok sealed => sealed | Err _ => [] end.
Definition registry1 : Registry (RedbRegistryStore Tables) :=
  mkRegistry with_session [Some (replicate 8 (byte_of 6))].

Lemma session_reads h (s : RedbRegistryStore Tables) :
  rs_faults s = [] → session h s = (fst (session h s), s).
Proof. destruct s as [d f]. cbn. by intros ->. Qed.

(** A session that the store returns, unexpired and of this account, authorizes. *)
Lemma authorized_if now headers a token (r : Registry (RedbRegistryStore Tables)) os :
  bearer_token headers = Some token → rs_faults (store r) = [] →
  match fst (session (token_hash token) (store r)) with
  | Ok (Some se) => negb (i_leb (se_expires_at se) now) && bool_decide (se_account_id se = a)
  | _ => false
  end = true →
  authorized now headers a (mkServer r os).
Proof.
  intros Htoken Hf Hse. unfold authorized, authorize. rewrite Htoken.
  unfold api, on_service, account_for_session, on_reg, atomic. cbn -[session token_hash i_leb].
  rewrite (session_reads _ _ Hf).
  destruct (fst (session (token_hash token) (store r))) as [[se|]|e]; [|done..].
  apply andb_true_iff in Hse as [Hexp Ha]. cbn -[i_leb]. apply negb_true_iff in Hexp. rewrite Hexp.
  cbn. rewrite Ha. cbn. by destruct r.
Qed.

