(* ===== verification/RegistryClient.v ===== *)
(** * RegistryClient: [mycellium-client/src/registry.rs]

    What a client asks of the registry.  The HTTP agent ([ureq]) is a class: a
    request is answered with a status error, a timeout, another failure, or a
    response whose body is read up to a limit. *)

From S2P Require Import Prelude Std Crypto Wire Identity UserId Records Instances.

Inductive Method : Type := POST | GET | PUT.
Inductive HttpError : Type := StatusCode (code : N) | Timeout | Other.

(** [body_mut().with_config().limit(n).read_to_vec()] and, without a limit of
    its own, [read_json]. *)
Record Response : Type := mkResponse { read_to_vec : option N → option bytes }.

Class Agent (X : Type) : Type :=
  call_agent : Method → str → option str → bytes → X → result HttpError Response * X.
#[global] Hint Mode Agent ! : typeclass_instances.

Definition LOGIN_LINK_PREFIX : str := b#"mycellium://login?".

(** [str::split] at a one-byte separator: always at least one part. *)
Fixpoint split_at (sep : ascii) (s : str) : list str :=
  match s with
  | [] => [[]]
  | c :: rest =>
      if bool_decide (c = sep) then [] :: split_at sep rest
      else match split_at sep rest with
           | part :: parts => (c :: part) :: parts
           | [] => [[c]]
           end
  end.

Definition is_ascii_hex (c : ascii) : bool :=
  is_ascii_digit c || in_range 97 102 c || in_range 65 70 c.

Definition login_token_from_link (link : str) : result error str :=
  let? query := ok_or (Anyhow b#"invalid Mycellium login link") (strip LOGIN_LINK_PREFIX (trim link)) in
  let tokens := omap (strip b#"token=") (split_at "&"%char query) in
  match tokens with
  | [token] =>
      if negb (length token =? 64)%nat || negb (forallb is_ascii_hex token)
      then Err (Anyhow b#"invalid Mycellium login link")
      else Ok (map to_ascii_lowercase token)
  | _ => Err (Anyhow b#"invalid Mycellium login link")
  end.

Record RegistrySession : Type := mkSession {
  rs_registry_url : str; rs_account_id : str; rs_session_token : str; rs_session_expires_at : i64 }.

Definition is_expired (self : RegistrySession) (now : i64) : bool :=
  i_leb (rs_session_expires_at self) now.

Record ConfirmedLogin : Type := mkConfirmed { cl_session : RegistrySession; cl_created : bool }.

(** The bodies of the two login requests and of their answers. *)
Record EmailRequest : Type := mkEmailRequest { eq_email : str }.
Record EmailResponse : Type := mkEmailResponse { es_expires_at : i64 }.
Record ConfirmRequest : Type := mkConfirmRequest { cq_token : str }.
Record ConfirmResponse : Type := mkConfirmResponse {
  cr_account_id : str; cr_created : bool; cr_session_token : str; cr_session_expires_at : i64 }.

Record RegistryClient : Type := mkClient { base_url : str }.

(** [trim_end_matches('/')] *)
Definition trim_slashes (s : str) : str := rev (trim_start [b#"/"] (rev s)).

Definition RegistryClient_new (url : str) : result error RegistryClient :=
  let base_url := trim_slashes (trim url) in
  if bool_decide (is_Some (strip b#"https://" base_url))
     || bool_decide (is_Some (strip b#"http://" base_url))
  then Ok (mkClient base_url)
  else Err (Anyhow b#"registry URL must start with https:// or http://").

Definition registry_error (action : str) (e : HttpError) : error :=
  let detail :=
    match e with
    | StatusCode 400 => b#"the request was invalid"
    | StatusCode 401 => b#"your login expired; log in again"
    | StatusCode 403 => b#"this login belongs to another account"
    | StatusCode 404 => b#"the registry does not support this operation"
    | StatusCode 409 => b#"a newer or different identity is already active"
    | StatusCode 413 => b#"the request was too large"
    | StatusCode 429 => b#"too many attempts; wait before trying again"
    | StatusCode _ => b#"the registry rejected the request"
    | Timeout => b#"the registry took too long to respond"
    | Other => b#"the registry could not be reached"
    end in
  Anyhow (b#"could not " ++ action ++ b#": " ++ detail).

Definition bearer (session : RegistrySession) : str := b#"Bearer " ++ rs_session_token session.

Section Client.
Context {crypto : Crypto} {X : Type} `{!Agent X}
  `{!Json EmailRequest, !Json EmailResponse, !Json ConfirmRequest, !Json ConfirmResponse}
  `{!Postcard SignedRecord, !Postcard IdentityClaim, !Postcard (WalletPublicKey * DeviceRecord),
    !Postcard ReachabilityRecord}.
Context (self : RegistryClient).

(** [call()], [send(body)]: an error becomes the message for [action]. *)
Definition request (action : str) (method : Method) (url : str) (authorization : option str)
    (body : bytes) : M X Response := λ x,
  let '(r, x) := call_agent method url authorization body x in (map_err (registry_error action) r, x).

(** [send_json] *)
Definition send_json {T} `{!Json T} (action : str) (url : str) (value : T) : M X Response :=
  let! body := liftM (ok_or (registry_error action Other) (to_vec value)) in
  request action POST url None body.

Definition read_json {T} `{!Json T} (what : str) (response : Response) : result error T :=
  ok_or (Anyhow what) (b ← read_to_vec response None; from_slice b).

Definition request_email_login (email : str) : M X i64 :=
  let! response := send_json b#"request login email" (base_url self ++ b#"/login/email/request")
                     (mkEmailRequest email) in
  let! body := liftM (read_json b#"registry returned an invalid login response" response) in
  retM (es_expires_at body).

Definition confirm_login (token : str) : M X ConfirmedLogin :=
  let! response := send_json b#"confirm login code" (base_url self ++ b#"/login/confirm")
                     (mkConfirmRequest token) in
  let! body := liftM (read_json b#"registry returned an invalid account response" response) in
  retM (mkConfirmed
    (mkSession (base_url self) (cr_account_id body) (cr_session_token body) (cr_session_expires_at body))
    (cr_created body)).

Definition account_url (session : RegistrySession) (suffix : str) : result error str :=
  if negb (bool_decide (trim_slashes (rs_registry_url session) = base_url self))
  then Err (Anyhow b#"registry session belongs to a different registry")
  else Ok (base_url self ++ b#"/accounts/" ++ rs_account_id session ++ b#"/" ++ suffix).

Definition put_recovery (session : RegistrySession) (wallet_secret : arr 32) : M X unit :=
  let! url := liftM (account_url session b#"recovery") in
  let! _ := request b#"store identity recovery" PUT url (Some (bearer session)) wallet_secret in
  retM tt.

(** A [GET] whose 404 answer is [None]. *)
Definition get_optional (action url : str) (authorization : option str) : M X (option Response) := λ x,
  let '(r, x) := call_agent GET url authorization [] x in
  match r with
  | Ok response => (Ok (Some response), x)
  | Err (StatusCode 404) => (Ok None, x)
  | Err e => (Err (registry_error action e), x)
  end.

Definition get_recovery (session : RegistrySession) : M X (option (arr 32)) :=
  let! url := liftM (account_url session b#"recovery") in
  let! found := get_optional b#"load identity recovery" url (Some (bearer session)) in
  match found with
  | None => retM None
  | Some response =>
      let! b := liftM (ok_or (Anyhow b#"could not read identity recovery response")
                         (read_to_vec response (Some 64%N))) in
      let! secret := liftM (ok_or (Anyhow b#"registry returned invalid identity recovery material")
                              (arr_try (n := 32) b)) in
      retM (Some secret)
  end.

Definition put_record (session : RegistrySession) (record : SignedRecord) : M X unit :=
  let! url := liftM (account_url session b#"record") in
  let! _ := request b#"publish active device" PUT url (Some (bearer session)) (wire.encode record) in
  retM tt.

Definition get_record_at (url : str) : M X (option SignedRecord) :=
  let! found := get_optional b#"load active device" url None in
  match found with
  | None => retM None
  | Some response =>
      let! b := liftM (ok_or (Anyhow b#"could not read active-device response")
                         (read_to_vec response (Some 1048577%N))) in
      let! record := liftM (map_err (λ _, Anyhow b#"registry returned an invalid signed record")
                              (wire.decode b)) in
      let! _ := liftM (map_err (λ _, Anyhow b#"registry returned a record with an invalid signature")
                         (verify record)) in
      retM (Some record)
  end.

Definition get_record (account_id : str) : M X (option SignedRecord) :=
  get_record_at (base_url self ++ b#"/accounts/" ++ account_id ++ b#"/record").

Definition get_record_for_user (user_id : str) : M X (option SignedRecord) :=
  let! user_id := liftM (map_err (λ _, Anyhow b#"invalid protocol user id") (UserId.new user_id)) in
  let! record := get_record_at (base_url self ++ b#"/users/" ++ UserId.as_str user_id ++ b#"/record") in
  if match record with
     | Some record => negb (bool_decide (r_user_id (sg_record record) = user_id))
     | None => false
     end
  then errM (Anyhow b#"registry returned a record for another identity")
  else retM record.
End Client.
