(* ===== verification/RegistryEmail.v ===== *)
(** * RegistryEmail: [mycellium-registry/src/email.rs]

    The three senders of login tokens, their configuration from the environment,
    and the text of the message.  Mailboxes, the SMTP transport and the HTTP agent
    are external.  At the end: a login link reads back on the client. *)

From S2P Require Import Prelude Std Interleave Crypto Wire Identity UserId Records Registry RegistryProps RegistryWitness RegistryClient Instances.

(** [lettre::message::Mailbox], and [SmtpTransport::relay] of a host name. *)
Class Lettre : Type := {
  Mailbox : Type;
  parse_mailbox : str → result str Mailbox;
  mailbox_email : Mailbox → str;
  mailbox_name : Mailbox → option str;
  relay : str → result str unit
}.

Module email.
Definition DEFAULT_SUBJECT : str := b#"Your Mycellium login code".

(** ** The message *)

(** The parts of a text between the occurrences of a pattern, read from the left;
    [part] is what was read of the current one. *)
Fixpoint pieces_from (fuel : nat) (pattern part s : str) : list str :=
  match fuel, s with
  | Datatypes.S fuel, c :: s' =>
      match strip pattern s with
      | Some rest => part :: pieces_from fuel pattern [] rest
      | None => pieces_from fuel pattern (part ++ [c]) s'
      end
  | _, _ => [part]
  end.
Definition pieces (pattern s : str) : list str := pieces_from (length s) pattern [] s.

(** [str::replace], and [str::matches(..).count()]. *)
Fixpoint join (sep : str) (parts : list str) : str :=
  match parts with [] => [] | [part] => part | part :: parts => part ++ sep ++ join sep parts end.
Definition replace (pattern value s : str) : str := join value (pieces pattern s).
Definition occurrences (pattern s : str) : nat := pred (length (pieces pattern s)).

Definition PLACEHOLDER : str := b#"{token}".
Definition validate_login_url_template (template : option str) : Res (option str) :=
  match template with
  | None => Ok None
  | Some template =>
      if negb (occurrences PLACEHOLDER template =? 1)%nat
      then Err (invalid b#"login URL template must contain exactly one {token} placeholder")
      else Ok (Some template)
  end.

(** [i64::to_string] *)
Definition i64_text (n : i64) : str :=
  (if (i_val n <? 0)%Z then b#"-" else []) ++ decimal (Z.to_N (Z.abs (i_val n))).

Definition newline : str := [byte_of 10].
Definition login_email_body (token : str) (expires_at : i64) (login_url_template : option str) : str :=
  b#"Use this Mycellium login code to continue:" ++ newline ++ newline ++ token ++ newline ++ newline
  ++ b#"This code is short-lived and can only be used once." ++ newline
  ++ b#"If you did not request it, you can ignore this email." ++ newline
  ++ match login_url_template with
     | Some template => newline ++ b#"Login link:" ++ newline ++ replace PLACEHOLDER token template ++ newline
     | None => []
     end.

(** ** The senders *)
Record BrevoEmailConfig : Type := mkBrevoConfig {
  bc_api_key : str; bc_endpoint : option str; bc_from : str; bc_subject : option str;
  bc_login_url_template : option str }.
Record SmtpEmailConfig : Type := mkSmtpConfig {
  sc_host : str; sc_port : uint 16; sc_username : option str; sc_password : option str; sc_from : str;
  sc_subject : option str; sc_login_url_template : option str }.

(** What [SmtpTransport] is built of. *)
Record SmtpTransport : Type := mkTransport {
  tr_host : str; tr_port : uint 16; tr_credentials : option (str * str) }.

Section Senders.
Context {lettre : Lettre}.

Record BrevoEmailLoginSender : Type := mkBrevo {
  bs_api_key : str; bs_endpoint : str; bs_from : Mailbox; bs_subject : str; bs_login_url_template : option str }.
Record SmtpEmailLoginSender : Type := mkSmtp {
  ss_mailer : SmtpTransport; ss_from : Mailbox; ss_subject : str; ss_login_url_template : option str }.
Inductive ConfiguredEmailSender : Type :=
  | Log
  | Brevo (sender : BrevoEmailLoginSender)
  | Smtp (sender : SmtpEmailLoginSender).

Definition mailbox (what s : str) : Res Mailbox :=
  map_err (λ e, internal (b#"invalid email " ++ what ++ b#": " ++ e)) (parse_mailbox s).

Definition Brevo_new (config : BrevoEmailConfig) : Res BrevoEmailLoginSender :=
  let? from := mailbox b#"from address" (bc_from config) in
  let? template := validate_login_url_template (bc_login_url_template config) in
  Ok (mkBrevo (bc_api_key config) (default b#"https://api.brevo.com/v3/smtp/email" (bc_endpoint config)) from
        (default DEFAULT_SUBJECT (bc_subject config)) template).

Definition Smtp_new (config : SmtpEmailConfig) : Res SmtpEmailLoginSender :=
  let? from := mailbox b#"from address" (sc_from config) in
  let? _ := map_err (λ e, internal (b#"invalid smtp host: " ++ e)) (relay (sc_host config)) in
  let? credentials :=
    match sc_username config, sc_password config with
    | Some username, Some password => Ok (Some (username, password))
    | None, None => Ok None
    | _, _ => Err (internal b#"SMTP username and password must be configured together")
    end in
  let? template := validate_login_url_template (sc_login_url_template config) in
  Ok (mkSmtp (mkTransport (sc_host config) (sc_port config) credentials) from
        (default DEFAULT_SUBJECT (sc_subject config)) template).

Record BrevoEmailAddress : Type := mkAddress { ba_email : str; ba_name : option str }.
Definition from_mailbox (mailbox : Mailbox) : BrevoEmailAddress :=
  mkAddress (mailbox_email mailbox) (mailbox_name mailbox).

Record BrevoSendEmailRequest : Type := mkSendRequest {
  sr_sender : BrevoEmailAddress; sr_to : list BrevoEmailAddress; sr_subject : str; sr_text_content : str }.
Definition login_token (from to : Mailbox) (subject token : str) (expires_at : i64)
    (login_url_template : option str) : BrevoSendEmailRequest :=
  mkSendRequest (from_mailbox from) [from_mailbox to] subject
    (login_email_body token expires_at login_url_template).

(** The message of [lettre], whose builder may refuse it. *)
Record Message : Type := mkMessage { ms_from : Mailbox; ms_to : Mailbox; ms_subject : str; ms_body : str }.

(** The outside world of the senders. *)
Class MailHost (X : Type) : Type := {
  print_err : str → X → X;
  post_json : str → str → BrevoSendEmailRequest → X → result str unit * X;
  build_message : Message → result str unit;
  send_message : SmtpTransport → Message → X → result str unit * X
}.

Section Sending.
Context {X : Type} `{!MailHost X}.

Definition log_send_login_token (email token : str) (expires_at : i64) (x : X) : Res unit * X :=
  (Ok tt, print_err (b#"mycellium login email for " ++ email ++ b#": token=" ++ token ++ b#" expires_at="
                     ++ i64_text expires_at) x).

Definition brevo_send_login_token (self : BrevoEmailLoginSender) (email token : str) (expires_at : i64) (x : X)
    : Res unit * X :=
  match mailbox b#"recipient" email with
  | Err e => (Err e, x)
  | Ok recipient =>
      let payload := login_token (bs_from self) recipient (bs_subject self) token expires_at
                       (bs_login_url_template self) in
      let '(r, x) := post_json (bs_endpoint self) (bs_api_key self) payload x in
      (map_err (λ e, internal (b#"send Brevo login email failed: " ++ e)) r, x)
  end.

Definition smtp_send_login_token (self : SmtpEmailLoginSender) (email token : str) (expires_at : i64) (x : X)
    : Res unit * X :=
  match mailbox b#"recipient" email with
  | Err e => (Err e, x)
  | Ok recipient =>
      let message := mkMessage (ss_from self) recipient (ss_subject self)
                       (login_email_body token expires_at (ss_login_url_template self)) in
      match build_message message with
      | Err e => (Err (internal (b#"build login email failed: " ++ e)), x)
      | Ok _ =>
          let '(r, x) := send_message (ss_mailer self) message x in
          (map_err (λ e, internal (b#"send login email failed: " ++ e)) r, x)
      end
  end.

Definition send_login_token (self : ConfiguredEmailSender) : str → str → i64 → X → Res unit * X :=
  match self with
  | Log => log_send_login_token
  | Brevo sender => brevo_send_login_token sender
  | Smtp sender => smtp_send_login_token sender
  end.
End Sending.

(** ** The configuration from the environment *)
Section Environment.
(** [std::env::var(name).ok()] *)
Context (var : str → option str).

Definition non_empty (value : str) : option str := if bool_decide (value = []) then None else Some value.
Definition env_optional (name : str) : option str := value ← var name; non_empty (trim value).
Definition env_secret_optional (name : str) : option str := value ← var name; non_empty value.
Definition env_required (name : str) : Res str := ok_or (internal (name ++ b#" is required")) (env_optional name).
Definition env_secret_required (name : str) : Res str :=
  ok_or (internal (name ++ b#" is required")) (env_secret_optional name).

(** [str::parse::<u16>] *)
Definition parse_u16 (s : str) : option (uint 16) :=
  let digits := match s with "+"%char :: rest => rest | _ => s end in
  if negb (bool_decide (digits = [])) && forallb is_ascii_digit digits && (from_dec digits <? 2 ^ 16)%N
  then Some (uwrap 16 (from_dec digits)) else None.

Definition smtp_port : Res (uint 16) :=
  match env_optional b#"MYCELLIUM_REGISTRY_SMTP_PORT" with
  | None => Ok (uwrap 16 587)
  | Some port => ok_or (internal b#"MYCELLIUM_REGISTRY_SMTP_PORT must be a port number") (parse_u16 port)
  end.

Definition configured_email_sender_from_env : Res ConfiguredEmailSender :=
  let? transport := env_required b#"MYCELLIUM_REGISTRY_EMAIL_TRANSPORT" in
  if bool_decide (transport = b#"log") then Ok Log
  else if bool_decide (transport = b#"brevo") then
    let? api_key := env_secret_required b#"MYCELLIUM_REGISTRY_BREVO_API_KEY" in
    let? from := env_required b#"MYCELLIUM_REGISTRY_EMAIL_FROM" in
    let? sender := Brevo_new (mkBrevoConfig api_key (env_optional b#"MYCELLIUM_REGISTRY_BREVO_ENDPOINT") from
                      (env_optional b#"MYCELLIUM_REGISTRY_EMAIL_SUBJECT")
                      (env_optional b#"MYCELLIUM_REGISTRY_LOGIN_URL_TEMPLATE")) in
    Ok (Brevo sender)
  else if bool_decide (transport = b#"smtp") then
    let? host := env_required b#"MYCELLIUM_REGISTRY_SMTP_HOST" in
    let? port := smtp_port in
    let? from := env_required b#"MYCELLIUM_REGISTRY_EMAIL_FROM" in
    let? sender := Smtp_new (mkSmtpConfig host port (env_optional b#"MYCELLIUM_REGISTRY_SMTP_USERNAME")
                      (env_secret_optional b#"MYCELLIUM_REGISTRY_SMTP_PASSWORD") from
                      (env_optional b#"MYCELLIUM_REGISTRY_EMAIL_SUBJECT")
                      (env_optional b#"MYCELLIUM_REGISTRY_LOGIN_URL_TEMPLATE")) in
    Ok (Smtp sender)
  else Err (internal (b#"unsupported MYCELLIUM_REGISTRY_EMAIL_TRANSPORT: " ++ transport)).
End Environment.
End Senders.
End email.

(** ** Replacing *)
Lemma pieces_skip fuel pattern part a s :
  (∀ n, (n < length a)%nat → strip pattern (drop n a ++ s) = None) →
  email.pieces_from (length a + fuel) pattern part (a ++ s) = email.pieces_from fuel pattern (part ++ a) s.
Proof.
  revert part. induction a as [|c a IH]; intros part Ha; [by rewrite app_nil_r|].
  cbn [length Nat.add app email.pieces_from]. pose proof (Ha 0%nat) as H0. cbn in H0. rewrite H0 by lia.
  rewrite IH; [by rewrite <-(assoc_L (++))|]. intros n Hn. apply (Ha (Datatypes.S n)). cbn. lia.
Qed.

(** No occurrence begins where its first character is not. *)
Lemma strip_head c pattern s n a : c ∉ a → (n < length a)%nat → strip (c :: pattern) (drop n a ++ s) = None.
Proof.
  intros Hc Hn. destruct (strip _ _) as [r|] eqn:Hs; [|done]. apply strip_Some in Hs.
  destruct (drop n a) as [|x l] eqn:Hd.
  { apply (f_equal length) in Hd. rewrite length_drop in Hd. cbn in Hd. lia. }
  cbn in Hs. injection Hs as -> _. destruct Hc. apply list_elem_of_lookup. exists n.
  rewrite <-(Nat.add_0_r n), <-lookup_drop, Hd. done.
Qed.

Lemma pieces_once pattern c a t : c ∉ a → c ∉ t →
  email.pieces (c :: pattern) (a ++ (c :: pattern) ++ t) = [a; t].
Proof.
  intros Ha Ht. unfold email.pieces. rewrite length_app.
  rewrite pieces_skip by (intros n Hn; by apply strip_head). cbn [app length].
  change (length ((c :: pattern) ++ t)) with (Datatypes.S (length (pattern ++ t))). cbn [email.pieces_from].
  assert (strip (c :: pattern) (c :: pattern ++ t) = Some t) as -> by (by apply strip_Some). f_equal.
  rewrite length_app, Nat.add_comm. pose proof (pieces_skip (length pattern) (c :: pattern) [] t []) as Hp.
  rewrite !app_nil_r in Hp. rewrite Hp by (intros n Hn; by apply strip_head). by destruct (length pattern).
Qed.
Lemma replace_once value a t : "{"%char ∉ a → "{"%char ∉ t →
  email.occurrences email.PLACEHOLDER (a ++ email.PLACEHOLDER ++ t) = 1%nat ∧
  email.replace email.PLACEHOLDER value (a ++ email.PLACEHOLDER ++ t) = a ++ value ++ t.
Proof.
  intros Ha Ht. pose proof (pieces_once b#"token}" "{"%char a t Ha Ht) as Hp.
  change ("{"%char :: b#"token}") with email.PLACEHOLDER in Hp.
  unfold email.occurrences, email.replace. by rewrite Hp.
Qed.

(** ** Graphic text and queries *)
Definition graphic (c : ascii) : bool := in_range 33 126 c.
(** A part of a query beside the token. *)
Definition plain (c : ascii) : bool :=
  graphic c && negb (bool_decide (c = "&"%char)) && negb (bool_decide (c = "{"%char)).
Definition other (p : str) : Prop := forallb plain p = true ∧ strip b#"token=" p = None.

Lemma trim_start_graphic forms s :
  forallb graphic s = true →
  forallb (λ form, match form with c :: _ => negb (graphic c) | [] => false end) forms = true →
  trim_start forms s = s.
Proof.
  intros Hs Hf. unfold trim_start. destruct s as [|c s]; [done|]. cbn [length trim_start_fuel].
  assert (strip_any forms (c :: s) = None) as ->; [|done]. induction forms as [|form forms IH]; [done|].
  apply andb_true_iff in Hf as [Hc Hf]. cbn [strip_any foldr]. fold (strip_any forms (c :: s)).
  destruct (strip form (c :: s)) as [r|] eqn:Hr; [|by apply IH]. apply strip_Some in Hr.
  destruct form as [|d form]; [done|]. injection Hr as -> _. apply andb_true_iff in Hs as [Hd _].
  by rewrite Hd in Hc.
Qed.
Lemma trim_graphic s : forallb graphic s = true → trim s = s.
Proof.
  intros Hs. unfold trim. rewrite (trim_start_graphic white_space) by done.
  rewrite trim_start_graphic; [apply rev_involutive| |done].
  rewrite forallb_forall in Hs |- *. intros c Hc. apply Hs. by apply in_rev.
Qed.

Lemma split_parts sep p ps :
  sep ∉ p → split_at sep (p ++ sep :: ps) = p :: split_at sep ps.
Proof.
  induction p as [|c p IH]; intros Hp; cbn [app split_at].
  - by rewrite bool_decide_true.
  - apply not_elem_of_cons in Hp as [Hc Hp]. rewrite bool_decide_false by congruence. by rewrite IH.
Qed.
Lemma split_one sep p : sep ∉ p → split_at sep p = [p].
Proof.
  induction p as [|c p IH]; intros Hp; cbn [split_at]; [done|]. apply not_elem_of_cons in Hp as [Hc Hp].
  rewrite bool_decide_false by congruence. by rewrite IH.
Qed.
Lemma split_join ps : ps ≠ [] → Forall (λ p, ("&"%char ∉ p)) ps → split_at "&"%char (email.join b#"&" ps) = ps.
Proof.
  induction ps as [|p ps IH]; [done|]. intros _ [Hp Hps]%list.Forall_cons. destruct ps as [|q ps]; [by apply split_one|].
  change (email.join b#"&" (p :: q :: ps)) with (p ++ "&"%char :: email.join b#"&" (q :: ps)).
  rewrite split_parts by done. by rewrite IH.
Qed.

Lemma plain_inv p : forallb plain p = true → forallb graphic p = true ∧ ("&"%char ∉ p) ∧ ("{"%char ∉ p).
Proof.
  intros Hp. rewrite forallb_forall in Hp.
  assert (∀ c, c ∈ p → plain c = true) as Hc by (intros c Hin; by apply Hp, list_elem_of_In).
  split_and!; [|by intros ?%Hc|by intros ?%Hc]. apply forallb_forall. intros c Hin.
  apply Hp in Hin. unfold plain in Hin. by destruct (graphic c).
Qed.

(** What stands before and after one part of a query. *)
Definition lead (ps : list str) : str := concat (map (λ p, p ++ b#"&") ps).
Definition trail (ps : list str) : str := concat (map (λ p, b#"&" ++ p) ps).
Lemma join_cons p ps : email.join b#"&" (p :: ps) = p ++ trail ps.
Proof.
  revert p. induction ps as [|q ps IH]; intros p; [symmetry; apply app_nil_r|].
  change (email.join b#"&" (p :: q :: ps)) with (p ++ b#"&" ++ email.join b#"&" (q :: ps)).
  rewrite IH. unfold trail. cbn [map concat]. by rewrite <-(assoc_L (++)).
Qed.
Lemma join_middle ps m qs : email.join b#"&" (ps ++ m :: qs) = lead ps ++ m ++ trail qs.
Proof.
  induction ps as [|p ps IH]; [apply join_cons|]. unfold lead. cbn [map concat app]. fold (lead ps).
  assert (∀ l, l ≠ [] → email.join b#"&" (p :: l) = p ++ b#"&" ++ email.join b#"&" l) as Hj by (by intros []).
  rewrite Hj by (by destruct ps). rewrite IH. by rewrite !(assoc_L (++)).
Qed.

Lemma parts_all (f : ascii → bool) ps :
  f "&"%char = true → Forall (λ p, forallb f p = true) ps →
  forallb f (lead ps) = true ∧ forallb f (trail ps) = true.
Proof.
  intros Hf. induction 1 as [|p ps Hp _ [IH1 IH2]]; [done|]. unfold lead, trail. cbn [map concat].
  fold (lead ps) (trail ps). rewrite !forallb_app, Hp, IH1, IH2. cbn. by rewrite Hf.
Qed.
Lemma others_all (f : ascii → bool) ps :
  f "&"%char = true → (∀ c, plain c = true → f c = true) → Forall other ps →
  forallb f (lead ps) = true ∧ forallb f (trail ps) = true.
Proof.
  intros Ha Hf Hps. apply parts_all; [done|]. eapply list.Forall_impl; [exact Hps|]. intros p [Hp _].
  rewrite forallb_forall in Hp |- *. intros c Hc. by apply Hf, Hp.
Qed.
Lemma absent (c : ascii) s : forallb (λ d, negb (bool_decide (d = c))) s = true → c ∉ s.
Proof.
  rewrite forallb_forall. intros H Hc. apply list_elem_of_In, H in Hc. by rewrite bool_decide_true in Hc.
Qed.

Lemma omap_others ps : Forall other ps → omap (strip b#"token=") ps = [].
Proof. induction 1 as [|p ps [_ Hp] _ IH]; [done|]. cbn [omap list_omap]. by rewrite Hp. Qed.

Lemma hex_plain c : UserId.is_lower_hex c = true → plain c = true.
Proof.
  destruct c as [[] [] [] [] [] [] [] []]; vm_compute; done.
Qed.

(** *** The link of one token *)
Section Token.
Context (ps qs : list str) (Hps : Forall other ps) (Hqs : Forall other qs) (b : arr 32).
#[local] Abbreviation token := (hex b).
#[local] Abbreviation query part := (email.join b#"&" (ps ++ (b#"token=" ++ part) :: qs)).

Lemma query_all (f : ascii → bool) part :
  f "&"%char = true → forallb f b#"token=" = true → forallb f part = true → (∀ c, plain c = true → f c = true) →
  forallb f (query part) = true.
Proof.
  intros Ha Ht Hp Hf. rewrite join_middle, !forallb_app, Ht, Hp.
  destruct (others_all f ps Ha Hf Hps) as [-> _]. by destruct (others_all f qs Ha Hf Hqs) as [_ ->].
Qed.

Lemma link_replaced :
  let template := LOGIN_LINK_PREFIX ++ query email.PLACEHOLDER in
  email.occurrences email.PLACEHOLDER template = 1%nat ∧
  email.replace email.PLACEHOLDER token template = LOGIN_LINK_PREFIX ++ query token.
Proof.
  assert (∀ part, LOGIN_LINK_PREFIX ++ query part = (LOGIN_LINK_PREFIX ++ lead ps ++ b#"token=") ++ part ++ trail qs)
    as Hq by (intros part; by rewrite join_middle, !(assoc_L (++))).
  cbv zeta. rewrite !Hq. set (no := λ d, negb (bool_decide (d = "{"%char))).
  assert (∀ c, plain c = true → no c = true) as Hno
    by (intros c; unfold plain, no; by destruct (negb (bool_decide (c = "{"%char))); rewrite ?andb_false_r).
  apply replace_once; apply absent; fold no.
  - rewrite !forallb_app. by destruct (others_all no ps eq_refl Hno Hps) as [-> _].
  - by destruct (others_all no qs eq_refl Hno Hqs) as [_ ->].
Qed.

Lemma other_no_amp l : Forall other l → Forall (λ p, ("&"%char ∉ p)) l.
Proof. intros Hl. eapply list.Forall_impl; [exact Hl|]. by intros p [(_ & Hp & _)%plain_inv _]. Qed.

Lemma token_read : login_token_from_link (LOGIN_LINK_PREFIX ++ query token) = Ok token.
Proof.
  assert (forallb plain token = true) as Hplain.
  { pose proof (UserId.hex_lower b) as Hl. rewrite forallb_forall in Hl |- *. intros c Hc. by apply hex_plain, Hl. }
  unfold login_token_from_link. rewrite trim_graphic.
  2: { rewrite forallb_app. apply andb_true_iff. split; [done|]. apply query_all; [done..|by apply plain_inv|].
       intros c. unfold plain. by destruct (graphic c). }
  assert (strip LOGIN_LINK_PREFIX (LOGIN_LINK_PREFIX ++ query token) = Some (query token)) as -> by (by apply strip_Some).
  cbn [ok_or bind_result]. rewrite split_join.
  - change ((b#"token=" ++ token) :: qs) with ([b#"token=" ++ token] ++ qs).
    rewrite !omap_app, (omap_others ps), (omap_others qs) by done. cbn [omap list_omap app].
    assert (strip b#"token=" (b#"token=" ++ token) = Some token) as -> by (by apply strip_Some).
    rewrite app_nil_r. cbn [app]. cbv iota beta.
    rewrite length_hex, arr_length. cbn [Nat.mul Nat.add Nat.eqb negb orb].
    pose proof (UserId.hex_lower b) as Hl. rewrite forallb_forall in Hl.
    assert (forallb is_ascii_hex token = true) as ->
      by (apply forallb_forall; intros c Hc; by apply (lower_hex_digit c), Hl).
    cbn [negb orb]. f_equal. rewrite <-(map_id token) at 2. apply map_ext_in. intros c Hc.
    by apply (lower_hex_digit c), Hl.
  - by destruct ps.
  - apply Forall_app. split; [by apply other_no_amp|]. apply list.Forall_cons. split; [|by apply other_no_amp].
    rewrite elem_of_app. intros [Hin|Hin]; [|by apply plain_inv in Hplain as (_ & Hplain & _)].
    by apply (absent "&"%char b#"token=") in Hin.
Qed.
End Token.

Section Link.
Context {crypto : Crypto} {S : Type} `{!RegistryStore S}.

Lemma random_token_hex (r : Registry S) :
  match run random_token r with (Some (Ok t), _) => ∃ b : arr 32, t = hex b | _ => True end.
Proof.
  unfold random_token. rewrite run_bind. destruct (run (reg_getrandom 32) r) as [[[b|e]|] r']; [|done..]. by exists b.
Qed.
Lemma token_shape (address : str) (now ttl : i64) (r r' : Registry S) challenge :
  run (Registry.request_email_login address now ttl) r = (Some (Ok challenge), r') →
  ∃ b : arr 32, lc_token challenge = hex b.
Proof.
  unfold Registry.request_email_login. destruct (i_leb _ _); [done|]. rewrite run_bind.
  destruct (run _ r) as [[[h|e]|] r1]; [|done..]. rewrite run_bind.
  destruct (run _ r1) as [[[a|e]|] r2]; [|done..]. rewrite run_bind.
  pose proof (random_token_hex r2) as Ht. destruct (run random_token r2) as [[[t|e]|] r3]; [|done..].
  rewrite run_bind. destruct (run _ r3) as [[[u|e]|] r4]; [|done..]. intros [= <- _]. exact Ht.
Qed.

(** C18: A login link reads back: for every template of a link to the client, whatever
    other parts its query has, the configuration accepts it, the message to the
    owner of the account holds the link, and the client takes exactly the token of
    the challenge out of it. *)
Theorem login_link_comes_back (address : str) (now ttl : i64) (r r' : Registry S) challenge ps qs :
  run (Registry.request_email_login address now ttl) r = (Some (Ok challenge), r') → Forall other ps → Forall other qs →
  let template := LOGIN_LINK_PREFIX ++ email.join b#"&" (ps ++ (b#"token=" ++ email.PLACEHOLDER) :: qs) in
  let link := email.replace email.PLACEHOLDER (lc_token challenge) template in
  email.validate_login_url_template (Some template) = Ok (Some template) ∧
  (∃ text, email.login_email_body (lc_token challenge) (lc_expires_at challenge) (Some template)
           = text ++ link ++ email.newline) ∧
  login_token_from_link link = Ok (lc_token challenge).
Proof.
  intros Hrun Hps Hqs template link. destruct (token_shape _ _ _ _ _ _ Hrun) as [b Htok].
  destruct (link_replaced ps qs Hps Hqs b) as [Hone Hlink]. fold template in Hone, Hlink.
  split_and!.
  - unfold email.validate_login_url_template. by rewrite Hone.
  - unfold email.login_email_body. fold link. eexists. by rewrite !(assoc_L (++)).
  - unfold link. rewrite Htok, Hlink. by apply token_read.
Qed.
End Link.

(** ** At concrete inputs *)
Definition server : Registry (RedbRegistryStore Tables) := mkRegistry opened [Some (replicate 32 (byte_of 171))].
Definition challenge : LoginChallenge := mkLoginChallenge (concat (replicate 32 b#"ab")) (I64 900).
Lemma login_link_comes_back_witness :
  login_token_from_link
    (email.replace email.PLACEHOLDER (lc_token challenge) b#"mycellium://login?from=email&token={token}&v=1")
  = Ok (lc_token challenge).
Proof.
  assert (fst (run (Registry.request_email_login b#"ari@example.com" (I64 0) (I64 900)) server) = Some (Ok challenge))
    as Hr by (vm_compute; reflexivity).
  destruct (run (Registry.request_email_login _ _ _) server) as [r s] eqn:Hrun. cbn [fst] in Hr. subst r.
  destruct (login_link_comes_back b#"ari@example.com" (I64 0) (I64 900) server s challenge [b#"from=email"] [b#"v=1"] Hrun)
    as (_ & _ & Hlink); [repeat constructor; done..|exact Hlink].
Defined.

#[local] Instance toy_lettre : Lettre := {|
  Mailbox := str; mailbox_email m := m; mailbox_name _ := None; relay _ := Ok tt;
  parse_mailbox s := if existsb (λ c, bool_decide (c = "@"%char)) s then Ok s else Err b#"missing domain" |}.
Definition environment (entries : list (str * str)) (name : str) : option str :=
  option_map snd (List.find (λ e, bool_decide (b#"MYCELLIUM_REGISTRY_" ++ fst e = name)) entries).

(** A user name without its password, a link without the placeholder, a port that is
    none; a complete configuration has the port 587 by default. *)
Example configurations :
  let base := [(b#"EMAIL_TRANSPORT", b#" smtp "); (b#"SMTP_HOST", b#"mail.example.com"); (b#"EMAIL_FROM", b#"login@example.com")] in
  map (λ more, match email.configured_email_sender_from_env (environment (base ++ more)) with
               | Ok (email.Smtp s) => inl (u_val (email.tr_port (email.ss_mailer s)))
               | Ok _ => inr []
               | Err e => inr (re_message e)
               end)
    [[]; [(b#"SMTP_PORT", b#"2525")]; [(b#"SMTP_PORT", b#"65536")]; [(b#"SMTP_USERNAME", b#"user")];
     [(b#"LOGIN_URL_TEMPLATE", b#"https://example.com/login")]]
  = [inl 587%N; inl 2525%N; inr b#"MYCELLIUM_REGISTRY_SMTP_PORT must be a port number";
     inr b#"SMTP username and password must be configured together";
     inr b#"login URL template must contain exactly one {token} placeholder"].
Proof. vm_compute. reflexivity. Qed.
