(* ===== verification/RegistryServer.v ===== *)
(** * RegistryServer: [mycellium-registry/src/bin/mycellium-registry.rs]

    The task of the server that removes what has expired: what one of its turns
    does and prints, that it ends, and what it leaves. *)

From stdpp Require Import functions.
From S2P Require Import Prelude Std Interleave Crypto Wire UserId Storage FileStore Registry RegistrySpec RegistryProps RegistryRuns RegistryApi RegistryWitness Instances.

(** [duration.as_secs() as i64], or zero before the epoch. *)
Definition as_i64 (n : u64) : i64 :=
  i_sat (if (u_val n <? 2 ^ 63)%N then Z.of_N (u_val n) else Z.of_N (u_val n) - 2 ^ 64)%Z.
Definition seconds (clock : option u64) : i64 := from_option as_i64 (I64 0) clock.

Definition BATCH : nat := N.to_nat 10000.

Section Task.
Context {S : Type} `{!RegistryStore S}.
Abbreviation P E A := (Prog (Server S) E A).

(** One cleanup: passes of at most [BATCH] entries until one finds fewer. *)
Fixpoint cleanup (fuel : nat) (now : i64) : P RegistryError unit :=
  match fuel with
  | O => Spin
  | Datatypes.S fuel =>
      let# removed := api_purge_expired now BATCH in
      if (removed <? BATCH)%nat then okP tt else cleanup fuel now
  end.

(** One turn of the task: the line it prints, if there is one. *)
Definition maintenance_turn (fuel : nat) (clock : option u64) : P RegistryError (option str) :=
  catchP (cleanup fuel (seconds clock)) (λ r,
    okP match r with
        | Ok _ => None
        | Err error => Some (b#"registry cleanup failed: " ++ re_message error)
        end).
End Task.

(** ** What is left *)

(** An entry is what it was, or has been removed after it expired. *)
Definition kept {X} (expires_at : X → i64) (now : i64) (before after : option X) : Prop :=
  after = before ∨ after = None ∧ ∃ x, before = Some x ∧ (i_val (expires_at x) ≤ i_val now)%Z.

(** The entries that have not expired. *)
Definition unexpired {X} (expires_at : X → i64) (now : i64) (entry : option X) : option X :=
  x ← entry; if i_ltb now (expires_at x) then Some x else None.

Record swept (now : i64) (A A' : AReg) : Prop := {
  sw_logins : a_logins A' = a_logins A;
  sw_accounts : a_accounts A' = a_accounts A;
  sw_blobs : a_blobs A' = a_blobs A;
  sw_users : a_users A' = a_users A;
  sw_tokens h : kept lt_expires_at now (a_tokens A h) (a_tokens A' h);
  sw_sessions a : kept se_expires_at now (a_sessions A a) (a_sessions A' a);
  sw_rates k : kept rb_expires_at now (a_rates A k) (a_rates A' k)
}.
Definition clean_at (now : i64) (A : AReg) : Prop :=
  none_expired token_expiry now A ∧ none_expired session_expiry now A ∧ none_expired rate_expiry now A.

Lemma kept_refl {X} (f : X → i64) now o : kept f now o o.
Proof. by left. Qed.
Lemma kept_trans {X} (f : X → i64) now a b c : kept f now a b → kept f now b c → kept f now a c.
Proof.
  intros [->|(-> & x & -> & Hx)] [->|(-> & y & Hy & Hle)]; [by left|right; by eauto..].
Qed.
Lemma kept_alive {X} (f : X → i64) now a b :
  kept f now a b → (∀ x, b = Some x → (i_val now < i_val (f x))%Z) → b = unexpired f now a.
Proof.
  unfold unexpired, i_ltb. intros [->|[-> (x & -> & Hx)]] Hb; cbn.
  - destruct a as [x|]; [|done]. cbn. by rewrite (proj2 (Z.ltb_lt _ _)) by auto.
  - by rewrite (proj2 (Z.ltb_ge _ _)).
Qed.
Lemma kept_removed {X} (f : X → i64) expiry now A ss s o :
  all_expired expiry now A ss → expiry A s = f <$> o → kept f now o (if decide (s ∈ ss) then None else o).
Proof.
  intros [_ Hss] He. case_decide as Hin; [|apply kept_refl]. right. split; [done|].
  apply Hss in Hin as (e & Hs & Hle). rewrite He in Hs. apply fmap_Some in Hs as (x & -> & ->). by eauto.
Qed.
Lemma swept_refl now A : swept now A A.
Proof. split; auto using kept_refl. Qed.
Lemma swept_trans now A B C : swept now A B → swept now B C → swept now A C.
Proof.
  intros [] []. split; try congruence; intros ?; by eapply kept_trans.
Qed.

(** ** The entries there are *)

(** Sets of the subjects of each kind, of at most [m] elements together. *)
Definition stock (A : AReg) (m : nat) : Prop :=
  ∃ X Y Z : gset str,
    (∀ h, is_Some (token_expiry A h) → h ∈ X) ∧ (∀ a, is_Some (session_expiry A a) → a ∈ Y) ∧
    (∀ k, is_Some (rate_expiry A k) → k ∈ Z) ∧ (size X + size Y + size Z ≤ m)%nat.

(** Removing distinct subjects makes the set smaller by their number. *)
Lemma shrink (expiry : AReg → str → option i64) (now : i64) (A A' : AReg) (X : gset str) (ss : list str) :
  all_expired expiry now A ss → (∀ s, is_Some (expiry A s) → s ∈ X) →
  (∀ s, is_Some (expiry A' s) → is_Some (expiry A s) ∧ s ∉ ss) →
  (∀ s, is_Some (expiry A' s) → s ∈ X ∖ list_to_set ss) ∧
  (size (X ∖ list_to_set ss : gset str) + length ss = size X)%nat.
Proof.
  intros [Hnd Hss] HX HA'. split.
  - intros s Hs. apply HA' in Hs as [Hs Hn]. apply HX in Hs. clear -Hs Hn. set_solver.
  - assert (list_to_set ss ⊆ X) as Hsub.
    { intros s Hs. assert (s ∈ ss) as Hin by (clear -Hs; set_solver). apply HX. destruct (Hss s Hin) as (e & -> & _). done. }
    rewrite size_difference by done. rewrite size_list_to_set by done.
    apply subseteq_size in Hsub. rewrite size_list_to_set in Hsub by done. lia.
Qed.

Lemma gone (before after : str → option i64) (ss : list str) s :
  (∀ s, after s = if decide (s ∈ ss) then None else before s) → is_Some (after s) →
  is_Some (before s) ∧ s ∉ ss.
Proof. intros Ha. rewrite Ha. case_decide; [by intros [? ?]|done]. Qed.

Lemma purge_spec now limit A r A' m :
  spec (Purge now limit) A r A' → stock A m →
  ∃ n, r = Ok (RCount n) ∧ (n ≤ m)%nat ∧ stock A' (m - n) ∧ swept now A A' ∧
    ((n < limit)%nat → clean_at now A').
Proof.
  intros H (X & Y & Z & HX & HY & HZ & Hm). inversion H as [| | | | | | | | | | | | | | | | | | |? ? ? ? n ts ss rs Hts Hss Hrs Hn Hlim HA Hclean]; subst.
  set (n := (length ts + length ss + length rs)%nat).
  set (A' := fold_left forget_rate rs (fold_left forget_session ss (fold_left forget_token ts A))) in *.
  pose proof (purged_tokens ts ss rs A) as Pt. pose proof (purged_sessions ts ss rs A) as Ps.
  pose proof (purged_rates ts ss rs A) as Pr. fold A' in Pt, Ps, Pr.
  assert (∀ h, token_expiry A' h = if decide (h ∈ ts) then None else token_expiry A h) as Et
    by (intros h; unfold token_expiry; rewrite Pt; by case_decide).
  assert (∀ a, session_expiry A' a = if decide (a ∈ ss) then None else session_expiry A a) as Es
    by (intros a; unfold session_expiry; rewrite Ps; cbn [aid]; by case_decide).
  assert (∀ k, rate_expiry A' k = if decide (k ∈ rs) then None else rate_expiry A k) as Er
    by (intros k; unfold rate_expiry; rewrite Pr; by case_decide).
  destruct (shrink token_expiry now A A' X ts Hts HX (λ s, gone _ _ _ s Et)) as [HX' Hx].
  destruct (shrink session_expiry now A A' Y ss Hss HY (λ s, gone _ _ _ s Es)) as [HY' Hy].
  destruct (shrink rate_expiry now A A' Z rs Hrs HZ (λ s, gone _ _ _ s Er)) as [HZ' Hz].
  exists n. split_and!; [done|lia| | |done].
  - eexists _, _, _. split_and!; [exact HX'|exact HY'|exact HZ'|]. lia.
  - split.
    1-4: unfold A'; by rewrite !fold_left_keep.
    + intros h. rewrite Pt. by apply (kept_removed _ token_expiry now A).
    + intros [a]. rewrite Ps. by apply (kept_removed _ session_expiry now A).
    + intros k. rewrite Pr. by apply (kept_removed _ rate_expiry now A).
Qed.

(** ** The loop *)
Lemma BATCH_pos : BATCH ≠ 0%nat.
Proof. by vm_compute. Qed.
Lemma fewer_passes b n m : b ≠ 0%nat → (b ≤ n)%nat → (n ≤ m)%nat → ((m - n) / b < m / b)%nat.
Proof.
  intros Hb Hn Hm. replace (m / b)%nat with ((m - b) / b + 1)%nat.
  - pose proof (Nat.Div0.div_le_mono (m - n) (m - b) b). lia.
  - rewrite <-Nat.div_add by done. f_equal. lia.
Qed.

Section Cleanup.
Context {D : Type} `{!Redb D, !RedbLaws D}.
Context `{!Json Account, !Json LoginIdentity, !Json LoginToken, !Json BlobRef, !Json Session, !Json RateLimitBucket}.
Context `{!JsonTotal Account, !JsonTotal LoginIdentity, !JsonTotal LoginToken, !JsonTotal BlobRef, !JsonTotal Session, !JsonTotal RateLimitBucket}.
Abbreviation Store := (RedbRegistryStore D).
Abbreviation db s := (store (sv_registry s)).

(** One pass, whether the database fails it or not. *)
Lemma pass_ok now limit (s : Store) A m :
  represents (rs_db s) A → coherent A → stock A m →
  ∃ A', represents (rs_db (snd (redb_purge_expired now limit s))) A' ∧ coherent A' ∧ swept now A A' ∧
    (faults (snd (redb_purge_expired now limit s)) ≤ faults s)%nat ∧
    match fst (redb_purge_expired now limit s) with
    | Ok n => (n ≤ m)%nat ∧ stock A' (m - n) ∧ ((n < limit)%nat → clean_at now A')
    | Err _ => (faults (snd (redb_purge_expired now limit s)) < faults s)%nat
    end.
Proof.
  intros HR HC Hm.
  assert (outcome (Purge now limit) A (perform (Purge now limit) s) ∨ failed (perform (Purge now limit) s) s) as Hp.
  { destruct (decide (head (rs_faults s) = Some true)); [by apply perform_fault|left; by apply purge_ok]. }
  pose proof (perform_faults (Purge now limit) s) as Hf. unfold outcome, failed in Hp.
  cbn [perform purge_expired redb_registry_store] in Hp, Hf. unfold map_reply, bindR in Hp, Hf.
  destruct (redb_purge_expired now limit s) as [[n|e] s']; cbn [fst snd] in *.
  - destruct Hp as [(A' & Hspec & HR' & HC')|(msg & [=] & _)].
    destruct (purge_spec _ _ _ _ _ _ Hspec Hm) as (n' & [= <-] & Hle & Hst & Hsw & Hcl). exists A'. by split_and!.
  - destruct Hp as [(A' & Hspec & HR' & HC')|(msg & _ & Hdb & Hn)].
    { destruct (purge_spec _ _ _ _ _ _ Hspec Hm) as (n' & [=] & _). }
    exists A. rewrite Hdb. split_and!; [done|done|apply swept_refl|done|]. lia.
Qed.

Lemma cleanup_run fuel now (s : Server Store) A m :
  represents (rs_db (db s)) A → coherent A → stock A m → (m / BATCH < fuel)%nat →
  ∃ r s' A', run (cleanup fuel now) s = (Some r, s') ∧ sv_disk s' = sv_disk s ∧
    represents (rs_db (db s')) A' ∧ coherent A' ∧ swept now A A' ∧
    match r with
    | Ok _ => clean_at now A'
    | Err _ => (faults (db s') < faults (db s))%nat
    end.
Proof.
  revert s A m. induction fuel as [|fuel IH]; intros s A m HR HC Hm Hfuel; [lia|].
  destruct (pass_ok now BATCH (db s) A m HR HC Hm) as (A1 & HR1 & HC1 & Hsw1 & Hf1 & Hn).
  cbn [cleanup]. rewrite run_bind. unfold api_purge_expired, on_store, on_service, on_reg, atomic. cbn [zoom run].
  destruct s as [[d rnd] disk]. cbn [sv_registry store random sv_disk] in *.
  change (purge_expired now BATCH d) with (redb_purge_expired now BATCH d).
  destruct (redb_purge_expired now BATCH d) as [[n|e] d1]; cbn [fst snd] in *; cycle 1.
  { eexists (Err e), _, A1. split_and!; [reflexivity|done..]. }
  destruct Hn as (Hle & Hst & Hcl). destruct (Nat.ltb_spec n BATCH) as [Hlt|Hge].
  { eexists (Ok tt), _, A1. split_and!; [reflexivity|done..|by apply Hcl]. }
  destruct (IH (mkServer (mkRegistry d1 rnd) disk) A1 (m - n)%nat) as (r & s' & A' & Hrun & Hd & HR' & HC' & Hsw & Hr);
    [done..| |].
  - pose proof (fewer_passes BATCH n m) as Hp. specialize (Hp (BATCH_pos) Hge Hle). lia.
  - exists r, s', A'. cbn [sv_registry store sv_disk] in *. split_and!; [exact Hrun|done..|by eapply swept_trans|].
    destruct r; [done|lia].
Qed.

(** The entries of a database bound the passes. *)
Definition entries (d : D) : nat :=
  length (tbl_iter LOGIN_TOKENS d) + length (tbl_iter ACCOUNT_SESSIONS d) + length (tbl_iter RATES d).

Lemma stored_key {X : Type} `{!Json X} t k (d : D) (x : X) :
  decode_opt (tbl_get t k d) = Ok (Some x) → k ∈ (list_to_set (tbl_iter t d).*1 : gset str).
Proof.
  intros Hd. destruct (tbl_get t k d) as [v|] eqn:Hv; [|discriminate Hd].
  apply iter_get in Hv. apply elem_of_list_to_set. by apply (list_elem_of_fmap_2 fst) in Hv.
Qed.
Lemma keys_size t (d : D) : (size (list_to_set (tbl_iter t d).*1 : gset str) ≤ length (tbl_iter t d))%nat.
Proof.
  induction (tbl_iter t d) as [|[k v] l IH]; [done|]. change (list_to_set ((k, v) :: l).*1 : gset str) with ({[k]} ∪ list_to_set l.*1 : gset str).
  rewrite size_union_alt, size_singleton. cbn [length].
  assert (size (list_to_set l.*1 ∖ {[k]} : gset str) ≤ size (list_to_set l.*1 : gset str))%nat; [|lia].
  apply subseteq_size. intros x Hx. apply elem_of_difference in Hx as [Hx _]. exact Hx.
Qed.

Lemma stock_entries d A : represents d A → stock A (entries d).
Proof.
  intros HR. unfold entries. eexists _, _, _. split_and!.
  - intros h [e (t & Ht & _)%fmap_Some]. apply (stored_key LOGIN_TOKENS h d t). by rewrite (r_tokens _ _ HR), Ht.
  - intros a [e (t & Ht & _)%fmap_Some]. apply (stored_key ACCOUNT_SESSIONS a d t). change a with (aid (mkAccountId a)).
    by rewrite (r_sessions _ _ HR (mkAccountId a)), Ht.
  - intros k [e (t & Ht & _)%fmap_Some]. apply (stored_key RATES k d t). by rewrite (r_rates _ _ HR), Ht.
  - pose proof (keys_size LOGIN_TOKENS d). pose proof (keys_size ACCOUNT_SESSIONS d).
    pose proof (keys_size RATES d). lia.
Qed.

(** C30: A turn of the cleanup task that no other request interrupts ends, after at most
    one pass more than there are ten thousands of entries, and touches no account, login,
    published record, blob or file.  When it prints nothing, the tokens, sessions and
    rate limits that are left are exactly those that have not expired; when it
    reports an error, a transaction of the database has failed and still nothing
    that has not expired is lost. *)
Theorem maintenance_turn_ends fuel clock (s : Server Store) A :
  represents (rs_db (db s)) A → coherent A → (entries (rs_db (db s)) / BATCH < fuel)%nat →
  let now := seconds clock in
  ∃ line s' A', run (maintenance_turn fuel clock) s = (Some (Ok line), s') ∧ sv_disk s' = sv_disk s ∧
    represents (rs_db (db s')) A' ∧ coherent A' ∧ swept now A A' ∧
    match line with
    | None =>
        (∀ h, a_tokens A' h = unexpired lt_expires_at now (a_tokens A h)) ∧
        (∀ a, a_sessions A' a = unexpired se_expires_at now (a_sessions A a)) ∧
        (∀ k, a_rates A' k = unexpired rb_expires_at now (a_rates A k))
    | Some _ => (faults (db s') < faults (db s))%nat
    end.
Proof.
  intros HR HC Hfuel now.
  destruct (cleanup_run fuel now s A _ HR HC (stock_entries _ _ HR) Hfuel)
    as (r & s' & A' & Hrun & Hd & HR' & HC' & Hsw & Hr).
  eexists _, s', A'. unfold maintenance_turn. rewrite run_catch. fold now. rewrite Hrun.
  split_and!; [reflexivity|done..|]. destruct r as [[]|e]; [|exact Hr]. destruct Hr as (Ht & Hs & Hk). split_and!.
  - intros h. apply kept_alive; [apply Hsw|]. intros t Hx. apply (Ht h). unfold token_expiry. by rewrite Hx.
  - intros [a]. apply kept_alive; [apply Hsw|]. intros t Hx. apply (Hs a). unfold session_expiry. by rewrite Hx.
  - intros k. apply kept_alive; [apply Hsw|]. intros t Hx. apply (Hk k). unfold rate_expiry. by rewrite Hx.
Qed.
End Cleanup.

(** ** At concrete inputs *)

(** A server on whose database an account has logged in and another login is pending. *)
Definition busy : RedbRegistryStore Tables := snd (run_ops [ReplaceSession session1; Bump b#"k" (I64 90) (I64 60)] pending).
Definition machine (store : RedbRegistryStore Tables) (faults : list bool) : Server (RedbRegistryStore Tables) :=
  mkServer (mkRegistry (mkRedbStore (rs_db store) faults) []) (mkHost ∅ Unlocked (λ _, false) true []).

Example turns :
  map (λ '(time, faults),
    match run (maintenance_turn 1 (Some (U64 time))) (machine busy faults) with
    | (Some (Ok line), s) => Some (line, entries (rs_db (store (sv_registry s))))
    | _ => None
    end) [(100%N, []); (160%N, []); (600%N, []); (1000%N, []); (1000%N, [true])]
  = [Some (None, 3%nat); Some (None, 2%nat); Some (None, 1%nat); Some (None, 0%nat);
     Some (Some b#"registry cleanup failed: begin write failed", 3%nat)].
Proof. vm_compute. reflexivity. Qed.

Lemma maintenance_turn_ends_witness :
  ∃ s' A', run (maintenance_turn 1 (Some (U64 1000))) (machine pending []) = (Some (Ok None), s') ∧
    represents (rs_db (store (sv_registry s'))) A' ∧ a_tokens A' hash1 = None.
Proof.
  destruct pending_represents as (A & HR & HC & _).
  destruct (maintenance_turn_ends 1 (Some (U64 1000)) (machine pending []) A HR HC)
    as (line & s' & A' & Hrun & _ & HR' & _ & _ & Hline); [vm_compute; lia|].
  assert (match fst (run (maintenance_turn 1 (Some (U64 1000))) (machine pending [])) with
          | Some (Ok None) => true | _ => false end = true) as Hl by (vm_compute; reflexivity).
  rewrite Hrun in Hl. destruct line; [discriminate Hl|]. exists s', A'. split_and!; [exact Hrun|exact HR'|].
  destruct Hline as (Ht & _). rewrite Ht.
  assert ((Ok (a_tokens A hash1) : Res (option LoginToken)) = Ok (Some login1)) as [= ->]; [|reflexivity].
  rewrite <-(r_tokens _ _ HR). vm_compute. reflexivity.
Defined.
