(* ===== verification/Client.v ===== *)
(** * Client: [mycellium-client/src/lib.rs]

    The headless client API over the engine: the account's own record, records of
    others, contacts, trust decisions, conversations, groups and the local outbox.
    Functions on the store alone are in [M S]; those that also draw on the
    platform, the sink or the delivery closure are in [F S P X]. *)

From S2P Require Import Prelude Std Crypto Wire Identity UserId Records X3DH Group Message Delivery Storage LocalState Antirollback History Groups WireOps Peerbook Outbox Flow RegistryClient Instances.

Module client.
(** ** Identity *)
Record IdentityInfo : Type := mkIdentityInfo {
  info_wallet : bytes; info_device : bytes; info_messaging : bytes }.

Record RecordImportReport : Type := mkImportReport {
  rir_imported : nat; rir_skipped : list (str * str) }.

(** [struct LocalNet]: the records of the peer book at one moment. *)
Record LocalNet : Type := mkLocalNet { ln_records : list peerbook.PeerRecord }.

Record ContactEntry : Type := mkContactEntry {
  ce_nickname : str; ce_handle : str; ce_user_id : str; ce_verified : bool }.

Record ConversationPreview : Type := mkPreview {
  cp_user_id : str; cp_peer : str; cp_display_name : str; cp_from_me : bool; cp_text : str;
  cp_timestamp : u64 }.

Record SearchHit : Type := mkHit {
  sh_user_id : str; sh_peer : str; sh_display_name : str; sh_from_me : bool; sh_text : str }.

Record VerificationInfo : Type := mkVerification {
  vi_user_id : str; vi_handle : str; vi_wallet : WalletPublicKey; vi_safety_number : str;
  vi_level : verified.TrustLevel }.

Record GroupSummary : Type := mkGroupSummary { gsm_id : str; gsm_name : str; gsm_member_count : nat }.

Inductive OutboxCancel : Type :=
  | CancelEmpty | CancelAll (removed : nat) | CancelOne (id recipient : str).

Section Client.
Context {crypto : Crypto} {S P X : Type} `{!Storage S, !Platform P}
  `{!Postcard IdentityClaim, !Postcard (WalletPublicKey * DeviceRecord), !Postcard DeviceRecord,
    !Postcard ReachabilityRecord, !Postcard VersionPins, !Postcard WalletPublicKey,
    !Postcard contacts.Contact, !Postcard (list str), !Postcard (list (str * str)),
    !Postcard AppMessage, !Postcard attachments.StoredAttachment, !Postcard StoredGroup,
    !Postcard (list StoredMessage), !Postcard (list GroupStoredMessage), !Postcard SegMeta,
    !Postcard (list peerbook.PeerRecord), !Json GroupInvitePayload, !Json GroupLeavePayload,
    !Postcard SignedRecord, !Postcard str, !Postcard u64, !Postcard outbox.OutboxEntry,
    !Postcard (list outbox.OutboxEntry), !Postcard (list outbox.LegacyOutboxEntry)}.

Definition attachment (message_id : str) (store : S)
    : result error (option attachments.StoredAttachment) := attachments.load message_id store.

Definition identity_info (identity : Identity) : IdentityInfo :=
  mkIdentityInfo (arr_bytes (Identity.wallet_public identity))
    (arr_bytes (Identity.device_public identity)) (arr_bytes (Identity.messaging_public identity)).

Definition is_current_device (identity : Identity) (record : SignedRecord) : bool :=
  is_ok (verify record)
  && bool_decide (r_user_id (sg_record record) = user_id (Identity.wallet_public identity))
  && bool_decide (r_wallet (sg_record record) = Identity.wallet_public identity)
  && bool_decide (device_key (sd_record (signed (r_device (sg_record record))))
                  = Identity.device_public identity).

Definition create_identity (fuel : nat) (platform : P) : option (result error Identity * P) :=
  '(r, platform) ← Identity.generate fuel platform; Some (map_err anyhow_of r, platform).

Definition adopt_identity (platform : P) (wallet_secret : arr 32) : result error Identity * P :=
  let '(r, platform) := Identity.adopt platform wallet_secret in (map_err anyhow_of r, platform).

(** ** The own record *)
Definition record_key (record : SignedRecord) : DevicePublicKey :=
  device_key (sd_record (signed (r_device (sg_record record)))).

Definition reusable_own_record (identity : Identity) (handle : Handle)
    (existing : option SignedRecord) : result error (option SignedRecord) :=
  match existing with
  | None => Ok None
  | Some record =>
      let? _ := map_err (λ _, Anyhow (b#"local record for '" ++ Handle.as_str handle
                  ++ b#"' failed verification; run `record remove " ++ Handle.as_str handle
                  ++ b#"` before registering it here")) (verify record) in
      if negb (bool_decide (r_wallet (sg_record record) = Identity.wallet_public identity))
      then Err (Anyhow (b#"local record for '" ++ Handle.as_str handle
                  ++ b#"' belongs to a different wallet; run `record remove " ++ Handle.as_str handle
                  ++ b#"` before registering it here"))
      else Ok (Some record)
  end.

(** The device part of the record that is published. *)
Definition active_device (identity : Identity) (existing : option SignedRecord) (now : u64)
    : result error Device :=
  match existing with
  | Some record =>
      if bool_decide (record_key record = Identity.device_public identity) then
        let device := r_device (sg_record record) in
        if bool_decide (reticulum device = Identity.reticulum_public identity) then Ok device
        else
          let claim_seq := umax now (saturating_add (rr_seq (sr_record (reachability device))) (U64 1)) in
          map_err (λ _, Anyhow b#"could not sign Reticulum destination")
            (refresh_reticulum device identity claim_seq)
      else Ok (this_device identity now)
  | None => Ok (this_device identity now)
  end.

Definition publish_active_device_record (platform : P) (identity : Identity) (handle : Handle)
    (name : str) : M S SignedRecord :=
  let own_user_id := user_id (Identity.wallet_public identity) in
  let! found := readM (peerbook.get_by_user_id own_user_id) in
  let! existing := liftM (reusable_own_record identity handle found) in
  let now := now_unix_secs platform in
  let! active_device := liftM (active_device identity existing now) in
  let active_device_changed :=
    match existing with
    | Some record => negb (bool_decide (record_key record = device_key (sd_record (signed active_device))))
    | None => true
    end in
  let republished existing :=
    peerbook.with_device platform identity handle name active_device
      (match existing with Some r => r_seq (sg_record r) | None => U64 0 end) in
  let signed :=
    match existing with
    | Some record =>
        if negb active_device_changed
           && bool_decide (r_handle (sg_record record) = handle)
           && bool_decide (r_name (sg_record record) = name)
        then Records.with_device record active_device
        else republished (Some record)
    | None => republished None
    end in
  let! _ := peerbook.put handle signed in
  retM signed.

(** ** Records of others *)
Definition require_record (handle : Handle) (store : S) : result error SignedRecord :=
  let? found := peerbook.get handle store in
  ok_or (Anyhow (b#"no local record for '" ++ Handle.as_str handle ++ b#"'")) found.

Definition require_own_record (handle : Handle) (store : S) : result error SignedRecord :=
  let? found := peerbook.get handle store in
  ok_or (Anyhow (b#"no local signed record for '" ++ Handle.as_str handle
                 ++ b#"' — create a profile first")) found.

Definition require_own_record_for_identity (identity : Identity) (handle : Handle) (store : S)
    : result error SignedRecord :=
  let user_id := user_id (Identity.wallet_public identity) in
  let? found := peerbook.get_by_user_id user_id store in
  let? record := ok_or (Anyhow (b#"no local signed record for '" ++ Handle.as_str handle
                                ++ b#"' — register this device first")) found in
  if negb (bool_decide (r_handle (sg_record record) = handle))
     || negb (bool_decide (r_wallet (sg_record record) = Identity.wallet_public identity))
  then Err (Anyhow b#"the active local record does not match this account")
  else Ok record.

Definition import_record (handle : Handle) (record : SignedRecord) : M S unit :=
  peerbook.put handle record.

(** Whether the peer book knows the user. *)
Definition require_known (u : UserId) : M S unit :=
  let! found := readM (peerbook.get_by_user_id u) in
  match found with
  | None => errM (Anyhow b#"cannot refresh an unknown person")
  | Some _ => retM tt
  end.

Definition apply_registry_record (expected_user_id : str) (record : SignedRecord) : M S bool :=
  let! expected := liftM (map_err (λ _, Anyhow b#"invalid user id") (UserId.new expected_user_id)) in
  let! _ := require_known expected in
  if negb (bool_decide (r_user_id (sg_record record) = expected))
  then errM (Anyhow b#"registry returned a record for another person")
  else
    let! _ := peerbook.put (r_handle (sg_record record)) record in
    retM true.

(** The registry is reached between two uses of the store. *)
Definition refresh_registry_record `{!Agent X} (registry : RegistryClient) (user_id : str)
    : M (S * X) bool := λ '(store, x),
  match (let! u := liftM (map_err (λ _, Anyhow b#"invalid user id") (UserId.new user_id)) in
         let! _ := require_known u in retM u) store with
  | (Err e, store) => (Err e, (store, x))
  | (Ok u, store) =>
      let '(found, x) := get_record_for_user registry (UserId.as_str u) x in
      match found with
      | Err e => (Err e, (store, x))
      | Ok None => (Ok false, (store, x))
      | Ok (Some record) =>
          let '(r, store) := apply_registry_record (UserId.as_str u) record store in (r, (store, x))
      end
  end.

Definition list_records (store : S) : result error (list peerbook.PeerRecord) := peerbook.load store.

Definition remove_record (handle : Handle) : M S bool :=
  let! record := readM (peerbook.get handle) in
  let! removed := peerbook.remove handle in
  let! _ :=
    if removed : bool then
      match record with
      | Some record => clear_pins (peerbook.uid record) (r_wallet (sg_record record))
      | None => retM tt
      end
    else retM tt in
  retM removed.

Definition encode_record (record : SignedRecord) : str := peerbook.encode record.
Definition decode_record (encoded : str) : peerbook.panics (result error SignedRecord) :=
  peerbook.decode encoded.

Definition import_discovery_records (records : list DiscoveryRecord) (store : S)
    : RecordImportReport * S :=
  let '(report, store) := peerbook.import_records records store in
  (mkImportReport (peerbook.imported report) (peerbook.skipped report), store).

Definition discovery_records (want : list str) (store : S) : result error (list DiscoveryRecord) :=
  peerbook.pack want store.

(** ** The network view of the flow: a snapshot of the peer book *)
Definition LocalNet_load (store : S) : result error LocalNet :=
  let? records := peerbook.load store in Ok (mkLocalNet records).

Definition LocalNet_lookup (net : LocalNet) (handle : Handle) : result error SignedRecord :=
  match List.filter (λ entry, bool_decide (peerbook.handle entry = Handle.as_str handle))
          (ln_records net) with
  | [entry] => Ok (peerbook.record entry)
  | [] => Err (Anyhow (b#"no local record for '" ++ Handle.as_str handle ++ b#"'"))
  | _ => Err (Anyhow (b#"more than one person uses '" ++ Handle.as_str handle
                      ++ b#"'; choose a saved contact"))
  end.

Definition LocalNet_lookup_user_id (net : LocalNet) (u : UserId) : result error SignedRecord :=
  ok_or (Anyhow (b#"no local record for user '" ++ UserId.as_str u ++ b#"'"))
    (peerbook.record <$> List.find (λ entry, bool_decide (peerbook.user_id entry = UserId.as_str u))
                           (ln_records net)).

(** [impl FlowNet for LocalNet], beside the state of the delivery closure. *)
#[local] Instance local_flownet : FlowNet (LocalNet * X) := {|
  lookup handle x := (LocalNet_lookup x.1 handle, x);
  lookup_user_id u x := (LocalNet_lookup_user_id x.1 u, x)
|}.

(** A call of the flow with [&net]. *)
Definition with_net {A} (net : LocalNet) (m : F S P (LocalNet * X) A) : F S P X A := λ w,
  let '(a, w') := m (mkWorld (w_store w) (w_platform w) (w_events w) (net, w_host w)) in
  (a, mkWorld (w_store w') (w_platform w') (w_events w') (snd (w_host w'))).

Definition hosted (deliver : DeliveryHook S X) : DeliveryHook S (LocalNet * X) :=
  λ handle record device item plaintext store x,
    let '(path, store, y) := deliver handle record device item plaintext store (snd x) in
    (path, store, (fst x, y)).
Definition hosted_pairwise (deliver : PairwiseDeliveryHook S X) : PairwiseDeliveryHook S (LocalNet * X) :=
  λ handle record device item plaintext store x,
    let '(path, store, y) := deliver handle record device item plaintext store (snd x) in
    (path, store, (fst x, y)).

Definition resolve_name (input : str) (store : S) : result error str := contacts.resolve input store.

Definition resolve_user_record (user_id : str) : F S P X (result TrustError (Handle * SignedRecord)) :=
  match UserId.new user_id with
  | Err _ => retF (Err BadHandle)
  | Ok user_id =>
      let* found := read_store (peerbook.get_by_user_id user_id) in
      match found with
      | Err _ | Ok None => retF (Err BadHandle)
      | Ok (Some record) =>
          if is_err (verify record) then retF (Err Unverified)
          else if negb (bool_decide (r_user_id (sg_record record) = user_id))
          then retF (Err Unverified)
          else
            let* trust := read_store (verified.level (uid record) (r_wallet (sg_record record))) in
            match trust with
            | verified.Changed => retF (Err IdentityChanged)
            | _ =>
                let* fresh := on_store (check_and_pin (uid record) record) in
                match fresh with
                | Ok true => retF (Ok (r_handle (sg_record record), record))
                | _ => retF (Err StaleRecord)
                end
            end
      end
  end.

(** [LocalNet::load(store)] and [flow::resolve_record] through it. *)
Definition resolve_through_net (handle : str) : F S P X (result TrustError (Handle * SignedRecord)) :=
  let* net := read_store LocalNet_load in
  match net with
  | Err _ => retF (Err BadHandle)
  | Ok net => with_net net (resolve_record handle)
  end.

Definition resolve_local_record (input : str) : F S P X (result TrustError (Handle * SignedRecord)) :=
  match UserId.new input with
  | Ok user_id => resolve_user_record (UserId.as_str user_id)
  | Err _ =>
      let* contact := read_store (contacts.load input) in
      match contact with
      | Ok (Some contact) =>
          if negb (bool_decide (contacts.user_id contact = []))
          then resolve_user_record (contacts.user_id contact)
          else resolve_through_net (contacts.handle contact)
      | _ => resolve_through_net input
      end
  end.

(** ** Contacts *)
Definition save_contact_for_record (nickname : str) (record : SignedRecord) : M S unit :=
  if bool_decide (trim nickname = []) then errM (Anyhow b#"enter a name for this contact")
  else
    let! existing := readM (contacts.load nickname) in
    if match existing with
       | Some existing => negb (bool_decide (contacts.user_id existing = uid record))
       | None => false
       end
    then errM (Anyhow (b#"the name '" ++ nickname ++ b#"' is already used by another person"))
    else
      contacts.save (contacts.mkContact nickname (Handle.as_str (r_handle (sg_record record)))
                       (uid record) (r_wallet (sg_record record))).

Definition add_contact (nickname : str) (handle : Handle) : M S unit :=
  let! record := readM (λ store,
    map_err (λ _, Anyhow (b#"import a signed record for '" ++ Handle.as_str handle ++ b#"' first"))
      (require_record handle store)) in
  save_contact_for_record nickname record.

Definition add_contact_from_record (nickname : str) (record : SignedRecord) : M S unit :=
  let! _ := peerbook.put (r_handle (sg_record record)) record in
  save_contact_for_record nickname record.

Definition contact_verified (store : S) (contact : contacts.Contact) : bool :=
  match verified.get (contacts.user_id contact) store with
  | Ok (Some wallet) => bool_decide (wallet = contacts.wallet contact)
  | _ => false
  end.

Definition list_contacts (store : S) : result error (list ContactEntry) :=
  let? contacts := contacts.list_ store in
  Ok (map (λ contact, mkContactEntry (contacts.nickname contact) (contacts.handle contact)
                        (contacts.user_id contact) (contact_verified store contact)) contacts).

Definition remove_contact (nickname : str) : M S unit := contacts.remove nickname.

Definition set_blocked (user_id : str) (blocked : bool) : M S unit :=
  if blocked then blocklist.block user_id else blocklist.unblock user_id.

Definition list_blocked (store : S) : result error (list str) := blocklist.load store.

(** ** Drafts and expiry defaults, under the resolved name *)
Definition set_draft (input text : str) : M S str :=
  let! key := readM (resolve_name input) in let! _ := draft.set key text in retM key.
Definition get_draft (input : str) (store : S) : result error (str * option str) :=
  let? key := resolve_name input store in let? value := draft.get key store in Ok (key, value).
Definition clear_draft (input : str) : M S str :=
  let! key := readM (resolve_name input) in let! _ := draft.clear key in retM key.

Definition set_expiry (input : str) (ttl_secs : u64) : M S str :=
  let! key := readM (resolve_name input) in let! _ := expiry.set key ttl_secs in retM key.
Definition get_expiry (input : str) (store : S) : result error (str * option u64) :=
  let? key := resolve_name input store in let? value := expiry.get key store in Ok (key, value).
Definition clear_expiry (input : str) : M S str :=
  let! key := readM (resolve_name input) in let! _ := expiry.clear key in retM key.

(** ** Conversations *)
Definition conversation_by_handle (input : str) (store : S) : result error str :=
  let? records := peerbook.load store in
  match List.filter (λ entry, bool_decide (peerbook.handle entry = input)) records with
  | [record] => Ok (peerbook.user_id record)
  | [] => Err (Anyhow (b#"no signed record for '" ++ input ++ b#"'"))
  | _ => Err (Anyhow (b#"more than one person uses '" ++ input ++ b#"'; choose a saved contact"))
  end.

Definition conversation_user_id (input : str) (store : S) : result error str :=
  let input := trim input in
  match UserId.new input with
  | Ok user_id => Ok (UserId.as_str user_id)
  | Err _ =>
      let? contact := contacts.load input store in
      match contact with
      | Some contact =>
          if negb (bool_decide (contacts.user_id contact = [])) then Ok (contacts.user_id contact)
          else conversation_by_handle input store
      | None => conversation_by_handle input store
      end
  end.

Definition conversation_label (user_id : str) (store : S) : result error (str * str) :=
  let? contact := contacts.by_user_id user_id store in
  match contact with
  | Some contact => Ok (contacts.handle contact, contacts.nickname contact)
  | None =>
      let? user_id_value := map_err (λ _, Anyhow b#"invalid conversation identity") (UserId.new user_id) in
      let? found := peerbook.get_by_user_id user_id_value store in
      let? record := ok_or (Anyhow b#"missing signed record for conversation") found in
      let handle := Handle.as_str (r_handle (sg_record record)) in
      let display_name :=
        if bool_decide (trim (r_name (sg_record record)) = []) then handle
        else r_name (sg_record record) in
      Ok (handle, display_name)
  end.

Definition clear_history (input : str) : M S str :=
  let! key := readM (conversation_user_id input) in
  let! _ := History.clear key in retM key.

Definition history_with (input : str) (now : u64) : M S (str * list StoredMessage) :=
  let! key := readM (conversation_user_id input) in
  let! messages := History.load_active key now in retM (key, messages).

(** The loop of [conversations]. *)
Fixpoint preview_loop (now : u64) (users : list str) : M S (list ConversationPreview) :=
  match users with
  | [] => retM []
  | user_id :: rest =>
      let! messages := History.load_active user_id now in
      let! preview :=
        match head (rev messages) with
        | None => retM []
        | Some last =>
            let! (peer, display_name) := readM (conversation_label user_id) in
            retM [mkPreview user_id peer display_name (from_me last) (sm_text last) (sm_timestamp last)]
        end in
      let! out := preview_loop now rest in
      retM (preview ++ out)
  end.

(** [sort_by_key] on [Reverse(timestamp)], which is stable. *)
Definition newer (a c : ConversationPreview) : Prop := Is_true (uleb (cp_timestamp c) (cp_timestamp a)).
#[local] Instance newer_dec : RelDecision newer.
Proof. intros a c. unfold newer. apply _. Defined.

Definition conversations (now : u64) : M S (list ConversationPreview) :=
  let! users := readM peers in
  let! out := preview_loop now users in
  retM (merge_sort newer out).

(** [str::contains] *)
Fixpoint contains_text (needle s : str) : bool :=
  bool_decide (is_Some (strip needle s))
  || match s with [] => false | _ :: rest => contains_text needle rest end.

(** The search, over [str::to_lowercase], whose table of characters is Unicode's. *)
Section Search.
Context (to_lowercase : str → str).

Fixpoint search_loop (needle : str) (now : u64) (users : list str) : M S (list SearchHit) :=
  match users with
  | [] => retM []
  | user_id :: rest =>
      let! (peer, display_name) := readM (conversation_label user_id) in
      let! messages := History.load_active user_id now in
      let found := List.filter (λ m, contains_text needle (to_lowercase (sm_text m))) messages in
      let hits := map (λ m, mkHit user_id peer display_name (from_me m) (sm_text m)) found in
      let! rest := search_loop needle now rest in
      retM (hits ++ rest)
  end.

Definition search_history (query : str) (now : u64) : M S (list SearchHit) :=
  let needle := to_lowercase query in
  let! users := readM peers in
  search_loop needle now users.
End Search.

(** ** Verification of identities *)
Definition verification_info_for_record (identity : Identity) (handle : Handle)
    (record : SignedRecord) (store : S) : result error VerificationInfo :=
  let wallet := r_wallet (sg_record record) in
  Ok (mkVerification (uid record) (Handle.as_str handle) wallet
        (safety_number (Identity.wallet_public identity) wallet)
        (verified.level (uid record) wallet store)).

Definition verification_info (identity : Identity) (handle : Handle) (store : S)
    : result error VerificationInfo :=
  let? record := require_record handle store in
  let? _ := map_err (λ _, Anyhow b#"peer record failed verification") (verify record) in
  verification_info_for_record identity handle record store.

Definition mark_verified (info : VerificationInfo) : M S unit :=
  match vi_level info with
  | verified.Changed =>
      errM (Anyhow (b#"identity changed for '" ++ vi_handle info
        ++ b#"'; compare the new safety number and use --accept-change explicitly"))
  | _ => verified.mark (vi_user_id info) (vi_wallet info)
  end.

(** The loop of [accept_identity_change]. *)
Fixpoint repin_loop (info : VerificationInfo) (contacts : list contacts.Contact) : M S unit :=
  match contacts with
  | [] => retM tt
  | contact :: rest =>
      let! _ :=
        if bool_decide (contacts.user_id contact = vi_user_id info)
        then contacts.save (contacts.mkContact (contacts.nickname contact) (contacts.handle contact)
                              (contacts.user_id contact) (vi_wallet info))
        else retM tt in
      repin_loop info rest
  end.

Definition accept_identity_change (info : VerificationInfo) : M S unit :=
  match vi_level info with
  | verified.Changed =>
      let! _ := verified.mark (vi_user_id info) (vi_wallet info) in
      let! contacts := readM contacts.list_ in
      repin_loop info contacts
  | _ => errM (Anyhow (b#"'" ++ vi_handle info ++ b#"' has no changed identity to accept"))
  end.

(** ** Sending *)
Definition send_direct (identity : Identity) (me peer : Handle) (peer_record : SignedRecord)
    (app : AppMessage) (deliver : DeliveryHook S X) : F S P X (result error SendOutcome) :=
  let* blocked := read_store blocklist.load in
  match blocked with
  | Err e => retF (Err e)
  | Ok blocked =>
      if blocklist.is_blocked blocked (uid peer_record)
      then retF (Err (Anyhow b#"unblock this person before sending"))
      else
        let* my_record := read_store (require_own_record_for_identity identity me) in
        match my_record with
        | Err e => retF (Err e)
        | Ok my_record => send_app identity me my_record peer peer_record app deliver
        end
  end.

(** ** Groups *)
Fixpoint load_groups (ids : list str) (store : S) : result error (list StoredGroup) :=
  match ids with
  | [] => Ok []
  | id :: rest =>
      let? group := load_group id store in
      let? out := load_groups rest store in
      Ok (match group with Some group => group :: out | None => out end)
  end.

Definition resolve_group (key : str) (store : S) : result error StoredGroup :=
  let? found := load_group key store in
  match found with
  | Some group => Ok group
  | None =>
      let? ids := Groups.list_groups store in
      let? groups := load_groups ids store in
      match List.filter (λ group, bool_decide (sg_name group = key)) groups with
      | [group] => Ok group
      | [] => Err (Anyhow (b#"no such group '" ++ key ++ b#"'"))
      | _ => Err (Anyhow (b#"group name '" ++ key ++ b#"' is ambiguous; use the group id"))
      end
  end.

Definition list_groups (store : S) : result error (list GroupSummary) :=
  let? ids := Groups.list_groups store in
  let? groups := load_groups ids store in
  Ok (map (λ group, mkGroupSummary (sg_id group) (sg_name group) (length (sg_members group))) groups).

Definition group_history (key : str) (now : u64) : M S (StoredGroup * list GroupStoredMessage) :=
  let! group := readM (resolve_group key) in
  let! messages := group_load_active (sg_id group) now in
  retM (group, messages).

(** The loop of [create_group] over the names of the members. *)
Fixpoint stable_members (members : list str) (known : list GroupMember)
    : F S P X (result error (list GroupMember)) :=
  match members with
  | [] => retF (Ok known)
  | member :: rest =>
      let* found := resolve_local_record member in
      match found with
      | Err _ =>
          retF (Err (Anyhow (b#"unknown or ambiguous group member '" ++ member ++ b#"'")))
      | Ok (_, record) =>
          let known :=
            if has_member known (uid record) then known
            else known ++ [mkGroupMember (uid record) (Handle.as_str (r_handle (sg_record record)))] in
          stable_members rest known
      end
  end.

Definition create_group (identity : Identity) (me : Handle) (name : str) (members : list str)
    : F S P X (result error StoredGroup) :=
  let* members := stable_members members [] in
  match members with
  | Err e => retF (Err e)
  | Ok members =>
      let my_user_id := UserId.as_str (user_id (Identity.wallet_public identity)) in
      let members :=
        if has_member members my_user_id then members
        else members ++ [mkGroupMember my_user_id (Handle.as_str me)] in
      let* group := on_platform (λ p, Group.new p (my_group_id identity)) in
      let* id := on_platform random_id in
      let stored := mkStoredGroup id name members [] [] (Group.export group) in
      let stored := note_sender stored (my_group_id identity) my_user_id (Handle.as_str me) in
      let* saved := on_store (Groups.save_group stored) in
      retF (let? _ := saved in Ok stored)
  end.

Definition group_with_added_member (group : str) (member : Handle) (store : S)
    : result error StoredGroup :=
  let? stored := resolve_group group store in
  let? record := require_record member store in
  if has_member (sg_members stored) (uid record)
  then Err (Anyhow (b#"'" ++ Handle.as_str member ++ b#"' is already in '" ++ sg_name stored ++ b#"'"))
  else
    Ok (mkStoredGroup (sg_id stored) (sg_name stored)
          (sg_members stored ++ [mkGroupMember (uid record) (Handle.as_str (r_handle (sg_record record)))])
          (sg_senders stored) (sg_key_shares stored) (sg_state stored)).

Definition save_group (group : StoredGroup) : M S unit := Groups.save_group group.

(** The mutated group is returned beside the result. *)
Definition distribute_group_key (identity : Identity) (me : Handle) (my_record : SignedRecord)
    (group : StoredGroup) (targets : list GroupMember) (deliver : PairwiseDeliveryHook S X)
    : F S P X (result error unit * StoredGroup) :=
  match Group.import (sg_state group) with
  | Err _ => retF (Err (Anyhow b#"bad group state"), group)
  | Ok session =>
      let* net := read_store LocalNet_load in
      match net with
      | Err e => retF (Err e, group)
      | Ok net =>
          let* shared := with_net net
            (distribute_key identity me my_record (sg_id group) (sg_name group)
               (Group.distribution session) (sg_members group) targets (hosted_pairwise deliver)) in
          let group := note_shares group shared in
          let* saved := on_store (Groups.save_group group) in
          retF (saved, group)
      end
  end.

Definition send_group (identity : Identity) (me : Handle) (group : StoredGroup) (app : AppMessage)
    (deliver : DeliveryHook S X) : F S P X (result error SendOutcome * StoredGroup) :=
  let* net := read_store LocalNet_load in
  match net with
  | Err e => retF (Err e, group)
  | Ok net =>
      let* sender_record := read_store (require_own_record me) in
      match sender_record with
      | Err e => retF (Err e, group)
      | Ok sender_record =>
          with_net net (group_send identity me sender_record group app (hosted deliver))
      end
  end.

Definition leave_group (identity : Identity) (me : Handle) (my_record : SignedRecord)
    (group : StoredGroup) (deliver : PairwiseDeliveryHook S X) : F S P X (result error unit) :=
  let* net := read_store LocalNet_load in
  match net with
  | Err e => retF (Err e)
  | Ok net =>
      let* _ := with_net net (group_leave identity me my_record group (hosted_pairwise deliver)) in
      retF (Ok tt)
  end.

Definition process_item (identity : Identity) (me : Handle) (my_record : SignedRecord)
    (blocked : list str) (item : MailItem) (deliver : DeliveryHook S X) : F S P X ItemOutcome :=
  let* net := read_store LocalNet_load in
  match net with
  | Err _ => retF Retry
  | Ok net => with_net net (Flow.process_item identity me my_record blocked item (hosted deliver))
  end.

(** ** The local outbox *)
Definition list_outbox (store : S) : result error (list outbox.OutboxEntry) := outbox.load store.
Definition make_outbox_due : M S unit := outbox.make_all_due.

Definition due_outbox_entries (now : u64) (store : S) : result error (list outbox.OutboxEntry) :=
  let? entries := outbox.load store in
  Ok (List.filter (λ entry, outbox.is_due entry now) entries).

Definition park_outbox (delivery_id : str) (recipient : Handle) (recipient_record : SignedRecord)
    (device : Device) (item : MailItem) (now : u64) : M S unit :=
  let slot := device_slot (device_key (sd_record (signed device))) in
  outbox.enqueue delivery_id (uid recipient_record) (Handle.as_str recipient) slot item now.

Definition park_pairwise_outbox (delivery_id : str) (recipient : Handle)
    (recipient_record : SignedRecord) (device : Device) (item : MailItem) (plaintext : bytes)
    (now : u64) : M S unit :=
  let slot := device_slot (device_key (sd_record (signed device))) in
  outbox.enqueue_pairwise delivery_id (uid recipient_record) (Handle.as_str recipient) slot item
    (Some plaintext) now.

Definition mark_outbox_delivered (delivery_id : str) : M S bool := outbox.mark_delivered delivery_id.
Definition mark_outbox_failed (delivery_id : str) : M S bool := outbox.mark_failed delivery_id.
Definition record_outbox_attempt (delivery_id : str) (now : u64) (accepted : bool) : M S bool :=
  outbox.record_attempt delivery_id now accepted.

(** [{:?}] of a status. *)
Definition status_debug (s : outbox.OutboxStatus) : str :=
  match s with
  | outbox.Pending => b#"Pending" | outbox.Delivered => b#"Delivered"
  | outbox.Failed => b#"Failed" | outbox.Cancelled => b#"Cancelled"
  end.

(** Delivery ids are ASCII, so that the slice is on a character boundary. *)
Definition short_outbox_id (id : str) : str := take 12 id.

(** What a cancellation assigns; the ciphertext and the plaintext stay. *)
Definition cancelled (entry : outbox.OutboxEntry) : outbox.OutboxEntry :=
  outbox.mkEntry (outbox.id entry) (outbox.recipient_user_id entry) (outbox.recipient entry)
    (outbox.slot entry) (outbox.item entry) (outbox.created_at entry) (outbox.attempts entry)
    (U64 0) outbox.Cancelled (outbox.pairwise_plaintext entry).

Definition cancel_outbox (id : str) : M S OutboxCancel :=
  let! entries := readM outbox.load in
  if bool_decide (entries = []) then retM CancelEmpty
  else if bool_decide (id = b#"all") then
    let removed := length (List.filter outbox.is_pending entries) in
    let! _ := outbox.save
      (map (λ entry, if outbox.is_pending entry then cancelled entry else entry) entries) in
    retM (CancelAll removed)
  else
    let hit entry := bool_decide (is_Some (strip id (outbox.id entry))) in
    match List.filter hit entries with
    | [] => errM (Anyhow (b#"no pending local delivery item matches '" ++ id ++ b#"'"))
    | [entry] =>
        if negb (outbox.is_pending entry)
        then errM (Anyhow (b#"local delivery " ++ short_outbox_id (outbox.id entry) ++ b#" is already "
                     ++ status_debug (outbox.status entry)))
        else
          let! _ := outbox.save (update_first hit cancelled entries) in
          retM (CancelOne (outbox.id entry) (outbox.recipient entry))
    | matches =>
        errM (Anyhow (b#"'" ++ id ++ b#"' matches " ++ itoa (uwrap 64 (N.of_nat (length matches)))
                ++ b#" pending items; use a longer id prefix"))
    end.
End Client.
End client.
