(* ===== verification/Runtime.v ===== *)
(** * Runtime: [mycellium-client/src/runtime.rs]

    Pushing one sealed item to its device, accepting one, and the local outbox in
    between.  The Reticulum node is external; sequential functions take the store
    and the network as their state, those that share the store behind a mutex are
    programs of atomic steps: a locked section of the store, a call of the
    network, a draw of randomness. *)

From S2P Require Import Prelude Interleave Std Crypto Wire Identity UserId Records X3DH Group Message Delivery Storage FileStore LocalState Antirollback History Groups WireOps Peerbook Outbox Flow RegistryClient Client Instances.

(** [ReticulumNode]: [new(..).ok()], [send_and_wait(..).ok()] within its time
    limit, and [shutdown], over the state [H] of the host. *)
Class Reticulum (N H : Type) : Type := {
  node_new : arr 64 → H → option N * H;
  send_and_wait : N → ReticulumPublicIdentity → bytes → H → option bytes * H;
  node_shutdown : N → H → H
}.
#[global] Hint Mode Reticulum ! ! : typeclass_instances.

(** [FrameReader + FrameWriter] of one connection. *)
Class Connection (C : Type) : Type := {
  send_frame : bytes → M C unit;
  recv_frame : M C bytes
}.
#[global] Hint Mode Connection ! : typeclass_instances.

Module runtime.
(** ** [DirectNetwork], and the host behind it *)
Record DirectNetwork (N H : Type) : Type := mkNetwork {
  reticulum_private : arr 64;
  dn_reticulum : option N;
  dn_registry : option str;
  dn_running : bool;
  dn_host : H
}.
Arguments mkNetwork {N H} _ _ _ _ _.
Arguments reticulum_private {N H} _.
Arguments dn_reticulum {N H} _.
Arguments dn_registry {N H} _.
Arguments dn_running {N H} _.
Arguments dn_host {N H} _.

Record OutboxFlush : Type := mkFlush { fl_delivered : nat; fl_waiting : nat }.

(** What the threads of a client share. *)
Record Shared (S P X : Type) : Type := mkShared { sh_store : S; sh_platform : P; sh_net : X }.
Arguments mkShared {S P X} _ _ _.
Arguments sh_store {S P X} _.
Arguments sh_platform {S P X} _.
Arguments sh_net {S P X} _.

Section Network.
Context {crypto : Crypto} {N H : Type} `{!Reticulum N H, !Agent H}.
Abbreviation Net := (DirectNetwork N H).

Definition with_host (net : Net) (h : H) : Net :=
  mkNetwork (reticulum_private net) (dn_reticulum net) (dn_registry net) (dn_running net) h.

Definition network_new (private : arr 64) (h : H) : Net := mkNetwork private None None true h.
Definition with_reticulum (private : arr 64) (node : N) (h : H) : Net :=
  mkNetwork private (Some node) None true h.

Definition set_reticulum (node : N) (net : Net) : Net :=
  if negb (dn_running net) then with_host net (node_shutdown node (dn_host net))
  else mkNetwork (reticulum_private net) (Some node) (dn_registry net) (dn_running net) (dn_host net).

Definition reticulum (net : Net) : option N * Net :=
  if negb (dn_running net) then (None, net)
  else
    match dn_reticulum net with
    | Some node => (Some node, net)
    | None =>
        let '(node, h) := node_new (reticulum_private net) (dn_host net) in
        (node, mkNetwork (reticulum_private net) node (dn_registry net) (dn_running net) h)
    end.

Definition use_registry (registry_url : str) (net : Net) : Net :=
  mkNetwork (reticulum_private net) (dn_reticulum net) (Some registry_url) (dn_running net) (dn_host net).

Definition ensure_reticulum (net : Net) : result error unit * Net :=
  if negb (dn_running net) then (Err (Anyhow b#"direct network is stopped"), net)
  else
    let '(node, net) := reticulum net in
    (match node with
     | Some _ => Ok tt
     | None => Err (Anyhow b#"Reticulum network is unavailable")
     end, net).

Definition is_running (net : Net) : bool := dn_running net.

Definition shutdown (net : Net) : Net :=
  if negb (dn_running net) then net
  else
    let net := mkNetwork (reticulum_private net) (dn_reticulum net) (dn_registry net) false (dn_host net) in
    match dn_reticulum net with
    | Some node => with_host net (node_shutdown node (dn_host net))
    | None => net
    end.

Definition on_node (node : N) (destination : ReticulumPublicIdentity) (frame : bytes) (net : Net)
    : option bytes * Net :=
  let '(answer, h) := send_and_wait node destination frame (dn_host net) in (answer, with_host net h).
End Network.

Section Delivery.
Context {crypto : Crypto} `{!Postcard MailItem, !Postcard PeerFrame, !Postcard AckBody}.

Definition delivery_id_for_item (item : MailItem) : str :=
  hex (payload_digest (wire.encode item)).

Definition verify_delivery_ack (input : bytes) (delivery_id : str) (payload : bytes)
    (recipient : DevicePublicKey) : bool :=
  match wire.decode input with
  | Ok (AckFrame ack) => is_ok (ack_verify ack delivery_id payload recipient)
  | _ => false
  end.

(** The frame of a delivery. *)
Definition delivery_frame (delivery_id : str) (item : MailItem) : bytes :=
  wire.encode (DeliveryFrame delivery_id item).

Definition exchange_delivery {C} `{!Connection C} (frame : bytes) (delivery_id : str)
    (payload : bytes) (recipient : DevicePublicKey) (conn : C) : bool * C :=
  let '(sent, conn) := send_frame frame conn in
  match sent with
  | Err _ => (false, conn)
  | Ok _ =>
      let '(answer, conn) := recv_frame conn in
      match answer with
      | Err _ => (false, conn)
      | Ok input => (verify_delivery_ack input delivery_id payload recipient, conn)
      end
  end.

Definition delivery_ack (identity : Identity) (delivery_id : str) (payload : bytes) : bytes :=
  wire.encode (AckFrame (accepted identity delivery_id payload)).

Definition envelope_sender (item : MailItem) : option Envelope :=
  match item with
  | Direct env | GroupInvite env | GroupLeave env => Some env
  | GroupText _ _ => None
  end.

Definition mail_item_sender_device (item : MailItem) : option DevicePublicKey :=
  match item with
  | Direct env | GroupInvite env | GroupLeave env =>
      Some (device_key (sd_record (signed (r_device (sg_record (sender_record env))))))
  | GroupText _ message => arr_try (n := 32) (gm_sender message)
  end.
End Delivery.

Section Push.
Context {crypto : Crypto} {N H : Type} `{!Reticulum N H}
  `{!Postcard MailItem, !Postcard PeerFrame, !Postcard AckBody}.

Definition direct_push (device : Device) (delivery_id : str) (item : MailItem)
    (net : DirectNetwork N H) : bool * DirectNetwork N H :=
  let payload := wire.encode item in
  let frame := delivery_frame delivery_id item in
  let '(node, net) := reticulum net in
  match node with
  | None => (false, net)
  | Some node =>
      let '(answer, net) := on_node node (Records.reticulum device) frame net in
      match answer with
      | None => (false, net)
      | Some input =>
          (verify_delivery_ack input delivery_id payload (device_key (sd_record (signed device))), net)
      end
  end.
End Push.

(** ** Accepting a delivery *)
Section Accept.
Context {crypto : Crypto} {P : Type} `{!Platform P, !Postcard (list StorageMutation)}
  `{!Postcard IdentityClaim, !Postcard (WalletPublicKey * DeviceRecord), !Postcard DeviceRecord,
    !Postcard ReachabilityRecord, !Postcard VersionPins, !Postcard WalletPublicKey,
    !Postcard contacts.Contact, !Postcard (list str), !Postcard (list (str * str)),
    !Postcard AppMessage, !Postcard attachments.StoredAttachment, !Postcard StoredGroup,
    !Postcard (list StoredMessage), !Postcard (list GroupStoredMessage), !Postcard SegMeta,
    !Postcard (list peerbook.PeerRecord), !Json GroupInvitePayload, !Json GroupLeavePayload,
    !Postcard outbox.OutboxEntry, !Postcard (list outbox.OutboxEntry),
    !Postcard (list outbox.LegacyOutboxEntry), !Postcard inbox.AcceptedDelivery,
    !Postcard (list inbox.AcceptedDelivery), !Postcard MailItem, !Postcard PeerFrame,
    !Postcard AckBody}.

Definition sender_identity_changed {S} `{!Storage S} (item : MailItem) (store : S) : bool :=
  match envelope_sender item with
  | None => false
  | Some env =>
      match verified.level (uid (sender_record env)) (r_wallet (sg_record (sender_record env))) store with
      | verified.Changed => true
      | _ => false
      end
  end.

Definition remember_sender {S} `{!Storage S} (item : MailItem) : M S unit :=
  match envelope_sender item with
  | Some env => peerbook.put (from env) (sender_record env)
  | None => retM tt
  end.

(** [park_pairwise_outbox] or [park_outbox]. *)
Definition park {S} `{!Storage S} (delivery_id : str) (handle : Handle) (record : SignedRecord)
    (device : Device) (item : MailItem) (pairwise_plaintext : option bytes) (now : u64) : M S unit :=
  match pairwise_plaintext with
  | Some plaintext => client.park_pairwise_outbox delivery_id handle record device item plaintext now
  | None => client.park_outbox delivery_id handle record device item now
  end.

(** The closure of [accept_delivery]: everything the item makes this device send
    is parked. *)
Definition park_all {S} `{!Storage S} (now : u64) : DeliveryHook S unit :=
  λ handle record device item pairwise_plaintext store x,
    let '(parked, store) :=
      park (delivery_id_for_item item) handle record device item pairwise_plaintext now store in
    (match parked with Ok _ => reachability.Outbox | Err _ => reachability.Failed end, store, x).

(** What is done in the transaction: the events, or nothing to be kept. *)
Definition accept_staged (identity : Identity) (me : Handle) (my_record : SignedRecord)
    (blocked : list str) (delivery_id : str) (digest : PayloadDigest) (item : MailItem)
    (platform : P) (tx : FileTransaction)
    : option (list FlowEvent) * P * FileTransaction :=
  let '(remembered, tx) := remember_sender item tx in
  match remembered with
  | Err _ => (None, platform, tx)
  | Ok _ =>
      let now := now_unix_secs platform in
      let '(outcome, w) :=
        client.process_item identity me my_record blocked item (park_all now)
          (mkWorld tx platform [] tt) in
      match outcome with
      | Accepted =>
          let '(recorded, tx) := inbox.record delivery_id digest now (w_store w) in
          (match recorded with Ok _ => Some (w_events w) | Err _ => None end, w_platform w, tx)
      | _ => (None, w_platform w, w_store w)
      end
  end.

(** The acknowledgement to send, and the events for the sink. *)
Definition accept_delivery (identity : Identity) (me : Handle) (my_record : SignedRecord)
    (delivery_id : str) (item : MailItem) (platform : P) (store : FileStore)
    : option bytes * list FlowEvent * P * FileStore :=
  if bool_decide (delivery_id = []) || (MAX_DELIVERY_ID_LEN <? length delivery_id)%nat
     || negb (bool_decide (delivery_id = delivery_id_for_item item))
  then (None, [], platform, store)
  else
    let payload := wire.encode item in
    let digest := payload_digest payload in
    match inbox.seen delivery_id digest store with
    | Ok inbox.Duplicate => (Some (delivery_ack identity delivery_id payload), [], platform, store)
    | Ok inbox.Collision | Err _ => (None, [], platform, store)
    | Ok inbox.New =>
        if sender_identity_changed item store then (None, [], platform, store)
        else
          match blocklist.load store with
          | Err _ => (None, [], platform, store)
          | Ok blocked =>
              let '(done, platform, tx) :=
                accept_staged identity me my_record blocked delivery_id digest item platform
                  (transaction store) in
              match done with
              | None => (None, [], platform, ft_store tx)
              | Some events =>
                  let '(committed, store) := commit tx in
                  match committed with
                  | Err _ => (None, [], platform, store)
                  | Ok _ => (Some (delivery_ack identity delivery_id payload), events, platform, store)
                  end
              end
          end
    end.
End Accept.

(** ** Delivering *)
Section Deliver.
Context {crypto : Crypto} {S P N H : Type} `{!Storage S, !Platform P, !Reticulum N H, !Agent H}
  `{!Postcard IdentityClaim, !Postcard (WalletPublicKey * DeviceRecord), !Postcard DeviceRecord,
    !Postcard ReachabilityRecord, !Postcard VersionPins, !Postcard (list str),
    !Postcard SignedRecord, !Postcard (list peerbook.PeerRecord),
    !Postcard outbox.OutboxEntry, !Postcard (list outbox.OutboxEntry),
    !Postcard (list outbox.LegacyOutboxEntry), !Postcard MailItem, !Postcard PeerFrame,
    !Postcard AckBody}.
Abbreviation Net := (DirectNetwork N H).

Definition deliver_direct (device : Device) (delivery_id : str) (item : MailItem) (now : u64)
    (store : S) (net : Net) : reachability.DeliveryPath * S * Net :=
  let key := device_slot (device_key (sd_record (signed device))) in
  let '(ok, net) := direct_push device delivery_id item net in
  let '(_, store) := reachability.record key reachability.Direct ok now store in
  (if ok then reachability.Direct else reachability.Failed, store, net).

(** [deliver_or_park] and [deliver_pairwise_or_park], which differ in what they
    park. *)
Definition deliver_or_park (recipient : Handle) (recipient_record : SignedRecord) (device : Device)
    (item : MailItem) (pairwise_plaintext : option bytes) (now : u64) (store : S) (net : Net)
    : reachability.DeliveryPath * S * Net :=
  let delivery_id := delivery_id_for_item item in
  let '(parked, store) :=
    park delivery_id recipient recipient_record device item pairwise_plaintext now store in
  match parked with
  | Err _ => (reachability.Failed, store, net)
  | Ok _ =>
      let '(path, store, net) := deliver_direct device delivery_id item now store net in
      if reachability.is_delivered path then
        let '(_, store) := client.mark_outbox_delivered delivery_id store in
        (reachability.Direct, store, net)
      else (reachability.Outbox, store, net)
  end.

(** ** The shared store: programs of atomic steps *)
Abbreviation Pr A := (Prog (Shared S P Net) error A).

(** [store.lock()?] around one use of the store. *)
Definition locked {A} (m : M S A) : Pr A :=
  atomic (λ s, let '(r, store) := m (sh_store s) in (r, mkShared store (sh_platform s) (sh_net s))).
Definition on_net {A} (f : Net → A * Net) : Pr A :=
  atomic (λ s, let '(a, net) := f (sh_net s) in (Ok a, mkShared (sh_store s) (sh_platform s) net)).
Definition on_random {A} (f : P → A * P) : Pr A :=
  atomic (λ s, let '(a, p) := f (sh_platform s) in (Ok a, mkShared (sh_store s) p (sh_net s))).

(** [direct_push], the node fetched before it is used. *)
Definition push (device : Device) (delivery_id : str) (item : MailItem) : Pr bool :=
  let# node := on_net reticulum in
  match node with
  | None => okP false
  | Some node =>
      let# answer := on_net (on_node node (Records.reticulum device) (delivery_frame delivery_id item)) in
      match answer with
      | None => okP false
      | Some input =>
          okP (verify_delivery_ack input delivery_id (wire.encode item)
                 (device_key (sd_record (signed device))))
      end
  end.

Definition attempt_parked_delivery (device : Device) (delivery_id : str) (item : MailItem) (now : u64)
    : Pr bool :=
  let# accepted := push device delivery_id item in
  let# _ := locked (
    let slot := device_slot (device_key (sd_record (signed device))) in
    let! _ := reachability.record slot reachability.Direct accepted now in
    outbox.record_attempt delivery_id now accepted) in
  okP accepted.

(** The registry remembered by the network, then the request to it. *)
Definition current_registry_record (u : UserId) : Pr (option SignedRecord) :=
  let# presence := on_net (λ net, (dn_registry net, net)) in
  match presence with
  | None => okP None
  | Some registry_url =>
      let# registry := Ret (RegistryClient_new registry_url) in
      atomic (λ s,
        let '(r, h) := get_record_for_user registry (UserId.as_str u) (dn_host (sh_net s)) in
        (r, mkShared (sh_store s) (sh_platform s) (with_host (sh_net s) h)))
  end.

Definition readdress_pairwise (identity : Identity) (item : MailItem) (device : Device)
    (plaintext : bytes) (platform : P) : result error MailItem * P :=
  let reseal envelope wrap :=
    if is_err (verify (sender_record envelope))
       || negb (bool_decide (r_wallet (sg_record (sender_record envelope)) = Identity.wallet_public identity))
       || negb (bool_decide (device_key (sd_record (signed (r_device (sg_record (sender_record envelope)))))
                             = Identity.device_public identity))
    then (Err (Anyhow b#"outbox sender identity does not match this device"), platform)
    else
      let '(sealed, platform) :=
        seal_to_with_record platform identity (from envelope) (sender_record envelope) device plaintext in
      ((let? sealed := sealed in Ok (wrap sealed)), platform) in
  match item with
  | Direct envelope => reseal envelope Direct
  | GroupInvite envelope => reseal envelope GroupInvite
  | GroupLeave envelope => reseal envelope GroupLeave
  | GroupText _ _ => (Err (Anyhow b#"group ciphertext is not pairwise"), platform)
  end.

(** One iteration of [flush_shared_outbox]: whether the entry was delivered. *)
Definition flush_entry (identity : Identity) (now : u64) (entry : outbox.OutboxEntry) : Pr bool :=
  let id := outbox.id entry in
  let abandon := let# _ := locked (outbox.mark_failed id) in okP false in
  let retry_later := let# _ := locked (outbox.record_attempt id now false) in okP false in
  match UserId.new (outbox.recipient_user_id entry) with
  | Err _ => abandon
  | Ok user_id =>
      catchP (current_registry_record user_id) (λ fetched,
      let# _ :=
        match fetched with
        | Ok (Some record) =>
            locked (tryM (client.apply_registry_record (UserId.as_str user_id) record))
        | _ => okP (Ok true)
        end in
      let# record := locked (readM (peerbook.get_by_user_id user_id)) in
      match record with
      | None => retry_later
      | Some record =>
          if is_err (verify record) then retry_later
          else
            let device := r_device (sg_record record) in
            match outbox.item entry with
            | None => abandon
            | Some original_item =>
                let current_slot := device_slot (device_key (sd_record (signed device))) in
                if negb (bool_decide (current_slot = outbox.slot entry)) then
                  match outbox.pairwise_plaintext entry with
                  | None => abandon
                  | Some plaintext =>
                      let# new_item := on_random
                        (readdress_pairwise identity original_item device plaintext) in
                      match new_item with
                      | Err _ => abandon
                      | Ok new_item =>
                          let new_id := delivery_id_for_item new_item in
                          let# replaced := locked
                            (outbox.readdress_pending id new_id current_slot new_item) in
                          if negb replaced then okP false
                          else attempt_parked_delivery device new_id new_item now
                      end
                  end
                else attempt_parked_delivery device id original_item now
            end
      end)
  end.

Fixpoint flush_loop (identity : Identity) (now : u64) (entries : list outbox.OutboxEntry) : Pr nat :=
  match entries with
  | [] => okP 0%nat
  | entry :: rest =>
      let# delivered := flush_entry identity now entry in
      let# n := flush_loop identity now rest in
      okP ((if delivered : bool then 1 else 0) + n)%nat
  end.

Definition flush_shared_outbox (identity : Identity) (now : u64) : Pr OutboxFlush :=
  let# entries := locked (readM (client.due_outbox_entries now)) in
  let# delivered := flush_loop identity now entries in
  let# waiting := locked (readM outbox.len) in
  okP (mkFlush delivered waiting).

(** [None] when the entry was completed concurrently or cannot be readdressed. *)
Definition readdress_parked_delivery (identity : Identity) (entry : outbox.OutboxEntry)
    (device : Device) (platform : P) (store : S)
    : result error (option (str * MailItem)) * P * S :=
  match outbox.item entry with
  | None => (Err (Anyhow b#"pending outbox entry has no ciphertext"), platform, store)
  | Some item =>
      let slot := device_slot (device_key (sd_record (signed device))) in
      if bool_decide (slot = outbox.slot entry)
      then (Ok (Some (outbox.id entry, item)), platform, store)
      else
        match outbox.pairwise_plaintext entry with
        | None => (Ok None, platform, store)
        | Some plaintext =>
            let '(new_item, platform) := readdress_pairwise identity item device plaintext platform in
            match new_item with
            | Err e => (Err e, platform, store)
            | Ok item =>
                let id := delivery_id_for_item item in
                let '(replaced, store) :=
                  outbox.readdress_pending (outbox.id entry) id slot item store in
                ((let? replaced := replaced in Ok (if replaced : bool then Some (id, item) else None)),
                 platform, store)
            end
        end
  end.
End Deliver.
End runtime.
