(* ===== verification/Shell.v ===== *)
(** * Shell: what the user interfaces add to the client library

    Serving an inbound frame ([mycellium-mobile/src/lib.rs],
    [mycellium-linux/src/main.rs], [mycellium-cli/src/app/mod.rs]), the retry
    loops of the command line client and its use of the DHT.  Printing is left
    out; replies and events are values. *)

From S2P Require Import Prelude Interleave Std Crypto Wire Identity UserId Records X3DH Group Message Delivery Storage FileStore LocalState Antirollback History Groups WireOps Peerbook Outbox Flow RegistryClient Client Runtime Instances.

(** ** An inbound frame of the native clients *)
Section Serve.
Context {crypto : Crypto} {P : Type} `{!Platform P, !Postcard (list StorageMutation)}
  `{!Postcard IdentityClaim, !Postcard (WalletPublicKey * DeviceRecord), !Postcard DeviceRecord,
    !Postcard ReachabilityRecord, !Postcard VersionPins, !Postcard WalletPublicKey,
    !Postcard contacts.Contact, !Postcard (list str), !Postcard (list (str * str)),
    !Postcard AppMessage, !Postcard attachments.StoredAttachment, !Postcard StoredGroup,
    !Postcard (list StoredMessage), !Postcard (list GroupStoredMessage), !Postcard SegMeta,
    !Postcard (list peerbook.PeerRecord), !Json GroupInvitePayload, !Json GroupLeavePayload,
    !Postcard outbox.OutboxEntry, !Postcard (list outbox.OutboxEntry),
    !Postcard (list outbox.LegacyOutboxEntry), !Postcard inbox.AcceptedDelivery,
    !Postcard (list inbox.AcceptedDelivery), !Postcard MailItem, !Postcard PeerFrame,
    !Postcard AckBody}.

(** The reply, if any, and the events. *)
Definition serve_connection (running device_current : bool) (identity : Identity)
    (own_record : option SignedRecord) (input : bytes) (platform : P) (store : FileStore)
    : option bytes * list FlowEvent * P * FileStore :=
  let nothing := (None, [], platform, store) in
  if negb running || negb device_current then nothing
  else
    match wire.decode input with
    | Ok (DeliveryFrame delivery_id item) =>
        match runtime.mail_item_sender_device item with
        | None => nothing
        | Some _ =>
            match own_record with
            | None => nothing
            | Some record =>
                runtime.accept_delivery identity (r_handle (sg_record record)) record delivery_id item
                  platform store
            end
        end
    | _ => nothing
    end.

(** ** The same for the command line client, which answers discovery as well *)
Definition serve_reticulum_frame (identity : Identity) (me : Handle) (my_record : SignedRecord)
    (input : bytes) (platform : P) (store : FileStore)
    : option bytes * list FlowEvent * P * FileStore :=
  match wire.decode input with
  | Err _ => (None, [], platform, store)
  | Ok (DiscoveryRequest want) =>
      let records := match client.discovery_records want store with Ok l => l | Err _ => [] end in
      (Some (wire.encode (DiscoveryResponse records)), [], platform, store)
  | Ok (DiscoveryResponse records) =>
      let '(_, store) := client.import_discovery_records records store in (None, [], platform, store)
  | Ok (DeliveryFrame delivery_id item) =>
      runtime.accept_delivery identity me my_record delivery_id item platform store
  | Ok (AckFrame _) => (None, [], platform, store)
  end.
End Serve.

Module cli.
(** ** Retrying in the background *)
Inductive Target : Type := TDevice (device : Device) | TRetry | TDrop.

Section Retry.
Context {crypto : Crypto} {S P N H : Type} `{!Storage S, !Platform P, !Reticulum N H}
  `{!Postcard IdentityClaim, !Postcard (WalletPublicKey * DeviceRecord),
    !Postcard ReachabilityRecord, !Postcard (list str), !Postcard (list peerbook.PeerRecord),
    !Postcard outbox.OutboxEntry, !Postcard (list outbox.OutboxEntry),
    !Postcard (list outbox.LegacyOutboxEntry), !Postcard MailItem, !Postcard PeerFrame,
    !Postcard AckBody}.
Abbreviation Pr A := (Prog (runtime.Shared S P (runtime.DirectNetwork N H)) error A).

Definition target_of (entry : outbox.OutboxEntry) (store : S) : Target :=
  match UserId.new (outbox.recipient_user_id entry) with
  | Ok user_id =>
      match peerbook.get_by_user_id user_id store with
      | Ok (Some record) =>
          if is_ok (verify record) then TDevice (r_device (sg_record record)) else TDrop
      | Ok None | Err _ => TRetry
      end
  | Err _ => TDrop
  end.

(** [if let Ok(mut fs) = fs.lock() { let _ = ...; }] *)
Definition ignoring {A} (m : M S A) : Pr unit :=
  let# _ := runtime.locked (tryM m) in okP tt.

(** One iteration of [retry_due_deliveries]. *)
Definition retry_entry (identity : Identity) (now : u64) (entry : outbox.OutboxEntry) : Pr unit :=
  let# target := runtime.locked (readM (λ store, Ok (target_of entry store))) in
  match target with
  | TDrop => ignoring (client.mark_outbox_failed (outbox.id entry))
  | TRetry => ignoring (client.record_outbox_attempt (outbox.id entry) now false)
  | TDevice device =>
      let# prepared := Atom (λ s,
        let '(r, p, store) := runtime.readdress_parked_delivery identity entry device
                                (runtime.sh_platform s) (runtime.sh_store s) in
        (r, runtime.mkShared store p (runtime.sh_net s))) (λ r, Ret (Ok r)) in
      match prepared with
      | Ok (Some (delivery_id, item)) =>
          let# accepted := runtime.push device delivery_id item in
          ignoring (
            let! _ := tryM (reachability.record (device_slot (device_key (sd_record (signed device))))
                              reachability.Direct accepted now) in
            client.record_outbox_attempt delivery_id now accepted)
      | _ => ignoring (client.mark_outbox_failed (outbox.id entry))
      end
  end.

Fixpoint retry_loop (identity : Identity) (now : u64) (due : list outbox.OutboxEntry) : Pr unit :=
  match due with
  | [] => okP tt
  | entry :: rest =>
      let# _ := retry_entry identity now entry in retry_loop identity now rest
  end.

Definition retry_due_deliveries (identity : Identity) : Pr unit :=
  let# now := runtime.on_random (λ p, (now_unix_secs p, p)) in
  let# due := runtime.locked (tryM (readM (client.due_outbox_entries now))) in
  match due with
  | Err _ => okP tt
  | Ok due => retry_loop identity now due
  end.
End Retry.
End cli.
