(* ===== verification/Once.v ===== *)
(** * Once: operations that write the store once

    An operation that reads and then makes one write is atomic on any lawful
    store: when the store fails, it has had its whole effect or none.  The
    operations of the outbox are of this form. *)

From S2P Require Import Prelude Crypto Wire Identity UserId Records Message Storage LocalState Groups Outbox OutboxProps Instances.

Section Once.
Context {S : Type} `{!Storage S, !LawfulStorage S}.

(** As [sim], with the effect of a failed call bounded. *)
Definition once {A} (m : M S A) (m' : M Mem A) : Prop :=
  ∀ s, st_wf s →
    st_wf (m s).2 ∧
    (((m s).1 = (m' (st_view s)).1 ∧ st_view (m s).2 = (m' (st_view s)).2) ∨
     ∃ msg, (m s).1 = Err (StorageError msg) ∧
       (st_view (m s).2 = st_view s ∨ st_view (m s).2 = (m' (st_view s)).2)).

Lemma once_ret {A} (a : A) : once (retM a) (retM a).
Proof. intros s Hs. simpl. auto. Qed.
Lemma once_err {A} e : once (A := A) (errM e) (errM e).
Proof. intros s Hs. simpl. auto. Qed.
Lemma once_batch l : once (st_apply_batch l) (st_apply_batch l).
Proof.
  intros s Hs. destruct (st_apply_batch_law s l Hs) as (r & s' & -> & Hwf & H). simpl.
  split; [done|]. destruct H as [[-> ->]|(msg & -> & H)]; [by left|right; by exists msg].
Qed.

(** Reads come first, pure steps last. *)
Lemma once_read {A B} (f : S → result error A) f' (k : A → M S B) k' :
  simr f f' → (∀ a, once (k a) (k' a)) → once (bindM (readM f) k) (bindM (readM f') k').
Proof.
  intros Hf Hk s Hs. unfold bindM, readM. destruct (Hf s Hs) as [->|[msg ->]].
  - destruct (f' (st_view s)) as [a|e]; [by apply Hk|simpl; auto].
  - split; [done|]. right. exists msg. by split; [|left].
Qed.
Lemma once_tail {A B} (m : M S A) m' (c : B) :
  once m m' → once (bindM m (λ _, retM c)) (bindM m' (λ _, retM c)).
Proof.
  intros Hm s Hs. destruct (Hm s Hs) as [Hwf H]. unfold bindM.
  destruct (m s) as [[a|e] s1], (m' (st_view s)) as [[a'|e'] s1']; cbn [fst snd retM] in *;
    (split; [done|]); destruct H as [[H1 H2]|(msg & H1 & H2)]; try discriminate H1.
  - by left.
  - injection H1 as ->. right. by exists msg.
  - left. by injection H1 as ->.
  - injection H1 as ->. right. by exists msg.
Qed.
End Once.

Section Outbox.
Import outbox.
Context {crypto : Crypto} {S : Type} `{!Storage S, !LawfulStorage S, !Postcard OutboxEntry,
  !Postcard (list OutboxEntry), !Postcard (list LegacyOutboxEntry), !Postcard (list str)}.

Lemma save_once es : once (S := S) (save es) (save es).
Proof.
  apply once_read; [apply old_ids_simr|]. intros old. cbv zeta.
  destruct (negb _); [apply once_err|].
  apply once_read; [apply changed_entries_simr|]. intros ms.
  apply once_read; [apply put_if_changed_simr|]. intros index.
  apply once_read; [eauto with sim|]. intros legacy. apply once_tail, once_batch.
Qed.

Lemma enqueue_once i to sl it pt now t :
  once (S := S) (enqueue_at i to sl it pt now t) (enqueue_at i to sl it pt now t).
Proof.
  unfold enqueue_at. destruct to. apply once_read; [apply outbox_load_simr|]. intros es.
  destruct (List.find _ es); [|apply save_once]. destruct (_ && _); [apply once_ret|apply once_err].
Qed.

Lemma run_once o : once (S := S) (run o) (run o).
Proof.
  assert (∀ i s, once (S := S) (set_status i s) (set_status i s)) as Hmark.
  { intros i s. apply once_read; [apply outbox_load_simr|]. intros es. cbv zeta.
    destruct (existsb _ es); [apply once_tail, save_once|apply (once_ret false)]. }
  destruct o; cbn [run]; try apply Hmark.
  - apply once_tail, enqueue_once.
  - apply once_tail. apply once_read; [apply outbox_load_simr|]. intros es. apply save_once.
  - apply once_read; [apply outbox_load_simr|]. intros es. cbv zeta.
    destruct (negb _); [apply once_ret|apply once_tail, save_once].
  - apply once_read; [apply outbox_load_simr|]. intros es. cbv zeta.
    destruct (_ && _); [apply once_err|].
    destruct (List.find _ es); [apply once_tail, save_once|apply once_ret].
Qed.

(** What an operation leaves of the queue, the failures of the store included. *)
Lemma run_queue o (s : S) es :
  st_wf s → queue (st_view s) es →
  let '(r, s') := run o s in
  st_wf s' ∧ ((r = (spec o es).1 ∧ queue (st_view s') (spec o es).2) ∨
    ∃ msg, r = Err (StorageError msg) ∧ (queue (st_view s') es ∨ queue (st_view s') (spec o es).2)).
Proof.
  intros Hwf Hq. destruct (run_once o s Hwf) as [Hwf' H].
  destruct (run_spec (st_view s) es o Hq) as (m' & Hm & Hq'). rewrite Hm in H.
  destruct (run o s) as [r s']. cbn [fst snd] in *. split; [done|].
  destruct H as [[-> ->]|(msg & -> & [->| ->])]; eauto 6.
Qed.
End Outbox.
