(* ===== verification/Frame.v ===== *)
(** * Frame: what the engine writes

    A relation between a store and what a call leaves of it that every write of
    the engine's own keys respects is respected by whole programs: the flow, the
    peer book, the outbox, the transcripts.  The accepted deliveries are the one
    part of the store that none of them writes. *)

From S2P Require Import Prelude Crypto Wire Identity UserId Records X3DH Group Message Delivery Storage FileStore LocalState Antirollback History HistoryProps Groups WireOps Peerbook Outbox Flow Client Runtime Instances.

(** Every key but those of the accepted deliveries. *)
Definition engine_key (k : bytes) : Prop := take 2 k ≠ b#"ac".
Create HintDb frame.
#[export] Hint Extern 1 (engine_key _) => (let H := fresh in intros H; discriminate H) : frame.

(** ** Relations respected by the writes of the keys in [K] *)
Record Frame {S : Type} `{!Storage S} (K : bytes → Prop) (R : S → S → Prop) : Prop := {
  frame_preorder : PreOrder R;
  frame_put s k v : K k → R s (st_put k v s).2;
  frame_delete s k : K k → R s (st_delete k s).2;
  frame_batch s l : (∀ u, u ∈ l → K (mutation_key u)) → R s (st_apply_batch l s).2
}.

Section Framed.
Context {S : Type} `{!Storage S} (K : bytes → Prop) (R : S → S → Prop) (HR : Frame K R).

Definition framed {A} (m : M S A) : Prop := ∀ s, R s (m s).2.

Lemma framed_ret {A} (a : A) : framed (retM a).
Proof. intros s. apply (frame_preorder K R HR). Qed.
Lemma framed_err {A} e : framed (errM (A := A) e).
Proof. intros s. apply (frame_preorder K R HR). Qed.
Lemma framed_lift {A} (r : result error A) : framed (liftM r).
Proof. intros s. apply (frame_preorder K R HR). Qed.
Lemma framed_read {A} (f : S → result error A) : framed (readM f).
Proof. intros s. apply (frame_preorder K R HR). Qed.
Lemma framed_bind {A B} (m : M S A) (k : A → M S B) :
  framed m → (∀ a, framed (k a)) → framed (bindM m k).
Proof.
  intros Hm Hk s. unfold bindM. specialize (Hm s). destruct (m s) as [[a|e] s1]; [|done].
  destruct (frame_preorder K R HR) as [_ Ht]. eapply Ht; [exact Hm|apply Hk].
Qed.
(** A call whose answer the writes depend on. *)
Lemma framed_bind_out {A B} (m : M S A) (k : A → M S B) :
  framed m → (∀ s a, (m s).1 = Ok a → framed (k a)) → framed (bindM m k).
Proof.
  intros Hm Hk s. unfold bindM. specialize (Hm s). specialize (Hk s).
  destruct (m s) as [[a|e] s1]; [|done]. destruct (frame_preorder K R HR) as [_ Ht].
  eapply Ht; [exact Hm|]. by apply Hk.
Qed.
Lemma framed_put k v : K k → framed (st_put k v).
Proof. intros Hk s. by apply HR. Qed.
Lemma framed_delete k : K k → framed (st_delete k).
Proof. intros Hk s. by apply HR. Qed.
Lemma framed_batch l : Forall (λ u, K (mutation_key u)) l → framed (st_apply_batch l).
Proof. intros Hl s. apply HR. by apply list.Forall_forall. Qed.
End Framed.

#[export] Hint Resolve framed_ret framed_err framed_lift framed_read framed_put framed_delete : frame.
#[export] Hint Extern 2 (framed _ (st_apply_batch _)) =>
  (eapply framed_batch; [eassumption|repeat constructor; intros H; discriminate H]) : frame.

Ltac frame_step :=
  lazymatch goal with
  | |- ∀ _, _ => intro
  | |- framed _ (match ?x with _ => _ end) => destruct x
  | |- framed _ (bindM _ _) => eapply framed_bind; [eassumption| |]
  | _ => solve [eauto with frame]
  end.
Ltac solve_frame := cbv zeta; repeat frame_step.

(** ** Lawful stores *)
Section Lawful.
Context {S : Type} `{!Storage S, !LawfulStorage S} (K : bytes → Prop).

(** The keys outside [K] keep what they hold, whatever fails. *)
Definition aside (s s' : S) : Prop :=
  st_wf s → st_wf s' ∧ ∀ k, ¬ K k → st_view s' !! k = st_view s !! k.

Lemma lawful_frame : Frame K aside.
Proof.
  assert (∀ s s' u, (st_view s' = st_view s ∨ st_view s' = apply_mutation (st_view s) u) →
    K (mutation_key u) → ∀ k, ¬ K k → st_view s' !! k = st_view s !! k) as Hone.
  { intros s s' u [->| ->] Hu k Hk; [done|]. assert (mutation_key u ≠ k) as Hne by (by intros <-).
    destruct u; cbn [apply_mutation mutation_key] in *;
      [by rewrite lookup_insert_ne|by rewrite lookup_delete_ne]. }
  split.
  - split; [done|]. intros s1 s2 s3 H1 H2 Hwf. destruct (H1 Hwf) as [Hw2 Hv2].
    destruct (H2 Hw2) as [Hw3 Hv3]. split; [done|]. intros k Hk. by rewrite Hv3, Hv2.
  - intros s k v Hk Hwf. destruct (st_put_law s k v Hwf) as (r & s' & E & Hw & H).
    unfold snd. rewrite E. split; [done|]. apply (Hone _ _ (Put k v)); [|done]. naive_solver.
  - intros s k Hk Hwf. destruct (st_delete_law s k Hwf) as (r & s' & E & Hw & H).
    unfold snd. rewrite E. split; [done|]. apply (Hone _ _ (Delete k)); [|done]. naive_solver.
  - intros s l Hl Hwf. destruct (st_apply_batch_law s l Hwf) as (r & s' & E & Hw & H).
    unfold snd. rewrite E. split; [done|]. intros k Hk.
    assert (fold_left apply_mutation l (st_view s) !! k = st_view s !! k) as Hf.
    { pose proof (modifies_batch K l Hl (st_view s) k Hk) as Hm. exact Hm. }
    destruct H as [[_ ->]|(msg & _ & [->| ->])]; done.
Qed.
End Lawful.

(** ** The peer book *)
Section Book.
Context {crypto : Crypto} {S : Type} `{!Storage S} (K : bytes → Prop) (R : S → S → Prop)
  (HR : Frame K R) (Hpins : ∀ u w, K (Antirollback.key u w)) (Hbook : K peerbook.KEY)
  `{!Postcard IdentityClaim, !Postcard (WalletPublicKey * DeviceRecord), !Postcard DeviceRecord,
    !Postcard ReachabilityRecord, !Postcard VersionPins, !Postcard (list peerbook.PeerRecord)}.

Lemma framed_pin_in u record : framed R (check_and_pin u record).
Proof. unfold check_and_pin. solve_frame. Qed.
Lemma framed_book_in h r : framed R (peerbook.put h r).
Proof. unfold peerbook.put, peerbook.save. solve_frame; apply framed_pin_in. Qed.
End Book.

(** ** The components *)
Section Components.
Context {crypto : Crypto} {S : Type} `{!Storage S} (R : S → S → Prop) (HR : Frame engine_key R)
  `{!Postcard IdentityClaim, !Postcard (WalletPublicKey * DeviceRecord), !Postcard DeviceRecord,
    !Postcard ReachabilityRecord, !Postcard VersionPins, !Postcard WalletPublicKey,
    !Postcard contacts.Contact, !Postcard (list str), !Postcard (list (str * str)),
    !Postcard AppMessage, !Postcard attachments.StoredAttachment, !Postcard StoredGroup,
    !Postcard (list StoredMessage), !Postcard (list GroupStoredMessage), !Postcard SegMeta,
    !Postcard (list peerbook.PeerRecord), !Postcard outbox.OutboxEntry,
    !Postcard (list outbox.OutboxEntry), !Postcard (list outbox.LegacyOutboxEntry)}.
#[local] Abbreviation framed := (framed R).

Lemma framed_names id name : framed (names.note id name).
Proof. unfold names.note. solve_frame. Qed.
Lemma framed_attachment a : framed (attachments.save a).
Proof. unfold attachments.save. solve_frame. Qed.
Lemma framed_save_group g : framed (save_group g).
Proof. unfold save_group. solve_frame. destruct (negb _); cbn [app]; eauto with frame. Qed.
Lemma framed_remove_group g : framed (remove_group g).
Proof. unfold remove_group. solve_frame. Qed.
Lemma framed_pin u record : framed (check_and_pin u record).
Proof. apply (framed_pin_in engine_key R HR). intros u' w' H. discriminate H. Qed.
Lemma framed_book_put h r : framed (peerbook.put h r).
Proof. apply (framed_book_in engine_key R HR); [intros u' w'|]; intros H; discriminate H. Qed.

(** *** Transcripts *)
Section Thread.
Context {T : Type} `{!Postcard (list T)} (prefix id label : str)
  (Hprefix : ∀ k, thread_key prefix id k → engine_key k).

Lemma framed_prune (drop_ : T → bool) ixs : framed (prune_loop prefix id label drop_ ixs).
Proof.
  induction ixs as [|i ixs IH]; cbn [prune_loop]; solve_frame.
  apply (framed_put engine_key R); [done|]. apply Hprefix. left. by exists i.
Qed.
Lemma framed_delete_segments (remove : T → bool) : framed (delete_segments prefix id label remove).
Proof.
  apply (framed_bind engine_key R); [done|eauto with frame|]. intros n.
  apply (framed_bind engine_key R); [done|apply framed_prune|]. eauto with frame.
Qed.
Lemma framed_edit_loop (hit : T → bool) change ixs :
  framed (edit_loop prefix id label hit change ixs).
Proof.
  induction ixs as [|i ixs IH]; cbn [edit_loop]; solve_frame.
  apply (framed_put engine_key R); [done|]. apply Hprefix. left. by exists i.
Qed.
Lemma append_mutations_engine (x : T) (s : S) ms :
  append_segment_mutations prefix id x label s = Ok ms →
  Forall (λ u, engine_key (mutation_key u)) ms.
Proof.
  intros H. apply list.Forall_forall. intros u Hu. apply Hprefix.
  exact (append_mutations_keys prefix id label x s ms H u Hu).
Qed.
End Thread.

Lemma hist_engine peer k : thread_key HIST peer k → engine_key k.
Proof. intros [[i ->]| ->] H; discriminate H. Qed.
Lemma ghist_engine g k : thread_key GHIST g k → engine_key k.
Proof. intros [[i ->]| ->] H; discriminate H. Qed.

Lemma framed_append peer msg : framed (History.append peer msg).
Proof.
  unfold History.append. apply (framed_bind engine_key R); [done|solve_frame|]. intros inserted.
  apply (framed_bind engine_key R); [done|eauto with frame|]. intros names.
  apply (framed_bind_out engine_key R); [done|destruct inserted; eauto with frame|].
  intros s ms Hms. apply (framed_bind engine_key R); [done| |eauto with frame]. apply (framed_batch engine_key R); [done|].
  assert (Forall (λ u, engine_key (mutation_key u)) ms) as Hok.
  { destruct inserted; [|by injection Hms as <-].
    unfold readM in Hms. apply (append_mutations_engine HIST peer LABEL (hist_engine peer) msg s).
    by destruct (append_segment_mutations _ _ _ _ s). }
  destruct (negb _); [|done]. apply Forall_app. split; [done|]. constructor; [|done]. by intros [=].
Qed.
Lemma framed_edit peer id text by_me : framed (History.edit peer id text by_me).
Proof.
  apply (framed_bind engine_key R); [done|eauto with frame|]. intros n. apply framed_edit_loop, hist_engine.
Qed.
Lemma framed_delete_message peer id by_me : framed (History.delete peer id by_me).
Proof. apply framed_delete_segments, hist_engine. Qed.
Lemma framed_group_append g msg : framed (group_append g msg).
Proof.
  unfold group_append. apply (framed_bind engine_key R); [done|solve_frame|]. intros [|]; [eauto with frame|].
  apply (framed_bind_out engine_key R); [done|eauto with frame|]. intros s ms Hms.
  apply (framed_bind engine_key R); [done| |eauto with frame]. apply (framed_batch engine_key R); [done|].
  apply (append_mutations_engine GHIST g GLABEL (ghist_engine g) msg s). unfold readM in Hms.
  by destruct (append_segment_mutations _ _ _ _ s).
Qed.
Lemma framed_group_edit g id text sender : framed (group_edit g id text sender).
Proof.
  apply (framed_bind engine_key R); [done|eauto with frame|]. intros n. apply framed_edit_loop, ghist_engine.
Qed.
Lemma framed_group_delete g id sender : framed (group_delete g id sender).
Proof. apply framed_delete_segments, ghist_engine. Qed.

(** *** The outbox *)
Lemma changed_entries_engine es (s : S) ms :
  outbox.changed_entries es s = Ok ms → Forall (λ u, engine_key (mutation_key u)) ms.
Proof.
  revert ms. induction es as [|e es IH]; cbn [outbox.changed_entries]; intros ms; [by intros [= <-]|].
  unfold outbox.put_if_changed. destruct (st_get _ s) as [v|]; [|done]. cbn [bind_result].
  destruct (outbox.changed_entries es s) as [ms'|]; [|done]. cbn [bind_result]. intros [= <-].
  apply Forall_app. split; [|by apply IH]. case_bool_decide; [done|]. constructor; [|done].
  by intros [=].
Qed.

Lemma framed_outbox_save es : framed (outbox.save es).
Proof.
  unfold outbox.save. apply (framed_bind engine_key R); [done|eauto with frame|]. intros old. cbv zeta.
  destruct (negb _); [eauto with frame|].
  apply (framed_bind_out engine_key R); [done|eauto with frame|]. intros s1 ms Hms.
  apply (framed_bind_out engine_key R); [done|eauto with frame|]. intros s2 index Hindex.
  apply (framed_bind engine_key R); [done|eauto with frame|]. intros legacy.
  apply (framed_bind engine_key R); [done| |eauto with frame]. apply (framed_batch engine_key R); [done|].
  unfold readM in *. rewrite !Forall_app. split_and!.
  - apply (changed_entries_engine es s1). by destruct (outbox.changed_entries es s1).
  - apply list.Forall_forall. intros u (i & <- & _)%list_elem_of_In%in_map_iff.
    by intros [=].
  - unfold outbox.put_if_changed in Hindex. destruct (st_get _ s2) as [v|]; [|done].
    cbn in Hindex. injection Hindex as <-. case_bool_decide; repeat constructor; by intros [=].
  - destruct (outbox.is_some legacy); repeat constructor; by intros [=].
Qed.

Lemma framed_enqueue i u to slot item plaintext now :
  framed (outbox.enqueue_pairwise i u to slot item plaintext now).
Proof.
  unfold outbox.enqueue_pairwise, outbox.enqueue_at. destruct (_ && _); [eauto with frame|].
  solve_frame. apply framed_outbox_save.
Qed.
Lemma framed_park id handle record device item plaintext now :
  framed (runtime.park id handle record device item plaintext now).
Proof.
  unfold runtime.park, client.park_pairwise_outbox, client.park_outbox, outbox.enqueue.
  destruct plaintext; apply framed_enqueue.
Qed.
End Components.

#[export] Hint Resolve framed_names framed_attachment framed_pin framed_save_group framed_remove_group
  framed_book_put framed_append framed_edit framed_delete_message framed_group_append
  framed_group_edit framed_group_delete framed_park : frame.

(** ** The flow *)
Section FramedF.
Context {S P X : Type} `{!Storage S} (R : S → S → Prop) (HR : Frame engine_key R).

Definition framedF {A} (m : F S P X A) : Prop := ∀ w, R (w_store w) (w_store (m w).2).
Definition framed_hook (deliver : DeliveryHook S X) : Prop :=
  ∀ handle record device item plaintext s x,
    R s (deliver handle record device item plaintext s x).1.2.

Lemma framedF_ret {A} (a : A) : framedF (retF a).
Proof. intros w. apply (frame_preorder engine_key R HR). Qed.
Lemma framedF_bind {A B} (m : F S P X A) (k : A → F S P X B) :
  framedF m → (∀ a, framedF (k a)) → framedF (bindF m k).
Proof.
  intros Hm Hk w. unfold bindF. specialize (Hm w). destruct (m w) as [a w1].
  destruct (frame_preorder engine_key R HR) as [_ Ht]. eapply Ht; [exact Hm|apply Hk].
Qed.
Lemma framedF_store {A} (m : M S A) : framed R m → framedF (on_store m).
Proof. intros Hm w. unfold on_store. specialize (Hm (w_store w)). by destruct (m (w_store w)). Qed.
Lemma framedF_read {A} (f : S → A) : framedF (read_store f).
Proof. intros w. apply (frame_preorder engine_key R HR). Qed.
Lemma framedF_platform {A} (m : P → A * P) : framedF (on_platform m).
Proof.
  intros w. unfold on_platform. destruct (m (w_platform w)). apply (frame_preorder engine_key R HR).
Qed.
Lemma framedF_host {A} (m : X → A * X) : framedF (on_host m).
Proof. intros w. unfold on_host. destruct (m (w_host w)). apply (frame_preorder engine_key R HR). Qed.
Lemma framedF_emit e : framedF (emit e).
Proof. intros w. apply (frame_preorder engine_key R HR). Qed.
Lemma framedF_now `{!Platform P} : framedF read_platform_now.
Proof. intros w. apply (frame_preorder engine_key R HR). Qed.
Lemma framedF_call deliver handle record device item plaintext :
  framed_hook deliver → framedF (call (deliver handle record device item plaintext)).
Proof.
  intros Hd w. unfold call. specialize (Hd handle record device item plaintext (w_store w) (w_host w)).
  by destruct (deliver _ _ _ _ _ _ _) as [[path s] x].
Qed.
Lemma framedF_call_pairwise deliver handle record device item plaintext :
  framed_hook deliver → framedF (call (pairwise deliver handle record device item plaintext)).
Proof. apply framedF_call. Qed.
End FramedF.

#[export] Hint Resolve framedF_ret framedF_store framedF_read framedF_platform framedF_host
  framedF_emit framedF_now framedF_call framedF_call_pairwise : frame.

Ltac frameF_step :=
  lazymatch goal with
  | |- ∀ _, _ => intro
  | |- framedF _ (match ?x with _ => _ end) => destruct x
  | |- framedF _ (bindF _ _) => apply framedF_bind
  | _ => solve [eauto 6 with frame]
  end.
Ltac solve_frameF := cbv zeta; repeat frameF_step.

Section Flow.
Context {crypto : Crypto} {S P X : Type} `{!Storage S, !Platform P} (R : S → S → Prop) (HR : Frame engine_key R)
  `{!Postcard IdentityClaim, !Postcard (WalletPublicKey * DeviceRecord), !Postcard DeviceRecord,
    !Postcard ReachabilityRecord, !Postcard VersionPins, !Postcard WalletPublicKey,
    !Postcard contacts.Contact, !Postcard (list str), !Postcard (list (str * str)),
    !Postcard AppMessage, !Postcard attachments.StoredAttachment, !Postcard StoredGroup,
    !Postcard (list StoredMessage), !Postcard (list GroupStoredMessage), !Postcard SegMeta,
    !Postcard (list peerbook.PeerRecord), !Json GroupInvitePayload, !Json GroupLeavePayload}.

Context `{!FlowNet X} (deliver : DeliveryHook S X) (Hd : framed_hook R deliver).

Lemma framed_resolve_group identity m : framedF (P := P) (X := X) R (resolve_group_target identity m).
Proof. unfold resolve_group_target. solve_frameF. Qed.

Lemma framed_share_loop (share : GroupMember → F S P X (option GroupKeyShare)) targets :
  (∀ t, framedF R (share t)) → framedF R (share_loop share targets).
Proof. intros H. induction targets as [|t ts IH]; cbn [share_loop]; solve_frameF. Qed.

Lemma framed_distribute r stored group targets :
  framedF (P := P) R (distribute_group_key r stored group targets deliver).
Proof.
  unfold distribute_group_key, distribute_key, distribute_key_inner. cbv zeta.
  apply framedF_bind; [done| |solve_frameF]. destruct (to_vec _) as [plaintext|]; [|solve_frameF].
  apply framed_share_loop. intros t. unfold share_with. cbv zeta.
  apply framedF_bind; [done|apply framed_resolve_group|]. solve_frameF.
Qed.

Lemma framed_recv_direct r env : framedF (P := P) (X := X) R (recv_direct r env).
Proof. unfold recv_direct, store_direct. solve_frameF. Qed.

Lemma framed_group_text r g m : framedF (P := P) (X := X) R (recv_group_text r g m).
Proof. unfold recv_group_text, act_on_group_text, store_group_text. solve_frameF. Qed.

Lemma framed_group_leave r env : framedF (P := P) R (recv_group_leave r env deliver).
Proof.
  unfold recv_group_leave. cbv zeta. repeat first [apply framed_distribute|frameF_step].
Qed.

Lemma framed_group_invite r env : framedF (P := P) R (recv_group_invite r env deliver).
Proof.
  unfold recv_group_invite, update_group, join_group. cbv zeta.
  repeat first [apply framed_distribute|frameF_step].
Qed.

Lemma framed_process_item identity me record blocked item :
  framedF (P := P) R (process_item identity me record blocked item deliver).
Proof.
  unfold process_item. cbv zeta. destruct item; [apply framed_recv_direct|apply framed_group_invite
    |apply framed_group_text|apply framed_group_leave].
Qed.
End Flow.

(** The client's [process_item], through its snapshot of the peer book. *)
Section ClientItems.
Context {crypto : Crypto} {S P X : Type} `{!Storage S, !Platform P} (R : S → S → Prop) (HR : Frame engine_key R)
  `{!Postcard IdentityClaim, !Postcard (WalletPublicKey * DeviceRecord), !Postcard DeviceRecord,
    !Postcard ReachabilityRecord, !Postcard VersionPins, !Postcard WalletPublicKey,
    !Postcard contacts.Contact, !Postcard (list str), !Postcard (list (str * str)),
    !Postcard AppMessage, !Postcard attachments.StoredAttachment, !Postcard StoredGroup,
    !Postcard (list StoredMessage), !Postcard (list GroupStoredMessage), !Postcard SegMeta,
    !Postcard (list peerbook.PeerRecord), !Json GroupInvitePayload, !Json GroupLeavePayload}.
#[local] Existing Instance client.local_flownet.

Lemma framed_with_net {A} net (m : F S P (client.LocalNet * X) A) :
  framedF R m → framedF R (client.with_net net m).
Proof.
  intros Hm w. unfold client.with_net.
  specialize (Hm (mkWorld (w_store w) (w_platform w) (w_events w) (net, w_host w))).
  by destruct (m _) as [a w'].
Qed.
Lemma framed_hosted (deliver : DeliveryHook S X) :
  framed_hook R deliver → framed_hook R (client.hosted deliver).
Proof.
  intros Hd h r dev i pt s x. unfold client.hosted. specialize (Hd h r dev i pt s x.2).
  by destruct (deliver _ _ _ _ _ _ _) as [[p s'] y].
Qed.
Lemma framed_client_process_item identity me record blocked item (deliver : DeliveryHook S X) :
  framed_hook R deliver →
  framedF (P := P) R (client.process_item identity me record blocked item deliver).
Proof.
  intros Hd. unfold client.process_item. apply framedF_bind; [done|eauto with frame|].
  intros [net|e]; [|eauto with frame]. apply framed_with_net.
  apply (framed_process_item (X := client.LocalNet * X)); [done|by apply framed_hosted].
Qed.
End ClientItems.
