(* ===== verification/Acceptance.v ===== *)
(** * Acceptance: what [accept_delivery] promises

    A delivery is processed inside one transaction that also records its id:
    its effect and the record of it are committed together or not at all, and an
    acknowledgement is sent for recorded deliveries only. *)

From S2P Require Import Prelude Std Crypto Wire Identity UserId Records X3DH Group Message Delivery Storage FileStore FileStoreProps Recovery LocalState LocalProps Antirollback History Groups WireOps Peerbook Outbox Flow Client Runtime Frame Instances.

Section Transactions.
Context {crypto : Crypto} {laws : CryptoLaws} `{!Postcard (list StorageMutation),
  !Postcard inbox.AcceptedDelivery, !Postcard (list inbox.AcceptedDelivery)}.

(** A transaction that staged no accepted delivery. *)
Definition beside (t t' : FileTransaction) : Prop :=
  ft_store t' = ft_store t ∧ ∀ k, ¬ engine_key k → ft_changes t' !! k = ft_changes t !! k.

Lemma stage_beside changes u k :
  engine_key (mutation_key u) → ¬ engine_key k → stage changes u !! k = changes !! k.
Proof.
  intros Hu Hk. assert (mutation_key u ≠ k) as Hne by (by intros <-).
  by destruct u as [key v|key]; cbn [stage mutation_key] in *; rewrite lookup_insert_ne.
Qed.

Lemma beside_frame : Frame engine_key beside.
Proof.
  split.
  - split; [done|]. intros t1 t2 t3 [H1 H2] [H3 H4]. split; [congruence|].
    intros k Hk. by rewrite H4, H2.
  - intros t k v Hk. split; [done|]. intros k' Hk'. by apply (stage_beside _ (Put k v)).
  - intros t k Hk. split; [done|]. intros k' Hk'. by apply (stage_beside _ (Delete k)).
  - intros t l Hl. split; [done|]. intros k Hk. cbn [st_apply_batch transaction_storage snd].
    cbn [tx_apply_batch snd ft_changes]. revert Hl. generalize (ft_changes t).
    induction l as [|u l IH]; intros c Hl; [done|]. cbn [fold_left].
    rewrite IH by (intros v Hv; apply Hl; by right). apply stage_beside; [|done]. apply Hl. by left.
Qed.

Lemma inbox_key_engine id : ¬ engine_key (inbox.key id).
Proof. intros H. by apply H. Qed.
Lemma inbox_legacy_engine : ¬ engine_key inbox.LEGACY_KEY.
Proof. intros H. by apply H. Qed.

Lemma entry_beside (s : FileStore) (t : FileTransaction) id :
  beside (transaction s) t → inbox.entry id t = inbox.entry id s.
Proof.
  intros [Hs Hc]. unfold inbox.entry, inbox.legacy_entry. cbn [st_get transaction_storage].
  unfold tx_get. rewrite (Hc _ (inbox_key_engine id)), (Hc _ inbox_legacy_engine), Hs.
  cbn [transaction ft_changes ft_store]. by rewrite !lookup_empty.
Qed.

(** An entry of the accepted deliveries, as the rest of the store sees it. *)
Definition remembers (id : str) (digest : PayloadDigest) (m m' : Mem) : Prop :=
  inbox.entry id m = Ok None ∧
  (∃ now, inbox.entry id m' = Ok (Some (inbox.mkAccepted id digest now))) ∧
  ∀ id', id' ≠ id → inbox.entry id' m' = inbox.entry id' m.

Lemma entry_overlay changes (m : Mem) id :
  changes !! inbox.key id = None → changes !! inbox.LEGACY_KEY = None →
  inbox.entry id (overlay changes m) = inbox.entry id m.
Proof.
  intros H1 H2. unfold inbox.entry, inbox.legacy_entry. cbn [st_get mem_storage].
  by rewrite !lookup_overlay, H1, H2.
Qed.

Lemma overlay_insert changes key value (m : Mem) :
  overlay (<[key := Some value]> changes) m = <[key := value]> (overlay changes m).
Proof. apply (overlay_stage changes (Put key value)). Qed.

(** Recording an id in a transaction beside which it is new. *)
Lemma record_remembers (s : FileStore) (t : FileTransaction) id digest now :
  beside (transaction s) t → inbox.entry id s = Ok None → st_wf s →
  let '(r, t') := inbox.record id digest now t in
  r = Ok tt ∧ ft_store t' = s ∧ remembers id digest (st_view s) (st_view t').
Proof.
  intros Hb He Hwf. unfold inbox.record. unfold bindM at 1, readM.
  rewrite (entry_beside s t id Hb), He. unfold bindM.
  cbn [st_put transaction_storage tx_put retM inbox.id stage]. destruct Hb as [Hs Hc].
  split_and!; [done|exact Hs|].
  assert (∀ id', ft_changes t !! inbox.key id' = None) as Hk.
  { intros id'. rewrite (Hc _ (inbox_key_engine id')). apply lookup_empty. }
  assert (ft_changes t !! inbox.LEGACY_KEY = None) as Hl.
  { rewrite (Hc _ inbox_legacy_engine). apply lookup_empty. }
  cbn [st_view transaction_lawful ft_changes ft_store]. rewrite Hs, overlay_insert.
  assert (inbox.entry id (st_view s) = Ok None) as Hn.
  { destruct (inbox_entry_simr id s Hwf) as [<-|[msg H]]; [done|]. rewrite He in H. discriminate H. }
  split_and!; [done| |].
  - exists now. by rewrite inbox_entry_put, decide_True.
  - intros id' Hne. rewrite inbox_entry_put, decide_False by done. by apply entry_overlay.
Qed.
End Transactions.

(** ** One delivery *)
Section Accept.
Context {crypto : Crypto} {laws : CryptoLaws} {P : Type} `{!Platform P, !Postcard (list StorageMutation)}
  `{!Postcard IdentityClaim, !Postcard (WalletPublicKey * DeviceRecord), !Postcard DeviceRecord,
    !Postcard ReachabilityRecord, !Postcard VersionPins, !Postcard WalletPublicKey,
    !Postcard contacts.Contact, !Postcard (list str), !Postcard (list (str * str)),
    !Postcard AppMessage, !Postcard attachments.StoredAttachment, !Postcard StoredGroup,
    !Postcard (list StoredMessage), !Postcard (list GroupStoredMessage), !Postcard SegMeta,
    !Postcard (list peerbook.PeerRecord), !Json GroupInvitePayload, !Json GroupLeavePayload,
    !Postcard outbox.OutboxEntry, !Postcard (list outbox.OutboxEntry),
    !Postcard (list outbox.LegacyOutboxEntry), !Postcard inbox.AcceptedDelivery,
    !Postcard (list inbox.AcceptedDelivery), !Postcard MailItem, !Postcard PeerFrame,
    !Postcard AckBody}.

Context (identity : Identity) (me : Handle) (my_record : SignedRecord).
#[local] Abbreviation accept := (runtime.accept_delivery (P := P) identity me my_record).

Definition digest_of (item : MailItem) : PayloadDigest := payload_digest (wire.encode item).

Lemma framed_remember {S} `{!Storage S} (R : S → S → Prop) (HR : Frame engine_key R) item :
  framed R (runtime.remember_sender item).
Proof. unfold runtime.remember_sender. destruct (runtime.envelope_sender item); eauto with frame. Qed.

Lemma framed_park_all {S} `{!Storage S} (R : S → S → Prop) (HR : Frame engine_key R) now :
  framed_hook R (runtime.park_all now).
Proof.
  intros h r dev i pt s x. unfold runtime.park_all.
  pose proof (framed_park R HR (runtime.delivery_id_for_item i) h r dev i pt now s) as H.
  by destruct (runtime.park _ _ _ _ _ _ _ s) as [[]].
Qed.

(** What a transaction has staged when its item is processed. *)
Lemma accept_staged_spec blocked id item (platform : P) (s : FileStore) :
  inbox.entry id s = Ok None → st_wf s →
  let '(done, _, tx) :=
    runtime.accept_staged identity me my_record blocked id (digest_of item) item platform
      (transaction s) in
  ft_store tx = s ∧ (done ≠ None → remembers id (digest_of item) (st_view s) (st_view tx)).
Proof.
  intros He Hwf. unfold runtime.accept_staged.
  pose proof (framed_remember beside beside_frame item (transaction s)) as Hr.
  destruct (runtime.remember_sender item (transaction s)) as [[[]|e] tx]; [|by split; [apply Hr|]].
  cbv zeta. set (now := now_unix_secs platform).
  pose proof (framed_client_process_item beside beside_frame identity me my_record blocked item
    (runtime.park_all now) (framed_park_all _ beside_frame now) (mkWorld tx platform [] tt)) as Hp.
  destruct (client.process_item _ _ _ _ _ _ _) as [outcome w].
  assert (beside (transaction s) (w_store w)) as Hb.
  { destruct (frame_preorder _ _ beside_frame) as [_ Ht]. eapply Ht; [exact Hr|exact Hp]. }
  destruct outcome; [|by split; [apply Hb|]|by split; [apply Hb|]].
  pose proof (record_remembers s (w_store w) id (digest_of item) now Hb He Hwf) as H.
  destruct (inbox.record _ _ _ _) as [r t']. by destruct H as (-> & Hs & Hm).
Qed.

(** Every branch of [accept_delivery]: nothing happened; a recorded delivery is
    acknowledged again; or the transaction was committed, or failed to be. *)
Inductive accepts (id : str) (item : MailItem) (s : FileStore)
    : option bytes * list FlowEvent → FileStore → Prop :=
  | accepts_nothing s' : st_view s' = st_view s → st_wf s' → accepts id item s (None, []) s'
  | accepts_again :
      id = runtime.delivery_id_for_item item → (1 ≤ length id ≤ MAX_DELIVERY_ID_LEN)%nat →
      inbox.seen id (digest_of item) s = Ok inbox.Duplicate →
      accepts id item s (Some (runtime.delivery_ack identity id (wire.encode item)), []) s
  | accepts_committed events s' :
      id = runtime.delivery_id_for_item item → (1 ≤ length id ≤ MAX_DELIVERY_ID_LEN)%nat →
      remembers id (digest_of item) (st_view s) (st_view s') → st_wf s' →
      accepts id item s (Some (runtime.delivery_ack identity id (wire.encode item)), events) s'
  | accepts_unsure s' :
      remembers id (digest_of item) (st_view s) (st_view s') → st_wf s' →
      accepts id item s (None, []) s'.

Lemma accept_delivery_cases id item (platform : P) (s : FileStore) :
  st_wf s →
  let '(ack, events, _, s') := accept id item platform s in accepts id item s (ack, events) s'.
Proof.
  intros Hwf. unfold runtime.accept_delivery.
  destruct (_ || _ || _) eqn:Hg; [by apply accepts_nothing|].
  apply orb_false_iff in Hg as [[Hg1 Hg2]%orb_false_iff Hg3].
  apply bool_decide_eq_false in Hg1. apply Nat.ltb_ge in Hg2.
  apply negb_false_iff, bool_decide_eq_true in Hg3.
  assert (1 ≤ length id)%nat as Hlen by (destruct id; [done|simpl; lia]). cbv zeta.
  change (payload_digest (wire.encode item)) with (digest_of item).
  destruct (inbox.seen id (digest_of item) s) as [[| |]|e] eqn:Hseen;
    [|by apply accepts_again|by apply accepts_nothing|by apply accepts_nothing].
  destruct (runtime.sender_identity_changed item s); [by apply accepts_nothing|].
  destruct (blocklist.load s) as [blocked|e]; [|by apply accepts_nothing].
  assert (inbox.entry id s = Ok None) as He.
  { unfold inbox.seen in Hseen. destruct (inbox.entry id s) as [[a|]|e]; [|done|done].
    cbn [bind_result] in Hseen. by case_bool_decide. }
  pose proof (accept_staged_spec blocked id item platform s He Hwf) as H.
  destruct (runtime.accept_staged _ _ _ _ _ _ _ _ _) as [[[events|] p'] tx]; destruct H as [Hs Hm];
    [|by rewrite Hs; apply accepts_nothing].
  assert (st_wf (ft_store tx)) as Hwf' by (by rewrite Hs).
  pose proof (commit_atomic tx Hwf') as Hc. destruct (commit tx) as [r s'].
  destruct Hc as [Hw' [[-> Hv]|(msg & -> & Hv)]].
  - apply accepts_committed; try done. rewrite Hv. by apply Hm.
  - destruct Hv as [Hv|Hv]; [apply accepts_nothing; [by rewrite Hv, Hs|done]|].
    apply accepts_unsure; [|done]. rewrite Hv. by apply Hm.
Qed.

Lemma delivery_ack_verifies id (item : MailItem) :
  (1 ≤ length id ≤ MAX_DELIVERY_ID_LEN)%nat →
  runtime.verify_delivery_ack (runtime.delivery_ack identity id (wire.encode item)) id
    (wire.encode item) (Identity.device_public identity) = true.
Proof.
  intros Hid. unfold runtime.verify_delivery_ack, runtime.delivery_ack. rewrite wire.decode_encode.
  assert (ack_verify (accepted identity id (wire.encode item)) id (wire.encode item)
            (Identity.device_public identity) = Ok tt) as ->; [|done].
  apply ack_verify_Ok. unfold accepted; simpl. split_and!; try done; try (by apply Hid).
  apply Identity.device_sign_verify.
Qed.

Lemma remembers_seen id d m m' :
  remembers id d m m' → inbox.seen id d m = Ok inbox.New ∧ inbox.seen id d m' = Ok inbox.Duplicate.
Proof.
  intros (H & [now H'] & _). unfold inbox.seen. rewrite H, H'. cbn. by rewrite bool_decide_true.
Qed.

Lemma seen_view id d (s : FileStore) (v : inbox.Seen) :
  st_wf s → inbox.seen id d s = Ok v → inbox.seen id d (st_view s) = Ok v.
Proof.
  intros Hwf H. destruct (inbox_seen_simr id d s Hwf) as [<-|[msg He]]; [done|].
  rewrite He in H. discriminate H.
Qed.


(** ** Any number of deliveries, in any order *)

(** What happens to a client's store: a delivery arrives, the process starts
    again after whatever crash, or the client uses the store. *)
Inductive Arrival : Type :=
  | Arrive (id : str) (item : MailItem)
  | Restart (script : list Step) (unreadable : bytes → bool)
  | Use (m : M FileStore unit).

Record Event : Type := mkEvent {
  ev_arrival : Arrival; ev_before : Mem; ev_ack : option bytes; ev_events : list FlowEvent;
  ev_after : Mem
}.

Definition happen (a : Arrival) (platform : P) (s : FileStore)
    : option bytes * list FlowEvent * P * FileStore :=
  match a with
  | Arrive id item => accept id item platform s
  | Restart script unreadable => (None, [], platform, (run_call (CReopen script unreadable) s).2)
  | Use m => (None, [], platform, (m s).2)
  end.

Fixpoint history (arrivals : list Arrival) (platform : P) (s : FileStore) : list Event * FileStore :=
  match arrivals with
  | [] => ([], s)
  | a :: rest =>
      let '(ack, events, platform, s') := happen a platform s in
      let '(later, s'') := history rest platform s' in
      (mkEvent a (st_view s) ack events (st_view s') :: later, s'')
  end.

(** A use of the store that leaves the accepted deliveries alone; every program
    of the engine is one. *)
Definition leaves_inbox (a : Arrival) : Prop :=
  match a with Use m => framed (aside engine_key) m | _ => True end.

Lemma aside_entry (s s' : FileStore) id :
  aside engine_key s s' → st_wf s → inbox.entry id (st_view s') = inbox.entry id (st_view s).
Proof.
  intros Ha Hwf. destruct (Ha Hwf) as [_ Hk]. unfold inbox.entry, inbox.legacy_entry.
  cbn [st_get mem_storage]. by rewrite !Hk by auto using inbox_key_engine, inbox_legacy_engine.
Qed.

Lemma reopen_view script unreadable (s : FileStore) :
  st_wf s → let s' := (run_call (CReopen script unreadable) s).2 in
  st_wf s' ∧ st_view s' = st_view s.
Proof.
  intros [m Hm]. pose proof (run_call_step (CReopen script unreadable) s m Hm) as H.
  destruct (run_call _ s) as [r s']. cbn [snd].
  assert (shows s' m) as Hs' by (destruct r; [apply H|by destruct H as (m1 & [->| ->] & ?)]).
  split; [by exists m|]. cbn [st_view filestore_lawful].
  by rewrite (view_represents _ _ _ Hs'), (view_represents _ _ _ Hm).
Qed.

(** A recorded delivery stays recorded, and its copies have no effect. *)
Lemma happen_settled a (platform : P) (s : FileStore) id e :
  st_wf s → leaves_inbox a → inbox.entry id (st_view s) = Ok (Some e) →
  let '(_, events, _, s') := happen a platform s in
  st_wf s' ∧ inbox.entry id (st_view s') = Ok (Some e) ∧
  (∀ item, a = Arrive id item → events = [] ∧ st_view s' = st_view s).
Proof.
  intros Hwf Ha He. destruct a as [id' item|script unreadable|m]; cbn [happen].
  - pose proof (accept_delivery_cases id' item platform s Hwf) as H.
    destruct (accept id' item platform s) as [[[ack events] p'] s'].
    inversion H as [? Hv Hw|Hid Hl Hs|? ? Hid Hl Hm Hw|? Hm Hw]; subst; split_and!; 
      try done; try (by rewrite ?Hv).
    all: destruct Hm as (Hn & _ & Ho).
    all: match goal with
      | |- inbox.entry _ _ = _ => rewrite Ho; [done|]; intros ->; congruence
      | |- ∀ item, _ => intros item' [= <- _]; congruence
      end.
  - destruct (reopen_view script unreadable s Hwf) as [Hw Hv]. by rewrite Hv.
  - specialize (Ha s). split_and!; [by apply Ha| |done]. by rewrite (aside_entry s _ id Ha Hwf).
Qed.

Lemma history_settled arrivals (platform : P) (s : FileStore) id e :
  st_wf s → Forall leaves_inbox arrivals → inbox.entry id (st_view s) = Ok (Some e) →
  let '(events, s') := history arrivals platform s in
  inbox.entry id (st_view s') = Ok (Some e) ∧
  ∀ b item, b ∈ events → ev_arrival b = Arrive id item → ev_events b = [] ∧ ev_after b = ev_before b.
Proof.
  revert platform s. induction arrivals as [|a rest IH]; intros platform s Hwf Hl He; cbn [history].
  { split; [done|]. by intros b item []%elem_of_nil. }
  apply list.Forall_cons in Hl as [Ha Hl].
  pose proof (happen_settled a platform s id e Hwf Ha He) as H.
  destruct (happen a platform s) as [[[ack events] p'] s1]. destruct H as (Hw1 & He1 & Hs).
  specialize (IH p' s1 Hw1 Hl He1). destruct (history rest p' s1) as [later s2].
  destruct IH as [He2 IH]. split; [done|].
  intros b item [->|Hb]%elem_of_cons Harr; [|by apply (IH b item)]. by apply (Hs item).
Qed.

(** A delivery that was acknowledged, was shown, or changed the store. *)
Definition effective (a : Event) : Prop :=
  ev_ack a ≠ None ∨ ev_events a ≠ [] ∨ ev_after a ≠ ev_before a.

Lemma arrive_effective id item (platform : P) (s : FileStore) :
  st_wf s →
  let '(ack, events, _, s') := accept id item platform s in
  st_wf s' ∧
  (effective (mkEvent (Arrive id item) (st_view s) ack events (st_view s')) →
   ∃ e, inbox.entry id (st_view s') = Ok (Some e)).
Proof.
  intros Hwf. pose proof (accept_delivery_cases id item platform s Hwf) as H.
  destruct (accept id item platform s) as [[[ack events] p'] s'].
  inversion H as [? Hv Hw|Hid Hl Hs|? ? Hid Hl Hm Hw|? Hm Hw]; subst; (split; [done|]); intros He.
  - destruct He as [He|[He|He]]; cbn in He; done.
  - apply (seen_view _ _ _ _ Hwf) in Hs. unfold inbox.seen in Hs.
    destruct (inbox.entry _ _) as [[e|]|]; [by exists e|done|done].
  - destruct Hm as (_ & [now Hm] & _). eauto.
  - destruct Hm as (_ & [now Hm] & _). eauto.
Qed.

End Accept.
