(* ===== verification/Peers.v ===== *)
(** * Peers: a network of receiving clients

    A host for [Reticulum] in which every frame may be lost, reach any client,
    be answered or not; old answers may come again; and the other clients go on
    receiving, restarting and using their stores.  What it cannot do is sign an
    acknowledgement for a client. *)

From S2P Require Import Prelude Interleave Std Crypto Wire Identity UserId Records X3DH Group Message Delivery Storage FileStore FileStoreProps Recovery LocalState LocalProps Antirollback History Groups WireOps Peerbook Outbox Flow RegistryClient Client Runtime Shell Frame Acceptance Instances.

Record Peer (P : Type) : Type := mkPeer {
  pr_identity : Identity; pr_record : option SignedRecord; pr_running : bool; pr_current : bool;
  pr_platform : P; pr_store : FileStore
}.
Arguments mkPeer {P} _ _ _ _ _ _.
Arguments pr_identity {P} _.
Arguments pr_record {P} _.
Arguments pr_running {P} _.
Arguments pr_current {P} _.
Arguments pr_platform {P} _.
Arguments pr_store {P} _.

(** What happens to a call, after what happens elsewhere. *)
Inductive Turn : Type :=
  | Lost
  | Carried (to : nat) (answered : bool)
  | Replayed (k : nat)
  | Noise (input : bytes)
  | Elsewhere (to : nat) (frame : bytes)
  | Reboot (to : nat) (script : list Step) (unreadable : bytes → bool)
  | Uses (to : nat) (m : M FileStore unit).

Record Net (P : Type) : Type := mkNet {
  nw_peers : list (Peer P); nw_log : list bytes; nw_turns : list Turn; nw_up : bool }.
Arguments mkNet {P} _ _ _ _.
Arguments nw_peers {P} _.
Arguments nw_log {P} _.
Arguments nw_turns {P} _.
Arguments nw_up {P} _.

Section Peers.
Context {crypto : Crypto} {laws : CryptoLaws} {P : Type} `{!Platform P, !Postcard (list StorageMutation)}
  `{!Postcard IdentityClaim, !Postcard (WalletPublicKey * DeviceRecord), !Postcard DeviceRecord,
    !Postcard ReachabilityRecord, !Postcard VersionPins, !Postcard WalletPublicKey,
    !Postcard contacts.Contact, !Postcard (list str), !Postcard (list (str * str)),
    !Postcard AppMessage, !Postcard attachments.StoredAttachment, !Postcard StoredGroup,
    !Postcard (list StoredMessage), !Postcard (list GroupStoredMessage), !Postcard SegMeta,
    !Postcard (list peerbook.PeerRecord), !Json GroupInvitePayload, !Json GroupLeavePayload,
    !Postcard outbox.OutboxEntry, !Postcard (list outbox.OutboxEntry),
    !Postcard (list outbox.LegacyOutboxEntry), !Postcard inbox.AcceptedDelivery,
    !Postcard (list inbox.AcceptedDelivery), !Postcard MailItem, !Postcard PeerFrame,
    !Postcard AckBody}.

Definition with_store (p : Peer P) (platform : P) (store : FileStore) : Peer P :=
  mkPeer (pr_identity p) (pr_record p) (pr_running p) (pr_current p) platform store.

(** A frame reaches a client. *)
Definition serve (frame : bytes) (p : Peer P) : option bytes * Peer P :=
  let '(reply, _, platform, store) :=
    serve_connection (pr_running p) (pr_current p) (pr_identity p) (pr_record p) frame
      (pr_platform p) (pr_store p) in
  (reply, with_store p platform store).

Definition option_list {A} (o : option A) : list A := match o with Some a => [a] | None => [] end.

(** A step of the peer [i], which may answer. *)
Definition on_peer (i : nat) (f : Peer P → option bytes * Peer P) (ps : list (Peer P)) (log : list bytes)
    : option bytes * list (Peer P) * list bytes :=
  match ps !! i with
  | None => (None, ps, log)
  | Some p => let '(reply, p) := f p in (reply, <[i := p]> ps, log ++ option_list reply)
  end.

Definition reboot_peer script unreadable (p : Peer P) : option bytes * Peer P :=
  (None, with_store p (pr_platform p) (run_call (CReopen script unreadable) (pr_store p)).2).
Definition peer_uses (m : M FileStore unit) (p : Peer P) : option bytes * Peer P :=
  (None, with_store p (pr_platform p) (m (pr_store p)).2).

(** Bytes that are no acknowledgement. *)
Definition noise (input : bytes) : option bytes :=
  match wire.decode input with Ok (AckFrame _) => None | _ => Some input end.

Fixpoint carry (frame : bytes) (turns : list Turn) (ps : list (Peer P)) (log : list bytes)
    : option bytes * list (Peer P) * list bytes * list Turn :=
  match turns with
  | [] => (None, ps, log, [])
  | Lost :: rest => (None, ps, log, rest)
  | Carried i answered :: rest =>
      let '(reply, ps, log) := on_peer i (serve frame) ps log in
      (if answered then reply else None, ps, log, rest)
  | Replayed k :: rest => (log !! k, ps, log, rest)
  | Noise input :: rest => (noise input, ps, log, rest)
  | Elsewhere i other :: rest =>
      let '(_, ps, log) := on_peer i (serve other) ps log in carry frame rest ps log
  | Reboot i script unreadable :: rest =>
      let '(_, ps, log) := on_peer i (reboot_peer script unreadable) ps log in carry frame rest ps log
  | Uses i m :: rest =>
      let '(_, ps, log) := on_peer i (peer_uses m) ps log in carry frame rest ps log
  end.

#[export] Instance net_reticulum : Reticulum unit (Net P) := {|
  node_new _ h := (if nw_up h then Some tt else None, h);
  send_and_wait _ _ frame h :=
    let '(answer, ps, log, turns) := carry frame (nw_turns h) (nw_peers h) (nw_log h) in
    (answer, mkNet ps log turns (nw_up h));
  node_shutdown _ h := mkNet (nw_peers h) (nw_log h) (nw_turns h) false
|}.

(** ** What the network keeps *)
Definition has_recorded (p : Peer P) (id : str) (e : inbox.AcceptedDelivery) : Prop :=
  inbox.entry id (st_view (pr_store p)) = Ok (Some e).

Definition evolves (p p' : Peer P) : Prop :=
  pr_identity p' = pr_identity p ∧ ∀ id e, has_recorded p id e → has_recorded p' id e.
#[export] Instance evolves_preorder : PreOrder evolves.
Proof.
  split; [by intros p|]. intros p1 p2 p3 [H1 H2] [H3 H4]. split; [congruence|]. intros id e H. auto.
Qed.

(** A reply acknowledges a delivery its client has on record. *)
Definition backed (ps : list (Peer P)) (reply : bytes) : Prop :=
  ∃ p id item e, p ∈ ps ∧ reply = runtime.delivery_ack (pr_identity p) id (wire.encode (item : MailItem)) ∧
    has_recorded p id e ∧ inbox.payload_digest e = digest_of item.

Definition turn_ok (t : Turn) : Prop := match t with Uses _ m => framed (aside engine_key) m | _ => True end.

Definition sound (ps : list (Peer P)) (log : list bytes) : Prop :=
  Forall (λ p, st_wf (pr_store p)) ps ∧ Forall (backed ps) log.

(** A step of one peer. *)
Definition peer_step (f : Peer P → option bytes * Peer P) : Prop :=
  ∀ p, st_wf (pr_store p) →
    let '(reply, p') := f p in
    st_wf (pr_store p') ∧ evolves p p' ∧ ∀ r, reply = Some r → backed [p'] r.

Lemma seen_duplicate id d m :
  inbox.seen id d (m : Mem) = Ok inbox.Duplicate →
  ∃ e, inbox.entry id m = Ok (Some e) ∧ inbox.payload_digest e = d.
Proof.
  unfold inbox.seen. destruct (inbox.entry id m) as [[e|]|]; [|done|done]. cbn [bind_result].
  intros H. exists e. split; [done|]. by case_bool_decide.
Qed.

Lemma accept_step identity me record id item (platform : P) (s : FileStore) :
  st_wf s →
  let '(ack, _, _, s') := runtime.accept_delivery identity me record id item platform s in
  st_wf s' ∧
  (∀ id' e, inbox.entry id' (st_view s) = Ok (Some e) → inbox.entry id' (st_view s') = Ok (Some e)) ∧
  ∀ r, ack = Some r → r = runtime.delivery_ack identity id (wire.encode item) ∧
    ∃ e, inbox.entry id (st_view s') = Ok (Some e) ∧ inbox.payload_digest e = digest_of item.
Proof.
  intros Hwf. pose proof (accept_delivery_cases identity me record id item platform s Hwf) as H.
  destruct (runtime.accept_delivery _ _ _ _ _ _ _) as [[[ack events] p'] s'].
  assert (∀ m', remembers id (digest_of item) (st_view s) m' → ∀ id' e,
    inbox.entry id' (st_view s) = Ok (Some e) → inbox.entry id' m' = Ok (Some e)) as Hkeep.
  { intros m' (Hn & _ & Ho) id' e He. rewrite Ho; [done|]. intros ->. congruence. }
  inversion H as [? Hv Hw|Hid Hl Hs|? ? Hid Hl Hm Hw|? Hm Hw]; subst.
  - split_and!; [done|by rewrite Hv|done].
  - split_and!; [done|done|]. intros r [= <-]. split; [done|].
    by apply seen_duplicate, seen_view.
  - split_and!; [done|by apply Hkeep|]. intros r [= <-]. split; [done|].
    destruct Hm as (_ & [now Hm] & _). by eexists.
  - split_and!; [done|by apply Hkeep|done].
Qed.

Lemma serve_step frame : peer_step (serve frame).
Proof.
  intros p Hwf. unfold serve, serve_connection.
  assert (let p' := with_store p (pr_platform p) (pr_store p) in
    st_wf (pr_store p') ∧ evolves p p' ∧ ∀ r, @None bytes = Some r → backed [p'] r) as Hidle
    by (by split_and!).
  destruct (_ || _); [exact Hidle|].
  destruct (wire.decode frame) as [[id item|ack|want|records]|e]; try exact Hidle.
  destruct (runtime.mail_item_sender_device item); [|exact Hidle].
  destruct (pr_record p) as [record|]; [|exact Hidle].
  pose proof (accept_step (pr_identity p) (r_handle (sg_record record)) record id item (pr_platform p)
    (pr_store p) Hwf) as H.
  destruct (runtime.accept_delivery _ _ _ _ _ _ _) as [[[ack events] p'] s'].
  destruct H as (Hwf' & Hkeep & Hack). split_and!; [done|by split|].
  intros r Hr. destruct (Hack r Hr) as (-> & e & He & Hd).
  exists (with_store p p' s'), id, item, e. split_and!; try done. by left.
Qed.

Lemma reboot_step script unreadable : peer_step (reboot_peer script unreadable).
Proof.
  intros p Hwf. destruct (reopen_view script unreadable (pr_store p) Hwf) as [Hw Hv].
  split_and!; [done| |done]. split; [done|]. intros id e. unfold has_recorded.
  cbn [reboot_peer with_store pr_store]. by rewrite Hv.
Qed.

Lemma uses_step m : framed (aside engine_key) m → peer_step (peer_uses m).
Proof.
  intros Hm p Hwf. specialize (Hm (pr_store p)). split_and!; [by apply Hm| |done]. split; [done|].
  intros id e. unfold has_recorded. cbn [peer_uses with_store pr_store].
  by rewrite (aside_entry (pr_store p) _ id Hm Hwf).
Qed.

Lemma backed_evolves ps ps' reply : Forall2 evolves ps ps' → backed ps reply → backed ps' reply.
Proof.
  intros Hps (p & id & item & e & Hp & -> & He & Hd).
  apply list_elem_of_lookup in Hp as [i Hi].
  destruct (Forall2_lookup_l _ _ _ _ _ Hps Hi) as (p' & Hi' & Hid & Hk).
  exists p', id, item, e. rewrite Hid. split_and!; auto. by eapply list_elem_of_lookup_2.
Qed.

Lemma on_peer_sound i f ps log :
  peer_step f → sound ps log →
  let '(reply, ps', log') := on_peer i f ps log in
  sound ps' log' ∧ Forall2 evolves ps ps' ∧ ∀ r, reply = Some r → backed ps' r.
Proof.
  intros Hf [Hwf Hlog]. unfold on_peer. destruct (ps !! i) as [p|] eqn:Hi; [|by split_and!].
  pose proof (Hf p (proj1 (list.Forall_lookup _ _) Hwf _ _ Hi)) as H. destruct (f p) as [reply p'].
  destruct H as (Hwf' & Hev & Hback).
  assert (Forall2 evolves ps (<[i:=p']> ps)) as Hps.
  { rewrite <-(list_insert_id ps i p Hi) at 1. by apply list.Forall2_insert. }
  assert (∀ r, reply = Some r → backed (<[i:=p']> ps) r) as Hr.
  { intros r Hr. destruct (Hback r Hr) as (q & id & item & e & ->%list_elem_of_singleton & Hq).
    exists p', id, item, e. split; [|done]. apply (list_elem_of_lookup_2 _ i).
    apply list_lookup_insert_eq. by eapply lookup_lt_Some. }
  split_and!; [|done|done]. split; [by apply list.Forall_insert|]. apply Forall_app. split.
  - eapply list.Forall_impl; [exact Hlog|]. intros r. by apply backed_evolves.
  - destruct reply as [r|]; [|done]. apply list.Forall_singleton. by apply Hr.
Qed.

(** A call, whatever the network does with it: only backed acknowledgements come back. *)
Lemma carry_sound frame turns ps log :
  Forall turn_ok turns → sound ps log →
  let '(answer, ps', log', turns') := carry frame turns ps log in
  sound ps' log' ∧ Forall turn_ok turns' ∧ Forall2 evolves ps ps' ∧
  ∀ input, answer = Some input → backed ps' input ∨ noise input = Some input.
Proof.
  revert ps log. induction turns as [|t turns IH]; intros ps log Ht Hs; cbn [carry]; [by split_and!|].
  apply list.Forall_cons in Ht as [Ht Hts].
  assert (∀ i f, peer_step f →
    let '(_, ps1, log1) := on_peer i f ps log in
    let '(answer, ps', log', turns') := carry frame turns ps1 log1 in
    sound ps' log' ∧ Forall turn_ok turns' ∧ Forall2 evolves ps ps' ∧
    ∀ input, answer = Some input → backed ps' input ∨ noise input = Some input) as Hother.
  { intros i f Hf. pose proof (on_peer_sound i f ps log Hf Hs) as H.
    destruct (on_peer i f ps log) as [[r ps1] log1]. destruct H as (Hs1 & Hps1 & _).
    specialize (IH ps1 log1 Hts Hs1). destruct (carry frame turns ps1 log1) as [[[a ps'] log'] ts'].
    destruct IH as (H1 & H2 & H3 & H4). split_and!; try done. by transitivity ps1. }
  destruct t as [|i answered|k|input|i other|i script unreadable|i m].
  - by split_and!.
  - pose proof (on_peer_sound i (serve frame) ps log (serve_step frame) Hs) as H.
    destruct (on_peer i (serve frame) ps log) as [[r ps1] log1]. destruct H as (Hs1 & Hps1 & Hr).
    split_and!; try done. intros input Hi. left. apply Hr. by destruct answered.
  - split_and!; try done. intros input Hi. left. destruct Hs as [_ Hlog].
    exact (proj1 (list.Forall_lookup _ _) Hlog _ _ Hi).
  - split_and!; try done. intros input' Hi. right. unfold noise in *.
    destruct (wire.decode input) as [[]|] eqn:E; try discriminate Hi; injection Hi as <-; by rewrite E.
  - specialize (Hother i (serve other) (serve_step other)).
    by destruct (on_peer i (serve other) ps log) as [[? ?] ?].
  - specialize (Hother i _ (reboot_step script unreadable)).
    by destruct (on_peer i _ ps log) as [[? ?] ?].
  - specialize (Hother i _ (uses_step m Ht)). by destruct (on_peer i _ ps log) as [[? ?] ?].
Qed.

(** ** What an acknowledgement proves *)
Definition net_ok (h : Net P) : Prop := sound (nw_peers h) (nw_log h) ∧ Forall turn_ok (nw_turns h).

Definition net_evolves (h h' : Net P) : Prop := Forall2 evolves (nw_peers h) (nw_peers h').
#[export] Instance net_evolves_preorder : PreOrder net_evolves.
Proof.
  split; [intros h; unfold net_evolves; reflexivity|].
  intros h1 h2 h3. unfold net_evolves. apply transitivity.
Qed.

(** The holder of a device key has the delivery on record, with this payload. *)
Definition recorded (device : DevicePublicKey) (id : str) (payload : bytes) (h : Net P) : Prop :=
  ∃ p e, p ∈ nw_peers h ∧ Identity.device_public (pr_identity p) = device ∧
    has_recorded p id e ∧ inbox.payload_digest e = payload_digest payload.

Lemma backed_verified ps input id payload device :
  backed ps input → runtime.verify_delivery_ack input id payload device = true →
  ∃ p e, p ∈ ps ∧ Identity.device_public (pr_identity p) = device ∧ has_recorded p id e ∧
    inbox.payload_digest e = payload_digest payload.
Proof.
  intros (p & id' & item & e & Hp & -> & He & Hd). unfold runtime.verify_delivery_ack,
    runtime.delivery_ack. rewrite wire.decode_encode.
  destruct (ack_verify _ _ _ _) as [[]|] eqn:Hv; [intros _|done].
  apply ack_verify_Ok in Hv as (H1 & _ & H3 & H4 & _). unfold accepted in H1, H3, H4.
  cbn [delivery_id recipient_device ack_digest] in *. subst id'.
  exists p, e. split_and!; [done|done|done|]. by rewrite Hd.
Qed.

(** The network call of the runtime. *)
Lemma on_node_sound node destination frame (net : runtime.DirectNetwork unit (Net P)) :
  net_ok (runtime.dn_host net) →
  let '(answer, net') := runtime.on_node node destination frame net in
  net_ok (runtime.dn_host net') ∧ net_evolves (runtime.dn_host net) (runtime.dn_host net') ∧
  ∀ input, answer = Some input → ∀ id payload device,
    runtime.verify_delivery_ack input id payload device = true →
    recorded device id payload (runtime.dn_host net').
Proof.
  intros [Hs Ht]. unfold runtime.on_node. cbn [send_and_wait net_reticulum].
  pose proof (carry_sound frame _ _ _ Ht Hs) as H. destruct (carry _ _ _ _) as [[[a ps] log] ts].
  destruct H as (H1 & H2 & H3 & H4). cbn [runtime.with_host runtime.dn_host]. split_and!; [done|done|].
  intros input Hi id payload device Hv. destruct (H4 input Hi) as [Hb|Hn].
  - exact (backed_verified ps input id payload device Hb Hv).
  - unfold noise in Hn. unfold runtime.verify_delivery_ack in Hv.
    destruct (wire.decode input) as [[]|]; discriminate.
Qed.

Lemma reticulum_sound (net : runtime.DirectNetwork unit (Net P)) :
  runtime.dn_host (runtime.reticulum net).2 = runtime.dn_host net.
Proof.
  unfold runtime.reticulum. destruct (negb _); [done|]. by destruct (runtime.dn_reticulum net).
Qed.

Lemma recorded_evolves device id payload h h' :
  net_evolves h h' → recorded device id payload h → recorded device id payload h'.
Proof.
  intros Hev (p & e & Hp & Hd & He & Hdig). apply list_elem_of_lookup in Hp as [i Hi].
  destruct (Forall2_lookup_l _ _ _ _ _ Hev Hi) as (p' & Hi' & Hid & Hk).
  exists p', e. split_and!; [by eapply list_elem_of_lookup_2|by rewrite Hid|by apply Hk|done].
Qed.

(** A push that reports success. *)
Lemma direct_push_sound device id item (net : runtime.DirectNetwork unit (Net P)) :
  net_ok (runtime.dn_host net) →
  let '(ok, net') := runtime.direct_push device id item net in
  net_ok (runtime.dn_host net') ∧ net_evolves (runtime.dn_host net) (runtime.dn_host net') ∧
  (ok = true → recorded (device_key (sd_record (signed device))) id (wire.encode item)
                 (runtime.dn_host net')).
Proof.
  intros Hok. unfold runtime.direct_push. pose proof (reticulum_sound net) as Hh.
  destruct (runtime.reticulum net) as [node net1]. cbn [snd] in Hh.
  destruct node as [node|]; [|by rewrite Hh].
  rewrite <-Hh in Hok. pose proof (on_node_sound node (Records.reticulum device)
    (runtime.delivery_frame id item) net1 Hok) as H.
  destruct (runtime.on_node _ _ _ net1) as [answer net2]. rewrite <-Hh. destruct H as (H1 & H2 & H3).
  destruct answer as [input|]; [|by split_and!]. split_and!; [done|done|]. by apply H3.
Qed.
End Peers.
