(* ===== verification/Delivered.v ===== *)
(** * Delivered: what a sender's outbox says of its recipients

    The threads of a sending client - flushes, retries, sends, the user's own
    commands - share its store and its network and interleave at every call.  On
    any lawful store and any network of [Peers], an entry is marked delivered
    only if a client has the delivery on record. *)

From S2P Require Import Prelude Interleave Std Crypto Wire Identity UserId Records X3DH Group Message Delivery Storage FileStore LocalState Antirollback History Groups WireOps Peerbook Outbox OutboxProps Flow RegistryClient Client Runtime Shell Once Frame Acceptance Peers Instances.

(** Every key but those of the outbox. *)
Definition side_key (k : bytes) : Prop := take 2 k ≠ b#"ou".

Section Side.
Context {crypto : Crypto} {S : Type} `{!Storage S, !LawfulStorage S, !Postcard outbox.OutboxEntry,
  !Postcard (list outbox.OutboxEntry), !Postcard (list outbox.LegacyOutboxEntry), !Postcard (list str)}.

Lemma load_entries_same ids (m m' : Mem) :
  (∀ i, m' !! outbox.entry_key i = m !! outbox.entry_key i) →
  outbox.load_entries ids m' = outbox.load_entries ids m.
Proof.
  intros Hk. induction ids as [|i ids IH]; [done|]. cbn [outbox.load_entries st_get mem_storage].
  by rewrite Hk, IH.
Qed.

Lemma load_aside (m m' : Mem) :
  (∀ k, ¬ side_key k → m' !! k = m !! k) → outbox.load m' = outbox.load m.
Proof.
  intros Hk. unfold outbox.load. cbn [st_get mem_storage].
  rewrite !Hk by (intros H; by apply H). destruct (m !! outbox.INDEX_KEY); [|done].
  cbn [bind_result]. destruct (outbox.decode_index _); [|done]. cbn [bind_result].
  apply load_entries_same. intros i. apply Hk. intros H. by apply H.
Qed.

(** The queue after a step, as the others may rely on it. *)
Definition out_evolves (m m' : Mem) : Prop :=
  ∀ es, queue m es → ∃ es' extra, queue m' (es' ++ extra) ∧ Forall2 evolved es es'.

#[export] Instance out_evolves_preorder : PreOrder out_evolves.
Proof.
  split.
  - intros m es Hq. exists es, []. rewrite app_nil_r. split; [done|reflexivity].
  - intros m1 m2 m3 H12 H23 es Hq. destruct (H12 es Hq) as (es2 & x2 & Hq2 & HF2).
    destruct (H23 _ Hq2) as (es3 & x3 & Hq3 & HF3).
    apply Forall2_app_inv_l in HF3 as (l1 & l2 & HF1 & _ & ->).
    exists l1, (l2 ++ x3). rewrite (assoc_L (++)). split; [done|]. by transitivity es2.
Qed.

Lemma queue_functional (m : Mem) es es' : queue m es → queue m es' → es = es'.
Proof. intros [H _] [H' _]. congruence. Qed.

Lemma out_evolves_queue (m m' : Mem) es : queue m es → queue m' es → out_evolves m m'.
Proof.
  intros Hq Hq' es' Hes'. rewrite (queue_functional _ _ _ Hes' Hq). exists es, [].
  rewrite app_nil_r. split; [done|reflexivity].
Qed.
Lemma out_evolves_spec (m m' : Mem) es o : queue m es → queue m' (spec o es).2 → out_evolves m m'.
Proof.
  intros Hq Hq' es' Hes'. rewrite (queue_functional _ _ _ Hes' Hq).
  destruct (spec_evolves o es) as (es1 & x & He & HF & _). rewrite He in Hq'. by exists es1, x.
Qed.
End Side.

(** ** The invariant of a sending client *)
Section Sender.
Context {crypto : Crypto} {laws : CryptoLaws} {S PS P : Type} `{!Storage S, !LawfulStorage S, !Platform PS, !Platform P,
    !Postcard (list StorageMutation)}
  `{!Postcard IdentityClaim, !Postcard (WalletPublicKey * DeviceRecord), !Postcard DeviceRecord,
    !Postcard ReachabilityRecord, !Postcard VersionPins, !Postcard WalletPublicKey,
    !Postcard contacts.Contact, !Postcard (list str), !Postcard (list (str * str)),
    !Postcard AppMessage, !Postcard attachments.StoredAttachment, !Postcard StoredGroup,
    !Postcard (list StoredMessage), !Postcard (list GroupStoredMessage), !Postcard SegMeta,
    !Postcard (list peerbook.PeerRecord), !Json GroupInvitePayload, !Json GroupLeavePayload,
    !Postcard outbox.OutboxEntry, !Postcard (list outbox.OutboxEntry),
    !Postcard (list outbox.LegacyOutboxEntry), !Postcard inbox.AcceptedDelivery,
    !Postcard (list inbox.AcceptedDelivery), !Postcard MailItem, !Postcard PeerFrame,
    !Postcard AckBody, !Postcard SignedRecord}.

#[local] Abbreviation Network := (runtime.DirectNetwork unit (Net P)).
#[local] Abbreviation State := (runtime.Shared S PS Network).
#[local] Abbreviation Thread := (Prog State error).

Definition host (s : State) : Net P := runtime.dn_host (runtime.sh_net s).
Definition mem (s : State) : Mem := st_view (runtime.sh_store s).

(** Some client has the delivery on record. *)
Definition settled (id : str) (h : Net P) : Prop :=
  ∃ p e, p ∈ nw_peers h ∧ has_recorded p id e.
Definition honest (h : Net P) (e : outbox.OutboxEntry) : Prop :=
  outbox.status e = outbox.Delivered → settled (outbox.id e) h.

Record inv (s : State) : Prop := {
  inv_store : st_wf (runtime.sh_store s);
  inv_net : net_ok (host s);
  inv_queue : ∃ es, queue (mem s) es ∧ Forall (honest (host s)) es
}.

(** What a step guarantees to the other threads. *)
Definition progress (s s' : State) : Prop :=
  net_evolves (host s) (host s') ∧ out_evolves (mem s) (mem s').

#[export] Instance progress_preorder : PreOrder progress.
Proof.
  split; [by intros s; split|]. intros s1 s2 s3 [H1 H2] [H3 H4].
  split; [by transitivity (host s2)|by transitivity (mem s2)].
Qed.

Lemma settled_evolves id h h' : net_evolves h h' → settled id h → settled id h'.
Proof.
  intros Hev (p & e & Hp & He). apply list_elem_of_lookup in Hp as [i Hi].
  destruct (Forall2_lookup_l _ _ _ _ _ Hev Hi) as (p' & Hi' & _ & Hk).
  exists p', e. split; [by eapply list_elem_of_lookup_2|by apply Hk].
Qed.
Lemma recorded_settled device id payload h : recorded device id payload h → settled id h.
Proof. intros (p & e & Hp & _ & He & _). by exists p, e. Qed.

Lemma honest_evolves h h' es : net_evolves h h' → Forall (honest h) es → Forall (honest h') es.
Proof.
  intros Hev Hes. eapply list.Forall_impl; [exact Hes|]. intros e He Hd.
  by apply (settled_evolves _ h), He.
Qed.

(** *** Uses of the outbox that keep it honest *)
Definition allowed (h : Net P) (o : op) : Prop :=
  match o with
  | MarkDelivered i | RecordAttempt i _ true => settled i h
  | _ => True
  end.

Lemma honest_map h (p : outbox.OutboxEntry → bool) f es :
  (∀ e, p e = true → honest h e → honest h (f e)) →
  Forall (honest h) es → Forall (honest h) (map (λ e, if p e then f e else e) es).
Proof.
  intros Hf Hes. induction Hes as [|e es He _ IH]; cbn [map]; constructor; [|done].
  destruct (p e) eqn:Hp; auto.
Qed.

Lemma honest_spec h o es :
  allowed h o → Forall (honest h) es → Forall (honest h) (spec o es).2.
Proof.
  intros Ho Hes.
  assert (∀ i s, (s = outbox.Delivered → settled i h) → Forall (honest h) (mark i s es).2) as Hmark.
  { intros i s Hs. apply honest_map; [|done]. intros e Hid%bool_decide_eq_true _.
    unfold honest, outbox.apply_status. rewrite <-Hid in Hs.
    destruct (bool_decide (s = outbox.Pending)); exact Hs. }
  destruct o; cbn [spec]; try (apply Hmark; done).
  - destruct (List.find _ es); [by destruct (_ && _)|]. apply Forall_app. split; [done|].
    by apply list.Forall_singleton.
  - by apply honest_map.
  - apply honest_map; [|done]. intros e [Hid Hp]%andb_true_iff He. unfold honest, outbox.attempted.
    apply is_pending_spec in Hp as [Hp _]. apply bool_decide_eq_true in Hid.
    destruct accepted; cbn; [intros _; by rewrite Hid|by rewrite Hp].
  - destruct (_ && existsb _ es); [done|]. cbn [snd]. clear Hmark Ho.
    induction Hes as [|e es He Hes IH]; cbn [update_first]; [done|].
    destruct (_ && _) eqn:Hp; constructor; try done.
    apply andb_true_iff in Hp as [_ Hp]. apply is_pending_spec in Hp as [Hp _].
    unfold honest. cbn. by rewrite Hp.
Qed.

Definition set_store (s : State) (store : S) : State :=
  runtime.mkShared store (runtime.sh_platform s) (runtime.sh_net s).

Lemma outbox_step o (s : State) :
  inv s → allowed (host s) o →
  let s' := set_store s (OutboxProps.run o (runtime.sh_store s)).2 in inv s' ∧ progress s s'.
Proof.
  intros [Hwf Hnet (es & Hq & Hes)] Ho.
  pose proof (run_queue o (runtime.sh_store s) es Hwf Hq) as H.
  destruct (OutboxProps.run o (runtime.sh_store s)) as [r store]. cbn [snd]. destruct H as [Hwf' H].
  assert (queue (st_view store) es ∨ queue (st_view store) (spec o es).2) as [Hq'|Hq']
    by (destruct H as [[_ H]|(msg & _ & [H|H])]; auto).
  - split; [split; [done|done|by exists es]|]. split; [reflexivity|]. by apply (out_evolves_queue _ _ es).
  - split; [split; [done|done|]|split; [reflexivity|by apply (out_evolves_spec _ _ es o)]].
    exists (spec o es).2. split; [done|]. by apply honest_spec.
Qed.

(** Uses of the rest of the store. *)
Lemma side_step {A} (m : M S A) (s : State) :
  framed (aside side_key) m → inv s →
  let s' := set_store s (m (runtime.sh_store s)).2 in inv s' ∧ progress s s'.
Proof.
  intros Hm [Hwf Hnet (es & Hq & Hes)]. destruct (Hm _ Hwf) as [Hwf' Hk].
  assert (queue (st_view (m (runtime.sh_store s)).2) es) as Hq'.
  { destruct Hq as [Hl Hnd]. split; [|done]. by rewrite (load_aside _ _ Hk). }
  split; [by split; [| |exists es]|]. split; [reflexivity|]. by apply (out_evolves_queue _ _ es).
Qed.

(** Uses of the network. *)
Definition set_net (s : State) (net : Network) : State :=
  runtime.mkShared (runtime.sh_store s) (runtime.sh_platform s) net.
Lemma net_step (s : State) net :
  inv s → net_ok (runtime.dn_host net) → net_evolves (host s) (runtime.dn_host net) →
  let s' := set_net s net in inv s' ∧ progress s s'.
Proof.
  intros [Hwf Hnet (es & Hq & Hes)] Hok Hev. split; [|by split].
  split; [done|done|]. exists es. split; [done|]. by apply (honest_evolves (host s)).
Qed.

(** ** The threads *)
Definition tame {A} (m : Thread A) : Prop := ∀ K, safe inv progress m K (λ _ _, True).

Lemma tame_ret {A} (r : result error A) : tame (Ret r).
Proof. by intros K. Qed.
Lemma tame_bind {A B} (m : Thread A) (k : A → Thread B) :
  tame m → (∀ a, tame (k a)) → tame (bindP m k).
Proof. intros Hm Hk K. eapply safe_bind; [apply Hm|by intros a K' _; apply Hk|done]. Qed.
Lemma tame_catch {A B} (m : Thread A) (k : result error A → Thread B) :
  tame m → (∀ r, tame (k r)) → tame (catchP m k).
Proof. intros Hm Hk K. eapply safe_catch; [apply Hm|by intros r K' _; apply Hk]. Qed.
Lemma tame_atom {A X} (f : State → X * State) (k : X → Thread A) :
  (∀ s, inv s → inv (f s).2 ∧ progress s (f s).2) → (∀ x, tame (k x)) → tame (Atom f k).
Proof.
  intros Hf Hk K s Hs _. destruct (Hf s Hs) as [H1 H2]. split_and!; [done|done|].
  exists (λ _, True). split_and!; [done|done|apply Hk].
Qed.

(** A section of the store: a read, a use of the outbox, a use beside it. *)
Lemma locked_snd {A} (m : M S A) (s : State) :
  snd (let '(r, store) := m (runtime.sh_store s) in
       (r, runtime.mkShared store (runtime.sh_platform s) (runtime.sh_net s)))
  = set_store s (m (runtime.sh_store s)).2.
Proof. by destruct (m (runtime.sh_store s)). Qed.

Lemma set_store_same (s : State) : set_store s (runtime.sh_store s) = s.
Proof. by destruct s. Qed.

Lemma tame_locked {A} (m : M S A) :
  (∀ s, inv s → let s' := set_store s (m (runtime.sh_store s)).2 in inv s' ∧ progress s s') →
  tame (runtime.locked m).
Proof.
  intros Hm. apply tame_atom; [|intros x; apply tame_ret]. intros s Hs. rewrite locked_snd. by apply Hm.
Qed.
Lemma tame_read {A} (f : S → result error A) : tame (runtime.locked (readM f)).
Proof. apply tame_locked. intros s Hs. cbn [readM snd]. rewrite set_store_same. by split. Qed.

(** A call of the outbox, whatever its answer is made into. *)
Lemma tame_op {A} (m : M S A) o :
  (∀ s, (m s).2 = (OutboxProps.run o s).2) → (∀ h, allowed h o) → tame (runtime.locked m).
Proof. intros Hm Ho. apply tame_locked. intros s Hs. cbv zeta. rewrite Hm. by apply outbox_step. Qed.
Lemma try_snd {A} (m : M S A) s : (tryM m s).2 = (m s).2.
Proof. unfold tryM. by destruct (m s). Qed.

Lemma tame_failed i : tame (runtime.locked (outbox.mark_failed i)).
Proof. by apply (tame_op _ (MarkFailed i)). Qed.
Lemma tame_not_accepted i now : tame (runtime.locked (outbox.record_attempt i now false)).
Proof. by apply (tame_op _ (RecordAttempt i now false)). Qed.
Lemma tame_readdress i j sl item : tame (runtime.locked (outbox.readdress_pending i j sl item)).
Proof. by apply (tame_op _ (Readdress i j sl item)). Qed.

Lemma tame_on_net {A} (f : Network → A * Network) :
  (∀ net, net_ok (runtime.dn_host net) →
     net_ok (runtime.dn_host (f net).2) ∧ net_evolves (runtime.dn_host net) (runtime.dn_host (f net).2)) →
  tame (runtime.on_net f).
Proof.
  intros Hf. apply tame_atom; [|intros x; apply tame_ret]. intros s Hs.
  destruct (Hf (runtime.sh_net s) (inv_net s Hs)) as [H1 H2].
  destruct (f (runtime.sh_net s)) as [a net]. by apply net_step.
Qed.
Lemma tame_random {A} (f : PS → A * PS) : tame (runtime.on_random f).
Proof.
  apply tame_atom; [|intros x; apply tame_ret]. intros s [Hwf Hnet Hq].
  destruct (f (runtime.sh_platform s)) as [a p]. by split.
Qed.

(** *** A push, and the marking of the entry it delivered *)
Definition pushed (device : Device) (id : str) (item : MailItem) (r : result error bool)
    (K : State → Prop) : Prop :=
  r = Ok true → stable inv progress K ∧ ∀ s, K s → settled id (host s).

Lemma settled_stable id : stable inv progress (λ s, settled id (host s)).
Proof. intros s s' _ _ Hs [Hev _]. by apply (settled_evolves _ (host s)). Qed.

Lemma push_safe device id item K :
  safe inv progress (runtime.push device id item) K (pushed device id item).
Proof.
  unfold runtime.push. eapply safe_bind with (Q := λ _ _, True); [|intros node K' _|by intros].
  { apply tame_on_net. intros net Hok. rewrite reticulum_sound. by split. }
  destruct node as [node|]; [|by intros]. intros s Hs _.
  pose proof (on_node_sound node (Records.reticulum device) (runtime.delivery_frame id item)
    (runtime.sh_net s) (inv_net s Hs)) as H.
  destruct (runtime.on_node _ _ _ _) as [answer net]. cbn [fst snd]. destruct H as (H1 & H2 & H3).
  destruct (net_step s net Hs H1 H2) as [Hinv Hprog]. split_and!; [done|done|].
  destruct answer as [input|]; cbn [bindP].
  - destruct (runtime.verify_delivery_ack input id (wire.encode item) _) eqn:Hv.
    + exists (λ s, settled id (host s)). split_and!; [apply settled_stable| |].
      * apply (recorded_settled (device_key (sd_record (signed device))) id (wire.encode item)).
        by apply (H3 input eq_refl).
      * intros _. split; [apply settled_stable|done].
    + exists (λ _, True). split_and!; [done|done|]. by intros [=].
  - exists (λ _, True). split_and!; [done|done|]. by intros [=].
Qed.

(** Recording the attempt, once the push is known to have succeeded. *)
Lemma attempt_tame {A B} device id item now (m : bool → M S A) (k : bool → A → Thread B) :
  (∀ b s, (m b s).2 = (OutboxProps.run (RecordAttempt id now b) s).2) →
  (∀ b a, tame (k b a)) →
  tame (let# accepted := runtime.push device id item in
        let# a := runtime.locked (m accepted) in k accepted a).
Proof.
  intros Hm Hk K. eapply safe_bind; [apply push_safe| |done]. intros b K' Hb.
  eapply safe_bind with (Q := λ _ _, True); [|by intros a K'' _; apply Hk|done].
  intros s Hs HK. unfold runtime.locked. rewrite locked_snd, Hm.
  destruct (outbox_step (RecordAttempt id now b) s Hs) as [Hinv Hprog].
  { destruct b; [|done]. destruct (Hb eq_refl) as [_ Hset]. by apply Hset. }
  split_and!; [done|done|]. by exists (λ _, True).
Qed.

(** *** The registry behind the network changes nothing of it *)
Context `{!Agent (Net P)} (Hagent : ∀ method url authorization body h,
  net_ok h → net_ok (call_agent method url authorization body h).2 ∧
             net_evolves h (call_agent method url authorization body h).2).

Definition keeps_net {A} (m : M (Net P) A) : Prop :=
  ∀ h, net_ok h → net_ok (m h).2 ∧ net_evolves h (m h).2.

Lemma keeps_net_bind {A B} (m : M (Net P) A) (k : A → M (Net P) B) :
  keeps_net m → (∀ a, keeps_net (k a)) → keeps_net (bindM m k).
Proof.
  intros Hm Hk h Hh. unfold bindM. destruct (Hm h Hh) as [H1 H2]. destruct (m h) as [[a|e] h1]; [|done].
  destruct (Hk a h1 H1) as [H3 H4]. split; [done|]. by transitivity h1.
Qed.
Lemma keeps_net_const {A} (r : result error A) : keeps_net (λ h, (r, h)).
Proof. by intros h Hh. Qed.

Lemma get_optional_agent action url authorization (h : Net P) :
  (get_optional action url authorization h).2 = (call_agent GET url authorization [] h).2.
Proof.
  unfold get_optional. destruct (call_agent _ _ _ _ h) as [r h']. cbn [snd]. by repeat case_match.
Qed.
Lemma keeps_net_user_record registry u : keeps_net (get_record_for_user registry u).
Proof.
  unfold get_record_for_user, get_record_at.
  apply keeps_net_bind; [apply keeps_net_const|]. intros user_id.
  apply keeps_net_bind; [|intros r; destruct (match r with Some _ => _ | None => _ end); apply keeps_net_const].
  apply keeps_net_bind.
  - intros h Hh. rewrite get_optional_agent. by apply Hagent.
  - intros [response|]; [|apply keeps_net_const].
    apply keeps_net_bind; [apply keeps_net_const|]. intros b.
    apply keeps_net_bind; [apply keeps_net_const|]. intros record.
    apply keeps_net_bind; [apply keeps_net_const|]. intros u'. apply keeps_net_const.
Qed.

Lemma tame_registry u : tame (runtime.current_registry_record u).
Proof.
  apply tame_bind; [apply tame_on_net; intros net Hok; by split|]. intros [url|]; [|apply tame_ret].
  apply tame_bind; [apply tame_ret|]. intros registry. apply tame_atom; [|intros r; apply tame_ret].
  intros s Hs. destruct (keeps_net_user_record registry (UserId.as_str u) (host s) (inv_net s Hs)) as [H1 H2].
  unfold host in *. destruct (get_record_for_user _ _ _) as [r h]. by apply net_step.
Qed.

(** *** The flush of the native clients *)
Lemma framed_try {A} (R : S → S → Prop) (m : M S A) : framed R m → framed R (tryM m).
Proof. intros Hm s. rewrite try_snd. apply Hm. Qed.

Lemma framed_apply_record u record : framed (aside side_key) (client.apply_registry_record u record).
Proof.
  pose proof (lawful_frame (S := S) side_key) as HR.
  unfold client.apply_registry_record, client.require_known. solve_frame.
  apply (framed_book_in side_key _ HR); [intros u' w'|]; intros H; discriminate H.
Qed.

Lemma tame_use {A} (m : M S A) : framed (aside side_key) m → tame (runtime.locked m).
Proof. intros Hm. apply tame_locked. intros s Hs. by apply side_step. Qed.

Lemma tame_attempt device id item now : tame (runtime.attempt_parked_delivery device id item now).
Proof.
  apply (attempt_tame device id item now (λ accepted,
    let slot := device_slot (device_key (sd_record (signed device))) in
    let! _ := reachability.record slot reachability.Direct accepted now in
    outbox.record_attempt id now accepted) (λ accepted _, okP accepted)); [done|].
  intros b a. apply tame_ret.
Qed.

Lemma tame_flush_entry identity now entry : tame (runtime.flush_entry identity now entry).
Proof.
  unfold runtime.flush_entry. cbv zeta. set (id := outbox.id entry).
  assert (∀ K : Thread bool, K = (let# _ := runtime.locked (outbox.mark_failed id) in okP false) →
    tame K) as Hfail by (intros K ->; apply tame_bind; [apply tame_failed|intros ?; apply tame_ret]).
  assert (∀ K : Thread bool, K = (let# _ := runtime.locked (outbox.record_attempt id now false) in okP false) →
    tame K) as Hlater by (intros K ->; apply tame_bind; [apply tame_not_accepted|intros ?; apply tame_ret]).
  destruct (UserId.new _) as [u|e]; [|by apply Hfail].
  apply tame_catch; [apply tame_registry|]. intros fetched.
  apply tame_bind.
  { destruct fetched as [[record|]|e]; [|apply tame_ret..].
    apply tame_use, framed_try, framed_apply_record. }
  intros _. apply tame_bind; [apply tame_read|]. intros [record|]; [|by apply Hlater].
  destruct (is_err (verify record)); [by apply Hlater|].
  destruct (outbox.item entry) as [item|]; [|by apply Hfail].
  destruct (negb _); [|apply tame_attempt].
  destruct (outbox.pairwise_plaintext entry) as [plaintext|]; [|by apply Hfail].
  apply tame_bind; [apply tame_random|]. intros [new_item|e]; [|by apply Hfail].
  apply tame_bind; [apply tame_readdress|]. intros replaced.
  destruct (negb replaced); [apply tame_ret|apply tame_attempt].
Qed.

Lemma tame_flush identity now : tame (runtime.flush_shared_outbox identity now).
Proof.
  unfold runtime.flush_shared_outbox. apply tame_bind; [apply tame_read|]. intros entries.
  apply tame_bind; [|intros n; apply tame_bind; [apply tame_read|intros ?; apply tame_ret]].
  induction entries as [|entry entries IH]; cbn [runtime.flush_loop]; [apply tame_ret|].
  apply tame_bind; [apply tame_flush_entry|]. intros b.
  apply tame_bind; [exact IH|]. intros n. apply tame_ret.
Qed.

(** *** The retry worker of the command line client *)
Lemma tame_ignoring_op {A} (m : M S A) o :
  (∀ s, (m s).2 = (OutboxProps.run o s).2) → (∀ h, allowed h o) → tame (cli.ignoring m).
Proof.
  intros Hm Ho. apply tame_bind; [|intros ?; apply tame_ret].
  apply (tame_op _ o); [|done]. intros s. by rewrite try_snd.
Qed.

Lemma readdress_store identity entry device (p : PS) (store : S) :
  let '(_, _, store') := runtime.readdress_parked_delivery identity entry device p store in
  store' = store ∨ ∃ o, (∀ h, allowed h o) ∧ store' = (OutboxProps.run o store).2.
Proof.
  unfold runtime.readdress_parked_delivery. destruct (outbox.item entry) as [item|]; [|by left].
  cbv zeta. case_bool_decide; [by left|]. destruct (outbox.pairwise_plaintext entry) as [pt|]; [|by left].
  destruct (runtime.readdress_pairwise _ _ _ _ _) as [[new|e] p']; [|by left]. cbv zeta.
  set (o := Readdress (outbox.id entry) (runtime.delivery_id_for_item new)
    (device_slot (device_key (sd_record (signed device)))) new).
  change (outbox.readdress_pending _ _ _ _ store) with (OutboxProps.run o store).
  destruct (OutboxProps.run o store) as [r store'] eqn:Hr. right. exists o. by rewrite Hr.
Qed.

Lemma tame_retry_entry identity now entry : tame (cli.retry_entry identity now entry).
Proof.
  unfold cli.retry_entry. apply tame_bind; [apply tame_read|]. intros [device| |].
  - apply tame_bind.
    + apply tame_atom; [|intros r; apply tame_ret]. intros s Hs.
      pose proof (readdress_store identity entry device (runtime.sh_platform s) (runtime.sh_store s)) as H.
      destruct (runtime.readdress_parked_delivery _ _ _ _ _) as [[r p] store]. cbn [snd].
      assert (inv (set_store s store) ∧ progress s (set_store s store)) as [H1 H2].
      { destruct H as [->|(o & Ho & ->)]; [by rewrite set_store_same|by apply outbox_step]. }
      destruct H1. by split.
    + assert (tame (cli.ignoring (N := unit) (H := Net P) (client.mark_outbox_failed (outbox.id entry))))
        as Hfail by (by apply (tame_ignoring_op _ (MarkFailed (outbox.id entry)))).
      intros [[[id item]|]|e]; [|exact Hfail..].
      apply (attempt_tame device id item now (λ b, tryM (
        let! _ := tryM (reachability.record (device_slot (device_key (sd_record (signed device))))
                          reachability.Direct b now) in
        client.record_outbox_attempt id now b)) (λ _ _, okP tt)); [|intros b a; apply tame_ret].
      intros b s. by rewrite try_snd.
  - by apply (tame_ignoring_op _ (RecordAttempt (outbox.id entry) now false)).
  - by apply (tame_ignoring_op _ (MarkFailed (outbox.id entry))).
Qed.

Lemma tame_retry identity : tame (cli.retry_due_deliveries identity).
Proof.
  unfold cli.retry_due_deliveries. apply tame_bind; [apply tame_random|]. intros now.
  apply tame_bind.
  { apply tame_locked. intros s Hs. cbv zeta. rewrite try_snd. cbn [readM snd].
    rewrite set_store_same. by split. }
  intros [due|e]; [|apply tame_ret].
  induction due as [|entry due IH]; cbn [cli.retry_loop]; [apply tame_ret|].
  apply tame_bind; [apply tame_retry_entry|]. by intros _.
Qed.

(** *** A send: parked, pushed, marked *)
Lemma park_store id handle record device item plaintext now (store : S) :
  let store' := (runtime.park id handle record device item plaintext now store).2 in
  store' = store ∨ ∃ o, (∀ h, allowed h o) ∧ store' = (OutboxProps.run o store).2.
Proof.
  set (slot := device_slot (device_key (sd_record (signed device)))).
  set (o := Enqueue id (uid record, Handle.as_str handle) slot item plaintext now (U64 0)).
  assert ((outbox.enqueue_pairwise id (uid record) (Handle.as_str handle) slot item plaintext now store).2
      = store ∨ (outbox.enqueue_pairwise id (uid record) (Handle.as_str handle) slot item plaintext now store).2
      = (OutboxProps.run o store).2) as H.
  { unfold outbox.enqueue_pairwise. destruct (_ && _); [by left|]. right. cbn [OutboxProps.run o].
    unfold bindM. by destruct (outbox.enqueue_at _ _ _ _ _ _ _ store) as [[]]. }
  cbv zeta. destruct plaintext; (destruct H as [H|H]; [by left|right; by exists o]).
Qed.

Lemma store_op_step (s : State) store :
  inv s → store = runtime.sh_store s ∨ (∃ o, allowed (host s) o ∧ store = (OutboxProps.run o (runtime.sh_store s)).2) →
  inv (set_store s store) ∧ progress s (set_store s store).
Proof. intros Hs [->|(o & Ho & ->)]; [by rewrite set_store_same|by apply outbox_step]. Qed.

Definition send (recipient : Handle) (record : SignedRecord) (device : Device) (item : MailItem)
    (plaintext : option bytes) (now : u64) (s : State) : reachability.DeliveryPath * State :=
  let '(path, store, net) := runtime.deliver_or_park recipient record device item plaintext now
                               (runtime.sh_store s) (runtime.sh_net s) in
  (path, runtime.mkShared store (runtime.sh_platform s) net).

(** Parked before it is sent, and reported delivered on proof only. *)
Lemma send_step recipient record device item plaintext now (s : State) :
  inv s →
  let '(path, s') := send recipient record device item plaintext now s in
  inv s' ∧ progress s s' ∧
  (path = reachability.Direct → settled (runtime.delivery_id_for_item item) (host s')).
Proof.
  intros Hs. unfold send, runtime.deliver_or_park.
  set (id := runtime.delivery_id_for_item item).
  pose proof (park_store id recipient record device item plaintext now (runtime.sh_store s)) as Hp.
  destruct (runtime.park _ _ _ _ _ _ _ _) as [parked store1]. cbn [snd] in Hp.
  destruct (store_op_step s store1 Hs) as [H1 P1].
  { destruct Hp as [Hp|(o & Ho & Hp)]; [by left|right; by exists o]. }
  destruct parked as [[]|e]; [|split_and!; [exact H1|exact P1|done]].
  unfold runtime.deliver_direct. pose proof (direct_push_sound device id item (runtime.sh_net s)
    (inv_net _ H1)) as Hd.
  destruct (runtime.direct_push _ _ _ _) as [ok net]. destruct Hd as (Hok & Hev & Hset).
  destruct (net_step (set_store s store1) net H1 Hok Hev) as [H2 P2].
  set (s2 := set_net (set_store s store1) net) in *.
  assert (progress s s2) as P12 by (by transitivity (set_store s store1)).
  cbn [reachability.record retM]. destruct ok; cbn [reachability.is_delivered]; [|split_and!; [exact H2|exact P12|done]].
  assert (settled id (host s2)) as Hsettled by (by eapply recorded_settled, Hset).
  destruct (outbox_step (MarkDelivered id) s2 H2 Hsettled) as [H3 P3]. cbn [OutboxProps.run] in H3, P3.
  unfold client.mark_outbox_delivered. cbn [s2 set_net set_store runtime.sh_store] in H3, P3.
  destruct (outbox.mark_delivered id store1) as [r store3]. cbn [snd] in H3, P3.
  split_and!; [exact H3| |intros _; exact Hsettled]. by transitivity s2.
Qed.

(** ** The threads of a client *)
Inductive client_thread : Thread unit → Prop :=
  | ct_flush identity now :
      client_thread (let# _ := runtime.flush_shared_outbox identity now in okP tt)
  | ct_retry identity : client_thread (cli.retry_due_deliveries identity)
  | ct_send recipient record device item plaintext now :
      client_thread (Atom (send recipient record device item plaintext now) (λ _, okP tt))
  | ct_outbox o : (∀ h, allowed h o) →
      client_thread (let# _ := runtime.locked (OutboxProps.run o) in okP tt)
  | ct_store m : framed (aside side_key) m → client_thread (runtime.locked m).

Lemma client_thread_tame m : client_thread m → tame m.
Proof.
  intros [identity now|identity|recipient record device item plaintext now|o Ho|m' Hm].
  - apply tame_bind; [apply tame_flush|]. intros _. apply tame_ret.
  - apply tame_retry.
  - apply tame_atom; [|intros _; apply tame_ret]. intros s Hs.
    pose proof (send_step recipient record device item plaintext now s Hs) as H.
    destruct (send _ _ _ _ _ _ s) as [path s']. split; apply H.
  - apply tame_bind; [by apply (tame_op _ o)|]. intros _. apply tame_ret.
  - by apply tame_use.
Qed.

Lemma guaranteed_since R (l : list State) s s0 :
  PreOrder R → guaranteed R (s :: l) → s0 ∈ s :: l → R s0 s.
Proof.
  intros HR H. remember (s :: l) as h eqn:Eh. revert s l Eh.
  induction H as [s'|s' s1 h HG Hh IH]; intros s l [= <- <-] Hin.
  - apply list_elem_of_singleton in Hin as ->. reflexivity.
  - apply elem_of_cons in Hin as [->|Hin]; [reflexivity|]. transitivity s1; [by apply (IH s1 h)|done].
Qed.
Lemma steps_since handler c h c' :
  steps (Σ := State) (E := error) (A := unit) handler c h c' → snd c ∈ snd c' :: h.
Proof. induction 1 as [|h c1 c2 _ IH _]; [by left|by right]. Qed.

End Sender.
