(* ===== verification/ClientWitness.v ===== *)
(** * ClientWitness: the theorems on the client runtime at concrete inputs

    Bob receives what Alice sealed into a file store of his own, with the weak
    primitives of [Instances]. *)

From S2P Require Import Prelude Std Crypto Wire Identity UserId Records X3DH Group GroupSession Message Delivery Storage FileStore FileStoreProps Recovery LocalState LocalProps Antirollback History HistoryProps Groups Codecs WireOps Peerbook PeerbookProps Flow FlowProps EndToEnd FlowWitness Outbox OutboxProps RegistryClient Client Runtime Shell Interleave Frame Acceptance Peers Delivered Instances.

#[export] Instance DeliveryAck_codec : Codec DeliveryAck.
Proof.
  refine (codec_iso (λ a, (delivery_id a, ack_digest a, recipient_device a, ack_signature a))
    (λ '(i, d, r, s), Some (mkDeliveryAck i d r s)) _). by intros [].
Defined.
#[export] Instance DiscoveryRecord_codec : Codec DiscoveryRecord.
Proof.
  refine (codec_iso (λ d, (d_user_id d, d_handle d, d_record d))
    (λ '(u, h, r), Some (mkDiscovery u h r)) _). by intros [].
Defined.
#[export] Instance PeerFrame_codec : Codec PeerFrame.
Proof.
  refine (codec_iso (B := str * MailItem + (DeliveryAck + (list str + list DiscoveryRecord)))
    (λ f, match f with
          | DeliveryFrame i m => inl (i, m)
          | AckFrame a => inr (inl a)
          | DiscoveryRequest w => inr (inr (inl w))
          | DiscoveryResponse l => inr (inr (inr l))
          end)
    (λ s, Some (match s with
          | inl (i, m) => DeliveryFrame i m
          | inr (inl a) => AckFrame a
          | inr (inr (inl w)) => DiscoveryRequest w
          | inr (inr (inr l)) => DiscoveryResponse l
          end)) _).
  by intros [].
Defined.

(** ** Accepting *)
Definition hello_item : MailItem := Direct (sealed_by_alice (AppMessage_encode hello)).
Definition hello_id : str := runtime.delivery_id_for_item hello_item.

(** The message arrives; the process dies in the middle of the commit of a second
    copy's store; the first copy again after the restart. *)
Definition toy_arrivals : list Arrival :=
  [Arrive hello_id hello_item; Restart [] (λ _, false); Use (draft.set b#"alice" b#"hi");
   Arrive hello_id hello_item].

Definition shape (e : Event) : bool * nat := (match ev_ack e with Some _ => true | None => false end, length (ev_events e)).

Example toy_history :
  map shape (history bob bob_h bob_record toy_arrivals 50%N (fresh [])).1 =
  [(true, 1%nat); (false, 0%nat); (false, 0%nat); (true, 0%nat)].
Proof. vm_compute. reflexivity. Qed.

(** A crash before the commit, in the middle of it, and none: the message is
    applied once, and acknowledged when it comes again. *)
Definition crash_arrivals : list Arrival :=
  [Arrive hello_id hello_item; Restart [] (λ _, false); Arrive hello_id hello_item].
Example crash_histories :
  map (λ n, map shape (history bob bob_h bob_record crash_arrivals 50%N (fresh (dies_after n))).1)
    [2; 7; 99]%nat =
  [[(false, 0); (false, 0); (true, 1)]; [(false, 0); (false, 0); (true, 0)];
   [(true, 1); (false, 0); (true, 0)]]%nat.
Proof. vm_compute. reflexivity. Qed.

Lemma fresh_wf sc : st_wf (fresh sc).
Proof. exists ∅. apply fresh_shows. Qed.



(** ** Delivering
    Alice sends to Bob, whom her frame does not reach; a flush of hers, which
    had begun before, and one that begins after. *)
#[export] Instance silent_agent : Agent (Net N) := λ _ _ _ _ h, (Err Other, h).

Definition alice_client : runtime.Shared Mem N (runtime.DirectNetwork unit (Net N)) :=
  runtime.mkShared (peerbook.put bob_h bob_record ∅).2 60%N
    (runtime.mkNetwork (arr_fit 64 []) None None true
       (mkNet [mkPeer bob (Some bob_record) true true 50%N (fresh [])] []
          [Lost; Uses 0 (draft.set b#"alice" b#"hi"); Carried 0 true] true)).

Definition alice_threads : list (Prog (runtime.Shared Mem N (runtime.DirectNetwork unit (Net N))) error unit) :=
  [let# _ := runtime.flush_shared_outbox alice (U64 100) in okP tt;
   Atom (send bob_h bob_record (r_device (sg_record bob_record)) hello_item
     (Some (AppMessage_encode hello)) (U64 100)) (λ _, okP tt);
   let# _ := runtime.flush_shared_outbox alice (U64 100) in okP tt].

Definition alice_schedule : list nat := [1; 0; 0; 2; 0; 0; 0; 0; 0; 0; 0; 0; 2; 2; 2; 2; 2]%nat.
Definition statuses (m : Mem) : list bool :=
  match outbox.load m with Ok es => map (λ e, match outbox.status e with outbox.Delivered => true | _ => false end) es | Err _ => [] end.
#[local] Abbreviation after n := ((schedule (take n alice_schedule) alice_threads alice_client []).1.2).

Example alice_waits :
  map (λ n, statuses (mem (after n))) [0; 1; 6]%nat = [[]; [false]; [false]].
Proof. vm_compute. reflexivity. Qed.
Lemma alice_delivers : statuses (mem (after 17)) = [true].
Proof. vm_compute. reflexivity. Qed.

Lemma silent_agent_quiet method url authorization body (h : Net N) :
  net_ok h → net_ok (call_agent method url authorization body h).2 ∧
             net_evolves h (call_agent method url authorization body h).2.
Proof. intros Hh. split; [exact Hh|]. cbn [call_agent silent_agent snd]. reflexivity. Qed.
Lemma alice_store : st_wf (runtime.sh_store alice_client).
Proof. exact I. Qed.
Lemma alice_starts : queue (mem alice_client) [].
Proof. by split; [vm_compute|constructor]. Qed.
Lemma alice_net : net_ok (host alice_client).
Proof.
  split; [split|].
  - apply list.Forall_singleton. apply fresh_wf.
  - constructor.
  - repeat apply list.Forall_cons_2; [done| |done|constructor].
    pose proof (lawful_frame (S := FileStore) engine_key) as HR. unfold turn_ok, draft.set. solve_frame.
Qed.

Lemma alice_run :
  ∃ history pool s, steps client_thread ([], alice_client) history (pool, s) ∧ statuses (mem s) = [true].
Proof.
  destruct (start_steps (E := error) client_thread alice_threads alice_client) as [h0 Hstart].
  { repeat apply list.Forall_cons_2; [apply ct_flush|apply ct_send|apply ct_flush|constructor]. }
  pose proof (schedule_steps client_thread (take 17 alice_schedule) _ _ _ _ Hstart) as Hsteps.
  pose proof (f_equal (λ r, statuses (mem r.2))
    (schedule_state (take 17 alice_schedule) alice_threads alice_client h0)) as Hh.
  cbv beta in Hh. destruct (schedule _ _ _ h0) as [[pool s] history]. cbn [fst snd] in Hh.
  exists history, pool, s. split; [exact Hsteps|]. exact (eq_trans Hh alice_delivers).
Qed.

