(* ===== verification/Backup.v ===== *)
(** * Backup: exporting and importing an account

    [mycellium-cli/src/app/backup.rs].  The file system is a tree of the
    directories of [FileStore]; every call on it may fail or be the last one the
    process makes. *)

From S2P Require Import Prelude Std Crypto Wire Identity Storage FileStore FileStoreProps Recovery Sealing Registry Instances.

(** ** A tree of directories *)
Abbreviation Path := (list (list ascii)).

(** The files of each directory; a path is relative to the working directory. *)
Abbreviation Tree :=
  (@gmap (list (list ascii)) (@list.list_eq_dec (list ascii) (@list.list_eq_dec ascii Ascii.eq_dec))
     (@list_countable (list ascii) (@list.list_eq_dec ascii Ascii.eq_dec)
        (@list_countable ascii Ascii.eq_dec Ascii.countable)) Mem).

Record Disk : Type := mkDisk {
  d_tree : Tree; d_lock : Lock; d_unreadable : bytes → bool; d_alive : bool; d_script : list Step }.

(** A call with an effect on the tree, as [syscall] has on one directory. *)
Definition disk_call (effect : Tree → Tree) : M Disk unit := λ s,
  if negb (d_alive s) then (Err io_error, s)
  else
    let rest := tail (d_script s) in
    let next tree alive := mkDisk tree (d_lock s) (d_unreadable s) alive rest in
    match fault (default quiet_step (head (d_script s))) with
    | Fine => (Ok tt, next (effect (d_tree s)) true)
    | FailBefore => (Err io_error, next (d_tree s) true)
    | FailAfter => (Err io_error, next (effect (d_tree s)) true)
    | CrashBefore => (Err io_error, next (d_tree s) false)
    | CrashAfter => (Err io_error, next (effect (d_tree s)) false)
    end.

(** Work in one directory. *)
Definition host_of (d : Path) (s : Disk) : Host :=
  mkHost (default ∅ (d_tree s !! d)) (d_lock s) (d_unreadable s) (d_alive s) (d_script s).
Definition put_host (d : Path) (h : Host) (s : Disk) : Disk :=
  mkDisk (match d_tree s !! d with Some _ => <[d := files h]> (d_tree s) | None => d_tree s end)
    (lock h) (unreadable h) (alive h) (script h).
Definition in_dir {A} (d : Path) (m : M Host A) : M Disk A := λ s,
  let '(r, h) := m (host_of d s) in (r, put_host d h s).

(** [Path::exists]: a directory, or a file of its parent. *)
Definition is_dir (p : Path) (t : Tree) : bool := bool_decide (is_Some (t !! p)).
Definition is_file (p : Path) (t : Tree) : bool :=
  match rev p with
  | [] => false
  | name :: up => match t !! rev up with Some f => bool_decide (is_Some (f !! name)) | None => false end
  end.
Definition path_exists (p : Path) (s : Disk) : bool := is_dir p (d_tree s) || is_file p (d_tree s).

Definition below (d p : Path) : bool := bool_decide (take (length d) p = d).

(** The parts of the tree under and outside a directory. *)
Definition outside (d : Path) (t : Tree) : Tree := filter (λ e, below d (fst e) = false) t.
Definition under (d : Path) (t : Tree) : Tree :=
  list_to_map (omap (λ '(p, f), if below d p then Some (drop (length d) p, f) else None) (map_to_list t)).
Definition graft (d : Path) (sub t : Tree) : Tree := kmap (app d) sub ∪ t.

(** [fs::create_dir_all]: every missing directory on the way. *)
Definition mkdir (p : Path) : M Disk unit := λ s,
  if is_dir p (d_tree s) then (Ok tt, s)
  else if is_file p (d_tree s) then (Err io_error, s)
  else disk_call (λ t, <[p := ∅]> t) s.
Fixpoint mkdirs (at_ rest : Path) : M Disk unit :=
  match rest with
  | [] => retM tt
  | name :: rest => let! _ := mkdir (at_ ++ [name]) in mkdirs (at_ ++ [name]) rest
  end.
Definition create_private_dir (p : Path) : M Disk unit := mkdirs [] p.

(** [fs::remove_dir], of an empty directory. *)
Definition no_children (p : Path) (t : Tree) : bool :=
  forallb (λ '(q, _), negb (below p q) || bool_decide (q = p)) (map_to_list t).
Definition remove_dir (p : Path) : M Disk unit := λ s,
  if bool_decide (d_tree s !! p = Some ∅) && no_children p (d_tree s)
  then disk_call (delete p) s else (Err io_error, s).

(** [fs::rename] of a directory, onto nothing. *)
Definition rename_dir (from to : Path) : M Disk unit := λ s,
  if is_dir from (d_tree s) && negb (path_exists to s)
  then disk_call (λ t, graft to (under from t) (outside from t)) s else (Err io_error, s).

(** [File::open(dir)?.sync_all()] *)
Definition sync_dir : M Disk unit :=
  let! _ := disk_call (λ t, t) in disk_call (λ t, t).

(** [fs::remove_dir_all]: the files, then the directories, the deepest first. *)
Fixpoint remove_files (p : Path) (names : list bytes) : M Disk unit :=
  match names with
  | [] => retM tt
  | name :: names => let! _ := in_dir p (remove_file name) in remove_files p names
  end.
Fixpoint remove_dirs (ds : list Path) : M Disk unit :=
  match ds with
  | [] => retM tt
  | p :: ds =>
      let! names := readM (λ s, Ok (map fst (map_to_list (default ∅ (d_tree s !! p))))) in
      let! _ := remove_files p names in
      let! _ := remove_dir p in
      remove_dirs ds
  end.
Definition deeper (p q : Path) : Prop := (length q ≤ length p)%nat.
#[global] Instance deeper_dec : RelDecision deeper.
Proof. intros p q. unfold deeper. apply _. Defined.
Definition dirs_below (d : Path) (t : Tree) : list Path :=
  merge_sort deeper (List.filter (below d) (map fst (map_to_list t))).
Definition remove_dir_all (d : Path) : M Disk unit := λ s,
  if is_dir d (d_tree s) then remove_dirs (dirs_below d (d_tree s)) s else (Err io_error, s).

(** ** [String::from_utf8_lossy] *)
Definition continuations (c : ascii) : option (list (ascii → bool)) :=
  if in_range 194 223 c then Some [continuation]
  else if (byte_val c =? 224)%N then Some [in_range 160 191; continuation]
  else if (byte_val c =? 237)%N then Some [in_range 128 159; continuation]
  else if in_range 225 239 c then Some [continuation; continuation]
  else if (byte_val c =? 240)%N then Some [in_range 144 191; continuation; continuation]
  else if (byte_val c =? 244)%N then Some [in_range 128 143; continuation; continuation]
  else if in_range 241 243 c then Some [continuation; continuation; continuation]
  else None.
Fixpoint matching (tests : list (ascii → bool)) (s : bytes) : nat :=
  match tests, s with
  | test :: tests, c :: s => if test c then Datatypes.S (matching tests s) else 0%nat
  | _, _ => 0%nat
  end.
Definition replacement : bytes := [byte_of 239; byte_of 191; byte_of 189].
Fixpoint lossy_fuel (fuel : nat) (s : bytes) : str :=
  match fuel, s with
  | Datatypes.S fuel, c :: rest =>
      if (byte_val c <? 128)%N then c :: lossy_fuel fuel rest
      else
        match continuations c with
        | None => replacement ++ lossy_fuel fuel rest
        | Some tests =>
            let n := matching tests rest in
            (if (n =? length tests)%nat then c :: take n rest else replacement)
            ++ lossy_fuel fuel (drop n rest)
        end
  | _, _ => []
  end.
Definition to_string_lossy (s : bytes) : str := lossy_fuel (length s) s.

(** ** [backup.rs] *)
Record Backup : Type := mkBackup { bk_identity : bytes; bk_store : list (str * bytes) }.

(** The order of [fs::read_dir] is the host's. *)
Class ReadDir : Type := read_dir : Mem → list bytes.

Section Backup.
Context {crypto : Crypto} {T : Type} `{!Argon2, !Json Sealed, !Json Secret, !Terminal T, !ReadDir,
  !Postcard Backup, !Postcard (list StorageMutation)}.

Definition on_tty {A} (m : M T A) : M (T * Disk) A := λ s, let '(r, t) := m s.1 in (r, (t, s.2)).
Definition on_fs {A} (m : M Disk A) : M (T * Disk) A := λ s, let '(r, d) := m s.2 in (r, (s.1, d)).
Definition in_data {A} (d : Path) (m : M (T * Host) A) : M (T * Disk) A := λ s,
  let '(r, th) := m (s.1, host_of d s.2) in (r, (fst th, put_host d (snd th) s.2)).

Definition atomic_write_at (d : Path) (name content : bytes) : M Disk unit :=
  let! _ := create_private_dir d in in_dir d (atomic_write name content).

Definition context {S A} (msg : str) (m : M S A) : M S A :=
  λ s, let '(r, s) := m s in (map_err (λ _, Anyhow msg) r, s).

Definition HISTORY : bytes := b#"history".

Definition wipe (data_dir : Path) (yes : bool) : M Disk unit :=
  if negb yes
  then errM (Anyhow b#"this erases ALL local data (identity + messages); re-run with --yes to confirm")
  else λ s, if path_exists data_dir s
            then context b#"could not wipe data directory" (remove_dir_all data_dir) s
            else (Ok tt, s).

(** [fs::read] *)
Definition read_file (d : Path) (name : bytes) : M Disk bytes :=
  let! found := in_dir d (readM (fs_read name)) in liftM (ok_or io_error found).

(** [drop(open_history(&identity)?)] *)
Definition open_history (data_dir : Path) (identity : Identity) : M Disk unit :=
  context b#"could not open local history store" (
    let! _ := create_private_dir (data_dir ++ [HISTORY]) in
    in_dir (data_dir ++ [HISTORY]) (FileStore.open (Identity.storage_key identity))).
Definition drop_store : M Disk unit := λ s,
  (Ok tt, mkDisk (d_tree s) (unlocked (d_lock s)) (d_unreadable s) (d_alive s) (d_script s)).

Fixpoint collect (d : Path) (names : list bytes) : M Disk (list (str * bytes)) :=
  match names with
  | [] => retM []
  | name :: names =>
      let! content := read_file d name in
      let! rest := collect d names in
      retM ((to_string_lossy name, content) :: rest)
  end.

(** The bundle is written to the file [name] of [out]. *)
Definition export_backup (cell : option ClientConfig) (data_dir out : Path) (name : bytes)
    : M (T * Disk) unit :=
  let! identity := in_data data_dir (load_identity cell) in
  on_fs (
    let! _ := open_history data_dir identity in
    let! _ := drop_store in
    let! identity := context b#"could not read identity" (read_file data_dir IDENTITY_FILE) in
    let store_dir := data_dir ++ [HISTORY] in
    let! exists_ := readM (λ s, Ok (path_exists store_dir s)) in
    let! entries :=
      if exists_ : bool then
        let! names := readM (λ s, match d_tree s !! store_dir with
                                  | Some files => Ok (read_dir files) | None => Err io_error end) in
        collect store_dir names
      else retM [] in
    context b#"could not write backup"
      (atomic_write_at out name (wire.encode (mkBackup identity entries)))).

(** The closure of [publish_backup_tree]. *)
Fixpoint write_entries (history : Path) (entries : list (str * bytes)) : M Disk unit :=
  match entries with
  | [] => retM tt
  | (name, data) :: entries =>
      let! _ := atomic_write_at history name data in write_entries history entries
  end.
Definition publish_staging (staging destination parent : Path) (backup : Backup) : M Disk unit :=
  let history := staging ++ [HISTORY] in
  let! _ := create_private_dir history in
  let! _ := atomic_write_at staging IDENTITY_FILE (bk_identity backup) in
  let! _ := write_entries history (bk_store backup) in
  let! _ := sync_dir in
  let! _ := sync_dir in
  let! _ := rename_dir staging destination in
  sync_dir.

Definition staging_name (name : bytes) : bytes := b#"." ++ name ++ b#".import-staging".

(** [destination] is empty, or is removed if it is an empty directory. *)
Definition clear_destination (destination : Path) : M Disk unit := λ s,
  if path_exists destination s then
    (if is_dir destination (d_tree s) then
       if bool_decide (d_tree s !! destination = Some ∅) && no_children destination (d_tree s)
       then remove_dir destination
       else errM (Anyhow b#"data directory is not empty")
     else errM io_error) s
  else (Ok tt, s).

Definition remove_stale (staging : Path) : M Disk unit := λ s,
  if path_exists staging s then remove_dir_all staging s else (Ok tt, s).

Definition publish_backup_tree (destination : Path) (backup : Backup) : M Disk unit :=
  let! _ := clear_destination destination in
  let parent := removelast destination in
  let! _ := create_private_dir parent in
  let! name := liftM (ok_or (Anyhow b#"invalid data directory")
    match head (rev destination) with Some n => from_utf8 n | None => None end) in
  let staging := parent ++ [staging_name name] in
  let! _ := remove_stale staging in
  let! result := tryM (publish_staging staging destination parent backup) in
  match result with
  | Ok _ => retM tt
  | Err e => let! _ := tryM (remove_dir_all staging) in errM e
  end.

Fixpoint valid_names (seen : list str) (entries : list (str * bytes)) : bool :=
  match entries with
  | [] => true
  | (name, _) :: entries =>
      negb (bool_decide (name = [])) && Nat.even (length name) && forallb is_ascii_hexdigit name
      && negb (bool_decide (name ∈ seen)) && valid_names (name :: seen) entries
  end.

(** The bundle is read from the file [name] of [from]. *)
Definition import_backup (cell : option ClientConfig) (data_dir from : Path) (name : bytes)
    : M (T * Disk) unit := λ s,
  if path_exists (data_dir ++ [IDENTITY_FILE]) s.2
  then (Err (Anyhow b#"an identity already exists"), s)
  else
    (let! input := on_fs (context b#"could not read backup" (read_file from name)) in
     let! backup := liftM (map_err (λ _, Anyhow b#"not a valid backup file") (wire.decode input)) in
     let! _ := on_tty (open_identity cell (bk_identity backup)) in
     if negb (valid_names [] (bk_store backup))
     then errM (Anyhow b#"backup contains an invalid or duplicate store entry name")
     else on_fs (publish_backup_tree data_dir backup)) s.
End Backup.
