(* ===== verification/BackupProps.v ===== *)
(** * BackupProps: what exporting and importing an account does

    An import publishes the whole account or nothing, whatever call fails; an
    exported bundle, however, holds the lock file of the store and is refused. *)

From S2P Require Import Prelude Std Crypto Wire Identity UserId Storage FileStore FileStoreProps Recovery Sealing Registry Backup Instances.

(** ** Calls that keep what is said of a directory *)
Section Keeps.
Context (has : Mem → Prop).
Definition still (h h' : Host) : Prop := has (files h) → has (files h').
#[export] Instance still_preorder : PreOrder still.
Proof. split; [by intros h H|]. intros a b c Ha Hb H. by apply Hb, Ha. Qed.

Lemma keeps_syscall effect : (∀ st f, has f → has (effect st f)) → keeps still (syscall effect).
Proof.
  intros He h Hh. unfold syscall. destruct (negb (alive h)); [done|].
  destruct (fault (next_step h)); cbn; auto.
Qed.
Lemma keeps_random n : keeps still (getrandom n).
Proof.
  intros h. apply (keeps_bind still (syscall no_effect) (λ _, retM _)); [by apply keeps_syscall|].
  intros ?. apply keeps_same, _.
Qed.
End Keeps.

(** Everything the store does leaves its lock file. *)
Definition has_lock (f : Mem) : Prop := is_Some (f !! LOCK_FILE).

Lemma has_lock_insert f name content : has_lock f → has_lock (<[name := content]> f).
Proof. intros H. apply lookup_insert_is_Some'. by right. Qed.
Lemma has_lock_delete f name : name ≠ LOCK_FILE → has_lock f → has_lock (delete name f).
Proof. intros Hn H. unfold has_lock. by rewrite lookup_delete_ne. Qed.
Lemma temp_not_lock name nonce : temp_name name nonce ≠ LOCK_FILE.
Proof.
  intros H. apply (f_equal (λ l, head (rev l))) in H. unfold temp_name in H.
  rewrite !rev_app_distr in H. discriminate H.
Qed.

#[local] Abbreviation safe_lock := (keeps (still has_lock)).

Lemma lock_remove name : name ≠ LOCK_FILE → safe_lock (remove_file name).
Proof.
  intros Hn h. apply (keeps_bind (still has_lock) (syscall (λ _ f, delete name f)) (λ _, retM _));
    [apply keeps_syscall|intros ?; apply keeps_same, _].
  intros _ f. by apply has_lock_delete.
Qed.
Lemma lock_write name content : safe_lock (atomic_write name content).
Proof.
  apply keeps_bind; [apply _|by apply keeps_syscall|]. intros _. apply keeps_bind; [apply _|apply keeps_random|].
  intros nonce. cbv zeta. pose proof (temp_not_lock name (arr_bytes nonce)) as Ht.
  apply keeps_bind; [apply _|apply keeps_try|].
  - apply keeps_bind; [apply _| |].
    { intros h. unfold create_new. destruct (exists_ _ h); [done|]. apply keeps_syscall.
      intros _ f. apply has_lock_insert. }
    intros _. apply keeps_bind; [apply _|apply keeps_syscall; intros st f; apply has_lock_insert|].
    intros _. apply keeps_bind; [apply _|by apply keeps_syscall|].
    intros _. apply keeps_bind; [apply _| |intros _; by apply keeps_syscall].
    intros h. unfold rename. destruct (files h !! _); [|done]. apply keeps_syscall.
    intros _ f Hf. by apply has_lock_insert, has_lock_delete.
  - intros [[]|e]; [apply keeps_same, _|]. apply keeps_bind; [apply _|by apply keeps_try, lock_remove|].
    intros _. apply keeps_same, _.
Qed.

Section Lock.
Context {crypto : Crypto} `{!Postcard (list StorageMutation)} (self : arr 32).

Lemma path_not_lock key : path key ≠ LOCK_FILE.
Proof. apply path_not_dotted. Qed.

Lemma lock_encrypt aad value : safe_lock (encrypt self aad value).
Proof. apply keeps_bind; [apply _|apply keeps_random|intros ?; apply keeps_same, _]. Qed.

Lemma lock_apply mutations : safe_lock (apply self mutations).
Proof.
  induction mutations as [|u l IH]; cbn [apply]; [apply keeps_same, _|]. apply keeps_bind; [apply _| |by intros _].
  destruct u as [key value|key].
  - apply keeps_bind; [apply _|apply lock_encrypt|]. intros blob. apply lock_write.
  - apply keeps_bind; [apply _|apply lock_remove, path_not_lock|]. intros ?. apply keeps_same, _.
Qed.

Lemma lock_recover : safe_lock (recover_transaction self).
Proof.
  apply keeps_bind; [apply _|apply keeps_same, _|]. intros [blob|]; [|apply keeps_same, _].
  apply keeps_bind; [apply _|apply keeps_same, _|]. intros l. apply keeps_bind; [apply _|apply lock_apply|]. intros _.
  apply keeps_bind; [apply _|by apply lock_remove|]. intros [|]; [by apply keeps_syscall|apply keeps_same, _].
Qed.

Lemma open_locks h u h' : FileStore.open self h = (Ok u, h') → has_lock (files h').
Proof.
  unfold FileStore.open, bindM. destruct (FileStore.create_private_dir h) as [[[]|e] h1]; [|done].
  set (effect := λ (_ : Step) (f : Mem), if decide (is_Some (f !! LOCK_FILE)) then f else <[LOCK_FILE := []]> f).
  assert (triple (λ _, True) (syscall effect) (λ _, has_lock) (λ _, True)) as Hc.
  { apply triple_syscall; [done| |done]. intros st f _ _. unfold effect. destruct (decide _); [done|].
    unfold has_lock. rewrite lookup_insert_eq. by eexists. }
  specialize (Hc h1 I). destruct (syscall effect h1) as [[[]|e] h2]; [|done].
  assert (safe_lock try_lock) as Hl.
  { intros h0. unfold try_lock. destruct (lock h0); [|done|by apply keeps_syscall].
    apply keeps_bind; [apply _|by apply keeps_syscall|]. intros _ h3 H3. exact H3. }
  specialize (Hl h2 Hc). destruct (try_lock h2) as [[[]|e] h3]; [|done].
  pose proof (lock_recover h3 Hl) as Hr. destruct (recover_transaction self h3) as [[[]|e] h4]; [|done].
  by intros [= _ <-].
Qed.
End Lock.

(** ** [atomic_write], exactly *)
Lemma temp_ne name nonce : temp_name name nonce ≠ name.
Proof.
  intros H. apply (f_equal length) in H. unfold temp_name in H. rewrite !length_app in H. simpl in H. lia.
Qed.

Lemma triple_write_exact (f0 : Mem) name content :
  triple (λ f, f = f0) (atomic_write name content) (λ _ f, f = <[name := content]> f0) (λ _, True).
Proof.
  apply (triple_bind _ _ _ (λ _ f, f = f0)); [by apply triple_no_effect|]. intros _.
  apply (triple_bind _ _ _ (λ _ f, f = f0)).
  { eapply (triple_consequence _ (λ f, f = f0)); [apply triple_getrandom|by intros f ->|done|done]. }
  intros nonce. cbv zeta. set (temp := temp_name name nonce).
  assert (triple (λ f, f = f0) (replace_file temp name content)
    (λ _ f, f = <[name := content]> f0) (λ _, True)) as Hr.
  { apply (triple_bind _ _ _ (λ _ f, f0 !! temp = None ∧ f = <[temp := []]> f0)).
    { intros h <-. unfold create_new, exists_. case_bool_decide as Ht; [done|].
      apply eq_None_not_Some in Ht.
      assert (triple (λ f, f = files h) (syscall (λ _ files, <[temp := []]> files))
        (λ _ f, files h !! temp = None ∧ f = <[temp:=[]]> (files h)) (λ _, True)) as Hs
        by (apply triple_syscall; [done|by intros st f -> _|done]).
      by apply Hs. }
    intros _. apply (triple_bind _ _ _ (λ _ f, f0 !! temp = None ∧ f = <[temp := content]> f0)).
    { apply triple_syscall; [done| |done]. intros st f [Ht ->] Hf. rewrite Hf. split; [done|].
      apply insert_insert_eq. }
    intros _. apply (triple_bind _ _ _ (λ _ f, f0 !! temp = None ∧ f = <[temp := content]> f0));
      [by apply triple_no_effect|].
    intros _. apply (triple_bind _ _ _ (λ _ f, f = <[name := content]> f0)); [|intros _; by apply triple_no_effect].
    intros h [Ht Hh]. unfold rename. rewrite Hh, lookup_insert_eq.
    assert (triple (λ f, f = <[temp := content]> f0)
      (syscall (λ _ files, <[name := content]> (delete temp files))) (λ _ f, f = <[name := content]> f0)
      (λ _, True)) as Hs; [|by apply Hs].
    apply triple_syscall; [done| |done]. intros st f -> _. by rewrite delete_insert_eq, delete_id. }
  eapply triple_bind; [eapply triple_consequence; [apply triple_try, Hr|done|done|done]|].
  intros [[]|e]; cbv beta iota; [by apply triple_ret|].
  apply triple_pure. intros He. apply (triple_bind _ _ _ (λ _ _, True)).
  { intros h _. unfold tryM. by destruct (remove_file temp h). }
  by intros _ h _.
Qed.

(** ** Programs on the tree that may crash *)
Lemma bindM_Ok {S A B} (m : M S A) (k : A → M S B) s b s' :
  bindM m k s = (Ok b, s') → ∃ a s1, m s = (Ok a, s1) ∧ k a s1 = (Ok b, s').
Proof. unfold bindM. destruct (m s) as [[a|e] s1]; [|done]. intros H. by exists a, s1. Qed.

Definition dtriple {A} (I : Tree → Prop) (m : M Disk A) (Q : A → Tree → Prop) (C : Tree → Prop) : Prop :=
  ∀ s, I (d_tree s) → match m s with (Ok a, s') => Q a (d_tree s') | (Err _, s') => C (d_tree s') end.

Section DiskLogic.
Implicit Types I C : Tree → Prop.

Lemma dtriple_ret {A} I (a : A) Q C : (∀ t, I t → Q a t) → dtriple I (retM a) Q C.
Proof. intros HQ s Hs. by apply HQ. Qed.
Lemma dtriple_err {A} I e (Q : A → Tree → Prop) C : (∀ t, I t → C t) → dtriple I (errM e) Q C.
Proof. intros HC s Hs. by apply HC. Qed.
Lemma dtriple_lift {A} I (r : result error A) C :
  (∀ t, I t → C t) → dtriple I (liftM r) (λ a t, r = Ok a ∧ I t) C.
Proof. intros HC s Hs. unfold liftM. by destruct r; [|apply HC]. Qed.
Lemma dtriple_bind {A B} I (m : M Disk A) (k : A → M Disk B) R Q C :
  dtriple I m R C → (∀ a, dtriple (R a) (k a) Q C) → dtriple I (bindM m k) Q C.
Proof.
  intros Hm Hk s Hs. unfold bindM. specialize (Hm s Hs). destruct (m s) as [[a|e] s1]; [|done].
  by apply Hk.
Qed.
Lemma dtriple_consequence {A} I I' (m : M Disk A) Q Q' C C' :
  dtriple I' m Q' C' → (∀ t, I t → I' t) → (∀ a t, Q' a t → Q a t) → (∀ t, C' t → C t) →
  dtriple I m Q C.
Proof. intros Hm HI HQ HC s Hs. specialize (Hm s (HI _ Hs)). destruct (m s) as [[a|e] s1]; auto. Qed.
Lemma dtriple_try {A} I (m : M Disk A) Q C D :
  dtriple I m Q C → dtriple I (tryM m) (λ r t, match r with Ok a => Q a t | Err _ => C t end) D.
Proof. intros Hm s Hs. unfold tryM. specialize (Hm s Hs). by destruct (m s) as [[a|e] s1]. Qed.
Lemma dtriple_call I effect (Q : Tree → Prop) C :
  (∀ t, I t → C t) → (∀ t, I t → Q (effect t)) → (∀ t, I t → C (effect t)) →
  dtriple I (disk_call effect) (λ _, Q) C.
Proof.
  intros HC HQ HE s Hs. unfold disk_call. destruct (negb (d_alive s)); [by apply HC|].
  destruct (fault _); cbn [d_tree]; auto.
Qed.
Lemma dtriple_idle I C : (∀ t, I t → C t) → dtriple I (disk_call (λ t, t)) (λ _, I) C.
Proof. intros HC. by apply dtriple_call. Qed.
Lemma dtriple_sync I C : (∀ t, I t → C t) → dtriple I sync_dir (λ _, I) C.
Proof.
  intros HC. apply (dtriple_bind _ _ _ (λ _, I)); [by apply dtriple_idle|].
  intros _. by apply dtriple_idle.
Qed.

(** Work in one directory that is there. *)
Lemma dtriple_in {A} (d : Path) (f : Mem) (t0 : Tree) (m : M Host A) Q (D : Mem → Prop) :
  t0 !! d = Some f → triple (λ f', f' = f) m Q D →
  dtriple (λ t, t = t0) (in_dir d m) (λ a t, ∃ f', Q a f' ∧ t = <[d := f']> t0)
    (λ t, ∃ f', D f' ∧ t = <[d := f']> t0).
Proof.
  intros Hd Hm s <-. unfold in_dir. assert (files (host_of d s) = f) as Hf
    by (cbn [host_of files]; by rewrite Hd).
  specialize (Hm (host_of d s) Hf). destruct (m (host_of d s)) as [[a|e] h]; cbn [put_host d_tree];
    rewrite Hd; [by exists (files h)|]. destruct Hm as [_ Hm]. by exists (files h).
Qed.
End DiskLogic.

(** ** An exported bundle *)
Lemma lock_name : to_string_lossy LOCK_FILE = LOCK_FILE.
Proof. reflexivity. Qed.
Lemma lock_name_invalid : forallb is_ascii_hexdigit LOCK_FILE = false.
Proof. reflexivity. Qed.

Lemma valid_names_all seen entries name content :
  valid_names seen entries = true → (name, content) ∈ entries → forallb is_ascii_hexdigit name = true.
Proof.
  revert seen. induction entries as [|[n c] l IH]; intros seen Hv Hin; [by apply elem_of_nil in Hin|].
  cbn [valid_names] in Hv. repeat apply andb_true_iff in Hv as [Hv ?].
  apply elem_of_cons in Hin as [[= -> ->]|Hin]; [done|]. by eapply IH.
Qed.

Section Exporting.
Context {crypto : Crypto} {T : Type} `{!Argon2, !Json Sealed, !Json Secret, !Terminal T, !ReadDir,
  !Postcard Backup, !Postcard (list StorageMutation)}.

Lemma read_file_tree d name s :
  d_tree (read_file d name s).2 = d_tree s ∧
  ∀ content, (read_file d name s).1 = Ok content → d_tree s !! d ≫= (.!! name) = Some content.
Proof.
  unfold read_file, bindM, in_dir, readM, fs_read.
  assert (d_tree (put_host d (host_of d s) s) = d_tree s) as Ht.
  { unfold put_host. cbn [d_tree host_of files]. destruct (d_tree s !! d) as [f|] eqn:Hd; [|done].
    by rewrite insert_id. }
  destruct (_ && _); cbn [fst snd liftM]; [|by rewrite Ht]. cbn [host_of files].
  destruct (d_tree s !! d) as [f|]; cbn [default id mbind option_bind].
  - destruct (f !! name) as [c|]; cbn [ok_or fst snd liftM]; rewrite Ht; split; try done. by intros c' [= ->].
  - rewrite lookup_empty. cbn [ok_or fst snd liftM]. by rewrite Ht.
Qed.

Lemma collect_names d names s :
  d_tree (collect d names s).2 = d_tree s ∧
  ∀ entries, (collect d names s).1 = Ok entries → map fst entries = map to_string_lossy names.
Proof.
  revert s. induction names as [|name names IH]; intros s; cbn [collect]; [by split; [|intros ? [= <-]]|].
  unfold bindM. pose proof (read_file_tree d name s) as [Ht _].
  destruct (read_file d name s) as [[c|e] s1]; cbn [snd] in Ht; [|by split].
  destruct (IH s1) as [Ht' Hn]. destruct (collect d names s1) as [[l|e] s2]; cbn [fst snd retM] in *;
    (split; [congruence|]); [|done].
  intros entries [= <-]. cbn [map fst]. by rewrite (Hn l eq_refl).
Qed.

Lemma mkdir_is_dir p : dtriple (λ _, True) (mkdir p) (λ _ t, is_Some (t !! p)) (λ _, True).
Proof.
  intros s _. unfold mkdir, is_dir. case_bool_decide as Hp; [done|]. destruct (is_file p _); [done|].
  assert (dtriple (λ _, True) (disk_call (λ t, <[p := ∅]> t)) (λ _ t, is_Some (t !! p)) (λ _, True)) as Hc.
  { apply dtriple_call; [done| |done]. intros t _. rewrite lookup_insert_eq. by eexists. }
  exact (Hc s I).
Qed.
Lemma mkdirs_is_dir at_ name rest :
  dtriple (λ _, True) (mkdirs at_ (name :: rest)) (λ _ t, is_Some (t !! (at_ ++ name :: rest))) (λ _, True).
Proof.
  revert at_ name. induction rest as [|n rest IH]; intros at_ name; cbn [mkdirs].
  - eapply dtriple_bind; [apply mkdir_is_dir|]. intros a. by apply dtriple_ret.
  - eapply dtriple_bind; [apply mkdir_is_dir|]. intros a.
    eapply dtriple_consequence; [apply (IH (at_ ++ [name]) n)|done| |done].
    intros ? t. by rewrite <-(assoc_L (++)).
Qed.
Lemma create_private_dir_is_dir d :
  d ≠ [] → dtriple (λ _, True) (create_private_dir d) (λ _ t, is_Some (t !! d)) (λ _, True).
Proof. destruct d as [|n d]; [done|]. intros _. apply (mkdirs_is_dir []). Qed.

(** A file written is there, and the rest of the directory as it was. *)
Lemma write_at_exact d name content (t0 : Tree) f :
  t0 !! d = Some f →
  dtriple (λ t, t = t0) (in_dir d (atomic_write name content))
    (λ _ t, t = <[d := <[name := content]> f]> t0) (λ t, ∃ f', t = <[d := f']> t0).
Proof.
  intros Hd. eapply dtriple_consequence; [eapply (dtriple_in d f t0), triple_write_exact; exact Hd|done| |].
  - intros _ t (f' & -> & ->). done.
  - intros t (f' & _ & ->). by exists f'.
Qed.

(** A store that has been opened has its lock file in its directory. *)
Lemma open_history_locks data_dir identity :
  dtriple (λ _, True) (open_history data_dir identity)
    (λ _ t, ∃ f, t !! (data_dir ++ [HISTORY]) = Some f ∧ has_lock f) (λ _, True).
Proof.
  intros s _. unfold open_history, context. set (d := data_dir ++ [HISTORY]).
  assert (d ≠ []) as Hne by (by unfold d; destruct data_dir).
  pose proof (create_private_dir_is_dir d Hne s I) as Hd. unfold bindM.
  destruct (create_private_dir d s) as [[[]|e] s1]; cbn [map_err]; [|done]. destruct Hd as [f Hf].
  unfold in_dir. destruct (FileStore.open (Identity.storage_key identity) (host_of d s1)) as [[u|e] h] eqn:Ho;
    cbn [map_err]; [|done].
  exists (files h). unfold put_host. cbn [d_tree]. rewrite Hf. split; [apply lookup_insert_eq|].
  by eapply open_locks.
Qed.

(** What a write at a path does where the directory is. *)
Lemma atomic_write_at_is d name content :
  d ≠ [] → dtriple (λ _, True) (atomic_write_at d name content)
    (λ _ t, t !! d ≫= (.!! name) = Some content) (λ _, True).
Proof.
  intros Hd. eapply dtriple_bind; [by apply create_private_dir_is_dir|]. intros a s [f Hf].
  pose proof (write_at_exact d name content (d_tree s) f Hf s eq_refl) as Hw.
  destruct (in_dir d _ s) as [[[]|e] s']; [|done]. rewrite Hw, lookup_insert_eq.
  cbn [mbind option_bind]. apply lookup_insert_eq.
Qed.

Context (read_dir_all : ∀ (f : Mem) name, is_Some (f !! name) → name ∈ read_dir f).

Lemma context_Ok {S A} msg (m : M S A) s a s' : context msg m s = (Ok a, s') → m s = (Ok a, s').
Proof. unfold context. destruct (m s) as [[b|e] s1]; [|done]. by intros [= -> ->]. Qed.

(** The entries of an export have the lock file among them. *)
Lemma collected_lock d f (s : Disk) entries s' :
  d_tree s !! d = Some f → has_lock f → collect d (read_dir f) s = (Ok entries, s') →
  ∃ content, (LOCK_FILE, content) ∈ entries.
Proof.
  intros Hd Hl Hc. destruct (collect_names d (read_dir f) s) as [_ Hn]. rewrite Hc in Hn.
  specialize (Hn _ eq_refl). assert (LOCK_FILE ∈ map fst entries) as Hin.
  { rewrite Hn. apply list_elem_of_fmap. exists LOCK_FILE. split; [done|]. by apply read_dir_all. }
  apply list_elem_of_fmap in Hin as ([n c] & Hn' & Hin). cbn in Hn'. subst n. by exists c.
Qed.
End Exporting.

Section Refused.
Context {crypto : Crypto} {T : Type} `{!Argon2, !Json Sealed, !Json Secret, !Terminal T, !ReadDir,
  !Postcard Backup, !Postcard (list StorageMutation)}.
Context (read_dir_all : ∀ (f : Mem) name, is_Some (f !! name) → name ∈ read_dir f).

(** What an export writes. *)
Lemma exported_bundle cell data_dir out name (s s' : T * Disk) :
  out ≠ [] → export_backup cell data_dir out name s = (Ok tt, s') →
  ∃ backup content, d_tree s'.2 !! out ≫= (.!! name) = Some (wire.encode backup) ∧
    (LOCK_FILE, content) ∈ bk_store backup.
Proof.
  intros Hout (identity & s1 & _ & Hrun)%bindM_Ok. unfold on_fs in Hrun.
  match type of Hrun with context [bindM ?m ?k ?s0] => destruct (bindM m k s0) as [r d] eqn:He end.
  injection Hrun as -> <-. cbn [snd].
  apply bindM_Ok in He as ([] & d1 & Hopen & He).
  pose proof (open_history_locks data_dir identity (s1.2) I) as Hl. rewrite Hopen in Hl.
  destruct Hl as (f & Hf & Hlock).
  apply bindM_Ok in He as ([] & d2 & Hdrop & He). injection Hdrop as <-.
  apply bindM_Ok in He as (blob & d3 & Hid%context_Ok & He).
  match type of Hid with _ ?s0 = _ => destruct (read_file_tree data_dir IDENTITY_FILE s0) as [Ht _] end.
  rewrite Hid in Ht. cbn [snd d_tree] in Ht. rewrite <-Ht in Hf. clear Ht Hid.
  apply bindM_Ok in He as (there & d4 & Hthere & He). injection Hthere as <- <-.
  unfold path_exists, is_dir in He. rewrite (bool_decide_true (is_Some _)) in He by (by rewrite Hf).
  cbn [orb] in He. apply bindM_Ok in He as (entries & d5 & Hc & Hw%context_Ok).
  apply bindM_Ok in Hc as (names & d6 & Hnames & Hc). unfold readM in Hnames. rewrite Hf in Hnames.
  injection Hnames as <- <-.
  destruct (collected_lock read_dir_all _ f d3 entries d5 Hf Hlock Hc) as [content Hin].
  exists (mkBackup blob entries), content. split; [|exact Hin].
  pose proof (atomic_write_at_is out name (wire.encode (mkBackup blob entries)) Hout d5 I) as Hat.
  by rewrite Hw in Hat.
Qed.

(** C40: A bundle written by [export_backup] is refused by [import_backup]
    everywhere and with any passphrase, and nothing is published: opening the
    store for the export leaves its lock file among the entries, whose name the
    import does not accept. *)
Theorem exported_bundle_refused cell data_dir out name (s s' : T * Disk) :
  out ≠ [] → export_backup cell data_dir out name s = (Ok tt, s') →
  ∃ bundle, d_tree s'.2 !! out ≫= (.!! name) = Some bundle ∧
  ∀ cell2 data_dir2 from name2 (s2 : T * Disk),
    d_tree s2.2 !! from ≫= (.!! name2) = Some bundle →
    let '(r, s3) := import_backup cell2 data_dir2 from name2 s2 in
    is_err r = true ∧ d_tree s3.2 = d_tree s2.2.
Proof.
  intros Hout He. destruct (exported_bundle _ _ _ _ _ _ Hout He) as (backup & content & Hb & Hin).
  exists (wire.encode backup). split; [exact Hb|]. intros cell2 data_dir2 from name2 s2 Hs2.
  unfold import_backup. destruct (path_exists _ _); [done|].
  unfold bindM at 1, on_fs at 1, context. destruct (read_file_tree from name2 s2.2) as [Ht Hread].
  destruct (read_file from name2 s2.2) as [[input|e] d]; cbn [map_err fst snd] in *; [|done].
  specialize (Hread input eq_refl). rewrite Hs2 in Hread. injection Hread as <-.
  unfold bindM at 1, liftM at 1. rewrite wire.decode_encode. cbn [map_err].
  unfold bindM at 1, on_tty. cbn [fst snd].
  destruct (open_identity cell2 (bk_identity backup) s2.1) as [[identity|e] t]; cbn [fst snd]; [|done].
  destruct (valid_names [] (bk_store backup)) eqn:Hv; [|done].
  by pose proof (valid_names_all _ _ _ _ Hv Hin) as Hl.
Qed.
End Refused.
