(* ===== verification/Publish.v ===== *)
(** * Publish: an import publishes the whole account or nothing

    Every step of [publish_backup_tree] before its rename works beside the
    destination; the rename moves a complete tree; no later failure undoes it. *)

From S2P Require Import Prelude Std Crypto Wire Identity UserId Storage FileStore FileStoreProps Recovery Sealing Registry Backup BackupProps Instances.

(** ** Paths *)
Lemma below_spec d p : below d p = true ↔ ∃ r, p = d ++ r.
Proof.
  unfold below. rewrite bool_decide_eq_true. split.
  - intros H. exists (drop (length d) p). rewrite <-H at 1. symmetry. apply take_drop.
  - intros [r ->]. apply take_app_length.
Qed.
Lemma below_app d r : below d (d ++ r) = true.
Proof. apply below_spec. by exists r. Qed.
Lemma below_refl d : below d d = true.
Proof. apply below_spec. exists []. by rewrite app_nil_r. Qed.
Lemma below_length d p : below d p = true → (length d ≤ length p)%nat.
Proof. intros [r ->]%below_spec. rewrite length_app. lia. Qed.
Lemma below_antisym d p : below d p = true → below p d = true → p = d.
Proof.
  intros [r ->]%below_spec [r' H]%below_spec. rewrite <-(assoc_L (++)) in H.
  rewrite <-(app_nil_r d) in H at 1. apply app_inv_head in H. symmetry in H.
  apply app_nil in H as [-> _]. apply app_nil_r.
Qed.
Lemma below_trans a b c : below a b = true → below b c = true → below a c = true.
Proof. intros [r ->]%below_spec [r' ->]%below_spec. rewrite <-(assoc_L (++)). apply below_app. Qed.

(** Two names of one directory. *)
Lemma below_sibling parent a b r : a ≠ b → below (parent ++ [a]) (parent ++ b :: r) = false.
Proof.
  intros Hab. apply not_true_iff_false. intros [r' H]%below_spec.
  rewrite <-(assoc_L (++)) in H. apply app_inv_head in H. by injection H as -> _.
Qed.

(** ** The moved tree *)
Lemma lookup_under (t : Tree) d r : under d t !! r = t !! (d ++ r).
Proof.
  apply option_eq. intros f. unfold under. rewrite <-elem_of_list_to_map.
  - rewrite list_elem_of_omap. split.
    + intros ([p f'] & Hin & Hx). destruct (below d p) eqn:Hb; [|done]. injection Hx as <- <-.
      apply below_spec in Hb as [r' ->]. rewrite drop_app_length. by apply elem_of_map_to_list.
    + intros Hr. exists (d ++ r, f). split; [by apply elem_of_map_to_list|].
      by rewrite below_app, drop_app_length.
  - assert (∀ l : list (Path * Mem), NoDup l.*1 →
      NoDup (omap (λ '(p, f), if below d p then Some (drop (length d) p, f) else None) l).*1) as H;
      [|apply H, NoDup_fst_map_to_list].
    induction l as [|[p f'] l IH]; intros Hnd; [constructor|]. cbn in Hnd |- *.
    apply list.NoDup_cons in Hnd as [Hp Hnd]. destruct (below d p) eqn:Hb; [|by apply IH].
    cbn. apply list.NoDup_cons. split; [|by apply IH]. apply below_spec in Hb as [r' ->].
    rewrite drop_app_length. intros ([q g] & Hq & Hin)%list_elem_of_fmap.
    apply list_elem_of_omap in Hin as ([p' g'] & Hin & Hx). destruct (below d p') eqn:Hb; [|done].
    injection Hx as <- <-. cbn in Hq. apply below_spec in Hb as [r2 ->].
    rewrite drop_app_length in Hq. subst r2. apply Hp, list_elem_of_fmap. by exists (d ++ r', g').
Qed.

Lemma lookup_outside (t : Tree) d p : outside d t !! p = if below d p then None else t !! p.
Proof.
  unfold outside. rewrite map_lookup_filter. destruct (t !! p) as [f|]; cbn; [|by destruct (below d p)].
  destruct (below d p) eqn:Hb; [by rewrite option_guard_False|by rewrite option_guard_True].
Qed.

Lemma lookup_graft_under (sub t : Tree) d r :
  t !! (d ++ r) = None → graft d sub t !! (d ++ r) = sub !! r.
Proof.
  intros Ht. unfold graft. rewrite lookup_union, lookup_kmap by apply _. rewrite Ht.
  by destruct (sub !! r).
Qed.
Lemma lookup_graft_beside (sub t : Tree) d p : below d p = false → graft d sub t !! p = t !! p.
Proof.
  intros Hb. unfold graft. rewrite lookup_union. destruct (kmap (app d) sub !! p) as [f|] eqn:Hk.
  - apply lookup_kmap_Some in Hk as (r & -> & _); [|apply _]. by rewrite below_app in Hb.
  - by destruct (t !! p).
Qed.

(** ** Work beside the destination *)
Section Beside.
Context (staging parent : Path).

(** A tree changed under [staging] only, but for new empty directories on the
    way to [parent]. *)
Definition grown (t t' : Tree) : Prop :=
  ∀ p, below staging p = false →
    t' !! p = t !! p ∨ (below p parent = true ∧ t !! p = None ∧ t' !! p = Some ∅).

#[export] Instance grown_preorder : PreOrder grown.
Proof.
  split; [by left|]. intros t1 t2 t3 H12 H23 p Hp.
  destruct (H12 p Hp) as [H1|(Hb & H1 & H2)], (H23 p Hp) as [H3|(Hb' & H3 & H4)];
    [left|right|right|right]; try split_and!; congruence || done.
Qed.

Definition grows {A} (m : M Disk A) : Prop := ∀ s, grown (d_tree s) (d_tree (m s).2).

Lemma grows_ret {A} (a : A) : grows (retM a).
Proof. by left. Qed.
Lemma grows_err {A} e : grows (errM (A := A) e).
Proof. by left. Qed.
Lemma grows_lift {A} (r : result error A) : grows (liftM r).
Proof. by left. Qed.
Lemma grows_read {A} (f : Disk → result error A) : grows (readM f).
Proof. by left. Qed.
Lemma grows_bind {A B} (m : M Disk A) (k : A → M Disk B) :
  grows m → (∀ a, grows (k a)) → grows (bindM m k).
Proof.
  intros Hm Hk s. unfold bindM. specialize (Hm s). destruct (m s) as [[a|e] s1]; [|done].
  transitivity (d_tree s1); [exact Hm|apply Hk].
Qed.
Lemma grows_try {A} (m : M Disk A) : grows m → grows (tryM m).
Proof. intros Hm s. unfold tryM. specialize (Hm s). by destruct (m s). Qed.
Lemma call_cases effect s :
  d_tree (disk_call effect s).2 = d_tree s ∨ d_tree (disk_call effect s).2 = effect (d_tree s).
Proof. unfold disk_call. destruct (negb _); [by left|]. destruct (fault _); [right|left|right|left|right]; done. Qed.
Lemma grows_call effect s :
  grown (d_tree s) (effect (d_tree s)) → grown (d_tree s) (d_tree (disk_call effect s).2).
Proof. intros He. destruct (call_cases effect s) as [->| ->]; [reflexivity|done]. Qed.
Lemma grows_sync : grows sync_dir.
Proof. apply grows_bind; [intros s; by apply grows_call|]. intros _ s. by apply grows_call. Qed.

Lemma in_dir_beside {A} d (m : M Host A) s p :
  p ≠ d → d_tree (in_dir d m s).2 !! p = d_tree s !! p.
Proof.
  intros Hp. unfold in_dir. destruct (m (host_of d s)) as [r h]. cbn [snd put_host d_tree].
  destruct (d_tree s !! d); [|done]. by rewrite lookup_insert_ne.
Qed.
Lemma grows_in {A} d (m : M Host A) : below staging d = true → grows (in_dir d m).
Proof. intros Hd s p Hp. left. apply in_dir_beside. intros ->. congruence. Qed.

Lemma grows_mkdir p : below staging p = true ∨ below p parent = true → grows (mkdir p).
Proof.
  intros Hp s. unfold mkdir, is_dir. case_bool_decide as Hn; [reflexivity|].
  destruct (is_file p _); [reflexivity|]. apply grows_call. intros q Hq.
  destruct (decide (q = p)) as [->|Hne]; [|left; by rewrite lookup_insert_ne]. right.
  destruct Hp as [Hp|Hp]; [congruence|]. split_and!; [done| |apply lookup_insert_eq].
  by apply eq_None_not_Some.
Qed.
Lemma grows_mkdirs at_ rest :
  (∀ q, below q (at_ ++ rest) = true → below staging q = true ∨ below q parent = true) →
  grows (mkdirs at_ rest).
Proof.
  revert at_. induction rest as [|n rest IH]; intros at_ Hq; cbn [mkdirs]; [apply grows_ret|].
  apply grows_bind.
  - apply grows_mkdir, Hq. apply below_spec. exists rest. by rewrite <-(assoc_L (++)).
  - intros _. apply IH. intros q. rewrite <-(assoc_L (++)). apply Hq.
Qed.

Lemma grows_remove_dir p : below staging p = true → grows (remove_dir p).
Proof.
  intros Hp s. unfold remove_dir. destruct (_ && _); [|reflexivity]. apply grows_call. intros q Hq. left.
  rewrite lookup_delete_ne; [done|]. intros ->. congruence.
Qed.
Lemma grows_remove_files p names : below staging p = true → grows (remove_files p names).
Proof.
  intros Hp. induction names as [|n names IH]; cbn [remove_files]; [apply grows_ret|].
  apply grows_bind; [by apply grows_in|]. by intros _.
Qed.
Lemma grows_remove_dirs ds : (∀ p, p ∈ ds → below staging p = true) → grows (remove_dirs ds).
Proof.
  induction ds as [|p ds IH]; intros Hds; cbn [remove_dirs]; [apply grows_ret|].
  assert (below staging p = true) as Hp by (apply Hds; by left).
  apply grows_bind; [apply grows_read|]. intros names.
  apply grows_bind; [by apply grows_remove_files|]. intros _.
  apply grows_bind; [by apply grows_remove_dir|]. intros _. apply IH. intros q Hq. apply Hds. by right.
Qed.
Lemma elem_dirs_below (d : Path) (t : Tree) p :
  p ∈ dirs_below d t ↔ is_Some (t !! p) ∧ below d p = true.
Proof.
  unfold dirs_below. rewrite (merge_sort_Permutation _ _), list_elem_of_In, filter_In, <-list_elem_of_In.
  rewrite (list_elem_of_fmap fst (map_to_list t)). split; intros [H Hb]; (split; [|done]).
  - destruct H as ([q f] & -> & Hin). exists f. by apply elem_of_map_to_list.
  - destruct H as [f Hf]. exists (p, f). split; [done|]. by apply elem_of_map_to_list.
Qed.
Lemma grows_remove_all : grows (remove_dir_all staging).
Proof.
  intros s. unfold remove_dir_all. destruct (is_dir _ _); [|reflexivity]. apply grows_remove_dirs.
  intros p [_ Hp]%elem_dirs_below. exact Hp.
Qed.
End Beside.

(** ** The steps before the rename *)
Section Staging.
Context (parent : Path) (sname : bytes).
#[local] Abbreviation staging := (parent ++ [sname]).
#[local] Abbreviation history := (parent ++ [sname; HISTORY]).

Lemma on_the_way d q :
  below staging d = true ∨ d = parent → below q d = true → below staging q = true ∨ below q parent = true.
Proof.
  intros [Hd| ->] Hq; [|by right]. apply below_spec in Hd as [r ->]. apply below_spec in Hq as [r' Hq].
  rewrite <-(assoc_L (++)) in Hq. apply app_eq_inv in Hq as [(k & -> & _)|(k & -> & Hk)].
  - right. apply below_app.
  - destruct k as [|n k]; [right; rewrite app_nil_r; apply below_refl|]. left. injection Hk as <- _.
    apply below_spec. exists k. by rewrite <-(assoc_L (++)).
Qed.

Lemma grows_create d : below staging d = true ∨ d = parent → grows staging parent (create_private_dir d).
Proof. intros Hd. apply grows_mkdirs. intros q. by apply on_the_way. Qed.
Lemma grows_write_at d name content :
  below staging d = true → grows staging parent (atomic_write_at d name content).
Proof.
  intros Hd. apply grows_bind; [apply grows_create; by left|]. intros _. by apply grows_in.
Qed.
Lemma grows_entries d entries : below staging d = true → grows staging parent (write_entries d entries).
Proof.
  intros Hd. induction entries as [|[n c] l IH]; cbn [write_entries]; [apply grows_ret|].
  apply grows_bind; [by apply grows_write_at|]. by intros _.
Qed.

(** *** What they build *)
Lemma mkdirs_noop at_ rest s :
  (∀ k, k ≠ [] → below k rest = true → is_Some (d_tree s !! (at_ ++ k))) → mkdirs at_ rest s = (Ok tt, s).
Proof.
  revert at_. induction rest as [|n rest IH]; intros at_ Hk; cbn [mkdirs]; [done|].
  unfold bindM, mkdir, is_dir. rewrite bool_decide_true.
  2: { apply (Hk [n]); [done|]. by apply (below_app [n]). }
  apply IH. intros k Hne Hb. rewrite <-(assoc_L (++)). apply (Hk (n :: k)); [done|].
  apply below_spec in Hb as [r ->]. apply (below_app (n :: k)).
Qed.

(** A directory and those on the way to it. *)
Definition rooted (d : Path) (t : Tree) : Prop := ∀ k, k ≠ [] → below k d = true → is_Some (t !! k).

Lemma mkdirs_exact t0 at_ rest :
  dtriple (λ t, t = t0) (mkdirs at_ rest)
    (λ _ t, (∀ q, t !! q = t0 !! q ∨ (t0 !! q = None ∧ t !! q = Some ∅ ∧ q ≠ at_ ∧ below at_ q = true ∧ below q (at_ ++ rest) = true))
            ∧ ∀ k, k ≠ [] → below k rest = true → is_Some (t !! (at_ ++ k))) (λ _, True).
Proof.
  revert t0 at_. induction rest as [|n rest IH]; intros t0 at_; cbn [mkdirs].
  - apply dtriple_ret. intros t ->. split; [by left|]. intros k Hk Hb.
    destruct k; [done|]. by apply below_length in Hb; simpl in Hb; lia.
  - apply (dtriple_bind _ _ _ (λ _ t, is_Some (t !! (at_ ++ [n])) ∧
      (t = t0 ∨ t0 !! (at_ ++ [n]) = None ∧ t = <[at_ ++ [n] := ∅]> t0))).
    + intros s <-. unfold mkdir, is_dir. case_bool_decide as Hd; [by split; [|left]|].
      destruct (is_file _ _); [done|]. apply eq_None_not_Some in Hd.
      assert (dtriple (λ t, t = d_tree s) (disk_call (λ t, <[at_ ++ [n] := ∅]> t))
        (λ _ t, t = <[at_ ++ [n] := ∅]> (d_tree s)) (λ _, True)) as Hc
        by (apply dtriple_call; [done|by intros t ->|done]).
      specialize (Hc s eq_refl). destruct (disk_call _ s) as [[u|e] s']; [|done]. rewrite Hc.
      split; [rewrite lookup_insert_eq; by eexists|]. by right.
    + intros u s [Hn Ht0]. specialize (IH (d_tree s) (at_ ++ [n]) s eq_refl).
      destruct (mkdirs _ _ s) as [[v|e] s']; [|done]. destruct IH as [Hq Hk]. split.
      * intros q. destruct (Hq q) as [E|(E1 & E2 & Hne & Hb1 & Hb2)].
        -- rewrite E. destruct Ht0 as [->|[Hnone ->]]; [by left|].
           destruct (decide (q = at_ ++ [n])) as [->|Hne]; [|left; by rewrite lookup_insert_ne].
           right. split_and!; [done|apply lookup_insert_eq| |apply below_app|].
           ++ intros Heq%(f_equal length). rewrite length_app in Heq. simpl in Heq. lia.
           ++ apply below_spec. exists rest. by rewrite <-(assoc_L (++)).
        -- right. rewrite <-(assoc_L (++)) in Hb2. split_and!; [|done| |by eapply below_trans, Hb1; apply below_app|done].
           ++ destruct Ht0 as [<-|[_ Hs]]; [done|]. by rewrite Hs, lookup_insert_ne in E1.
           ++ intros ->. apply below_length in Hb1. rewrite length_app in Hb1. simpl in Hb1. lia.
      * intros k Hne Hb. destruct k as [|n' k]; [done|]. apply below_spec in Hb as [r Hb].
        injection Hb as <- ->. destruct k as [|n2 k].
        -- destruct (Hq (at_ ++ [n])) as [->|(_ & -> & _)]; [done|by eexists].
        -- specialize (Hk (n2 :: k)). rewrite <-(assoc_L (++)) in Hk. apply Hk; [done|]. apply below_app.
Qed.

Lemma remove_dir_gone q s :
  match remove_dir q s with (Ok _, s') => d_tree s' = delete q (d_tree s) | _ => True end.
Proof.
  unfold remove_dir. destruct (_ && _); [|done].
  assert (dtriple (λ t, t = d_tree s) (disk_call (delete q)) (λ _ t, t = delete q (d_tree s)) (λ _, True)) as Hc
    by (apply dtriple_call; [done|by intros t ->|done]).
  specialize (Hc s eq_refl). by destruct (disk_call (delete q) s) as [[u|e] s'].
Qed.

(** The removal of an old staging directory removes all of it. *)
Lemma remove_files_domain p names :
  dtriple (λ _, True) (remove_files p names) (λ _ _, True) (λ _, True).
Proof. intros s _. by destruct (remove_files p names s) as [[]]. Qed.
Lemma in_dir_domain {A} d (m : M Host A) s p :
  is_Some (d_tree (in_dir d m s).2 !! p) ↔ is_Some (d_tree s !! p).
Proof.
  unfold in_dir. destruct (m (host_of d s)) as [r h]. cbn [snd put_host d_tree].
  destruct (d_tree s !! d) as [f|] eqn:Hd; [|done].
  destruct (decide (p = d)) as [->|Hne]; [|by rewrite lookup_insert_ne].
  rewrite lookup_insert_eq, Hd. split; by eexists.
Qed.
Lemma remove_files_keeps p names s q :
  is_Some (d_tree (remove_files p names s).2 !! q) ↔ is_Some (d_tree s !! q).
Proof.
  revert s. induction names as [|n names IH]; intros s; cbn [remove_files]; [done|].
  unfold bindM. pose proof (in_dir_domain p (remove_file n) s q) as Hd.
  destruct (in_dir p (remove_file n) s) as [[b|e] s1]; [|done]. by rewrite IH.
Qed.

Definition nothing_below (d : Path) (t : Tree) : Prop := ∀ p, below d p = true → t !! p = None.

Lemma remove_dirs_all (d : Path) ds :
  dtriple (λ t, ∀ p, below d p = true → is_Some (t !! p) → p ∈ ds) (remove_dirs ds)
    (λ _, nothing_below d) (λ _, True).
Proof.
  induction ds as [|q ds IH]; cbn [remove_dirs].
  - apply dtriple_ret. intros t Ht p Hp. apply eq_None_not_Some. intros H.
    by apply Ht, elem_of_nil in H.
  - intros s Hs. unfold bindM at 1, readM. set (names := map fst _).
    pose proof (remove_files_keeps q names s) as Hk. unfold bindM at 1.
    destruct (remove_files q names s) as [[u|e] s1]; [|done]. cbn [snd] in Hk.
    unfold bindM. pose proof (remove_dir_gone q s1) as Hr.
    destruct (remove_dir q s1) as [[v|e] s2]; [|done]. apply IH. rewrite Hr. intros p Hp Hsome.
    destruct (decide (p = q)) as [->|Hne]; [rewrite lookup_delete_eq in Hsome; by destruct Hsome|].
    rewrite lookup_delete_ne in Hsome by done. apply Hk in Hsome.
    by destruct (proj1 (elem_of_cons _ _ _) (Hs p Hp Hsome)).
Qed.

Lemma remove_all_gone d : dtriple (λ _, True) (remove_dir_all d) (λ _, nothing_below d) (λ _, True).
Proof.
  intros s _. unfold remove_dir_all. destruct (is_dir d _); [|done].
  apply (remove_dirs_all d (dirs_below d (d_tree s)) s). intros p Hp Hs. by apply elem_dirs_below.
Qed.

(** An entry of the tree has its directory there. *)
Definition well_formed (t : Tree) : Prop :=
  ∀ d r, d ≠ [] → is_Some (t !! (d ++ r)) → is_Some (t !! d).

Lemma stale_gone d t0 :
  (∀ r, is_Some (t0 !! (d ++ r)) → is_Some (t0 !! d)) →
  dtriple (λ t, t = t0) (remove_stale d) (λ _, nothing_below d) (λ _, True).
Proof.
  intros Hw s <-. unfold remove_stale. destruct (path_exists d s) eqn:He; [by apply remove_all_gone|].
  unfold path_exists, is_dir in He. apply orb_false_iff in He as [He%bool_decide_eq_false _].
  intros p [r ->]%below_spec. apply eq_None_not_Some. intros H. by apply He, (Hw r).
Qed.

(** *** The staged tree *)
Definition stored (entries : list (str * bytes)) (f : Mem) : Mem :=
  fold_left (λ f '(name, data), <[name := data]> f) entries f.

(** [t] holds just these two directories under [d]. *)
Definition holds_account (d : Path) (files hist : Mem) (t : Tree) : Prop :=
  ∀ r, t !! (d ++ r) = match r with
                       | [] => Some files
                       | [h] => if decide (h = HISTORY) then Some hist else None
                       | _ => None
                       end.

Lemma holds_rooted files hist t d :
  holds_account staging files hist t → rooted parent t → d = staging ∨ d = history → rooted d t.
Proof.
  intros Ht Hp Hd k Hk Hb. apply below_spec in Hb as [r Hb].
  assert (d = parent ++ [sname] ++ (if decide (d = staging) then [] else [HISTORY])) as Heq.
  { destruct Hd as [->| ->]; by destruct (decide _). }
  rewrite Heq in Hb. apply app_eq_inv in Hb as [(x & Hx & _)|(x & -> & Hx)].
  - apply Hp; [done|]. apply below_spec. by exists x.
  - destruct x as [|n x]; [rewrite app_nil_r in *; apply Hp; [done|apply below_refl]|].
    injection Hx as <- Hx. destruct x as [|n x].
    + specialize (Ht []). rewrite app_nil_r in Ht. rewrite Ht. by eexists.
    + destruct (decide (d = staging)); [done|]. injection Hx as <- Hx.
      symmetry in Hx. apply app_nil in Hx as [-> _].
      specialize (Ht [HISTORY]). rewrite <-(assoc_L (++)), decide_True in Ht by done.
      cbn [app] in Ht. rewrite Ht. by eexists.
Qed.

(** Creating an existing directory does nothing, so that a write is one file. *)
Lemma write_at_in d name content t0 f :
  rooted d t0 → t0 !! d = Some f →
  dtriple (λ t, t = t0) (atomic_write_at d name content)
    (λ _ t, t = <[d := <[name := content]> f]> t0) (λ _, True).
Proof.
  intros Hr Hd s Hs. unfold atomic_write_at, bindM.
  assert (create_private_dir d s = (Ok tt, s)) as ->
    by (apply (mkdirs_noop [] d s); rewrite Hs; exact Hr).
  pose proof (write_at_exact d name content t0 f Hd s Hs) as Hw.
  by destruct (in_dir d _ s) as [[[]|e] s'].
Qed.

Lemma rooted_insert d d' f t : rooted d t → rooted d (<[d' := f]> t).
Proof. intros H k Hk Hb. apply lookup_insert_is_Some'. right. by apply H. Qed.

Lemma write_entries_in d entries t0 f :
  rooted d t0 → t0 !! d = Some f →
  dtriple (λ t, t = t0) (write_entries d entries)
    (λ _ t, t = <[d := stored entries f]> t0) (λ _, True).
Proof.
  revert t0 f. induction entries as [|[n c] l IH]; intros t0 f Hr Hd; cbn [write_entries].
  - apply dtriple_ret. intros t ->. cbn. by rewrite insert_id.
  - eapply dtriple_bind; [by apply (write_at_in d n c t0 f)|]. intros u. cbv beta.
    eapply dtriple_consequence; [apply (IH (<[d := <[n := c]> f]> t0) (<[n := c]> f))|done| |done].
    + by apply rooted_insert.
    + apply lookup_insert_eq.
    + intros v t ->. by rewrite insert_insert_eq.
Qed.

(** *** The publication *)
Context (name : bytes) (name_ne : name ≠ sname).
#[local] Abbreviation destination := (parent ++ [name]).

(** The destination has not changed. *)
Definition beside (t0 t : Tree) : Prop := ∀ p, below destination p = true → t !! p = t0 !! p.

Lemma grown_beside t0 t1 t2 : grown staging parent t1 t2 → beside t0 t1 → beside t0 t2.
Proof.
  intros Hg Hb p Hp. rewrite <-(Hb p Hp). destruct (Hg p) as [H|(H & _)]; [|done|].
  - apply below_spec in Hp as [r ->]. rewrite <-(assoc_L (++)). apply below_sibling. congruence.
  - apply below_length in Hp, H. rewrite length_app in Hp. simpl in Hp. lia.
Qed.

Lemma dtriple_beside {A} t0 I (m : M Disk A) Q :
  dtriple I m Q (λ _, True) → grows staging parent m →
  dtriple (λ t, I t ∧ beside t0 t) m (λ a t, Q a t ∧ beside t0 t) (beside t0).
Proof.
  intros Hm Hg s [Hs Hb]. specialize (Hm s Hs). specialize (Hg s).
  destruct (m s) as [[a|e] s']; [split; [done|]|]; by eapply grown_beside.
Qed.

(** The destination holds the account of a bundle. *)
Definition published (b : Backup) (t : Tree) : Prop :=
  holds_account destination {[IDENTITY_FILE := bk_identity b]} (stored (bk_store b) ∅) t.

Lemma rename_publishes t0 b :
  nothing_below destination t0 →
  dtriple (λ t, holds_account staging {[IDENTITY_FILE := bk_identity b]} (stored (bk_store b) ∅) t ∧ beside t0 t)
    (rename_dir staging destination) (λ _, published b) (λ t, beside t0 t ∨ published b t).
Proof.
  intros Hnone s [Ht Hb]. unfold rename_dir. destruct (_ && _); [|by left].
  set (effect := λ t, graft destination (under staging t) (outside staging t)).
  assert (published b (effect (d_tree s))) as He.
  { intros r. unfold effect. rewrite lookup_graft_under, lookup_under; [apply Ht|].
    rewrite lookup_outside. destruct (below staging _); [done|]. rewrite Hb by apply below_app.
    apply Hnone, below_app. }
  assert (dtriple (λ t, t = d_tree s) (disk_call effect) (λ _, published b)
    (λ t, beside t0 t ∨ published b t)) as Hc by (apply dtriple_call; intros t ->; auto).
  exact (Hc s eq_refl).
Qed.

Lemma staging_empty t0 :
  nothing_below staging t0 →
  dtriple (λ t, t = t0) (create_private_dir history)
    (λ _ t, holds_account staging ∅ ∅ t ∧ rooted parent t) (λ _, True).
Proof.
  intros Hnone. eapply dtriple_consequence; [apply (mkdirs_exact t0 [] history)|done| |done].
  intros u t [Hq Hk]. split.
  - intros r. assert (∀ k, t0 !! (staging ++ k) = None) as Hn0 by (intros k; apply Hnone, below_app).
    assert (∀ k, below (staging ++ k) history = true → t !! (staging ++ k) = Some ∅) as Hin.
    { intros k Hb. destruct (Hk (staging ++ k)) as [f Hf]; [by destruct parent|done|].
      destruct (Hq (staging ++ k)) as [E|(_ & E & _)]; [|done]. cbn [app] in Hf. rewrite Hf, Hn0 in E. done. }
    destruct r as [|h r].
    + apply Hin. rewrite app_nil_r. apply below_spec. exists [HISTORY]. by rewrite <-(assoc_L (++)).
    + destruct (decide (h :: r = [HISTORY])) as [[= -> ->]|Hne].
      * rewrite decide_True by done. apply Hin. rewrite <-(assoc_L (++)). apply below_refl.
      * assert (t !! (staging ++ h :: r) = None) as Hno; [|destruct r; [rewrite decide_False|]; congruence].
        destruct (Hq (staging ++ h :: r)) as [->|(_ & _ & _ & _ & Hb)]; [done|].
        exfalso. apply below_spec in Hb as [x Hx]. rewrite <-!(assoc_L (++)) in Hx.
        cbn [app] in Hx. apply app_inv_head in Hx. injection Hx as Hh Hr. symmetry in Hr.
        apply app_nil in Hr as [-> _]. by apply Hne; rewrite Hh.
  - intros k Hne Hb. apply (Hk k Hne). eapply below_trans; [done|]. apply below_app.
Qed.

Lemma holds_insert_root files hist files' t :
  holds_account staging files hist t → holds_account staging files' hist (<[staging := files']> t).
Proof.
  intros Ht r. destruct r as [|h r]; [rewrite app_nil_r; apply lookup_insert_eq|].
  rewrite lookup_insert_ne; [apply (Ht (h :: r))|]. intros E%(f_equal length).
  rewrite !length_app in E. simpl in E. lia.
Qed.
Lemma holds_insert_history files hist hist' t :
  holds_account staging files hist t → holds_account staging files hist' (<[history := hist']> t).
Proof.
  intros Ht r. specialize (Ht r). destruct (decide (r = [HISTORY])) as [->|Hne].
  - rewrite decide_True by done. rewrite <-(assoc_L (++)). apply lookup_insert_eq.
  - rewrite lookup_insert_ne, Ht.
    + destruct r as [|h [|]]; [done| |done]. rewrite !decide_False by congruence. done.
    + rewrite <-(assoc_L (++)). intros E%app_inv_head. by injection E.
Qed.

Lemma publish_staging_spec t0 b :
  nothing_below staging t0 → nothing_below destination t0 →
  dtriple (λ t, t = t0) (publish_staging staging destination parent b)
    (λ _, published b) (λ t, beside t0 t ∨ published b t).
Proof.
  intros Hstale Hdest. unfold publish_staging. cbv zeta. rewrite <-(assoc_L (++)). cbn [app].
  assert (below staging history = true) as Hbelow
    by (apply below_spec; exists [HISTORY]; by rewrite <-(assoc_L (++))).
  set (built files hist t := (holds_account staging files hist t ∧ rooted parent t) ∧ beside t0 t).
  assert (∀ A (m : M Disk A) I Q files hist, dtriple I m Q (λ _, True) → grows staging parent m →
    (∀ a t, Q a t → holds_account staging files hist t ∧ rooted parent t) →
    dtriple (λ t, I t ∧ beside t0 t) m (λ _, built files hist) (λ t, beside t0 t ∨ published b t)) as Hstep.
  { intros A m I Q files hist Hm Hg HQ. eapply dtriple_consequence;
      [exact (dtriple_beside t0 I m Q Hm Hg)|by intros t H| |by intros t H; left].
    intros a t [Hq Hb]. by split; [apply (HQ a)|]. }
  set (idf := {[IDENTITY_FILE := bk_identity b]} : Mem).
  assert (∀ files hist, dtriple (built files hist) sync_dir (λ _, built files hist)
    (λ t, beside t0 t ∨ published b t)) as Hsync by (intros files hist; apply dtriple_sync; intros t [_ H]; by left).
  eapply (dtriple_consequence _ (λ t, t = t0 ∧ beside t0 t)); [|by intros t ->|by intros a t H; exact H|by intros t H; exact H].
  apply (dtriple_bind _ _ _ (λ _, built ∅ ∅)).
  { eapply Hstep; [by apply staging_empty|apply grows_create; by left|done]. }
  intros u. apply (dtriple_bind _ _ _ (λ _, built idf ∅)).
  { intros s [[Ht Hr] Hb]. eapply (Hstep _ _ (λ t, t = d_tree s)); [|by apply grows_write_at, below_refl| |by split].
    - apply write_at_in; [eapply holds_rooted; eauto|]. specialize (Ht []). by rewrite app_nil_r in Ht.
    - intros a t ->. split; [by eapply holds_insert_root|by apply rooted_insert]. }
  intros u1. apply (dtriple_bind _ _ _ (λ _, built idf (stored (bk_store b) ∅))).
  { intros s [[Ht Hr] Hb]. eapply (Hstep _ _ (λ t, t = d_tree s)); [|by apply grows_entries| |by split].
    - apply (write_entries_in history (bk_store b) (d_tree s) ∅); [eapply holds_rooted; eauto|].
      specialize (Ht [HISTORY]). by rewrite <-(assoc_L (++)), decide_True in Ht.
    - intros a t ->. split; [by eapply holds_insert_history|by apply rooted_insert]. }
  intros u2. apply (dtriple_bind _ _ _ (λ _, built idf (stored (bk_store b) ∅))); [apply Hsync|].
  intros u3. apply (dtriple_bind _ _ _ (λ _, built idf (stored (bk_store b) ∅))); [apply Hsync|].
  intros u4. apply (dtriple_bind _ _ _ (λ _, published b)).
  { eapply dtriple_consequence; [apply (rename_publishes t0 b Hdest)| |done|done].
    intros t [[Ht _] Hb]. by split. }
  intros u5. apply dtriple_sync. by right.
Qed.
End Staging.

(** ** The whole publication *)
Section Publication.
Context (parent : Path) (name : bytes).
#[local] Abbreviation destination := (parent ++ [name]).
#[local] Abbreviation staging := (parent ++ [staging_name name]).

Lemma name_ne_staging : name ≠ staging_name name.
Proof. intros E%(f_equal length). unfold staging_name in E. rewrite !length_app in E. simpl in E. lia. Qed.

(** Nothing under the destination changed, except that it may be gone if it was
    an empty directory. *)
Definition kept (t t' : Tree) : Prop :=
  ∀ p, below destination p = true → t' !! p = t !! p ∨ (t !! p = Some ∅ ∧ t' !! p = None).

(** The destination can be replaced. *)
Definition vacant (t : Tree) : Prop :=
  ∀ p, below destination p = true → t !! p = None ∨ (p = destination ∧ t !! p = Some ∅).

Lemma no_children_spec p t q : no_children p t = true → below p q = true → q ≠ p → t !! q = None.
Proof.
  unfold no_children. rewrite forallb_forall. intros H Hb Hne. apply eq_None_not_Some. intros [f Hf].
  assert (In (q, f) (map_to_list t)) as Hin by (by apply list_elem_of_In, elem_of_map_to_list).
  specialize (H _ Hin). cbn in H. rewrite Hb, bool_decide_false in H by done. done.
Qed.

Lemma clear_spec s :
  well_formed (d_tree s) →
  let '(r, s') := clear_destination destination s in
  (d_tree s' = d_tree s ∨ vacant (d_tree s) ∧ d_tree s' = delete destination (d_tree s)) ∧
  (r = Ok tt → vacant (d_tree s) ∧ nothing_below destination (d_tree s')).
Proof.
  intros Hwf. unfold clear_destination. destruct (path_exists destination s) eqn:He.
  - destruct (is_dir _ _); [|by split; [left|]]. case_bool_decide as Hd; cbn [andb]; [|by split; [left|]].
    destruct (no_children _ _) eqn:Hn; [|by split; [left|]].
    assert (vacant (d_tree s)) as Hv.
    { intros p Hp. destruct (decide (p = destination)) as [->|Hne]; [by right|left].
      by apply (no_children_spec destination). }
    unfold remove_dir. rewrite bool_decide_true, Hn by done. cbn [andb].
    pose proof (call_cases (delete destination) s) as Hc.
    pose proof (dtriple_call (λ t, t = d_tree s) (delete destination)
      (λ t, t = delete destination (d_tree s)) (λ _, True)) as Hok.
    specialize (Hok (λ _ _, I)). specialize (Hok ltac:(by intros t ->) (λ _ _, I) s eq_refl).
    destruct (disk_call _ s) as [[u|e] s']; cbn [snd] in Hc; (split; [tauto|]); [|done]. intros _.
    split; [done|]. rewrite Hok. intros p Hp. destruct (decide (p = destination)) as [->|Hne];
      [apply lookup_delete_eq|]. rewrite lookup_delete_ne by done. by destruct (Hv p Hp) as [|[]].
  - split; [by left|]. intros _. unfold path_exists, is_dir in He.
    apply orb_false_iff in He as [He%bool_decide_eq_false _].
    assert (nothing_below destination (d_tree s)) as Hn.
    { intros p [r ->]%below_spec. apply eq_None_not_Some. intros H. apply He, (Hwf _ r); [|done].
      by destruct parent. }
    split; [|done]. intros p Hp. left. by apply Hn.
Qed.

Lemma create_parent_below s :
  match create_private_dir parent s with
  | (Ok _, s') => ∀ r, d_tree s' !! (staging ++ r) = d_tree s !! (staging ++ r)
  | _ => True
  end.
Proof.
  pose proof (mkdirs_exact (d_tree s) [] parent s eq_refl) as H. unfold create_private_dir.
  destruct (mkdirs [] parent s) as [[u|e] s']; [|done]. intros r.
  destruct H as [H _]. destruct (H (staging ++ r)) as [->|(_ & _ & _ & _ & Hb)]; [done|].
  apply below_length in Hb. rewrite !length_app in Hb. simpl in Hb. lia.
Qed.

Lemma beside_published b t t' :
  beside parent name t t' → published parent name b t → published parent name b t'.
Proof. intros Hb Hp r. rewrite Hb by apply below_app. apply Hp. Qed.

Lemma kept_beside t t1 t' :
  t1 = t ∨ vacant t ∧ t1 = delete destination t → beside parent name t1 t' → kept t t'.
Proof.
  intros Ht1 Hb p Hp. rewrite (Hb p Hp). destruct Ht1 as [->|[Hv ->]]; [by left|].
  destruct (decide (p = destination)) as [->|Hne]; [|left; by rewrite lookup_delete_ne].
  rewrite lookup_delete_eq. destruct (Hv _ Hp) as [->|[_ ->]]; [by left|by right].
Qed.

Lemma grows_beside {A} (m : M Disk A) t0 s :
  grows staging parent m → beside parent name t0 (d_tree s) → beside parent name t0 (d_tree (m s).2).
Proof. intros Hm. apply (grown_beside parent (staging_name name) name name_ne_staging). apply Hm. Qed.

Lemma grows_stale : grows staging parent (remove_stale staging).
Proof. intros s. unfold remove_stale. destruct (path_exists _ _); [apply grows_remove_all|reflexivity]. Qed.

(** What is left of an old staging directory has its root, after the first steps too. *)
Lemma stale_rooted (t t1 t2 : Tree) :
  well_formed t → t1 = t ∨ vacant t ∧ t1 = delete destination t →
  (∀ r, t2 !! (staging ++ r) = t1 !! (staging ++ r)) →
  ∀ r, is_Some (t2 !! (staging ++ r)) → is_Some (t2 !! staging).
Proof.
  intros Hwf Ht1 Ht2. assert (∀ r, t2 !! (staging ++ r) = t !! (staging ++ r)) as Hsame.
  { intros r. rewrite Ht2. destruct Ht1 as [->|[_ ->]]; [done|]. rewrite lookup_delete_ne; [done|].
    rewrite <-(assoc_L (++)). intros E%app_inv_head. injection E as E _. by apply name_ne_staging. }
  intros r. rewrite Hsame. specialize (Hsame []). rewrite app_nil_r in Hsame. rewrite Hsame.
  apply Hwf. by destruct parent.
Qed.

(** The staged part, with its clean-up. *)
Lemma staged_or_cleaned b t1 s :
  nothing_below staging (d_tree s) → nothing_below destination (d_tree s) →
  beside parent name t1 (d_tree s) →
  let '(r, s') := (let! result := tryM (publish_staging staging destination parent b) in
                   match result with
                   | Ok _ => retM tt
                   | Err e => let! _ := tryM (remove_dir_all staging) in errM e
                   end) s in
  (is_err r = true ∧ beside parent name t1 (d_tree s')) ∨ published parent name b (d_tree s').
Proof.
  intros Hstale Hn Hb. pose proof (publish_staging_spec parent (staging_name name) name name_ne_staging
    (d_tree s) b Hstale Hn s eq_refl) as Hpub.
  unfold bindM at 1, tryM at 1. destruct (publish_staging _ _ _ b s) as [[[]|e] s4]; [by right|].
  unfold bindM, tryM. pose proof (λ t0, grows_beside (remove_dir_all staging) t0 s4 (grows_remove_all _ _)) as Hb5.
  destruct (remove_dir_all staging s4) as [r5 s5]. cbn [snd errM] in *. destruct Hpub as [Hb4|Hpub].
  - left. split; [done|]. intros p Hp. rewrite <-(Hb p Hp). by apply Hb5.
  - right. eapply beside_published; [|exact Hpub]. by apply Hb5.
Qed.

Lemma publish_spec b s :
  well_formed (d_tree s) → from_utf8 name = Some name →
  let '(r, s') := publish_backup_tree destination b s in
  (is_err r = true ∧ kept (d_tree s) (d_tree s')) ∨
  (vacant (d_tree s) ∧ published parent name b (d_tree s')).
Proof.
  intros Hwf Hname. unfold publish_backup_tree. pose proof (clear_spec s Hwf) as Hc.
  unfold bindM at 1. destruct (clear_destination destination s) as [r s1]. destruct Hc as [Ht1 Hr1].
  destruct r as [[]|e]; [|left; split; [done|by eapply kept_beside]].
  destruct (Hr1 eq_refl) as [Hv Hn1]. cbv zeta. rewrite removelast_last.
  pose proof (create_parent_below s1) as Hp2.
  pose proof (grows_beside (create_private_dir parent) (d_tree s1) s1
    (grows_create _ _ parent (or_intror eq_refl)) (λ _ _, eq_refl)) as Hb2.
  unfold bindM at 1. destruct (create_private_dir parent s1) as [[[]|e] s2]; cbn [snd] in Hb2;
    [|left; split; [done|by eapply kept_beside]].
  rewrite rev_app_distr. cbn [rev app head]. rewrite Hname. unfold bindM at 1, liftM at 1. cbn [ok_or].
  pose proof (stale_gone staging (d_tree s2) (stale_rooted _ _ _ Hwf Ht1 Hp2) s2 eq_refl) as Hstale.
  pose proof (grows_beside _ _ s2 grows_stale Hb2) as Hb3.
  unfold bindM at 1. destruct (remove_stale staging s2) as [[[]|e] s3]; cbn [snd] in Hb3;
    [|left; split; [done|by eapply kept_beside]].
  pose proof (staged_or_cleaned b (d_tree s1) s3 Hstale) as Hlast.
  destruct (bindM _ _ s3) as [r s']. destruct Hlast as [[Hr Hb']|Hpub].
  - intros p Hp. rewrite Hb3 by done. by apply Hn1.
  - exact Hb3.
  - left. split; [done|]. by eapply kept_beside.
  - by right.
Qed.

(** *** Nothing else of the disk changes *)
Definition others (t t' : Tree) : Prop :=
  ∀ p f, below destination p = false → below staging p = false → t !! p = Some f → t' !! p = Some f.
#[local] Instance others_preorder : PreOrder others.
Proof. split; [by intros t p f|]. intros t1 t2 t3 H1 H2 p f Hd Hs H. auto. Qed.

Definition spares {A} (m : M Disk A) : Prop := ∀ s, others (d_tree s) (d_tree (m s).2).

Lemma spares_grows {A} (m : M Disk A) : grows staging parent m → spares m.
Proof. intros Hm s p f _ Hs Hf. destruct (Hm s p Hs) as [->|(_ & Hn & _)]; [done|congruence]. Qed.
Lemma spares_bind {A B} (m : M Disk A) (k : A → M Disk B) :
  spares m → (∀ a, spares (k a)) → spares (bindM m k).
Proof.
  intros Hm Hk s. unfold bindM. specialize (Hm s). destruct (m s) as [[a|e] s1]; [|done].
  transitivity (d_tree s1); [exact Hm|apply Hk].
Qed.
Lemma spares_try {A} (m : M Disk A) : spares m → spares (tryM m).
Proof. intros Hm s. unfold tryM. specialize (Hm s). by destruct (m s). Qed.
Lemma spares_call effect s :
  others (d_tree s) (effect (d_tree s)) → others (d_tree s) (d_tree (disk_call effect s).2).
Proof. intros He. destruct (call_cases effect s) as [->| ->]; [reflexivity|done]. Qed.

Lemma publish_spares b : from_utf8 name = Some name → spares (publish_backup_tree destination b).
Proof.
  intros Hname. unfold publish_backup_tree. cbv zeta.
  rewrite removelast_last, rev_app_distr. cbn [rev app head]. rewrite Hname.
  assert (below staging (staging ++ [HISTORY]) = true) as Hh by apply below_app.
  apply spares_bind.
  { intros s. unfold clear_destination, remove_dir. destruct (path_exists _ _); [|reflexivity].
    destruct (is_dir _ _); [|reflexivity]. destruct (_ && _) eqn:Hc; [|reflexivity]. rewrite Hc.
    apply spares_call. intros p f Hd _. rewrite lookup_delete_ne; [done|]. intros <-.
    by rewrite below_refl in Hd. }
  intros _. apply spares_bind; [apply spares_grows, grows_create; by right|].
  intros _ s. rewrite (bindM_run _ _ s name s eq_refl). revert s.
  apply spares_bind; [apply spares_grows, grows_stale|]. intros _.
  apply spares_bind; [apply spares_try|].
  - apply spares_bind; [apply spares_grows, grows_create; by left|]. intros _.
    apply spares_bind; [apply spares_grows, grows_write_at, below_refl|]. intros _.
    apply spares_bind; [by apply spares_grows, grows_entries|]. intros _.
    apply spares_bind; [apply spares_grows, grows_sync|]. intros _.
    apply spares_bind; [apply spares_grows, grows_sync|]. intros _.
    apply spares_bind; [|intros _; apply spares_grows, grows_sync].
    intros s. unfold rename_dir. destruct (_ && _); [|reflexivity]. apply spares_call.
    intros p f Hd Hs Hf. by rewrite lookup_graft_beside, lookup_outside, Hs.
  - intros [[]|e]; [by intros s|]. apply spares_bind; [apply spares_try, spares_grows, grows_remove_all|].
    by intros _ s.
Qed.
End Publication.

(** ** The import *)
Section Importing.
Context {crypto : Crypto} {T : Type} `{!Argon2, !Json Sealed, !Json Secret, !Terminal T, !Postcard Backup}.

(** The bundle that an import reads, opens and finds valid. *)
Definition acceptable (cell : option ClientConfig) (from : Path) (file : bytes) (s : T * Disk) (b : Backup) : Prop :=
  (∃ input, d_tree s.2 !! from ≫= (.!! file) = Some input ∧ wire.decode input = Ok b) ∧
  (∃ identity, (open_identity cell (bk_identity b) s.1).1 = Ok identity) ∧
  valid_names [] (bk_store b) = true.

(** C20: An import publishes a whole account or nothing: whatever call of it
    fails, or the process dies at, the data directory holds afterwards what it
    held before (an empty one may be gone) or, having been empty, exactly the
    identity and the entries of a bundle that opens with the passphrase and whose
    names are valid; the latter whenever success is reported.  No file elsewhere
    changes, except in the staging directory. *)
Theorem import_publishes_whole cell parent name from file (s : T * Disk) :
  well_formed (d_tree s.2) → from_utf8 name = Some name →
  let '(r, s') := import_backup cell (parent ++ [name]) from file s in
  ((is_err r = true ∧ kept parent name (d_tree s.2) (d_tree s'.2)) ∨
   ∃ b, acceptable cell from file s b ∧ vacant parent name (d_tree s.2) ∧
        published parent name b (d_tree s'.2)) ∧
  others parent name (d_tree s.2) (d_tree s'.2).
Proof.
  intros Hwf Hname. unfold import_backup.
  assert (∀ e t, t = d_tree s.2 →
    ((is_err (A := unit) (Err (e : error)) = true ∧ kept parent name (d_tree s.2) t) ∨
     ∃ b, acceptable cell from file s b ∧ vacant parent name (d_tree s.2) ∧ published parent name b t) ∧
    others parent name (d_tree s.2) t) as Hsame.
  { intros e t ->. split; [left; split; [done|by left]|by intros p f]. }
  destruct (path_exists _ _); [by apply Hsame|].
  unfold bindM at 1, on_fs at 1, context. destruct (read_file_tree from file s.2) as [Ht Hread].
  destruct (read_file from file s.2) as [[input|e] d]; cbn [map_err fst snd] in *; [|by apply Hsame].
  specialize (Hread input eq_refl).
  unfold bindM at 1, liftM at 1. destruct (wire.decode input) as [b|e] eqn:Hdec; cbn [map_err]; [|by apply Hsame].
  unfold bindM at 1, on_tty. cbn [fst snd].
  destruct (open_identity cell (bk_identity b) s.1) as [[identity|e] t] eqn:Hopen; cbn [fst snd]; [|by apply Hsame].
  destruct (valid_names [] (bk_store b)) eqn:Hv; cbn [negb]; [|by apply Hsame].
  unfold on_fs. cbn [fst snd]. rewrite <-Ht in Hwf |- *.
  pose proof (publish_spec parent name b d Hwf Hname) as Hp.
  pose proof (publish_spares parent name b Hname d) as Ho.
  destruct (publish_backup_tree _ b d) as [r d']. cbn [snd] in *. split; [|done].
  destruct Hp as [Hp|[Hvac Hp]]; [by left|right]. exists b. split_and!; [|done..].
  split_and!; [by exists input|exists identity; by rewrite Hopen|done].
Qed.
End Importing.
