(* ===== verification/BackupWitness.v ===== *)
(** * BackupWitness: an export and two imports at concrete inputs *)

From S2P Require Import Prelude Std Crypto Wire Identity UserId Storage FileStore FileStoreProps Recovery Sealing Registry Backup BackupProps Publish Codecs Instances.

#[export] Instance Backup_codec : Codec Backup.
Proof.
  refine (codec_iso (λ b, (bk_identity b, bk_store b)) (λ '(i, s), Some (mkBackup i s)) _). by intros [].
Defined.
#[export] Instance mute_terminal : Terminal unit := λ _ t, (Err io_error, t).
#[export] Instance sorted_read_dir : ReadDir := λ f, map fst (map_to_list f).

Lemma sorted_read_dir_all (f : Mem) name : is_Some (f !! name) → name ∈ read_dir f.
Proof.
  intros [c Hc]. unfold read_dir, sorted_read_dir. apply list_elem_of_fmap. exists (name, c).
  split; [done|]. by apply elem_of_map_to_list.
Qed.

Definition cell : option ClientConfig := Some (mkConfig b#"data" (Some b#"long enough") [] []).
Definition sealed_file : bytes :=
  default [] (files (save_identity_with_passphrase_at (toy_identity 7) b#"long enough" (empty_disk [])).2
              !! IDENTITY_FILE).
Definition disk_with (t : Tree) (sc : list Step) : unit * Disk :=
  (tt, mkDisk t Unlocked (λ _, false) true sc).

(** A client with an identity and no messages yet exports, and cannot import. *)
Definition account_disk : unit * Disk :=
  disk_with {[ [b#"data"] := {[IDENTITY_FILE := sealed_file]} ]} [].
Definition exported := export_backup cell [b#"data"] [b#"out"] b#"bundle" account_disk.

Lemma export_succeeds : is_ok exported.1 = true.
Proof. vm_compute. reflexivity. Qed.

Lemma exported_bundle_refused_witness :
  exported.1 = Ok tt ∧
  (import_backup cell [b#"new"] [b#"out"] b#"bundle" exported.2).1 ≠ Ok tt.
Proof.
  pose proof export_succeeds as Hok. destruct exported as [r s'] eqn:He. cbn [fst snd] in *.
  destruct r as [[]|e]; [|discriminate Hok]. split; [reflexivity|].
  assert ([b#"out"] ≠ []) as Hne by discriminate.
  destruct (exported_bundle_refused sorted_read_dir_all cell [b#"data"] [b#"out"] b#"bundle" account_disk s'
    Hne He) as (bundle & Hb & Hrefused).
  specialize (Hrefused cell [b#"new"] [b#"out"] b#"bundle" s' Hb).
  destruct (import_backup _ _ _ _ s') as [[[]|e] s3]; [destruct Hrefused; discriminate|discriminate].
Defined.

(** A bundle whose names are keys: published, on any crash all of it or nothing. *)
Definition good_backup : Backup := mkBackup sealed_file [(b#"00ff", b#"entry"); (b#"a1", b#"other")].
Definition bundle_disk : list Step → unit * Disk :=
  disk_with {[ [b#"in"] := {[b#"bundle" := wire.encode good_backup]};
               [b#".new.import-staging"] := {[b#"partial" := b#"old failed import"]} ]}.
Definition import_after (sc : list Step) := import_backup cell [b#"new"] [b#"in"] b#"bundle" (bundle_disk sc).
Definition new_files (s : unit * Disk) : nat * nat :=
  let count p := match d_tree s.2 !! p with Some f => size f | None => 0%nat end in
  (count [b#"new"], count [b#"new"; HISTORY]).

Example import_works : (is_ok (import_after []).1, new_files (import_after []).2) = (true, (1, 2)%nat).
Proof. vm_compute. reflexivity. Qed.

(** A crash at each of its calls in turn; then a retry. *)
Definition crash_at (n : nat) : unit * Disk :=
  (import_after (replicate n quiet_step ++ [mkStep CrashAfter [] 3])).2.
Definition retry (s : unit * Disk) := import_backup cell [b#"new"] [b#"in"] b#"bundle"
  (disk_with (d_tree s.2) []).
Example import_crashes :
  forallb (λ n, let s := crash_at n in
    bool_decide (new_files s = (0, 0)%nat) && is_ok (retry s).1 || bool_decide (new_files s = (1, 2)%nat))
    (seq 0 40) = true.
Proof. vm_compute. reflexivity. Qed.

Lemma flat_well_formed (t : Tree) : (∀ p f, t !! p = Some f → length p ≤ 1)%nat → well_formed t.
Proof.
  intros Ht d r Hd [f Hf]. pose proof (Ht _ _ Hf) as Hl. rewrite length_app in Hl.
  destruct d as [|n d]; [done|]. destruct r; [|simpl in Hl; lia]. rewrite app_nil_r in Hf. by exists f.
Qed.
Lemma bundle_well_formed : well_formed (d_tree (bundle_disk []).2).
Proof.
  apply flat_well_formed. intros p f Hp. unfold bundle_disk, disk_with in Hp. cbn [snd d_tree] in Hp.
  apply lookup_insert_Some in Hp as [[<- _]|[_ Hp]]; [cbn; lia|].
  apply lookup_singleton_Some in Hp as [<- _]. cbn. lia.
Qed.

Lemma import_publishes_whole_witness :
  ∃ b, (import_after []).1 = Ok tt ∧ bk_store b ≠ [] ∧ published [] b#"new" b (d_tree (import_after []).2.2).
Proof.
  pose proof (import_publishes_whole cell [] b#"new" [b#"in"] b#"bundle" (bundle_disk [])
    bundle_well_formed eq_refl) as H.
  assert (is_ok (import_after []).1 = true) as Hok by (vm_compute; reflexivity).
  assert (new_files (import_after []).2 = (1, 2)%nat) as Hn by (vm_compute; reflexivity).
  unfold import_after in *. cbn [app] in H.
  destruct (import_backup _ _ _ _ (bundle_disk [])) as [[[]|e] s']; [|discriminate Hok].
  destruct H as [[[He _]|(b & _ & _ & Hp)] _]; [discriminate He|]. exists b. split; [done|]. split; [|exact Hp].
  intros Hs. specialize (Hp [HISTORY]). cbv beta iota in Hp. rewrite decide_True, Hs in Hp by done. cbn [fst snd] in Hn.
  unfold new_files in Hn. cbn [app] in Hp. rewrite Hp in Hn. injection Hn as _ Hn. discriminate Hn.
Defined.
