(* ===== verification/CliUtil.v ===== *)
(** * CliUtil: the helpers of the command line client

    [mycellium-cli/src/app/util.rs]: durations, messages built from flags,
    attachments saved to disk; and the delivery summaries of [app/mod.rs]. *)

From S2P Require Import Prelude Std Crypto Wire Identity Message Storage FileStore FileStoreProps BackupProps LocalState WireOps RegistryClient Instances.

(** ** Text *)

(** [strip_suffix] of one character. *)
Definition strip_suffix (c : ascii) (s : str) : option str :=
  match rev s with x :: r => if bool_decide (x = c) then Some (rev r) else None | [] => None end.

(** [rsplit_once] *)
Definition rsplit_once (c : ascii) (s : str) : option (str * str) :=
  match split_once c (rev s) with Some (r, l) => Some (rev l, rev r) | None => None end.

(** [str::parse::<u64>]: an optional plus sign, digits, no overflow. *)
Definition parse_u64 (s : str) : option u64 :=
  let digits := match s with "+"%char :: rest => rest | _ => s end in
  if negb (bool_decide (digits = [])) && forallb is_ascii_digit digits && (from_dec digits <? 2 ^ 64)%N
  then Some (uwrap 64 (from_dec digits)) else None.

(** ** Durations *)
Definition duration_parts (s : str) : str * N :=
  match strip_suffix "s"%char s with
  | Some n => (n, 1)
  | None =>
  match strip_suffix "m"%char s with
  | Some n => (n, 60)
  | None =>
  match strip_suffix "h"%char s with
  | Some n => (n, 3600)
  | None =>
  match strip_suffix "d"%char s with
  | Some n => (n, 86400)
  | None => (s, 1)
  end end end end%N.

(** The product wraps, as release builds compute it. *)
Definition parse_duration (s : str) : result error u64 :=
  let s := trim s in
  let '(num, mult) := duration_parts s in
  match parse_u64 (trim num) with
  | None => Err (Anyhow (b#"invalid duration '" ++ s ++ b#"' (use e.g. 30s, 10m, 1h, 7d)"))
  | Some value => Ok (uwrap 64 (u_val value * mult))
  end.

Section Expiry.
Context {S P : Type} `{!Storage S, !Platform P, !Postcard u64}.

Definition resolve_expiry (key : str) (expire : option str) (platform : P) (store : S)
    : result error (option u64) :=
  let? ttl := match expire with
              | Some dur => let? secs := parse_duration dur in Ok (Some secs)
              | None => expiry.get key store
              end in
  Ok (option_map (λ secs, uwrap 64 (u_val (now_unix_secs platform) + u_val secs)) ttl).
End Expiry.

(** ** Messages from flags *)
Definition guess_mime (name : str) : str :=
  let ext := map to_ascii_lowercase
    match rsplit_once "."%char name with Some (_, e) => e | None => name end in
  if existsb (λ e, bool_decide (ext = e)) [b#"txt"; b#"md"] then b#"text/plain"
  else if bool_decide (ext = b#"png") then b#"image/png"
  else if existsb (λ e, bool_decide (ext = e)) [b#"jpg"; b#"jpeg"] then b#"image/jpeg"
  else if bool_decide (ext = b#"gif") then b#"image/gif"
  else if bool_decide (ext = b#"pdf") then b#"application/pdf"
  else if bool_decide (ext = b#"json") then b#"application/json"
  else b#"application/octet-stream".

(** [Path::file_name]: the last component that is not the current directory,
    unless it is the parent. *)
Definition file_name (path : str) : option str :=
  match rev (List.filter (λ c, negb (bool_decide (c = [])) && negb (bool_decide (c = b#".")))
               (split_at "/"%char path)) with
  | [] => None
  | name :: _ => if bool_decide (name = b#"..") then None else Some name
  end.

Definition MAX_ATTACHMENT : nat := (256 * 1024)%nat.

(** [file] is the path and what reading it gives. *)
Definition message_body (message reply_to react to : option str)
    (file : option (str * result error bytes)) (edit delete_ : option str) : result error Body :=
  let need flag (o : option str) := ok_or (Anyhow flag) o in
  match delete_, edit, file, react, reply_to with
  | Some target, _, _, _, _ => Ok (Message.Delete target)
  | None, Some target, _, _, _ =>
      let? text := need b#"--edit requires --message" message in Ok (Edit target text)
  | None, None, Some (path, content), _, _ =>
      let? data := map_err (λ _, Anyhow (b#"could not read '" ++ path ++ b#"'")) content in
      if (MAX_ATTACHMENT <? length data)%nat then Err (Anyhow b#"file too large (max 256 KiB)")
      else let name := default b#"file" (file_name path) in Ok (File name (guess_mime name) data)
  | None, None, None, Some emoji, _ =>
      let? to := need b#"--react requires --to <message-id>" to in Ok (Reaction to emoji)
  | None, None, None, None, Some target =>
      let? text := need b#"--reply-to requires --message" message in Ok (Reply target text)
  | None, None, None, None, None =>
      let? text := need b#"--message is required" message in Ok (Text text)
  end.

Definition build_message {P} `{!Platform P} (message reply_to react to : option str)
    (file : option (str * result error bytes)) (edit delete_ : option str) (expires_at : option u64)
    (platform : P) : result error AppMessage * P :=
  match message_body message reply_to react to file edit delete_ with
  | Err e => (Err e, platform)
  | Ok body =>
      let '(id, platform) := random_id platform in
      (Ok (mkAppMessage id (now_unix_secs platform) expires_at body), platform)
  end.

(** ** Attachments on disk *)
Definition MAX_SUFFIX : nat := (100 * 100)%nat.

Definition safe_name (name : str) : str :=
  match file_name name with Some (c :: n) => c :: n | _ => b#"file" end.

(** The stem, and the extension with its dot. *)
Definition stem_ext (safe : str) : str * str :=
  match rsplit_once "."%char safe with
  | Some (c :: s, e) => (c :: s, "."%char :: e)
  | _ => (safe, [])
  end.

Definition candidate (safe : str) (n : nat) : str :=
  let '(stem, ext) := stem_ext safe in
  if (n =? 0)%nat then safe else stem ++ b#" (" ++ decimal (N.of_nat n) ++ b#")" ++ ext.

(** The loop from [n], [fuel] steps before the bound; [Host] is the directory. *)
Fixpoint save_loop (fuel n : nat) (safe : str) (data : bytes) : M Host str := λ h,
  match fuel with
  | O => (Err (Anyhow (b#"too many attachments named '" ++ safe ++ b#"'")), h)
  | Datatypes.S fuel =>
      let name := candidate safe n in
      if exists_ name h then save_loop fuel (Datatypes.S n) safe data h
      else (let! _ := create_new name in let! _ := write_all name data in retM name) h
  end.
Definition save_attachment_in (name : str) (data : bytes) : M Host str :=
  let! _ := create_private_dir in
  save_loop MAX_SUFFIX 0 (safe_name name) data.

(** ** Summaries *)
Definition delivery_summary (peer id : str) (delivered pending failed total : N) : str :=
  if (0 <? failed)%N then
    b#"delivery to '" ++ peer ++ b#"' incomplete " ++ map byte_of [226; 128; 148]%N ++ b#" " ++ decimal delivered
    ++ b#" accepted, " ++ decimal pending ++ b#" pending locally, " ++ decimal failed ++ b#" not saved (#" ++ id ++ b#")"
  else if (pending =? 0)%N then
    b#"delivered to '" ++ peer ++ b#"' " ++ map byte_of [226; 128; 148]%N ++ b#" " ++ decimal delivered
    ++ b#"/" ++ decimal total ++ b#" active device (#" ++ id ++ b#")"
  else if (delivered =? 0)%N then
    b#"saved for '" ++ peer ++ b#"' " ++ map byte_of [226; 128; 148]%N
    ++ b#" waiting for direct delivery to active device (#" ++ id ++ b#")"
  else
    b#"partially delivered to '" ++ peer ++ b#"' " ++ map byte_of [226; 128; 148]%N ++ b#" " ++ decimal delivered
    ++ b#" accepted, " ++ decimal pending ++ b#" pending locally (#" ++ id ++ b#")".

(** ** Properties *)

(** A duration that is too long wraps: 213503982334602 days become seventeen hours. *)
Example duration_wraps :
  match parse_duration b#"213503982334602d" with Ok secs => u_val secs = 61184%N | Err _ => False end.
Proof. vm_compute. reflexivity. Qed.
Example durations :
  map (λ s, match parse_duration s with Ok secs => Some (u_val secs) | Err _ => None end)
    [b#"30s"; b#" 10m "; b#"1h"; b#"7d"; b#"12"; b#"s"; b#"1.5h"; b#"-1s"]
  = [Some 30; Some 600; Some 3600; Some 604800; Some 12; None; None; None]%N.
Proof. vm_compute. reflexivity. Qed.

(** *** Names of one component *)
Definition one_component (n : str) : Prop := ¬ ("/"%char ∈ n) ∧ n ≠ [] ∧ n ≠ (b#".") ∧ n ≠ b#"..".

Lemma split_at_parts sep s part : part ∈ split_at sep s → sep ∉ part.
Proof.
  revert part. induction s as [|c s IH]; intros part; cbn [split_at].
  - intros ->%list_elem_of_singleton. by intros ?%elem_of_nil.
  - case_bool_decide as Hc.
    + intros [->|Hp]%elem_of_cons; [by intros ?%elem_of_nil|by apply IH].
    + destruct (split_at sep s) as [|p ps].
      * intros ->%list_elem_of_singleton. intros ->%list_elem_of_singleton. done.
      * intros [->|Hp]%elem_of_cons; [|apply IH; by right]. intros [->|Hin]%elem_of_cons; [done|].
        by apply (IH p); [left|].
Qed.

Lemma file_name_component path n : file_name path = Some n → one_component n.
Proof.
  unfold file_name. destruct (rev _) as [|x l] eqn:Hr; [done|]. case_bool_decide as Hdots; [done|].
  intros [= <-]. assert (In x (rev (x :: l))) as Hin by (rewrite <-in_rev; by left).
  rewrite <-Hr, rev_involutive in Hin. apply filter_In in Hin as [Hin Hne].
  apply andb_true_iff in Hne as [H1%negb_true_iff%bool_decide_eq_false H2%negb_true_iff%bool_decide_eq_false].
  split_and!; [|done..]. by apply split_at_parts with path, list_elem_of_In.
Qed.

Lemma safe_component name : one_component (safe_name name).
Proof.
  unfold safe_name. destruct (file_name name) as [[|c n]|] eqn:H; [|by apply (file_name_component name)|];
    (split_and!; [|done..]; intros Hin; repeat apply elem_of_cons in Hin as [Hc|Hin]; try discriminate;
     by apply elem_of_nil in Hin).
Qed.

Lemma decimal_digits fuel n acc :
  forallb is_ascii_digit acc = true → forallb is_ascii_digit (decimal_fuel fuel n acc) = true.
Proof.
  revert n acc. induction fuel as [|fuel IH]; intros n acc Hacc; cbn [decimal_fuel]; [done|].
  assert (is_ascii_digit (dec_digit n) = true) as Hd.
  { unfold is_ascii_digit, in_range. rewrite byte_val_dec_digit.
    pose proof (N.mod_lt n 10 ltac:(done)) as Hm. revert Hm. generalize (n mod 10)%N. intros m Hm.
    apply andb_true_iff. split; apply N.leb_le; lia. }
  destruct (n <? 10)%N; [|apply IH]; cbn [forallb]; by rewrite Hd, Hacc.
Qed.

Lemma split_once_Some c s l r : split_once c s = Some (l, r) → s = l ++ c :: r.
Proof.
  revert l r. induction s as [|x s IH]; intros l r; cbn [split_once]; [done|].
  case_bool_decide as Hx; [by intros [= <- <-]; rewrite Hx|].
  destruct (split_once c s) as [[l' r']|]; [|done]. cbn. intros [= <- <-]. by rewrite (IH _ _ eq_refl).
Qed.
Lemma rsplit_once_app c s l r : rsplit_once c s = Some (l, r) → s = l ++ c :: r.
Proof.
  unfold rsplit_once. destruct (split_once c (rev s)) as [[r' l']|] eqn:Hs; [|done]. intros [= <- <-].
  apply split_once_Some in Hs. apply (f_equal (@rev ascii)) in Hs. rewrite rev_involutive in Hs.
  rewrite Hs, rev_app_distr. cbn [rev]. by rewrite <-(assoc_L (++)).
Qed.

Lemma stem_ext_app safe : let '(stem, ext) := stem_ext safe in safe = stem ++ ext.
Proof.
  unfold stem_ext. destruct (rsplit_once _ safe) as [[[|c s] e]|] eqn:H; try by rewrite app_nil_r.
  by apply rsplit_once_app in H.
Qed.

Lemma candidate_component safe n : one_component safe → one_component (candidate safe n).
Proof.
  intros Hs. unfold candidate. pose proof (stem_ext_app safe) as Happ.
  destruct (stem_ext safe) as [stem ext]. destruct (n =? 0)%nat; [done|].
  destruct Hs as (Hslash & _). rewrite Happ in Hslash.
  assert ("("%char ∈ stem ++ b#" (" ++ decimal (N.of_nat n) ++ b#")" ++ ext) as Hin.
  { apply elem_of_app. right. apply elem_of_app. left. right. by left. }
  split_and!.
  - rewrite elem_of_app in Hslash.
    intros [H|[H|[H|[H|H]%elem_of_app]%elem_of_app]%elem_of_app]%elem_of_app; [tauto| | | |tauto].
    + repeat apply elem_of_cons in H as [Hc|H]; try discriminate. by apply elem_of_nil in H.
    + assert (forallb is_ascii_digit (decimal (N.of_nat n)) = true) as Hd by (by apply decimal_digits).
      rewrite forallb_forall in Hd. apply list_elem_of_In, Hd in H. discriminate H.
    + repeat apply elem_of_cons in H as [Hc|H]; try discriminate. by apply elem_of_nil in H.
  - intros E. rewrite E in Hin. by apply elem_of_nil in Hin.
  - intros E. rewrite E in Hin. repeat apply elem_of_cons in Hin as [Hc|Hin]; try discriminate. by apply elem_of_nil in Hin.
  - intros E. rewrite E in Hin. repeat apply elem_of_cons in Hin as [Hc|Hin]; try discriminate. by apply elem_of_nil in Hin.
Qed.

(** *** Saving *)
Definition extends (f f' : Mem) (n : str) : Prop :=
  f !! n = None ∧ ∀ other, other ≠ n → f' !! other = f !! other.

Definition elsewhere (f f' : Mem) (n : str) : Prop := ∀ other, other ≠ n → f' !! other = f !! other.

Lemma elsewhere_insert f f' n v : elsewhere f f' n → elsewhere f (<[n := v]> f') n.
Proof. intros H other Ho. rewrite lookup_insert_ne by done. by apply H. Qed.

Lemma triple_create_write f0 name data :
  f0 !! name = None →
  triple (λ f, f = f0) (let! _ := create_new name in let! _ := write_all name data in retM name)
    (λ stored f, stored = name ∧ f = <[name := data]> f0) (λ f, elsewhere f0 f name).
Proof.
  intros Hn. apply (triple_bind _ _ _ (λ _ f, f = <[name := []]> f0)).
  - intros h Hh. unfold create_new. destruct (exists_ name h); [split; [done|by rewrite Hh]|].
    assert (triple (λ f, f = f0) (syscall (λ _ files, <[name := []]> files))
      (λ _ f, f = <[name := []]> f0) (λ f, elsewhere f0 f name)) as Hs; [|by apply Hs].
    apply triple_syscall; [by intros f ->|by intros st f ->|]. intros st f ->. by apply elsewhere_insert.
  - intros _. apply (triple_bind _ _ _ (λ _ f, f = <[name := data]> f0)).
    + apply triple_syscall; [intros f ->; by apply elsewhere_insert| |].
      * intros st f -> Hf. rewrite Hf. apply insert_insert_eq.
      * intros st f ->. by apply elsewhere_insert, elsewhere_insert.
    + intros _. by apply triple_ret.
Qed.

Lemma save_loop_spec fuel n safe data h :
  let '(r, h') := save_loop fuel n safe data h in
  (files h' = files h ∨ ∃ k, extends (files h) (files h') (candidate safe k)) ∧
  ∀ stored, r = Ok stored → files h !! stored = None ∧ files h' = <[stored := data]> (files h).
Proof.
  revert n. induction fuel as [|fuel IH]; intros n; cbn [save_loop]; [by split; [left|]|].
  unfold exists_ at 1. case_bool_decide as Hex; [apply IH|]. apply eq_None_not_Some in Hex.
  set (name := candidate safe n) in *.
  pose proof (triple_create_write (files h) name data Hex h eq_refl) as Hw.
  destruct (bindM _ _ h) as [[stored|e] h'].
  - destruct Hw as [-> Hf]. split; [|by intros s' [= <-]]. right. exists n. split; [done|].
    rewrite Hf. by apply elsewhere_insert.
  - destruct Hw as [_ Hw]. split; [|done]. right. exists n. by split.
Qed.

(** C35: Saving an attachment never touches an existing file and never leaves the
    directory: whatever fails, every file that was there keeps its content, any
    new file is one whose name is a single path component, and a reported success
    is a fresh file with exactly the data. *)
Theorem attachments_never_overwrite (name : str) (data : bytes) (h : Host) :
  let '(r, h') := save_attachment_in name data h in
  (∀ n content, files h !! n = Some content → files h' !! n = Some content) ∧
  (∀ n, files h' !! n ≠ files h !! n → one_component n) ∧
  (∀ stored, r = Ok stored → files h !! stored = None ∧ files h' = <[stored := data]> (files h)).
Proof.
  unfold save_attachment_in, bindM.
  pose proof (triple_no_effect (λ f, f = files h) (λ f, f = files h) (λ f H, H) h eq_refl) as Hc.
  change (syscall no_effect h) with (create_private_dir h) in Hc.
  destruct (create_private_dir h) as [[[]|e] h1].
  2: { destruct Hc as [_ ->]. split_and!; [done|by intros n []|done]. }
  pose proof (save_loop_spec MAX_SUFFIX 0 (safe_name name) data h1) as Hs.
  destruct (save_loop _ _ _ _ h1) as [r h2]. rewrite Hc in Hs. destruct Hs as [Hs Hok]. split_and!; [| |exact Hok].
  - intros n content Hn. destruct Hs as [->|(k & Hnone & Hother)]; [done|]. rewrite Hother; [done|].
    intros ->. congruence.
  - intros n Hn. destruct Hs as [Hs|(k & _ & Hother)]; [by rewrite Hs in Hn|].
    destruct (decide (n = candidate (safe_name name) k)) as [->|Hne]; [|by rewrite Hother in Hn].
    apply candidate_component, safe_component.
Qed.

(** The bound: with ten thousand free names no more are tried, and a taken one is skipped. *)
Example attachment_names :
  let dir := {[b#"a.txt" := []; b#"a (1).txt" := []]} : Mem in
  map (λ n, (save_attachment_in n b#"data" (mkHost dir Unlocked (λ _, false) true [])).1)
    [b#"a.txt"; b#"../../a.txt"; b#".."; b#".profile"; b#"dir/"]
  = map Ok [b#"a (2).txt"; b#"a (2).txt"; b#"file"; b#".profile"; b#"dir"].
Proof. vm_compute. reflexivity. Qed.
