(* ===== verification/Dht.v ===== *)
(** * Dht: the commands of the command line client that reach the network

    [mycellium-cli/src/app/mod.rs]: records from the distributed hash table, the
    resolution of a person, sending and the groups.  Arguments are taken as
    values and printing is left out; the DHT and the Reticulum node belong to the
    host. *)

From S2P Require Import Prelude Interleave Std Crypto Wire Identity UserId Records X3DH Group Message Delivery Storage FileStore LocalState Antirollback History Groups WireOps Peerbook Outbox Flow RegistryClient Client Runtime Shell CliUtil Instances.

(** [libp2p_net]: addresses, and the records under a key. *)
Class DhtNet (H : Type) : Type := {
  Multiaddr : Type;
  P2pMultiaddr : Type;
  listen_multiaddr : str → result error Multiaddr;
  parse_multiaddrs : list str → result error (list P2pMultiaddr);
  dht_get_records : arr 32 → option Multiaddr → list P2pMultiaddr → bytes → M H (list bytes);
  dht_put : arr 32 → option Multiaddr → list P2pMultiaddr → bytes → bytes → M H unit
}.
#[global] Hint Mode DhtNet ! : typeclass_instances.

(** ** Candidates *)
Section Candidates.
Context {crypto : Crypto} `{!Postcard IdentityClaim, !Postcard (WalletPublicKey * DeviceRecord),
  !Postcard ReachabilityRecord, !Postcard SignedRecord}.

Definition MAX_DHT_RECORD_BYTES : nat := (64 * 1024)%nat.

Definition decode_dht_record_candidate (handle : Handle) (input : bytes) : result error SignedRecord :=
  if (MAX_DHT_RECORD_BYTES <? length input)%nat then Err (Anyhow b#"DHT record is too large")
  else
    let? record := map_err (λ _, Anyhow b#"bad DHT record") (wire.decode input) in
    if negb (bool_decide (r_handle (sg_record record) = handle))
    then Err (Anyhow b#"DHT record belongs to a different handle")
    else
      let? _ := map_err (λ _, Anyhow b#"DHT record failed verification") (verify record) in
      Ok record.

(** The variables of the loop. *)
Record Choice : Type := mkChoice {
  ch_best : option SignedRecord; ch_wallet : option WalletPublicKey; ch_skipped : nat; ch_conflict : bool }.

Definition consider (handle : Handle) (c : Choice) (input : bytes) : Choice :=
  match decode_dht_record_candidate handle input with
  | Err _ => mkChoice (ch_best c) (ch_wallet c) (Datatypes.S (ch_skipped c)) (ch_conflict c)
  | Ok record =>
      let wallet := r_wallet (sg_record record) in
      if match ch_wallet c with Some w => negb (bool_decide (w = wallet)) | None => false end
      then mkChoice (ch_best c) (ch_wallet c) (Datatypes.S (ch_skipped c)) true
      else
        let replace := match ch_best c with
                       | Some known => freshness_ltb (freshness known) (freshness record)
                       | None => true
                       end in
        mkChoice (if replace then Some record else ch_best c) (Some wallet) (ch_skipped c) (ch_conflict c)
  end.

Definition best_dht_record_candidate (handle : Handle) (candidates : list bytes)
    (trusted : option WalletPublicKey) : result error (option SignedRecord * nat) :=
  let c := fold_left (consider handle) candidates (mkChoice None trusted 0 false) in
  if bool_decide (trusted = None) && ch_conflict c
  then Err (Anyhow (b#"conflicting wallets claim '" ++ Handle.as_str handle
                    ++ b#"'; discovery cannot choose identity authority"))
  else Ok (ch_best c, ch_skipped c).
End Candidates.

Definition effective_bootstrap {H} `{!DhtNet H} (configured extra : list str) 
    : result error (list (P2pMultiaddr (H := H))) :=
  parse_multiaddrs (H := H) (fold_left (λ addrs addr,
    if existsb (λ known, bool_decide (known = addr)) addrs then addrs else addrs ++ [addr]) extra configured).

Definition dht_record_key (handle : Handle) : bytes := b#"mycellium/record/" ++ Handle.as_str handle.

(** ** The commands *)
Section Commands.
Context {crypto : Crypto} {S P N H : Type} `{!Storage S, !Platform P, !Reticulum N H, !DhtNet H}
  `{!Postcard IdentityClaim, !Postcard (WalletPublicKey * DeviceRecord), !Postcard DeviceRecord,
    !Postcard ReachabilityRecord, !Postcard VersionPins, !Postcard WalletPublicKey,
    !Postcard contacts.Contact, !Postcard (list str), !Postcard (list (str * str)),
    !Postcard AppMessage, !Postcard attachments.StoredAttachment, !Postcard StoredGroup,
    !Postcard (list StoredMessage), !Postcard (list GroupStoredMessage), !Postcard SegMeta,
    !Postcard (list peerbook.PeerRecord), !Json GroupInvitePayload, !Json GroupLeavePayload,
    !Postcard SignedRecord, !Postcard str, !Postcard u64, !Postcard outbox.OutboxEntry,
    !Postcard (list outbox.OutboxEntry), !Postcard (list outbox.LegacyOutboxEntry),
    !Postcard MailItem, !Postcard PeerFrame, !Postcard AckBody}.
Abbreviation Net := (runtime.DirectNetwork N H).
Abbreviation Cl A := (M (World S P Net) A).

Definition stored {A} (m : M S A) : Cl A := on_store m.
Definition reading {A} (f : S → result error A) : Cl A := on_store (readM f).
Definition on_dht {A} (m : M H A) : Cl A :=
  on_host (λ net : Net, let '(r, h) := m (runtime.dn_host net) in (r, runtime.with_host net h)).

Context (configured : list str).

Definition trusted_wallet (handle : Handle) (store : S) : result error (option WalletPublicKey) :=
  let? found := peerbook.get handle store in
  match found with
  | None => Ok None
  | Some record =>
      Ok match verified.level (uid record) (r_wallet (sg_record record)) store with
         | verified.Pinned | verified.Verified => Some (r_wallet (sg_record record))
         | verified.Changed | verified.Unverified => None
         end
  end.

Definition import_from_configured_dht (identity : Identity) (handle : Handle) : Cl bool :=
  let! bootstrap := liftM (effective_bootstrap (H := H) configured []) in
  match bootstrap with
  | [] => retM false
  | _ =>
      let! candidates := on_dht (dht_get_records (Identity.device_secret identity) None bootstrap
                                   (dht_record_key handle)) in
      let! wallet := reading (trusted_wallet handle) in
      let! chosen := liftM (best_dht_record_candidate handle candidates wallet) in
      match chosen with
      | (None, _) => retM false
      | (Some record, _) => let! _ := stored (peerbook.put handle record) in retM true
      end
  end.

Definition publish_to_configured_dht (identity : Identity) (handle : Handle) (record : SignedRecord) : Cl bool :=
  let! bootstrap := liftM (effective_bootstrap (H := H) configured []) in
  match bootstrap with
  | [] => retM false
  | _ =>
      let! _ := on_dht (dht_put (Identity.device_secret identity) None bootstrap (dht_record_key handle)
                          (wire.encode record)) in
      retM true
  end.

Definition own_record (identity : Identity) (me : Handle) (store : S) : result error SignedRecord :=
  client.require_own_record_for_identity identity me store.

Definition parse_listen (listen : option str) : result error (option (Multiaddr (H := H))) :=
  match listen with
  | None => Ok None
  | Some l => map_err (λ _, Anyhow b#"bad DHT listen address") (let? a := listen_multiaddr l in Ok (Some a))
  end.

Definition handle_of (input : str) : result error Handle :=
  map_err (λ _, Anyhow b#"invalid handle") (Handle.new input).

(** The handle that was published. *)
Definition dht_publish (identity : Identity) (handle : str) (listen : option str) (extra : list str) : Cl Handle :=
  let! handle := liftM (handle_of handle) in
  let! record := reading (own_record identity handle) in
  let! listen_addr := liftM (parse_listen listen) in
  let! bootstrap := liftM (effective_bootstrap (H := H) configured extra) in
  let! _ := on_dht (dht_put (Identity.device_secret identity) listen_addr bootstrap (dht_record_key handle)
                      (wire.encode record)) in
  retM handle.

(** The handle, and the number of candidates that were skipped. *)
Definition dht_lookup (identity : Identity) (handle : str) (listen : option str) (extra : list str)
    : Cl (Handle * nat) :=
  let! handle := liftM (handle_of handle) in
  let! listen_addr := liftM (parse_listen listen) in
  let! bootstrap := liftM (effective_bootstrap (H := H) configured extra) in
  let! candidates := on_dht (dht_get_records (Identity.device_secret identity) listen_addr bootstrap
                               (dht_record_key handle)) in
  let! wallet := reading (trusted_wallet handle) in
  let! chosen := liftM (best_dht_record_candidate handle candidates wallet) in
  match chosen with
  | (None, _) => errM (Anyhow (b#"no DHT record found for '" ++ Handle.as_str handle ++ b#"'"))
  | (Some record, skipped) => let! _ := stored (client.import_record handle record) in retM (handle, skipped)
  end.

(** [peer_handle] and the report of the import. *)
Definition decode_discovery_response (frame : bytes) : result error (list DiscoveryRecord) :=
  match wire.decode frame with
  | Ok (DiscoveryResponse records) => Ok records
  | Ok _ => Err (Anyhow b#"peer returned a non-discovery frame")
  | Err _ => Err (Anyhow b#"bad frame")
  end.

Definition request_discovery_from_device (device : Device) (want : list str) : Cl (list DiscoveryRecord) :=
  let! node := λ w, let '(node, w) := on_host runtime.reticulum w in
                    (ok_or (Anyhow b#"could not start Reticulum node") node, w) in
  let! answer := λ w, let '(answer, w) := on_host (runtime.on_node node (Records.reticulum device)
                                              (wire.encode (DiscoveryRequest want))) w in
                      (ok_or (Anyhow b#"no response") answer, w) in
  liftM (decode_discovery_response answer).

(** ** Resolving a person *)
Definition err_text (e : error) : str := match e with Anyhow msg | StorageError msg => msg end.

Definition trust_error (resolved : str) (e : TrustError) : error :=
  Anyhow match e with
  | BadHandle => b#"no signed record for '" ++ resolved ++ b#"'"
  | Unverified => b#"peer record failed verification"
  | IdentityChanged => b#"IDENTITY CHANGED for '" ++ resolved
      ++ b#"'. Refusing until you verify the new record out of band."
  | StaleRecord => b#"STALE RECORD for '" ++ resolved ++ b#"'. Refusing rollback."
  end.

(** [load_identity] is what [store::load_identity()] gives. *)
Definition resolve_record (load_identity : result error Identity) (input : str)
    : Cl (Handle * SignedRecord) := λ w,
  let '(found, w) := client.resolve_local_record input w in
  match found with
  | Ok known => (Ok known, w)
  | Err BadHandle =>
      (let! resolved := reading (client.resolve_name input) in
       let! handle := liftM (map_err (λ _, Anyhow (b#"invalid handle '" ++ resolved ++ b#"'"))
                               (Handle.new resolved)) in
       let! identity := liftM load_identity in
       let! imported := tryM (import_from_configured_dht identity handle) in
       match imported with
       | Ok true => λ w, let '(r, w) := client.resolve_local_record input w in
                         (map_err (trust_error resolved) r, w)
       | Ok false => errM (Anyhow (b#"no local signed record for '" ++ resolved ++ b#"'"))
       | Err err => errM (Anyhow (b#"no local signed record for '" ++ resolved
                                  ++ b#"', and DHT lookup failed: " ++ err_text err))
       end) w
  | Err e => (Err (trust_error input e), w)
  end.

Definition lookup_verified (load_identity : result error Identity) (input : str)
    : Cl (Handle * SignedRecord) :=
  let! (handle, record) := resolve_record load_identity input in
  let! level := reading (λ store, Ok (verified.level (uid record) (r_wallet (sg_record record)) store)) in
  match level with
  | verified.Pinned | verified.Verified => retM (handle, record)
  | verified.Changed => errM (Anyhow (b#"IDENTITY CHANGED for '" ++ Handle.as_str handle
      ++ b#"'. Refusing until you verify the new record out of band."))
  | verified.Unverified => errM (Anyhow (b#"first contact '" ++ Handle.as_str handle ++ b#"' is unverified"))
  end.

Definition require_peer (identity : Identity) (handle : str) : Cl unit :=
  let! handle := liftM (map_err (λ _, Anyhow (b#"invalid handle '" ++ handle ++ b#"'")) (Handle.new handle)) in
  let! known := reading (peerbook.get handle) in
  let! _ := match known with
            | None => let! _ := tryM (import_from_configured_dht identity handle) in retM tt
            | Some _ => retM tt
            end in
  let! known := reading (peerbook.get handle) in
  match known with
  | None => errM (Anyhow (b#"no local signed record for '" ++ Handle.as_str handle
                          ++ b#"' " ++ map byte_of [226; 128; 148]%N ++ b#" import their record first"))
  | Some record =>
      let! level := reading (λ store, Ok (verified.level (uid record) (r_wallet (sg_record record)) store)) in
      if negb (bool_decide (r_wallet (sg_record record) = Identity.wallet_public identity))
         && match level with verified.Unverified | verified.Changed => true | _ => false end
      then errM (Anyhow (b#"group member '" ++ Handle.as_str handle
                 ++ b#"' is unverified; verify or pin the contact before sharing group keys"))
      else retM tt
  end.
Fixpoint ensure_peer_records (identity : Identity) (handles : list str) : Cl unit :=
  match handles with
  | [] => retM tt
  | handle :: handles => let! _ := require_peer identity handle in ensure_peer_records identity handles
  end.

(** ** Sending *)
(** The closure of [send] and [group_send]; the one of the group changes is its
    pairwise form. *)
Definition deliver_closure (now : u64) : DeliveryHook S Net :=
  λ handle record device item plaintext store net,
    runtime.deliver_or_park handle record device item plaintext now store net.
Definition deliver_pairwise_closure (now : u64) : PairwiseDeliveryHook S Net :=
  pairwise (deliver_closure now).

(** Sections of the code on the platform, and on store, platform and network. *)
Definition platform_now : Cl u64 := λ w, (Ok (now_unix_secs (w_platform w)), w).

(** One entry of [flush_outbox_with_network]: whether it was delivered. *)
Definition flush_one (identity : Identity) (now : u64) (entry : outbox.OutboxEntry) : Cl bool :=
  let id := outbox.id entry in
  let failed := let! _ := stored (client.mark_outbox_failed id) in retM false in
  match UserId.new (outbox.recipient_user_id entry), Handle.new (outbox.recipient entry) with
  | Err _, _ | Ok _, Err _ => failed
  | Ok user_id, Ok handle =>
      let! _ := tryM (import_from_configured_dht identity handle) in
      let! known := reading (peerbook.get_by_user_id user_id) in
      match known with
      | None => let! _ := stored (client.record_outbox_attempt id now false) in retM false
      | Some record =>
          if is_err (verify record) then failed
          else
            let device := r_device (sg_record record) in
            let! prepared := λ w,
              let '(r, p, store) := runtime.readdress_parked_delivery identity entry device
                                      (w_platform w) (w_store w) in
              (r, mkWorld store p (w_events w) (w_host w)) in
            match prepared with
            | None => failed
            | Some (delivery_id, item) =>
                let! accepted := λ w,
                  let '(path, store, net) := runtime.deliver_direct device delivery_id item now
                                               (w_store w) (w_host w) in
                  (Ok (reachability.is_delivered path), mkWorld store (w_platform w) (w_events w) net) in
                let! _ := stored (client.record_outbox_attempt delivery_id now accepted) in
                retM accepted
            end
      end
  end.
Fixpoint flush_entries (identity : Identity) (now : u64) (entries : list outbox.OutboxEntry) : Cl nat :=
  match entries with
  | [] => retM 0%nat
  | entry :: entries =>
      let! accepted := flush_one identity now entry in
      let! n := flush_entries identity now entries in
      retM (if accepted : bool then Datatypes.S n else n)
  end.
Definition flush_outbox_with_network (identity : Identity) : Cl (nat * nat) :=
  let! now := platform_now in
  let! entries := reading (client.due_outbox_entries now) in
  let! delivered := flush_entries identity now entries in
  let! waiting := reading outbox.len in
  retM (delivered, waiting).

(** The flags of a message. *)
Record Flags : Type := mkFlags {
  fl_message : option str; fl_reply_to : option str; fl_react : option str; fl_to : option str;
  fl_file : option (str * result error bytes); fl_edit : option str; fl_delete : option str;
  fl_expire : option str }.

Definition message_of (flags : Flags) (key : str) : Cl AppMessage :=
  let! expires_at := λ w, (resolve_expiry key (fl_expire flags) (w_platform w) (w_store w), w) in
  on_platform (build_message (fl_message flags) (fl_reply_to flags) (fl_react flags) (fl_to flags)
                 (fl_file flags) (fl_edit flags) (fl_delete flags) expires_at).

Definition as_handle (whoami : str) : result error Handle :=
  map_err (λ _, Anyhow b#"invalid --as handle") (Handle.new whoami).

Definition send (identity : Identity) (load_identity : result error Identity) (peer whoami : str)
    (flags : Flags) : Cl (Handle * SendOutcome) :=
  let! me := liftM (as_handle whoami) in
  let! _ := tryM (flush_outbox_with_network identity) in
  let! (peer_handle, peer_record) := lookup_verified load_identity peer in
  let! app := message_of flags (Handle.as_str peer_handle) in
  let! now := platform_now in
  let! out := client.send_direct identity me peer_handle peer_record app (deliver_closure now) in
  retM (peer_handle, out).

(** ** Groups *)
Fixpoint member_handles (members : list str) (all : list str) : result error (list str) :=
  match members with
  | [] => Ok all
  | member :: members =>
      let? handle := map_err (λ _, Anyhow b#"invalid member handle") (Handle.new member) in
      member_handles members
        (if existsb (λ m, bool_decide (m = Handle.as_str handle)) all then all
         else all ++ [Handle.as_str handle])
  end.

Definition distribute_group_key_direct (identity : Identity) (me : Handle) (my_record : SignedRecord)
    (group : StoredGroup) (targets : list GroupMember) : Cl unit := λ w,
  let '(_, w) := client.distribute_group_key identity me my_record group targets
                   (deliver_pairwise_closure (now_unix_secs (w_platform w))) w in
  (Ok tt, w).

Definition all_handles (me : Handle) (members : list str) : result error (list str) :=
  let? all := member_handles members [] in
  Ok (if existsb (λ m, bool_decide (m = Handle.as_str me)) all then all else all ++ [Handle.as_str me]).

(** The group and the number of its handles. *)
Definition group_create (identity : Identity) (name : str) (members : list str) (whoami : str)
    : Cl (StoredGroup * nat) :=
  let! me := liftM (as_handle whoami) in
  let! my_record := reading (own_record identity me) in
  let! all := liftM (all_handles me members) in
  let! _ := ensure_peer_records identity all in
  let! group := client.create_group identity me name all in
  let! _ := distribute_group_key_direct identity me my_record group (sg_members group) in
  retM (group, length all).

(** The member and the group. *)
Definition group_add (identity : Identity) (group member whoami : str) : Cl (Handle * StoredGroup) :=
  let! me := liftM (as_handle whoami) in
  let! my_record := reading (own_record identity me) in
  let! member := liftM (map_err (λ _, Anyhow b#"invalid member handle") (Handle.new member)) in
  let! _ := ensure_peer_records identity [Handle.as_str member] in
  let! group := reading (client.group_with_added_member group member) in
  let! _ := stored (client.save_group group) in
  let! _ := distribute_group_key_direct identity me my_record group (sg_members group) in
  retM (member, group).

Definition group_send (identity : Identity) (group whoami : str) (flags : Flags) : Cl (StoredGroup * SendOutcome) :=
  let! me := liftM (as_handle whoami) in
  let! _ := tryM (flush_outbox_with_network identity) in
  let! group := reading (client.resolve_group group) in
  let! app := message_of flags (sg_id group) in
  let! now := platform_now in
  λ w, let '(r, group, w) := client.send_group identity me group app (deliver_closure now) w in
       (let? out := r in Ok (group, out), w).

Definition group_leave (identity : Identity) (group whoami : str) : Cl StoredGroup :=
  let! me := liftM (as_handle whoami) in
  let! my_record := reading (own_record identity me) in
  let! group := reading (client.resolve_group group) in
  let! now := platform_now in
  let! _ := client.leave_group identity me my_record group (deliver_pairwise_closure now) in
  retM group.
End Commands.
