(* ===== verification/DhtProps.v ===== *)
(** * DhtProps: what the hash table may decide

    Untrusted candidates choose nothing but the freshest record of a wallet that
    is already trusted, or of the only one that claims the handle; and a message
    goes to a pinned wallet only. *)

From S2P Require Import Prelude Interleave Std Crypto Wire Identity UserId Records X3DH Group Message Delivery Storage FileStore LocalState Antirollback History Groups WireOps Peerbook Outbox Flow RegistryClient Client Runtime Shell CliUtil Dht Instances.

(** ** The order of freshness *)
Lemma freshness_irrefl a : freshness_ltb a a = false.
Proof. destruct a as [[a1 a2] a3]. unfold freshness_ltb, ultb. by rewrite !N.ltb_irrefl. Qed.

Lemma freshness_ltb_spec a1 a2 a3 c1 c2 c3 :
  freshness_ltb (a1, a2, a3) (c1, c2, c3) = true ↔
  (u_val a1 < u_val c1 ∨ u_val a1 = u_val c1 ∧ (u_val a2 < u_val c2 ∨ u_val a2 = u_val c2 ∧ u_val a3 < u_val c3))%N.
Proof.
  unfold freshness_ltb, ultb.
  destruct (N.ltb_spec (u_val a1) (u_val c1)), (N.ltb_spec (u_val c1) (u_val a1)),
    (N.ltb_spec (u_val a2) (u_val c2)), (N.ltb_spec (u_val c2) (u_val a2)),
    (N.ltb_spec (u_val a3) (u_val c3)); split; intros; try done; lia.
Qed.

Lemma freshness_trans a c d : freshness_ltb a c = true → freshness_ltb c d = true → freshness_ltb a d = true.
Proof.
  destruct a as [[a1 a2] a3], c as [[c1 c2] c3], d as [[d1 d2] d3]. rewrite !freshness_ltb_spec. lia.
Qed.

(** ** Candidates *)
Section Candidates.
Context {crypto : Crypto} `{!Postcard IdentityClaim, !Postcard (WalletPublicKey * DeviceRecord),
  !Postcard ReachabilityRecord, !Postcard SignedRecord}.
Implicit Types (r : SignedRecord) (l : list bytes).
#[local] Abbreviation wallet r := (r_wallet (sg_record r)).

(** A record that some candidate is, small enough, for this handle and verified. *)
Definition offered (handle : Handle) l r : Prop :=
  (∃ input, input ∈ l ∧ (length input ≤ MAX_DHT_RECORD_BYTES)%nat ∧ wire.decode input = Ok r) ∧
  r_handle (sg_record r) = handle ∧ verify r = Ok tt.

Lemma decode_candidate_Ok handle input r :
  decode_dht_record_candidate handle input = Ok r ↔
  (length input ≤ MAX_DHT_RECORD_BYTES)%nat ∧ wire.decode input = Ok r ∧
  r_handle (sg_record r) = handle ∧ verify r = Ok tt.
Proof.
  unfold decode_dht_record_candidate. destruct (Nat.ltb_spec MAX_DHT_RECORD_BYTES (length input)).
  { split; [done|]. intros [H' _]. lia. }
  destruct (wire.decode input) as [record|e]; cbn [map_err bind_result]; [|split; [done|by intros (_ & H' & _)]].
  case_bool_decide as Hh; cbn [negb].
  - destruct (verify record) as [[]|e] eqn:Hv; cbn [map_err bind_result].
    + split; [by intros [= <-]|by intros (_ & [= <-] & _)].
    + split; [done|]. intros (_ & [= <-] & _ & H'). congruence.
  - split; [done|]. by intros (_ & [= <-] & H' & _).
Qed.

Lemma offered_cons handle input l r :
  offered handle (l ++ [input]) r ↔ offered handle l r ∨ decode_dht_record_candidate handle input = Ok r.
Proof.
  rewrite decode_candidate_Ok. unfold offered. split.
  - intros ((x & [Hin|Hin%list_elem_of_singleton]%elem_of_app & Hl & Hd) & Hh & Hv); [left|right; subst; done].
    split; [by exists x|done].
  - intros [((x & Hin & Hx) & Hv)|(Hl & Hd & Hv)]; (split; [|done]).
    + exists x. split; [apply elem_of_app; by left|done].
    + exists input. split; [apply elem_of_app; right; by apply list_elem_of_singleton|done].
Qed.

(** What the loop knows of the candidates so far. *)
Record knows (handle : Handle) (trusted : option WalletPublicKey) l (c : Choice) : Prop := {
  kn_trusted : ∀ w, trusted = Some w → ch_wallet c = Some w;
  kn_none : ch_wallet c = None → ∀ r, ¬ offered handle l r;
  kn_best : ∀ r, ch_best c = Some r → offered handle l r ∧ ch_wallet c = Some (wallet r) ∧
              ∀ r', offered handle l r' → wallet r' = wallet r → freshness_ltb (freshness r) (freshness r') = false;
  kn_nothing : ch_best c = None → ch_skipped c = length l ∧ ch_wallet c = trusted ∧
              ∀ r, offered handle l r → ∃ w, trusted = Some w ∧ wallet r ≠ w;
  kn_conflict : ch_conflict c = true → ∃ r w, offered handle l r ∧ ch_wallet c = Some w ∧ wallet r ≠ w;
  kn_agreed : ch_conflict c = false → ∀ r, offered handle l r → ch_wallet c = Some (wallet r)
}.

Lemma knows_start handle trusted : knows handle trusted [] (mkChoice None trusted 0 false).
Proof.
  assert (∀ r, ¬ offered handle [] r) as Hno by (intros r ((x & Hin & _) & _); by apply elem_of_nil in Hin).
  split; cbn [ch_best ch_wallet ch_skipped ch_conflict]; try done; intros _; [split_and!; [done..|]|]; intros r Hr; by destruct (Hno r).
Qed.

Lemma knows_skip handle trusted l c input :
  knows handle trusted l c → (∀ r, decode_dht_record_candidate handle input ≠ Ok r) →
  knows handle trusted (l ++ [input]) (mkChoice (ch_best c) (ch_wallet c) (Datatypes.S (ch_skipped c)) (ch_conflict c)).
Proof.
  intros [Ht Hn Hb Hno Hc Ha] Hbad.
  assert (∀ r, offered handle (l ++ [input]) r ↔ offered handle l r) as Hsame.
  { intros r. rewrite offered_cons. split; [intros [H|H]; [done|by apply Hbad in H]|by left]. }
  split; cbn [ch_best ch_wallet ch_skipped ch_conflict]; [done|..].
  - intros Hw r. rewrite Hsame. by apply Hn.
  - intros r Hr. destruct (Hb r Hr) as (H1 & H2 & H3). rewrite Hsame. split_and!; [done..|].
    intros r'. rewrite Hsame. apply H3.
  - intros Hnone. destruct (Hno Hnone) as (-> & H1 & H2). rewrite length_app, Nat.add_1_r.
    split_and!; [done|done|]. intros r. rewrite Hsame. apply H2.
  - intros Hcf. destruct (Hc Hcf) as (r & w & Hr & H). exists r, w. by rewrite Hsame.
  - intros Hcf r. rewrite Hsame. by apply Ha.
Qed.

Lemma knows_conflict handle trusted l c input record w :
  knows handle trusted l c → decode_dht_record_candidate handle input = Ok record →
  ch_wallet c = Some w → w ≠ wallet record →
  knows handle trusted (l ++ [input]) (mkChoice (ch_best c) (ch_wallet c) (Datatypes.S (ch_skipped c)) true).
Proof.
  intros [Ht Hn Hb Hno Hc Ha] Hd Hw Hne. pose proof (λ r, offered_cons handle input l r) as Hoff.
  assert (offered handle (l ++ [input]) record) as Hrec by (apply Hoff; by right).
  split; cbn [ch_best ch_wallet ch_skipped ch_conflict]; [done|by rewrite Hw|..].
  - intros r Hr. destruct (Hb r Hr) as (H1 & H2 & H3). split_and!; [apply Hoff; by left|done|].
    intros r' [H|H]%Hoff Hr'; [by apply H3|]. rewrite Hd in H. injection H as <-. congruence.
  - intros Hnone. destruct (Hno Hnone) as (-> & H1 & H2). rewrite length_app, Nat.add_1_r.
    split_and!; [done|done|]. intros r [H|H]%Hoff; [by apply H2|]. rewrite Hd in H. injection H as <-.
    exists w. split; congruence.
  - intros _. exists record, w. split_and!; [done|done|congruence].
  - done.
Qed.

Lemma knows_accept handle trusted l c input record :
  knows handle trusted l c → decode_dht_record_candidate handle input = Ok record →
  (∀ w, ch_wallet c = Some w → w = wallet record) →
  knows handle trusted (l ++ [input])
    (mkChoice (if match ch_best c with Some known => freshness_ltb (freshness known) (freshness record) | None => true end
               then Some record else ch_best c) (Some (wallet record)) (ch_skipped c) (ch_conflict c)).
Proof.
  intros [Ht Hn Hb Hno Hc Ha] Hd Hw. pose proof (λ r, offered_cons handle input l r) as Hoff.
  assert (offered handle (l ++ [input]) record) as Hrec by (apply Hoff; by right).
  split; cbn [ch_best ch_wallet ch_skipped ch_conflict]; [|done|..].
  - intros w Hw'. f_equal. symmetry. by apply Hw, Ht.
  - intros r. destruct (ch_best c) as [known|] eqn:Hk.
    + destruct (Hb known eq_refl) as (H1 & H2 & H3). destruct (freshness_ltb (freshness known) (freshness record)) eqn:Hf; intros Hr; injection Hr as <-.
      * split_and!; [done|done|]. intros r' [H|H]%Hoff Hr'.
        -- destruct (freshness_ltb (freshness record) _) eqn:Hlt; [|done].
           pose proof (freshness_trans _ _ _ Hf Hlt) as Hft. rewrite H3 in Hft; [done|done|].
           rewrite Hr'. symmetry. by apply Hw.
        -- rewrite Hd in H. injection H as <-. apply freshness_irrefl.
      * split_and!; [apply Hoff; by left|f_equal; symmetry; by apply Hw|]. intros r' [H|H]%Hoff Hr'; [by apply H3|].
        rewrite Hd in H. by injection H as <-.
    + intros [= <-]. split_and!; [done|done|]. destruct (Hno eq_refl) as (_ & Hcw & H2).
      intros r' [H|H]%Hoff Hr'; [|rewrite Hd in H; injection H as <-; apply freshness_irrefl].
      destruct (H2 r' H) as (w & -> & Hne). specialize (Hw w Hcw). congruence.
  - destruct (ch_best c) as [known|]; [by destruct (freshness_ltb (freshness known) (freshness record))|done].
  - intros Hcf. destruct (Hc Hcf) as (r & w & Hr & Hcw & Hne). exists r, (wallet record).
    split_and!; [apply Hoff; by left|done|]. by rewrite <-(Hw w Hcw).
  - intros Hcf r [H|H]%Hoff; [|rewrite Hd in H; by injection H as <-].
    f_equal. symmetry. apply Hw. by apply Ha.
Qed.

Lemma knows_consider handle trusted l c input :
  knows handle trusted l c → knows handle trusted (l ++ [input]) (consider handle c input).
Proof.
  intros Hk. unfold consider. destruct (decode_dht_record_candidate handle input) as [record|e] eqn:Hd;
    [|apply knows_skip; [done|congruence]].
  destruct (ch_wallet c) as [w|] eqn:Hw; [case_bool_decide as Hs; cbn [negb]|].
  - apply (knows_accept _ _ _ c); [done..|]. intros w' Hw'. congruence.
  - rewrite <-Hw. by apply (knows_conflict _ _ _ c _ record w).
  - apply (knows_accept _ _ _ c); [done..|]. congruence.
Qed.

Lemma knows_all handle trusted l :
  knows handle trusted l (fold_left (consider handle) l (mkChoice None trusted 0 false)).
Proof.
  induction l as [|input l IH] using rev_ind; [apply knows_start|].
  rewrite fold_left_app. by apply knows_consider.
Qed.

Lemma best_offered handle candidates trusted r skipped :
  best_dht_record_candidate handle candidates trusted = Ok (Some r, skipped) →
  offered handle candidates r ∧ ∀ w, trusted = Some w → wallet r = w.
Proof.
  unfold best_dht_record_candidate. pose proof (knows_all handle trusted candidates) as [Ht _ Hb _ _ _].
  set (c := fold_left _ _ _) in *. destruct (_ && _); [done|]. intros [= Hr _].
  destruct (Hb r Hr) as (Ho & Hw & _). split; [done|]. intros w Hw'. specialize (Ht w Hw'). congruence.
Qed.

(** What a lookup in the hash table chooses: only a small enough, verified
    record of that very handle; with a trusted wallet, one of that wallet; without,
    one that no verified candidate of another wallet contests; and of those none
    is fresher.  Nothing is chosen only if nothing acceptable was offered, and the
    lookup fails only when two wallets contest an untrusted handle. *)
Theorem dht_choice (handle : Handle) (candidates : list bytes) (trusted : option WalletPublicKey) :
  match best_dht_record_candidate handle candidates trusted with
  | Ok (Some r, _) =>
      offered handle candidates r ∧ (∀ w, trusted = Some w → wallet r = w) ∧
      (trusted = None → ∀ r', offered handle candidates r' → wallet r' = wallet r) ∧
      (∀ r', offered handle candidates r' → wallet r' = wallet r →
         freshness_ltb (freshness r) (freshness r') = false)
  | Ok (None, skipped) =>
      skipped = length candidates ∧
      ∀ r, offered handle candidates r → ∃ w, trusted = Some w ∧ wallet r ≠ w
  | Err _ => trusted = None ∧
      ∃ r1 r2, offered handle candidates r1 ∧ offered handle candidates r2 ∧ wallet r1 ≠ wallet r2
  end.
Proof.
  unfold best_dht_record_candidate. pose proof (knows_all handle trusted candidates) as [Ht Hn Hb Hno Hc Ha].
  set (c := fold_left _ _ _) in *. case_bool_decide as Htn; cbn [andb].
  - destruct (ch_conflict c) eqn:Hcf.
    + split; [done|]. destruct (Hc eq_refl) as (r & w & Hr & Hw & Hne).
      destruct (ch_best c) as [b|] eqn:Hbest.
      * destruct (Hb b eq_refl) as (Hob & Hwb & _). exists r, b. split_and!; [done..|congruence].
      * destruct (Hno eq_refl) as (_ & Hcw & _). congruence.
    + destruct (ch_best c) as [b|] eqn:Hbest.
      * destruct (Hb b eq_refl) as (Hob & Hwb & Hf). split_and!; [done|congruence| |done].
        intros _ r' Hr'. specialize (Ha eq_refl r' Hr'). congruence.
      * destruct (Hno eq_refl) as (H1 & _ & H2). done.
  - destruct (ch_best c) as [b|] eqn:Hbest.
    + destruct (Hb b eq_refl) as (Hob & Hwb & Hf). split_and!; [done| |done|done].
      intros w Hw. specialize (Ht w Hw). congruence.
    + destruct (Hno eq_refl) as (H1 & _ & H2). done.
Qed.
End Candidates.

(** ** The commands *)
Section Commands.
Context {crypto : Crypto} {S P N H : Type} `{!Storage S, !Platform P, !Reticulum N H, !DhtNet H}
  `{!Postcard IdentityClaim, !Postcard (WalletPublicKey * DeviceRecord), !Postcard DeviceRecord,
    !Postcard ReachabilityRecord, !Postcard VersionPins, !Postcard WalletPublicKey,
    !Postcard contacts.Contact, !Postcard (list str), !Postcard (list (str * str)),
    !Postcard AppMessage, !Postcard attachments.StoredAttachment, !Postcard StoredGroup,
    !Postcard (list StoredMessage), !Postcard (list GroupStoredMessage), !Postcard SegMeta,
    !Postcard (list peerbook.PeerRecord), !Json GroupInvitePayload, !Json GroupLeavePayload,
    !Postcard SignedRecord, !Postcard str, !Postcard u64, !Postcard outbox.OutboxEntry,
    !Postcard (list outbox.OutboxEntry), !Postcard (list outbox.LegacyOutboxEntry),
    !Postcard MailItem, !Postcard PeerFrame, !Postcard AckBody}.
#[local] Abbreviation World_ := (World S P (runtime.DirectNetwork N H)).
#[local] Abbreviation wallet r := (r_wallet (sg_record r)).
Context (configured : list str).

(** The peer book's own rules, given a record that some answer of the table offers
    and that keeps to the trusted wallet. *)
Definition imported (handle : Handle) (s s' : S) : Prop :=
  ∃ record candidates trusted, trusted_wallet handle s = Ok trusted ∧ offered handle candidates record ∧
    (∀ w, trusted = Some w → wallet record = w) ∧ s' = (peerbook.put handle record s).2.

(** However the hash table answers, a lookup changes the store only by
    handing the peer book one verified record for that handle, and when the
    handle's record in the book has a pinned or verified wallet, one of that
    wallet; it reports a record found only if the book took it. *)
Theorem dht_import_confined identity handle (w : World_) :
  let '(r, w') := import_from_configured_dht configured identity handle w in
  (w_store w' = w_store w ∨ imported handle (w_store w) (w_store w')) ∧
  (r = Ok true → imported handle (w_store w) (w_store w')) ∧ w_platform w' = w_platform w.
Proof.
  unfold import_from_configured_dht, bindM at 1, liftM at 1.
  destruct (effective_bootstrap configured []) as [[|b bs]|e]; [by split_and!; [left|..]| |by split_and!; [left|..]].
  unfold bindM at 1, on_dht, on_host. destruct (dht_get_records _ _ _ _ _) as [[candidates|e] h];
    cbn [w_store w_host w_platform]; [|by split_and!; [left|..]].
  unfold bindM at 1, reading, on_store, readM. cbn [w_store w_host w_platform].
  destruct (trusted_wallet handle (w_store w)) as [trusted|e] eqn:Ht; [|by split_and!; [left|..]].
  unfold bindM at 1, liftM. pose proof (best_offered handle candidates trusted) as Hc.
  destruct (best_dht_record_candidate handle candidates trusted) as [[[record|] skipped]|e];
    [|by split_and!; [left|..]|by split_and!; [left|..]].
  destruct (Hc _ _ eq_refl) as [Hoff Hw]. unfold bindM, stored, on_store. cbn [w_store w_host w_platform].
  assert (imported handle (w_store w) (peerbook.put handle record (w_store w)).2) as Hi
    by (by exists record, candidates, trusted).
  destruct (peerbook.put handle record (w_store w)) as [[[]|e] s']; cbn [w_store w_platform snd retM] in *;
    split_and!; auto; done.
Qed.

(** ** Who is written to *)

(** The wallet of the record is the one the user verified or, if none was, the
    one a contact pins. *)
Definition chosen_by_user (record : SignedRecord) (s : S) : Prop :=
  verified.get (uid record) s = Ok (Some (wallet record)) ∨
  verified.get (uid record) s = Ok None ∧
    ∃ c, contacts.by_user_id (uid record) s = Ok (Some c) ∧ contacts.wallet c = wallet record.

Lemma level_chosen record s :
  match verified.level (uid record) (wallet record) s with
  | verified.Pinned | verified.Verified => chosen_by_user record s
  | _ => True
  end.
Proof.
  unfold verified.level, chosen_by_user. destruct (verified.get _ s) as [[v|]|e]; [|  |done].
  - case_bool_decide as Hv; [|done]. left. by rewrite Hv.
  - destruct (contacts.by_user_id _ s) as [[c|]|e]; [|done|done]. case_bool_decide; [|done]. right.
    split; [done|]. by exists c.
Qed.

Lemma resolve_user_verified user_id (w : World_) :
  match client.resolve_user_record user_id w with
  | (Ok (_, r), _) => verify r = Ok tt
  | _ => True
  end.
Proof.
  unfold client.resolve_user_record. destruct (UserId.new user_id) as [u|e]; [|done].
  unfold bindF, read_store. destruct (peerbook.get_by_user_id u (w_store w)) as [[record|]|e]; [|done|done].
  destruct (verify record) as [[]|e] eqn:Hv; cbn [is_err is_ok negb]; [|done]. case_bool_decide; cbn [negb]; [|done].
  destruct (verified.level _ _ _); try done; unfold on_store;
    destruct (check_and_pin _ _ (w_store w)) as [[[]|e] s']; done.
Qed.

Lemma resolve_net_verified handle (w : World_) :
  match client.resolve_through_net handle w with
  | (Ok (_, r), _) => verify r = Ok tt
  | _ => True
  end.
Proof.
  unfold client.resolve_through_net, bindF at 1, read_store at 1.
  destruct (client.LocalNet_load (w_store w)) as [net|e]; [|done].
  unfold client.with_net, Flow.resolve_record. destruct (Handle.new handle) as [h|e]; [|done].
  unfold bindF, on_host. cbn [w_host]. destruct (lookup h _) as [[record|e] x]; [|done].
  destruct (verify record) as [[]|e] eqn:Hv; cbn [is_err is_ok negb]; [|done].
  unfold read_store. cbn [w_store]. destruct (verified.level _ _ _); try done; unfold on_store; cbn [w_store];
    destruct (check_and_pin _ _ (w_store w)) as [[[]|e] s']; done.
Qed.

Lemma resolve_local_verified input (w : World_) :
  match client.resolve_local_record input w with
  | (Ok (_, r), _) => verify r = Ok tt
  | _ => True
  end.
Proof.
  unfold client.resolve_local_record. destruct (UserId.new input) as [u|e0]; [apply resolve_user_verified|].
  unfold bindF, read_store. destruct (contacts.load input (w_store w)) as [[c|]|e];
    [destruct (negb _); [apply resolve_user_verified|]|..]; apply resolve_net_verified.
Qed.

(** What [resolve_record] answers is a verified record. *)
Lemma resolve_record_verified load_identity input (w : World_) :
  match resolve_record configured load_identity input w with
  | (Ok (_, r), _) => verify r = Ok tt
  | _ => True
  end.
Proof.
  unfold resolve_record. pose proof (resolve_local_verified input w) as Hr.
  destruct (client.resolve_local_record input w) as [[[h r]|[]] w1]; try done. clear Hr.
  unfold bindM at 1, reading at 1, on_store, readM. destruct (client.resolve_name input _) as [resolved|e]; [|done].
  unfold bindM at 1, liftM at 1. destruct (Handle.new resolved) as [handle|e]; cbn [map_err]; [|done].
  unfold bindM at 1, liftM at 1. destruct load_identity as [identity|e]; [|done].
  unfold bindM at 1, tryM. destruct (import_from_configured_dht _ _ _ _) as [[[]|e] w2]; try done.
  pose proof (resolve_local_verified input w2) as Hr.
  by destruct (client.resolve_local_record input w2) as [[[h r]|e] w3].
Qed.

(** C24: A person looked up to be written to is a verified record of the wallet
    the user chose: verified out of band or, if none was, pinned by a contact -
    whatever the peer book and the hash table offer. *)
Theorem lookup_chosen_by_user load_identity input (w : World_) :
  match lookup_verified configured load_identity input w with
  | (Ok (_, r), w') => verify r = Ok tt ∧ chosen_by_user r (w_store w')
  | _ => True
  end.
Proof.
  unfold lookup_verified, bindM at 1. pose proof (resolve_record_verified load_identity input w) as Hv.
  destruct (resolve_record _ _ _ w) as [[[h r]|e] w1]; [|done].
  unfold bindM, reading, on_store, readM. pose proof (level_chosen r (w_store w1)) as Hl.
  destruct (verified.level _ _ _); done.
Qed.
End Commands.
