(* ===== verification/Cli.v ===== *)
(** * Cli: the commands of the command line client

    [mycellium-cli/src/main.rs] and the commands of [app/mod.rs], [app/backup.rs]
    and [app/util.rs], over a process: the disk, the terminal, the platform, the
    network and the lines printed.  Those that reach the network are the ones of
    [Dht], those that move an account the ones of [Backup]. *)

From S2P Require Import Prelude Interleave Std Crypto Wire Identity UserId Records X3DH Group Message Delivery Storage FileStore Sealing LocalState Antirollback History Groups WireOps Peerbook Outbox Flow RegistryClient Client Runtime Shell Backup CliUtil Dht Instances.

(** What the libraries offer beyond [DhtNet] and [Reticulum]: the server of the
    hash table, and the reply to an inbound frame. *)
Class Server (H : Type) `{!DhtNet H} : Type := {
  dht_serve : arr 32 → Multiaddr (H := H) → list (P2pMultiaddr (H := H)) → M H unit;
  reply : bytes → H → H
}.
#[global] Hint Mode Server ! - : typeclass_instances.

Module app.
(** ** The command line *)
Inductive RecordAction : Type :=
  | RecordExport (handle : str) | RecordImport (handle record : str) | RecordList | RecordRemove (handle : str).
Inductive DhtAction : Type :=
  | DhtServe (addr : str) (bootstrap : list str)
  | DhtPublish (handle : str) (bootstrap : list str) (listen : option str)
  | DhtLookup (handle : str) (bootstrap : list str) (listen : option str).
Inductive OutboxAction : Type := OutboxList | OutboxRetry | OutboxCancel (id : str).
Inductive ContactAction : Type :=
  | ContactAdd (nickname handle : str) | ContactList | ContactRemove (nickname : str).
Inductive GroupAction : Type :=
  | GroupCreate (name : str) (members : list str) (whoami : str)
  | GroupSend (group whoami : str) (flags : Flags)
  | GroupAdd (group member whoami : str)
  | GroupHistory (group : str)
  | GroupInfo (group : str)
  | GroupLeave (group whoami : str)
  | GroupList.
Inductive ExpireAction : Type :=
  | ExpireSet (target duration : str) | ExpireClear (target : str) | ExpireShow (target : str).
Inductive DraftAction : Type := DraftSet (peer text : str) | DraftShow (peer : str) | DraftClear (peer : str).

(** The path of an import or export is one on the disk. *)
Inductive Command : Type :=
  | IdentityNew
  | IdentityAdopt (wallet_secret : str)
  | IdentityShow
  | IdentityExportWallet (yes : bool)
  | Register (handle : str)
  | RecordCommand (action : RecordAction)
  | Discover (peer : str) (want : list str)
  | DhtCommand (action : DhtAction)
  | DeviceCommand (handle : str)
  | Send (peer whoami : str) (flags : Flags)
  | OutboxCommand (action : OutboxAction)
  | Serve (whoami : str)
  | ShowHistory (peer : str)
  | ClearHistory (peer : str)
  | Conversations
  | Search (query : str)
  | GroupCommand (action : GroupAction)
  | ContactCommand (action : ContactAction)
  | Verify (peer : str) (confirm accept_change : bool)
  | Block (handle : str)
  | Unblock (handle : str)
  | Blocked
  | Expire (action : ExpireAction)
  | Export (path : str)
  | Import (path : str)
  | Draft (action : DraftAction)
  | Wipe (yes : bool).

(** ** What is printed *)

(** The first [n] characters, and [{:n}]. *)
Fixpoint take_chars (n : nat) (s : str) : str :=
  match s with
  | [] => []
  | c :: rest =>
      if continuation c then c :: take_chars n rest
      else match n with O => [] | Datatypes.S n => c :: take_chars n rest end
  end.
Definition preview (text : str) : str := take_chars 48 text.
Definition pad (n : nat) (s : str) : str := s ++ replicate (n - chars_count s) " "%char.

(** [join] of texts. *)
Fixpoint join (sep : str) (parts : list str) : str :=
  match parts with [] => [] | [part] => part | part :: parts => part ++ sep ++ join sep parts end.

Definition plural (count : N) (singular plural : str) : str := if (count =? 1)%N then singular else plural.
Definition short_device_id (key : DevicePublicKey) : str := hex (take 4 (arr_bytes key)).

#[local] Instance status_eq_dec : EqDecision outbox.OutboxStatus.
Proof. solve_decision. Defined.
Definition count (status : outbox.OutboxStatus) (entries : list outbox.OutboxEntry) : N :=
  N.of_nat (length (List.filter (λ e, bool_decide (outbox.status e = status)) entries)).

(** The slices of ids and slots, which are hexadecimal, are on characters. *)
Definition outbox_line (now : u64) (e : outbox.OutboxEntry) : str :=
  b#"  " ++ client.short_outbox_id (outbox.id e) ++ b#" -> " ++ outbox.recipient e ++ b#"  (device "
  ++ take 8 (outbox.slot e) ++ b#", " ++ decimal (u_val now - u_val (outbox.created_at e)) ++ b#"s old, "
  ++ decimal (u_val (outbox.attempts e)) ++ b#" " ++ plural (u_val (outbox.attempts e)) b#"attempt" b#"attempts"
  ++ b#")".
Definition outbox_lines (now : u64) (entries : list outbox.OutboxEntry) : list str :=
  let pending := List.filter outbox.is_pending entries in
  match pending with
  | [] =>
      let delivered := count outbox.Delivered entries in
      let failed := count outbox.Failed entries in
      let cancelled := count outbox.Cancelled entries in
      b#"outbox empty" ::
      (if (0 <? delivered + failed + cancelled)%N
       then [b#"recorded: " ++ decimal delivered ++ b#" delivered, " ++ decimal failed ++ b#" failed, "
             ++ decimal cancelled ++ b#" cancelled"] else [])
  | _ =>
      let n := N.of_nat (length pending) in
      (decimal n ++ b#" pending local delivery " ++ plural n b#"item" b#"items" ++ b#":")
      :: map (outbox_line now) pending
  end.

Definition group_delivery_summary (group id : str) (delivered pending failed : N) : str :=
  let delivered_copies := plural delivered b#"copy" b#"copies" in
  let pending_copies := plural pending b#"copy" b#"copies" in
  if (0 <? failed)%N then
    b#"delivery to group '" ++ group ++ b#"' incomplete — " ++ decimal delivered ++ b#" accepted, "
    ++ decimal pending ++ b#" pending locally, " ++ decimal failed ++ b#" not saved (#" ++ id ++ b#")"
  else if (pending =? 0)%N then
    b#"delivered to group '" ++ group ++ b#"' — " ++ decimal delivered ++ b#" accepted " ++ delivered_copies
    ++ b#" (#" ++ id ++ b#")"
  else if (delivered =? 0)%N then
    b#"saved for group '" ++ group ++ b#"' — " ++ decimal pending ++ b#" " ++ pending_copies
    ++ b#" pending locally (#" ++ id ++ b#")"
  else
    b#"partially delivered to group '" ++ group ++ b#"' — " ++ decimal delivered ++ b#" accepted "
    ++ delivered_copies ++ b#", " ++ decimal pending ++ b#" pending locally (#" ++ id ++ b#")".

(** ** Hexadecimal arguments *)
Definition hex_bytes (s : str) : peerbook.panics (result error bytes) :=
  let s := trim s in
  if negb (Nat.even (length s)) then Some (Err (Anyhow b#"hex string has an odd length"))
  else option_map (map_err (λ _, Anyhow b#"invalid hex string")) (peerbook.hex_pairs s).
Definition hex_32 (s : str) : peerbook.panics (result error (arr 32)) :=
  option_map (λ input, let? input := input in
                       ok_or (Anyhow b#"expected 32-byte hex string") (arr_try (n := 32) input)) (hex_bytes s).

(** ** The configuration file *)
Record ClientConfigFile : Type := mkConfigFile {
  cf_data_dir : option str; cf_passphrase : option str; cf_display_name : option str;
  cf_dht_bootstrap : list str }.

(** [path] is the path and what reading it as text gives. *)
Definition init_client_config `{!Json ClientConfigFile} (path : option (str * result error str))
    (cell : option ClientConfig) : result error unit * option ClientConfig :=
  let file :=
    match path with
    | Some (path, content) =>
        let? raw := map_err (λ _, Anyhow (b#"could not read client config '" ++ path ++ b#"'")) content in
        ok_or (Anyhow (b#"could not parse client config '" ++ path ++ b#"'")) (from_slice raw)
    | None => Ok (mkConfigFile None None None [])
    end in
  match file with
  | Err e => (Err e, cell)
  | Ok file =>
      configure (mkConfig (default b#".mycellium" (cf_data_dir file)) (cf_passphrase file)
                   (default [] (cf_display_name file)) (cf_dht_bootstrap file)) cell
  end.

(** ** The process *)
Section Commands.
Context {crypto : Crypto} {P N H T : Type} `{!Platform P, !Reticulum N H, !DhtNet H, !Server H,
  !Terminal T, !Argon2, !Json Sealed, !Json Secret, !ReadDir, !Postcard Backup, !Postcard (list StorageMutation)}
  `{!Postcard IdentityClaim, !Postcard (WalletPublicKey * DeviceRecord), !Postcard DeviceRecord,
    !Postcard ReachabilityRecord, !Postcard VersionPins, !Postcard WalletPublicKey,
    !Postcard contacts.Contact, !Postcard (list str), !Postcard (list (str * str)),
    !Postcard AppMessage, !Postcard attachments.StoredAttachment, !Postcard StoredGroup,
    !Postcard (list StoredMessage), !Postcard (list GroupStoredMessage), !Postcard SegMeta,
    !Postcard (list peerbook.PeerRecord), !Json GroupInvitePayload, !Json GroupLeavePayload,
    !Postcard SignedRecord, !Postcard str, !Postcard u64, !Postcard outbox.OutboxEntry,
    !Postcard (list outbox.OutboxEntry), !Postcard (list outbox.LegacyOutboxEntry),
    !Postcard inbox.AcceptedDelivery, !Postcard (list inbox.AcceptedDelivery),
    !Postcard MailItem, !Postcard PeerFrame, !Postcard AckBody}.
Abbreviation Net := (runtime.DirectNetwork N H).

(** The standard output and the standard error by lines; a panic ends the command. *)
Record Process : Type := mkProcess {
  pr_disk : Disk; pr_terminal : T; pr_platform : P; pr_net : Net;
  pr_out : list str; pr_err : list str; pr_panicked : bool }.
Abbreviation Cm A := (M Process A).

Definition on_disk {A} (m : M Disk A) : Cm A := λ s,
  let '(r, d) := m (pr_disk s) in
  (r, mkProcess d (pr_terminal s) (pr_platform s) (pr_net s) (pr_out s) (pr_err s) (pr_panicked s)).
Definition on_tty_disk {A} (m : M (T * Disk) A) : Cm A := λ s,
  let '(r, td) := m (pr_terminal s, pr_disk s) in
  (r, mkProcess (snd td) (fst td) (pr_platform s) (pr_net s) (pr_out s) (pr_err s) (pr_panicked s)).
Definition on_os {A} (f : P → result error A * P) : Cm A := λ s,
  let '(r, p) := f (pr_platform s) in
  (r, mkProcess (pr_disk s) (pr_terminal s) p (pr_net s) (pr_out s) (pr_err s) (pr_panicked s)).
Definition set_net (f : Net → Net) : Cm unit := λ s,
  (Ok tt, mkProcess (pr_disk s) (pr_terminal s) (pr_platform s) (f (pr_net s)) (pr_out s) (pr_err s) (pr_panicked s)).
Definition on_network {A} (m : M H A) : Cm A := λ s,
  let '(r, h) := m (runtime.dn_host (pr_net s)) in (r, snd (set_net (λ net, runtime.with_host net h) s)).
Definition println (line : str) : Cm unit := λ s,
  (Ok tt, mkProcess (pr_disk s) (pr_terminal s) (pr_platform s) (pr_net s) (pr_out s ++ [line]) (pr_err s) (pr_panicked s)).
Definition eprintln (line : str) : Cm unit := λ s,
  (Ok tt, mkProcess (pr_disk s) (pr_terminal s) (pr_platform s) (pr_net s) (pr_out s) (pr_err s ++ [line]) (pr_panicked s)).
Definition or_panic {A} (r : peerbook.panics (result error A)) : Cm A := λ s,
  match r with
  | Some r => (r, s)
  | None => (Err (Anyhow b#"panic"), mkProcess (pr_disk s) (pr_terminal s) (pr_platform s) (pr_net s)
                                       (pr_out s) (pr_err s) true)
  end.
Definition now : Cm u64 := λ s, (Ok (now_unix_secs (pr_platform s)), s).

Fixpoint for_each {A} (f : A → Cm unit) (l : list A) : Cm unit :=
  match l with [] => retM tt | x :: l => let! _ := f x in for_each f l end.

(** The configuration of the process, and how the system reads a path. *)
Context (cell : option ClientConfig) (as_path : str → Path).
Definition data_path : Path := as_path (data_dir (config cell)).
Definition history_path : Path := data_path ++ [HISTORY].
Definition dht_configured : list str := dht_bootstrap (config cell).
Definition display_path (name : str) : str := path_join (data_dir (config cell)) name.

(** ** [store.rs] in a directory that may be missing *)
Definition exists_identity : Cm bool := λ s, (Ok (path_exists (data_path ++ [IDENTITY_FILE]) (pr_disk s)), s).
Definition load_identity : Cm Identity := on_tty_disk (in_data data_path (Sealing.load_identity cell)).
Definition save_sealed (identity : Identity) (passphrase : str) : M Disk unit :=
  if (chars_count passphrase <? MIN_PASSPHRASE_LEN)%nat
  then errM (Anyhow b#"passphrase must be at least 8 characters")
  else
    let! sealed := in_dir data_path (seal_identity identity passphrase) in
    atomic_write_at data_path IDENTITY_FILE sealed.
Definition save_identity (identity : Identity) : Cm unit :=
  on_tty_disk (
    let! passphrase := on_tty (new_passphrase cell b#"Choose a passphrase to encrypt your identity") in
    on_fs (save_sealed identity passphrase)).

(** ** The open store *)
Definition open_history (identity : Identity) : Cm unit := on_disk (Backup.open_history data_path identity).
(** [DirectNetwork::new] *)
Definition connect (identity : Identity) : Cm unit :=
  set_net (λ net, runtime.network_new (Identity.reticulum_private_bytes identity) (runtime.dn_host net)).

Definition store_of (identity : Identity) (s : Process) : FileStore :=
  mkFileStore (Identity.storage_key identity) (host_of history_path (pr_disk s)).
Definition with_store (store : FileStore) (s : Process) : Disk := put_host history_path (fs_host store) (pr_disk s).

(** A command of the client library on the store, the platform and the network. *)
Definition core {A} (identity : Identity) (m : M (World FileStore P Net) A) : Cm A := λ s,
  let '(r, w) := m (mkWorld (store_of identity s) (pr_platform s) [] (pr_net s)) in
  (r, mkProcess (with_store (w_store w) s) (pr_terminal s) (w_platform w) (w_host w)
        (pr_out s) (pr_err s) (pr_panicked s)).
Definition in_store {A} (identity : Identity) (m : M FileStore A) : Cm A := core identity (on_store m).
Definition reading {A} (identity : Identity) (f : FileStore → result error A) : Cm A := in_store identity (readM f).

(** What a second [store::load_identity()] gives. *)
Definition load_again : Cm (result error Identity) := λ s, (Ok (fst (load_identity s)), s).

(** ** Identity *)
(** What [create_identity]'s loop over random draws ends with. *)
Context (create : P → result error Identity * P).

Definition identity_exists : error :=
  Anyhow (b#"an identity already exists at " ++ display_path IDENTITY_FILE).
Definition print_keys (identity : Identity) : Cm unit :=
  let! _ := println (b#"wallet: " ++ hex (arr_bytes (Identity.wallet_public identity))) in
  println (b#"device: " ++ hex (arr_bytes (Identity.device_public identity))).

Definition identity_new : Cm unit :=
  let! exists_ := exists_identity in
  if exists_ : bool then errM identity_exists
  else
    let! identity := on_os create in
    let! _ := save_identity identity in
    let! _ := println b#"New identity created." in
    print_keys identity.

Definition identity_show : Cm unit :=
  let! identity := load_identity in
  let! _ := println (b#"wallet:    " ++ hex (arr_bytes (Identity.wallet_public identity))) in
  let! _ := println (b#"device:    " ++ hex (arr_bytes (Identity.device_public identity))) in
  let! _ := println (b#"device-id: " ++ short_device_id (Identity.device_public identity)) in
  println (b#"messaging: " ++ hex (arr_bytes (Identity.messaging_public identity))).

Definition identity_export_wallet (yes : bool) : Cm unit :=
  if negb yes then errM (Anyhow b#"refusing to print the wallet secret without --yes")
  else
    let! identity := load_identity in
    println (hex (arr_bytes (Identity.wallet_secret identity))).

Definition identity_adopt (wallet_secret : str) : Cm unit :=
  let! exists_ := exists_identity in
  if exists_ : bool then errM identity_exists
  else
    let! wallet_secret := or_panic (hex_32 wallet_secret) in
    let! identity := on_os (λ p, client.adopt_identity p wallet_secret) in
    let! _ := save_identity identity in
    let! _ := println b#"Adopted wallet on a fresh device." in
    print_keys identity.

(** ** Records *)
Definition display_name_for (handle : Handle) : str :=
  let name := display_name (config cell) in
  if bool_decide (name = []) then Handle.as_str handle else name.

Definition report_configured_dht_publish (identity : Identity) (handle : Handle) (record : SignedRecord) : Cm unit :=
  let! published := tryM (core identity (publish_to_configured_dht dht_configured identity handle record)) in
  match published with
  | Ok true => println (b#"published signed record for '" ++ Handle.as_str handle ++ b#"' to the configured DHT")
  | Ok false => retM tt
  | Err err => eprintln (b#"warning: could not publish signed record for '" ++ Handle.as_str handle
                         ++ b#"' to the configured DHT: " ++ err_text err)
  end.

Definition register (handle : str) : Cm unit :=
  let! identity := load_identity in
  let! handle := liftM (handle_of handle) in
  let! _ := open_history identity in
  let name := display_name_for handle in
  let! signed := core identity (λ w,
    on_store (client.publish_active_device_record (w_platform w) identity handle name) w) in
  let! _ := println (b#"registered '" ++ Handle.as_str handle ++ b#"' locally") in
  let! _ := println (b#"record: " ++ client.encode_record signed) in
  report_configured_dht_publish identity handle signed.

Definition record_export (handle : str) : Cm unit :=
  let! identity := load_identity in
  let! _ := open_history identity in
  let! handle := liftM (handle_of handle) in
  let! record := reading identity (λ store,
    map_err (λ _, Anyhow (b#"no local record for '" ++ Handle.as_str handle
                          ++ b#"' — run `register` or `record import`"))
      (client.require_record handle store)) in
  println (client.encode_record record).

Definition record_import (handle encoded : str) : Cm unit :=
  let! identity := load_identity in
  let! _ := open_history identity in
  let! handle := liftM (handle_of handle) in
  let! record := or_panic (client.decode_record encoded) in
  let! _ := in_store identity (client.import_record handle record) in
  println (b#"imported signed record for '" ++ Handle.as_str handle ++ b#"'").

Definition record_line (entry : peerbook.PeerRecord) : str :=
  let record := sg_record (peerbook.record entry) in
  peerbook.handle entry ++ b#"  wallet=" ++ hex (arr_bytes (r_wallet record)) ++ b#"  active_device="
  ++ short_device_id (device_key (sd_record (signed (r_device record)))).
Definition records_list : Cm unit :=
  let! identity := load_identity in
  let! _ := open_history identity in
  let! records := reading identity client.list_records in
  match records with
  | [] => println b#"no local peer records"
  | _ => for_each (λ entry, println (record_line entry)) records
  end.

Definition list_device (handle : str) : Cm unit :=
  let! identity := load_identity in
  let! _ := open_history identity in
  let! handle := liftM (handle_of handle) in
  let! record := reading identity (client.require_record handle) in
  let d := r_device (sg_record record) in
  let! _ := println (b#"active device for '" ++ Handle.as_str handle ++ b#"':") in
  println (b#"  " ++ short_device_id (device_key (sd_record (signed d))) ++ b#"  reticulum="
           ++ hex (arr_bytes (address (Records.reticulum d)))).

Definition remove_record (handle : str) : Cm unit :=
  let! identity := load_identity in
  let! _ := open_history identity in
  let! handle := liftM (handle_of handle) in
  let! removed := in_store identity (client.remove_record handle) in
  println (if removed : bool then b#"removed local record for '" ++ Handle.as_str handle ++ b#"'"
           else b#"no local record for '" ++ Handle.as_str handle ++ b#"'").

(** ** Discovery *)
Definition discover (peer : str) (want : list str) : Cm unit :=
  let! identity := load_identity in
  let! _ := open_history identity in
  let! again := load_again in
  let! (peer_handle, peer_record) := core identity (resolve_record dht_configured again peer) in
  let! _ := connect identity in
  let! found := tryM (core identity (request_discovery_from_device (r_device (sg_record peer_record)) want)) in
  match found with
  | Ok records =>
      let! report := in_store identity (λ store,
        let '(report, store) := client.import_discovery_records records store in (Ok report, store)) in
      let! _ := println (b#"discovered through '" ++ Handle.as_str peer_handle ++ b#"' — imported "
        ++ decimal (N.of_nat (client.rir_imported report)) ++ b#" record(s), skipped "
        ++ decimal (N.of_nat (length (client.rir_skipped report)))) in
      for_each (λ '(handle, reason), eprintln (b#"skipped " ++ handle ++ b#": " ++ reason))
        (client.rir_skipped report)
  | Err err => errM (Anyhow (b#"could not discover through '" ++ Handle.as_str peer_handle ++ b#"': "
                             ++ err_text err))
  end.

Definition serve_dht (addr : str) (bootstrap : list str) : Cm unit :=
  let! identity := load_identity in
  let! listen_addr := liftM (map_err (λ _, Anyhow b#"bad DHT listen address") (listen_multiaddr (H := H) addr)) in
  let! bootstrap := liftM (effective_bootstrap (H := H) dht_configured bootstrap) in
  let! _ := println (b#"starting DHT discovery node on " ++ addr) in
  on_network (dht_serve (Identity.device_secret identity) listen_addr bootstrap).

Definition publish_dht (handle : str) (listen : option str) (bootstrap : list str) : Cm unit :=
  let! identity := load_identity in
  let! _ := open_history identity in
  let! handle := core identity (dht_publish dht_configured identity handle listen bootstrap) in
  println (b#"published signed record for '" ++ Handle.as_str handle ++ b#"' to the DHT").

Definition lookup_dht (handle : str) (listen : option str) (bootstrap : list str) : Cm unit :=
  let! identity := load_identity in
  let! _ := open_history identity in
  let! (handle, skipped) := core identity (dht_lookup dht_configured identity handle listen bootstrap) in
  println (b#"imported signed DHT record for '" ++ Handle.as_str handle ++ b#"'" ++
    (if (0 <? skipped)%nat then b#" (skipped " ++ decimal (N.of_nat skipped) ++ b#" invalid candidate(s))" else [])).

(** ** Sending and the outbox *)
Definition send (peer whoami : str) (flags : Flags) : Cm unit :=
  let! identity := load_identity in
  let! _ := liftM (as_handle whoami) in
  let! _ := open_history identity in
  let! _ := connect identity in
  let! again := load_again in
  let! (peer_handle, out) := core identity (Dht.send dht_configured identity again peer whoami flags) in
  let total := uwrap 32 (u_val (uwrap 32 (u_val (delivered out) + u_val (outboxed out))) + u_val (failed out)) in
  println (delivery_summary (Handle.as_str peer_handle) (so_id out) (u_val (delivered out))
             (u_val (outboxed out)) (u_val (failed out)) (u_val total)).

Definition print_outbox_entries (entries : list outbox.OutboxEntry) : Cm unit :=
  let! now := now in for_each println (outbox_lines now entries).
Definition outbox_list : Cm unit :=
  let! identity := load_identity in
  let! _ := open_history identity in
  let! entries := reading identity client.list_outbox in
  print_outbox_entries entries.
Definition flush_outbox (identity : Identity) : Cm (nat * nat) :=
  let! _ := connect identity in core identity (flush_outbox_with_network dht_configured identity).
Definition outbox_retry : Cm unit :=
  let! identity := load_identity in
  let! _ := open_history identity in
  let! _ := in_store identity client.make_outbox_due in
  let! (delivered, _) := flush_outbox identity in
  let! _ := if (0 <? delivered)%nat
            then println (b#"delivered " ++ decimal (N.of_nat delivered) ++ b#" pending "
                          ++ plural (N.of_nat delivered) b#"message" b#"messages")
            else retM tt in
  let! entries := reading identity client.list_outbox in
  print_outbox_entries entries.
Definition outbox_cancel (id : str) : Cm unit :=
  let! identity := load_identity in
  let! _ := open_history identity in
  let! cancelled := in_store identity (client.cancel_outbox id) in
  println match cancelled with
  | client.CancelEmpty => b#"outbox empty"
  | client.CancelAll removed =>
      b#"cancelled " ++ decimal (N.of_nat removed) ++ b#" pending local delivery "
      ++ plural (N.of_nat removed) b#"item" b#"items"
  | client.CancelOne id recipient =>
      b#"cancelled pending local delivery " ++ client.short_outbox_id id ++ b#" for '" ++ recipient ++ b#"'"
  end.

(** ** Serving *)
(** [save_attachment] *)
Definition downloads_path : Path := data_path ++ [b#"downloads"].
Definition save_attachment (name : str) (data : bytes) : Cm str :=
  on_disk (
    let! _ := create_private_dir downloads_path in
    let! stored := in_dir downloads_path (save_loop MAX_SUFFIX 0 (safe_name name) data) in
    retM (path_join (display_path b#"downloads") stored)).

(** [CliSink] *)
Definition emit (event : FlowEvent) : Cm unit :=
  match event with
  | EDirectMessage _ from id text _ =>
      println (b#"from " ++ from ++ b#": " ++ text
               ++ (if bool_decide (id = []) then [] else b#"  (#" ++ id ++ b#")"))
  | EGroupMessage _ name sender id text =>
      println (b#"[" ++ name ++ b#"] " ++ sender ++ b#": " ++ text ++ b#"  (#" ++ id ++ b#")")
  | EEdited thread id _ group =>
      println ((if group then b#"[" ++ thread ++ b#"] edited #" else b#"from " ++ thread ++ b#": edited #") ++ id)
  | EDeleted thread id group =>
      println ((if group then b#"[" ++ thread ++ b#"] deleted #" else b#"from " ++ thread ++ b#": deleted #") ++ id)
  | EReceipt _ from message_id read =>
      println (b#"ok " ++ from ++ b#" " ++ (if read then b#"read" else b#"delivered")
               ++ b#" your message #" ++ message_id)
  | EGroupJoined _ name inviter =>
      println (b#"joined group '" ++ name ++ b#"' (invited by " ++ inviter ++ b#")")
  | EGroupLeft _ name member => println (b#"'" ++ member ++ b#"' left '" ++ name ++ b#"'")
  | EAttachment _ name _ data =>
      let! saved := tryM (save_attachment name data) in
      match saved with
      | Ok path => println (b#"(saved attachment to " ++ path ++ b#")")
      | Err err => eprintln (b#"(could not save attachment: " ++ err_text err ++ b#")")
      end
  | EWarn msg => eprintln (b#"(" ++ msg ++ b#")")
  end.

(** The threads of [serve]: an inbound frame, and a round of [start_retry_worker]. *)
Inductive Turn : Type := TFrame (input : bytes) | TRetry.

Definition frame_turn (identity : Identity) (me : Handle) (my_record : SignedRecord) (input : bytes) : Cm unit :=
  let! (answer, events) := core identity (λ w,
    let '(answer, events, platform, store) :=
      serve_reticulum_frame identity me my_record input (w_platform w) (w_store w) in
    (Ok (answer, events), mkWorld store platform (w_events w) (w_host w))) in
  let! _ := for_each emit events in
  match answer with
  | Some frame => set_net (λ net, runtime.with_host net (reply frame (runtime.dn_host net)))
  | None => retM tt
  end.
Definition retry_turn (identity : Identity) : Cm unit := core identity (λ w,
  let '(_, s) := run (cli.retry_due_deliveries identity)
                   (runtime.mkShared (w_store w) (w_platform w) (w_host w)) in
  (Ok tt, mkWorld (runtime.sh_store s) (runtime.sh_platform s) (w_events w) (runtime.sh_net s))).
Definition turn (identity : Identity) (me : Handle) (my_record : SignedRecord) (t : Turn) : Cm unit :=
  match t with
  | TFrame input => frame_turn identity me my_record input
  | TRetry => retry_turn identity
  end.

(** The command never ends: [turns] are those taken, one at a time, until the process is
    stopped. *)
Definition serve (whoami : str) (turns : list Turn) : Cm unit :=
  let! identity := load_identity in
  let! me := liftM (as_handle whoami) in
  let! _ := open_history identity in
  let! my_record := reading identity (own_record identity me) in
  let! _ := connect identity in
  let! _ := core identity (λ w,
    let '(node, w) := on_host runtime.reticulum w in
    (ok_or (Anyhow b#"could not start Reticulum node") node, w)) in
  let! _ := tryM (core identity (flush_outbox_with_network dht_configured identity)) in
  let! _ := println (b#"serving on Reticulum as " ++ Handle.as_str me ++ b#" ("
    ++ hex (arr_bytes (address (Records.reticulum (r_device (sg_record my_record))))) ++ b#")") in
  for_each (turn identity me my_record) turns.

(** ** Groups *)
Definition group_create (name : str) (members : list str) (whoami : str) : Cm unit :=
  let! identity := load_identity in
  let! _ := liftM (as_handle whoami) in
  let! _ := open_history identity in
  let! _ := connect identity in
  let! (group, n) := core identity (Dht.group_create dht_configured identity name members whoami) in
  println (b#"created group '" ++ name ++ b#"' (" ++ sg_id group ++ b#") with " ++ decimal (N.of_nat n) ++ b#" members").

Definition group_add (group member whoami : str) : Cm unit :=
  let! identity := load_identity in
  let! _ := liftM (as_handle whoami) in
  let! _ := open_history identity in
  let! _ := connect identity in
  let! (member, group) := core identity (Dht.group_add dht_configured identity group member whoami) in
  println (b#"invited '" ++ Handle.as_str member ++ b#"' to '" ++ sg_name group ++ b#"'").

Definition group_send (group whoami : str) (flags : Flags) : Cm unit :=
  let! identity := load_identity in
  let! _ := liftM (as_handle whoami) in
  let! _ := open_history identity in
  let! _ := connect identity in
  let! (group, out) := core identity (Dht.group_send dht_configured identity group whoami flags) in
  println (group_delivery_summary (sg_name group) (so_id out) (u_val (direct out)) (u_val (outboxed out))
             (u_val (failed out))).

Definition group_history (group : str) : Cm unit :=
  let! identity := load_identity in
  let! _ := open_history identity in
  let! now := now in
  let! (group, transcript) := in_store identity (client.group_history group now) in
  match transcript with
  | [] => println (b#"no messages in '" ++ sg_name group ++ b#"'")
  | _ => for_each (λ m, println (b#"[" ++ sg_name group ++ b#"] " ++ gs_sender m ++ b#": " ++ gs_text m)) transcript
  end.

Definition group_info (group : str) : Cm unit :=
  let! identity := load_identity in
  let! _ := open_history identity in
  let! group := reading identity (client.resolve_group group) in
  let! _ := println (sg_name group ++ b#" (" ++ sg_id group ++ b#")") in
  println (b#"members: " ++ join b#", "
    (map (λ m, gmem_handle m ++ b#" (" ++ gmem_user_id m ++ b#")") (sg_members group))).

Definition group_leave (group whoami : str) : Cm unit :=
  let! identity := load_identity in
  let! _ := liftM (as_handle whoami) in
  let! _ := open_history identity in
  let! _ := connect identity in
  let! group := core identity (Dht.group_leave identity group whoami) in
  println (b#"left group '" ++ sg_name group ++ b#"'").

Definition group_list : Cm unit :=
  let! identity := load_identity in
  let! _ := open_history identity in
  let! groups := reading identity client.list_groups in
  match groups with
  | [] => println b#"no groups"
  | _ => for_each (λ g, println (client.gsm_name g ++ b#" (" ++ client.gsm_id g ++ b#") — "
                                 ++ decimal (N.of_nat (client.gsm_member_count g)) ++ b#" members")) groups
  end.

(** ** Trust and contacts *)
Definition verify (peer : str) (confirm accept_change : bool) : Cm unit :=
  let! identity := load_identity in
  let! _ := open_history identity in
  let! again := load_again in
  let! (peer_handle, record) := core identity (resolve_record dht_configured again peer) in
  let! info := reading identity (client.verification_info_for_record identity peer_handle record) in
  let! _ := println (b#"'" ++ client.vi_handle info ++ b#"' - " ++ verified.label (client.vi_level info)) in
  let! _ := println (b#"safety number: " ++ client.vi_safety_number info) in
  if accept_change then
    let! _ := in_store identity (client.accept_identity_change info) in
    println (b#"accepted the new verified identity for '" ++ client.vi_handle info ++ b#"'")
  else if confirm then
    let! _ := in_store identity (client.mark_verified info) in
    println (b#"marked '" ++ client.vi_handle info ++ b#"' as verified")
  else retM tt.

Definition contact_add (nickname handle : str) : Cm unit :=
  let! identity := load_identity in
  let! _ := open_history identity in
  let! handle := liftM (handle_of handle) in
  let! _ := in_store identity (client.add_contact nickname handle) in
  println (b#"added '" ++ nickname ++ b#"' -> " ++ Handle.as_str handle).
Definition contact_list : Cm unit :=
  let! identity := load_identity in
  let! _ := open_history identity in
  let! l := reading identity client.list_contacts in
  match l with
  | [] => println b#"no contacts"
  | _ => for_each (λ c, println (client.ce_nickname c ++ b#" -> " ++ client.ce_handle c ++ b#"   ["
                                 ++ (if client.ce_verified c then b#"verified" else b#"pinned") ++ b#"]")) l
  end.
Definition contact_remove (nickname : str) : Cm unit :=
  let! identity := load_identity in
  let! _ := open_history identity in
  let! _ := in_store identity (client.remove_contact nickname) in
  println (b#"removed '" ++ nickname ++ b#"'").

Definition person_id (identity : Identity) (person : str) : Cm str :=
  match UserId.new person with
  | Ok user_id => retM (UserId.as_str user_id)
  | Err _ => core identity (λ w,
      let '(found, w) := client.resolve_local_record person w in
      (match found with
       | Ok (_, record) => Ok (uid record)
       | Err _ => Err (Anyhow (b#"unknown or ambiguous person '" ++ person ++ b#"'"))
       end, w))
  end.
Definition set_blocked (person : str) (blocked : bool) : Cm unit :=
  let! identity := load_identity in
  let! _ := open_history identity in
  let! user_id := person_id identity person in
  let! _ := in_store identity (client.set_blocked user_id blocked) in
  println ((if blocked then b#"blocked '" else b#"unblocked '") ++ person ++ b#"' (" ++ user_id ++ b#")").
Definition list_blocked : Cm unit :=
  let! identity := load_identity in
  let! _ := open_history identity in
  let! l := reading identity client.list_blocked in
  match l with [] => println b#"no blocked users" | _ => for_each println l end.

(** ** Conversations *)
Definition clear_history (peer : str) : Cm unit :=
  let! identity := load_identity in
  let! _ := open_history identity in
  let! key := in_store identity (client.clear_history peer) in
  println (b#"cleared history with '" ++ key ++ b#"'").

Definition said_by (from_me : bool) (peer : str) : str := if from_me then b#"you" else peer.
Definition show_history (peer : str) : Cm unit :=
  let! identity := load_identity in
  let! _ := open_history identity in
  let! now := now in
  let! (key, transcript) := in_store identity (client.history_with peer now) in
  match transcript with
  | [] => println (b#"no stored history with '" ++ key ++ b#"'")
  | _ => for_each (λ m, println (said_by (from_me m) key ++ b#": " ++ sm_text m)) transcript
  end.
Definition conversations : Cm unit :=
  let! identity := load_identity in
  let! _ := open_history identity in
  let! now := now in
  let! l := in_store identity (client.conversations now) in
  match l with
  | [] => println b#"no conversations yet"
  | _ => for_each (λ c, println (pad 16 (client.cp_peer c) ++ b#" "
                                 ++ said_by (client.cp_from_me c) (client.cp_peer c) ++ b#": "
                                 ++ preview (client.cp_text c))) l
  end.
(** [str::to_lowercase] over Unicode's table. *)
Context (to_lowercase : str → str).
Definition search (query : str) : Cm unit :=
  let! identity := load_identity in
  let! _ := open_history identity in
  let! now := now in
  let! hits := in_store identity (client.search_history to_lowercase query now) in
  match hits with
  | [] => println (b#"no matches for '" ++ query ++ b#"'")
  | _ =>
      let! _ := for_each (λ hit, println (b#"[" ++ client.sh_peer hit ++ b#"] "
        ++ said_by (client.sh_from_me hit) (client.sh_peer hit) ++ b#": " ++ client.sh_text hit)) hits in
      println (decimal (N.of_nat (length hits)) ++ b#" match(es)")
  end.

Definition draft_cmd (peer : str) (text : option str) : Cm unit :=
  let! identity := load_identity in
  let! _ := open_history identity in
  match text with
  | Some t =>
      let! key := in_store identity (client.set_draft peer t) in
      println (b#"draft saved for '" ++ key ++ b#"'")
  | None =>
      let! (key, d) := reading identity (client.get_draft peer) in
      println match d with
              | Some d => b#"draft for '" ++ key ++ b#"': " ++ d
              | None => b#"no draft for '" ++ key ++ b#"'"
              end
  end.
Definition draft_clear (peer : str) : Cm unit :=
  let! identity := load_identity in
  let! _ := open_history identity in
  let! key := in_store identity (client.clear_draft peer) in
  println (b#"cleared draft for '" ++ key ++ b#"'").

Definition expire_set (target duration : str) : Cm unit :=
  let! identity := load_identity in
  let! secs := liftM (parse_duration duration) in
  let! _ := open_history identity in
  let! key := in_store identity (client.set_expiry target secs) in
  println (b#"messages to '" ++ key ++ b#"' now disappear after " ++ duration).
Definition expire_clear (target : str) : Cm unit :=
  let! identity := load_identity in
  let! _ := open_history identity in
  let! key := in_store identity (client.clear_expiry target) in
  println (b#"cleared disappearing-message timer for '" ++ key ++ b#"'").
Definition expire_show (target : str) : Cm unit :=
  let! identity := load_identity in
  let! _ := open_history identity in
  let! (key, ttl) := reading identity (client.get_expiry target) in
  println match ttl with
          | Some secs => b#"'" ++ key ++ b#"': messages disappear after " ++ decimal (u_val secs) ++ b#"s"
          | None => b#"'" ++ key ++ b#"': no disappearing-message timer"
          end.

(** ** Moving an account *)
Definition wipe (yes : bool) : Cm unit :=
  let! _ := on_disk (Backup.wipe data_path yes) in println b#"wiped all local data".

(** The file a path names. *)
Definition file_of (path : str) : Path * bytes :=
  let p := as_path path in (removelast p, List.last p []).
Definition export (path : str) : Cm unit :=
  let '(dir, name) := file_of path in
  on_tty_disk (export_backup cell data_path dir name).
Definition import (path : str) : Cm unit :=
  let '(dir, name) := file_of path in
  on_tty_disk (import_backup cell data_path dir name).

(** ** [main] *)
Context (turns : list Turn).

Definition dispatch (command : Command) : Cm unit :=
  match command with
  | IdentityNew => identity_new
  | IdentityAdopt wallet_secret => identity_adopt wallet_secret
  | IdentityShow => identity_show
  | IdentityExportWallet yes => identity_export_wallet yes
  | Register handle => register handle
  | RecordCommand (RecordExport handle) => record_export handle
  | RecordCommand (RecordImport handle record) => record_import handle record
  | RecordCommand RecordList => records_list
  | RecordCommand (RecordRemove handle) => remove_record handle
  | Discover peer want => discover peer want
  | DhtCommand (DhtServe addr bootstrap) => serve_dht addr bootstrap
  | DhtCommand (DhtPublish handle bootstrap listen) => publish_dht handle listen bootstrap
  | DhtCommand (DhtLookup handle bootstrap listen) => lookup_dht handle listen bootstrap
  | DeviceCommand handle => list_device handle
  | Send peer whoami flags => send peer whoami flags
  | OutboxCommand OutboxList => outbox_list
  | OutboxCommand OutboxRetry => outbox_retry
  | OutboxCommand (OutboxCancel id) => outbox_cancel id
  | Serve whoami => serve whoami turns
  | ShowHistory peer => show_history peer
  | ClearHistory peer => clear_history peer
  | Conversations => conversations
  | Search query => search query
  | GroupCommand (GroupCreate name members whoami) => group_create name members whoami
  | GroupCommand (GroupSend group whoami flags) => group_send group whoami flags
  | GroupCommand (GroupAdd group member whoami) => group_add group member whoami
  | GroupCommand (GroupHistory group) => group_history group
  | GroupCommand (GroupInfo group) => group_info group
  | GroupCommand (GroupLeave group whoami) => group_leave group whoami
  | GroupCommand GroupList => group_list
  | ContactCommand (ContactAdd nickname handle) => contact_add nickname handle
  | ContactCommand ContactList => contact_list
  | ContactCommand (ContactRemove nickname) => contact_remove nickname
  | Verify peer confirm accept_change => verify peer confirm accept_change
  | Block handle => set_blocked handle true
  | Unblock handle => set_blocked handle false
  | Blocked => list_blocked
  | Expire (ExpireSet target duration) => expire_set target duration
  | Expire (ExpireClear target) => expire_clear target
  | Expire (ExpireShow target) => expire_show target
  | Export path => export path
  | Import path => import path
  | Draft (DraftSet peer text) => draft_cmd peer (Some text)
  | Draft (DraftShow peer) => draft_cmd peer None
  | Draft (DraftClear peer) => draft_clear peer
  | Wipe yes => wipe yes
  end.

(** The end of the process closes the store; an error is printed by the runtime. *)
Definition exec (command : Command) : Cm unit := λ s,
  let '(r, s) := dispatch command s in
  let '(_, s) := on_disk drop_store s in
  match r with Ok _ => (r, s) | Err e => (r, snd (eprintln (b#"Error: " ++ err_text e) s)) end.

(** [configured] is what [init_client_config] gave, and [cell] what it left. *)
Definition main (configured : result error unit) (command : Command) : Cm unit :=
  let! _ := liftM configured in exec command.
End Commands.
End app.
