(* ===== verification/CliProps.v ===== *)
(** * CliProps: what the commands of the command line client may do to an account

    No command but a confirmed [wipe] takes the identity of a device away, none
    works without its passphrase, and a printed wallet secret is adopted as it was. *)

From S2P Require Import Prelude Interleave Std Crypto Wire Identity UserId Records X3DH Group Message Delivery Storage FileStore FileStoreProps Sealing LocalState Antirollback History Groups WireOps Peerbook PeerbookProps Outbox Flow RegistryClient Client Runtime Shell Backup BackupProps Publish CliUtil Dht Cli Instances.

#[local] Abbreviation keeps := Prelude.keeps.

(** ** One file of the disk *)
Section File.
Context (d : Path) (name : bytes).
Definition content (t : Tree) : option bytes := t !! d ≫= (.!! name).
Definition kept (s s' : Disk) : Prop := ∀ b, content (d_tree s) = Some b → content (d_tree s') = Some b.
#[export] Instance kept_preorder : PreOrder kept.
Proof. split; [by intros s b|]. intros s1 s2 s3 K1 K2 b Hb. by apply K2, K1. Qed.

Lemma kept_same s s' : d_tree s' = d_tree s → kept s s'.
Proof. by intros H b; rewrite H. Qed.
Lemma kept_lookup s s' : d_tree s' !! d = d_tree s !! d → kept s s'.
Proof. by intros H b; unfold content; rewrite H. Qed.

Lemma keeps_call effect :
  (∀ t b, content t = Some b → content (effect t) = Some b) → keeps kept (disk_call effect).
Proof. intros He s b Hb. destruct (call_cases effect s) as [->| ->]; [done|by apply He]. Qed.
Lemma keeps_beside {A} d' (m : M Host A) : d' ≠ d → keeps kept (in_dir d' m).
Proof. intros Hne s. apply kept_lookup, in_dir_beside. by intros ->. Qed.

Lemma keeps_mkdir p : keeps kept (mkdir p).
Proof.
  intros s. unfold mkdir, is_dir. case_bool_decide as Hp; [by apply kept_same|].
  destruct (is_file p _); [by apply kept_same|]. intros b Hb. unfold content in Hb |- *.
  destruct (call_cases (λ t, <[p := ∅]> t) s) as [->| ->]; [done|].
  destruct (decide (p = d)) as [->|Hne]; [|by rewrite lookup_insert_ne].
  destruct Hp. destruct (d_tree s !! d); [by eexists|discriminate].
Qed.
Lemma keeps_create_dir p : keeps kept (Backup.create_private_dir p).
Proof.
  unfold Backup.create_private_dir. generalize (@nil bytes). induction p as [|n p IH]; intros at_; cbn [mkdirs].
  - apply keeps_same, _.
  - apply keeps_bind; [apply _|apply keeps_mkdir|by intros _].
Qed.

(** Writing another file replaces none but that. *)
Lemma keeps_write_at d' n c :
  visible name → (d', n) ≠ (d, name) → keeps kept (atomic_write_at d' n c).
Proof.
  intros Hv Hne. apply keeps_bind; [apply _|apply keeps_create_dir|]. intros _.
  destruct (decide (d' = d)) as [->|Hd]; [|by apply keeps_beside]. intros s b. unfold content.
  unfold in_dir. destruct (d_tree s !! d) as [f|] eqn:Hf; [|done]. cbn [mbind option_bind]. intros Hb.
  pose proof (triple_atomic_write (files (host_of d s)) n c (host_of d s) (λ _ _, eq_refl)) as Hw.
  assert (n ≠ name) as Hn by congruence.
  destruct (atomic_write n c (host_of d s)) as [r h] eqn:Ha. cbn [snd put_host d_tree].
  rewrite Hf, lookup_insert_eq. cbn [mbind option_bind].
  assert (files (host_of d s) = f) as Hh by (cbn; by rewrite Hf). rewrite Hh in Hw.
  destruct r as [[]|e]; [|destruct Hw as [_ [Hw|Hw]]]; rewrite (Hw name Hv), ?lookup_insert_ne; done.
Qed.
End File.
#[export] Hint Resolve kept_preorder : keeps.

(** ** The pieces of a command *)
Section Commands.
Context {crypto : Crypto} {P N H T : Type} `{!Platform P, !Reticulum N H, !DhtNet H, !Server H,
  !Terminal T, !Argon2, !Json Sealed, !Json Secret, !ReadDir, !Postcard Backup, !Postcard (list StorageMutation)}
  `{!Postcard IdentityClaim, !Postcard (WalletPublicKey * DeviceRecord), !Postcard DeviceRecord,
    !Postcard ReachabilityRecord, !Postcard VersionPins, !Postcard WalletPublicKey,
    !Postcard contacts.Contact, !Postcard (list str), !Postcard (list (str * str)),
    !Postcard AppMessage, !Postcard attachments.StoredAttachment, !Postcard StoredGroup,
    !Postcard (list StoredMessage), !Postcard (list GroupStoredMessage), !Postcard SegMeta,
    !Postcard (list peerbook.PeerRecord), !Json GroupInvitePayload, !Json GroupLeavePayload,
    !Postcard SignedRecord, !Postcard str, !Postcard u64, !Postcard outbox.OutboxEntry,
    !Postcard (list outbox.OutboxEntry), !Postcard (list outbox.LegacyOutboxEntry),
    !Postcard inbox.AcceptedDelivery, !Postcard (list inbox.AcceptedDelivery),
    !Postcard MailItem, !Postcard PeerFrame, !Postcard AckBody}.
Context (cell : option ClientConfig) (as_path : str → Path) (create : P → result error Identity * P)
  (to_lowercase : str → str).
Abbreviation Process := (@app.Process P N H T).
Abbreviation data := (app.data_path cell as_path).
Abbreviation dispatch := (app.dispatch (P := P) (N := N) (H := H) (T := T) cell as_path create to_lowercase).
Abbreviation exec := (app.exec (P := P) (N := N) (H := H) (T := T) cell as_path create to_lowercase).

(** The identity file of a process. *)
Definition identity_file (s : Process) : option bytes := content data IDENTITY_FILE (d_tree (app.pr_disk s)).
Abbreviation disk_kept := (kept data IDENTITY_FILE).
Definition tty_kept (s s' : T * Disk) : Prop := disk_kept s.2 s'.2.
Definition stays (s s' : Process) : Prop := disk_kept (app.pr_disk s) (app.pr_disk s').
#[local] Instance tty_kept_preorder : PreOrder tty_kept.
Proof. split; [by intros s b|]. intros s1 s2 s3 K1 K2 b Hb. by apply K2, K1. Qed.
#[local] Instance stays_preorder : PreOrder stays.
Proof. split; [by intros s b|]. intros s1 s2 s3 K1 K2 b Hb. by apply K2, K1. Qed.

Lemma below_data (n : bytes) : data ++ [n] ≠ data.
Proof. intros E. apply (f_equal length) in E. rewrite length_app in E. cbn in E. lia. Qed.
Lemma visible_identity : visible IDENTITY_FILE.
Proof. by right. Qed.

(** *** Loading leaves the disk as it is *)
Lemma load_host (s : T * Host) : snd (Sealing.load_identity cell s).2 = s.2.
Proof.
  destruct s as [t h]. unfold Sealing.load_identity, bindM, Sealing.on_disk, readM. cbn [snd].
  destruct (let? found := _ in _) as [input|e]; [|done]. unfold on_terminal. cbn [fst snd].
  by destruct (open_identity cell input t).
Qed.
Lemma host_of_put d (s : Disk) : d_tree (put_host d (host_of d s) s) = d_tree s.
Proof. unfold put_host. cbn. destruct (d_tree s !! d) eqn:Hd; [|done]. cbn. by rewrite insert_id. Qed.
Lemma load_tree (s : Process) : d_tree (app.pr_disk (app.load_identity cell as_path s).2) = d_tree (app.pr_disk s).
Proof.
  unfold app.load_identity, app.on_tty_disk, in_data. cbn [fst snd].
  pose proof (load_host (app.pr_terminal s, host_of data (app.pr_disk s))) as Hl.
  destruct (Sealing.load_identity _ _) as [r [t h]]. cbn [fst snd app.pr_disk] in *. rewrite Hl. apply host_of_put.
Qed.
Lemma stays_load : keeps stays (app.load_identity (N := N) (H := H) cell as_path).
Proof. intros s. apply kept_same, load_tree. Qed.

(** *** Printing, and work on the store *)
Lemma stays_disk {A} (m : M Disk A) : keeps disk_kept m → keeps stays (app.on_disk m).
Proof. intros Hm s. unfold app.on_disk, stays. specialize (Hm (app.pr_disk s)). by destruct (m _). Qed.
Lemma stays_tty {A} (m : M (T * Disk) A) : keeps tty_kept m → keeps stays (app.on_tty_disk m).
Proof.
  intros Hm s. unfold app.on_tty_disk, stays. specialize (Hm (app.pr_terminal s, app.pr_disk s)).
  by destruct (m _).
Qed.
Lemma stays_println line : keeps stays (app.println line).
Proof. by intros s b. Qed.
Lemma stays_eprintln line : keeps stays (app.eprintln line).
Proof. by intros s b. Qed.
Lemma stays_net f : keeps stays (app.set_net f).
Proof. by intros s b. Qed.
Lemma stays_network {A} (m : M H A) : keeps stays (app.on_network m).
Proof. intros s b. unfold app.on_network. by destruct (m _). Qed.
Lemma stays_connect identity : keeps stays (app.connect identity).
Proof. by intros s b. Qed.
Lemma stays_now : keeps stays app.now.
Proof. by intros s b. Qed.
Lemma stays_again : keeps stays (app.load_again cell as_path).
Proof. by intros s b. Qed.
Lemma stays_exists : keeps stays (app.exists_identity cell as_path).
Proof. by intros s b. Qed.
Lemma stays_panic {A} (r : peerbook.panics (result error A)) : keeps stays (app.or_panic r).
Proof. intros s b. by destruct r. Qed.
Lemma stays_os {A} (f : P → result error A * P) : keeps stays (app.on_os f).
Proof. intros s b. unfold app.on_os. by destruct (f _). Qed.
Lemma stays_for {A} (f : A → M Process unit) l :
  (∀ x, keeps stays (f x)) → keeps stays (app.for_each f l).
Proof.
  intros Hf. induction l as [|x l IH]; cbn [app.for_each]; [apply keeps_same, _|].
  apply keeps_bind; [apply _|done|by intros _].
Qed.
Lemma stays_core {A} identity (m : M (World FileStore P (runtime.DirectNetwork N H)) A) :
  keeps stays (app.core cell as_path identity m).
Proof.
  intros s. unfold app.core. destruct (m _) as [r w]. cbn [snd app.pr_disk]. apply kept_lookup.
  unfold app.with_store, put_host. cbn [app.pr_disk d_tree]. destruct (d_tree (app.pr_disk s) !! _); [|done].
  apply lookup_insert_ne, below_data.
Qed.
Lemma stays_in_store {A} identity (m : M FileStore A) : keeps stays (app.in_store cell as_path identity m).
Proof. apply stays_core. Qed.
Lemma stays_reading {A} identity (f : FileStore → result error A) : keeps stays (app.reading cell as_path identity f).
Proof. apply stays_core. Qed.
Lemma kept_open identity : keeps disk_kept (Backup.open_history data identity).
Proof.
  intros s. unfold Backup.open_history, context.
  pose proof (keeps_bind disk_kept (Backup.create_private_dir (data ++ [HISTORY]))
    (λ _, in_dir (data ++ [HISTORY]) (FileStore.open (Identity.storage_key identity)))
    (keeps_create_dir _ _ _) (λ _, keeps_beside _ _ _ _ (below_data _)) s) as Hk.
  by destruct (bindM _ _ s).
Qed.
Lemma stays_open identity : keeps stays (app.open_history cell as_path identity).
Proof. apply stays_disk, kept_open. Qed.
Lemma stays_result {A} (r : Process → result error A) : keeps stays (λ s, (r s, s)).
Proof. apply keeps_same, _. Qed.
Create HintDb cli.
#[local] Hint Resolve stays_load stays_println stays_eprintln stays_net stays_network stays_connect stays_now stays_again
  stays_exists stays_panic stays_os stays_core stays_in_store stays_reading stays_open stays_result : cli.
#[local] Hint Extern 1 (keeps _ (retM _)) => apply stays_result : cli.
#[local] Hint Extern 1 (keeps _ (errM _)) => apply stays_result : cli.
#[local] Hint Extern 1 (keeps _ (liftM _)) => apply stays_result : cli.
(** A command is a sequence of such steps. *)
Ltac head_of m := lazymatch m with ?f _ => head_of f | _ => m end.
Ltac go_cli := repeat (intros; first
  [ match goal with |- keeps _ (bindM _ _) => apply keeps_bind; [apply _| |] end
  | match goal with |- keeps _ (tryM _) => apply keeps_try end
  | match goal with |- keeps _ (app.for_each _ _) => apply stays_for end
  | match goal with |- keeps _ (match ?x with _ => _ end) => destruct x end
  | progress (auto 1 with cli nocore) ]).

(** *** Serving *)
Lemma stays_save name bytes : keeps stays (app.save_attachment cell as_path name bytes).
Proof.
  apply stays_disk, keeps_bind; [apply _|apply keeps_create_dir|]. intros _.
  apply keeps_bind; [apply _| |intros ?; apply keeps_same, _]. apply keeps_beside, below_data.
Qed.
#[local] Hint Resolve stays_save : cli.
Lemma stays_emit event : keeps stays (app.emit cell as_path event).
Proof. destruct event; cbn [app.emit]; go_cli. Qed.
#[local] Hint Resolve stays_emit : cli.
Lemma stays_turn identity me my_record t : keeps stays (app.turn cell as_path identity me my_record t).
Proof. destruct t; cbn [app.turn]; unfold app.frame_turn, app.retry_turn; go_cli. Qed.
#[local] Hint Resolve stays_turn : cli.

(** *** Moving an account *)
Lemma tty_on_fs {A} (m : M Disk A) : keeps disk_kept m → keeps tty_kept (on_fs m).
Proof. intros Hm s. unfold on_fs, tty_kept. specialize (Hm s.2). by destruct (m s.2). Qed.
Lemma tty_load : keeps tty_kept (in_data data (Sealing.load_identity cell)).
Proof.
  intros s. unfold in_data, tty_kept. pose proof (load_host (s.1, host_of data s.2)) as Hl.
  destruct (Sealing.load_identity _ _) as [r [t h]]. cbn [fst snd] in *. rewrite Hl.
  apply kept_same, host_of_put.
Qed.
Lemma kept_context {A} msg (m : M Disk A) : keeps disk_kept m → keeps disk_kept (context msg m).
Proof. intros Hm s. unfold context. specialize (Hm s). by destruct (m s). Qed.
Lemma kept_read d name : keeps disk_kept (read_file d name).
Proof.
  apply keeps_bind; [apply _| |intros ?; apply keeps_same, _]. intros s. apply kept_same.
  unfold in_dir, readM. apply host_of_put.
Qed.
Lemma kept_collect d names : keeps disk_kept (collect d names).
Proof.
  induction names as [|n names IH]; cbn [collect]; [apply keeps_same, _|].
  apply keeps_bind; [apply _|apply kept_read|]. intros ?.
  apply keeps_bind; [apply _|done|intros ?; apply keeps_same, _].
Qed.
Lemma kept_drop : keeps disk_kept drop_store.
Proof. by intros s b. Qed.
#[local] Hint Resolve kept_open kept_drop kept_context kept_read kept_collect kept_preorder : keeps.

Lemma tty_export dir name :
  (dir, name) ≠ (data, IDENTITY_FILE) → keeps tty_kept (export_backup cell data dir name).
Proof.
  intros Hne. apply keeps_bind; [apply _|apply tty_load|]. intros identity. apply tty_on_fs.
  go_keeps. apply kept_context, keeps_write_at; [exact visible_identity|done].
Qed.
Lemma tty_import dir name : keeps tty_kept (import_backup cell data dir name).
Proof.
  intros s b Hb. unfold import_backup.
  assert (path_exists (data ++ [IDENTITY_FILE]) s.2 = true) as ->; [|done].
  unfold path_exists, is_file. rewrite rev_app_distr. cbn [rev app]. rewrite rev_involutive.
  unfold content in Hb. destruct (d_tree s.2 !! data) as [f|]; [|done].
  rewrite bool_decide_eq_true_2 by (by exists b). apply orb_true_r.
Qed.

(** The commands that may take the identity away. *)
Definition spares (command : app.Command) : Prop :=
  match command with
  | app.Wipe yes => yes = false
  | app.Export path => as_path path ≠ data ++ [IDENTITY_FILE]
  | _ => True
  end.

Lemma file_of_ne path :
  as_path path ≠ data ++ [IDENTITY_FILE] → app.file_of as_path path ≠ (data, IDENTITY_FILE).
Proof.
  unfold app.file_of. intros Hne [= Hd Hn]. apply Hne. rewrite <-Hd.
  destruct (exists_last (l := as_path path)) as (l & x & Hl); [by intros E; rewrite E in Hn|].
  rewrite Hl in Hn |- *. rewrite removelast_last. by rewrite last_last in Hn; subst.
Qed.

Lemma exists_true s b :
  identity_file s = Some b → app.exists_identity cell as_path s = (Ok true, s).
Proof.
  unfold identity_file, content, app.exists_identity, path_exists, is_file. intros Hb.
  rewrite rev_app_distr. cbn [rev app]. rewrite rev_involutive.
  destruct (d_tree (app.pr_disk s) !! data) as [f|]; [|done].
  rewrite (bool_decide_eq_true_2 (is_Some (f !! IDENTITY_FILE))) by (by exists b). by rewrite orb_true_r.
Qed.
Lemma stays_guarded {A} e (m : M Process A) :
  keeps stays (let! exists_ := app.exists_identity cell as_path in if exists_ : bool then errM e else m).
Proof. intros s b Hb. unfold bindM. by rewrite (exists_true s b Hb). Qed.

Lemma stays_report identity handle record :
  keeps stays (app.report_configured_dht_publish cell as_path identity handle record).
Proof. unfold app.report_configured_dht_publish. go_cli. Qed.
Lemma stays_entries entries : keeps stays (app.print_outbox_entries entries).
Proof. unfold app.print_outbox_entries. go_cli. Qed.
Lemma stays_flush identity : keeps stays (app.flush_outbox cell as_path identity).
Proof. unfold app.flush_outbox. go_cli. Qed.
Lemma stays_person identity person : keeps stays (app.person_id cell as_path identity person).
Proof. unfold app.person_id. go_cli. Qed.
#[local] Hint Resolve stays_report stays_entries stays_flush stays_person : cli.

Lemma stays_dispatch turns command : spares command → keeps stays (dispatch turns command).
Proof.
  intros Hs. destruct command; try match goal with
    | a : app.RecordAction |- _ => destruct a | a : app.DhtAction |- _ => destruct a
    | a : app.OutboxAction |- _ => destruct a | a : app.GroupAction |- _ => destruct a
    | a : app.ContactAction |- _ => destruct a | a : app.ExpireAction |- _ => destruct a
    | a : app.DraftAction |- _ => destruct a end;
    cbn [app.dispatch spares] in *;
    lazymatch goal with
    | |- keeps _ (app.wipe _ _ _) => subst; intros s; by apply kept_same
    | |- keeps _ (app.export _ _ ?path) =>
        apply file_of_ne in Hs; unfold app.export; destruct (app.file_of as_path path); by apply stays_tty, tty_export
    | |- keeps _ (app.import _ _ ?path) =>
        unfold app.import; destruct (app.file_of as_path path); apply stays_tty, tty_import
    | |- keeps _ (app.identity_new _ _ _) => apply stays_guarded
    | |- keeps _ (app.identity_adopt _ _ _) => apply stays_guarded
    | |- keeps _ ?m => let h := head_of m in unfold h; go_cli
    end.
Qed.

(** *** The life of an account: processes run one after another on one disk *)
Definition next (s s' : Process) : Prop := ∃ s1 turns command,
  d_tree (app.pr_disk s1) = d_tree (app.pr_disk s) ∧ spares command ∧ s' = (exec turns command s1).2.

Lemma exec_tree turns command (s : Process) :
  d_tree (app.pr_disk (exec turns command s).2) = d_tree (app.pr_disk (dispatch turns command s).2).
Proof. unfold app.exec. destruct (dispatch turns command s) as [[[]|e] s1]; done. Qed.


(** *** Without the passphrase *)
Definition unlocks (command : app.Command) : bool :=
  match command with
  | app.IdentityNew | app.IdentityAdopt _ | app.Import _ | app.Wipe _ => false
  | app.IdentityExportWallet yes => yes
  | _ => true
  end.

Definition stopped (s s' : Process) : Prop :=
  d_tree (app.pr_disk s') = d_tree (app.pr_disk s) ∧ app.pr_net s' = app.pr_net s ∧
  app.pr_platform s' = app.pr_platform s ∧ app.pr_out s' = app.pr_out s.
Lemma load_stops {A} (k : Identity → M Process A) (s : Process) e :
  (app.load_identity cell as_path s).1 = Err e →
  (bindM (app.load_identity cell as_path) k s).1 = Err e ∧ stopped s (bindM (app.load_identity cell as_path) k s).2.
Proof.
  intros He. pose proof (load_tree s) as Ht. unfold bindM. destruct (app.load_identity _ _ s) as [r s1] eqn:Hl.
  cbn [fst snd] in *. subst r. split; [done|]. unfold app.load_identity, app.on_tty_disk in Hl.
  destruct (in_data _ _ _) as [r td]. injection Hl as _ <-. by split_and!.
Qed.
Lemma tty_bind {A B} (m : M (T * Disk) A) (k : A → M (T * Disk) B) (s : Process) :
  app.on_tty_disk (N := N) (H := H) (P := P) (bindM m k) s
  = bindM (app.on_tty_disk m) (λ a, app.on_tty_disk (k a)) s.
Proof.
  unfold app.on_tty_disk, bindM. destruct (m _) as [[a|e] [t d]]; [|done]. cbn [fst snd].
  cbn [app.pr_terminal app.pr_disk app.pr_platform app.pr_net app.pr_out app.pr_err app.pr_panicked].
  by destruct (k a (t, d)) as [r [t' d']].
Qed.

Lemma dispatch_stops turns command (s : Process) e :
  unlocks command = true → (app.load_identity cell as_path s).1 = Err e →
  (dispatch turns command s).1 = Err e ∧ stopped s (dispatch turns command s).2.
Proof.
  intros Hu He. destruct command; cbn [unlocks] in Hu; try discriminate; try match goal with
    | a : app.RecordAction |- _ => destruct a | a : app.DhtAction |- _ => destruct a
    | a : app.OutboxAction |- _ => destruct a | a : app.GroupAction |- _ => destruct a
    | a : app.ContactAction |- _ => destruct a | a : app.ExpireAction |- _ => destruct a
    | a : app.DraftAction |- _ => destruct a end; subst; cbn [app.dispatch];
    lazymatch goal with
    | |- (app.export _ _ ?path _).1 = _ ∧ _ =>
        unfold app.export; destruct (app.file_of as_path path); unfold export_backup; rewrite tty_bind;
        by apply load_stops
    | |- (?m s).1 = _ ∧ _ => let h := head_of m in unfold h; by apply load_stops
    end.
Qed.

(** Without its passphrase nothing is done with an account: a command that
    does not make, take or erase one ends with the error of the passphrase, and
    has neither changed the disk, nor used the network, nor printed anything but
    that error. *)
Theorem commands_need_passphrase turns command (s : Process) e :
  unlocks command = true → (app.load_identity cell as_path s).1 = Err e →
  (exec turns command s).1 = Err e ∧ stopped s (exec turns command s).2.
Proof.
  intros Hu He. destruct (dispatch_stops turns command s e Hu He) as [H1' H2']. unfold app.exec.
  destruct (dispatch turns command s) as [r s1]. cbn [fst snd] in *. by subst r.
Qed.

(** *** Moving a wallet by its printed secret *)
Context {laws : CryptoLaws}.

Lemma hex_32_hex (w : arr 32) : app.hex_32 (hex (arr_bytes w)) = Some (Ok w).
Proof.
  unfold app.hex_32, app.hex_bytes. rewrite trim_hex, length_hex, Nat.even_mul. cbn [Nat.even orb negb].
  rewrite hex_pairs_hex. cbn. by rewrite arr_try_bytes.
Qed.

Lemma load_wf (s : Process) i : (app.load_identity cell as_path s).1 = Ok i → Identity.wf i.
Proof.
  unfold app.load_identity, app.on_tty_disk, in_data, Sealing.load_identity. cbn [fst snd].
  unfold bindM at 1, Sealing.on_disk, readM. cbn [fst snd].
  destruct (let? found := _ in _) as [input|e]; [|done]. unfold on_terminal. cbn [fst snd].
  unfold open_identity, bindM. destruct (passphrase _ _ _) as [[p|e] t]; cbn [fst]; [|done].
  unfold liftM. cbn [fst]. unfold open_identity_with_passphrase.
  destruct (map_err _ (open p input)); cbn [bind_result]; [|done].
  destruct (ok_or _ (from_slice _)); cbn [bind_result]; [|done].
  destruct (ok_or _ (arr_try (sec_device_seed _))); cbn [bind_result]; [|done].
  destruct (ok_or _ (arr_try (sec_wallet_secret _))) as [w|e]; cbn [bind_result]; [|done].
  destruct (Identity.from_wallet_secret w _) as [j|e] eqn:Hb; [|done]. cbn. intros [= <-]. by eapply Identity.build_wf.
Qed.

(** A new identity file is complete, and opens with the passphrase it was given. *)
Definition account_saved (identity : Identity) (passphrase : str) (s : Process) : Prop :=
  ∃ f, d_tree (app.pr_disk s) !! data = Some f ∧ saved identity passphrase f.

Lemma created_exists (d : Path) (s s' : Disk) :
  d ≠ [] → Backup.create_private_dir d s = (Ok tt, s') → is_Some (d_tree s' !! d).
Proof.
  intros Hd Hc. pose proof (mkdirs_exact (d_tree s) [] d s eq_refl) as Hm.
  unfold Backup.create_private_dir in Hc. rewrite Hc in Hm. destruct Hm as [_ Hm].
  apply (Hm d Hd), below_refl.
Qed.

Lemma save_sealed_saved identity passphrase (d d' : Disk) :
  data ≠ [] → Identity.wf identity →
  app.save_sealed cell as_path identity passphrase d = (Ok tt, d') →
  ∃ f, d_tree d' !! data = Some f ∧ saved identity passphrase f.
Proof.
  intros Hne Hwf. unfold app.save_sealed. destruct (_ <? _)%nat; [done|]. unfold bindM at 1, in_dir at 1.
  destruct (seal_identity identity passphrase (host_of data d)) as [[blob|e] h] eqn:Hs; [|done].
  unfold atomic_write_at, bindM. set (d1 := put_host data h d).
  destruct (Backup.create_private_dir data d1) as [[[]|e] d2] eqn:Hc; [|done].
  destruct (created_exists _ _ _ Hne Hc) as [f Hf]. unfold in_dir.
  pose proof (triple_atomic_write (files (host_of data d2)) IDENTITY_FILE blob (host_of data d2) (λ _ _, eq_refl)) as Hw.
  destruct (atomic_write IDENTITY_FILE blob (host_of data d2)) as [[[]|e] h2]; [|done]. intros [= <-].
  exists (files h2). cbn [put_host d_tree]. rewrite Hf. split; [apply lookup_insert_eq|].
  exists blob. rewrite (Hw _ visible_identity), lookup_insert_eq. split; [done|]. by eapply open_sealed_identity.
Qed.

Lemma adopt_ok line (s s' : Process) w :
  data ≠ [] → app.hex_32 line = Some (Ok w) → app.identity_adopt cell as_path line s = (Ok tt, s') →
  ∃ adopted passphrase, Identity.wallet_secret adopted = w ∧ Identity.wf adopted ∧ account_saved adopted passphrase s'.
Proof.
  intros Hne Hw. unfold app.identity_adopt, bindM at 1. unfold app.exists_identity.
  destruct (path_exists _ _); [done|]. unfold bindM at 1, app.or_panic. rewrite Hw.
  unfold bindM at 1, app.on_os. destruct (client.adopt_identity (app.pr_platform s) w) as [[i|e] p] eqn:Ha; [|done].
  assert (Identity.wallet_secret i = w ∧ Identity.wf i) as [Hi Hwf].
  { revert Ha. unfold client.adopt_identity, Identity.adopt. destruct (fill_random _ 32) as [seed p'].
    destruct (Identity.build w seed) as [j|e] eqn:Hb; cbn; [|done]. intros [= <- _].
    split; [by apply Identity.build_inv in Hb as [? _]|by eapply Identity.build_wf]. }
  set (s1 := app.mkProcess _ _ _ _ _ _ _). unfold bindM at 1, app.save_identity, app.on_tty_disk, bindM at 1, on_tty.
  cbn [fst snd]. destruct (new_passphrase cell _ _) as [[pass|e] t]; [|done]. unfold on_fs. cbn [fst snd].
  destruct (app.save_sealed cell as_path i pass (app.pr_disk s1)) as [[[]|e] d] eqn:Hs; [|done].
  cbn [fst snd]. intros Hp. exists i, pass. split_and!; [done|done|].
  unfold account_saved. injection Hp as <-. cbn [app.pr_disk]. by eapply save_sealed_saved.
Qed.

End Commands.

(** *** Two devices *)
Section Moving.
Context {crypto : Crypto} {P N H T : Type} `{!Platform P, !Reticulum N H, !DhtNet H, !Server H,
  !Terminal T, !Argon2, !Json Sealed, !Json Secret, !ReadDir, !Postcard Backup, !Postcard (list StorageMutation)}
  `{!Postcard IdentityClaim, !Postcard (WalletPublicKey * DeviceRecord), !Postcard DeviceRecord,
    !Postcard ReachabilityRecord, !Postcard VersionPins, !Postcard WalletPublicKey,
    !Postcard contacts.Contact, !Postcard (list str), !Postcard (list (str * str)),
    !Postcard AppMessage, !Postcard attachments.StoredAttachment, !Postcard StoredGroup,
    !Postcard (list StoredMessage), !Postcard (list GroupStoredMessage), !Postcard SegMeta,
    !Postcard (list peerbook.PeerRecord), !Json GroupInvitePayload, !Json GroupLeavePayload,
    !Postcard SignedRecord, !Postcard str, !Postcard u64, !Postcard outbox.OutboxEntry,
    !Postcard (list outbox.OutboxEntry), !Postcard (list outbox.LegacyOutboxEntry),
    !Postcard inbox.AcceptedDelivery, !Postcard (list inbox.AcceptedDelivery),
    !Postcard MailItem, !Postcard PeerFrame, !Postcard AckBody}.
Context {laws : CryptoLaws}.
Abbreviation Process := (@app.Process P N H T).

(** C32: A wallet moves to another device by its printed secret: what
    [identity-export-wallet] prints is exactly the secret of the account, and
    [identity-adopt] of that line, on any device with any configuration, never
    misreads it; when it reports success the identity file there opens to an
    identity with the same wallet key, so with the same user id.  The first device
    is left as it was. *)
Theorem wallet_moves cell as_path create lower turns (s s' : Process) :
  app.exec cell as_path create lower turns (app.IdentityExportWallet true) s = (Ok tt, s') →
  ∃ identity line, (app.load_identity cell as_path s).1 = Ok identity ∧
    app.pr_out s' = app.pr_out s ++ [line] ∧ d_tree (app.pr_disk s') = d_tree (app.pr_disk s) ∧
    app.hex_32 line = Some (Ok (Identity.wallet_secret identity)) ∧
    ∀ cell2 as_path2 create2 lower2 turns2 (s2 s2' : Process), app.data_path cell2 as_path2 ≠ [] →
      app.exec cell2 as_path2 create2 lower2 turns2 (app.IdentityAdopt line) s2 = (Ok tt, s2') →
      ∃ adopted passphrase, account_saved cell2 as_path2 adopted passphrase s2' ∧
        Identity.wallet_public adopted = Identity.wallet_public identity.
Proof.
  unfold app.exec at 1. cbn [app.dispatch app.identity_export_wallet negb]. unfold bindM at 1.
  pose proof (load_tree cell as_path s) as Ht. pose proof (load_wf cell as_path s) as Hwf.
  assert (app.pr_out (app.load_identity cell as_path s).2 = app.pr_out s) as Hout.
  { unfold app.load_identity, app.on_tty_disk. by destruct (in_data _ _ _). }
  destruct (app.load_identity cell as_path s) as [[i|e] s1]; [|done]. cbn [fst snd] in *. intros [= <-].
  exists i, (hex (arr_bytes (Identity.wallet_secret i))). cbn [app.pr_out app.pr_disk d_tree].
  split_and!; [done|by rewrite Hout|done|apply hex_32_hex|].
  intros cell2 as_path2 create2 lower2 turns2 s2 s2' Hne. unfold app.exec. cbn [app.dispatch].
  destruct (app.identity_adopt cell2 as_path2 _ s2) as [[[]|e] s3] eqn:Ha; [|done].
  intros [= <-]. destruct (adopt_ok _ _ _ _ _ _ Hne (hex_32_hex _) Ha) as (j & pass & Hj & Hjwf & Hsaved).
  exists j, pass. split; [exact Hsaved|]. unfold Identity.wallet_public.
  apply Identity.wf_inv in Hjwf as [_ ->]. destruct (Identity.wf_inv i (Hwf i eq_refl)) as [_ ->]. by rewrite Hj.
Qed.
End Moving.
