(* ===== verification/CliWitness.v ===== *)
(** * CliWitness: sessions at the command line, and the theorems on them

    Two devices without a network, over the weak primitives of [Instances]. *)

From S2P Require Import Prelude Interleave Std Crypto Wire Identity UserId Records X3DH Group GroupSession Message Delivery Storage FileStore FileStoreProps Recovery Sealing LocalState LocalProps Antirollback History HistoryProps Groups Codecs WireOps Peerbook PeerbookProps Flow FlowProps EndToEnd FlowWitness Outbox OutboxProps Registry RegistryWitness RegistryClient Client Runtime Shell Frame Acceptance Peers Delivered ClientWitness Backup BackupProps Publish BackupWitness CliUtil Dht Cli CliProps Instances.

#[export] Instance offline_node : Reticulum unit unit := {|
  node_new _ h := (None, h); send_and_wait _ _ _ h := (None, h); node_shutdown _ h := h |}.
#[export] Instance offline_dht : DhtNet unit := {|
  Multiaddr := str; P2pMultiaddr := str; listen_multiaddr := Ok; parse_multiaddrs := Ok;
  dht_get_records _ _ _ _ := errM io_error; dht_put _ _ _ _ _ := errM io_error |}.
#[export] Instance offline_server : Server unit := {| dht_serve _ _ _ := errM io_error; reply _ h := h |}.

Abbreviation Process := (@app.Process N unit unit unit).
Definition on_disk (p : N) (t : Tree) : Process :=
  app.mkProcess (mkDisk t Unlocked (λ _, false) true []) tt p (runtime.network_new (arr_fit 64 []) tt) [] [] false.
Definition relative (path : str) : Path := List.filter (λ c, negb (bool_decide (c = []))) (split_at "/"%char path).
Definition create (p : N) : result error Identity * N :=
  match client.create_identity 3 p with Some r => r | None => (Err (Anyhow []), p) end.
Definition with_passphrase (passphrase : str) : option ClientConfig :=
  Some (mkConfig b#"data" (Some passphrase) [] []).
Definition exec (passphrase : str) (command : app.Command) (s : Process) : result error unit * Process :=
  app.exec (with_passphrase passphrase) relative create (λ s, s) [] command s.

(** One process after the other; the lines of the last one. *)
Definition session (commands : list app.Command) (s : Process) : Process :=
  fold_left (λ s command, snd (exec b#"long enough" command (on_disk (app.pr_platform s) (d_tree (app.pr_disk s))))) commands s.
Definition output (s : Process) : list str * list str := (app.pr_out s, app.pr_err s).

Definition device : Process := session [app.IdentityNew; app.Register b#"alice"] (on_disk 60 ∅).

Example drafts :
  output (session [app.Draft (app.DraftSet b#"bob" b#"hello"); app.Draft (app.DraftShow b#"bob")] device)
  = ([b#"draft for 'bob': hello"], []).
Proof. vm_compute. reflexivity. Qed.
Example unknown_person :
  output (session [app.Send b#"bob" b#"alice" (mkFlags (Some b#"hi") None None None None None None None)] device)
  = ([], [b#"Error: no local signed record for 'bob'"]).
Proof. vm_compute. reflexivity. Qed.
Example second_identity : output (session [app.IdentityNew] device) = ([], [b#"Error: an identity already exists at data/identity.enc"]).
Proof. vm_compute. reflexivity. Qed.
Example nothing_yet :
  map (λ c, output (session [c] device))
    [app.OutboxCommand app.OutboxList; app.GroupCommand app.GroupList; app.Blocked; app.Conversations;
     app.ContactCommand app.ContactList; app.Expire (app.ExpireShow b#"bob")]
  = map (λ l, ([l], [])) [b#"outbox empty"; b#"no groups"; b#"no blocked users"; b#"no conversations yet";
     b#"no contacts"; b#"'bob': no disappearing-message timer"].
Proof. vm_compute. reflexivity. Qed.

(** Hexadecimal arguments: a sign is taken for a digit, and half a character aborts. *)
Example hex_arguments :
  (app.hex_bytes b#" 0aFF ", app.hex_bytes b#"+f", app.hex_bytes b#"abc", app.hex_bytes (map byte_of [97; 195; 169; 98]%N))
  = (Some (Ok (map byte_of [10; 255]%N)), Some (Ok [byte_of 15]), Some (Err (Anyhow b#"hex string has an odd length")), None).
Proof. vm_compute. reflexivity. Qed.

Example previews : (app.preview (concat (replicate 50 b#"é")), app.pad 4 b#"é") = (concat (replicate 48 b#"é"), b#"é   ").
Proof. vm_compute. reflexivity. Qed.

(** ** The theorems *)
Definition device_blob : bytes :=
  default [] (content [b#"data"] IDENTITY_FILE (d_tree (app.pr_disk device))).

Lemma two_commands passphrase (s : Process) c1 c2 :
  spares (with_passphrase passphrase) relative c1 → spares (with_passphrase passphrase) relative c2 →
  rtc (next (with_passphrase passphrase) relative create (λ s, s)) s
    (exec passphrase c2 (snd (exec passphrase c1 s))).2.
Proof.
  intros K1 K2. eapply rtc_l; [by exists s, [], c1|]. eapply rtc_l; [by eexists _, [], c2|]. apply rtc_refl.
Qed.


(** An export onto the identity file is one of the exceptions: the bundle takes its place. *)
Example export_over_identity :
  let s := session [app.Export b#"data/identity.enc"] device in
  bool_decide (content [b#"data"] IDENTITY_FILE (d_tree (app.pr_disk s)) = Some device_blob) = false.
Proof. vm_compute. reflexivity. Qed.

(** No passphrase is configured, and the terminal gives none. *)
Definition locked : option ClientConfig := Some (mkConfig b#"data" None [] []).
Lemma commands_need_passphrase_witness :
  let s' := snd (app.exec locked relative create (λ s, s) [] (app.RecordCommand (app.RecordRemove b#"alice")) device) in
  app.pr_out s' = app.pr_out device ∧ d_tree (app.pr_disk s') = d_tree (app.pr_disk device).
Proof.
  cbv zeta.
  destruct (commands_need_passphrase locked relative create (λ s, s) []
    (app.RecordCommand (app.RecordRemove b#"alice")) device io_error) as (_ & Ht & _ & _ & Ho);
    [reflexivity|vm_compute; reflexivity|].
  split; [exact Ho|exact Ht].
Defined.

(** The second device is configured differently. *)
Abbreviation elsewhere line :=
  (app.exec (Some (mkConfig b#"home/other" (Some b#"another one") [] [])) relative create (λ s, s) []
    (app.IdentityAdopt line) (on_disk 7 ∅) : result error unit * Process).
Definition exporting : result error unit * Process := exec b#"long enough" (app.IdentityExportWallet true) device.
Definition the_line : str := default [] (head (rev (app.pr_out exporting.2))).
Lemma succeeds {S} (r : result error unit * S) : fst r = Ok tt → r = (Ok tt, snd r).
Proof. intros <-. apply surjective_pairing. Qed.
Lemma export_ok : exporting = (Ok tt, exporting.2).
Proof. apply succeeds. vm_compute. reflexivity. Qed.
Lemma adopt_succeeds : elsewhere the_line = (Ok tt, (elsewhere the_line).2).
Proof. apply succeeds. vm_compute. reflexivity. Qed.
Lemma last_line (l : list str) line : default [] (head (rev (l ++ [line]))) = line.
Proof. by rewrite rev_app_distr. Qed.

Lemma wallet_moves_witness :
  ∃ identity adopted passphrase,
    (app.load_identity (with_passphrase b#"long enough") relative device).1 = Ok identity ∧
    account_saved (Some (mkConfig b#"home/other" (Some b#"another one") [] [])) relative adopted passphrase
      (elsewhere the_line).2 ∧
    Identity.wallet_public adopted = Identity.wallet_public identity.
Proof.
  destruct (wallet_moves _ _ _ _ _ _ _ export_ok) as (identity & line & Hi & Hout & _ & _ & Hadopt).
  assert (the_line = line) as Hl by (unfold the_line; rewrite Hout; apply last_line).
  pose proof adopt_succeeds as Ha. rewrite Hl in Ha |- *.
  destruct (Hadopt (Some (mkConfig b#"home/other" (Some b#"another one") [] [])) relative create (λ s, s) [] (on_disk 7 ∅) _
    ltac:(vm_compute; discriminate) Ha) as (adopted & passphrase & Hsaved & Hpub).
  exists identity, adopted, passphrase. exact (conj Hi (conj Hsaved Hpub)).
Defined.
