(* ===== verification/Transport.v ===== *)
(** * Transport: frames on a byte stream, addresses, and waiting for an answer

    [mycellium-transport]: what the crate computes itself.  A byte stream, the
    address grammar, the swarm and the Reticulum node are classes; a loop that
    waits for events is a function of the events that arrive, the last of which
    may be that the deadline has passed. *)

From S2P Require Import Prelude Std Crypto Identity Message Runtime Dht.

#[local] Abbreviation u16 := (uint 16).

(** ** Byte streams

    [Read::read_exact], [Write::write_all] and [flush] of a stream, and what is
    documented of them: a successful read gives the next bytes, as many as were
    asked for; a write appends all it is given or, when it fails, a part.  [incoming]
    and [outgoing] are what is still to be read, and what has been written. *)
Class ByteStream (S : Type) : Type := {
  read_exact : nat → S → result io_error bytes * S;
  write_all : bytes → S → result io_error unit * S;
  flush : S → result io_error unit * S
}.
#[global] Hint Mode ByteStream ! : typeclass_instances.

Class StreamLaws (S : Type) `{!ByteStream S} : Type := {
  incoming : S → bytes;
  outgoing : S → bytes;
  (** No read will fail before the incoming bytes have been read. *)
  unbroken : S → Prop;
  read_exact_spec n s :
    let '(r, s') := read_exact n s in
    outgoing s' = outgoing s ∧
    match r with Ok b => length b = n ∧ incoming s = b ++ incoming s' | Err _ => True end ∧
    (unbroken s → (n <= length (incoming s))%nat → is_ok r = true ∧ unbroken s');
  read_exact_short n s :
    (length (incoming s) < n)%nat → is_ok (read_exact n s).1 = false;
  write_all_spec b s :
    let '(r, s') := write_all b s in
    incoming s' = incoming s ∧
    match r with
    | Ok _ => outgoing s' = outgoing s ++ b
    | Err _ => ∃ k, outgoing s' = outgoing s ++ take k b
    end;
  flush_spec s : let '(_, s') := flush s in incoming s' = incoming s ∧ outgoing s' = outgoing s
}.

(** ** [net.rs], [libp2p_net.rs]: framed connections

    [TcpConnection], [Libp2pConnection] and its halves are the same two functions
    on their stream. *)
Module frames.
Section Frames.
Context {S : Type} `{!ByteStream S}.

Definition send (input : bytes) (s : S) : result io_error unit * S :=
  match frame_header (usat 64 (N.of_nat (length input))) with
  | Err e => (Err e, s)
  | Ok header =>
      let '(r, s) := write_all (arr_bytes header) s in
      match r with
      | Err e => (Err e, s)
      | Ok _ =>
          let '(r, s) := write_all input s in
          match r with Err e => (Err e, s) | Ok _ => flush s end
      end
  end.

Definition recv (s : S) : result io_error bytes * S :=
  let '(r, s) := read_exact 4 s in
  match r with
  | Err e => (Err e, s)
  | Ok header =>
      match frame_len (arr_fit 4 header) with
      | Err e => (Err e, s)
      | Ok n => read_exact (N.to_nat (u_val n)) s
      end
  end.

(** Sending until one fails, and receiving until one fails. *)
Fixpoint send_each (inputs : list bytes) (s : S) : nat * S :=
  match inputs with
  | [] => (0%nat, s)
  | input :: inputs =>
      match send input s with
      | (Ok _, s) => let '(n, s) := send_each inputs s in (Datatypes.S n, s)
      | (Err _, s) => (0%nat, s)
      end
  end.
Fixpoint recv_each (fuel : nat) (s : S) : list bytes * S :=
  match fuel with
  | O => ([], s)
  | Datatypes.S fuel =>
      match recv s with
      | (Ok b, s) => let '(l, s) := recv_each fuel s in (b :: l, s)
      | (Err _, s) => ([], s)
      end
  end.
End Frames.
End frames.

(** The connection of the client runtime: [Libp2pReadHalf::recv_frame] and
    [Libp2pWriteHalf::send_frame].  Its callers look only at whether a call failed. *)
#[export] Instance framed_connection {S} `{!ByteStream S} : Connection S := {|
  send_frame input s := let '(r, s) := frames.send input s in (map_err (λ _, Anyhow b#"stream failed") r, s);
  recv_frame s := let '(r, s) := frames.recv s in (map_err (λ _, Anyhow b#"stream failed") r, s)
|}.

(** ** A TCP stream

    What arrives, segment by segment; a read gives bytes of one segment.  The empty
    segment is the end of the stream.  A timeout of the socket, or of the whole
    call in [libp2p_net.rs], is a failure where it strikes. *)
Inductive ReadEvent : Type := Segment (b : bytes) | ReadFailed (e : io_error).
Inductive WriteEvent : Type := Accepted (n : nat) | WriteFailed (e : io_error).
Record TcpStream : Type := mkTcp { tc_reads : list ReadEvent; tc_writes : list WriteEvent; tc_sent : bytes }.

(** The loops of the standard library; a call that was interrupted is repeated. *)
Fixpoint read_exact_loop (n : nat) (events : list ReadEvent) : result io_error bytes * list ReadEvent :=
  match n, events with
  | O, _ => (Ok [], events)
  | _, [] => (Err UnexpectedEof, [])
  | _, ReadFailed Interrupted :: events => read_exact_loop n events
  | _, ReadFailed e :: events => (Err e, events)
  | _, Segment [] :: events => (Err UnexpectedEof, events)
  | _, Segment b :: events =>
      if (length b <=? n)%nat
      then let '(r, events) := read_exact_loop (n - length b) events in ((let? rest := r in Ok (b ++ rest)), events)
      else (Ok (take n b), Segment (drop n b) :: events)
  end.
Fixpoint write_all_loop (b : bytes) (events : list WriteEvent) (sent : bytes)
    : result io_error unit * list WriteEvent * bytes :=
  match b, events with
  | [], _ => (Ok tt, events, sent)
  | _, [] => (Ok tt, [], sent ++ b)
  | _, WriteFailed Interrupted :: events => write_all_loop b events sent
  | _, WriteFailed e :: events => (Err e, events, sent)
  | _, Accepted O :: events => (Err WriteZero, events, sent)
  | _, Accepted n :: events => write_all_loop (drop n b) events (sent ++ take n b)
  end.
#[export] Instance TcpStream_bytes : ByteStream TcpStream := {
  read_exact n s :=
    let '(r, events) := read_exact_loop n (tc_reads s) in (r, mkTcp events (tc_writes s) (tc_sent s));
  write_all b s :=
    let '(r, events, sent) := write_all_loop b (tc_writes s) (tc_sent s) in (r, mkTcp (tc_reads s) events sent);
  flush s := (Ok tt, s)
}.

(** ** [libp2p_net.rs]: addresses *)
Inductive Protocol (Id : Type) : Type :=
  | Ip4 (address : arr 4) | Dns4 (name : str) | Ip6 (address : arr 16)
  | Tcp (port : u16) | Udp (port : u16) | QuicV1 | P2p (id : Id) | OtherProtocol (name : str).
Arguments Ip4 {Id} _.
Arguments Dns4 {Id} _.
Arguments Ip6 {Id} _.
Arguments Tcp {Id} _.
Arguments Udp {Id} _.
Arguments QuicV1 {Id}.
Arguments P2p {Id} _.
Arguments OtherProtocol {Id} _.

Inductive SocketAddr : Type := V4 (address : arr 4) (port : u16) | V6 (address : arr 16) (port : u16).

Module libp2p.
Section Addresses.
(** The peer ids, and the parsers of [multiaddr] and of socket addresses. *)
Context {Id : Type} (parse : str → option (list (Protocol Id))) (parse_socket : str → option SocketAddr).
Abbreviation Multiaddr := (list (Protocol Id)).

Definition no_ipv4 : error := Anyhow b#"IPv4 is not a Mycellium transport address".
Fixpoint ensure_no_ipv4 (address : Multiaddr) : result error unit :=
  match address with
  | [] => Ok tt
  | (Ip4 _ | Dns4 _) :: _ => Err no_ipv4
  | _ :: address => ensure_no_ipv4 address
  end.

(** The last peer id, and the address without the peer ids. *)
Definition peer_and_base_multiaddr (addr : Multiaddr) : option (Id * Multiaddr) :=
  let '(peer, base) := fold_left (λ '(peer, base) protocol,
    match protocol with P2p id => (Some id, base) | other => (peer, base ++ [other]) end) addr (None, []) in
  option_map (λ id, (id, base)) peer.
Definition peer_from_multiaddr (addr : Multiaddr) : option Id :=
  fold_left (λ acc p, match p with P2p peer => Some peer | _ => acc end) addr None.

Definition parse_multiaddr (addr : str) : result error Multiaddr :=
  let? parsed := ok_or (Anyhow (b#"'" ++ addr ++ b#"' is not a valid multiaddr")) (parse addr) in
  let? _ := ensure_no_ipv4 parsed in
  Ok parsed.
Fixpoint parse_multiaddrs (addrs : list str) : result error (list Multiaddr) :=
  match addrs with
  | [] => Ok []
  | addr :: addrs =>
      let? parsed := parse_multiaddr addr in
      if negb (bool_decide (is_Some (peer_and_base_multiaddr parsed)))
      then Err (Anyhow (b#"bootstrap multiaddr must include /p2p/<peer-id>: " ++ addr))
      else let? rest := parse_multiaddrs addrs in Ok (parsed :: rest)
  end.

(** [None]: unreachable. *)
Definition socket_to_multiaddr (socket : SocketAddr) : option Multiaddr :=
  match socket with V4 _ _ => None | V6 ip port => Some [Ip6 ip; Tcp port] end.
Definition is_ipv4 (socket : SocketAddr) : bool := match socket with V4 _ _ => true | V6 _ _ => false end.
Definition listen_multiaddr (addr : str) : result error (option Multiaddr) :=
  let? socket := ok_or (Anyhow b#"address must be IPv6 host:port, e.g. [::1]:9001") (parse_socket addr) in
  if is_ipv4 socket then Err no_ipv4 else Ok (socket_to_multiaddr socket).
Definition quic_listen_multiaddr (addr : str) : result error Multiaddr :=
  let? socket := ok_or (Anyhow b#"address must be IPv6 host:port, e.g. [::]:0") (parse_socket addr) in
  match socket with
  | V4 _ _ => Err no_ipv4
  | V6 ip port => Ok [Ip6 ip; Udp port; QuicV1]
  end.
End Addresses.
End libp2p.

(** ** [net.rs]: dialling and accepting over TCP

    Sockets belong to the host; only IPv6 is ever used. *)
Module net.
Class Sockets (C L H : Type) : Type := {
  to_socket_addrs : str → H → result io_error (list SocketAddr) * H;
  connect_timeout : SocketAddr → H → result io_error C * H;
  set_timeouts : C → result io_error unit;
  tcp_bind : SocketAddr → H → result io_error L * H;
  tcp_accept : L → H → result io_error C * H
}.
#[global] Hint Mode Sockets ! ! ! : typeclass_instances.

Section Net.
Context {C L H : Type} `{!Sockets C L H}.
Abbreviation Io A := (H → result io_error A * H).

(** The first IPv6 address of a name. *)
Definition resolve_ipv6 (addr : str) : Io SocketAddr := λ h,
  let '(found, h) := to_socket_addrs (C := C) (L := L) addr h in
  ((let? addrs := found in ok_or InvalidInput (List.find (λ a, negb (libp2p.is_ipv4 a)) addrs)), h).

Definition dial_timed (addr : str) : Io C := λ h,
  let '(sockaddr, h) := resolve_ipv6 addr h in
  match sockaddr with
  | Err e => (Err e, h)
  | Ok sockaddr =>
      let '(stream, h) := connect_timeout (L := L) sockaddr h in
      ((let? stream := stream in let? _ := set_timeouts (L := L) (H := H) stream in Ok stream), h)
  end.

(** [TcpTransport]: the listener, if there is one. *)
Definition dialer : option L := None.
Definition listening (addr : str) : Io (option L) := λ h,
  let '(sockaddr, h) := resolve_ipv6 addr h in
  match sockaddr with
  | Err e => (Err e, h)
  | Ok sockaddr => let '(listener, h) := tcp_bind (C := C) sockaddr h in ((let? l := listener in Ok (Some l)), h)
  end.
Definition dial (peer : bytes) : Io C := λ h,
  match from_utf8 peer with None => (Err InvalidInput, h) | Some addr => dial_timed addr h end.
Definition accept (listener : option L) : Io C := λ h,
  match listener with
  | None => (Err OtherKind, h)
  | Some listener =>
      let '(stream, h) := tcp_accept (C := C) listener h in
      ((let? stream := stream in let? _ := set_timeouts (L := L) (H := H) stream in Ok stream), h)
  end.
End Net.
End net.

(** ** [libp2p_net.rs]: queries of the hash table

    The events of the swarm until the query ends; [Deadline] is the timeout, and
    so is the end of the list: nothing more arrives. *)
Module dht.
Inductive GetRecord : Type :=
  | FoundRecord (value : bytes)
  | FinishedWithNoAdditionalRecord
  | GetNotFound
  | GetFailed (message : str).
Inductive SwarmEvent (Q : Type) : Type :=
  | PutResult (id : Q) (result : result str unit)
  | GetResult (id : Q) (result : GetRecord) (last : bool)
  | OtherEvent
  | Deadline.
Arguments PutResult {Q} _ _.
Arguments GetResult {Q} _ _ _.
Arguments OtherEvent {Q}.
Arguments Deadline {Q}.

Section Queries.
Context {Q : Type} `{!EqDecision Q}.

Fixpoint put_wait (query : Q) (events : list (SwarmEvent Q)) : result error unit :=
  match events with
  | [] | Deadline :: _ => Err (Anyhow b#"dht put timed out")
  | PutResult id result :: events =>
      if bool_decide (id = query) then map_err (λ err, Anyhow (b#"dht put failed: " ++ err)) result
      else put_wait query events
  | _ :: events => put_wait query events
  end.

Fixpoint get_wait (query : Q) (events : list (SwarmEvent Q)) (records : list bytes) : result error (list bytes) :=
  match events with
  | [] | Deadline :: _ => Err (Anyhow b#"dht get timed out")
  | GetResult id result last :: events =>
      if bool_decide (id = query)
      then
        match result with
        | FoundRecord value => if last : bool then Ok (records ++ [value]) else get_wait query events (records ++ [value])
        | FinishedWithNoAdditionalRecord => Ok records
        | GetNotFound => Ok records
        | GetFailed err => Err (Anyhow (b#"dht get failed: " ++ err))
        end
      else get_wait query events records
  | _ :: events => get_wait query events records
  end.
End Queries.

(** A swarm: its construction, its addresses and its queries are libp2p's. *)
Class Swarm (Id Sw : Type) : Type := {
  query_id : Type;
  query_eq :: EqDecision query_id;
  listen_on : list (Protocol Id) → Sw → result str unit * Sw;
  add_address : Id → list (Protocol Id) → Sw → Sw;
  bootstrap : Sw → Sw;
  swarm_dial : list (Protocol Id) → Sw → Sw;
  put_record : bytes → bytes → Sw → result str query_id * Sw;
  get_record : bytes → Sw → query_id * Sw
}.
Class SwarmHost (Id Sw H : Type) `{!Swarm Id Sw} : Type := {
  new_swarm : arr 32 → H → result error Sw * H;
  events_of : Sw → H → list (SwarmEvent query_id) * H
}.

Section Dht.
Context {Id Sw H : Type} `{!Swarm Id Sw, !SwarmHost Id Sw H}.
Abbreviation Multiaddr := (list (Protocol Id)).

Definition add_bootstrap_peers (addrs : list Multiaddr) (swarm : Sw) : Sw :=
  let swarm := fold_left (λ swarm addr,
    match libp2p.peer_and_base_multiaddr addr with
    | Some (peer, base) => add_address peer base swarm
    | None => swarm
    end) addrs swarm in
  match addrs with [] => swarm | _ => bootstrap swarm end.

(** What both calls do before the query. *)
Definition join (device_secret : arr 32) (listen_addr : option Multiaddr) (addrs : list Multiaddr)
    : M H Sw := λ h,
  let '(swarm, h) := new_swarm device_secret h in
  match swarm with
  | Err e => (Err e, h)
  | Ok swarm =>
      let '(listening, swarm) := match listen_addr with
                                 | Some addr => listen_on addr swarm
                                 | None => (Ok tt, swarm)
                                 end in
      match listening with
      | Err e => (Err (Anyhow (b#"listen: " ++ e)), h)
      | Ok _ => (Ok (fold_left (λ swarm addr, swarm_dial addr swarm) addrs (add_bootstrap_peers addrs swarm)), h)
      end
  end.

Definition dht_put (device_secret : arr 32) (listen_addr : option Multiaddr) (addrs : list Multiaddr)
    (key value : bytes) : M H unit :=
  match addrs with
  | [] => errM (Anyhow b#"dht publish needs at least one bootstrap peer")
  | _ =>
      let! swarm := join device_secret listen_addr addrs in
      let '(query, swarm) := put_record key value swarm in
      let! query := liftM (map_err (λ e, Anyhow (b#"dht put failed to start: " ++ e)) query) in
      λ h, let '(events, h) := events_of swarm h in (put_wait query events, h)
  end.

Definition dht_get_records (device_secret : arr 32) (listen_addr : option Multiaddr) (addrs : list Multiaddr)
    (key : bytes) : M H (list bytes) :=
  match addrs with
  | [] => errM (Anyhow b#"dht lookup needs at least one bootstrap peer")
  | _ =>
      let! swarm := join device_secret listen_addr addrs in
      let '(query, swarm) := get_record key swarm in
      λ h, let '(events, h) := events_of swarm h in (get_wait query events [], h)
  end.
End Dht.
End dht.

(** What the command line client uses of it. *)
Definition swarm_dht {Id Sw H} `{!dht.Swarm Id Sw, !dht.SwarmHost Id Sw H}
    (parse : str → option (list (Protocol Id))) (parse_socket : str → option SocketAddr) : DhtNet H := {|
  Multiaddr := list (Protocol Id);
  P2pMultiaddr := list (Protocol Id);
  listen_multiaddr addr := let? found := libp2p.listen_multiaddr parse_socket addr in
                           ok_or (Anyhow b#"unreachable") found;
  parse_multiaddrs := libp2p.parse_multiaddrs parse;
  dht_get_records := dht.dht_get_records (Sw := Sw);
  dht_put := dht.dht_put (Sw := Sw)
|}.

(** ** [libp2p_net.rs]: dialling

    [open_stream] and the command channel to the task that drives the swarm. *)
Module dialer.
Class Control (Id C H : Type) : Type := {
  open_stream : Id → H → option C * H;
  try_send_dial : list (Protocol Id) → H → bool * H
}.
#[global] Hint Mode Control ! ! ! : typeclass_instances.

Section Dial.
Context {Id C H : Type} `{!Control Id C H} (parse : str → option (list (Protocol Id))) (show_peer : Id → str).

Definition ATTEMPTS : nat := 100.
Fixpoint retry (n : nat) (peer : Id) : M H C := λ h,
  match n with
  | O => (Err (Anyhow (b#"could not open a stream to " ++ show_peer peer)), h)
  | Datatypes.S n =>
      match open_stream peer h with
      | (Some stream, h) => (Ok stream, h)
      | (None, h) => retry n peer h
      end
  end.

(** The connection is its peer and its stream. *)
Definition dial (target : list (Protocol Id)) : M H (Id * C) :=
  let! _ := liftM (libp2p.ensure_no_ipv4 target) in
  let! peer := liftM (ok_or (Anyhow b#"multiaddr is missing a /p2p/<peer-id> component")
                        (libp2p.peer_from_multiaddr target)) in
  λ h,
    match open_stream peer h with
    | (Some stream, h) => (Ok (peer, stream), h)
    | (None, h) =>
        let '(sent, h) := try_send_dial (C := C) target h in
        if negb sent then (Err (Anyhow b#"libp2p swarm stopped"), h)
        else (let! stream := retry ATTEMPTS peer in retM (peer, stream)) h
    end.
Definition dial_str (target : str) : M H (Id * C) :=
  let! addr := liftM (ok_or (Anyhow (b#"'" ++ target ++ b#"' is not a valid multiaddr")) (parse target)) in
  dial addr.
End Dial.

(** ** Waiting for a stream or an address

    What the channel or the timer gave: [None] is the timeout, [Some None] the end
    of the channel. *)
Definition accept {C : Type} (next : option C) : result error C := ok_or (Anyhow b#"stream listener closed") next.
Definition accept_timeout {C : Type} (next : option (option C)) : result error (option C) :=
  match next with
  | None => Ok None
  | Some (Some stream) => Ok (Some stream)
  | Some None => Err (Anyhow b#"stream listener closed")
  end.
Definition listen_addr {A : Type} (next : option (option A)) : result error A :=
  match next with
  | Some (Some addr) => Ok addr
  | Some None => Err (Anyhow b#"swarm event channel closed")
  | None => Err (Anyhow b#"timed out waiting for a listen address")
  end.
End dialer.

(** ** [reticulum_net.rs] *)

(** [split] at separators, with the empty parts left out. *)
Definition separators : list str := b#"," :: b#";" :: white_space.
Fixpoint split_nodes (fuel : nat) (part s : str) : list str :=
  let rest := match part with [] => [] | _ => [part] end in
  match fuel, s with
  | Datatypes.S fuel, c :: s' =>
      match strip_any separators s with
      | Some s => rest ++ split_nodes fuel [] s
      | None => split_nodes fuel (part ++ [c]) s'
      end
  | _, _ => rest
  end.
(** [ReticulumConfig::from_env], of the value of the variable. *)
Definition tcp_nodes (value : option str) : list str :=
  match value with Some value => split_nodes (length value) [] value | None => [] end.

Module reticulum.
Abbreviation AddressHash := (arr 16).

(** What the transport reports: data for a destination, the end of a resource with
    its data if it was completed; [Lagged] is a missed event. *)
Inductive TransportEvent : Type :=
  | Data (destination : AddressHash) (data : bytes)
  | Resource (link_id : AddressHash) (complete : option bytes)
  | Lagged
  | Deadline.

(** [rns_transport], over the host [H]. *)
Class Rns (T H : Type) : Type := {
  rns_new : arr 64 → list str → H → result error (T * AddressHash) * H;
  rns_link : T → AddressHash → H → AddressHash * H;
  await_link_activation : T → AddressHash → H → result error unit * H;
  send_on_link : T → AddressHash → bytes → H → result error unit * H;
  find_in_link : T → AddressHash → H → bool * H;
  find_out_link : T → AddressHash → H → bool * H;
  transport_events : T → H → list TransportEvent * H;
  received : T → H → option bytes * H
}.
#[global] Hint Mode Rns ! ! : typeclass_instances.

Fixpoint await_reply (link_id : AddressHash) (events : list TransportEvent) : result error bytes :=
  match events with
  | [] | Deadline :: _ => Err (Anyhow b#"Reticulum reply timed out")
  | Data destination data :: events =>
      if bool_decide (destination = link_id) then Ok data else await_reply link_id events
  | Resource link complete :: events =>
      if negb (bool_decide (link = link_id)) then await_reply link_id events
      else match complete with Some data => Ok data | None => await_reply link_id events end
  | Lagged :: events => await_reply link_id events
  end.

(** The two forwarders: the frames that each puts into the inbound queue, with the
    link to reply on.  [None] is an error of the channel, which ends the task: a
    channel that has lost events to a slow reader answers with one. *)
Fixpoint forward_data (local_address : AddressHash) (events : list (option (AddressHash * bytes)))
    : list (bytes * AddressHash) :=
  match events with
  | [] | None :: _ => []
  | Some (destination, data) :: events =>
      if bool_decide (destination = local_address) then forward_data local_address events
      else (data, destination) :: forward_data local_address events
  end.
Fixpoint forward_resources (events : list (option (AddressHash * option bytes))) : list (bytes * AddressHash) :=
  match events with
  | [] | None :: _ => []
  | Some (link_id, Some data) :: events => (data, link_id) :: forward_resources events
  | Some (_, None) :: events => forward_resources events
  end.

Record Node (T : Type) : Type := mkNode { nd_transport : T; nd_address : AddressHash; nd_running : bool }.
Arguments mkNode {T} _ _ _.
Arguments nd_transport {T} _.
Arguments nd_address {T} _.
Arguments nd_running {T} _.

Section Node.
Context {crypto : Crypto} {T H : Type} `{!Rns T H}.
(** The destination of the application's name under two keys, as [rns_transport] computes it. *)
Context (rns_address : arr 32 → arr 32 → AddressHash).

Definition destination_desc (destination : ReticulumPublicIdentity) : result error AddressHash :=
  if negb (reticulum_verify destination) then Err (Anyhow b#"invalid Reticulum destination identity")
  else
    let desc := rns_address (encryption_key destination) (signing_key destination) in
    if negb (bool_decide (desc = address destination)) then Err (Anyhow b#"Reticulum destination address mismatch")
    else Ok desc.

Definition new (private_bytes : arr 64) (config : list str) : M H (Node T) :=
  let! (transport, address) := rns_new private_bytes config in
  retM (mkNode transport address true).

Definition send_and_wait (node : Node T) (destination : ReticulumPublicIdentity) (frame : bytes) : M H bytes :=
  let! desc := liftM (destination_desc destination) in
  λ h,
    let '(link_id, h) := rns_link (nd_transport node) desc h in
    (let! _ := await_link_activation (nd_transport node) link_id in
     let! _ := send_on_link (nd_transport node) link_id frame in
     λ h, let '(events, h) := transport_events (nd_transport node) h in (await_reply link_id events, h)) h.

Definition recv_timeout (node : Node T) : M H (option bytes) := λ h,
  if negb (nd_running node) then (Ok None, h)
  else let '(frame, h) := received (nd_transport node) h in (Ok frame, h).

Definition send_on_existing_link (node : Node T) (link_id : AddressHash) (input : bytes) : M H unit := λ h,
  let '(inside, h) := find_in_link (nd_transport node) link_id h in
  if inside : bool then send_on_link (nd_transport node) link_id input h
  else
    let '(outside, h) := find_out_link (nd_transport node) link_id h in
    if outside : bool then send_on_link (nd_transport node) link_id input h
    else (Err (Anyhow b#"Reticulum link is gone"), h).

Definition shutdown (node : Node T) : Node T := mkNode (nd_transport node) (nd_address node) false.
End Node.
End reticulum.
