(* ===== verification/TransportProps.v ===== *)
(** * TransportProps: what the transports guarantee

    Frames survive any fragmentation of the stream they are sent over, and any
    failure leaves the receiver with frames that were sent; IPv4 is never used; a
    query and a request are answered by their own events only. *)

From S2P Require Import Prelude Std Crypto Identity Message Runtime Transport.

(** ** Frames over a stream *)
Section Frames.
Context {S : Type} `{!ByteStream S, !StreamLaws S}.
Import frames.

Definition frame_size (b : bytes) : u64 := usat 64 (N.of_nat (length b)).
Definition small (b : bytes) : Prop := (N.of_nat (length b) ≤ MAX_FRAME)%N.
Definition header (b : bytes) : arr 4 :=
  match frame_header (frame_size b) with Ok h => h | Err _ => arr_fit 4 [] end.
Definition enc (b : bytes) : bytes := arr_bytes (header b) ++ b.
Definition encs (l : list bytes) : bytes := concat (map enc l).

Lemma small_dec b : {small b} + {(MAX_FRAME < N.of_nat (length b))%N}.
Proof. unfold small. destruct (decide (N.of_nat (length b) ≤ MAX_FRAME)%N); [left|right]; lia. Qed.
Lemma header_small b : small b →
  frame_header (frame_size b) = Ok (header b) ∧ frame_len (header b) = Ok (frame_size b) ∧
  N.to_nat (u_val (frame_size b)) = length b.
Proof.
  intros Hb. assert (u_val (frame_size b) = N.of_nat (length b)) as Hn.
  { unfold frame_size. rewrite u_val_usat. unfold small, MAX_FRAME in Hb. lia. }
  pose proof (proj1 (frame_roundtrip (frame_size b) (arr_fit 4 []))) as H. unfold header.
  destruct (frame_header (frame_size b)) as [h|e]; [|destruct H as [_ H]; unfold small in Hb; lia].
  destruct H as [_ ->]. split_and!; [done..|lia].
Qed.
Lemma header_large b : (MAX_FRAME < N.of_nat (length b))%N → is_ok (frame_header (frame_size b)) = false.
Proof.
  intros Hb. unfold frame_header, frame_size. rewrite u_val_usat.
  destruct (N.ltb_spec MAX_FRAME (N.min (N.of_nat (length b)) (2 ^ 64 - 1))) as [|Hl]; [done|].
  unfold MAX_FRAME in *. lia.
Qed.

(** A frame is written whole, or in part when sending it fails. *)
Lemma send_spec b s :
  let '(r, s') := send b s in
  incoming s' = incoming s ∧
  match r with
  | Ok _ => small b ∧ outgoing s' = outgoing s ++ enc b
  | Err _ => ∃ k, outgoing s' = outgoing s ++ take k (if small_dec b then enc b else [])
  end.
Proof.
  unfold send. fold (frame_size b). destruct (small_dec b) as [Hb|Hb].
  2: { pose proof (header_large b Hb) as Hh. destruct (frame_header _); [done|].
       split; [done|]. exists 0%nat. by rewrite take_0, app_nil_r. }
  destruct (header_small b Hb) as (-> & _ & _). unfold enc.
  pose proof (write_all_spec (arr_bytes (header b)) s) as Hw.
  destruct (write_all _ s) as [[u|e] s1]; destruct Hw as [Hi Ho].
  2: { split; [done|]. destruct Ho as [k Ho]. exists (k `min` length (arr_bytes (header b)))%nat.
       rewrite Ho, take_app_le by lia. f_equal.
       destruct (decide (k <= length (arr_bytes (header b)))%nat).
       - by rewrite Nat.min_l.
       - rewrite Nat.min_r by lia. by rewrite (take_ge _ k), take_ge by lia. }
  pose proof (write_all_spec b s1) as Hw. destruct (write_all b s1) as [[u'|e] s2]; destruct Hw as [Hi2 Ho2].
  - pose proof (flush_spec s2) as Hf. destruct (flush s2) as [r s3]. destruct Hf as [Hi3 Ho3].
    split; [congruence|]. assert (outgoing s3 = outgoing s ++ arr_bytes (header b) ++ b) as Hout
      by (rewrite Ho3, Ho2, Ho; by rewrite (assoc (++))).
    destruct r; [done|]. exists (length (arr_bytes (header b) ++ b)). by rewrite take_ge.
  - split; [congruence|]. destruct Ho2 as [k Ho2]. exists (length (arr_bytes (header b)) + k)%nat.
    rewrite Ho2, Ho, take_app_add. by rewrite (assoc (++)).
Qed.

(** What several frames, the last of which may have failed, leave on the stream. *)
Lemma send_each_spec inputs s :
  let '(n, s') := send_each inputs s in
  ∃ whole part, outgoing s' = outgoing s ++ encs whole ++ part ∧ Forall small whole ∧
    (n = length inputs ∧ whole = inputs ∧ part = [] ∨
     (n < length inputs)%nat ∧ ∃ b rest k, inputs = whole ++ b :: rest ∧
        part = take k (if small_dec b then enc b else [])).
Proof.
  revert s. induction inputs as [|b inputs IH]; intros s; cbn [send_each].
  { exists [], []. rewrite app_nil_r. split_and!; [done|constructor|by left]. }
  pose proof (send_spec b s) as Hs. destruct (send b s) as [[u|e] s1]; destruct Hs as [_ Hs].
  - destruct Hs as [Hb Ho]. specialize (IH s1). destruct (send_each inputs s1) as [n s2].
    destruct IH as (whole & part & Hout & Hall & Hcase). exists (b :: whole), part. split_and!.
    + rewrite Hout, Ho. unfold encs. cbn [map concat]. by rewrite <-!(assoc (++)).
    + by constructor.
    + cbn [length]. destruct Hcase as [(-> & -> & ->)|(Hn & b' & rest & k & -> & ->)]; [by left|right].
      split; [lia|]. by exists b', rest, k.
  - destruct Hs as [k Ho]. exists [], (take k (if small_dec b then enc b else [])). split_and!.
    + done.
    + constructor.
    + right. split; [cbn; lia|]. by exists b, inputs, k.
Qed.

(** The next bytes that are read, of a stream that goes on as [l]. *)
Lemma read_prefix n t (l : bytes) b t' :
  (n <= length l)%nat → incoming t `prefix_of` l → read_exact n t = (Ok b, t') →
  b = take n l ∧ incoming t = take n l ++ incoming t' ∧ incoming t' `prefix_of` drop n l.
Proof.
  intros Hn [z Hz] Hr. pose proof (read_exact_spec n t) as Hs. rewrite Hr in Hs.
  destruct Hs as (_ & [Hlen Hin] & _). rewrite Hin, <-(assoc (++)) in Hz.
  assert (b = take n l) as -> by (rewrite Hz, <-Hlen; by rewrite take_app_length).
  split_and!; [done|done|]. exists z. rewrite Hz at 1. by rewrite drop_app_length'.
Qed.

Lemma recv_spec b rest t : small b → incoming t `prefix_of` enc b ++ rest →
  let '(r, t') := recv t in
  match r with
  | Ok b' => b' = b ∧ incoming t = enc b ++ incoming t' ∧ incoming t' `prefix_of` rest
  | Err _ => True
  end ∧
  (unbroken t → incoming t = enc b ++ rest → is_ok r = true ∧ unbroken t').
Proof.
  intros Hb Hin. destruct (header_small b Hb) as (_ & Hlen & Hsize). unfold recv.
  assert (length (arr_bytes (header b)) = 4%nat) as H4 by apply arr_length.
  pose proof (read_exact_spec 4 t) as Hr. unfold enc in *. rewrite <-(assoc (++)) in Hin.
  assert (unbroken t → incoming t = (arr_bytes (header b) ++ b) ++ rest →
          is_ok (read_exact 4 t).1 = true ∧ unbroken (read_exact 4 t).2) as Hok4.
  { intros Hu Ht. destruct (read_exact 4 t) as [r1 t1]. destruct Hr as (_ & _ & Hr). apply Hr; [done|].
    rewrite Ht, !length_app. lia. }
  destruct (read_exact 4 t) as [[h|e] t1] eqn:Hread.
  2: { split; [done|]. intros Hu Ht. by destruct (Hok4 Hu Ht). }
  apply (read_prefix 4 t (arr_bytes (header b) ++ b ++ rest)) in Hread as (-> & Hin1 & Hpre);
    [|rewrite length_app; lia|done].
  rewrite take_app_length' in * by done. rewrite drop_app_length' in Hpre by done.
  rewrite arr_fit_arr, Hlen, Hsize. clear Hr.
  pose proof (read_exact_spec (length b) t1) as Hr.
  destruct (read_exact (length b) t1) as [[b'|e] t2] eqn:Hread.
  - destruct Hr as (_ & _ & Hr).
    apply (read_prefix (length b) t1 (b ++ rest)) in Hread as (-> & Hin2 & Hpre2); [|rewrite length_app; lia|done].
    rewrite take_app_length in *. rewrite drop_app_length in Hpre2. split.
    + split_and!; [done| |done]. by rewrite Hin1, Hin2, (assoc (++)).
    + intros Hu Ht. destruct (Hok4 Hu Ht) as [_ Hu1]. apply Hr; [done|]. rewrite Hin2, length_app. lia.
  - split; [done|]. intros Hu Ht. destruct (Hok4 Hu Ht) as [_ Hu1]. destruct Hr as (_ & _ & Hr).
    destruct (Hr Hu1) as [Hf _]; [|done]. rewrite Ht, <-(assoc (++)) in Hin1. apply (inj (_ ++.)) in Hin1.
    rewrite <-Hin1, length_app. lia.
Qed.

Lemma recv_nothing t : (length (incoming t) < 4)%nat → is_ok (recv t).1 = false.
Proof.
  intros Ht. unfold recv. pose proof (read_exact_short 4 t Ht) as Hs. by destruct (read_exact 4 t) as [[]].
Qed.

Lemma recv_each_prefix l fuel t :
  Forall small l → incoming t `prefix_of` encs l → (recv_each fuel t).1 `prefix_of` l.
Proof.
  intros Hl. revert fuel t. induction Hl as [|b l Hb Hl IH]; intros [|fuel] t Hin; cbn [recv_each fst];
    try apply prefix_nil.
  - apply prefix_nil_inv in Hin. pose proof (recv_nothing t) as Hn. rewrite Hin in Hn.
    destruct (recv t) as [[b|e] t']; [|apply prefix_nil]. specialize (Hn ltac:(cbn; lia)). discriminate Hn.
  - pose proof (recv_spec b (encs l) t Hb Hin) as Hr. destruct (recv t) as [[b'|e] t']; [|apply prefix_nil].
    destruct Hr as [(-> & _ & Hrest) _]. specialize (IH fuel t' Hrest).
    destruct (recv_each fuel t') as [l' t'']. by apply prefix_cons.
Qed.

Lemma recv_each_all l fuel t :
  Forall small l → unbroken t → incoming t = encs l → (length l <= fuel)%nat → (recv_each fuel t).1 = l.
Proof.
  intros Hl. revert fuel t. induction Hl as [|b l Hb Hl IH]; intros fuel t Hu Hin Hfuel.
  - destruct fuel as [|fuel]; [done|]. cbn [recv_each]. pose proof (recv_nothing t) as Hn. rewrite Hin in Hn.
    destruct (recv t) as [[b|e] t']; [|done]. specialize (Hn ltac:(cbn; lia)). discriminate Hn.
  - destruct fuel as [|fuel]; [cbn in Hfuel; lia|]. cbn [recv_each length] in *.
    pose proof (recv_spec b (encs l) t Hb ltac:(by rewrite Hin)) as Hr.
    destruct (recv t) as [r t']. destruct Hr as [Hr Hok]. destruct (Hok Hu Hin) as [Hr' Hu'].
    destruct r as [b'|e]; [|discriminate Hr'].
    destruct Hr as (-> & Ht & _). specialize (IH fuel t' Hu').
    destruct (recv_each fuel t') as [l' t'']. cbn [fst] in *. f_equal. apply IH; [|lia].
    rewrite Hin in Ht. unfold encs in Ht. cbn [map concat] in Ht. by apply (inj (_ ++.)) in Ht.
Qed.

(** C39: Frames that are sent over a stream until one cannot be sent, and of which
    the receiver gets some part, in segments of any size and with failures at any
    moment, come out as they went in: what is received is a beginning of what was
    sent, never a part of a frame, a frame joined to the next one or anything else;
    and it is all of it where everything was sent and arrives. *)
Theorem frames_survive_fragmentation (inputs : list bytes) (s t : S) :
  outgoing s = [] →
  let '(n, s') := send_each inputs s in
  incoming t `prefix_of` outgoing s' →
  (∀ fuel, (recv_each fuel t).1 `prefix_of` inputs) ∧
  (n = length inputs → incoming t = outgoing s' → unbroken t →
     ∀ fuel, (length inputs <= fuel)%nat → (recv_each fuel t).1 = inputs).
Proof.
  intros Hs. pose proof (send_each_spec inputs s) as Hsend. destruct (send_each inputs s) as [n s'].
  rewrite Hs in Hsend. cbn [app] in Hsend. destruct Hsend as (whole & part & Hout & Hall & Hcase). intros Hin.
  destruct Hcase as [(Hn & -> & ->)|(Hn & b & rest & k & -> & ->)]; rewrite Hout in *.
  - rewrite app_nil_r in *. split; [intros fuel; by apply recv_each_prefix|].
    intros _ Ht Hu fuel Hf. by apply recv_each_all.
  - split; [|lia]. intros fuel. destruct (small_dec b) as [Hb|Hb].
    + transitivity (whole ++ [b]).
      * apply recv_each_prefix; [apply Forall_app; split; [done|by constructor]|].
        transitivity (encs whole ++ take k (enc b)); [done|]. unfold encs. rewrite map_app, concat_app.
        apply prefix_app. cbn. rewrite app_nil_r. apply prefix_take.
      * exists rest. by rewrite <-(assoc (++)).
    + rewrite take_nil, app_nil_r in Hin. transitivity whole; [by apply recv_each_prefix|]. by exists (b :: rest).
Qed.
End Frames.

(** ** A TCP stream is a lawful stream *)
Definition arriving (events : list ReadEvent) : bytes :=
  concat (map (λ e, match e with Segment b => b | ReadFailed _ => [] end) events).
Definition steady_event (e : ReadEvent) : Prop :=
  match e with Segment b => b ≠ [] | ReadFailed e => e = Interrupted end.

Lemma read_loop_spec n events :
  let '(r, events') := read_exact_loop n events in
  match r with
  | Ok b => length b = n ∧ arriving events = b ++ arriving events'
  | Err _ => True
  end ∧
  (Forall steady_event events → (n <= length (arriving events))%nat →
     is_ok r = true ∧ Forall steady_event events').
Proof.
  revert n. induction events as [|[[|c b]|e] events IH]; intros [|n].
  all: try (split; [by split|by intros]).
  - cbn. split; [done|]. intros _ H. lia.
  - cbn. split; [done|]. intros H. by apply list.Forall_cons_1 in H as [H _].
  - cbn [read_exact_loop]. destruct (Nat.leb_spec (length (c :: b)) (S n)) as [Hl|Hl].
    + specialize (IH (S n - length (c :: b))%nat). destruct (read_exact_loop _ events) as [r events'].
      destruct IH as [Hr Hok]. split.
      * destruct r as [rest|e]; [|done]. destruct Hr as [Hn Ha]. split; [rewrite length_app; lia|].
        unfold arriving in *. cbn [map concat]. by rewrite Ha, (assoc (++)).
      * intros Hs Hlen. apply list.Forall_cons_1 in Hs as [_ Hs]. unfold arriving in *. cbn [map concat] in Hlen.
        rewrite length_app in Hlen. destruct (Hok Hs) as [Hr' Hs']; [lia|]. by destruct r.
    + split.
      * rewrite length_take. split; [lia|]. unfold arriving. cbn [map concat].
        by rewrite (assoc (++)), take_drop.
      * intros Hs _. apply list.Forall_cons_1 in Hs as [_ Hs]. split; [done|]. constructor; [|done].
        cbn. intros H. apply (f_equal length) in H. rewrite length_drop in H. cbn in *. lia.
  - cbn [read_exact_loop]. destruct e; try (split; [done|]; intros H; apply list.Forall_cons_1 in H as [H _]; discriminate H).
    specialize (IH (S n)). destruct (read_exact_loop (S n) events) as [r events']. destruct IH as [Hr Hok].
    split; [done|]. intros Hs. apply list.Forall_cons_1 in Hs as [_ Hs]. by apply Hok.
Qed.

Lemma write_loop_spec b events sent :
  let '(r, events', sent') := write_all_loop b events sent in
  match r with Ok _ => sent' = sent ++ b | Err _ => ∃ k, sent' = sent ++ take k b end.
Proof.
  revert b sent. induction events as [|[[|n]|e] events IH]; intros [|c b] sent; cbn [write_all_loop];
    try by rewrite app_nil_r.
  - done.
  - exists 0%nat. by rewrite take_0, app_nil_r.
  - specialize (IH (drop (S n) (c :: b)) (sent ++ take (S n) (c :: b))).
    destruct (write_all_loop _ _ _) as [[[u|e] events'] sent'].
    + by rewrite <-(assoc (++)), take_drop in IH.
    + destruct IH as [k IH]. exists (S n + k)%nat. rewrite IH, <-(assoc (++)). f_equal. apply take_take_drop.
  - destruct e; try (exists 0%nat; by rewrite take_0, app_nil_r). apply IH.
Qed.

#[export] Instance TcpStream_laws : StreamLaws TcpStream.
Proof.
  refine {| incoming s := arriving (tc_reads s); outgoing := tc_sent;
            unbroken s := Forall steady_event (tc_reads s) |}.
  - intros n s. cbn. pose proof (read_loop_spec n (tc_reads s)) as H.
    destruct (read_exact_loop n (tc_reads s)) as [r events]. by destruct H.
  - intros n s Hn. cbn. pose proof (read_loop_spec n (tc_reads s)) as H.
    destruct (read_exact_loop n (tc_reads s)) as [[b|e] events]; [|done]. destruct H as [[Hb Ha] _].
    rewrite Ha, length_app in Hn. lia.
  - intros b s. cbn. pose proof (write_loop_spec b (tc_writes s) (tc_sent s)) as H.
    by destruct (write_all_loop b (tc_writes s) (tc_sent s)) as [[r events] sent].
  - by intros s.
Defined.

(** ** Addresses *)
Section Addresses.
Context {Id : Type} (parse : str → option (list (Protocol Id))).
Import libp2p.

Definition not_ipv4 (p : Protocol Id) : Prop := match p with Ip4 _ | Dns4 _ => False | _ => True end.
Definition is_peer (p : Protocol Id) : bool := match p with P2p _ => true | _ => false end.

Lemma ensure_no_ipv4_spec addr : ensure_no_ipv4 addr = Ok tt ↔ Forall not_ipv4 addr.
Proof.
  induction addr as [|p addr IH]; [by split|]. rewrite list.Forall_cons, <-IH.
  destruct p; cbn; split; try done; by intros [].
Qed.

Lemma peer_and_base_spec addr :
  peer_and_base_multiaddr addr =
  option_map (λ id, (id, List.filter (λ p, negb (is_peer p)) addr)) (peer_from_multiaddr addr).
Proof.
  unfold peer_and_base_multiaddr, peer_from_multiaddr.
  assert (∀ peer base, fold_left (λ '(peer, base) protocol,
      match protocol with P2p id => (Some id, base) | other => (peer, base ++ [other]) end) addr (peer, base) =
    (fold_left (λ acc p, match p with P2p peer => Some peer | _ => acc end) addr peer,
     base ++ List.filter (λ p, negb (is_peer p)) addr)) as H.
  { induction addr as [|p addr IH]; intros peer base; cbn; [by rewrite app_nil_r|].
    destruct p; cbn; rewrite IH; by rewrite <-?(assoc (++)). }
  by rewrite H.
Qed.

(** The bootstrap addresses of the hash table are exactly the ones given, each with
    a peer to ask and none over IPv4; one that is not is an error. *)
Theorem bootstrap_addresses (addrs : list str) :
  match parse_multiaddrs parse addrs with
  | Ok parsed => Forall2 (λ addr a, parse addr = Some a ∧ Forall not_ipv4 a ∧ is_Some (peer_from_multiaddr a)) addrs parsed
  | Err _ => ∃ addr, addr ∈ addrs ∧
      ∀ a, parse addr = Some a → ¬ Forall not_ipv4 a ∨ peer_from_multiaddr a = None
  end.
Proof.
  induction addrs as [|addr addrs IH]; cbn [parse_multiaddrs]; [constructor|].
  unfold parse_multiaddr. destruct (parse addr) as [a|] eqn:Hp; cbn [ok_or bind_result].
  2: { exists addr. split; [by left|]. by rewrite Hp. }
  destruct (ensure_no_ipv4 a) as [[]|e] eqn:He; cbn [bind_result].
  2: { exists addr. split; [by left|]. intros a' Ha'. rewrite Hp in Ha'. injection Ha' as <-. left.
       intros H. apply ensure_no_ipv4_spec in H. congruence. }
  rewrite peer_and_base_spec. destruct (peer_from_multiaddr a) as [id|] eqn:Hid; cbn [option_map].
  - rewrite bool_decide_eq_true_2 by eauto. cbn [negb].
    destruct (parse_multiaddrs parse addrs) as [parsed|e].
    + constructor; [|done]. split_and!; [done|by apply ensure_no_ipv4_spec|by eexists].
    + destruct IH as (x & Hx & H). exists x. split; [by right|done].
  - rewrite bool_decide_eq_false_2 by (by intros []). exists addr. split; [by left|].
    intros a' Ha'. rewrite Hp in Ha'. injection Ha' as <-. by right.
Qed.
End Addresses.

(** ** Waiting for an answer *)
Section Waiting.
Context {Q : Type} `{!EqDecision Q}.
Import dht.

(** The values that the events report for a query. *)
Definition found (query : Q) (events : list (SwarmEvent Q)) : list bytes :=
  omap (λ e, match e with
             | GetResult id (FoundRecord value) _ => if bool_decide (id = query) then Some value else None
             | _ => None
             end) events.

(** A lookup that succeeds gives the values found for its own query before it
    ended and before the deadline, all of them, in their order. *)
Lemma get_wait_exact query events acc records :
  get_wait query events acc = Ok records →
  ∃ seen rest, events = seen ++ rest ∧ (Deadline ∉ seen) ∧ records = acc ++ found query seen.
Proof.
  revert acc. induction events as [|e events IH]; intros acc; [done|].
  destruct e as [id r|id r last| |]; cbn [get_wait]; [..|done].
  1,3: intros H; destruct (IH _ H) as (seen & rest & -> & Hd & ->); eexists (_ :: seen), rest;
       split_and!; [done|by apply not_elem_of_cons|done].
  case_bool_decide as Hid.
  - assert (∀ o, match r with FoundRecord v => Some v | _ => None end = o → ∀ acc,
      (match o with Some v => acc ++ [v] | None => acc end) = acc ++ found query [GetResult id r last]) as Hone.
    { intros o <- acc0. unfold found. cbn. destruct r; cbn; rewrite ?app_nil_r; try done.
      by rewrite bool_decide_eq_true_2. }
    assert (∀ records, records = acc ++ found query [GetResult id r last] →
      ∃ seen rest, GetResult id r last :: events = seen ++ rest ∧ (Deadline ∉ seen) ∧ records = acc ++ found query seen) as Hend.
    { intros l ->. exists [GetResult id r last], events. split_and!; [done| |done].
      by intros H; apply list_elem_of_singleton in H. }
    destruct r as [v| | |err]; [destruct last| | |done].
    + intros [= <-]. apply Hend. apply (Hone (Some v) eq_refl).
    + intros H. destruct (IH _ H) as (seen & rest & -> & Hd & ->). eexists (_ :: seen), rest. split_and!; [done| |].
      * by apply not_elem_of_cons.
      * unfold found. cbn. rewrite bool_decide_eq_true_2 by done. by rewrite <-(assoc (++)).
    + intros [= <-]. apply Hend. apply (Hone None eq_refl).
    + intros [= <-]. apply Hend. apply (Hone None eq_refl).
  - intros H. destruct (IH _ H) as (seen & rest & -> & Hd & ->). eexists (_ :: seen), rest.
    split_and!; [done|by apply not_elem_of_cons|]. unfold found. cbn. destruct r; try done.
    by rewrite bool_decide_eq_false_2.
Qed.
End Waiting.

(** ** Reticulum *)
Section Reply.
Import reticulum.

Definition answers (link_id : AddressHash) (e : TransportEvent) : option bytes :=
  match e with
  | Data destination data => if bool_decide (destination = link_id) then Some data else None
  | Resource link (Some data) => if bool_decide (link = link_id) then Some data else None
  | _ => None
  end.

(** A request over a link is answered by the first data of that very link, if it
    comes before the deadline; other links' traffic is never taken for it. *)
Theorem reply_is_first_on_link (link_id : AddressHash) (events : list TransportEvent) :
  match await_reply link_id events with
  | Ok data => ∃ before e after, events = before ++ e :: after ∧ answers link_id e = Some data ∧
                 Forall (λ e, answers link_id e = None ∧ e ≠ Deadline) before
  | Err _ => ∃ before after, (events = before ∨ events = before ++ Deadline :: after) ∧
                 Forall (λ e, answers link_id e = None) before
  end.
Proof.
  induction events as [|e events IH]; [by exists [], []; split; [left|]|].
  assert (answers link_id e = None → e ≠ Deadline → await_reply link_id (e :: events) = await_reply link_id events) as Hskip.
  { intros He Hd. destruct e as [d data|l [data|]| |]; cbn in *; try done.
    - by case_bool_decide.
    - by case_bool_decide.
    - by case_bool_decide. }
  destruct (answers link_id e) as [data|] eqn:Ha.
  - assert (await_reply link_id (e :: events) = Ok data) as ->.
    { destruct e as [d data'|l [data'|]| |]; cbn in *; try done; case_bool_decide; simplify_eq; done. }
    exists [], e, events. by split_and!.
  - assert (e = Deadline ∨ e ≠ Deadline) as [->|Hd] by (destruct e; by (left + right)); [by exists [], events; split; [right|]|].
    rewrite (Hskip eq_refl Hd). destruct (await_reply link_id events).
    + destruct IH as (before & e' & after & -> & Hb & Hall). exists (e :: before), e', after. split_and!; [done..|].
      by constructor.
    + destruct IH as (before & after & Hev & Hall). exists (e :: before), after.
      split; [by destruct Hev as [->| ->]; [left|right]|by constructor].
Qed.

(** One missed event ends a forwarder: nothing that comes later reaches the
    inbound queue. *)
Lemma forwarder_ends local_address before after :
  forward_data local_address (before ++ None :: after) = forward_data local_address before.
Proof.
  induction before as [|[[d b]|] before IH]; cbn; [done| |done]. by case_bool_decide; rewrite IH.
Qed.
End Reply.

(** ** At concrete inputs *)

(** Two frames, sent in pieces, arrive byte by byte. *)
Definition two_frames : list bytes := [b#"hello"; []].
Definition written_in_pieces : TcpStream := mkTcp [] [Accepted 2; WriteFailed Interrupted; Accepted 1; Accepted 3] [].
Definition byte_by_byte (b : bytes) : TcpStream := mkTcp (map (λ c, Segment [c]) b) [] [].

Lemma frames_survive_fragmentation_witness :
  let '(n, s') := frames.send_each two_frames written_in_pieces in
  n = 2%nat ∧ (frames.recv_each 2 (byte_by_byte (outgoing s'))).1 = two_frames.
Proof.
  pose proof (frames_survive_fragmentation two_frames written_in_pieces
    (byte_by_byte (outgoing (frames.send_each two_frames written_in_pieces).2)) eq_refl) as H.
  assert (n2 : (frames.send_each two_frames written_in_pieces).1 = 2%nat) by (vm_compute; reflexivity).
  destruct (frames.send_each two_frames written_in_pieces) as [n s'] eqn:Hs. cbn [fst snd] in *.
  assert (incoming (byte_by_byte (outgoing s')) = outgoing s') as Hin.
  { cbn. unfold arriving. rewrite map_map. by induction (tc_sent s') as [|c l IH]; cbn; [|rewrite IH]. }
  split; [done|]. apply H; [by rewrite Hin|done|done| |done].
  cbn. apply list.Forall_fmap, list.Forall_true. by intros c.
Defined.

(** Half of the second frame: only the first one is received. *)
Example half_a_frame :
  let sent := outgoing (frames.send_each [b#"first"; b#"second"] (mkTcp [] [] [])).2 in
  (frames.recv_each 5 (mkTcp [Segment (take 3 sent); ReadFailed Interrupted; Segment (take 12 (drop 3 sent))] [] [])).1
  = [b#"first"].
Proof. vm_compute. reflexivity. Qed.

Example reticulum_nodes :
  tcp_nodes (Some b#" a.example:4242,,b.example:1 ;c ") = [b#"a.example:4242"; b#"b.example:1"; b#"c"].
Proof. vm_compute. reflexivity. Qed.
