(* ===== verification/Send.v ===== *)
(** * Send: how the native clients send a text

    The common part of [send_text_inner] ([mycellium-mobile/src/lib.rs]) and
    [send_message_now] ([mycellium-linux/src/main.rs]): under the lock of the store
    the recipient is resolved and the message sealed, parked and recorded in one
    transaction; then, without the lock, every parked delivery is attempted. *)

From S2P Require Import Prelude Interleave Std Crypto Wire Identity UserId Records X3DH Group Message Delivery Storage FileStore LocalState Antirollback History Groups WireOps Peerbook Outbox Flow RegistryClient Client Runtime Instances.

Module send.
Section Send.
Context {crypto : Crypto} {P N H : Type} `{!Platform P, !Reticulum N H, !Postcard (list StorageMutation)}
  `{!Postcard IdentityClaim, !Postcard (WalletPublicKey * DeviceRecord), !Postcard DeviceRecord,
    !Postcard ReachabilityRecord, !Postcard VersionPins, !Postcard WalletPublicKey,
    !Postcard contacts.Contact, !Postcard (list str), !Postcard (list (str * str)),
    !Postcard AppMessage, !Postcard attachments.StoredAttachment,
    !Postcard (list StoredMessage), !Postcard SegMeta,
    !Postcard (list peerbook.PeerRecord), !Postcard SignedRecord, !Postcard str, !Postcard u64,
    !Postcard outbox.OutboxEntry, !Postcard (list outbox.OutboxEntry),
    !Postcard (list outbox.LegacyOutboxEntry), !Postcard MailItem, !Postcard PeerFrame,
    !Postcard AckBody}.

(** What the transaction leaves to be delivered. *)
Definition Prepared : Type := list (str * Device * MailItem).
Definition park_prepared {S} `{!Storage S} (now : u64) : DeliveryHook S Prepared :=
  λ handle record device item plaintext store prepared,
    let delivery_id := runtime.delivery_id_for_item item in
    let '(parked, store) := runtime.park delivery_id handle record device item plaintext now store in
    match parked with
    | Ok _ => (reachability.Outbox, store, prepared ++ [(delivery_id, device, item)])
    | Err _ => (reachability.Failed, store, prepared)
    end.

Definition sendable (info : client.VerificationInfo) : bool :=
  match client.vi_level info with verified.Pinned | verified.Verified => true | _ => false end.

(** [explain] gives the message for an untrusted record, [clock] the time of the
    attempt. *)
Definition prepare_send (explain : TrustError → error) (clock : P → u64) (identity : Identity) (me : Handle)
    (user_id : str) (app : AppMessage) (refreshed : option SignedRecord) (platform : P) (store : FileStore)
    : result error (SendOutcome * Prepared * u64) * P * FileStore :=
  let store := match refreshed with
               | Some record => (client.apply_registry_record user_id record store).2
               | None => store
               end in
  let '(resolved, w) := client.resolve_local_record user_id (mkWorld store platform [] ([] : Prepared)) in
  let '(store, platform) := (w_store w, w_platform w) in
  match map_err explain resolved with
  | Err e => (Err e, platform, store)
  | Ok (peer, peer_record) =>
      match client.verification_info_for_record identity peer peer_record store with
      | Err e => (Err e, platform, store)
      | Ok info =>
          if negb (sendable info) then (Err (Anyhow b#"add this person before messaging them"), platform, store)
          else
            let now := clock platform in
            let '(outcome, w) :=
              client.send_direct identity me peer peer_record app
                (park_prepared now) (mkWorld (transaction store) platform [] []) in
            match outcome with
            | Err e => (Err e, w_platform w, ft_store (w_store w))
            | Ok outcome =>
                let '(committed, store) := commit (w_store w) in
                ((let? _ := committed in Ok (outcome, w_host w, now)), w_platform w, store)
            end
      end
  end.

Definition credited (outcome : SendOutcome) : SendOutcome :=
  mkSendOutcome (so_id outcome) (wrapping_succ (delivered outcome)) (wrapping_succ (direct outcome))
    (usat 32 (u_val (outboxed outcome) - 1)) (failed outcome).

Fixpoint deliver_prepared (now : u64) (prepared : Prepared) (outcome : SendOutcome)
    : Prog (runtime.Shared FileStore P (runtime.DirectNetwork N H)) error SendOutcome :=
  match prepared with
  | [] => okP outcome
  | (delivery_id, device, item) :: prepared =>
      let# accepted := runtime.attempt_parked_delivery device delivery_id item now in
      deliver_prepared now prepared (if accepted : bool then credited outcome else outcome)
  end.
End Send.
End send.
