(* ===== verification/Mobile.v ===== *)
(** * Mobile: [mycellium-mobile/src/lib.rs]

    The client object behind the mobile bindings: its session, the login that
    adopts or creates an identity, the profile, sending, the event queue, and one
    round of each of its threads.  Methods are steps of the object's state; locks
    that a panic has poisoned are not modelled. *)

From S2P Require Import Prelude Interleave Std Crypto Wire Identity UserId Records X3DH Group Message Delivery Storage FileStore LocalState Antirollback History Groups WireOps Peerbook Outbox Flow RegistryClient Client Runtime Shell Send Instances.

Module mobile.
Definition REGISTRY_SESSION_KEY : bytes := b#"mobile:registry-session:v1".
Definition IDENTITY_SECRET_LEN : nat := 64.
Definition DEFAULT_REGISTRY_URL : str := b#"https://registry.mycellium.eu".
Definition MAX_EVENTS : nat := 256.

Inductive ClientState : Type := NeedsLogin | NeedsProfile | Ready | Replaced.
Inductive DeliveryState : Type := Delivered | Pending.
Inductive EventKind : Type := KMessage | KDelivered | KDeviceReplaced | KNotice | KError.

Record ClientEvent : Type := mkEvent { ce_kind : EventKind; ce_message : str; ce_user : option str }.
Record ProfileInfo : Type := mkProfile {
  pi_user_id : str; pi_handle : str; pi_display_name : str; pi_connection_card : str }.
Record LoginResult : Type := mkLogin {
  lr_created : bool; lr_state : ClientState; lr_identity_secret : option bytes }.
Record ContactInfo : Type := mkContactInfo {
  ci_nickname : str; ci_handle : str; ci_user_id : str; ci_verified : bool }.
Record ContactSecurityInfo : Type := mkSecurity {
  cs_user_id : str; cs_handle : str; cs_safety_number : str; cs_trust : str;
  cs_identity_changed : bool; cs_blocked : bool }.

(** ** Events *)
Definition push_event (event : ClientEvent) (events : list ClientEvent) : list ClientEvent :=
  (if (length events =? MAX_EVENTS)%nat then tail events else events) ++ [event].

(** [EventSink::emit] *)
Definition translate (event : FlowEvent) : option ClientEvent :=
  match event with
  | EDirectMessage user_id from _ _ _ => Some (mkEvent KMessage (b#"New message from " ++ from) (Some user_id))
  | EReceipt _ from _ _ => Some (mkEvent KDelivered (b#"Delivered to " ++ from) None)
  | _ => None
  end.
Definition emit_all (flow : list FlowEvent) (events : list ClientEvent) : list ClientEvent :=
  fold_left (λ events e, match translate e with Some e => push_event e events | None => events end) flow events.

(** ** The identity as the platform's secure storage keeps it *)
Definition encode_identity_secret `{!Crypto} (identity : Identity) : bytes :=
  arr_bytes (Identity.wallet_secret identity) ++ arr_bytes (Identity.device_seed identity).

Definition decode_identity_secret `{!Crypto} (secret : bytes) : result error Identity :=
  if negb (length secret =? IDENTITY_SECRET_LEN)%nat then Err (Anyhow b#"secure identity is malformed")
  else map_err (λ _, Anyhow b#"secure identity is invalid")
         (Identity.from_wallet_secret (arr_fit 32 (take 32 secret)) (arr_fit 32 (drop 32 secret))).

(** ** Labels *)
Definition trust_label (level : verified.TrustLevel) : str :=
  match level with
  | verified.Verified => b#"Verified" | verified.Pinned => b#"Saved"
  | verified.Changed => b#"Identity changed" | verified.Unverified => b#"Unverified"
  end.
Definition trust_error (e : TrustError) : error :=
  Anyhow match e with
  | IdentityChanged => b#"their identity changed; review it before sending"
  | StaleRecord => b#"their saved identity record is stale"
  | Unverified => b#"their identity record is invalid"
  | BadHandle => b#"person not found; add their connection card first"
  end.
Definition display_name (record : SignedRecord) : str :=
  if bool_decide (trim (r_name (sg_record record)) = []) then Handle.as_str (r_handle (sg_record record))
  else r_name (sg_record record).

Section Mobile.
Context {crypto : Crypto} {P N H : Type} `{!Platform P, !Reticulum N H, !Agent H, !Postcard (list StorageMutation)}
  `{!Postcard IdentityClaim, !Postcard (WalletPublicKey * DeviceRecord), !Postcard DeviceRecord,
    !Postcard ReachabilityRecord, !Postcard VersionPins, !Postcard WalletPublicKey,
    !Postcard contacts.Contact, !Postcard (list str), !Postcard (list (str * str)),
    !Postcard AppMessage, !Postcard attachments.StoredAttachment, !Postcard StoredGroup,
    !Postcard (list StoredMessage), !Postcard (list GroupStoredMessage), !Postcard SegMeta,
    !Postcard (list peerbook.PeerRecord), !Json GroupInvitePayload, !Json GroupLeavePayload,
    !Postcard SignedRecord, !Postcard str, !Postcard u64, !Postcard outbox.OutboxEntry,
    !Postcard (list outbox.OutboxEntry), !Postcard (list outbox.LegacyOutboxEntry),
    !Postcard inbox.AcceptedDelivery, !Postcard (list inbox.AcceptedDelivery),
    !Postcard MailItem, !Postcard PeerFrame, !Postcard AckBody, !Postcard RegistrySession,
    !Json EmailRequest, !Json EmailResponse, !Json ConfirmRequest, !Json ConfirmResponse}.

(** ** The state *)

(** The network without the host behind it, which the object holds. *)
Definition plug (net : runtime.DirectNetwork N unit) (h : H) : runtime.DirectNetwork N H :=
  runtime.mkNetwork (runtime.reticulum_private net) (runtime.dn_reticulum net) (runtime.dn_registry net)
    (runtime.dn_running net) h.
Definition unplug (net : runtime.DirectNetwork N H) : runtime.DirectNetwork N unit :=
  runtime.mkNetwork (runtime.reticulum_private net) (runtime.dn_reticulum net) (runtime.dn_registry net)
    (runtime.dn_running net) tt.

Record Session : Type := mkSession {
  ss_identity : Identity;
  ss_store : FileStore;
  ss_network : runtime.DirectNetwork N unit;
  ss_own_record : option SignedRecord;
  ss_listener_started : bool;
  ss_device_current : bool
}.

(** The object and what it runs on; [mb_disk] is the directory of the store while
    no session has it open. *)
Record Mobile : Type := mkMobile {
  mb_registry_url : str;
  mb_account : option RegistrySession;
  mb_session : option Session;
  mb_events : list ClientEvent;
  mb_outbox_started : bool;
  mb_monitor_started : bool;
  mb_disk : Host;
  mb_platform : P;
  mb_host : H
}.
Abbreviation Mb A := (M Mobile A).

Definition set_account (a : option RegistrySession) (m : Mobile) : Mobile :=
  mkMobile (mb_registry_url m) a (mb_session m) (mb_events m) (mb_outbox_started m) (mb_monitor_started m)
    (mb_disk m) (mb_platform m) (mb_host m).
Definition set_session (s : option Session) (m : Mobile) : Mobile :=
  mkMobile (mb_registry_url m) (mb_account m) s (mb_events m) (mb_outbox_started m) (mb_monitor_started m)
    (mb_disk m) (mb_platform m) (mb_host m).
Definition set_events (e : list ClientEvent) (m : Mobile) : Mobile :=
  mkMobile (mb_registry_url m) (mb_account m) (mb_session m) e (mb_outbox_started m) (mb_monitor_started m)
    (mb_disk m) (mb_platform m) (mb_host m).
Definition set_started (outbox monitor : bool) (m : Mobile) : Mobile :=
  mkMobile (mb_registry_url m) (mb_account m) (mb_session m) (mb_events m) outbox monitor
    (mb_disk m) (mb_platform m) (mb_host m).
Definition set_disk (d : Host) (m : Mobile) : Mobile :=
  mkMobile (mb_registry_url m) (mb_account m) (mb_session m) (mb_events m) (mb_outbox_started m)
    (mb_monitor_started m) d (mb_platform m) (mb_host m).
Definition set_platform (p : P) (m : Mobile) : Mobile :=
  mkMobile (mb_registry_url m) (mb_account m) (mb_session m) (mb_events m) (mb_outbox_started m)
    (mb_monitor_started m) (mb_disk m) p (mb_host m).
Definition set_host (h : H) (m : Mobile) : Mobile :=
  mkMobile (mb_registry_url m) (mb_account m) (mb_session m) (mb_events m) (mb_outbox_started m)
    (mb_monitor_started m) (mb_disk m) (mb_platform m) h.

Definition with_store (store : FileStore) (s : Session) : Session :=
  mkSession (ss_identity s) store (ss_network s) (ss_own_record s) (ss_listener_started s) (ss_device_current s).
Definition with_network (net : runtime.DirectNetwork N unit) (s : Session) : Session :=
  mkSession (ss_identity s) (ss_store s) net (ss_own_record s) (ss_listener_started s) (ss_device_current s).
Definition with_own_record (r : option SignedRecord) (s : Session) : Session :=
  mkSession (ss_identity s) (ss_store s) (ss_network s) r (ss_listener_started s) (ss_device_current s).
Definition with_listener (b : bool) (s : Session) : Session :=
  mkSession (ss_identity s) (ss_store s) (ss_network s) (ss_own_record s) b (ss_device_current s).
Definition with_current (b : bool) (s : Session) : Session :=
  mkSession (ss_identity s) (ss_store s) (ss_network s) (ss_own_record s) (ss_listener_started s) b.

(** A session, given the cell that holds it: the object's, or a local variable. *)
Definition event (e : ClientEvent) : Mb unit := λ m, (Ok tt, set_events (push_event e (mb_events m)) m).
Definition on_registry {A} (f : M H A) : Mb A := λ m,
  let '(r, h) := f (mb_host m) in (r, set_host h m).
Definition mb_now : Mb u64 := λ m, (Ok (now_unix_secs (mb_platform m)), m).

Definition require_session : Mb Session := readM (λ m, ok_or (Anyhow b#"log in first") (mb_session m)).
Definition require_current_session : Mb Session :=
  let! session := require_session in
  if negb (ss_device_current session)
  then errM (Anyhow b#"this device was replaced; log in to make it active again")
  else retM session.

(** The object's session is shared: a change of it is seen by all. *)
Definition in_session {A} (f : Session → result error A * Session) : Mb A := λ m,
  match mb_session m with
  | None => (Err (Anyhow b#"log in first"), m)
  | Some s => let '(r, s) := f s in (r, set_session (Some s) m)
  end.
Definition in_store {A} (f : M FileStore A) : Mb A :=
  in_session (λ s, let '(r, store) := f (ss_store s) in (r, with_store store s)).
Definition in_network {A} (f : runtime.DirectNetwork N H → A * runtime.DirectNetwork N H) : Mb A := λ m,
  match mb_session m with
  | None => (Err (Anyhow b#"log in first"), m)
  | Some s =>
      let '(a, net) := f (plug (ss_network s) (mb_host m)) in
      (Ok a, set_host (runtime.dn_host net) (set_session (Some (with_network (unplug net) s)) m))
  end.

Definition current_state (m : Mobile) : ClientState :=
  match mb_session m with
  | None => NeedsLogin
  | Some s =>
      if negb (ss_device_current s) then Replaced
      else match ss_own_record s with
           | Some _ => Ready
           | None => match mb_account m with Some _ => NeedsProfile | None => NeedsLogin end
           end
  end.

(** ** Opening a session *)
Definition find_own (identity : Identity) (records : list peerbook.PeerRecord) : option SignedRecord :=
  option_map peerbook.record
    (List.find (λ e, bool_decide (r_wallet (sg_record (peerbook.record e)) = Identity.wallet_public identity)) records).

Definition local_own_record (s : Session) : result error (option SignedRecord) :=
  let? records := client.list_records (ss_store s) in Ok (find_own (ss_identity s) records).

Definition open_session (identity : Identity) : M Host Session := λ h,
  match open (Identity.storage_key identity) h with
  | (Err e, h) => (Err e, h)
  | (Ok _, h) =>
      let store := mkFileStore (Identity.storage_key identity) h in
      match client.list_records store with
      | Err e => (Err e, mkHost (files h) (unlocked (lock h)) (unreadable h) (alive h) (script h))
      | Ok records =>
          (Ok (mkSession identity store
                 (runtime.mkNetwork (Identity.reticulum_private_bytes identity) None None true tt)
                 (find_own identity records) false true), h)
      end
  end.

Definition save_account_session (session : RegistrySession) : M FileStore unit :=
  let! _ := st_put REGISTRY_SESSION_KEY (wire.encode session) in retM tt.
Definition load_account_session (store : FileStore) : result error (option RegistrySession) :=
  let? input := st_get REGISTRY_SESSION_KEY store in
  match input with
  | None => Ok None
  | Some input => map_err (λ _, Anyhow b#"stored registry login is corrupt")
                    (let? s := wire.decode input in Ok (Some s))
  end.

(** ** The profile *)
Definition profile_info (record : SignedRecord) : ProfileInfo :=
  mkProfile (uid record) (Handle.as_str (r_handle (sg_record record))) (display_name record)
    (client.encode_record record).

(** [now() as i64] *)
Definition as_i64 (n : u64) : i64 :=
  i_sat (if (u_val n <? 2 ^ 63)%N then Z.of_N (u_val n) else (Z.of_N (u_val n) - 2 ^ 64)%Z).

Definition start_listener (start : bool) : Mb unit :=
  if negb start then retM tt
  else
    let! node := in_network runtime.reticulum in
    match node with
    | None => event (mkEvent KError b#"Could not start Reticulum node" None)
    | Some _ => in_session (λ s, (Ok tt, with_listener true s))
    end.

(** [Option::ne] of two records. *)
Definition differs (found : option SignedRecord) (record : SignedRecord) : bool :=
  negb (bool_decide (found = Some record)).

Definition announce (account : RegistrySession) (record : SignedRecord) : Mb unit :=
  let! registry := liftM (RegistryClient_new (rs_registry_url account)) in
  let! now := mb_now in
  let! _ :=
    if is_expired account (as_i64 now) then
      let! found := on_registry (get_record registry (rs_account_id account)) in
      if differs found record then errM (Anyhow b#"log in again to publish profile or device changes")
      else retM tt
    else on_registry (put_record registry account record) in
  in_network (λ net, (tt, runtime.use_registry (rs_registry_url account) net)).

Definition publish_profile_values (handle : Handle) (name : str) : Mb ProfileInfo :=
  let! session := require_session in
  let start := negb (ss_listener_started session) in
  let! record := λ m, in_store (client.publish_active_device_record (mb_platform m) (ss_identity session) handle name) m in
  let! _ := in_session (λ s, (Ok tt, with_own_record (Some record) s)) in
  let! _ := start_listener start in
  let! account := readM (λ m, Ok (mb_account m)) in
  let! _ := match account with Some account => announce account record | None => retM tt end in
  let! _ := in_session (λ s, (Ok tt, with_current true s)) in
  retM (profile_info record).

Definition to_lowercase_handle (to_lowercase : str → str) (handle : str) : result error Handle :=
  map_err (λ _, Anyhow b#"use lowercase letters, numbers, or underscores for the handle")
    (Handle.new (to_lowercase (trim handle))).

(** [save_profile]; [str::to_lowercase] over Unicode's table. *)
Definition publish_profile (to_lowercase : str → str) (handle name : str) : Mb ProfileInfo :=
  let! handle := liftM (to_lowercase_handle to_lowercase handle) in
  let name := trim name in
  if bool_decide (name = []) then errM (Anyhow b#"enter your display name")
  else publish_profile_values handle name.

Definition republish_existing_profile : Mb ProfileInfo :=
  let! session := require_session in
  let record := match ss_own_record session with
                | Some r => Some r
                | None => match local_own_record session with Ok (Some r) => Some r | _ => None end
                end in
  let! record := liftM (ok_or (Anyhow b#"finish setting up your profile") record) in
  publish_profile_values (r_handle (sg_record record)) (display_name record).

Definition profile_inner : Mb (option ProfileInfo) := λ m,
  match mb_session m with
  | None => (Ok None, m)
  | Some s =>
      (match ss_own_record s with
       | Some r => Ok (Some (profile_info r))
       | None => let? r := local_own_record s in Ok (option_map profile_info r)
       end, m)
  end.

(** The threads are started once each; their rounds follow below. *)
Definition start_workers : Mb unit := λ m,
  (Ok tt, match mb_session m with
          | None => m
          | Some _ => set_started true (mb_monitor_started m || bool_decide (is_Some (mb_account m))) m
          end).

(** ** Logging in *)

(** What a login is given by the registry. *)
Record LoginFacts : Type := mkFacts {
  lf_login : ConfirmedLogin; lf_recovery : option (arr 32); lf_record : option SignedRecord }.

Definition other_user (identity : Identity) (record : option SignedRecord) : bool :=
  match record with
  | Some r => negb (bool_decide (r_user_id (sg_record r) = user_id (Identity.wallet_public identity)))
  | None => false
  end.

Definition ask_registry (registry : RegistryClient) (code : str) : Mb LoginFacts :=
  let! login := on_registry (confirm_login registry code) in
  let! account := readM (λ m, Ok (mb_account m)) in
  if match account with
     | Some a => negb (bool_decide (rs_account_id a = rs_account_id (cl_session login)))
     | None => false
     end
  then errM (Anyhow b#"that email belongs to a different Mycellium account")
  else
    let! recovery := on_registry (get_recovery registry (cl_session login)) in
    let! record := on_registry (get_record registry (rs_account_id (cl_session login))) in
    retM (mkFacts login recovery record).

(** The account of a session that is there already. *)
Definition keep_identity (registry : RegistryClient) (facts : LoginFacts) (session : Session) : Mb unit :=
  let identity := ss_identity session in
  if match lf_recovery facts with
     | Some w => negb (bool_decide (w = Identity.wallet_secret identity)) | None => false
     end
  then errM (Anyhow b#"that email belongs to a different Mycellium identity")
  else if other_user identity (lf_record facts)
  then errM (Anyhow b#"that email publishes a different Mycellium identity")
  else match lf_recovery facts with
       | Some _ => retM tt
       | None => on_registry (put_recovery registry (cl_session (lf_login facts)) (Identity.wallet_secret identity))
       end.

(** [create_identity]'s loop over random draws ends with probability one: [create]
    is what it gives. *)
Context (create : P → result error Identity * P).

Definition on_random {A} (f : P → result error A * P) : Mb A := λ m,
  let '(r, p) := f (mb_platform m) in (r, set_platform p m).

(** An identity for a device without one. *)
Definition new_identity (registry : RegistryClient) (facts : LoginFacts) : Mb Identity :=
  if negb (bool_decide (is_Some (lf_recovery facts))) && bool_decide (is_Some (lf_record facts))
  then errM (Anyhow b#"this account has an identity record but no recovery material")
  else
    let! identity := match lf_recovery facts with
                     | Some w => on_random (λ p, client.adopt_identity p w)
                     | None => on_random create
                     end in
    if other_user identity (lf_record facts)
    then errM (Anyhow b#"the recovered identity does not match the account record")
    else
      let! _ := match lf_recovery facts with
                | Some _ => retM tt
                | None => on_registry (put_recovery registry (cl_session (lf_login facts)) (Identity.wallet_secret identity))
                end in
      retM identity.

(** The section under the store's lock. *)
Definition record_login (facts : LoginFacts) (s : Session) : result error unit * Session :=
  let '(saved, store) := save_account_session (cl_session (lf_login facts)) (ss_store s) in
  match saved with
  | Err e => (Err e, with_store store s)
  | Ok _ =>
      match lf_record facts with
      | None => (Ok tt, with_store store s)
      | Some record =>
          let '(imported, store) := client.import_record (r_handle (sg_record record)) record store in
          match imported with
          | Err e => (Err e, with_store store s)
          | Ok _ => (Ok tt, with_own_record (Some record) (with_store store s))
          end
      end
  end.

Definition on_disk {A} (f : M Host A) : Mb A := λ m,
  let '(r, d) := f (mb_disk m) in (r, set_disk d m).

(** The last handle of a session is dropped: its store is closed. *)
Definition close_session (s : Session) : Mb unit := λ m,
  let h := fs_host (ss_store s) in
  (Ok tt, set_disk (mkHost (files h) (unlocked (lock h)) (unreadable h) (alive h) (script h)) m).

(** The session in place, and the secret for the platform to keep if it is new. *)
Definition take_session (registry : RegistryClient) (facts : LoginFacts) : Mb (option bytes) :=
  let! existing := readM (λ m, Ok (mb_session m)) in
  match existing with
  | Some session =>
      let! _ := keep_identity registry facts session in
      let! _ := in_session (record_login facts) in
      retM None
  | None =>
      let! identity := new_identity registry facts in
      let! session := on_disk (open_session identity) in
      let '(recorded, session) := record_login facts session in
      match recorded with
      | Err e => let! _ := close_session session in errM e
      | Ok _ =>
          let! _ := λ m, (Ok tt, set_session (Some session) m) in
          retM (Some (encode_identity_secret identity))
      end
  end.

(** What follows when the session is in place. *)
Definition finish_login (facts : LoginFacts) (secret : option bytes) : Mb LoginResult :=
  let! _ := start_workers in
  let! profile := match lf_record facts with Some _ => retM true
                  | None => let! p := profile_inner in retM (bool_decide (is_Some p)) end in
  let! _ := if profile : bool then let! _ := republish_existing_profile in retM tt else retM tt in
  let! state := readM (λ m, Ok (current_state m)) in
  retM (mkLogin (cl_created (lf_login facts)) state secret).

Definition confirm_email_login_inner (code : str) : Mb LoginResult :=
  let code := trim code in
  if bool_decide (code = []) then errM (Anyhow b#"enter the code from your email")
  else
    let! registry := λ m, (RegistryClient_new (mb_registry_url m), m) in
    let! facts := ask_registry registry code in
    let! secret := take_session registry facts in
    let! _ := λ m, (Ok tt, set_account (Some (cl_session (lf_login facts))) m) in
    finish_login facts secret.

Definition confirm_email_login_link (link : str) : Mb LoginResult :=
  let! token := liftM (login_token_from_link link) in confirm_email_login_inner token.

Definition request_email_login (email : str) : Mb u64 :=
  let email := trim email in
  if bool_decide (email = []) then errM (Anyhow b#"enter your email address")
  else
    let! registry := λ m, (RegistryClient_new (mb_registry_url m), m) in
    let! expires := on_registry (request_email_login registry email) in
    if (i_val expires <? 0)%Z then errM (Anyhow b#"registry returned an invalid expiry")
    else retM (uwrap 64 (Z.to_N (i_val expires))).

(** [open_inner], given what creating the directory answered; an error displayed
    by [show]. *)
Definition resume (show : error → str) (made : result error unit) (identity_secret : option bytes) : Mb unit :=
  let! _ := liftM (map_err (λ _, Anyhow b#"could not create app storage") made) in
  let! _ := λ m, (RegistryClient_new (mb_registry_url m), m) in
  match identity_secret with
  | None => retM tt
  | Some secret =>
      let! identity := liftM (decode_identity_secret secret) in
      let! session := on_disk (open_session identity) in
      match load_account_session (ss_store session) with
      | Err e => let! _ := close_session session in errM e
      | Ok account =>
          let! _ := λ m, (Ok tt, set_account account (set_session (Some session) m)) in
          let! _ := start_workers in
          let! profile := profile_inner in
          match profile with
          | None => retM tt
          | Some _ =>
              let! published := tryM republish_existing_profile in
              match published with
              | Ok _ => retM tt
              | Err e => event (mkEvent KNotice (b#"Direct reachability will retry: " ++ show e) None)
              end
          end
      end
  end.

Definition open_inner (show : error → str) (made : result error unit) (identity_secret : option bytes)
    (registry_url : option str) (disk : Host) (platform : P) (host : H) : result error unit * Mobile :=
  let url := match registry_url with
             | Some url => if bool_decide (trim url = []) then DEFAULT_REGISTRY_URL else url
             | None => DEFAULT_REGISTRY_URL
             end in
  resume show made identity_secret (mkMobile url None None [] false false disk platform host).

Definition drop_client (m : Mobile) : Mobile :=
  match mb_session m with
  | None => m
  | Some s =>
      let net := runtime.shutdown (plug (ss_network s) (mb_host m)) in
      set_host (runtime.dn_host net) (set_session (Some (with_network (unplug net) (with_current false s))) m)
  end.

(** ** Contacts and conversations *)
Definition reading {A} (f : FileStore → result error A) : Mb A := in_store (readM f).

Definition record_for_user (user_id : str) (store : FileStore) : result error SignedRecord :=
  let? user_id := map_err (λ _, Anyhow b#"invalid user identity") (UserId.new user_id) in
  let? records := client.list_records store in
  ok_or (Anyhow b#"this person's signed record is missing")
    (option_map peerbook.record
       (List.find (λ e, bool_decide (peerbook.user_id e = UserId.as_str user_id)) records)).

Definition security_of (identity : Identity) (user_id : str) (store : FileStore)
    : result error client.VerificationInfo :=
  let? record := record_for_user user_id store in
  client.verification_info_for_record identity (r_handle (sg_record record)) record store.

Definition contact_security (user_id : str) : Mb ContactSecurityInfo :=
  let! session := require_session in
  reading (λ store,
    let? info := security_of (ss_identity session) user_id store in
    let? blocked := client.list_blocked store in
    Ok (mkSecurity (client.vi_user_id info) (client.vi_handle info) (client.vi_safety_number info)
          (trust_label (client.vi_level info))
          (match client.vi_level info with verified.Changed => true | _ => false end)
          (existsb (λ id, bool_decide (id = user_id)) blocked))).

Definition set_contact_blocked (user_id : str) (blocked : bool) : Mb unit :=
  let! _ := liftM (map_err (λ _, Anyhow b#"invalid protocol user id") (UserId.new user_id)) in
  let! _ := require_session in
  in_store (client.set_blocked user_id blocked).

Definition verify_contact (user_id : str) : Mb unit :=
  let! session := require_session in
  in_store (let! info := readM (security_of (ss_identity session) user_id) in client.mark_verified info).

Definition accept_identity_change (user_id : str) : Mb unit :=
  let! session := require_session in
  in_store (let! info := readM (security_of (ss_identity session) user_id) in client.accept_identity_change info).

Definition contact_name (nickname : option str) (record : SignedRecord) : str :=
  match nickname with
  | Some name => if bool_decide (trim name = []) then display_name record else trim name
  | None => display_name record
  end.

Definition add_contact (connection_card : str) (nickname : option str) : peerbook.panics (Mb ContactInfo) :=
  option_map (λ decoded,
    let! record := liftM decoded in
    let nickname := contact_name nickname record in
    let! _ := require_session in
    let! _ := in_store (client.add_contact_from_record nickname record) in
    retM (mkContactInfo nickname (Handle.as_str (r_handle (sg_record record))) (uid record) false))
  (client.decode_record (trim connection_card)).

Definition remove_contact (nickname : str) : Mb unit :=
  let! _ := require_session in in_store (client.remove_contact (trim nickname)).

(** [sort_by_key], which is stable, on the nickname in lower case. *)
Definition nickname_le (to_lowercase : str → str) (a c : ContactInfo) : Prop :=
  Is_true (bytes_leb (to_lowercase (ci_nickname a)) (to_lowercase (ci_nickname c))).
#[local] Instance nickname_le_dec to_lowercase : RelDecision (nickname_le to_lowercase).
Proof. intros a c. unfold nickname_le. apply _. Defined.

Definition contacts (to_lowercase : str → str) : Mb (list ContactInfo) :=
  let! _ := require_session in
  let! contacts := reading client.list_contacts in
  retM (merge_sort (nickname_le to_lowercase)
          (map (λ item, mkContactInfo (client.ce_nickname item) (client.ce_handle item)
                          (client.ce_user_id item) (client.ce_verified item)) contacts)).

Definition conversations : Mb (list client.ConversationPreview) :=
  let! _ := require_session in let! now := mb_now in in_store (client.conversations now).
Definition messages (user_id : str) : Mb (list StoredMessage) :=
  let! _ := require_session in
  let! now := mb_now in
  let! (_, messages) := in_store (client.history_with user_id now) in retM messages.
Definition attachment (message_id : str) : Mb (option attachments.StoredAttachment) :=
  let! _ := require_session in reading (client.attachment message_id).
Definition pending_count : Mb nat :=
  let! _ := require_session in
  reading (λ store, let? entries := client.list_outbox store in
                    Ok (length (List.filter outbox.is_pending entries))).
Definition poll_events : Mb (list ClientEvent) := λ m, (Ok (mb_events m), set_events [] m).
Definition refresh_connectivity : Mb unit :=
  let! _ := require_session in
  let! r := in_network runtime.ensure_reticulum in liftM r.

(** ** Sending, and the threads: programs of atomic steps on the object

    A worker's clone of the session is the object's session: it shares every
    cell of it, and the object never drops it. *)
Abbreviation Pm A := (Prog Mobile error A).

(** A program of the client library on the cells of the session. *)
Definition on_shared {A} (f : runtime.Shared FileStore P (runtime.DirectNetwork N H) →
    A * runtime.Shared FileStore P (runtime.DirectNetwork N H)) (m : Mobile) : option A * Mobile :=
  match mb_session m with
  | None => (None, m)
  | Some s =>
      let '(a, sh) := f (runtime.mkShared (ss_store s) (mb_platform m) (plug (ss_network s) (mb_host m))) in
      let net := runtime.sh_net sh in
      (Some a, set_platform (runtime.sh_platform sh) (set_host (runtime.dn_host net)
                 (set_session (Some (with_store (runtime.sh_store sh) (with_network (unplug net) s))) m)))
  end.
Fixpoint on_session {A} (prog : Prog (runtime.Shared FileStore P (runtime.DirectNetwork N H)) error A) : Pm A :=
  match prog with
  | Ret r => Ret r
  | Spin => Spin
  | Atom f k => Atom (on_shared f) (λ o, match o with
                                         | Some x => on_session (k x)
                                         | None => errP (Anyhow b#"log in first")
                                         end)
  end.

Definition in_session_random {A} (f : Session → P → FileStore → result error A * P * FileStore) : Mb A := λ m,
  match mb_session m with
  | None => (Err (Anyhow b#"log in first"), m)
  | Some s =>
      let '(r, p, store) := f s (mb_platform m) (ss_store s) in
      (r, set_platform p (set_session (Some (with_store store s)) m))
  end.

Definition refreshed_record (registry_url user_id : str) : Mb (option SignedRecord) := λ m,
  match RegistryClient_new registry_url with
  | Err _ => (Ok None, m)
  | Ok registry =>
      let '(r, m) := on_registry (get_record_for_user registry user_id) m in
      (Ok (match r with Ok found => found | Err _ => None end), m)
  end.

Definition send_text_inner (user_id text : str) : Pm DeliveryState :=
  let# session := atomic require_current_session in
  let text := trim text in
  if bool_decide (text = []) then errP (Anyhow b#"write a message first")
  else
    let# own_record := atomic (in_session (λ s,
      (ok_or (Anyhow b#"finish setting up your profile") (ss_own_record s), s))) in
    let# app := atomic (on_random (λ p, let '(app, p) := text_message p text in (Ok app, p))) in
    let# refreshed := atomic (λ m, refreshed_record (mb_registry_url m) user_id m) in
    let# (outcome, prepared, now) :=
      atomic (in_session_random (λ s, send.prepare_send trust_error now_unix_secs (ss_identity s)
                                  (r_handle (sg_record own_record)) user_id app refreshed)) in
    let# outcome := on_session (send.deliver_prepared now prepared outcome) in
    if (0 <? u_val (direct outcome))%N then okP Delivered
    else if (0 <? u_val (outboxed outcome))%N then okP Pending
    else errP (Anyhow b#"message could not be sent or saved for retry").

Definition retry_pending : Pm nat :=
  let# session := atomic require_current_session in
  let# _ := atomic (in_store client.make_outbox_due) in
  let# now := atomic mb_now in
  let# result := on_session (runtime.flush_shared_outbox (ss_identity session) now) in
  okP (runtime.fl_waiting result).

(** A turn of the worker that retries, once it has slept. *)
Definition outbox_turn (session : Session) : Pm unit :=
  let# (running, current) := atomic (in_session (λ s,
    (Ok (runtime.dn_running (ss_network s), ss_device_current s), s))) in
  if negb running || negb current then okP tt
  else
    let# now := atomic mb_now in
    catchP (on_session (runtime.flush_shared_outbox (ss_identity session) now)) (λ result,
      match result with
      | Ok result =>
          if (0 <? runtime.fl_delivered result)%nat
          then atomic (event (mkEvent KDelivered
                 (b#"Delivered " ++ decimal (N.of_nat (runtime.fl_delivered result)) ++ b#" pending message(s)") None))
          else okP tt
      | Err _ => okP tt
      end).

Definition is_active (identity : Identity) (record : SignedRecord) : bool :=
  bool_decide (r_user_id (sg_record record) = user_id (Identity.wallet_public identity))
  && bool_decide (device_key (sd_record (signed (r_device (sg_record record)))) = Identity.device_public identity).

Definition refresh_device_status_inner : Mb ClientState :=
  let! session := require_session in
  let! account := readM (λ m, Ok (mb_account m)) in
  match account with
  | None => readM (λ m, Ok (current_state m))
  | Some account =>
      let! registry := liftM (RegistryClient_new (rs_registry_url account)) in
      let! found := on_registry (get_record registry (rs_account_id account)) in
      let! _ := match found with
                | Some record => in_session (λ s, (Ok tt, with_current (is_active (ss_identity session) record) s))
                | None => retM tt
                end in
      readM (λ m, Ok (current_state m))
  end.

(** A turn of the monitor of [account]; the flag is swapped in one step. *)
Definition swap_current (current : bool) : Mb bool :=
  in_session (λ s, (Ok (ss_device_current s), with_current current s)).
Definition monitor_turn (identity : Identity) (registry : RegistryClient) (account_id : str) : Pm unit :=
  catchP (atomic (on_registry (get_record registry account_id))) (λ found,
    match found with
    | Ok (Some record) =>
        let# was_current := atomic (swap_current (is_active identity record)) in
        if (was_current : bool) && negb (is_active identity record)
        then atomic (event (mkEvent KDeviceReplaced b#"This device was replaced. Sending is disabled." None))
        else okP tt
    | _ => okP tt
    end).

(** One frame of the listener: the reply. *)
Definition serve_mobile_connection (input : bytes) : Mb (option bytes) := λ m,
  match mb_session m with
  | None => (Ok None, m)
  | Some s =>
      let '(reply, flow, p, store) :=
        serve_connection (runtime.dn_running (ss_network s)) (ss_device_current s) (ss_identity s)
          (ss_own_record s) input (mb_platform m) (ss_store s) in
      (Ok reply, set_platform p (set_events (emit_all flow (mb_events m)) (set_session (Some (with_store store s)) m)))
  end.

(** A turn of the listener, given what [recv_timeout] answered: the reply, and
    whether it goes on. *)
Definition listener_turn (received : result str (option bytes)) : Mb (option bytes * bool) :=
  let! running := in_session (λ s, (Ok (runtime.dn_running (ss_network s)), s)) in
  if negb running then retM (None, false)
  else
    match received with
    | Ok None => retM (None, true)
    | Ok (Some frame) => let! reply := serve_mobile_connection frame in retM (reply, true)
    | Err e =>
        let! running := in_session (λ s, (Ok (runtime.dn_running (ss_network s)), s)) in
        if negb running then retM (None, false)
        else let! _ := event (mkEvent KError (b#"Incoming connection stopped: " ++ e) None) in retM (None, false)
    end.
End Mobile.
End mobile.
