(* ===== verification/MobileProps.v ===== *)
(** * MobileProps: properties of the mobile client

    The secret of the platform's storage and the identity are in one-to-one
    correspondence; the event queue is the newest 256 events; a login never
    replaces an identity and never changes the account. *)

From S2P Require Import Prelude Interleave Std Crypto Wire Identity UserId Records X3DH Group Message Delivery Storage FileStore LocalState Antirollback History Groups WireOps Peerbook Outbox Flow RegistryClient Client Runtime Shell Mobile Instances.

(** ** Events *)
Definition newest (n : nat) {A} (l : list A) : list A := drop (length l - n) l.

Lemma newest_snoc {A} n (l : list A) x :
  (0 < n)%nat → newest n (newest n l ++ [x]) = newest n (l ++ [x]).
Proof.
  intros Hn. unfold newest. rewrite !length_app, length_drop. cbn [length].
  destruct (decide (length l < n)%nat) as [Hl|Hl].
  - replace (length l - n)%nat with 0%nat by lia. rewrite drop_0. f_equal. lia.
  - rewrite !drop_app_le by (rewrite ?length_drop; lia). rewrite drop_drop. f_equal. f_equal. lia.
Qed.

Lemma push_event_newest e events :
  (length events <= mobile.MAX_EVENTS)%nat →
  mobile.push_event e events = newest mobile.MAX_EVENTS (events ++ [e]).
Proof.
  intros Hl. unfold mobile.push_event, newest. rewrite length_app. cbn [length].
  destruct (Nat.eqb_spec (length events) mobile.MAX_EVENTS) as [He|He].
  - rewrite He. replace (mobile.MAX_EVENTS + 1 - mobile.MAX_EVENTS)%nat with 1%nat by lia.
    destruct events as [|x events]; [discriminate He|]. done.
  - replace (length events + 1 - mobile.MAX_EVENTS)%nat with 0%nat by lia. by rewrite drop_0.
Qed.

Lemma newest_length {A} n (l : list A) : (length (newest n l) <= n)%nat.
Proof. unfold newest. rewrite length_drop. lia. Qed.

(** The event queue of the mobile client holds the newest 256 events: whatever
    has been pushed since the last poll, in its order, without the oldest ones
    that exceed the bound. *)
Theorem event_queue_newest (pushed : list mobile.ClientEvent) :
  fold_left (λ events e, mobile.push_event e events) pushed [] = newest mobile.MAX_EVENTS pushed.
Proof.
  induction pushed as [|e pushed IH] using rev_ind; [done|].
  rewrite fold_left_app, IH. cbn [fold_left].
  rewrite push_event_newest by apply newest_length. apply newest_snoc. unfold mobile.MAX_EVENTS. lia.
Qed.

(** ** The stored identity *)
Section Secret.
Context {crypto : Crypto}.

Lemma secret_decodes identity : Identity.wf identity →
  mobile.decode_identity_secret (mobile.encode_identity_secret identity) = Ok identity.
Proof.
  intros Hwf. unfold mobile.decode_identity_secret, mobile.encode_identity_secret, Identity.from_wallet_secret.
  rewrite length_app, !arr_length. cbn [Nat.add Nat.eqb mobile.IDENTITY_SECRET_LEN negb].
  rewrite take_app_length', drop_app_length' by (symmetry; apply arr_length). rewrite !arr_fit_arr.
  unfold Identity.wf in Hwf. by rewrite Hwf.
Qed.

(** C34: The opaque secret the platform stores and the identity it stands for
    determine each other: a secret is accepted exactly if it is the encoding of a
    well-formed identity, which it then gives back; every other input, of a wrong
    length or with an invalid wallet key, is refused. *)
Theorem identity_secret_exact (secret : bytes) (identity : Identity) :
  mobile.decode_identity_secret secret = Ok identity ↔
  Identity.wf identity ∧ secret = mobile.encode_identity_secret identity.
Proof.
  split; [|intros [Hwf ->]; by apply secret_decodes].
  unfold mobile.decode_identity_secret, mobile.encode_identity_secret, Identity.from_wallet_secret.
  destruct (Nat.eqb_spec (length secret) mobile.IDENTITY_SECRET_LEN) as [Hl|]; [|done]. cbn [negb].
  destruct (Identity.build _ _) as [i|e] eqn:Hb; [|done]. cbn. intros [= <-].
  split; [by eapply Identity.build_wf|].
  destruct (Identity.build_inv _ _ _ Hb) as [-> ->].
  unfold mobile.IDENTITY_SECRET_LEN in Hl.
  rewrite !arr_fit_exact by (rewrite ?length_take, ?length_drop; lia).
  by rewrite take_drop.
Qed.
End Secret.

(** ** Logging in *)
Section Login.
Context {crypto : Crypto} {P N H : Type} `{!Platform P, !Reticulum N H, !Agent H, !Postcard (list StorageMutation)}
  `{!Postcard IdentityClaim, !Postcard (WalletPublicKey * DeviceRecord), !Postcard DeviceRecord,
    !Postcard ReachabilityRecord, !Postcard VersionPins, !Postcard WalletPublicKey,
    !Postcard contacts.Contact, !Postcard (list str), !Postcard (list (str * str)),
    !Postcard AppMessage, !Postcard attachments.StoredAttachment, !Postcard StoredGroup,
    !Postcard (list StoredMessage), !Postcard (list GroupStoredMessage), !Postcard SegMeta,
    !Postcard (list peerbook.PeerRecord), !Json GroupInvitePayload, !Json GroupLeavePayload,
    !Postcard SignedRecord, !Postcard str, !Postcard u64, !Postcard outbox.OutboxEntry,
    !Postcard (list outbox.OutboxEntry), !Postcard (list outbox.LegacyOutboxEntry),
    !Postcard inbox.AcceptedDelivery, !Postcard (list inbox.AcceptedDelivery),
    !Postcard MailItem, !Postcard PeerFrame, !Postcard AckBody, !Postcard RegistrySession,
    !Json EmailRequest, !Json EmailResponse, !Json ConfirmRequest, !Json ConfirmResponse}.
Abbreviation Mobile := (@mobile.Mobile P N H).
Abbreviation Session := (@mobile.Session N).

(** A session goes on with the identity it has, and the account is the same. *)
Definition identity_of (m : Mobile) : option Identity := option_map mobile.ss_identity (mobile.mb_session m).
Definition goes_on (m m' : Mobile) : Prop :=
  (identity_of m = None ∨ identity_of m' = identity_of m) ∧ mobile.mb_account m' = mobile.mb_account m.
#[local] Instance goes_on_preorder : PreOrder goes_on.
Proof.
  split; [by intros m; split; [right|]|]. intros a b c [[Ha|Ha] Hb] [[Hc|Hc] Hd].
  all: split; [|by rewrite Hd]. 1,2: by left. 1: left; by rewrite <-Ha. right. by rewrite Hc.
Qed.
Abbreviation steady := (keeps goes_on).
Definition same_identity {A} (f : Session → result error A * Session) : Prop :=
  ∀ s, mobile.ss_identity (f s).2 = mobile.ss_identity s.

Lemma steady_registry {A} (f : M H A) : steady (mobile.on_registry f).
Proof. intros m. unfold mobile.on_registry. destruct (f _). by split; [right|]. Qed.
Lemma steady_event e : steady (mobile.event (N := N) (H := H) (P := P) e).
Proof. intros m. by split; [right|]. Qed.
Lemma steady_random {A} (f : P → result error A * P) : steady (mobile.on_random f).
Proof. intros m. unfold mobile.on_random. destruct (f _). by split; [right|]. Qed.
Lemma steady_disk {A} (f : M Host A) : steady (mobile.on_disk f).
Proof. intros m. unfold mobile.on_disk. destruct (f _). by split; [right|]. Qed.
Lemma steady_in_session {A} (f : Session → result error A * Session) :
  same_identity f → steady (mobile.in_session f).
Proof.
  intros Hf m. unfold mobile.in_session. destruct (mobile.mb_session m) as [s|] eqn:Hs; [|reflexivity].
  pose proof (Hf s) as Hi. destruct (f s) as [r s']. split; [right|done].
  unfold identity_of. rewrite Hs. cbn in *. by rewrite Hi.
Qed.
Lemma steady_in_store {A} (f : M FileStore A) : steady (mobile.in_store f).
Proof. apply steady_in_session. intros s. by destruct (f _). Qed.
Lemma steady_network {A} (f : runtime.DirectNetwork N H → A * runtime.DirectNetwork N H) :
  steady (mobile.in_network f).
Proof.
  intros m. unfold mobile.in_network. destruct (mobile.mb_session m) as [s|] eqn:Hs; [|reflexivity].
  destruct (f _) as [a net]. split; [right|done]. unfold identity_of. by rewrite Hs.
Qed.
Lemma steady_close (s : Session) : steady (mobile.close_session (P := P) (H := H) s).
Proof. intros m. by split; [right|]. Qed.
Lemma steady_workers : steady (mobile.start_workers (P := P) (N := N) (H := H)).
Proof.
  intros m. unfold mobile.start_workers. destruct (mobile.mb_session m) eqn:Hs; [|reflexivity].
  by split; [right|].
Qed.

Lemma same_record_login facts : same_identity (mobile.record_login (N := N) facts).
Proof.
  intros s. unfold mobile.record_login. destruct (mobile.save_account_session _ _) as [[u|e] store]; [|done].
  destruct (mobile.lf_record facts); [|done]. by destruct (client.import_record _ _ _) as [[] ?].
Qed.
#[local] Hint Resolve steady_registry steady_event steady_random steady_disk
  steady_in_store steady_network steady_close steady_workers same_record_login steady_in_session : keeps.
#[local] Hint Extern 1 (same_identity _) => (by intros ?) : keeps.

Lemma steady_announce account record : steady (mobile.announce (P := P) (N := N) (H := H) account record).
Proof. unfold mobile.announce, mobile.mb_now. go_keeps. Qed.
#[local] Hint Resolve steady_announce : keeps.

Lemma steady_publish handle name :
  steady (mobile.publish_profile_values (P := P) (N := N) (H := H) handle name).
Proof.
  unfold mobile.publish_profile_values, mobile.require_session, mobile.start_listener. go_keeps.
Qed.
#[local] Hint Resolve steady_publish : keeps.
Lemma steady_republish : steady (mobile.republish_existing_profile (P := P) (N := N) (H := H)).
Proof. unfold mobile.republish_existing_profile, mobile.require_session. go_keeps. Qed.
Lemma steady_profile : steady (mobile.profile_inner (P := P) (N := N) (H := H)).
Proof. intros m. unfold mobile.profile_inner. destruct (mobile.mb_session m); reflexivity. Qed.
#[local] Hint Resolve steady_republish steady_profile : keeps.
Lemma steady_ask registry code : steady (mobile.ask_registry (P := P) (N := N) (H := H) registry code).
Proof. unfold mobile.ask_registry. go_keeps. Qed.
Lemma steady_keep registry facts session :
  steady (mobile.keep_identity (P := P) (N := N) (H := H) registry facts session).
Proof. unfold mobile.keep_identity. go_keeps. Qed.
Lemma steady_new create registry facts :
  steady (mobile.new_identity (P := P) (N := N) (H := H) create registry facts).
Proof. unfold mobile.new_identity. go_keeps. Qed.
#[local] Hint Resolve steady_ask steady_keep steady_new : keeps.

(** What the registry said allows the identity. *)
Definition chosen (facts : mobile.LoginFacts) (i : Identity) : Prop :=
  (∀ w, mobile.lf_recovery facts = Some w → Identity.wallet_secret i = w) ∧
  (∀ r, mobile.lf_record facts = Some r → r_user_id (sg_record r) = user_id (Identity.wallet_public i)).
(** The registry holds its wallet key: it gave it, or has taken it. *)
Definition recoverable (registry : RegistryClient) (facts : mobile.LoginFacts) (i : Identity) : Prop :=
  mobile.lf_recovery facts = Some (Identity.wallet_secret i) ∨
  ∃ h h' : H, put_recovery registry (cl_session (mobile.lf_login facts)) (Identity.wallet_secret i) h = (Ok tt, h').

Lemma other_user_no i record : mobile.other_user i record = false →
  ∀ r, record = Some r → r_user_id (sg_record r) = user_id (Identity.wallet_public i).
Proof.
  unfold mobile.other_user. intros Ho r ->. apply negb_false_iff in Ho. by apply bool_decide_eq_true in Ho.
Qed.

Lemma keep_spec registry facts session m m' :
  mobile.keep_identity (P := P) (N := N) (H := H) registry facts session m = (Ok tt, m') →
  chosen facts (mobile.ss_identity session) ∧ recoverable registry facts (mobile.ss_identity session).
Proof.
  unfold mobile.keep_identity.
  destruct (match mobile.lf_recovery facts with Some _ => _ | None => _ end) eqn:Hw; [done|].
  destruct (mobile.other_user _ _) eqn:Ho; [done|]. pose proof (other_user_no _ _ Ho) as Hr.
  destruct (mobile.lf_recovery facts) as [w|] eqn:Hf.
  - apply negb_false_iff, bool_decide_eq_true in Hw. intros _. split; [split; [|done]|].
    + rewrite Hf. by intros w' [= <-].
    + left. by rewrite Hf, Hw.
  - unfold mobile.on_registry. destruct (put_recovery _ _ _ _) as [r h] eqn:Hp. intros [= -> _].
    split; [split; [|done]|by right; eauto]. by rewrite Hf.
Qed.

Lemma new_spec create registry facts m i m' :
  (∀ p i, (create p).1 = Ok i → Identity.wf i) →
  mobile.new_identity (P := P) (N := N) (H := H) create registry facts m = (Ok i, m') →
  chosen facts i ∧ recoverable registry facts i ∧ Identity.wf i.
Proof.
  intros Hcreate. unfold mobile.new_identity. destruct (_ && _); [done|].
  unfold bindM at 1. destruct (mobile.lf_recovery facts) as [w|] eqn:Hf.
  - unfold mobile.on_random. unfold client.adopt_identity, Identity.adopt.
    destruct (fill_random _ 32) as [seed p]. destruct (Identity.build w seed) as [j|e] eqn:Hb; [|done].
    cbn [map_err]. destruct (mobile.other_user _ _) eqn:Ho; [done|]. pose proof (other_user_no _ _ Ho) as Hr.
    unfold bindM, retM. intros [= -> _]. destruct (Identity.build_inv _ _ _ Hb) as [Hi _].
    split_and!; [split; [|done]|left; by rewrite Hf, Hi|by eapply Identity.build_wf].
    rewrite Hf. by intros w' [= <-].
  - unfold mobile.on_random. destruct (create _) as [[j|e] p] eqn:Hc; [|done].
    assert (Identity.wf j) as Hj by (eapply Hcreate; by rewrite Hc).
    destruct (mobile.other_user _ _) eqn:Ho; [done|]. pose proof (other_user_no _ _ Ho) as Hr.
    unfold bindM, retM, mobile.on_registry. destruct (put_recovery _ _ _ _) as [[u|e] h] eqn:Hp; [|done].
    destruct u. intros [= <- _]. split_and!; [split; [|done]|right; eauto|done]. by rewrite Hf.
Qed.

Lemma open_session_identity i h s h' :
  mobile.open_session (N := N) i h = (Ok s, h') → mobile.ss_identity s = i.
Proof.
  unfold mobile.open_session. destruct (open _ h) as [[u|e] h1]; [|done].
  destruct (client.list_records _); [|done]. by intros [= <- _].
Qed.

(** The secret goes to the platform once, when the session begins. *)
Definition secret_for (before : option Identity) (i : Identity) (secret : option bytes) : Prop :=
  match secret with
  | None => before = Some i
  | Some secret => before = None ∧ mobile.decode_identity_secret secret = Ok i
  end.

Lemma take_spec create registry facts m :
  (∀ p i, (create p).1 = Ok i → Identity.wf i) →
  let '(r, m') := mobile.take_session (P := P) (N := N) (H := H) create registry facts m in
  goes_on m m' ∧ ∀ secret, r = Ok secret →
    ∃ i, identity_of m' = Some i ∧ chosen facts i ∧ recoverable registry facts i ∧
         secret_for (identity_of m) i secret.
Proof.
  intros Hcreate. unfold mobile.take_session, readM. unfold bindM at 1.
  destruct (mobile.mb_session m) as [session|] eqn:Hs.
  - assert (identity_of m = Some (mobile.ss_identity session)) as Hi by (unfold identity_of; by rewrite Hs).
    unfold bindM at 1. pose proof (steady_keep registry facts session m) as Hk.
    destruct (mobile.keep_identity _ _ _ m) as [[u|e] m1] eqn:Hkeep; [|by split].
    destruct u. destruct (keep_spec _ _ _ _ _ Hkeep) as [Hc Hr].
    unfold bindM at 1. pose proof (steady_in_session _ (same_record_login facts) m1) as Hl.
    destruct (mobile.in_session _ m1) as [[u|e] m2]; cbn [snd] in *; [|split; [by transitivity m1|done]].
    assert (goes_on m m2) as Hm by (by transitivity m1). split; [done|]. intros secret [= <-].
    exists (mobile.ss_identity session). split_and!; [|done..].
    destruct Hm as [[Hm|Hm] _]; by rewrite Hm in *.
  - assert (identity_of m = None) as Hi by (unfold identity_of; by rewrite Hs).
    unfold bindM at 1. pose proof (steady_new create registry facts m) as Hn.
    destruct (mobile.new_identity _ _ _ m) as [[i|e] m1] eqn:Hnew; [|by split].
    destruct (new_spec _ _ _ _ _ _ Hcreate Hnew) as (Hc & Hr & Hwf).
    unfold bindM at 1. pose proof (steady_disk (mobile.open_session (N := N) i) m1) as Hd.
    unfold mobile.on_disk in *. destruct (mobile.open_session i _) as [[session|e] d] eqn:Ho;
      cbn [snd] in *; [|split; [by transitivity m1|done]].
    apply open_session_identity in Ho.
    pose proof (same_record_login facts session) as Hsame.
    destruct (mobile.record_login facts session) as [[u|e] session'] eqn:Hrec; cbn [snd] in Hsame.
    + cbn. split; [split; [by left|]|].
      { destruct Hn as [_ Hn]. exact Hn. }
      intros secret [= <-]. exists i. unfold identity_of at 1. cbn. rewrite Hsame, Ho.
      split_and!; [done..|]. by apply secret_decodes.
    + cbn. split; [|done]. split; [by left|]. destruct Hn as [_ Hn]. exact Hn.
Qed.

Lemma ask_spec registry code (m m1 : Mobile) facts :
  mobile.ask_registry registry code m = (Ok facts, m1) →
  mobile.mb_session m1 = mobile.mb_session m ∧
  ∀ a, mobile.mb_account m = Some a →
    rs_account_id (cl_session (mobile.lf_login facts)) = rs_account_id a.
Proof.
  unfold mobile.ask_registry, mobile.on_registry, bindM, readM, retM, errM.
  destruct (confirm_login _ _ _) as [[login|] h]; [|done]. cbn [mobile.mb_account mobile.set_host].
  destruct (match mobile.mb_account m with Some _ => _ | None => _ end) eqn:Hsame; [done|].
  destruct (get_recovery _ _ _) as [[recovery|] h1]; [|done].
  destruct (get_record _ _ _) as [[record|] h2]; [|done]. intros [= <- <-]. split; [done|].
  intros a Ha. rewrite Ha in Hsame. by apply negb_false_iff, bool_decide_eq_true in Hsame.
Qed.

Lemma steady_finish facts secret : steady (mobile.finish_login (P := P) (N := N) (H := H) facts secret).
Proof. unfold mobile.finish_login. go_keeps. Qed.
Lemma bind_result_inv {A B} (Q : B → Prop) (f : M Mobile A) (k : A → M Mobile B) m b m' :
  (∀ a m b m', k a m = (Ok b, m') → Q b) → bindM f k m = (Ok b, m') → Q b.
Proof. intros Hk. unfold bindM. destruct (f m) as [[a|] m1]; [|done]. apply Hk. Qed.
Lemma finish_secret facts secret m lr m' :
  mobile.finish_login (P := P) (N := N) (H := H) facts secret m = (Ok lr, m') → mobile.lr_identity_secret lr = secret.
Proof.
  unfold mobile.finish_login.
  do 4 (apply (bind_result_inv (λ lr, mobile.lr_identity_secret lr = secret)); intros ????).
  by intros [= <- _].
Qed.

(** C11: However the registry answers, a login does not replace the identity of a
    running session and does not change the account the client is logged in to.
    When it succeeds the client is logged in with what the registry has just
    confirmed, under an identity whose wallet key the registry holds and that the
    account's public record does not contradict; the platform is handed the secret
    of that identity exactly if the session is new. *)
Theorem login_keeps_identity (create : P → result error Identity * P)
    (Hcreate : ∀ p i, (create p).1 = Ok i → Identity.wf i) (code : str) (m : Mobile) :
  let '(r, m') := mobile.confirm_email_login_inner create code m in
  (∀ i, identity_of m = Some i → identity_of m' = Some i) ∧
  (∀ a, mobile.mb_account m = Some a →
     ∃ a', mobile.mb_account m' = Some a' ∧ rs_account_id a' = rs_account_id a) ∧
  ∀ lr, r = Ok lr → ∃ registry facts i m1,
    RegistryClient_new (mobile.mb_registry_url m) = Ok registry ∧
    mobile.ask_registry registry (trim code) m = (Ok facts, m1) ∧
    mobile.mb_account m' = Some (cl_session (mobile.lf_login facts)) ∧
    identity_of m' = Some i ∧ chosen facts i ∧ recoverable registry facts i ∧
    secret_for (identity_of m) i (mobile.lr_identity_secret lr).
Proof.
  unfold mobile.confirm_email_login_inner.
  assert (Hsame : ∀ m' : Mobile, goes_on m m' →
    (∀ i, identity_of m = Some i → identity_of m' = Some i) ∧
    (∀ a, mobile.mb_account m = Some a →
       ∃ a', mobile.mb_account m' = Some a' ∧ rs_account_id a' = rs_account_id a)).
  { intros m' [[Hi|Hi] Ha]; split; [by rewrite Hi|rewrite Ha; eauto|by rewrite Hi|rewrite Ha; eauto]. }
  destruct (bool_decide _); [by split_and!; [| |done]; apply Hsame|].
  unfold bindM at 1. destruct (RegistryClient_new _) as [registry|e]; [|by split_and!; [| |done]; apply Hsame].
  unfold bindM at 1. pose proof (steady_ask registry (trim code) m) as Ha.
  destruct (mobile.ask_registry registry (trim code) m) as [[facts|e] m1] eqn:Hask; cbn [snd] in Ha;
    [|by split_and!; [| |done]; apply Hsame].
  unfold bindM at 1. pose proof (take_spec create registry facts m1 Hcreate) as Ht.
  destruct (mobile.take_session create registry facts m1) as [[secret|e] m2]; destruct Ht as [Ht Hsecret];
    [|by split_and!; [| |done]; apply Hsame; transitivity m1].
  destruct (Hsecret _ eq_refl) as (i & Hi & Hc & Hr & Hs). clear Hsecret.
  destruct (ask_spec _ _ _ _ _ Hask) as [Hsession Haccount].
  assert (identity_of m1 = identity_of m) as Him by (unfold identity_of; by rewrite Hsession).
  set (m3 := mobile.set_account (Some (cl_session (mobile.lf_login facts))) m2).
  unfold bindM at 1. change (mobile.finish_login facts secret _) with (mobile.finish_login facts secret m3).
  pose proof (steady_finish facts secret m3) as Hf. pose proof (finish_secret facts secret m3) as Hlr.
  destruct (mobile.finish_login facts secret m3) as [r m']. cbn [snd] in Hf.
  assert (identity_of m3 = Some i) as Hi3 by exact Hi.
  destruct Hf as [[Hf|Hf] Hfa]; [by rewrite Hi3 in Hf|]. rewrite Hi3 in Hf.
  split_and!.
  - intros j Hj. destruct Ht as [[Ht|Ht] _]; [by rewrite Him, Hj in Ht|]. congruence.
  - intros a Hacc. eexists. split; [exact Hfa|]. by apply Haccount.
  - intros lr ->. exists registry, facts, i, m1. rewrite (Hlr _ _ eq_refl), <-Him. by split_and!.
Qed.
End Login.
