(* ===== verification/MobileWitness.v ===== *)
(** * MobileWitness: the theorems on the mobile client at concrete inputs

    Logins of a phone against a registry whose answers are given. *)

From S2P Require Import Prelude Std Crypto Wire Identity UserId Records X3DH Group GroupSession Message Delivery Storage FileStore FileStoreProps Recovery LocalState LocalProps Antirollback History HistoryProps Groups Codecs WireOps Peerbook PeerbookProps Flow FlowProps EndToEnd FlowWitness Outbox OutboxProps Registry RegistryWitness RegistryClient Client Runtime Shell Interleave Frame Acceptance Peers Delivered ClientWitness Mobile MobileProps Instances.

#[export] Instance RegistrySession_codec : Codec RegistrySession.
Proof.
  refine (codec_iso (λ s, (rs_registry_url s, rs_account_id s, rs_session_token s, rs_session_expires_at s))
    (λ '(u, a, t, e), Some (RegistryClient.mkSession u a t e)) _). by intros [].
Defined.
#[export] Instance EmailRequest_codec : Codec EmailRequest.
Proof. refine (codec_iso eq_email (λ e, Some (mkEmailRequest e)) _). by intros []. Defined.
#[export] Instance EmailResponse_codec : Codec EmailResponse.
Proof. refine (codec_iso es_expires_at (λ e, Some (mkEmailResponse e)) _). by intros []. Defined.
#[export] Instance ConfirmRequest_codec : Codec ConfirmRequest.
Proof. refine (codec_iso cq_token (λ e, Some (mkConfirmRequest e)) _). by intros []. Defined.
#[export] Instance ConfirmResponse_codec : Codec ConfirmResponse.
Proof.
  refine (codec_iso (λ s, (cr_account_id s, cr_created s, cr_session_token s, cr_session_expires_at s))
    (λ '(a, c, t, e), Some (mkConfirmResponse a c t e)) _). by intros [].
Defined.

(** A registry that gives the answers in order, and no Reticulum node. *)
Abbreviation Answers := (list (result HttpError Response)).
#[export] Instance scripted_agent : Agent Answers := λ _ _ _ _ h,
  match h with [] => (Err Other, []) | answer :: h => (answer, h) end.
#[export] Instance no_node : Reticulum unit Answers := {|
  node_new _ h := (None, h); send_and_wait _ _ _ h := (None, h); node_shutdown _ h := h |}.

Definition body (b : bytes) : result HttpError Response := Ok (mkResponse (λ _, Some b)).
Definition not_found : result HttpError Response := Err (StatusCode 404).
Definition confirmed (created : bool) : result HttpError Response :=
  body (default [] (to_vec (mkConfirmResponse b#"account" created b#"token" (i_sat 900)))).
Abbreviation Phone := (mobile.Mobile (P := N) (N := unit) (H := Answers)).
Definition phone (h : Answers) : Phone :=
  mobile.mkMobile b#"https://registry" None None [] false false
    (mkHost ∅ Unlocked (λ _, false) true []) 60%N h.
Definition create (p : N) : result error Identity * N :=
  match client.create_identity 3 p with Some r => r | None => (Err (Anyhow []), p) end.
Definition login (m : Phone) : result error mobile.LoginResult * Phone := mobile.confirm_email_login_inner create b#"code " m.

(** The first login of an account. *)
Example first_login :
  let '(r, m) := login (phone [confirmed true; not_found; not_found; body []]) in
  (match r with Ok lr => bool_decide (is_Some (mobile.lr_identity_secret lr)) | Err _ => false end,
   mobile.current_state m, length (mobile.mb_host m)) = (true, mobile.NeedsProfile, 0%nat).
Proof. vm_compute. reflexivity. Qed.

Lemma create_wf p i : (create p).1 = Ok i → Identity.wf i.
Proof.
  unfold create, client.create_identity, Identity.generate.
  destruct (Identity.draw_wallet 3 p) as [[w p']|]; [|done]. destruct (fill_random p' 32) as [seed p''].
  cbn. destruct (Identity.build w seed) as [j|e] eqn:Hb; cbn; [|done]. intros [= <-].
  by eapply Identity.build_wf.
Qed.

Lemma login_keeps_identity_witness :
  ∃ i secret, identity_of (login (phone [confirmed true; not_found; not_found; body []])).2 = Some i ∧
    mobile.decode_identity_secret secret = Ok i ∧
    match (login (phone [confirmed true; not_found; not_found; body []])).1 with
    | Ok lr => mobile.lr_identity_secret lr = Some secret
    | Err _ => False
    end.
Proof.
  pose proof first_login as Hf.
  pose proof (login_keeps_identity create create_wf b#"code "
    (phone [confirmed true; not_found; not_found; body []])) as H.
  fold (login (phone [confirmed true; not_found; not_found; body []])) in H.
  destruct (login _) as [r m]. destruct H as (_ & _ & H). injection Hf as Hr _ _.
  destruct r as [lr|]; [|discriminate Hr].
  destruct (H lr eq_refl) as (registry & facts & i & m1 & _ & _ & _ & Hi & _ & _ & Hs).
  unfold secret_for in Hs. destruct (mobile.lr_identity_secret lr) as [secret|] eqn:Hl; [|discriminate Hr].
  exists i, secret. cbn [fst snd]. split_and!; [done|apply Hs|done].
Defined.

Definition answering (h : Answers) (m : Phone) : Phone := mobile.set_host h m.
Definition save_profile (name : str) (m : Phone) : result error mobile.ProfileInfo * Phone :=
  mobile.publish_profile (λ s, s) b#"alice" name m.
Definition own_record (m : Phone) : result HttpError Response :=
  match mobile.mb_session m with
  | Some s => match mobile.ss_own_record s with Some r => body (wire.encode r) | None => not_found end
  | None => not_found
  end.
Definition error_text {A} (r : result error A) : str := match r with Err (Anyhow e) => e | _ => [] end.

(** The login of a second device of Alice.  Publishing its record fails after the
    session is in place, so the login is an error and no secret reaches the
    platform.  The device goes on, is published, is ready, and logs in again: the
    secret is never given. *)
Definition alice_elsewhere (record : result HttpError Response) : list (result HttpError Response) :=
  [confirmed false; body (Identity.wallet_secret alice); record].
Definition interrupted : result error mobile.LoginResult * Phone :=
  login (phone (alice_elsewhere (body (wire.encode alice_record)) ++ [Err Timeout])).
Definition resumed : result error mobile.ProfileInfo * Phone :=
  save_profile b#"Alice" (answering [body []] interrupted.2).
Example secret_never_given :
  let again := login (answering (alice_elsewhere (own_record resumed.2) ++ [body []]) resumed.2) in
  (error_text interrupted.1, mobile.current_state resumed.2,
   match again.1 with Ok lr => Some (mobile.lr_state lr, mobile.lr_identity_secret lr) | Err _ => None end) =
  (b#"could not publish active device: the registry took too long to respond", mobile.Ready,
   Some (mobile.Ready, None)).
Proof. vm_compute. reflexivity. Qed.

(** A rename while the registry session is expired is stored in the local record and
    answered by the advice to log in again; that login compares the record of the
    registry with the newer local one and is refused, although its session is on the disk by then. *)
Definition settled_in : Phone :=
  (save_profile b#"Alice" (answering [body []] (login (phone [confirmed true; not_found; not_found; body []])).2)).2.
Definition renamed : result error mobile.ProfileInfo * Phone :=
  save_profile b#"Alicia" (mobile.set_platform 1000%N (answering [own_record settled_in] settled_in)).
Example login_refused_after_rename :
  let recovery := match mobile.mb_session settled_in with
                  | Some s => body (Identity.wallet_secret (mobile.ss_identity s)) | None => not_found end in
  let again := login (answering [confirmed false; recovery; own_record settled_in] renamed.2) in
  (mobile.current_state settled_in, error_text renamed.1, error_text again.1) =
  (mobile.Ready, b#"log in again to publish profile or device changes", b#"stale record for 'alice'").
Proof. vm_compute. reflexivity. Qed.
