(* ===== verification/Linux.v ===== *)
(** * Linux: [mycellium-linux/src/main.rs]

    The state behind the window of the desktop client and what its buttons,
    threads and events do to it; drawing is left out.  The core that it shares
    with the mobile client - registry, account, session, host - is the record
    [mobile.Mobile].  An action that spawns a thread is one program: its first
    step is the action, the rest the thread, which ends by sending an event. *)

From S2P Require Import Prelude Interleave Std Crypto Wire Identity UserId Records X3DH Group Message Delivery Storage FileStore Sealing LocalState Antirollback History Groups WireOps Peerbook Outbox Flow RegistryClient Client Runtime Shell Send Mobile Instances.

Module linux.
Definition REGISTRY_SESSION_KEY : bytes := b#"linux:registry-session:v1".

Inductive View : Type := VMessages | VPeople | VDevice.

Record AccountContext : Type := mkContext {
  ac_login : ConfirmedLogin; ac_recovery : option (arr 32); ac_record : option SignedRecord }.

Inductive RuntimeEvent : Type :=
  | RFlow (event : FlowEvent)
  | RNotice (message : str)
  | RError (message : str)
  | RLoginRequested (expires_at : i64)
  | RAccountAuthenticated (context : AccountContext)
  | RDeviceCurrent (current : bool)
  | RMessageFinished (user_id draft : str) (result : result str str).

(** The fields of [LinuxClient], in groups; the filter of the list of conversations
    is presentation. *)
Record Auth : Type := mkAuth {
  au_identity_exists : bool;
  au_email : str;
  au_login_code : str;
  au_login_requested : bool;
  au_account_login_open : bool;
  au_account_busy : bool;
  au_pending_recovery : option (arr 32);
  au_recovery_record : option SignedRecord;
  au_passphrase : str;
  au_passphrase_confirmation : str }.
Record Profile : Type := mkProfile {
  pf_display_name : str; pf_my_handle : str; pf_record_blob : str; pf_device_replaced : bool }.
Record Compose : Type := mkCompose {
  cm_selected_user_id : str; cm_new_recipient : str; cm_message : str; cm_drafts : Mem; cm_message_busy : bool }.
Record People : Type := mkPeople {
  pp_adding_person : bool; pp_contact_nickname : str; pp_contact_card : str; pp_selected_contact : str }.
Record Banner : Type := mkBanner { bn_notice : str; bn_error : str }.

(** ** Paths and labels *)

Definition resolve_data_dir (xdg_data_home home : option str) : str :=
  match xdg_data_home with
  | Some dir => path_join dir b#"mycellium"
  | None => match home with Some home => path_join home b#".local/share/mycellium" | None => b#".mycellium" end
  end.
Definition format_clock (timestamp : u64) : str :=
  let seconds := (u_val timestamp mod 86400)%N in
  dec_fixed 2 (seconds / 3600) ++ b#":" ++ dec_fixed 2 (seconds mod 3600 / 60) ++ b#" UTC".
Definition hex_prefix (input : bytes) (count : nat) : str := hex (take count input).

Example data_directories :
  (resolve_data_dir (Some b#"/xdg") (Some b#"/home/user"), resolve_data_dir None (Some b#"/home/user"),
   resolve_data_dir None None, format_clock (usat 64 86399)) =
  (b#"/xdg/mycellium", b#"/home/user/.local/share/mycellium", b#".mycellium", b#"23:59 UTC").
Proof. vm_compute. reflexivity. Qed.

(** ** The text being written, for each conversation *)
Definition stashed (c : Compose) : Mem :=
  if negb (bool_decide (cm_selected_user_id c = [])) && negb (bool_decide (cm_message c = []))
  then <[cm_selected_user_id c := cm_message c]> (cm_drafts c) else cm_drafts c.
Definition select_conversation (user_id : str) (c : Compose) : Compose :=
  mkCompose user_id (cm_new_recipient c) (default [] (stashed c !! user_id)) (base.delete user_id (stashed c))
    (cm_message_busy c).

(** The text is taken out of the window. *)
Definition take_message (c : Compose) : Compose :=
  mkCompose (cm_selected_user_id c) (cm_new_recipient c) [] (base.delete (cm_selected_user_id c) (cm_drafts c)) true.

(** [MessageFinished] *)
Definition message_finished (user_id draft : str) (failed : bool) (c : Compose) : Compose :=
  if negb failed then mkCompose (cm_selected_user_id c) (cm_new_recipient c) (cm_message c) (cm_drafts c) false
  else if bool_decide (cm_selected_user_id c = user_id) && bool_decide (cm_message c = [])
  then mkCompose (cm_selected_user_id c) (cm_new_recipient c) draft (cm_drafts c) false
  else mkCompose (cm_selected_user_id c) (cm_new_recipient c) (cm_message c)
         (match cm_drafts c !! user_id with Some _ => cm_drafts c | None => <[user_id := draft]> (cm_drafts c) end)
         false.

Definition err_text (e : error) : str := match e with Anyhow msg | StorageError msg => msg end.

Definition open_error (e : TrustError) : error :=
  Anyhow match e with
  | IdentityChanged => b#"this person's identity changed; review it in People"
  | StaleRecord => b#"the saved identity record is stale"
  | Unverified => b#"the identity record is invalid"
  | BadHandle => b#"person not found; add their connection card first"
  end.
Definition send_error (e : TrustError) : error :=
  Anyhow match e with
  | BadHandle => b#"this person is no longer available"
  | Unverified => b#"their identity record is invalid"
  | IdentityChanged => b#"their identity changed; review it in People before sending"
  | StaleRecord => b#"their identity record is stale"
  end.

(** ** The state *)
Section Linux.
Context {crypto : Crypto} {P N H : Type} `{!Platform P, !Reticulum N H, !Agent H, !Postcard (list StorageMutation)}
  `{!Postcard IdentityClaim, !Postcard (WalletPublicKey * DeviceRecord), !Postcard DeviceRecord,
    !Postcard ReachabilityRecord, !Postcard VersionPins, !Postcard WalletPublicKey,
    !Postcard contacts.Contact, !Postcard (list str), !Postcard (list (str * str)),
    !Postcard AppMessage, !Postcard attachments.StoredAttachment, !Postcard StoredGroup,
    !Postcard (list StoredMessage), !Postcard (list GroupStoredMessage), !Postcard SegMeta,
    !Postcard (list peerbook.PeerRecord), !Json GroupInvitePayload, !Json GroupLeavePayload,
    !Postcard SignedRecord, !Postcard str, !Postcard u64, !Postcard outbox.OutboxEntry,
    !Postcard (list outbox.OutboxEntry), !Postcard (list outbox.LegacyOutboxEntry),
    !Postcard inbox.AcceptedDelivery, !Postcard (list inbox.AcceptedDelivery),
    !Postcard MailItem, !Postcard PeerFrame, !Postcard AckBody, !Json RegistrySession,
    !Json EmailRequest, !Json EmailResponse, !Json ConfirmRequest, !Json ConfirmResponse,
    !Argon2, !Json Sealed, !Json Secret}.
Abbreviation Core := (@mobile.Mobile P N H).
Abbreviation Session := (@mobile.Session N).
Abbreviation Net := (runtime.DirectNetwork N H).

(** [dk_core] has the registry, the account, the session and whether the monitor
    was started; [dk_dir] is the data directory. *)
Record Desktop : Type := mkDesktop {
  dk_core : Core;
  dk_dir : Host;
  dk_auth : Auth;
  dk_profile : Profile;
  dk_compose : Compose;
  dk_people : People;
  dk_banner : Banner;
  dk_view : View;
  dk_events : list RuntimeEvent
}.
Abbreviation Dk A := (M Desktop A).
Abbreviation Pd A := (Prog Desktop error A).

Definition set_core (x : Core) (d : Desktop) : Desktop :=
  mkDesktop x (dk_dir d) (dk_auth d) (dk_profile d) (dk_compose d) (dk_people d) (dk_banner d) (dk_view d) (dk_events d).
Definition set_dir (x : Host) (d : Desktop) : Desktop :=
  mkDesktop (dk_core d) x (dk_auth d) (dk_profile d) (dk_compose d) (dk_people d) (dk_banner d) (dk_view d) (dk_events d).
Definition set_auth (x : Auth) (d : Desktop) : Desktop :=
  mkDesktop (dk_core d) (dk_dir d) x (dk_profile d) (dk_compose d) (dk_people d) (dk_banner d) (dk_view d) (dk_events d).
Definition set_profile (x : Profile) (d : Desktop) : Desktop :=
  mkDesktop (dk_core d) (dk_dir d) (dk_auth d) x (dk_compose d) (dk_people d) (dk_banner d) (dk_view d) (dk_events d).
Definition set_compose (x : Compose) (d : Desktop) : Desktop :=
  mkDesktop (dk_core d) (dk_dir d) (dk_auth d) (dk_profile d) x (dk_people d) (dk_banner d) (dk_view d) (dk_events d).
Definition set_people (x : People) (d : Desktop) : Desktop :=
  mkDesktop (dk_core d) (dk_dir d) (dk_auth d) (dk_profile d) (dk_compose d) x (dk_banner d) (dk_view d) (dk_events d).
Definition set_banner (x : Banner) (d : Desktop) : Desktop :=
  mkDesktop (dk_core d) (dk_dir d) (dk_auth d) (dk_profile d) (dk_compose d) (dk_people d) x (dk_view d) (dk_events d).
Definition set_view (x : View) (d : Desktop) : Desktop :=
  mkDesktop (dk_core d) (dk_dir d) (dk_auth d) (dk_profile d) (dk_compose d) (dk_people d) (dk_banner d) x (dk_events d).
Definition set_events (x : list RuntimeEvent) (d : Desktop) : Desktop :=
  mkDesktop (dk_core d) (dk_dir d) (dk_auth d) (dk_profile d) (dk_compose d) (dk_people d) (dk_banner d) (dk_view d) x.

Definition change (f : Desktop → Desktop) : Dk unit := λ d, (Ok tt, f d).
Definition on_auth (f : Auth → Auth) : Dk unit := change (λ d, set_auth (f (dk_auth d)) d).
Definition on_profile (f : Profile → Profile) : Dk unit := change (λ d, set_profile (f (dk_profile d)) d).
Definition on_compose (f : Compose → Compose) : Dk unit := change (λ d, set_compose (f (dk_compose d)) d).
Definition on_people (f : People → People) : Dk unit := change (λ d, set_people (f (dk_people d)) d).
Definition notice (text : str) : Dk unit := change (set_banner (mkBanner text [])).
Definition show_error (text : str) : Dk unit := change (set_banner (mkBanner [] text)).
Definition clear_banner : Dk unit := change (set_banner (mkBanner [] [])).
(** [self.notice = ...], the error left as it is. *)
Definition note (text : str) : Dk unit := change (λ d, set_banner (mkBanner text (bn_error (dk_banner d))) d).
Definition send_event (event : RuntimeEvent) : Dk unit := change (λ d, set_events (dk_events d ++ [event]) d).

Definition core {A} (f : M Core A) : Dk A := λ d, let '(r, c) := f (dk_core d) in (r, set_core c d).
Definition on_dir {A} (f : M Host A) : Dk A := λ d, let '(r, h) := f (dk_dir d) in (r, set_dir h d).
Definition asking {A} (f : M H A) : Dk A := core (mobile.on_registry f).
Definition now : Dk u64 := core mobile.mb_now.
Definition get {A} (f : Desktop → A) : Dk A := λ d, (Ok (f d), d).

Definition session_mut : Dk Session :=
  readM (λ d, ok_or (Anyhow b#"unlock this device first") (mobile.mb_session (dk_core d))).
Definition in_store {A} (f : M FileStore A) : Dk A := let! _ := session_mut in core (mobile.in_store f).
Definition change_session (f : Session → Session) : Dk unit :=
  core (mobile.in_session (λ s, (Ok tt, f s))).
Definition account : Dk (option RegistrySession) := get (λ d, mobile.mb_account (dk_core d)).

(** [LinuxClient::run] *)
Definition run (ok : str) (action : Dk unit) : Dk unit :=
  let! _ := clear_banner in
  let! result := tryM action in
  match result with
  | Ok _ => note ok
  | Err e => change (λ d, set_banner (mkBanner (bn_notice (dk_banner d)) (err_text e)) d)
  end.

(** ** Logging in *)
Definition with_email (x : str) (a : Auth) : Auth :=
  mkAuth (au_identity_exists a) x (au_login_code a) (au_login_requested a) (au_account_login_open a)
    (au_account_busy a) (au_pending_recovery a) (au_recovery_record a) (au_passphrase a) (au_passphrase_confirmation a).
Definition with_login_code (x : str) (a : Auth) : Auth :=
  mkAuth (au_identity_exists a) (au_email a) x (au_login_requested a) (au_account_login_open a)
    (au_account_busy a) (au_pending_recovery a) (au_recovery_record a) (au_passphrase a) (au_passphrase_confirmation a).
Definition with_login_requested (x : bool) (a : Auth) : Auth :=
  mkAuth (au_identity_exists a) (au_email a) (au_login_code a) x (au_account_login_open a)
    (au_account_busy a) (au_pending_recovery a) (au_recovery_record a) (au_passphrase a) (au_passphrase_confirmation a).
Definition with_login_open (x : bool) (a : Auth) : Auth :=
  mkAuth (au_identity_exists a) (au_email a) (au_login_code a) (au_login_requested a) x
    (au_account_busy a) (au_pending_recovery a) (au_recovery_record a) (au_passphrase a) (au_passphrase_confirmation a).
Definition with_busy (x : bool) (a : Auth) : Auth :=
  mkAuth (au_identity_exists a) (au_email a) (au_login_code a) (au_login_requested a) (au_account_login_open a)
    x (au_pending_recovery a) (au_recovery_record a) (au_passphrase a) (au_passphrase_confirmation a).
Definition with_recovery (x : option (arr 32)) (r : option SignedRecord) (a : Auth) : Auth :=
  mkAuth (au_identity_exists a) (au_email a) (au_login_code a) (au_login_requested a) (au_account_login_open a)
    (au_account_busy a) x r (au_passphrase a) (au_passphrase_confirmation a).
Definition with_passphrases (x y : str) (a : Auth) : Auth :=
  mkAuth (au_identity_exists a) (au_email a) (au_login_code a) (au_login_requested a) (au_account_login_open a)
    (au_account_busy a) (au_pending_recovery a) (au_recovery_record a) x y.
Definition with_identity (x : bool) (a : Auth) : Auth :=
  mkAuth x (au_email a) (au_login_code a) (au_login_requested a) (au_account_login_open a)
    (au_account_busy a) (au_pending_recovery a) (au_recovery_record a) (au_passphrase a) (au_passphrase_confirmation a).

(** The thread of a request: its result becomes an event. *)
Definition report {A} (result : Pd A) (event : A → RuntimeEvent) : Pd unit :=
  catchP result (λ r, atomic (send_event (match r with Ok a => event a | Err e => RError (err_text e) end))).

Definition request_email_login : Pd unit :=
  let# request := atomic (
    let! _ := clear_banner in
    let! email := get (λ d, trim (au_email (dk_auth d))) in
    if bool_decide (email = []) then let! _ := show_error b#"enter your email address" in retM None
    else
      let! url := get (λ d, mobile.mb_registry_url (dk_core d)) in
      let! _ := on_auth (with_busy true) in retM (Some (url, email))) in
  match request with
  | None => okP tt
  | Some (url, email) =>
      report (let# registry := Ret (RegistryClient_new url) in
              atomic (asking (RegistryClient.request_email_login registry email))) RLoginRequested
  end.

Definition confirm_email_login : Pd unit :=
  let# request := atomic (
    let! _ := clear_banner in
    let! token := get (λ d, trim (au_login_code (dk_auth d))) in
    if bool_decide (token = []) then let! _ := show_error b#"enter the code from your email" in retM None
    else
      let! url := get (λ d, mobile.mb_registry_url (dk_core d)) in
      let! _ := on_auth (with_login_code []) in
      let! _ := on_auth (with_busy true) in retM (Some (url, token))) in
  match request with
  | None => okP tt
  | Some (url, token) =>
      report (let# registry := Ret (RegistryClient_new url) in
              let# login := atomic (asking (confirm_login registry token)) in
              let# recovery := atomic (asking (get_recovery registry (cl_session login))) in
              let# record := atomic (asking (get_record registry (rs_account_id (cl_session login)))) in
              okP (mkContext login recovery record)) RAccountAuthenticated
  end.

(** A link given on the command line. *)
Definition login_from_link (link : str) : Pd unit :=
  match login_token_from_link link with
  | Err e => atomic (change (λ d, set_banner (mkBanner (bn_notice (dk_banner d)) (err_text e)) d))
  | Ok token =>
      let# _ := atomic (on_auth (λ a, with_login_requested true (with_login_open true (with_login_code token a)))) in
      confirm_email_login
  end.

(** The threads are started once each; their turns follow below. *)
Definition start_account_monitor : Dk unit := change (λ d,
  let c := dk_core d in
  if negb (mobile.mb_monitor_started c) && bool_decide (is_Some (mobile.mb_account c))
     && bool_decide (is_Some (mobile.mb_session c))
  then set_core (mobile.set_started (mobile.mb_outbox_started c) true c) d else d).

Definition save_account_session (session : RegistrySession) : M FileStore unit := λ store,
  match to_vec session with
  | None => (Err (Anyhow b#"could not encode the account session"), store)
  | Some b => let '(r, store) := st_put REGISTRY_SESSION_KEY b store in
              (map_err (λ e, Anyhow (b#"could not save the local account session: " ++ err_text e)) r, store)
  end.
Definition load_account_session (store : FileStore) : result error (option RegistrySession) :=
  let? input := map_err (λ e, Anyhow (b#"could not read the local account session: " ++ err_text e))
                  (st_get REGISTRY_SESSION_KEY store) in
  match input with
  | None => Ok None
  | Some input => match from_slice input with
                  | Some session => Ok (Some session)
                  | None => Err (Anyhow b#"the local account session is corrupt")
                  end
  end.

Definition find_user (u : UserId) (records : list peerbook.PeerRecord) : option SignedRecord :=
  option_map peerbook.record (List.find (λ e, bool_decide (peerbook.user_id e = UserId.as_str u)) records).

(** [accept_account] where a session is there. *)
Definition accept_for_session (context : AccountContext) (local : Session) : Dk unit :=
  let identity := mobile.ss_identity local in
  let login := ac_login context in
  if match ac_recovery context with
     | Some stored => negb (bool_decide (stored = Identity.wallet_secret identity)) | None => false
     end
  then errM (Anyhow b#"this registry account belongs to a different Mycellium identity")
  else if mobile.other_user identity (ac_record context)
  then errM (Anyhow b#"this registry account publishes a different Mycellium identity")
  else
    let! registry := liftM (RegistryClient_new (rs_registry_url (cl_session login))) in
    let! _ := match ac_recovery context with
              | Some _ => retM tt
              | None => asking (put_recovery registry (cl_session login) (Identity.wallet_secret identity))
              end in
    let! records := in_store (readM client.list_records) in
    match ac_record context with
    | None =>
        match find_user (user_id (Identity.wallet_public identity)) records with
        | Some own_record => asking (put_record registry (cl_session login) own_record)
        | None => retM tt
        end
    | Some remote =>
        let current := client.is_current_device identity remote in
        let! _ := change_session (mobile.with_current current) in
        on_profile (λ p, mkProfile (pf_display_name p) (pf_my_handle p) (pf_record_blob p) (negb current))
    end.

(** [accept_account] where the device is to be set up. *)
Definition accept_for_setup (context : AccountContext) : Dk unit :=
  match ac_recovery context, ac_record context with
  | None, Some _ => errM (Anyhow b#"this account has an identity record but no recovery material")
  | recovery, record =>
      let! _ := on_auth (with_recovery recovery record) in
      match record with
      | Some r => on_profile (λ p, mkProfile (r_name (sg_record r)) (Handle.as_str (r_handle (sg_record r)))
                                     (pf_record_blob p) (pf_device_replaced p))
      | None => retM tt
      end
  end.

Definition set_registry_url (url : str) (c : Core) : Core :=
  mobile.mkMobile url (mobile.mb_account c) (mobile.mb_session c) (mobile.mb_events c) (mobile.mb_outbox_started c)
    (mobile.mb_monitor_started c) (mobile.mb_disk c) (mobile.mb_platform c) (mobile.mb_host c).

Definition accept_account (context : AccountContext) : Dk unit :=
  let login := ac_login context in
  let! existing := account in
  if match existing with
     | Some a => negb (bool_decide (rs_account_id a = rs_account_id (cl_session login))) | None => false
     end
  then errM (Anyhow b#"that email belongs to a different Mycellium account")
  else
    let! session := get (λ d, mobile.mb_session (dk_core d)) in
    let! _ := match session with
              | Some local =>
                  let! _ := accept_for_session context local in in_store (save_account_session (cl_session login))
              | None => accept_for_setup context
              end in
    let! _ := change (λ d, set_core (set_registry_url (rs_registry_url (cl_session login))
                (mobile.set_account (Some (cl_session login)) (dk_core d))) d) in
    let! _ := on_auth (λ a, with_login_open false (with_login_requested false (with_email [] a))) in
    let! _ := note (if cl_created login then b#"Email verified. Set up this device." else b#"Email verified") in
    match session with Some _ => start_account_monitor | None => retM tt end.

(** ** Unlocking and setting up *)
Definition open_history (identity : Identity) : Dk FileStore := λ d,
  let c := dk_core d in
  match FileStore.open (Identity.storage_key identity) (mobile.mb_disk c) with
  | (Err e, h) => (Err (Anyhow (b#"could not open local message history: " ++ err_text e)), set_core (mobile.set_disk h c) d)
  | (Ok _, h) => (Ok (mkFileStore (Identity.storage_key identity) h), set_core (mobile.set_disk h c) d)
  end.

(** A store that does not become part of a session is closed again. *)
Definition closing {A} (store : FileStore) (r : result error A) : Dk A :=
  match r with
  | Ok a => retM a
  | Err e =>
      let h := fs_host store in
      let! _ := core (λ c, (Ok tt, mobile.set_disk (mkHost (files h) (unlocked (lock h)) (unreadable h) (alive h) (script h)) c)) in
      errM e
  end.

Definition open_session (identity : Identity) : Dk unit :=
  let! store := open_history identity in
  let! loaded := closing store (load_account_session store) in
  let! now := now in
  let! _ := match loaded with
            | Some account =>
                let! _ := on_auth (with_login_open (is_expired account (mobile.as_i64 now))) in
                change (λ d, set_core (set_registry_url (rs_registry_url account)
                          (mobile.set_account (Some account) (dk_core d))) d)
            | None => retM tt
            end in
  let! records := closing store (client.list_records store) in
  change (λ d, set_core (mobile.set_session (Some (mobile.mkSession identity store
    (runtime.mkNetwork (Identity.reticulum_private_bytes identity) None None true tt)
    (mobile.find_own identity records) false true)) (dk_core d)) d).

Definition start_listener (start : bool) : Dk unit :=
  let! session := session_mut in
  if mobile.ss_listener_started session || negb start then retM tt
  else
    let! node := core (mobile.in_network runtime.reticulum) in
    match node with
    | None => errM (Anyhow b#"could not start Reticulum node")
    | Some _ => change_session (mobile.with_listener true)
    end.

Definition chosen_name (handle : Handle) (name : str) : str :=
  if bool_decide (trim name = []) then Handle.as_str handle else trim name.
Definition chosen_handle (input : str) : result error Handle :=
  map_err (λ _, Anyhow b#"choose a valid handle") (Handle.new (trim input)).

(** The registry's part of [publish_profile]. *)
Definition announce (account : RegistrySession) (record : SignedRecord) : Dk unit :=
  let! registry := liftM (RegistryClient_new (rs_registry_url account)) in
  let! now := now in
  let! _ :=
    if is_expired account (mobile.as_i64 now) then
      let! found := asking (get_record registry (rs_account_id account)) in
      if mobile.differs found record then errM (Anyhow b#"log in again to publish profile or device changes")
      else retM tt
    else asking (put_record registry account record) in
  let! _ := change_session (mobile.with_current true) in
  on_profile (λ p, mkProfile (pf_display_name p) (pf_my_handle p) (pf_record_blob p) false).

Definition publish_profile : Dk unit :=
  let! profile := get dk_profile in
  let! handle := liftM (chosen_handle (pf_my_handle profile)) in
  let name := chosen_name handle (pf_display_name profile) in
  let! account := account in
  let! session := session_mut in
  let start := negb (mobile.ss_listener_started session) in
  let! record := λ d, in_store (client.publish_active_device_record (mobile.mb_platform (dk_core d))
                                  (mobile.ss_identity session) handle name) d in
  let! _ := match account with Some account => announce account record | None => retM tt end in
  let! _ := on_profile (λ p, mkProfile name (Handle.as_str handle) (client.encode_record record) (pf_device_replaced p)) in
  let! _ := change_session (mobile.with_own_record (Some record)) in
  let! _ := start_listener start in
  match account with
  | Some account => core (mobile.in_network (λ net : Net, (tt, runtime.use_registry (rs_registry_url account) net)))
  | None => retM tt
  end.
Definition save_profile : Dk unit := run b#"Profile updated" publish_profile.

Definition restore_profile : Dk unit :=
  let! session := session_mut in
  let identity := mobile.ss_identity session in
  let! records := in_store (readM client.list_records) in
  match mobile.find_own identity records with
  | None => let! _ := change (set_view VDevice) in start_account_monitor
  | Some record =>
      let! _ := on_profile (λ p, mkProfile (r_name (sg_record record)) (Handle.as_str (r_handle (sg_record record)))
                                   (pf_record_blob p) (pf_device_replaced p)) in
      let! _ :=
        if negb (bool_decide (client.record_key record = Identity.device_public identity))
        then
          let! _ := on_profile (λ p, mkProfile (pf_display_name p) (pf_my_handle p) (client.encode_record record)
                                       (pf_device_replaced p)) in
          change (set_view VDevice)
        else publish_profile in
      start_account_monitor
  end.

Definition unlock : Dk unit :=
  run b#"Welcome back" (
    let! passphrase := get (λ d, au_passphrase (dk_auth d)) in
    let! identity := on_dir (readM (load_identity_with_passphrase_from passphrase)) in
    let! _ := open_session identity in
    let! _ := on_auth (λ a, with_passphrases [] (au_passphrase_confirmation a) a) in
    restore_profile).

(** What [create_identity]'s loop over random draws ends with. *)
Context (create : P → result error Identity * P).

(** A new identity: the one that is to be recovered, or a fresh one whose wallet key
    is given to the registry first and kept until the device is set up. *)
Definition choose_identity (account : RegistrySession) : Dk Identity :=
  let! recovery := get (λ d, au_pending_recovery (dk_auth d)) in
  match recovery with
  | Some wallet_secret => core (mobile.on_random (λ p, client.adopt_identity p wallet_secret))
  | None =>
      let! identity := core (mobile.on_random create) in
      let! registry := liftM (RegistryClient_new (rs_registry_url account)) in
      let! _ := asking (put_recovery registry account (Identity.wallet_secret identity)) in
      let! _ := on_auth (λ a, with_recovery (Some (Identity.wallet_secret identity)) (au_recovery_record a) a) in
      retM identity
  end.

(** The rest of the setting up. *)
Definition settle (account : RegistrySession) (identity : Identity) (passphrase : str) : Dk unit :=
  let! _ := on_dir (save_identity_with_passphrase_at identity passphrase) in
  let! _ := on_auth (with_identity true) in
  let! _ := open_session identity in
  let! _ := in_store (save_account_session account) in
  let! _ := on_auth (λ a, with_recovery None None (with_passphrases [] [] a)) in
  let! _ := publish_profile in
  start_account_monitor.

Definition create_identity : Dk unit :=
  run b#"This device is ready" (
    let! auth := get dk_auth in
    if au_identity_exists auth then errM (Anyhow b#"an identity already exists on this device")
    else
      let! account := account in
      let! account := liftM (ok_or (Anyhow b#"verify your email first") account) in
      if negb (bool_decide (au_passphrase auth = au_passphrase_confirmation auth))
      then errM (Anyhow b#"passphrases do not match")
      else if (chars_count (au_passphrase auth) <? MIN_PASSPHRASE_LEN)%nat
      then errM (Anyhow (b#"passphrase must be at least " ++ decimal (N.of_nat MIN_PASSPHRASE_LEN) ++ b#" characters"))
      else
        let! profile := get dk_profile in
        let! handle := liftM (chosen_handle (pf_my_handle profile)) in
        let! _ := if bool_decide (trim (pf_display_name profile) = [])
                  then on_profile (λ p, mkProfile (Handle.as_str handle) (pf_my_handle p) (pf_record_blob p) (pf_device_replaced p))
                  else retM tt in
        let! identity := choose_identity account in
        settle account identity (au_passphrase auth)).

(** ** People *)
Definition person_name (nickname : str) (record : SignedRecord) : str :=
  if bool_decide (trim nickname = []) then mobile.display_name record else trim nickname.

(** The card is decoded first, which may panic. *)
Definition add_person (d : Desktop) : peerbook.panics (result error unit * Desktop) :=
  option_map (λ decoded,
    run b#"Person added" (
      let! record := liftM decoded in
      let! people := get dk_people in
      let! _ := in_store (client.add_contact_from_record (person_name (pp_contact_nickname people) record) record) in
      on_people (λ _, mkPeople false [] [] (uid record))) d)
  (client.decode_record (trim (pp_contact_card (dk_people d)))).

Definition mark_verified (info : client.VerificationInfo) : Dk unit :=
  run b#"Identity verified" (in_store (client.mark_verified info)).
Definition accept_identity_change (info : client.VerificationInfo) : Dk unit :=
  run b#"New identity trusted" (in_store (client.accept_identity_change info)).
Definition remove_contact (nickname : str) : Dk unit :=
  run b#"Person removed" (
    let! _ := in_store (client.remove_contact nickname) in
    on_people (λ p, mkPeople (pp_adding_person p) (pp_contact_nickname p) (pp_contact_card p) [])).
Definition set_contact_blocked (user_id : str) (blocked : bool) : Dk unit :=
  run (if blocked then b#"Person blocked" else b#"Person unblocked") (in_store (client.set_blocked user_id blocked)).

Definition contact_blocked (user_id : str) : Dk bool :=
  in_store (readM (λ store, let? blocked := client.list_blocked store in
                            Ok (existsb (λ known, bool_decide (known = user_id)) blocked))).
Definition verification_for (user_id : str) : Dk client.VerificationInfo :=
  let! session := session_mut in
  in_store (readM (λ store,
    let? user_id := map_err (λ _, Anyhow b#"invalid user id") (UserId.new user_id) in
    let? records := client.list_records store in
    let? record := ok_or (Anyhow b#"this person's signed record is missing") (find_user user_id records) in
    client.verification_info_for_record (mobile.ss_identity session) (r_handle (sg_record record)) record store)).

(** ** Conversations *)

(** The person an input names, if messages may be sent to them. *)
Definition resolve_recipient (identity : Identity) (input : str) (store : FileStore) (platform : P)
    : result error str * FileStore * P :=
  let '(resolved, w) := client.resolve_local_record input (mkWorld store platform [] tt) in
  ((let? (_, record) := map_err open_error resolved in
    let? info := client.verification_info_for_record identity (r_handle (sg_record record)) record (w_store w) in
    if negb (send.sendable info) then Err (Anyhow b#"add this person before messaging them") else Ok (uid record)),
   w_store w, w_platform w).

Definition open_conversation : Dk unit :=
  let! _ := clear_banner in
  let! input := get (λ d, trim (cm_new_recipient (dk_compose d))) in
  let! result := tryM (
    if bool_decide (input = []) then errM (Anyhow b#"enter a saved name or handle")
    else
      let! _ := session_mut in
      core (mobile.in_session_random (λ s p store,
        let '(r, store, p) := resolve_recipient (mobile.ss_identity s) input store p in (r, p, store)))) in
  match result with
  | Ok user_id =>
      let! _ := on_compose (select_conversation user_id) in
      let! _ := change (set_view VMessages) in
      on_compose (λ c, mkCompose (cm_selected_user_id c) [] (cm_message c) (cm_drafts c) (cm_message_busy c))
  | Err e => show_error (err_text e)
  end.

Definition select (user_id : str) : Dk unit :=
  let! _ := on_compose (select_conversation user_id) in change (set_view VMessages).

Definition is_active (d : Desktop) : bool :=
  match mobile.mb_session (dk_core d) with
  | Some s => mobile.ss_listener_started s && mobile.ss_device_current s
              && negb (bool_decide (pf_my_handle (dk_profile d) = []))
  | None => false
  end.

(** Views of the store: empty when it cannot be read. *)
Definition pending_count : Dk nat :=
  let! n := tryM (in_store (readM (λ store,
    let? entries := client.list_outbox store in Ok (length (List.filter outbox.is_pending entries))))) in
  retM (match n with Ok n => n | Err _ => 0%nat end).
Definition history (user_id : str) : Dk (list StoredMessage) :=
  let! now := now in
  let! r := tryM (in_store (client.history_with user_id now)) in
  retM (match r with Ok (_, messages) => messages | Err _ => [] end).
Definition conversations : Dk (list client.ConversationPreview) :=
  let! now := now in
  let! r := tryM (in_store (client.conversations now)) in
  retM (match r with Ok l => l | Err _ => [] end).
Definition contact_le (to_lowercase : str → str) (a c : client.ContactEntry) : Prop :=
  Is_true (bytes_leb (to_lowercase (client.ce_nickname a)) (to_lowercase (client.ce_nickname c))).
#[local] Instance contact_le_dec to_lowercase : RelDecision (contact_le to_lowercase).
Proof. intros a c. unfold contact_le. apply _. Defined.
Definition contacts (to_lowercase : str → str) : Dk (list client.ContactEntry) :=
  let! r := tryM (in_store (readM client.list_contacts)) in
  retM (merge_sort (contact_le to_lowercase) (match r with Ok l => l | Err _ => [] end)).

(** ** Sending *)
Abbreviation Shared := (runtime.Shared FileStore P Net).

(** Programs on the session's cells, as in [mobile.on_session]. *)
Fixpoint on_core {A} (prog : Prog Core error A) : Pd A :=
  match prog with
  | Ret r => Ret r
  | Spin => Spin
  | Atom f k => Atom (λ d, let '(x, c) := f (dk_core d) in (x, set_core c d)) (λ x, on_core (k x))
  end.
Definition on_session {A} (prog : Prog Shared error A) : Pd A := on_core (mobile.on_session prog).

Definition send_message_now (identity : Identity) (registry_url : str) (me : Handle)
    (selected_user_id text : str) : Pd str :=
  let# refreshed := atomic (core (mobile.refreshed_record registry_url selected_user_id)) in
  let# now := atomic now in
  let# id := atomic (core (mobile.on_random (λ p, let '(id, p) := random_id p in (Ok id, p)))) in
  let app := mkAppMessage id now None (Text text) in
  let# (outcome, prepared, now) := atomic (core (mobile.in_session_random (λ _,
    send.prepare_send send_error (λ _, now) identity me selected_user_id app refreshed))) in
  let# outcome := on_session (send.deliver_prepared now prepared outcome) in
  if (u_val (direct outcome) =? 0)%N && (u_val (outboxed outcome) =? 0)%N
  then errP (Anyhow b#"message could not be sent or saved for retry")
  else if (0 <? u_val (direct outcome))%N then okP b#"Sent"
  else okP b#"Direct connection unavailable. This device will keep trying.".

(** Pressing the button, and the thread that sends. *)
Definition send_message : Pd unit :=
  let# request := atomic (
    let! _ := clear_banner in
    let! d := get (λ d, d) in
    let c := dk_compose d in
    let replaced := match mobile.mb_session (dk_core d) with
                    | Some s => negb (mobile.ss_device_current s) | None => false end in
    if cm_message_busy c then retM None
    else if pf_device_replaced (dk_profile d) || replaced
    then let! _ := show_error b#"this device was replaced; log in and make it active before sending" in retM None
    else
      match Handle.new (trim (pf_my_handle (dk_profile d))) with
      | Err _ => let! _ := show_error b#"finish setting up this device first" in retM None
      | Ok me =>
          let text := trim (cm_message c) in
          if bool_decide (cm_selected_user_id c = [])
          then let! _ := show_error b#"choose a conversation first" in retM None
          else if bool_decide (text = [])
          then let! _ := show_error b#"write a message first" in retM None
          else
            match mobile.mb_session (dk_core d) with
            | None => let! _ := show_error b#"unlock this device first" in retM None
            | Some session =>
                let! _ := on_compose take_message in
                retM (Some (mobile.ss_identity session, mobile.mb_registry_url (dk_core d), me, cm_selected_user_id c, text))
            end
      end) in
  match request with
  | None => okP tt
  | Some (identity, registry_url, me, user_id, text) =>
      catchP (send_message_now identity registry_url me user_id text) (λ result,
        atomic (send_event (RMessageFinished user_id text (match result with Ok m => Ok m | Err e => Err (err_text e) end))))
  end.

(** [retry_outbox], on the window's own thread. *)
Definition retry_outbox : Pd unit :=
  let# _ := atomic clear_banner in
  catchP (
    let# d := atomic (get (λ d, d)) in
    if pf_device_replaced (dk_profile d)
    then errP (Anyhow b#"this device was replaced; pending messages remain stored locally")
    else
      let# now := atomic now in
      let# session := atomic session_mut in
      let# _ := atomic (in_store client.make_outbox_due) in
      let# _ := on_session (runtime.flush_shared_outbox (mobile.ss_identity session) now) in
      okP tt)
  (λ result, atomic (match result with
                     | Ok _ => note b#"Tried pending messages"
                     | Err e => change (λ d, set_banner (mkBanner (bn_notice (dk_banner d)) (err_text e)) d)
                     end)).

(** ** Events *)
Definition handle_event (event : RuntimeEvent) : Dk unit :=
  match event with
  | RFlow (EDirectMessage user_id from _ _ _) =>
      let! d := get (λ d, d) in
      let! _ := if bool_decide (cm_selected_user_id (dk_compose d) = []) then select user_id else retM tt in
      notice (b#"New message from " ++ from)
  | RFlow (EGroupMessage _ name sender _ _) => notice (b#"New message in " ++ name ++ b#" from " ++ sender)
  | RFlow (EGroupJoined _ name inviter) => notice (b#"Joined " ++ name ++ b#" from " ++ inviter)
  | RFlow (EReceipt _ from _ _) => notice (b#"Delivered to " ++ from)
  | RFlow _ => retM tt
  | RNotice message => notice message
  | RError message => let! _ := on_auth (with_busy false) in show_error message
  | RLoginRequested _ =>
      let! _ := on_auth (λ a, with_login_requested true (with_busy false a)) in
      notice b#"Check your email for the login code"
  | RAccountAuthenticated context =>
      let! _ := on_auth (with_busy false) in
      let! accepted := tryM (accept_account context) in
      match accepted with Ok _ => retM tt | Err e => show_error (err_text e) end
  | RDeviceCurrent current =>
      let! _ := on_profile (λ p, mkProfile (pf_display_name p) (pf_my_handle p) (pf_record_blob p) (negb current)) in
      if current then retM tt else show_error b#"This device was replaced. Messages are disabled."
  | RMessageFinished user_id draft result =>
      let! _ := on_compose (message_finished user_id draft (is_err result)) in
      match result with Ok message => notice message | Err e => show_error e end
  end.

(** One turn of the loop of [drain_events]: whether there was an event. *)
Definition drain_event : Dk bool := λ d,
  match dk_events d with
  | [] => (Ok false, d)
  | event :: events =>
      let '(r, d) := handle_event event (set_events events d) in ((let? _ := r in Ok true), d)
  end.
Fixpoint drain_events (fuel : nat) : Pd unit :=
  match fuel with
  | O => Spin
  | Datatypes.S fuel => let# more := atomic drain_event in if more : bool then drain_events fuel else okP tt
  end.

(** ** The turns of the threads *)
Definition outbox_turn (session : Session) : Pd unit :=
  let# (running, current) := atomic (core (mobile.in_session (λ s,
    (Ok (runtime.dn_running (mobile.ss_network s), mobile.ss_device_current s), s)))) in
  if negb running || negb current then okP tt
  else
    let# now := atomic now in
    catchP (on_session (runtime.flush_shared_outbox (mobile.ss_identity session) now)) (λ result,
      match result with
      | Ok result =>
          let n := runtime.fl_delivered result in
          if (0 <? n)%nat
          then atomic (send_event (RNotice (b#"Delivered " ++ decimal (N.of_nat n) ++ b#" pending "
                 ++ (if (n =? 1)%nat then b#"message" else b#"messages"))))
          else okP tt
      | Err _ => okP tt
      end).

Definition monitor_turn (identity : Identity) (registry : RegistryClient) (account_id : str) : Pd unit :=
  catchP (atomic (asking (get_record registry account_id))) (λ found,
    match found with
    | Ok (Some record) =>
        let current := mobile.is_active identity record in
        let# _ := atomic (change_session (mobile.with_current current)) in
        atomic (send_event (RDeviceCurrent current))
    | _ => okP tt
    end).

(** One frame of the listener: the reply. *)
Definition serve_linux_connection (input : bytes) : Dk (option bytes) := λ d,
  let c := dk_core d in
  match mobile.mb_session c with
  | None => (Ok None, d)
  | Some s =>
      let '(reply, flow, p, store) :=
        serve_connection (runtime.dn_running (mobile.ss_network s)) (mobile.ss_device_current s)
          (mobile.ss_identity s) (mobile.ss_own_record s) input (mobile.mb_platform c) (mobile.ss_store s) in
      let events := map RFlow flow ++ (match reply with Some _ => [RNotice b#"New message received"] | None => [] end) in
      (Ok reply, set_events (dk_events d ++ events)
                   (set_core (mobile.set_platform p (mobile.set_session (Some (mobile.with_store store s)) c)) d))
  end.

(** [Drop] *)
Definition drop_client (d : Desktop) : Desktop := set_core (mobile.drop_client (dk_core d)) d.
End Linux.
End linux.
