(* ===== verification/LinuxProps.v ===== *)
(** * LinuxProps: properties of the desktop client

    What the user writes stays with its conversation until it is sent or edited;
    the button that sends takes the text exactly if the message goes to a thread;
    the wallet key given to the registry is never lost; a replaced device is
    silent; the queue of events is emptied. *)

From S2P Require Import Prelude Interleave Std Crypto Wire Identity UserId Records X3DH Group Message Delivery Storage FileStore Sealing LocalState Antirollback History Groups WireOps Peerbook Outbox Flow RegistryClient Client Runtime Shell Send Mobile Linux Instances.

(** ** The text being written

    The window's text field and its selection, with the message that a thread is
    sending, if any. *)
Section Writing.
Import linux.
Implicit Types (c : Compose) (u v t d : str) (p : option (str * str)).

Inductive WriteAction : Type :=
  | Typed (text : str)
  | Selected (user_id : str)
  | Sent
  | Finished (failed : bool).

Definition typed t c : Compose :=
  mkCompose (cm_selected_user_id c) (cm_new_recipient c) t (cm_drafts c) (cm_message_busy c).
Definition write_step (a : WriteAction) (s : Compose * option (str * str)) : Compose * option (str * str) :=
  let '(c, p) := s in
  match a, p with
  | Typed t, _ => (typed t c, p)
  | Selected u, _ => (select_conversation u c, p)
  | Sent, _ =>
      if cm_message_busy c || bool_decide (cm_selected_user_id c = []) || bool_decide (trim (cm_message c) = [])
      then (c, p) else (take_message c, Some (cm_selected_user_id c, trim (cm_message c)))
  | Finished failed, Some (u, d) => (message_finished u d failed c, None)
  | Finished _, None => (c, p)
  end.
Definition write (acts : list WriteAction) (s : Compose * option (str * str)) := fold_left (λ s a, write_step a s) acts s.
Definition blank : Compose := mkCompose [] [] [] ∅ false.

(** The text of a conversation: in the window, or kept for the next visit. *)
Definition written u c : str :=
  if bool_decide (cm_selected_user_id c = u) && negb (bool_decide (cm_message c = []))
  then cm_message c else default [] (cm_drafts c !! u).

(** The actions by which the user changes the text of [u]. *)
Fixpoint left_alone u (acts : list WriteAction) (s : Compose * option (str * str)) : Prop :=
  match acts with
  | [] => True
  | a :: acts =>
      match a with Typed _ | Sent => cm_selected_user_id s.1 ≠ u | _ => True end ∧ left_alone u acts (write_step a s)
  end.

(** The text that comes back because sending it failed. *)
Fixpoint returned u p (acts : list WriteAction) : str :=
  match p, acts with
  | Some (v, d), Finished failed :: _ => if failed && bool_decide (v = u) then d else []
  | Some _, _ :: acts => returned u p acts
  | _, _ => []
  end.

(** No kept text is empty; a message is on its way exactly while the button is off,
    and nothing is kept for its conversation while that is on show. *)
Definition write_inv (s : Compose * option (str * str)) : Prop :=
  map_Forall (λ _ t, t ≠ []) (cm_drafts s.1) ∧
  (cm_message_busy s.1 = true ↔ is_Some s.2) ∧
  ∀ u d, s.2 = Some (u, d) → d ≠ [] ∧ u ≠ [] ∧ (cm_selected_user_id s.1 = u → cm_drafts s.1 !! u = None).

Lemma write_inv_step a s : write_inv s → write_inv (write_step a s).
Proof.
  destruct s as [c p]. intros (Hd & Hb & Hp). cbn [fst snd] in *. unfold write_step.
  destruct a as [t|v| |failed].
  - by split_and!.
  - unfold select_conversation, write_inv. cbn [fst snd cm_drafts cm_message_busy cm_selected_user_id].
    split_and!; [|done|].
    + apply map_Forall_delete. unfold stashed. destruct (_ && _) eqn:Ht; [|done]. apply map_Forall_insert_2; [|done].
      apply andb_true_iff in Ht as [_ Ht]. by apply negb_true_iff, bool_decide_eq_false in Ht.
    + intros u d Hu. destruct (Hp u d Hu) as (? & ? & _). split_and!; [done..|]. intros ->. apply lookup_delete_eq.
  - destruct (_ || _) eqn:Hg; [by split_and!|]. apply orb_false_iff in Hg as [Hg Ht].
    apply orb_false_iff in Hg as [_ Hu]. apply bool_decide_eq_false in Hu, Ht.
    split_and!; cbn [fst snd take_message cm_drafts cm_message_busy cm_selected_user_id].
    + by apply map_Forall_delete.
    + done.
    + intros u d [= <- <-]. split_and!; [done..|]. intros _. apply lookup_delete_eq.
  - destruct p as [[u d]|]; [|by split_and!]. destruct (Hp u d eq_refl) as (Hne & _ & _).
    unfold message_finished. destruct failed; cbn [negb]; [|by split_and!; cbn; [| |done]].
    destruct (_ && _); split_and!; cbn; try done.
    destruct (cm_drafts c !! u); [done|]. by apply map_Forall_insert_2.
Qed.
Lemma write_inv_run acts s : write_inv s → write_inv (write acts s).
Proof. revert s. induction acts as [|a acts IH]; intros s Hs; [done|]. by apply IH, write_inv_step. Qed.
Lemma write_inv_blank : write_inv (blank, None).
Proof. split_and!; cbn; [apply map_Forall_empty|by split; [|intros []]|done]. Qed.

(** A visit to another conversation keeps every text. *)
Lemma select_written u v c : u ≠ [] → written u (select_conversation v c) = written u c.
Proof.
  intros Hu. assert (default [] (stashed c !! u) = written u c) as Hk.
  { unfold stashed, written. destruct (decide (cm_selected_user_id c = u)) as [->|Hs].
    - rewrite (bool_decide_eq_false_2 (u = [])), (bool_decide_eq_true_2 (u = u)) by done. cbn [negb andb].
      case_bool_decide; cbn [negb]; [done|]. by rewrite lookup_insert_eq.
    - rewrite (bool_decide_eq_false_2 (_ = u)) by done. destruct (_ && _); [|done].
      by rewrite lookup_insert_ne. }
  rewrite <-Hk. unfold written, select_conversation. cbn [cm_selected_user_id cm_message cm_drafts].
  destruct (decide (v = u)) as [->|Hv].
  - rewrite bool_decide_eq_true_2 by done. case_bool_decide as He; cbn [negb andb]; [|done].
    by rewrite lookup_delete_eq.
  - rewrite bool_decide_eq_false_2 by done. cbn [andb]. by rewrite lookup_delete_ne.
Qed.

Lemma written_if (x : str) : (if negb (bool_decide (x = [])) then x else []) = x.
Proof. by case_bool_decide as He; cbn; [rewrite He|]. Qed.

Lemma finish_written u v d c :
  (cm_selected_user_id c = v → cm_drafts c !! v = None) → map_Forall (λ _ t, t ≠ []) (cm_drafts c) →
  written u (message_finished v d true c) =
  if negb (bool_decide (written u c = [])) then written u c else if bool_decide (v = u) then d else [].
Proof.
  intros Hnone Hd. unfold message_finished. cbn [negb].
  destruct (decide (cm_selected_user_id c = v)) as [Hv|Hv];
    [rewrite (bool_decide_eq_true_2 (_ = v)) by done|rewrite (bool_decide_eq_false_2 (_ = v)) by done]; cbn [andb].
  - specialize (Hnone Hv). destruct (decide (cm_message c = [])) as [Hm|Hm].
    + rewrite (bool_decide_eq_true_2 (cm_message c = [])) by done.
      unfold written. cbn [cm_message cm_drafts cm_selected_user_id].
      rewrite Hm, (bool_decide_eq_true_2 ([] = [])), andb_false_r, Hv by done.
      destruct (decide (v = u)) as [->|Hu].
      * rewrite Hnone, (bool_decide_eq_true_2 (u = u)) by done. cbn. by case_bool_decide as Hne; cbn; [rewrite Hne|].
      * rewrite (bool_decide_eq_false_2 (v = u)) by done. cbn [andb]. by rewrite written_if.
    + rewrite (bool_decide_eq_false_2 (cm_message c = [])), Hnone by done.
      unfold written. cbn [cm_message cm_drafts cm_selected_user_id].
      rewrite (bool_decide_eq_false_2 (cm_message c = [])), Hv by done.
      destruct (decide (v = u)) as [->|Hu].
      * rewrite (bool_decide_eq_true_2 (u = u)) by done. cbn [andb negb]. by rewrite bool_decide_eq_false_2.
      * rewrite (bool_decide_eq_false_2 (v = u)) by done. cbn [andb]. rewrite written_if.
        by rewrite lookup_insert_ne.
  - destruct (decide (v = u)) as [->|Hu].
    + unfold written. cbn [cm_message cm_drafts cm_selected_user_id].
      rewrite (bool_decide_eq_true_2 (u = u)), (bool_decide_eq_false_2 (_ = u)) by done. cbn [andb].
      destruct (cm_drafts c !! u) as [x|] eqn:Hx; cbn [default].
      * specialize (Hd _ _ Hx). cbn in Hd. rewrite Hx. cbn. by rewrite bool_decide_eq_false_2.
      * by rewrite lookup_insert_eq.
    + rewrite (bool_decide_eq_false_2 (v = u)) by done.
      rewrite written_if. unfold written. cbn [cm_message cm_drafts cm_selected_user_id].
      destruct (cm_drafts c !! v); [done|]. by rewrite lookup_insert_ne.
Qed.

(** Other conversations are not the user's concern while one is left alone. *)
Lemma step_written u a s :
  u ≠ [] → write_inv s → left_alone u [a] s →
  written u (write_step a s).1 =
  if negb (bool_decide (written u s.1 = [])) then written u s.1 else returned u s.2 [a].
Proof.
  destruct s as [c p]. intros Hu (Hd & Hb & Hp) [Ha _]. cbn [fst snd] in *.
  destruct a as [t|v| |failed]; cbn [write_step fst].
  - assert (returned u p [Typed t] = []) as -> by (by destruct p as [[]|]). rewrite written_if.
    unfold written. cbn. by rewrite bool_decide_eq_false_2.
  - assert (returned u p [Selected v] = []) as -> by (by destruct p as [[]|]). rewrite written_if.
    by apply select_written.
  - assert (returned u p [Sent] = []) as -> by (by destruct p as [[]|]). rewrite written_if.
    destruct (_ || _); [done|]. unfold written, take_message. cbn [fst cm_message cm_drafts cm_selected_user_id].
    rewrite bool_decide_eq_false_2 by done. cbn [andb]. by rewrite lookup_delete_ne.
  - destruct p as [[v d]|]; [|by rewrite written_if]. cbn [fst returned].
    destruct failed; cbn [andb]; [apply finish_written; [|done]; apply (Hp v d eq_refl)|].
    rewrite written_if. done.
Qed.

Lemma returned_other u v d acts : v ≠ u → returned u (Some (v, d)) acts = [].
Proof.
  intros Hv. induction acts as [|a acts IH]; [done|]. destruct a; cbn; try done.
  rewrite bool_decide_eq_false_2 by done. by rewrite andb_false_r.
Qed.
(** What comes back comes with this action or with a later one. *)
Lemma returned_split u a acts s :
  write_inv s → left_alone u [a] s →
  returned u s.2 (a :: acts) =
  if negb (bool_decide (returned u s.2 [a] = [])) then returned u s.2 [a] else returned u (write_step a s).2 acts.
Proof.
  destruct s as [c p]. intros (_ & Hb & _) [Ha _]. cbn [fst snd] in *.
  assert (∀ acts, returned u None acts = []) as Hnone by (by intros []).
  destruct p as [[v d]|].
  - assert (cm_message_busy c = true) as Hbusy by (apply Hb; eauto).
    destruct a as [t|w| |failed]; cbn -[bool_decide]; try done.
    + by rewrite Hbusy.
    + rewrite Hnone. by rewrite written_if.
  - rewrite Hnone. destruct a as [t|w| |failed]; cbn -[bool_decide]; rewrite ?Hnone; [done..| |done].
    destruct (_ || _); cbn [snd]; [by rewrite Hnone|]. by rewrite returned_other.
Qed.

End Writing.

(** ** The programs of the threads *)
Section Threads.
Context {crypto : Crypto} {P N H : Type} `{!Platform P, !Reticulum N H, !Agent H, !Postcard (list StorageMutation)}
  `{!Postcard IdentityClaim, !Postcard (WalletPublicKey * DeviceRecord), !Postcard DeviceRecord,
    !Postcard ReachabilityRecord, !Postcard VersionPins, !Postcard WalletPublicKey,
    !Postcard contacts.Contact, !Postcard (list str), !Postcard (list (str * str)),
    !Postcard AppMessage, !Postcard attachments.StoredAttachment, !Postcard StoredGroup,
    !Postcard (list StoredMessage), !Postcard (list GroupStoredMessage), !Postcard SegMeta,
    !Postcard (list peerbook.PeerRecord), !Json GroupInvitePayload, !Json GroupLeavePayload,
    !Postcard SignedRecord, !Postcard str, !Postcard u64, !Postcard outbox.OutboxEntry,
    !Postcard (list outbox.OutboxEntry), !Postcard (list outbox.LegacyOutboxEntry),
    !Postcard inbox.AcceptedDelivery, !Postcard (list inbox.AcceptedDelivery),
    !Postcard MailItem, !Postcard PeerFrame, !Postcard AckBody, !Json RegistrySession,
    !Json EmailRequest, !Json EmailResponse, !Json ConfirmRequest, !Json ConfirmResponse,
    !Argon2, !Json Sealed, !Json Secret}.
Import linux.
Abbreviation Desktop := (@linux.Desktop P N H).
Abbreviation Pd A := (Prog Desktop error A).

Create HintDb only_core.
(** A program on the core ends and leaves the rest of the window as it was. *)
Definition only_core {A} (m : Pd A) : Prop := ∀ d, ∃ r c, Interleave.run m d = (Some r, set_core c d).

Lemma only_core_ret {A} (r : result error A) : only_core (Ret r).
Proof. intros d. exists r, (dk_core d). by destruct d. Qed.
Lemma only_core_atomic {A} (f : M (@mobile.Mobile P N H) A) : only_core (atomic (core f)).
Proof. intros d. cbn. unfold core. destruct (f _) as [r c]. eauto. Qed.
Lemma only_core_read {A} (f : Desktop → result error A) : only_core (atomic (readM f)).
Proof. intros d. exists (f d), (dk_core d). by destruct d. Qed.
Lemma only_core_catch {A B} (m : Pd A) (k : result error A → Pd B) :
  only_core m → (∀ r, only_core (k r)) → only_core (catchP m k).
Proof.
  intros Hm Hk d. destruct (Hm d) as (r & c & Hr). rewrite run_catch, Hr.
  destruct (Hk r (set_core c d)) as (r' & c' & ->). exists r', c'. by destruct d.
Qed.
Lemma only_core_bind {A B} (m : Pd A) (k : A → Pd B) :
  only_core m → (∀ a, only_core (k a)) → only_core (bindP m k).
Proof.
  intros Hm Hk d. destruct (Hm d) as ([a|e] & c & Hr); rewrite run_bind, Hr; [|eauto].
  destruct (Hk a (set_core c d)) as (r' & c' & ->). exists r', c'. by destruct d.
Qed.
Lemma only_core_on_core {A} (m : Prog (@mobile.Mobile P N H) error A) : loop_free m → only_core (on_core m).
Proof.
  induction m as [r| |X f k IH]; intros Hm d; cbn in *; [|done|].
  - exists r, (dk_core d). by destruct d.
  - destruct (f (dk_core d)) as [x c]. destruct (IH x (Hm x) (set_core c d)) as (r' & c' & ->).
    exists r', c'. by destruct d.
Qed.
Lemma on_session_loop_free {A} (m : Prog (runtime.Shared FileStore P (runtime.DirectNetwork N H)) error A) :
  loop_free m → loop_free (mobile.on_session m).
Proof. induction m as [r| |X f k IH]; cbn; [done..|]. intros Hm [x|]; [apply IH, Hm|done]. Qed.
Lemma only_core_session {A} (m : Prog (runtime.Shared FileStore P (runtime.DirectNetwork N H)) error A) :
  loop_free m → only_core (on_session m).
Proof. intros Hm. by apply only_core_on_core, on_session_loop_free. Qed.

Lemma deliver_loop_free now prepared outcome :
  loop_free (send.deliver_prepared (P := P) (N := N) (H := H) now prepared outcome).
Proof.
  revert outcome. induction prepared as [|[[id device] item] prepared IH]; intros outcome; cbn -[runtime.attempt_parked_delivery]; [done|].
  apply loop_free_bind; [|intros ?; apply IH].
  apply loop_free_bind; [|intros accepted; by apply loop_free_bind]. unfold runtime.push.
  apply loop_free_bind; [done|]. intros [node|]; [|done]. apply loop_free_bind; [done|]. by intros [].
Qed.
#[local] Hint Resolve only_core_ret only_core_atomic only_core_read only_core_catch only_core_bind only_core_session
  deliver_loop_free : only_core.

Lemma only_core_send identity url me u text :
  only_core (send_message_now (P := P) (N := N) (H := H) identity url me u text).
Proof.
  unfold send_message_now, now. repeat (apply only_core_bind; [auto with only_core|]; intros ?).
  destruct a2 as [[outcome prepared] t]. apply only_core_bind; [auto with only_core|]. intros o.
  repeat case_match; apply only_core_ret.
Qed.
Definition ready (d : Desktop) : bool :=
  let c := dk_compose d in
  negb (cm_message_busy c) && negb (pf_device_replaced (dk_profile d)) && is_ok (Handle.new (trim (pf_my_handle (dk_profile d))))
  && negb (bool_decide (cm_selected_user_id c = [])) && negb (bool_decide (trim (cm_message c) = []))
  && match mobile.mb_session (dk_core d) with Some s => mobile.ss_device_current s | None => false end.

(** The text leaves the window exactly if it is handed to a thread, and that
    thread ends and reports once, naming the conversation and the text: so it is
    either sent or comes back.  Otherwise - a message is on its way, the device was
    replaced, is not set up or is locked, no conversation is chosen or nothing is
    written - only the banner changes: nothing is sent or stored. *)
Theorem send_hands_over (d : Desktop) :
  let c := dk_compose d in
  if ready d
  then ∃ x result, Interleave.run send_message d =
         (Some (Ok tt),
          set_events (dk_events d ++ [RMessageFinished (cm_selected_user_id c) (trim (cm_message c)) result])
            (set_banner (mkBanner [] []) (set_compose (take_message c) (set_core x d))))
  else ∃ banner, Interleave.run send_message d = (Some (Ok tt), set_banner banner d).
Proof.
  destruct d as [x dir auth [name h blob replaced] [sel rcp msg drafts busy] people banner v events].
  unfold ready. cbn -[send_message trim]. unfold send_message. rewrite run_bind. cbn -[send_message_now trim Handle.new take_message].
  unfold bindM, get, clear_banner, change, on_compose, retM, show_error. cbn -[send_message_now trim Handle.new take_message].
  destruct busy; [by eexists|]. destruct replaced; [by eexists|]. cbn [negb andb orb].
  destruct (match mobile.mb_session x with Some s => negb (mobile.ss_device_current s) | None => false end) eqn:Hr.
  { destruct (mobile.mb_session x) as [s|]; [|done]. apply negb_true_iff in Hr. rewrite Hr, andb_false_r. by eexists. }
  destruct (Handle.new (trim h)) as [me|e]; [|by eexists]. cbn [is_ok andb].
  destruct (bool_decide (sel = [])); [by eexists|]. destruct (bool_decide (trim msg = [])); [by eexists|].
  destruct (mobile.mb_session x) as [s|]; [|by eexists]. apply negb_false_iff in Hr. rewrite Hr. cbn [negb andb].
  cbn -[send_message_now trim take_message]. rewrite run_catch.
  edestruct only_core_send as (r & x' & ->). cbn -[trim take_message]. by eexists _, _.
Qed.
(** ** What an event may change

    The identity of the session stays, the account stays the same account, and no
    event is added to the queue. *)
Definition identity_of (d : Desktop) : option Identity := option_map mobile.ss_identity (mobile.mb_session (dk_core d)).
Definition goes_on (d d' : Desktop) : Prop :=
  identity_of d' = identity_of d ∧
  (∀ a, mobile.mb_account (dk_core d) = Some a →
     ∃ a', mobile.mb_account (dk_core d') = Some a' ∧ rs_account_id a' = rs_account_id a) ∧
  dk_events d' = dk_events d.
#[local] Instance goes_on_preorder : PreOrder goes_on.
Proof.
  split; [by intros d; split_and!; eauto|]. intros a b c (Hi & Ha & He) (Hi' & Ha' & He').
  split_and!; [congruence| |congruence]. intros x Hx. destruct (Ha x Hx) as (y & Hy & Hid).
  destruct (Ha' y Hy) as (z & Hz & Hid'). exists z. split; [done|congruence].
Qed.
Abbreviation steady := (keeps goes_on).

Lemma window_change f : (∀ d, goes_on d (f d)) → steady (change f).
Proof. intros Hf d. apply Hf. Qed.
Lemma window_asking {A} (f : M H A) : steady (asking f).
Proof. intros d. unfold asking, core, mobile.on_registry. destruct (f _). by split_and!; eauto. Qed.
Lemma window_in_session {A} (f : @mobile.Session N → result error A * @mobile.Session N) :
  (∀ s, mobile.ss_identity (f s).2 = mobile.ss_identity s) → steady (core (mobile.in_session f)).
Proof.
  intros Hf d. unfold core, mobile.in_session. destruct (mobile.mb_session (dk_core d)) as [s|] eqn:Hs.
  - pose proof (Hf s) as Hi. destruct (f s) as [r s']. split_and!; cbn; [|eauto|done].
    unfold identity_of. rewrite Hs. cbn in *. by rewrite Hi.
  - split_and!; cbn; [|eauto|done]. unfold identity_of. cbn. by rewrite Hs.
Qed.
#[local] Hint Resolve window_change window_asking window_in_session : keeps.
#[local] Hint Extern 1 (goes_on _ _) => (by split_and!; cbn; eauto) : keeps.
#[local] Hint Extern 1 (steady (get _)) => apply keeps_same : keeps.
Lemma window_in_store {A} (f : M FileStore A) : steady (in_store f).
Proof. unfold in_store, session_mut. go_keeps. apply window_in_session. intros s. by destruct (f _). Qed.
Lemma window_session f : (∀ s, mobile.ss_identity (f s) = mobile.ss_identity s) → steady (change_session f).
Proof. intros Hf. by apply window_in_session. Qed.
Lemma window_monitor : steady start_account_monitor.
Proof. apply window_change. intros d. cbn beta zeta. destruct (_ && _ && _); split_and!; cbn; eauto. Qed.
#[local] Hint Resolve window_in_store window_session window_monitor : keeps.
#[local] Hint Extern 1 (∀ s, mobile.ss_identity _ = _) => (by intros ?) : keeps.

Lemma window_for_session context local : steady (accept_for_session (P := P) (N := N) (H := H) context local).
Proof. unfold accept_for_session, on_profile. go_keeps. Qed.
Lemma window_for_setup context : steady (accept_for_setup (P := P) (N := N) (H := H) context).
Proof. unfold accept_for_setup, on_profile, on_auth. go_keeps. Qed.
#[local] Hint Resolve window_for_session window_for_setup : keeps.

Lemma window_accept context : steady (accept_account (P := P) (N := N) (H := H) context).
Proof.
  intros d. unfold accept_account, account, get. unfold bindM at 1.
  destruct (match mobile.mb_account (dk_core d) with Some a => _ | None => false end) eqn:Ha; [reflexivity|].
  unfold bindM at 1.
  set (first := match mobile.mb_session (dk_core d) with Some local => _ | None => _ end).
  assert (steady first) as Hf by (unfold first; go_keeps). clearbody first.
  unfold bindM at 1. pose proof (Hf d) as Hd. destruct (first d) as [[u|e] d1]; [|done]. cbn [snd] in Hd.
  unfold bindM at 1. cbn [change].
  set (d2 := set_core _ d1).
  assert (goes_on d d2) as H2.
  { destruct Hd as (Hi & Hacc & He). split_and!; [done| |done]. intros a Hd.
    rewrite Hd in Ha. eexists. split; [done|]. by apply negb_false_iff, bool_decide_eq_true in Ha. }
  clearbody d2. transitivity d2; [done|].
  match goal with |- goes_on _ (?m d2).2 => enough (steady m) as Hm by apply Hm end.
  unfold on_auth, note. go_keeps.
Qed.
#[local] Hint Resolve window_accept : keeps.

Lemma window_event event : steady (handle_event (P := P) (N := N) (H := H) event).
Proof.
  destruct event as [[]| | | | | |]; unfold handle_event, on_auth, on_compose, on_profile, notice, show_error, select;
    go_keeps.
Qed.
Lemma handle_event_ok event d : (handle_event (P := P) (N := N) (H := H) event d).1 = Ok tt.
Proof.
  destruct event as [[]| | | | |current|u t []]; try reflexivity; unfold handle_event, on_auth, change, bindM, retM.
  - unfold get, select, on_compose, change, notice. cbn. by case_bool_decide.
  - unfold tryM. destruct (accept_account _ _) as [[]]; reflexivity.
  - by destruct current.
Qed.

(** Each event is taken off the queue and handled. *)
Fixpoint handle_all (events : list RuntimeEvent) (d : Desktop) : Desktop :=
  match events with
  | [] => d
  | event :: events => handle_all events (handle_event event (set_events events d)).2
  end.

(** Whatever the threads report, draining their events ends: every event is
    handled once, in the order of arrival, and the queue is empty; none of them
    replaces the identity of the session or changes the account the window is
    logged in to. *)
Theorem events_drain (d : Desktop) :
  let d' := handle_all (dk_events d) d in
  Interleave.run (drain_events (S (length (dk_events d)))) d = (Some (Ok tt), d') ∧
  dk_events d' = [] ∧ identity_of d' = identity_of d ∧
  ∀ a, mobile.mb_account (dk_core d) = Some a →
    ∃ a', mobile.mb_account (dk_core d') = Some a' ∧ rs_account_id a' = rs_account_id a.
Proof.
  cbn zeta. remember (dk_events d) as events eqn:He. revert d He.
  induction events as [|e events IH]; intros d He; symmetry in He; cbn [handle_all length].
  { split_and!; [|done..|eauto]. cbn. unfold drain_event. by rewrite He. }
  pose proof (window_event e (set_events events d)) as (Hi & Ha & Hq).
  pose proof (handle_event_ok e (set_events events d)) as Hok.
  destruct (handle_event e (set_events events d)) as [r d1] eqn:Hd. cbn [fst snd] in *. subst r.
  destruct (IH d1) as (IHr & IHq & IHi & IHa); [done|]. split_and!; [|done|by rewrite IHi|].
  - change (drain_events (S (S (length events)))) with
      (let# more := atomic drain_event in
       if more : bool then drain_events (P := P) (N := N) (H := H) (S (length events)) else okP tt).
    rewrite run_bind. cbn [Interleave.run atomic]. unfold drain_event at 1. rewrite He, Hd. exact IHr.
  - intros a Hacc. destruct (Ha a Hacc) as (b & Hb & Hid). destruct (IHa b Hb) as (b' & Hb' & Hid').
    exists b'. split; [done|congruence].
Qed.

(** ** Setting up the device *)
Section SetUp.
Context {laws : CryptoLaws} (create : P → result error Identity * P)
  (Hcreate : ∀ p i, (create p).1 = Ok i → Identity.wf i).

(** What the setting up of the device does after the identity was saved. *)
Definition same_home (d d' : Desktop) : Prop :=
  dk_dir d' = dk_dir d ∧ au_identity_exists (dk_auth d') = au_identity_exists (dk_auth d).
#[local] Instance same_home_preorder : PreOrder same_home.
Proof. split; [done|]. intros a b c [Ha Hb] [Hc Hd]. split; congruence. Qed.
Abbreviation home := (keeps same_home).

Lemma home_change f : (∀ d, same_home d (f d)) → home (change f).
Proof. intros Hf d. apply Hf. Qed.
Lemma home_core {A} (f : M (@mobile.Mobile P N H) A) : home (core f).
Proof. intros d. unfold core. by destruct (f _). Qed.
Lemma home_session : home session_mut.
Proof. apply keeps_same, _. Qed.
Lemma home_history identity : home (open_history (P := P) (N := N) (H := H) identity).
Proof. intros d. unfold open_history. by destruct (FileStore.open _ _) as [[]]. Qed.
#[local] Hint Resolve home_change home_core home_session home_history : keeps.
#[local] Hint Extern 1 (same_home _ _) => (split; reflexivity) : keeps.
#[local] Hint Extern 1 (home (get _)) => apply keeps_same : keeps.
Lemma home_store {A} (f : M FileStore A) : home (in_store f).
Proof. unfold in_store. go_keeps. Qed.
#[local] Hint Resolve home_store : keeps.
Lemma home_closing {A} (store : FileStore) (r : result error A) :
  home (closing (P := P) (N := N) (H := H) store r).
Proof. unfold closing. go_keeps. Qed.
#[local] Hint Resolve home_closing : keeps.
Lemma home_open identity : home (open_session (P := P) (N := N) (H := H) identity).
Proof. unfold open_session, on_auth, now. go_keeps. Qed.
Lemma home_publish : home (publish_profile (P := P) (N := N) (H := H)).
Proof. unfold publish_profile, announce, start_listener, on_profile, change_session, asking, account, now. go_keeps. Qed.
Lemma home_monitor : home (start_account_monitor (P := P) (N := N) (H := H)).
Proof. apply home_change. intros d. cbn beta zeta. by destruct (_ && _ && _). Qed.
#[local] Hint Resolve home_open home_publish home_monitor : keeps.

(** The checks that come first. *)
Definition startable (d : Desktop) : bool :=
  let a := dk_auth d in
  negb (au_identity_exists a) && bool_decide (is_Some (mobile.mb_account (dk_core d)))
  && bool_decide (au_passphrase a = au_passphrase_confirmation a)
  && negb (chars_count (au_passphrase a) <? MIN_PASSPHRASE_LEN)%nat
  && is_ok (Handle.new (trim (pf_my_handle (dk_profile d)))).

(** The wallet key that the registry has for the account: the one it gave at the
    login, or the one of the new identity that it takes now. *)
Definition wallet_key_given (d : Desktop) : option (arr 32) :=
  match au_pending_recovery (dk_auth d) with
  | Some w => Some w
  | None =>
      match mobile.mb_account (dk_core d), (create (mobile.mb_platform (dk_core d))).1 with
      | Some account, Ok i =>
          match RegistryClient_new (rs_registry_url account) with
          | Ok registry =>
              match (put_recovery registry account (Identity.wallet_secret i) (mobile.mb_host (dk_core d))).1 with
              | Ok _ => Some (Identity.wallet_secret i)
              | Err _ => None
              end
          | Err _ => None
          end
      | _, _ => None
      end
  end.

Lemma choose_spec account d w :
  mobile.mb_account (dk_core d) = Some account → wallet_key_given d = Some w →
  let '(r, d') := choose_identity create account d in
  au_pending_recovery (dk_auth d') = Some w ∧
  ∀ i, r = Ok i → Identity.wallet_secret i = w ∧ Identity.wf i.
Proof.
  intros Ha. unfold wallet_key_given, choose_identity, get. rewrite Ha. unfold bindM at 1.
  destruct (au_pending_recovery (dk_auth d)) as [w'|] eqn:Hp.
  - intros [= ->]. unfold core, mobile.on_random, client.adopt_identity, Identity.adopt.
    destruct (fill_random _ 32) as [seed p]. destruct (Identity.build w seed) as [i|e] eqn:Hb; cbn.
    + split; [done|]. intros j [= <-]. split; [by destruct (Identity.build_inv _ _ _ Hb)|by eapply Identity.build_wf].
    + by split.
  - unfold bindM at 1, core, mobile.on_random.
    destruct (create (mobile.mb_platform (dk_core d))) as [[i|e] p] eqn:Hc; cbn [fst]; [|done].
    assert (Identity.wf i) as Hi by (eapply Hcreate; by rewrite Hc).
    destruct (RegistryClient_new _) as [registry|]; [|done]. intros Hw. unfold bindM, liftM, asking, core, mobile.on_registry.
    cbn [dk_core set_core mobile.mb_host mobile.set_platform].
    destruct (put_recovery _ _ _ _) as [[u|e] h]; [|done]. injection Hw as <-. cbn. split; [done|]. by intros j [= <-].
Qed.

(** The key is remembered for another attempt, or its identity is on disk. *)
Definition key_kept (passphrase : str) (w : arr 32) (d : Desktop) : Prop :=
  au_pending_recovery (dk_auth d) = Some w ∨
  au_identity_exists (dk_auth d) = true ∧
  ∃ i, Identity.wallet_secret i = w ∧ saved i passphrase (files (dk_dir d)).

Lemma settle_kept account i passphrase d :
  au_pending_recovery (dk_auth d) = Some (Identity.wallet_secret i) → Identity.wf i →
  key_kept passphrase (Identity.wallet_secret i) (settle account i passphrase d).2.
Proof.
  intros Hp Hwf. unfold settle. unfold bindM at 1. unfold on_dir at 1.
  destruct (save_identity_with_passphrase_at i passphrase (dk_dir d)) as [[[]|e] h] eqn:Hs; [|by left].
  pose proof (save_ok_saved _ _ _ _ Hwf Hs) as Hsaved. unfold bindM at 1. unfold on_auth at 1, change at 1.
  match goal with |- key_kept _ _ (?m ?d1).2 =>
    assert (keeps same_home m) as Hm by (unfold on_auth; go_keeps); destruct (Hm d1) as [Hd He] end.
  right. rewrite He, Hd. split; [done|]. by exists i.
Qed.

Lemma run_banner ok (action : M Desktop unit) d :
  ∃ banner, (linux.run ok action d).2 = set_banner banner (action (set_banner (mkBanner [] []) d)).2.
Proof.
  unfold linux.run, clear_banner, note, change, tryM. unfold bindM at 1 2.
  destruct (action _) as [[u|e] d']; eexists; done.
Qed.

End SetUp.
End Threads.
