(* ===== verification/LinuxWitness.v ===== *)
(** * LinuxWitness: the theorems on the desktop client at concrete inputs

    The texts of two conversations, and the first setting up of a device. *)

From S2P Require Import Prelude Std Crypto Wire Identity UserId Records X3DH Group GroupSession Message Delivery Storage FileStore FileStoreProps Recovery Sealing LocalState LocalProps Antirollback History HistoryProps Groups Codecs WireOps Peerbook PeerbookProps Flow FlowProps EndToEnd FlowWitness Outbox OutboxProps Registry RegistryWitness RegistryClient Client Runtime Shell Interleave Frame Acceptance Peers Delivered ClientWitness Send Mobile MobileProps MobileWitness Linux LinuxProps Instances.

(** ** Texts *)


(** The text comes back to its own conversation. *)
Example failed_text_returns :
  let s := write [Selected b#"b"; Typed b#"one"; Sent; Selected b#"c"; Finished true] (blank, None) in
  (written b#"b" s.1, written b#"c" s.1, written b#"b" (write [Selected b#"b"] s).1) = (b#"one", [], b#"one").
Proof. vm_compute. reflexivity. Qed.

(** It is lost where the user has begun another text: it is kept behind it, and
    the next change of conversation writes the newer one over it. *)
Example failed_text_lost :
  let s := write [Selected b#"b"; Typed b#"one"; Sent; Typed b#"two"; Finished true] (blank, None) in
  (linux.cm_drafts s.1 !! b#"b",
   let c := (write [Selected b#"c"; Selected b#"b"] s).1 in (linux.cm_message c, linux.cm_drafts c !! b#"b")) =
  (Some b#"one", (b#"two", None)).
Proof. vm_compute. reflexivity. Qed.

(** ** Setting up a device *)
Abbreviation Desk := (linux.Desktop (P := N) (N := unit) (H := Answers)).
Definition account : RegistrySession := RegistryClient.mkSession b#"https://registry" b#"account" b#"token" (i_sat 900).
Definition desk (h : Answers) : Desk :=
  linux.mkDesktop (mobile.set_account (Some account) (phone h)) (mkHost ∅ Unlocked (λ _, false) true [])
    (linux.mkAuth false [] [] false false false None None b#"long enough" b#"long enough")
    (linux.mkProfile [] b#"alice" [] false) (linux.mkCompose [] [] [] ∅ false) (linux.mkPeople false [] [] [])
    (linux.mkBanner [] []) linux.VMessages [].

(** Whether the window still has the wallet key, and whether the passphrase opens the identity file. *)
Definition outcome (d : Desk) : str * bool * bool :=
  (linux.bn_error (linux.dk_banner d), bool_decide (is_Some (linux.au_pending_recovery (linux.dk_auth d))),
   is_ok (load_identity_with_passphrase_from b#"long enough"
            (mkHost (files (linux.dk_dir d)) Unlocked (λ _, false) true []))).

(** The registry takes the key; then the disk refuses the file, or the registry
    refuses the record, or no node can be started. *)
Definition full_disk (d : Desk) : Desk :=
  linux.set_dir (mkHost ∅ Unlocked (λ _, false) true (replicate 12 (mkStep FailBefore [] 0))) d.
Example set_up_failures :
  let after d := outcome (linux.create_identity create d).2 in
  (snd (fst (after (full_disk (desk [body []; body []])))), snd (after (full_disk (desk [body []; body []]))),
   after (desk [body []; Err Timeout]), after (desk [body []; body []])) =
  (true, false,
   (b#"could not publish active device: the registry took too long to respond", false, true),
   (b#"could not start Reticulum node", false, true)).
Proof. vm_compute. reflexivity. Qed.

